(* ===== verification/_CoqProject ===== *)
-Q . S2P
Prelude.v
Tls.v
Choice.v
NodeStack.v
NodeFile.v
Action.v
ReadFrom.v
CacheLine.v
Alloc.v
Vector.v
DList.v
HashTable.v
ThreadMemory.v
State.v
Scheduler.v
ModelCore.v
Spaces.v
Executor.v
Atomic.v
ReadSound.v
Recovery.v
Wf.v
ModelSafe.v
Buffers.v
Safety.v
Frame.v
Flush.v
History.v
Locks.v
Conditions.v
Execution.v
Evolve.v
Program.v
Api.v
Pthread.v
Machine.v
Waiting.v
Trace.v
Questions.v
Tested.v
Respect.v
Clients.v
Explore.v
Bounded.v
Unblocked.v
Tests.v
Fairness.v
Exclusion.v
MemApi.v
Resolve.v
ApiSpec.v
CopySpec.v
Init.v
Findings.v
