(* ===== verification/Prelude.v ===== *)
(** * CXLMC: a verification development for the CXL model checker

    ** The program

    CXLMC runs several processes that share CXL memory and explores what
    happens when they crash.  The programs under test are instrumented: their
    loads, stores, atomics, flushes and thread functions call the checker
    ([src/src/user/api.cc], [memapi.cc], [src/src/model/pthread.cc]), which turns
    each call into an action and hands it to [Model::action]
    ([src/src/model/model.cc]).  One thread of one process runs at a time; the
    scheduler ([scheduler.cc]) decides which.  Stores and flushes wait in the
    store buffer and the flush buffer of their thread ([thread_memory.cc]); when
    they are evicted they enter the store list of their word and get a sequence
    number.  For each cache line and process the checker keeps a window of
    sequence numbers ([cacheline.h]): stores up to its begin are in memory, those
    from its end on are lost if the process crashes.  A load
    ([Model::build_read_from]) that meets a store whose fate is open asks the
    decision stack ([nodestack.cc]), and so does every place where a process may
    crash; at the end of an execution the stack backtracks to its last open
    decision and the program runs again ([snapshot.cc]) until all decisions have
    been explored.

    ** The files

    Data and containers:
    - [Choice]: computations that ask the decision stack, as trees of questions;
      their program logic [wp] (all decision paths), [can] (some path).
    - [NodeStack], [NodeFile]: [nodestack.cc], the decision stack, the search that
      it drives, and its file format.
    - [Action]: [action.h], [action.cc].  [CacheLine]: [cacheline.h].
    - [ReadFrom]: the overlap functions of [thread_memory.h] and [rfentry.h].
    - [Alloc], [Vector], [DList], [HashTable]: [vector.h], [list.h],
      [hash_table.h] over explicit blocks, nodes and addresses.  The files of the
      checker itself use lists and finite maps: the refinement theorems of these
      files say that the containers behave like them.
    - [Spaces]: [allocators.h], [cxl_allocator.h], [cxl_allocator.c] and
      [init_cxl_space].  [Tls]: the thread-local storage part of [threads.cc].

    The checker:
    - [ThreadMemory]: [thread_memory.cc] against the interface [Evictor].
    - [State]: the records of the shared objects ([threads.h], [mutex.h],
      [scheduler.h], [model.h]) and the globals of one process.
    - [Scheduler]: [scheduler.cc].  [ModelCore]: the memory operations of
      [model.cc].  [Executor]: [Model::action], [process_store_buffer] and
      [executor.cc], [Mutex::set_owner].
    - [Execution]: the end and the start of executions in [model.cc], and
      [snapshot.cc].

    The program under test and the start:
    - [Program]: code of a thread as a sequence of actions.  [Api]: [api.cc].
      [Pthread]: [pthread.cc], [mutex.cc], [condition_variable.cc], [sleep.cc],
      [thread_start].  [MemApi]: [memapi.cc].  [Resolve]: [real_pthread.cc] and
      [init_memory_ops].  [Init]: [init.cc], [user.cc].
    - [Machine]: the threads of all processes, one turn at a time, from the image
      of memory that [main] gives the processes.
    - [Tested]: whole executions of a program under test, as positions in its code
      and as the tree of their decisions.  [Explore]: [main] from the options on,
      the child of [take_snapshot], and the exploration.

    Proofs only:
    - [ReadSound], [Recovery], [Flush], [History]: what loads return with respect
      to persistence.  [Trace]: runs of the machine as histories.
    - [Questions]: every question of the checker has two answers.  [Respect]: a
      program logic for code that calls the interface as it is meant, with the place
      of the CXL memory as a parameter; [Clients]: the code that is made of the
      functions of the interface ([client]) and its rules for the thread functions.
    - [Bounded]: code that takes a bounded number of steps makes executions that
      end.  [Unblocked]: code that never waits.  [Tests]: the test programs of
      [src/src/test] on CXL memory, and the targets of [CMakeLists.txt].
    - [Wf], [ModelSafe], [Buffers], [Safety]: the invariant of the shared objects
      and that no action fails.  The invariant has a parameter, the class [Past]:
      a property of how the state was reached, which steps away from the memory
      keep; [Trace] takes the history of the memory, [Explore] the tables of the
      windows.  [Frame], [Evolve]: what a turn leaves alone.
    - [Atomic], [Locks], [Conditions], [Waiting], [Fairness], [Exclusion]:
      interleaving, mutexes, condition variables and scheduling.  [ApiSpec],
      [CopySpec]: the atomic entry points and [memcpy] as sequences of actions.
    - [Findings]: concrete states on which the code does what it does not mean.

    ** How the code is modelled

    A pointer to a thread, a mutex or a condition variable is the number of the
    object; the state [St] of [State] holds the objects themselves, so aliasing is
    explicit.  An operation is a computation [M St A]: a function from the state to
    a tree of decisions whose leaves are a value with a state, or a [stop]: the
    exit of the process, a failed assertion, undefined behaviour, an endless loop.
    [random] (the class [Rand]), [dlsym], [mmap], [dlopen], [fork], [waitpid] and
    the functions of the C library are parameters.  [Scheduler::wait] is the
    point at which an action stops; [Machine] resumes it there.  Integers are [Z]
    with their wrap-around written out ([u8], [u16], [u32], [u64]); sequence
    numbers, crash points and indices of the decision stack are wrapped where the
    code stores them.  The build is the default one of [config.h]: no
    [MEM_POISON], [GPF_ALWAYS_SUCCEEDS] or [SYNC_WAIT], with [EQUIV_STORE_SKIP].

    ** What is proved

    - The whole checker.  [Explore.exploration_complete]: for a program that
      respects the interface and whose executions end, [main] and [take_snapshot]
      finish, and their executions are the leaves of the tree of decisions, each
      visited once; every one is a run of the machine whose loads one history of
      the memory explains.  [exploration_resumes]: an exploration started from a
      saved file does the rest.  [execution_leaves]: the leaves are the complete
      runs of the machine in which each thread runs its code.
      [Trace.run_explained]: one memory explains what a program sees in a run.
      [Clients.clients_respect]: programs made of the functions of [Api] and
      [Pthread] respect the interface, by a program logic in which a thread knows
      its mutexes, its threads and the words that it has accessed.
      [Bounded.bounded_executions_end]: when their code is bounded, their executions
      end, by a potential that each turn lowers; the bound is [turn_limit].
      [Tests.tests_explored] puts the parts together: five tests of the repository
      are explored completely on at most 8 processes.
    - Persistence.  [Recovery.recovery_explored]: after a crash, the search over
      any sequence of loads returns exactly the vectors of values of the abstract
      persistent memories.  [History.history_sound]: one choice of persistence
      times explains every load of an execution with stores, flushes and crashes
      in any order.  [ReadSound.load_sound], [load_complete] and
      [load_without_crash] are the theorems of a single load,
      [Flush.flush_persists] that of a flush; in the state of
      [Flush.flush_resurrects_lost_store] a flush after a decision is not like it.
    - Safety and liveness of whole executions.  [Machine.reachable_safe] and
      [reachable_invariant]: as long as the threads issue [allowed] actions, no
      turn fails an assertion, and the shared objects are well formed;
      [Safety.action_safe] and [resume_safe] say so of one action, on paths on
      which its process exits too.
      [Fairness.no_starvation] bounds the turns until a thread runs, and
      [Waiting.sleeps_until_woken] says what can end the wait of one that waits;
      [Program.crashes_bounded] the crashes.
    - The search.  [NodeStack.search_enumerates_leaves]: the decision stack visits
      each leaf of the tree of an execution once and stops;
      [NodeFile.resumed_search]: also across a saved file.
      [Execution.exploration_ends] and [execution_starts_fresh]: the loop around it,
      for any child.
    - Components.  The buffers evict in program order
      ([ThreadMemory.eviction_order]) and forward to loads
      ([ThreadMemory.forwarding], [ReadFrom.overlaps_fill_covered]); the scheduler
      is round-robin ([Scheduler.yield_round_robin]) and cleans up after a crash
      ([Scheduler.process_crash_total]); mutexes exclude
      ([Exclusion.mutual_exclusion], [Locks.lock_outcome], [unlock_outcome]);
      condition variables release the mutex and block in one step and wake whom
      they should ([Conditions.wait_outcome], [notify_outcome]); accesses to memory
      are not interrupted ([Atomic.memory_action_atomic]).
    - The interface.  [ApiSpec.rmw_trace], [cas_trace]; [CopySpec.memcpy_copies]: the
      actions of a copy and the bytes it leaves; [Resolve.real_init_all_resolves],
      [init_memory_ops_guarded].
    - Containers and memory.  [HashTable.table_refines], [DList.list_refines],
      [Vector.vector_refines]; [Spaces.cxl_blocks_are_cxl]; the handshake of
      [Tls] ([handshake_ends], [setup_context_ready], [swap_follows]).

    ** Bounds

    The sequence number is a 32-bit counter, 2^32 - 1 reserved: theorems about
    actions ask that the clock, which counts also the entries still in buffers,
    is below 2^32 - 2, and each action moves it by at most one.  Loops over a list
    are structural.  The loops that empty the buffers have one unit of fuel for
    each entry, [find_live] one for each thread, the loops of the containers one
    for each node: running out is a stop, and the safety and refinement theorems
    exclude it.  A loop that waits for another thread is no loop in the model: the
    thread stops at a point and [resume] runs the next iteration.  The search has
    one unit of fuel for each leaf that is left, and the theorems say that it is
    enough.  [Tested.execution] has one unit for each turn, [take_snapshot] one for
    each execution; an execution that runs out ends in [Cut], which the theorems
    about explorations exclude, with at most 2^32 - 3 turns; [turn_limit] turns are
    enough for bounded code.
    [recovery_explored] asks that the loads put fewer than 2^31 questions.
    The number of processes is any; but for more than [VECTOR_DEFCAP = 8] of them
    [CacheLineStore::init] copies tables that were never constructed
    ([Vector.store_init_9]), which is undefined: the model gives each process an
    empty table ([CacheLine.CacheLineStore_init]), as it is when the fresh shared
    memory is zero, and its theorems speak of the source beyond 8 processes only
    under this assumption.  [Tests.tests_explored] asks for at most 8.
    [MAX_CRASHES_PER_EXECUTION] is 1, as in [config.h]; [Wf] and [ReadSound] use it
    where they take the crashed process to be unique.

    ** Hypotheses on code outside [src/], or not verified here

    [Spaces.MspaceLaws]: what [malloc.c], a vendored third-party library, promises
    of mspaces (disjoint blocks inside the initial base of the space).  That a
    space does not grow beyond its base is due to the build,
    [src/src/allocators/CMakeLists.txt] compiles it with [HAVE_MMAP=0] and
    [ONLY_MSPACES]; [Spaces.cxl_blocks_are_cxl] is relative to these laws.
    [Alloc.Allocator] is the part of it that the containers use.  [Tls]
    takes the mutexes and condition variables of the C library by their POSIX
    meaning, spurious wake-ups included.  [Rand] gives any non-negative numbers.

    ** Not modelled

    - [malloc.c], [mspace_malloc.h], [valgrind.h]: vendored third-party code.
    - [futex.h]: compiled only with [SYNC_WAIT].
    - Printing: [dump], [print] functions, [print_execution_summary], logging.
    - [makecontext], [swapcontext], signals, the copying of memory into a
      snapshot by [fork]: the points at which threads wait, [Tested.execution] and
      the loop of [Execution] stand for them.  The processes share one map of
      bytes for the memory that they access directly.
    - What a program does after a deadlock: the exit handler runs once
      ([Explore.after_failure]); when processes are left that wait for ever, so
      does [main], and the exploration has no further execution
      ([Execution.Hung]).
    - Of [src/src/test]: [userA], [user_cond], [user_mutexcrash] and [userB], which
      keep [pthread_t]s and counters in private memory, use thread-local
      variables, [new] and [std::atomic], or call [insert_crash] themselves; and
      what the tests print. *)
From stdpp Require Export base numbers list gmap fin_maps strings.
From Stdlib Require Export ZArith Lia.

#[global] Open Scope Z_scope.

Declare Scope cxl_scope.
Delimit Scope cxl_scope with cxl.
#[global] Open Scope cxl_scope.

(** ** Machine integers

    An unsigned w-bit value is a [Z] in [0, 2^w); an assignment to a variable
    of that width goes through [wrap]. *)
Definition wrap (w x : Z) : Z := x mod 2 ^ w.
Abbreviation u8 := (wrap 8).
Abbreviation u16 := (wrap 16).
Abbreviation u32 := (wrap 32).
Abbreviation u64 := (wrap 64).
(** Two's-complement reading of the low [w] bits: C's conversion to a signed
    type of [w] bits. *)
Definition swrap (w x : Z) : Z := (x + 2 ^ (w - 1)) mod 2 ^ w - 2 ^ (w - 1).

Lemma wrap_bounds w x : 0 <= w -> 0 <= wrap w x < 2 ^ w.
Proof. intros. apply Z.mod_pos_bound. lia. Qed.

Lemma wrap_small w x : 0 <= x < 2 ^ w -> wrap w x = x.
Proof. apply Z.mod_small. Qed.

Lemma wrap_wrap w x : 0 <= w -> wrap w (wrap w x) = wrap w x.
Proof. intros. apply Z.mod_mod. lia. Qed.

Lemma swrap_small w x : 0 < w -> - 2 ^ (w - 1) <= x < 2 ^ (w - 1) -> swrap w x = x.
Proof.
  intros Hw Hx. unfold swrap. rewrite Z.mod_small; [lia|].
  assert (2 ^ w = 2 * 2 ^ (w - 1)) as ->; [|lia].
  rewrite <- Z.pow_succ_r by lia. f_equal. lia.
Qed.

(** ** Errors: why a piece of code stops instead of returning *)
Inductive stop : Type :=
| AssertFail (msg : string)   (* assert(...) is false: SIGABRT *)
| Exit (code : Z)             (* exit(code): atexit handlers run *)
| Abort                       (* abort() *)
| UB (what : string)          (* null dereference, index out of range, use of raw memory *)
| NoReturn (what : string).   (* a loop that the model's fuel does not cover *)

#[export] Instance stop_eq_dec : EqDecision stop.
Proof. solve_decision. Defined.

(** The error monad of the operations that ask no question. *)
Definition err (A : Type) : Type := stop + A.
Definition ebind {A B} (m : err A) (f : A -> err B) : err B :=
  match m with inl e => inl e | inr a => f a end.
Notation "'let?' x := m 'in' k" := (ebind m (fun x => k))
  (at level 10, x pattern, m at level 100, k at level 200) : cxl_scope.
Definition eassert (b : bool) (msg : string) : err unit :=
  if b then inr tt else inl (AssertFail msg).

Lemma ebind_inr {A B} (m : err A) (f : A -> err B) b :
  ebind m f = inr b <-> exists a, m = inr a /\ f a = inr b.
Proof. destruct m as [e|a]; simpl; split; [done|by intros (a & ? & _)|eauto|by intros (? & [= <-] & ?)]. Qed.

(** ** Tactics of the development *)
(** Open the existentials and conjunctions of the context. *)
Ltac destr :=
  repeat match goal with
  | H : exists _, _ |- _ => destruct H
  | H : _ /\ _ |- _ => destruct H
  end.

(** Turn boolean tests of the context and goal into propositions. *)
Ltac bools :=
  repeat match goal with
  | H : _ && _ = true |- _ => apply andb_true_iff in H; destruct H
  | H : _ || _ = false |- _ => apply orb_false_iff in H; destruct H
  | H : negb _ = true |- _ => apply negb_true_iff in H
  | H : negb _ = false |- _ => apply negb_false_iff in H
  | H : (_ <? _) = true |- _ => apply Z.ltb_lt in H
  | H : (_ <? _) = false |- _ => apply Z.ltb_ge in H
  | H : (_ <=? _) = true |- _ => apply Z.leb_le in H
  | H : (_ <=? _) = false |- _ => apply Z.leb_gt in H
  | H : (_ =? _) = true |- _ => apply Z.eqb_eq in H
  | H : (_ =? _) = false |- _ => apply Z.eqb_neq in H
  | H : bool_decide _ = true |- _ => apply bool_decide_eq_true in H
  | H : bool_decide _ = false |- _ => apply bool_decide_eq_false in H
  end.

(** Case on the condition of the first [if] of the goal, keeping the equation. *)
Ltac case_if :=
  match goal with
  | |- context [if ?b then _ else _] => let E := fresh "Eb" in destruct b eqn:E; bools
  end.

(** ** Lists indexed by [Z] *)
Definition lookupZ {A} (l : list A) (i : Z) : option A :=
  if i <? 0 then None else l !! Z.to_nat i.

Lemma lookupZ_app_mid {A} (pre suf : list A) x :
  lookupZ (pre ++ x :: suf) (Z.of_nat (length pre)) = Some x.
Proof.
  unfold lookupZ. rewrite (proj2 (Z.ltb_ge _ 0)) by lia.
  rewrite Nat2Z.id. by rewrite list_lookup_middle.
Qed.

Lemma lookupZ_Some {A} (l : list A) i x :
  lookupZ l i = Some x -> 0 <= i < Z.of_nat (length l).
Proof.
  unfold lookupZ. case_if; [done|]. intros H%lookup_lt_Some. lia.
Qed.

Lemma lookupZ_is_Some {A} (l : list A) i :
  0 <= i < Z.of_nat (length l) -> exists x, lookupZ l i = Some x.
Proof.
  intros Hi. unfold lookupZ. rewrite (proj2 (Z.ltb_ge _ 0)) by lia.
  apply lookup_lt_is_Some. lia.
Qed.

Definition lenZ {A} (l : list A) : Z := Z.of_nat (length l).

Lemma lenZ_app {A} (l k : list A) : lenZ (l ++ k) = lenZ l + lenZ k.
Proof. unfold lenZ. rewrite length_app. lia. Qed.

Lemma lenZ_nonneg {A} (l : list A) : 0 <= lenZ l.
Proof. unfold lenZ. lia. Qed.
#[export] Hint Resolve lenZ_nonneg : core.

(** ** Little-endian bytes *)
(** [n] bytes of [x], least significant first. *)
Fixpoint to_le (n : nat) (x : Z) : list Z :=
  match n with O => [] | S n => u8 x :: to_le n (Z.shiftr x 8) end.
Fixpoint from_le (l : list Z) : Z :=
  match l with [] => 0 | b :: l => b + 256 * from_le l end.

Lemma from_to_le n x : from_le (to_le n x) = x mod 256 ^ (Z.of_nat n).
Proof.
  revert x. induction n as [|n IH]; intros x; [by rewrite Z.mod_1_r|].
  cbn [to_le from_le]. rewrite IH, Z.shiftr_div_pow2 by lia.
  rewrite Nat2Z.inj_succ, Z.pow_succ_r by lia.
  unfold wrap. rewrite Z.rem_mul_r; [done|lia|]. apply Z.pow_pos_nonneg; lia.
Qed.

Lemma length_to_le n x : length (to_le n x) = n.
Proof. revert x. induction n; simpl; auto. Qed.

Lemma from_le_bounds l : Forall (fun b => 0 <= b < 256) l -> 0 <= from_le l < 256 ^ lenZ l.
Proof.
  unfold lenZ. induction 1 as [|b l Hb Hl IH]; [simpl; lia|].
  cbn [from_le length]. rewrite Nat2Z.inj_succ, Z.pow_succ_r by lia. lia.
Qed.

(** Byte [i] of a little-endian word. *)
Lemma lookup_from_le l (i : nat) b : Forall (fun b => 0 <= b < 256) l -> l !! i = Some b ->
  u8 (Z.shiftr (from_le l) (8 * Z.of_nat i)) = b.
Proof.
  intros Hl. revert i. induction Hl as [|c l Hc Hl IH]; intros [|i]; [done|done| |].
  - intros [= ->]. cbn [from_le]. rewrite Z.shiftr_0_r. unfold wrap. change (2 ^ 8) with 256.
    rewrite (Z.mul_comm 256), Z.mod_add by lia. by apply Z.mod_small.
  - intros Hi. rewrite <- (IH i Hi). cbn [from_le]. f_equal.
    replace (8 * Z.of_nat (S i)) with (8 + 8 * Z.of_nat i) by lia. rewrite <- Z.shiftr_shiftr by lia. f_equal.
    rewrite Z.shiftr_div_pow2 by lia. change (2 ^ 8) with 256.
    rewrite (Z.mul_comm 256), Z.div_add, Z.div_small by lia. lia.
Qed.

Lemma to_le_bytes n x : Forall (fun b => 0 <= b < 256) (to_le n x).
Proof.
  revert x. induction n as [|n IH]; intros x; simpl; constructor; [by apply wrap_bounds|done].
Qed.

Lemma lookup_to_le n x (i : nat) : (i < n)%nat -> to_le n x !! i = Some (u8 (Z.shiftr x (8 * Z.of_nat i))).
Proof.
  revert x i. induction n as [|n IH]; intros x i Hi; [lia|]. destruct i as [|i]; [done|].
  cbn [to_le]. rewrite lookup_cons_ne_0 by done. rewrite IH by lia. rewrite Z.shiftr_shiftr by lia.
  do 3 f_equal. lia.
Qed.

(** Joining a low byte: [value << 8 | byte] on 64 bits. *)
Lemma lor_shift8 v b : 0 <= b < 256 -> Z.lor (Z.shiftl v 8) b = b + 256 * v.
Proof.
  intros Hb. rewrite Z.shiftl_mul_pow2 by lia. change (2 ^ 8) with 256.
  assert (Z.land (v * 256) b = 0) as H0.
  { apply Z.bits_inj'. intros n Hn. rewrite Z.bits_0, Z.land_spec. change 256 with (2 ^ 8).
    destruct (Z.ltb_spec n 8); [by rewrite Z.mul_pow2_bits_low by lia|].
    rewrite <- (Z.mod_small b (2 ^ 8)), Z.mod_pow2_bits_high by lia. apply andb_false_r. }
  rewrite <- Z.lxor_lor, <- Z.add_nocarry_lxor by done. lia.
Qed.

Lemma land_ff x : Z.land x 255 = u8 x.
Proof. change 255 with (Z.ones 8). by rewrite Z.land_ones. Qed.
