(* ===== verification/Tls.v ===== *)
(** * Tls: the thread-local storage of the threads of a process

    [src/src/model/threads.cc].  All threads of a process under test run as
    contexts of one kernel thread.  Each of them gets the thread-local storage of
    a helper thread that does nothing else: [setup_context] starts the helper and
    waits until it has published its address, [cleanup] lets it end and joins it,
    and [swap] moves the segment register from one storage to the other.  The
    first part models the two kernel threads as programs whose steps
    interleave, with the mutexes and the condition variable of the C library; the
    second part the register. *)
From S2P Require Import Prelude.

(** ** The helper and its creator *)

Inductive agent := Creator | Helper.
(** Where the creator is: in [setup_context], or in [cleanup] of the thread. *)
Inductive creator_pc :=
| C_init | C_lock | C_test | C_wait | C_relock | C_unlock | C_ready | C_join | C_free | C_done.
Inductive helper_pc :=
| H_none | H_lock | H_set | H_unlock | H_signal | H_lock_fin | H_unlock_fin | H_done.
#[export] Instance agent_eq_dec : EqDecision agent.
Proof. solve_decision. Defined.
#[export] Instance creator_pc_eq_dec : EqDecision creator_pc.
Proof. solve_decision. Defined.
#[export] Instance helper_pc_eq_dec : EqDecision helper_pc.
Proof. solve_decision. Defined.

Record Handshake := mkHandshake {
  creator : creator_pc;
  helper : helper_pc;
  tls : Z;
  mutex_tls : option agent;
  mutex_finalize : option agent
}.
(** [Thread(tid, pid, par, p)] before [setup_context]. *)
Definition handshake_start : Handshake := mkHandshake C_init H_none 0 None None.

(** [real_pthread_mutex_lock]: waits while the mutex has an owner. *)
Definition acquire (by_ : agent) (m : option agent) : option (option agent) :=
  match m with None => Some (Some by_) | Some _ => None end.

(** The next step of [setup_context], [None] while it waits: the initialisations
    and [pthread_create] are one step; [cond_wait] gives the mutex back, waits for
    a signal and takes the mutex again. *)
Definition setup_step (s : Handshake) : option Handshake :=
  let '(mkHandshake c h t mt mf) := s in
  match c with
  | C_init => Some (mkHandshake C_lock H_lock t None (Some Creator))
  | C_lock => (fun mt => mkHandshake C_test h t mt mf) <$> acquire Creator mt
  | C_test => Some (if t =? 0 then mkHandshake C_wait h t None mf else mkHandshake C_unlock h t mt mf)
  | C_relock => (fun mt => mkHandshake C_test h t mt mf) <$> acquire Creator mt
  | C_unlock => Some (mkHandshake C_ready h t None mf)
  | _ => None
  end.
(** The next step of [cleanup]: let the helper end, join it, free the stack. *)
Definition cleanup_step (s : Handshake) : option Handshake :=
  let '(mkHandshake c h t mt mf) := s in
  match c with
  | C_ready => Some (mkHandshake C_join h t mt None)
  | C_join => if decide (h = H_done) then Some (mkHandshake C_free h t mt mf) else None
  | C_free => Some (mkHandshake C_done h t mt mf)
  | _ => None
  end.
Definition creator_step (s : Handshake) : option Handshake :=
  match creator s with C_ready | C_join | C_free | C_done => cleanup_step s | _ => setup_step s end.

(** [helper_thread]; [addr] is the address of its thread-local storage. *)
Definition helper_step (addr : Z) (s : Handshake) : option Handshake :=
  let '(mkHandshake c h t mt mf) := s in
  match h with
  | H_none => None
  | H_lock => (fun mt => mkHandshake c H_set t mt mf) <$> acquire Helper mt
  | H_set => Some (mkHandshake c H_unlock addr mt mf)
  | H_unlock => Some (mkHandshake c H_signal t None mf)
  | H_signal => Some (mkHandshake (if decide (c = C_wait) then C_relock else c) H_lock_fin t mt mf)
  | H_lock_fin => (fun mf => mkHandshake c H_unlock_fin t mt mf) <$> acquire Helper mf
  | H_unlock_fin => Some (mkHandshake c H_done t mt None)
  | H_done => None
  end.

(** The C library may wake a waiting thread without a signal. *)
Definition spurious_wakeup (s : Handshake) : option Handshake :=
  let '(mkHandshake c h t mt mf) := s in
  if decide (c = C_wait) then Some (mkHandshake C_relock h t mt mf) else None.

(** [k] steps of the two threads and [w] spurious wake-ups, in any order. *)
Inductive handshake (addr : Z) : nat -> nat -> Handshake -> Prop :=
| hs_start : handshake addr 0 0 handshake_start
| hs_creator k w s s' : handshake addr k w s -> creator_step s = Some s' -> handshake addr (S k) w s'
| hs_helper k w s s' : handshake addr k w s -> helper_step addr s = Some s' -> handshake addr (S k) w s'
| hs_spurious k w s s' : handshake addr k w s -> spurious_wakeup s = Some s' -> handshake addr k (S w) s'.

(** [setup_context] has returned. *)
Definition set_up (s : Handshake) : bool :=
  match creator s with C_ready | C_join | C_free | C_done => true | _ => false end.
(** [cleanup] has begun. *)
Definition cleaning (s : Handshake) : bool :=
  match creator s with C_join | C_free | C_done => true | _ => false end.
(** The helper has returned or is about to. *)
Definition helper_ending (s : Handshake) : bool :=
  match helper s with H_unlock_fin | H_done => true | _ => false end.

(** *** The invariant *)
Definition published (h : helper_pc) : bool := match h with H_none | H_lock | H_set => false | _ => true end.
Definition holds_tls (s : Handshake) : option agent :=
  match creator s, helper s with
  | (C_test | C_unlock), _ => Some Creator
  | _, (H_set | H_unlock) => Some Helper
  | _, _ => None
  end.
Definition holds_finalize (s : Handshake) : option agent :=
  match creator s, helper s with
  | C_init, _ => None
  | (C_lock | C_test | C_wait | C_relock | C_unlock | C_ready), _ => Some Creator
  | _, H_unlock_fin => Some Helper
  | _, _ => None
  end.
Definition places_ok (c : creator_pc) (h : helper_pc) : bool :=
  match c with
  | C_init => bool_decide (h = H_none)
  | C_test => negb (bool_decide (h = H_none)) && negb (bool_decide (h = H_set)) && negb (bool_decide (h = H_unlock)) &&
      negb (bool_decide (h = H_unlock_fin)) && negb (bool_decide (h = H_done))
  | C_wait => match h with H_lock | H_set | H_unlock | H_signal => true | _ => false end
  | C_lock | C_relock => negb (bool_decide (h = H_none)) && negb (bool_decide (h = H_unlock_fin)) && negb (bool_decide (h = H_done))
  | C_unlock => match h with H_signal | H_lock_fin => true | _ => false end
  | C_ready => match h with H_signal | H_lock_fin => true | _ => false end
  | C_join => published h && negb (bool_decide (h = H_unlock))
  | C_free | C_done => bool_decide (h = H_done)
  end.
Record hs_inv (addr : Z) (s : Handshake) : Prop := mkHsInv {
  hi_tls : tls s = if published (helper s) then addr else 0;
  hi_mutex_tls : mutex_tls s = holds_tls s;
  hi_finalize : mutex_finalize s = holds_finalize s;
  hi_places : places_ok (creator s) (helper s) = true
}.

(** Split the state into the places of the two threads. *)
Ltac places :=
  match goal with H : hs_inv _ ?s |- _ => destruct s as [c h t mt mf] end; simpl in *;
  repeat match goal with H : hs_inv _ _ |- _ => destruct H as [? ? ? ?]; simpl in * end;
  match goal with c : creator_pc, h : helper_pc |- _ => destruct c, h; try discriminate end;
  unfold holds_tls, holds_finalize, creator_step in *; simpl in *; subst.

Section Protocol.
Context (addr : Z).
Hypothesis Haddr : addr <> 0.

Lemma creator_inv s s' : hs_inv addr s -> creator_step s = Some s' -> hs_inv addr s'.
Proof.
  intros Hi Hs. places; simpl in *; rewrite ?(proj2 (Z.eqb_neq _ _) Haddr) in *; simpl in *;
    repeat case_decide; simplify_eq; constructor; done.
Qed.
Lemma helper_inv s s' : hs_inv addr s -> helper_step addr s = Some s' -> hs_inv addr s'.
Proof.
  intros Hi Hs. places; simpl in *; repeat case_decide; simplify_eq; constructor; done.
Qed.
Lemma spurious_inv s s' : hs_inv addr s -> spurious_wakeup s = Some s' -> hs_inv addr s'.
Proof. intros Hi Hs. places; simpl in *; simplify_eq; constructor; done. Qed.

Lemma handshake_inv k w s : handshake addr k w s -> hs_inv addr s.
Proof.
  induction 1; [done| | |]; eauto using creator_inv, helper_inv, spurious_inv.
Qed.

(** *** Progress *)

(** Steps left to the creator and the helper when nothing wakes by chance. *)
Definition creator_left (c : creator_pc) (t : Z) : nat :=
  match c with
  | C_init => 10 | C_lock => 9 | C_test => if t =? 0 then 8 else 5 | C_wait => 7
  | C_relock => if t =? 0 then 9 else 6
  | C_unlock => 4 | C_ready => 3 | C_join => 2 | C_free => 1 | C_done => 0
  end.
Definition helper_left (h : helper_pc) : nat :=
  match h with
  | H_none | H_lock => 6 | H_set => 5 | H_unlock => 4 | H_signal => 3 | H_lock_fin => 2 | H_unlock_fin => 1 | H_done => 0
  end.
Definition steps_left (s : Handshake) : nat := creator_left (creator s) (tls s) + helper_left (helper s).

Lemma creator_decreases s s' : hs_inv addr s -> creator_step s = Some s' -> (steps_left s' < steps_left s)%nat.
Proof.
  intros Hi Hs. places; simpl in *; rewrite ?(proj2 (Z.eqb_neq _ _) Haddr) in *; simpl in *;
    repeat case_decide; try discriminate; simplify_eq; unfold steps_left; simpl;
    rewrite ?(proj2 (Z.eqb_neq _ _) Haddr); lia.
Qed.
Lemma helper_decreases s s' : hs_inv addr s -> helper_step addr s = Some s' -> (steps_left s' < steps_left s)%nat.
Proof.
  intros Hi Hs. places; simpl in *; repeat case_decide; try discriminate; simplify_eq; unfold steps_left; simpl;
    rewrite ?(proj2 (Z.eqb_neq _ _) Haddr); lia.
Qed.
Lemma spurious_bound s s' : hs_inv addr s -> spurious_wakeup s = Some s' -> (steps_left s' <= steps_left s + 2)%nat.
Proof.
  intros Hi Hs. places; simpl in *; simplify_eq; unfold steps_left; simpl; repeat case_match; lia.
Qed.

Lemma handshake_measure k w s : handshake addr k w s -> (k + steps_left s <= 16 + 2 * w)%nat.
Proof.
  induction 1 as [|k w s s' H IH Hs|k w s s' H IH Hs|k w s s' H IH Hs]; [done| | |]; pose proof (handshake_inv _ _ _ H) as Hi.
  - pose proof (creator_decreases _ _ Hi Hs). lia.
  - pose proof (helper_decreases _ _ Hi Hs). lia.
  - pose proof (spurious_bound _ _ Hi Hs). lia.
Qed.

Lemma handshake_progress s : hs_inv addr s -> creator s <> C_done ->
  is_Some (creator_step s) \/ is_Some (helper_step addr s).
Proof. intros Hi Hc. places; simpl in *; try done; (by left; eexists) || (by right; eexists). Qed.
End Protocol.

(** [setup_context] returns only after the helper has published the address of
    its thread-local storage, and the helper, which owns that storage, does not
    return before [cleanup] has begun; [cleanup] frees the stack only after it
    has. *)
Theorem setup_context_ready addr k w s : addr <> 0 -> handshake addr k w s ->
  (set_up s = true -> tls s = addr) /\ (helper_ending s = true -> cleaning s = true) /\
  (creator s = C_free \/ creator s = C_done -> helper s = H_done).
Proof.
  intros Ha Hs. pose proof (handshake_inv _ Ha _ _ _ Hs) as Hi.
  split; [|split]; intros Hc; places; done || (by destruct Hc).
Qed.

(** Running the protocol along a schedule. *)
Inductive move := ByCreator | ByHelper | Wakes.
Definition hs_move (addr : Z) (v : move) (s : Handshake) : option Handshake :=
  match v with ByCreator => creator_step s | ByHelper => helper_step addr s | Wakes => spurious_wakeup s end.
Fixpoint follow (addr : Z) (l : list move) (s : Handshake) : option Handshake :=
  match l with [] => Some s | v :: l => hs_move addr v s ≫= follow addr l end.
(** The steps and the wake-ups of a schedule. *)
Fixpoint count_moves (l : list move) : nat * nat :=
  match l with
  | [] => (O, O)
  | Wakes :: l => let (k, w) := count_moves l in (k, S w)
  | _ :: l => let (k, w) := count_moves l in (S k, w)
  end.
Lemma follow_handshake addr l : forall k w s s', handshake addr k w s -> follow addr l s = Some s' ->
  handshake addr (k + (count_moves l).1) (w + (count_moves l).2) s'.
Proof.
  induction l as [|v l IH]; intros k w s s' Hs Hf; simpl in *.
  - injection Hf as <-. by rewrite !Nat.add_0_r.
  - apply bind_Some in Hf as (s1 & H1 & H2). destruct v, (count_moves l) as [a b]; simpl in *; rewrite ?Nat.add_succ_r.
    + apply (IH (S k) w s1); [by eapply hs_creator|done].
    + apply (IH (S k) w s1); [by eapply hs_helper|done].
    + apply (IH k (S w) s1); [by eapply hs_spurious|done].
Qed.

(** The creator finds the address missing, wakes once for nothing, waits again and
    is signalled. *)
Definition demo_moves : list move :=
  [ByCreator; ByCreator; ByCreator; Wakes; ByCreator; ByCreator; ByHelper; ByHelper; ByHelper; ByHelper;
   ByCreator; ByCreator; ByCreator].
Definition demo_handshake : Handshake := mkHandshake C_ready H_lock_fin 4096 None (Some Creator).
Lemma demo_reached : handshake 4096 12 1 demo_handshake.
Proof. apply (follow_handshake 4096 demo_moves 0 0 handshake_start); [constructor|by vm_compute]. Qed.

Lemma setup_context_ready_witness : tls demo_handshake = 4096.
Proof. apply (setup_context_ready 4096 12 1 demo_handshake); [lia|exact demo_reached|reflexivity]. Defined.

(** C37: The handshake ends, and no signal is lost: along every interleaving the two
    threads take at most 16 steps and two more for each spurious wake-up, and
    until [cleanup] is done one of them can take the next. *)
Theorem handshake_ends addr k w s : addr <> 0 -> handshake addr k w s ->
  (k <= 16 + 2 * w)%nat /\ (creator s = C_done \/ is_Some (creator_step s) \/ is_Some (helper_step addr s)).
Proof.
  intros Ha Hs. pose proof (handshake_measure _ Ha _ _ _ Hs). split; [lia|].
  destruct (decide (creator s = C_done)) as [|Hc]; [by left|right].
  eapply handshake_progress; [by eapply handshake_inv|done].
Qed.
Lemma handshake_ends_witness : (12 <= 16 + 2 * 1)%nat /\ (creator demo_handshake = C_done \/
  is_Some (creator_step demo_handshake) \/ is_Some (helper_step 4096 demo_handshake)).
Proof. apply (handshake_ends 4096 12 1 demo_handshake); [lia|exact demo_reached]. Defined.

(** ** The segment register *)

(** The register [fs], the words at the start of each thread-local storage, which
    hold its own address, and the [tls] of the threads, 0 where it is null. *)
Record Segment := mkSegment { fs : Z; words : gmap Z Z; tls_of : gmap Z Z; running : Z }.

Definition get_tls_addr (g : Segment) : option Z := words g !! fs g.
Definition set_tls_addr (addr : Z) (g : Segment) : Segment :=
  mkSegment addr (<[addr := addr]> (words g)) (tls_of g) (running g).
Definition with_tls (tid addr : Z) (g : Segment) : Segment :=
  mkSegment (fs g) (words g) (<[tid := addr]> (tls_of g)) (running g).
Definition with_running (tid : Z) (g : Segment) : Segment := mkSegment (fs g) (words g) (tls_of g) tid.

(** [Thread::swap] of the running thread; [None] is a read of memory that is not
    there or of a thread that does not exist. *)
Definition swap (next : Z) (g : Segment) : option Segment :=
  t ← tls_of g !! running g;
  g ← (if t =? 0 then a ← get_tls_addr g; Some (with_tls (running g) a g) else Some g);
  n ← tls_of g !! next;
  Some (with_running next (set_tls_addr n g)).

(** [setup_context] of a new thread: the storage [addr] of its helper. *)
Definition set_up_thread (tid addr : Z) (g : Segment) : Segment :=
  mkSegment (fs g) (<[addr := addr]> (words g)) (<[tid := addr]> (tls_of g)) (running g).

Section Registers.
(** The storage that the C library and the kernel give to each thread. *)
Context (own : Z -> Z) (main : Z).

(** A process starts in its main thread, whose [tls] is null. *)
Definition segment_start : Segment :=
  mkSegment (own main) {[own main := own main]} {[main := 0]} main.

Inductive switched : Segment -> Prop :=
| sw_start : switched segment_start
| sw_create g tid : switched g -> tls_of g !! tid = None -> switched (set_up_thread tid (own tid) g)
| sw_swap g next g' : switched g -> is_Some (tls_of g !! next) -> next <> running g -> swap next g = Some g' -> switched g'.

Record seg_inv (g : Segment) : Prop := mkSegInv {
  si_fs : fs g = own (running g);
  si_word : words g !! fs g = Some (fs g);
  si_running : is_Some (tls_of g !! running g);
  si_tls : forall t a, tls_of g !! t = Some a -> a = own t \/ (a = 0 /\ t = running g)
}.

Lemma swap_inv g next : seg_inv g -> is_Some (tls_of g !! next) -> next <> running g ->
  exists g', swap next g = Some g' /\ seg_inv g' /\ running g' = next.
Proof.
  intros [H1 H2 [t Ht] H4] [n Hn] Hne.
  assert (n = own next) as -> by (destruct (H4 _ _ Hn) as [|[_ ?]]; done).
  unfold swap, get_tls_addr. rewrite Ht. simpl. case_match eqn:Et.
  - rewrite H2. simpl. rewrite lookup_insert_ne, Hn by done. simpl. eexists. split; [done|]. split; [|done].
    constructor; simpl; [done|by rewrite lookup_insert_eq|rewrite lookup_insert_ne by done; by eexists|].
    intros u a Hu. destruct (decide (running g = u)) as [<-|Hu'].
    + rewrite lookup_insert_eq in Hu. injection Hu as <-. by left.
    + rewrite lookup_insert_ne in Hu by done. destruct (H4 _ _ Hu) as [|[_ ?]]; [by left|by destruct Hu'].
  - simpl. rewrite Hn. simpl. eexists. split; [done|]. split; [|done].
    constructor; simpl; [done|by rewrite lookup_insert_eq|by eexists|].
    intros u a Hu. destruct (H4 _ _ Hu) as [|[Ha Hr]]; [by left|]. subst a u. rewrite Ht in Hu. injection Hu as ->.
    done.
Qed.

Lemma switched_inv g : switched g -> seg_inv g.
Proof.
  induction 1 as [|g tid Hg [H1 H2 [t Ht] H4] Hn|g next g' Hg IH Hx Hne Hs].
  - constructor; simpl; [done|by rewrite lookup_singleton_eq|by rewrite lookup_singleton_eq|].
    intros t a [<- <-]%lookup_singleton_Some. by right.
  - assert (tid <> running g) by (intros ->; congruence). constructor; simpl; [done| | |].
    + destruct (decide (own tid = fs g)) as [->|]; [by rewrite lookup_insert_eq|by rewrite lookup_insert_ne].
    + rewrite lookup_insert_ne by done. by eexists.
    + intros u a Hu. apply lookup_insert_Some in Hu as [[<- <-]|[_ Hu]]; [by left|by apply H4].
  - destruct (swap_inv g next IH Hx Hne) as (g1 & H1 & H2 & _). congruence.
Qed.
End Registers.

(** The register follows the threads: however threads are created and swapped,
    [swap] to an existing thread succeeds and the register then holds the storage
    of that thread; the main thread, whose address is taken when it is swapped
    out for the first time, finds its own again. *)
Theorem swap_follows own main g next : switched own main g ->
  is_Some (tls_of g !! next) -> next <> running g ->
  exists g', swap next g = Some g' /\ running g' = next /\ fs g' = own next /\ get_tls_addr g' = Some (own next).
Proof.
  intros Hg Hx Hne. destruct (swap_inv own g next (switched_inv own main g Hg) Hx Hne) as (g' & H1 & H2 & H3).
  exists g'. split; [done|]. split; [done|]. unfold get_tls_addr. rewrite (si_word _ _ H2), (si_fs _ _ H2), H3. done.
Qed.

(** The main thread 0 creates thread 3, and the two take turns. *)
Definition demo_own (t : Z) : Z := 4096 * (Z.abs t + 1).
Lemma swap_follows_witness : exists g1 g2, swap 3 (set_up_thread 3 (demo_own 3) (segment_start demo_own 0)) = Some g1 /\
  swap 0 g1 = Some g2 /\ fs g2 = demo_own 0.
Proof.
  pose proof (sw_create demo_own 0 _ 3 (sw_start demo_own 0) eq_refl) as H1.
  destruct (swap_follows demo_own 0 _ 3 H1 ltac:(by eexists) ltac:(done)) as (g1 & G1 & R1 & _).
  pose proof (sw_swap demo_own 0 _ 3 g1 H1 ltac:(by eexists) ltac:(done) G1) as H2.
  exists g1.
  destruct (swap_follows demo_own 0 g1 0 H2) as (g2 & G2 & _ & F2 & _).
  - vm_compute in G1. injection G1 as <-. by eexists.
  - by rewrite R1.
  - by exists g2.
Defined.
