(* ===== verification/Choice.v ===== *)
(** * Choice: computations that ask the model checker to decide

    The code of [Model] is a state machine that, from time to time, calls
    [decision_point(n)] and branches on the answer.  A computation is here a
    function from the state to a decision [tree] whose leaves are results: the
    questions are explicit, and the component that answers them (the
    [NodeStack]) is a handler of the tree.  The file also holds the program
    logic: [wp] (every leaf) and [can] (some leaf). *)
From S2P Require Import Prelude.

Inductive tree (A : Type) : Type :=
| Leaf (a : A)
| Choose (n : Z) (k : Z -> tree A).
Arguments Leaf {A} a.
Arguments Choose {A} n k.

Fixpoint tbind {A B} (t : tree A) (f : A -> tree B) : tree B :=
  match t with
  | Leaf a => f a
  | Choose n k => Choose n (fun c => tbind (k c) f)
  end.

(** The answers to a question of [n] choices are 0, ..., n-1. *)
Fixpoint all_leaves {A} (Q : A -> Prop) (t : tree A) : Prop :=
  match t with
  | Leaf a => Q a
  | Choose n k => forall c, 0 <= c < n -> all_leaves Q (k c)
  end.

Fixpoint some_leaf {A} (Q : A -> Prop) (t : tree A) : Prop :=
  match t with
  | Leaf a => Q a
  | Choose n k => exists c, 0 <= c < n /\ some_leaf Q (k c)
  end.

(** The leaves in the order of the answers, and the trees whose questions all
    have an answer. *)
Fixpoint leaves {A} (t : tree A) : list A :=
  match t with
  | Leaf a => [a]
  | Choose n k => concat ((fun c => leaves (k c)) <$> seqZ 0 n)
  end.

Fixpoint tree_wf {A} (t : tree A) : Prop :=
  match t with
  | Leaf _ => True
  | Choose n k => 1 <= n /\ forall c, 0 <= c < n -> tree_wf (k c)
  end.

Section Tree.
Context {A B : Type}.
Implicit Types (t : tree A) (f : A -> tree B).

Lemma all_leaves_bind t f Q :
  all_leaves Q (tbind t f) <-> all_leaves (fun a => all_leaves Q (f a)) t.
Proof. induction t as [|n k IH]; simpl; [done|]. by setoid_rewrite IH. Qed.

Lemma some_leaf_bind t f Q :
  some_leaf Q (tbind t f) <-> some_leaf (fun a => some_leaf Q (f a)) t.
Proof. induction t as [|n k IH]; simpl; [done|]. by setoid_rewrite IH. Qed.

Lemma all_leaves_mono t (P Q : A -> Prop) :
  (forall a, P a -> Q a) -> all_leaves P t -> all_leaves Q t.
Proof. induction t; simpl; eauto. Qed.

Lemma some_leaf_mono t (P Q : A -> Prop) :
  (forall a, P a -> Q a) -> some_leaf P t -> some_leaf Q t.
Proof. induction t; simpl; [eauto|naive_solver]. Qed.

Lemma all_leaves_true t : all_leaves (fun _ => True) t.
Proof. induction t; simpl; auto. Qed.

Lemma all_leaves_and t (P Q : A -> Prop) :
  all_leaves P t -> all_leaves Q t -> all_leaves (fun a => P a /\ Q a) t.
Proof. induction t; simpl; eauto. Qed.

Lemma all_leaves_elem t Q : all_leaves Q t <-> Forall Q (leaves t).
Proof.
  induction t as [a|n k IH]; simpl; [by rewrite Forall_singleton|].
  rewrite Forall_concat, Forall_fmap, Forall_forall. unfold compose; simpl.
  setoid_rewrite IH. setoid_rewrite elem_of_seqZ. split; intros H c Hc; apply H; lia.
Qed.

Lemma some_leaf_elem t Q : some_leaf Q t <-> Exists Q (leaves t).
Proof.
  induction t as [a|n k IH]; simpl; [by rewrite Exists_cons, Exists_nil; naive_solver|].
  rewrite Exists_exists. setoid_rewrite IH. setoid_rewrite Exists_exists.
  setoid_rewrite list_elem_of_In. setoid_rewrite in_concat.
  setoid_rewrite <- list_elem_of_In. setoid_rewrite list_elem_of_fmap.
  split.
  - intros (c & Hc & x & Hx & HQ). exists x. split; [|done]. exists (leaves (k c)).
    split; [|done]. exists c. rewrite elem_of_seqZ. split; [done|lia].
  - intros (x & (l & (c & -> & Hc%elem_of_seqZ) & Hx) & HQ). exists c. split; [lia|eauto].
Qed.

Lemma all_some_leaf t (P Q : A -> Prop) :
  all_leaves P t -> some_leaf Q t -> some_leaf (fun a => P a /\ Q a) t.
Proof. induction t as [|n k IH]; simpl; [done|]. intros HP (c & Hc & HQ). exists c. split; [done|]. by apply IH; [apply HP|]. Qed.

Lemma leaves_nonempty t : tree_wf t -> leaves t <> [].
Proof.
  destruct t as [a|n k]; [done|]. revert n k.
  assert (forall t, tree_wf t -> exists a, a ∈ leaves t) as Hex.
  { induction t as [a|n k IH]; simpl; [exists a; set_solver|]. intros [Hn Hk].
    destruct (IH 0) as [a Ha]; [apply Hk; lia|]. exists a.
    rewrite list_elem_of_In, in_concat. exists (leaves (k 0)).
    rewrite <- !list_elem_of_In. split; [|done]. apply list_elem_of_fmap. exists 0.
    rewrite elem_of_seqZ. split; [done|lia]. }
  intros n k Hwf Hnil. destruct (Hex _ Hwf) as [a Ha]. rewrite Hnil in Ha. set_solver.
Qed.
End Tree.

(** A leaf of a tree, and of a sequence of trees. *)
Lemma elem_leaves {A} (t : tree A) x : x ∈ leaves t <-> some_leaf (fun y => x = y) t.
Proof. rewrite some_leaf_elem, Exists_exists. naive_solver. Qed.
Lemma elem_leaves_tbind {A B} (t : tree A) (f : A -> tree B) x :
  x ∈ leaves (tbind t f) <-> exists a, a ∈ leaves t /\ x ∈ leaves (f a).
Proof.
  rewrite elem_leaves, some_leaf_bind, some_leaf_elem, Exists_exists. by setoid_rewrite <- elem_leaves.
Qed.


(** ** The state and decision monad *)
Inductive result (S A : Type) : Type :=
| Val (a : A) (s : S)
| Stop (r : stop) (s : S).
Arguments Val {S A} a s.
Arguments Stop {S A} r s.

Definition M (S A : Type) : Type := S -> tree (result S A).

Section Monad.
Context {S : Type}.

Definition ret {A} (a : A) : M S A := fun s => Leaf (Val a s).
Definition bind {A B} (m : M S A) (f : A -> M S B) : M S B := fun s =>
  tbind (m s) (fun r => match r with
                        | Val a s' => f a s'
                        | Stop e s' => Leaf (Stop e s')
                        end).
Definition get : M S S := fun s => Leaf (Val s s).
Definition gets {A} (f : S -> A) : M S A := fun s => Leaf (Val (f s) s).
Definition modify (f : S -> S) : M S unit := fun s => Leaf (Val tt (f s)).
Definition halt {A} (e : stop) : M S A := fun s => Leaf (Stop e s).
Definition massert (b : bool) (msg : string) : M S unit :=
  if b then ret tt else halt (AssertFail msg).
(** [decision_point]: the answer is chosen by whoever handles the tree. *)
Definition choose (n : Z) : M S Z := fun s => Choose n (fun c => Leaf (Val c s)).
Definition lift {A} (m : err A) : M S A :=
  match m with inl e => halt e | inr a => ret a end.
Definition from_some {A} (o : option A) (e : stop) : M S A :=
  match o with Some a => ret a | None => halt e end.
End Monad.

Notation "'let!' x := m 'in' k" := (bind m (fun x => k))
  (at level 10, x pattern, m at level 100, k at level 200) : cxl_scope.
Notation "m ;;; k" := (bind m (fun _ => k)) (at level 199, right associativity) : cxl_scope.

(** [for_each l f]: run [f] on the elements of [l] in order. *)
Fixpoint for_each {S A} (l : list A) (f : A -> M S unit) : M S unit :=
  match l with
  | [] => ret tt
  | x :: l' => f x ;;; for_each l' f
  end.

(** [times n m]: run [m] exactly [n] times. *)
Fixpoint times {S} (n : nat) (m : M S unit) : M S unit :=
  match n with
  | O => ret tt
  | Datatypes.S n' => m ;;; times n' m
  end.

(** ** Program logic *)
Definition wp {S A} (m : M S A) (Q : result S A -> Prop) (s : S) : Prop := all_leaves Q (m s).
Definition can {S A} (m : M S A) (Q : result S A -> Prop) (s : S) : Prop := some_leaf Q (m s).

(** Postconditions: the state at the end satisfies [I] (however it ends), or
    the code returns with [Q]. *)
Definition ends {S A} (I : S -> Prop) (r : result S A) : Prop :=
  match r with Val _ s => I s | Stop _ s => I s end.
Definition returns {S A} (Q : A -> S -> Prop) (r : result S A) : Prop :=
  match r with Val a s => Q a s | Stop _ _ => False end.
Definition if_returns {S A} (Q : A -> S -> Prop) (r : result S A) : Prop :=
  match r with Val a s => Q a s | Stop _ _ => True end.
(** [preserves I m]: [m] keeps the invariant [I] on every path, the paths that
    stop included. *)
Definition preserves {S A} (I : S -> Prop) (m : M S A) : Prop :=
  forall s, I s -> wp m (ends I) s.

Section Logic.
Context {S A B : Type}.
Implicit Types (m : M S A) (f : A -> M S B) (I : S -> Prop).

Lemma wp_bind m f Q s :
  wp (bind m f) Q s <->
  wp m (fun r => match r with Val a s' => wp (f a) Q s' | Stop e s' => Q (Stop e s') end) s.
Proof.
  unfold wp, bind. rewrite all_leaves_bind.
  split; apply all_leaves_mono; intros [a s'|e s']; simpl; eauto.
Qed.

Lemma can_bind m f Q s :
  can (bind m f) Q s <->
  can m (fun r => match r with Val a s' => can (f a) Q s' | Stop e s' => Q (Stop e s') end) s.
Proof.
  unfold can, bind. rewrite some_leaf_bind.
  split; apply some_leaf_mono; intros [a s'|e s']; simpl; eauto.
Qed.

Lemma elem_leaves_bind m f s r : r ∈ leaves (bind m f s) <->
  exists r0, r0 ∈ leaves (m s) /\ match r0 with Val a s' => r ∈ leaves (f a s') | Stop e s' => r = Stop e s' end.
Proof.
  unfold bind. rewrite elem_leaves_tbind. split; intros (r0 & Hr0 & Hr); exists r0; (split; [done|]);
    destruct r0 as [a s'|e s']; [done| |done|]; [by apply list_elem_of_singleton in Hr|rewrite Hr; by apply list_elem_of_singleton].
Qed.

Lemma wp_leaf m (Q : result S A -> Prop) s r : wp m Q s -> r ∈ leaves (m s) -> Q r.
Proof. unfold wp. rewrite all_leaves_elem, Forall_forall. intros HQ. apply HQ. Qed.

Lemma bind_val m f s a s' : m s = Leaf (Val a s') -> bind m f s = f a s'.
Proof. intros Hm. unfold bind. by rewrite Hm. Qed.

Lemma bind_stop m f s e s' : m s = Leaf (Stop e s') -> bind m f s = Leaf (Stop e s').
Proof. intros Hm. unfold bind. by rewrite Hm. Qed.

Lemma wp_mono m (P Q : result S A -> Prop) s :
  (forall r, P r -> Q r) -> wp m P s -> wp m Q s.
Proof. apply all_leaves_mono. Qed.

Lemma wp_true m s : wp m (fun _ => True) s.
Proof. apply all_leaves_true. Qed.

Lemma wp_and m (P Q : result S A -> Prop) s :
  wp m P s -> wp m Q s -> wp m (fun r => P r /\ Q r) s.
Proof. apply all_leaves_and. Qed.

Lemma can_mono m (P Q : result S A -> Prop) s :
  (forall r, P r -> Q r) -> can m P s -> can m Q s.
Proof. apply some_leaf_mono. Qed.

Lemma wp_can m (P Q : result S A -> Prop) s :
  wp m P s -> can m Q s -> can m (fun r => P r /\ Q r) s.
Proof. apply all_some_leaf. Qed.

Lemma preserves_bind I m f :
  preserves I m -> (forall a, preserves I (f a)) -> preserves I (bind m f).
Proof.
  intros Hm Hf s Hs. rewrite wp_bind. eapply wp_mono; [|by apply Hm].
  intros [a s'|e s'] Hr; simpl in *; [by apply Hf|done].
Qed.

Lemma preserves_ret I (a : A) : preserves I (ret (S:=S) a).
Proof. intros s Hs. exact Hs. Qed.
Lemma preserves_halt I e : preserves I (halt (S:=S) (A:=A) e).
Proof. intros s Hs. exact Hs. Qed.
Lemma preserves_gets I (g : S -> A) : preserves I (gets g).
Proof. intros s Hs. exact Hs. Qed.
Lemma preserves_get I : preserves I (get (S:=S)).
Proof. intros s Hs. exact Hs. Qed.
Lemma preserves_modify I (g : S -> S) : (forall s, I s -> I (g s)) -> preserves I (modify g).
Proof. intros Hg s Hs. by apply Hg. Qed.
Lemma preserves_choose I n : preserves I (choose (S:=S) n).
Proof. intros s Hs c Hc. exact Hs. Qed.
Lemma preserves_massert I b msg : preserves I (massert (S:=S) b msg).
Proof. unfold massert. destruct b; intros s Hs; exact Hs. Qed.
Lemma preserves_from_some I (o : option A) e : preserves I (from_some (S:=S) o e).
Proof. destruct o; intros s Hs; exact Hs. Qed.
Lemma preserves_for_each {C} I (l : list C) (g : C -> M S unit) :
  (forall c, c ∈ l -> preserves I (g c)) -> preserves I (for_each l g).
Proof.
  induction l as [|c l IH]; simpl; intros Hg; [intros s Hs; exact Hs|].
  intros s Hs. unfold bind. red. rewrite all_leaves_bind.
  eapply all_leaves_mono; [|apply Hg; [set_solver|done]].
  intros [a s'|e s'] Hr; simpl in *; [apply IH; [set_solver|done]|done].
Qed.
End Logic.

Create HintDb pres discriminated.
#[export] Hint Resolve preserves_ret preserves_halt preserves_gets preserves_get
  preserves_choose preserves_massert preserves_from_some : pres.

(** Split a computation into its steps and close them with the [pres] hints. *)
Ltac pres :=
  repeat first
    [ progress intros
    | solve [eauto with pres]
    | apply preserves_bind
    | match goal with |- preserves _ (if ?b then _ else _) => destruct b end
    | match goal with |- preserves _ (match ?o with _ => _ end) => destruct o end ].

(** Step through a [wp] of a sequence. *)
Ltac wp_step := rewrite wp_bind; simpl.

(** ** Triples: precondition, result on return, reason allowed when stopping *)
Definition triple {S A} (P : S -> Prop) (m : M S A) (Q : A -> S -> Prop) (E : stop -> Prop) : Prop :=
  forall s, P s -> wp m (fun r => match r with Val a s' => Q a s' | Stop e _ => E e end) s.

Section Triple.
Context {S : Type}.
Implicit Types (P : S -> Prop) (E : stop -> Prop).

Lemma triple_conseq {A} P (m : M S A) Q E (P' : S -> Prop) (Q' : A -> S -> Prop) (E' : stop -> Prop) :
  triple P m Q E -> (forall s, P' s -> P s) -> (forall a s, Q a s -> Q' a s) ->
  (forall e, E e -> E' e) -> triple P' m Q' E'.
Proof.
  intros Hm HP HQ HE s Hs. eapply wp_mono; [|by apply Hm, HP].
  intros [a s'|e s']; simpl; eauto.
Qed.

Lemma triple_bind {A B} P (m : M S A) (f : A -> M S B) R Q E :
  triple P m R E -> (forall a, triple (R a) (f a) Q E) -> triple P (bind m f) Q E.
Proof.
  intros Hm Hf s Hs. rewrite wp_bind. eapply wp_mono; [|by apply Hm].
  intros [a s'|e s'] Hr; simpl in *; [by apply Hf|done].
Qed.

Lemma triple_ret {A} P (a : A) (Q : A -> S -> Prop) E : (forall s, P s -> Q a s) -> triple P (ret a) Q E.
Proof. intros H s Hs. by apply H. Qed.

Lemma triple_halt {A} P (Q : A -> S -> Prop) E e : (forall s, P s -> E e) -> triple P (halt e) Q E.
Proof. intros H s Hs. by eapply H. Qed.

Lemma triple_modify P f (Q : unit -> S -> Prop) E : (forall s, P s -> Q tt (f s)) -> triple P (modify f) Q E.
Proof. intros H s Hs. by apply H. Qed.

(** Reading the state: the continuation may assume what was read. *)
Lemma triple_gets {A B} P (g : S -> A) (f : A -> M S B) Q E :
  (forall a, triple (fun s => P s /\ g s = a) (f a) Q E) -> triple P (bind (gets g) f) Q E.
Proof. intros H s Hs. rewrite wp_bind. by apply H. Qed.

Lemma triple_massert {A} P (b : bool) msg (m : M S A) Q E :
  (forall s, P s -> b = true) -> triple P m Q E -> triple P (massert b msg ;;; m) Q E.
Proof. intros Hb Hm s Hs. rewrite wp_bind, (Hb s Hs). by apply Hm. Qed.

Lemma triple_pre {A} P (m : M S A) Q E (F : Prop) :
  (F -> triple P m Q E) -> triple (fun s => P s /\ F) m Q E.
Proof. intros H s [Hs HF]. by apply H. Qed.

Lemma triple_exists {A X} (P : X -> S -> Prop) (m : M S A) Q E :
  (forall x, triple (P x) m Q E) -> triple (fun s => exists x, P x s) m Q E.
Proof. intros H s [x Hs]. by eapply H. Qed.
End Triple.

(** Execute the first step of a sequence whose outcome is computed. *)
Ltac run_step := erewrite bind_val by reflexivity; cbn beta.
