(* ===== verification/NodeStack.v ===== *)
(** * NodeStack: the stack of decisions that drives the backtracking search

    [src/include/nodestack.h] and [src/src/model/nodestack.cc].  A [Node *] is
    an address; the node objects live in [node_list], paired with their
    address, and [last_backtrack] and [curr_backtrack] hold addresses that the
    code compares with those of the list.  [new] returns an address never used
    before ([next_addr]).  The abstract contract is the depth-first search of a
    decision tree, proved in the second half. *)
From S2P Require Import Prelude Choice.

Record Node := mkNode { read_from_idx : Z; rf_size : Z }.

(** [Node::Node(int)]. *)
Definition Node_new (mrf_size : Z) : Node := mkNode 0 mrf_size.
Definition get_choice (n : Node) : Z := read_from_idx n.
Definition get_read_from_size (n : Node) : Z := rf_size n.
Definition has_more_choices (n : Node) : bool := read_from_idx n + 1 <? rf_size n.
Definition increment_read_from (n : Node) : Node := mkNode (read_from_idx n + 1) (rf_size n).

Definition addr := nat.

Record NodeStack := mkNS {
  node_list : list (addr * Node);
  last_backtrack : option addr;
  curr_backtrack : option addr;
  head_idx : Z;
  next_addr : addr
}.

(** [NodeStack::NodeStack()]. *)
Definition NodeStack_new : NodeStack := mkNS [] None None (-1) 0%nat.

Definition set_Last_backtrack (n : option addr) (ns : NodeStack) : NodeStack :=
  mkNS (node_list ns) n (curr_backtrack ns) (head_idx ns) (next_addr ns).
Definition repeat_prev_execution (ns : NodeStack) : NodeStack :=
  mkNS (node_list ns) (last_backtrack ns) None (head_idx ns) (next_addr ns).
Definition has_another_execution (ns : NodeStack) : bool :=
  match last_backtrack ns with Some _ => true | None => false end.
Definition next_is_curr_backtrack (ns : NodeStack) : bool :=
  (head_idx ns + 1 <? lenZ (node_list ns)) &&
  match lookupZ (node_list ns) (head_idx ns + 1), curr_backtrack ns with
  | Some (a, _), Some b => bool_decide (a = b)
  | _, _ => false
  end.

Definition get_head (ns : NodeStack) : err (option (addr * Node)) :=
  if bool_decide (node_list ns = []) || (head_idx ns <? 0) then inr None
  else match lookupZ (node_list ns) (head_idx ns) with
       | Some n => inr (Some n)
       | None => inl (UB "node_list[head_idx]")
       end.

Definition get_next (ns : NodeStack) : err (option (addr * Node) * NodeStack) :=
  if bool_decide (node_list ns = []) then inr (None, ns)
  else
    let it := u32 (head_idx ns + 1) in
    if it =? lenZ (node_list ns) then inr (None, ns)
    else match lookupZ (node_list ns) it with
         | Some n => inr (Some n, mkNS (node_list ns) (last_backtrack ns) (curr_backtrack ns)
                                       (head_idx ns + 1) (next_addr ns))
         | None => inl (UB "node_list[it]")
         end.

Definition create_node (numchoices : Z) (ns : NodeStack) : (addr * Node) * NodeStack :=
  let n := (next_addr ns, Node_new (swrap 32 numchoices)) in
  (n, mkNS (node_list ns ++ [n]) (last_backtrack ns) (curr_backtrack ns)
           (head_idx ns + 1) (S (next_addr ns))).

(** The vector's [resize] only shrinks here; growing it would leave raw
    pointers at the end. *)
Definition pop_restofstack (numAhead : Z) (ns : NodeStack) : err NodeStack :=
  let it := u32 (head_idx ns + numAhead) in
  if it <=? lenZ (node_list ns)
  then inr (mkNS (take (Z.to_nat it) (node_list ns)) (last_backtrack ns) (curr_backtrack ns)
                 (head_idx ns) (next_addr ns))
  else inl (UB "node_list grows with raw pointers").

Definition reset_execution (ns : NodeStack) : NodeStack :=
  mkNS (node_list ns) None (last_backtrack ns) (-1) (next_addr ns).

Definition full_reset (ns : NodeStack) : NodeStack :=
  reset_execution (mkNS [] (last_backtrack ns) (curr_backtrack ns) (head_idx ns) (next_addr ns)).

(** [node->m()] on the node at address [a]. *)
Definition update_node (a : addr) (f : Node -> Node) (ns : NodeStack) : NodeStack :=
  mkNS ((fun x => if bool_decide (x.1 = a) then (x.1, f x.2) else x) <$> node_list ns)
       (last_backtrack ns) (curr_backtrack ns) (head_idx ns) (next_addr ns).

Definition explore_next (numchoices : Z) (ns : NodeStack) : err (Node * NodeStack) :=
  let? (next, ns) := get_next ns in
  let? (a, node, ns) :=
    match next with
    | None => let '((a, node), ns) := create_node numchoices ns in inr (a, node, ns)
    | Some (a, node) =>
        let? _ := eassert (swrap 32 numchoices =? get_read_from_size node)
                          "numchoices == node->get_read_from_size()" in
        if bool_decide (curr_backtrack ns = Some a) then
          let? ns := pop_restofstack 1 (update_node a increment_read_from ns) in
          inr (a, increment_read_from node, repeat_prev_execution ns)
        else inr (a, node, ns)
    end in
  if has_more_choices node then inr (node, set_Last_backtrack (Some a) ns)
  else inr (node, ns).

(** The handler of a decision tree: [Model::decision_point] asks the stack for
    the next node and returns its choice. *)
Definition decision_point (numchoices : Z) (ns : NodeStack) : err (Z * NodeStack) :=
  let? (node, ns) := explore_next numchoices ns in inr (get_choice node, ns).

Fixpoint drive {A} (t : tree A) (ns : NodeStack) : err (A * NodeStack) :=
  match t with
  | Leaf a => inr (a, ns)
  | Choose n k => let? (c, ns) := decision_point n ns in drive (k c) ns
  end.

(** The loop of executions: run the program, and while the stack has another
    execution reset it and run again.  [fuel] bounds the number of executions. *)
Fixpoint search {A} (fuel : nat) (t : tree A) (ns : NodeStack) : err (list A * NodeStack) :=
  match fuel with
  | O => inl (NoReturn "search")
  | S fuel =>
      let? (a, ns) := drive t ns in
      if has_another_execution ns
      then let? (l, ns) := search fuel t (reset_execution ns) in inr (a :: l, ns)
      else inr ([a], ns)
  end.

(** ** Paths of a decision tree *)

(** The leaf at the end of the path [p], if [p] is a complete path of [t]. *)
Fixpoint at_path {A} (t : tree A) (p : list Node) : option A :=
  match t, p with
  | Leaf a, [] => Some a
  | Choose n k, nd :: p' =>
      if (rf_size nd =? n) && (0 <=? read_from_idx nd) && (read_from_idx nd <? n)
      then at_path (k (read_from_idx nd)) p' else None
  | _, _ => None
  end.

(** The leaves strictly after the path [p] in the order of the choices. *)
Fixpoint rest {A} (t : tree A) (p : list Node) : list A :=
  match t, p with
  | Choose n k, nd :: p' =>
      let c := read_from_idx nd in
      rest (k c) p' ++ concat ((fun c => leaves (k c)) <$> seqZ (c + 1) (n - (c + 1)))
  | _, _ => []
  end.

(** Questions have at least one and at most 2^31 - 1 choices, and fewer than
    2^31 are asked on any path: the widths of [numchoices] and [head_idx]. *)
Fixpoint tree_ok {A} (depth : Z) (t : tree A) : Prop :=
  match t with
  | Leaf _ => True
  | Choose n k => 1 <= n < 2 ^ 31 /\ depth < 2 ^ 31 - 1 /\
                  forall c, 0 <= c < n -> tree_ok (depth + 1) (k c)
  end.

(** Address of the last node with more choices. *)
Fixpoint last_more (l : list (addr * Node)) : option addr :=
  match l with
  | [] => None
  | (a, nd) :: l' =>
      match last_more l' with
      | Some b => Some b
      | None => if has_more_choices nd then Some a else None
      end
  end.

Lemma tree_ok_wf {A} (t : tree A) d : tree_ok d t -> tree_wf t.
Proof.
  revert d. induction t as [|n k IH]; simpl; [done|]. intros d (Hn & _ & Hk).
  split; [lia|eauto].
Qed.

Lemma leaves_split {A} n (k : Z -> tree A) c : 0 <= c < n ->
  leaves (Choose n k) =
    concat ((fun c => leaves (k c)) <$> seqZ 0 c) ++ leaves (k c) ++
    concat ((fun c => leaves (k c)) <$> seqZ (c + 1) (n - (c + 1))).
Proof.
  intros Hc. cbn [leaves].
  replace n with (c + (n - c)) at 1 by lia. rewrite seqZ_app by lia.
  rewrite fmap_app, concat_app. f_equal. simpl. rewrite seqZ_cons by lia. simpl.
  do 4 f_equal; lia.
Qed.

(** What is left of a tree are leaves of it. *)
Lemma rest_leaves {A} (t : tree A) p v x : at_path t p = Some x -> v ∈ rest t p -> v ∈ leaves t.
Proof.
  revert p. induction t as [a|n k IH]; intros [|nd p]; simpl; try done; [intros _ Hv; by apply elem_of_nil in Hv|].
  case_match; [|done]. bools. intros Hp Hv. change (v ∈ leaves (Choose n k)).
  rewrite (leaves_split n k (read_from_idx nd)) by lia. rewrite !elem_of_app.
  apply elem_of_app in Hv. destruct Hv as [Hv|Hv]; [right; left; by eapply IH|by right; right].
Qed.

(** A path whose nodes have no further choice is the last one. *)
Lemma rest_exhausted {A} (t : tree A) l a :
  at_path t l.*2 = Some a -> last_more l = None -> rest t l.*2 = [].
Proof.
  revert l. induction t as [x|n k IH]; intros [|[b nd] l]; simpl; try done.
  intros Hp Hl. destruct (last_more l) eqn:El; [done|].
  destruct (has_more_choices nd) eqn:Em; [done|]. unfold has_more_choices in Em.
  case_match; [|done]. bools.
  rewrite IH by done. rewrite seqZ_nil by lia. done.
Qed.

(** ** One question: the three cases of [explore_next] *)
Section Decision.
(** The node objects are distinct and older than the next allocation. *)
Definition addrs_ok (ns : NodeStack) : Prop :=
  NoDup (node_list ns).*1 /\ Forall (fun a => (a < next_addr ns)%nat) (node_list ns).*1.

(** The stack is past its last recorded decision. *)
Definition fresh_at (ns : NodeStack) : Prop :=
  addrs_ok ns /\ head_idx ns = lenZ (node_list ns) - 1 /\ curr_backtrack ns = None.

(** The node at address [a] becomes the last open decision if it is open. *)
Definition mark (a : addr) (nd : Node) (o : option addr) : option addr :=
  if has_more_choices nd then Some a else o.

Lemma addrs_ok_snoc l a lb cb h nx :
  NoDup l.*1 -> Forall (fun b => (b < nx)%nat) l.*1 ->
  addrs_ok (mkNS (l ++ [(nx, a)]) lb cb h (S nx)).
Proof.
  intros Hnd Hfa. rewrite Forall_forall in Hfa. split; simpl; rewrite fmap_app; simpl.
  - apply NoDup_app. split_and!; [done| |apply NoDup_singleton].
    intros b Hb Hx%list_elem_of_singleton. subst.
    apply Hfa in Hb. lia.
  - rewrite Forall_app, Forall_forall. split; [|by repeat constructor].
    intros b Hb%Hfa. lia.
Qed.

Lemma addrs_ok_prefix l k lb cb h nx :
  NoDup (l ++ k).*1 -> Forall (fun b => (b < nx)%nat) (l ++ k).*1 ->
  addrs_ok (mkNS l lb cb h nx).
Proof.
  rewrite fmap_app, Forall_app. intros (Hl & _)%NoDup_app [Hf _]. by split.
Qed.

Lemma get_next_end ns : fresh_at ns -> lenZ (node_list ns) < 2 ^ 31 ->
  get_next ns = inr (None, ns).
Proof.
  intros (_ & Hh & _) Hlen. unfold get_next. case_bool_decide; [done|].
  rewrite Hh, wrap_small by (pose proof (lenZ_nonneg (node_list ns)); lia).
  rewrite (proj2 (Z.eqb_eq _ _)) by lia. done.
Qed.

Lemma get_next_mid ns pre a nd suf :
  node_list ns = pre ++ (a, nd) :: suf -> head_idx ns = lenZ pre - 1 -> lenZ pre < 2 ^ 31 ->
  get_next ns = inr (Some (a, nd), mkNS (node_list ns) (last_backtrack ns) (curr_backtrack ns)
                                        (lenZ pre) (next_addr ns)).
Proof.
  intros Hl Hh Hp. unfold get_next. pose proof (lenZ_nonneg pre).
  rewrite bool_decide_false by (rewrite Hl; by destruct pre).
  rewrite Hh. replace (lenZ pre - 1 + 1) with (lenZ pre) by lia.
  rewrite wrap_small by lia.
  assert (lenZ (node_list ns) = lenZ pre + lenZ suf + 1) as Hlen
    by (rewrite Hl, lenZ_app; unfold lenZ; simpl; lia).
  rewrite (proj2 (Z.eqb_neq _ _)) by (pose proof (lenZ_nonneg suf); lia).
  assert (lookupZ (node_list ns) (lenZ pre) = Some (a, nd)) as ->; [|done].
  rewrite Hl. apply lookupZ_app_mid.
Qed.

Lemma update_node_mid ns pre a nd suf f :
  NoDup (node_list ns).*1 -> node_list ns = pre ++ (a, nd) :: suf ->
  node_list (update_node a f ns) = pre ++ (a, f nd) :: suf.
Proof.
  intros Hnd Hl. simpl. rewrite Hl in Hnd |- *. rewrite fmap_app, fmap_cons. simpl.
  rewrite bool_decide_true by done.
  rewrite fmap_app in Hnd. simpl in Hnd.
  apply NoDup_app in Hnd as (_ & Hpre & (Hsuf & _)%NoDup_cons).
  assert (forall l : list (addr * Node), a ∉ l.*1 ->
    (fun x => if bool_decide (x.1 = a) then (x.1, f x.2) else x) <$> l = l) as Hid.
  { induction l as [|[b m] l IHl]; simpl; [done|]. intros Hb%not_elem_of_cons.
    rewrite bool_decide_false by naive_solver. f_equal. naive_solver. }
  rewrite !Hid; [done|done|]. intros Hin. apply (Hpre a Hin). set_solver.
Qed.

Lemma decision_fresh n ns :
  fresh_at ns -> lenZ (node_list ns) < 2 ^ 31 -> 1 <= n < 2 ^ 31 ->
  exists a ns', decision_point n ns = inr (0, ns') /\ fresh_at ns' /\
    node_list ns' = node_list ns ++ [(a, mkNode 0 n)] /\
    last_backtrack ns' = mark a (mkNode 0 n) (last_backtrack ns).
Proof.
  intros Hf Hlen Hn. exists (next_addr ns). unfold decision_point, explore_next.
  rewrite get_next_end by done. cbn. rewrite swrap_small by lia.
  unfold Node_new, mark.
  destruct Hf as ((Hnd & Hfa) & Hh & Hc).
  destruct (has_more_choices _); cbn; eexists; (split; [done|]).
  all: split_and!; [split_and!| |]; simpl; try done.
  all: try by apply addrs_ok_snoc.
  all: rewrite lenZ_app; unfold lenZ in *; simpl; lia.
Qed.

Lemma decision_replay n ns pre c nd suf :
  node_list ns = pre ++ (c, nd) :: suf -> head_idx ns = lenZ pre - 1 -> lenZ pre < 2 ^ 31 ->
  1 <= n < 2 ^ 31 -> rf_size nd = n -> curr_backtrack ns <> Some c ->
  decision_point n ns = inr (read_from_idx nd,
    mkNS (node_list ns) (mark c nd (last_backtrack ns)) (curr_backtrack ns) (lenZ pre) (next_addr ns)).
Proof.
  intros Hl Hh Hp Hn Hsz Hc. unfold decision_point, explore_next, mark, get_read_from_size.
  rewrite (get_next_mid ns pre c nd suf) by done. cbn.
  rewrite swrap_small by lia. rewrite (proj2 (Z.eqb_eq _ _)) by done. cbn.
  rewrite bool_decide_false by done. cbn. by destruct (has_more_choices nd).
Qed.

Lemma decision_backtrack n ns pre c nd suf :
  addrs_ok ns ->
  node_list ns = pre ++ (c, nd) :: suf -> head_idx ns = lenZ pre - 1 -> lenZ pre < 2 ^ 31 - 1 ->
  1 <= n < 2 ^ 31 -> rf_size nd = n -> curr_backtrack ns = Some c ->
  exists ns', decision_point n ns = inr (read_from_idx nd + 1, ns') /\ fresh_at ns' /\
    node_list ns' = pre ++ [(c, increment_read_from nd)] /\
    last_backtrack ns' = mark c (increment_read_from nd) (last_backtrack ns).
Proof.
  intros [Hnd Hfa] Hl Hh Hp Hn Hsz Hc.
  unfold decision_point, explore_next, mark, get_read_from_size.
  rewrite (get_next_mid ns pre c nd suf) by (done || lia). cbn -[pop_restofstack update_node].
  rewrite swrap_small by lia. rewrite (proj2 (Z.eqb_eq _ _)) by done. cbn -[pop_restofstack update_node].
  rewrite bool_decide_true by done. unfold pop_restofstack.
  rewrite (update_node_mid _ pre c nd suf) by done. cbn [head_idx update_node].
  pose proof (lenZ_nonneg pre). pose proof (lenZ_nonneg suf).
  rewrite wrap_small by lia.
  rewrite (proj2 (Z.leb_le _ _)) by (rewrite lenZ_app; unfold lenZ in *; simpl; lia).
  assert (take (Z.to_nat (lenZ pre + 1)) (pre ++ (c, increment_read_from nd) :: suf)
          = pre ++ [(c, increment_read_from nd)]) as ->.
  { replace (Z.to_nat (lenZ pre + 1)) with (length pre + 1)%nat by (unfold lenZ; lia).
    by rewrite take_app_add. }
  cbn. set (l := pre ++ [(c, increment_read_from nd)]).
  assert (forall lb, fresh_at (mkNS l lb None (lenZ pre) (next_addr ns))) as Hf.
  { intros lb. split_and!; simpl; [|unfold l; rewrite lenZ_app; unfold lenZ; simpl; lia|done].
    eapply (addrs_ok_prefix _ suf); unfold l; rewrite <- app_assoc, fmap_app; simpl;
      rewrite Hl, fmap_app in Hnd, Hfa; done. }
  destruct (has_more_choices _); cbn; eexists; (split; [done|]);
    (split; [apply Hf|done]).
Qed.
End Decision.

(** ** One execution *)
Section Drive.
Context {A : Type}.
Implicit Types t : tree A.

Definition or_else {X} (o d : option X) : option X := match o with Some x => Some x | None => d end.

Lemma last_more_cons a nd l o :
  or_else (last_more ((a, nd) :: l)) o = or_else (last_more l) (mark a nd o).
Proof. simpl. unfold mark. destruct (last_more l); [done|]. by destruct (has_more_choices nd). Qed.

Lemma last_more_elem l b : last_more l = Some b -> b ∈ l.*1.
Proof.
  induction l as [|[e m] l IHl]; simpl; [done|].
  destruct (last_more l); [|case_match]; intros [= ->]; set_solver.
Qed.

Lemma at_path_cons n (k : Z -> tree A) nd p :
  rf_size nd = n -> 0 <= read_from_idx nd < n ->
  at_path (Choose n k) (nd :: p) = at_path (k (read_from_idx nd)) p.
Proof.
  intros <- [??]. simpl. rewrite Z.eqb_refl, (proj2 (Z.leb_le 0 _)), (proj2 (Z.ltb_lt _ _)) by done.
  done.
Qed.

Lemma rest_cons n (k : Z -> tree A) c nd (l : list (addr * Node)) :
  rest (Choose n k) ((c, nd) :: l).*2 =
    rest (k (read_from_idx nd)) l.*2 ++
    concat ((fun c => leaves (k c)) <$> seqZ (read_from_idx nd + 1) (n - (read_from_idx nd + 1))).
Proof. done. Qed.

(** Past the last recorded decision every question is answered 0 and
    recorded; the execution reaches the first leaf. *)
Lemma drive_fresh t ns :
  fresh_at ns -> tree_ok (lenZ (node_list ns)) t ->
  exists a new ns',
    drive t ns = inr (a, ns') /\ node_list ns' = node_list ns ++ new /\
    at_path t new.*2 = Some a /\ leaves t = a :: rest t new.*2 /\
    fresh_at ns' /\ last_backtrack ns' = or_else (last_more new) (last_backtrack ns).
Proof.
  revert ns. induction t as [x|n k IH]; intros ns Hf Hok.
  { exists x, [], ns. simpl. rewrite app_nil_r. done. }
  destruct Hok as (Hn & Hd & Hk).
  destruct (decision_fresh n ns) as (b & ns2 & Hdp & Hf2 & Hl2 & Hlb2); [done|lia|done|].
  destruct (IH 0 ns2 Hf2) as (a & new & ns' & Hrun & Hl & Hp & Hlv & Hf' & Hlb).
  { rewrite Hl2, lenZ_app. apply Hk. lia. }
  exists a, ((b, mkNode 0 n) :: new), ns'. cbn [drive]. rewrite Hdp. cbn [ebind].
  split_and!; [done| | | |done|].
  - by rewrite Hl, Hl2, <- app_assoc.
  - rewrite fmap_cons, at_path_cons; simpl; [done|done|lia].
  - rewrite (leaves_split n k 0) by lia. rewrite Hlv, seqZ_nil by lia. done.
  - by rewrite Hlb, last_more_cons, Hlb2.
Qed.

(** Replaying a recorded path whose last open decision is [curr_backtrack]:
    the execution follows the path up to that decision, takes its next
    choice, drops the rest of the record, and continues at the end. *)
Lemma drive_replay t ns pre suf b x :
  addrs_ok ns -> node_list ns = pre ++ suf -> head_idx ns = lenZ pre - 1 ->
  tree_ok (lenZ pre) t -> at_path t suf.*2 = Some x ->
  last_more suf = Some b -> curr_backtrack ns = Some b ->
  exists a new ns',
    drive t ns = inr (a, ns') /\ node_list ns' = pre ++ new /\
    at_path t new.*2 = Some a /\ rest t suf.*2 = a :: rest t new.*2 /\
    fresh_at ns' /\ last_backtrack ns' = or_else (last_more new) (last_backtrack ns).
Proof.
  revert ns pre suf. induction t as [y|n k IH]; intros ns pre suf Ha Hl Hh Hok Hp Hm Hc.
  { destruct suf as [|[]]; done. }
  destruct suf as [|[c nd] suf]; [done|]. destruct Hok as (Hn & Hd & Hk).
  cbn in Hp. destruct (_ && _) eqn:Eb in Hp; [|done]. bools.
  cbn [drive]. simpl in Hm. destruct (last_more suf) as [b'|] eqn:Em.
  - (* the open decision is deeper: replay this node *)
    injection Hm as ->.
    assert (b <> c) as Hbc.
    { destruct Ha as [Hnd _]. rewrite Hl, fmap_app in Hnd. apply NoDup_app in Hnd as (_ & _ & Hnd).
      apply last_more_elem in Em. apply NoDup_cons in Hnd as [Hnin _]. by intros ->. }
    rewrite (decision_replay n ns pre c nd suf) by (done || lia || congruence). cbn [ebind].
    set (ns2 := mkNS _ _ _ _ _).
    destruct (IH (read_from_idx nd) ns2 (pre ++ [(c, nd)]) suf) as
      (a & new & ns' & Hrun & Hl' & Hp' & Hr' & Hf' & Hlb); try done.
    + simpl. by rewrite <- app_assoc.
    + rewrite lenZ_app. simpl. unfold lenZ. simpl. lia.
    + rewrite lenZ_app. apply Hk. lia.
    + exists a, ((c, nd) :: new), ns'. split_and!; [done| | | |done|].
      * by rewrite Hl', <- app_assoc.
      * rewrite fmap_cons, at_path_cons; done.
      * by rewrite !rest_cons, Hr'.
      * by rewrite Hlb, last_more_cons.
  - (* this node is the open decision: take its next choice *)
    destruct (has_more_choices nd) eqn:Ehm; [|done]. injection Hm as ->.
    unfold has_more_choices in Ehm. bools.
    destruct (decision_backtrack n ns pre b nd suf) as (ns2 & -> & Hf2 & Hl2 & Hlb2); try (done || lia).
    cbn [ebind]. destruct (drive_fresh (k (read_from_idx nd + 1)) ns2 Hf2) as
      (a & new & ns' & Hrun & Hl' & Hp' & Hlv & Hf' & Hlb).
    { rewrite Hl2, lenZ_app. apply Hk. lia. }
    exists a, ((b, increment_read_from nd) :: new), ns'. split_and!; [done| | | |done|].
    + by rewrite Hl', Hl2, <- app_assoc.
    + rewrite fmap_cons, at_path_cons; simpl; [done|done|lia].
    + rewrite !rest_cons, (rest_exhausted (k (read_from_idx nd)) suf x) by done.
      cbn [app increment_read_from read_from_idx].
      rewrite (seqZ_cons (read_from_idx nd + 1)) by lia. simpl.
      rewrite Hlv. simpl. do 5 f_equal; lia.
    + by rewrite Hlb, last_more_cons, Hlb2.
Qed.
End Drive.

(** ** The whole search *)
Section Search.
Context {A : Type}.
Implicit Types t : tree A.

(** The stack after an execution that ended at the leaf of path [node_list],
    and the stack ready for the execution after it. *)
Definition ran (t : tree A) (ns : NodeStack) : Prop :=
  (exists x, at_path t (node_list ns).*2 = Some x) /\ addrs_ok ns /\
  last_backtrack ns = last_more (node_list ns).

Definition ready (t : tree A) (ns : NodeStack) : Prop :=
  (exists x, at_path t (node_list ns).*2 = Some x) /\ addrs_ok ns /\
  head_idx ns = -1 /\ last_backtrack ns = None /\
  exists b, curr_backtrack ns = Some b /\ last_more (node_list ns) = Some b.

Lemma ran_ready t ns : ran t ns -> has_another_execution ns = true -> ready t (reset_execution ns).
Proof.
  unfold has_another_execution. intros (Hp & Ha & Hlb) Hm.
  destruct (last_backtrack ns) as [b|] eqn:Eb; [|done].
  do 4 (split; [done|]). by exists b.
Qed.

Lemma ran_last t ns : ran t ns -> has_another_execution ns = false -> rest t (node_list ns).*2 = [].
Proof.
  unfold has_another_execution. intros ([x Hp] & _ & Hlb) Hm.
  destruct (last_backtrack ns); [done|]. by apply (rest_exhausted t _ x).
Qed.

Lemma drive_first t :
  tree_ok 0 t -> exists a ns', drive t NodeStack_new = inr (a, ns') /\ ran t ns' /\
    leaves t = a :: rest t (node_list ns').*2.
Proof.
  intros Hok. destruct (drive_fresh t NodeStack_new) as (a & new & ns' & Hrun & Hl & Hp & Hlv & Hf & Hlb).
  - by repeat split; try constructor.
  - done.
  - simpl in Hl. rewrite <- Hl in *. exists a, ns'. split; [done|]. split; [|done].
    split; [by eauto|]. split; [apply Hf|]. rewrite Hlb. by destruct (last_more (node_list ns')).
Qed.

Lemma drive_next t ns :
  tree_ok 0 t -> ready t ns ->
  exists a ns', drive t ns = inr (a, ns') /\ ran t ns' /\
    rest t (node_list ns).*2 = a :: rest t (node_list ns').*2.
Proof.
  intros Hok ([x Hp] & Ha & Hh & Hlb & b & Hc & Hm).
  destruct (drive_replay t ns [] (node_list ns) b x)
    as (a & new & ns' & Hrun & Hl & Hp' & Hr & Hf & Hlb'); try done.
  simpl in Hl. rewrite <- Hl in *. exists a, ns'. split; [done|]. split; [|done].
  split; [by eauto|]. split; [apply Hf|]. rewrite Hlb', Hlb. by destruct (last_more (node_list ns')).
Qed.

Lemma search_rest t ns fuel :
  tree_ok 0 t -> ready t ns -> (length (rest t (node_list ns).*2) <= fuel)%nat ->
  exists ns', search fuel t ns = inr (rest t (node_list ns).*2, ns') /\
    has_another_execution ns' = false.
Proof.
  intros Hok. revert ns. induction fuel as [|fuel IH]; intros ns Hrd Hlen;
    destruct (drive_next t ns) as (a & ns' & Hrun & Hran & Hr); try done;
    rewrite Hr in *; simpl in Hlen; [lia|].
  cbn [search]. rewrite Hrun. cbn [ebind]. destruct (has_another_execution ns') eqn:Em.
  - destruct (IH (reset_execution ns')) as (ns2 & Hs & Hd); [by apply ran_ready|simpl; lia|].
    rewrite Hs. cbn. eauto.
  - exists ns'. split; [|done]. by rewrite (ran_last t ns').
Qed.

Lemma search_leaves t fuel :
  tree_ok 0 t -> (length (leaves t) <= fuel)%nat ->
  exists ns', search fuel t NodeStack_new = inr (leaves t, ns') /\
    has_another_execution ns' = false.
Proof.
  intros Hok Hfuel. destruct (drive_first t Hok) as (a & ns & Hrun & Hran & Hlv).
  rewrite Hlv in *. simpl in Hfuel. destruct fuel as [|fuel]; [lia|].
  cbn [search]. rewrite Hrun. cbn [ebind].
  destruct (has_another_execution ns) eqn:Em.
  - destruct (search_rest t (reset_execution ns) fuel) as (ns2 & Hs & Hd);
      [done|by apply ran_ready|simpl; lia|].
    rewrite Hs. cbn. eauto.
  - exists ns. split; [|done]. by rewrite (ran_last t ns).
Qed.
End Search.

(** ** Properties *)

(** C15: The backtracking search is exact: driven by an empty decision stack, the
    successive executions of a program end at the leaves of its decision tree,
    each of them once and in the order of the choices, and after the last one
    the stack reports that no execution is left. *)
Theorem search_enumerates_leaves {A} (t : tree A) fuel :
  tree_ok 0 t -> (length (leaves t) <= fuel)%nat ->
  exists ns', search fuel t NodeStack_new = inr (leaves t, ns') /\ has_another_execution ns' = false.
Proof. apply search_leaves. Qed.

(** Two questions on one path and one on the other. *)
Definition demo_tree : tree Z :=
  Choose 2 (fun c => if c =? 0 then Leaf 10 else Choose 3 (fun d => Leaf (20 + d))).
Lemma demo_tree_ok : tree_ok 0 demo_tree.
Proof.
  simpl. split; [lia|]. split; [lia|]. intros c Hc. destruct (c =? 0); simpl; [done|].
  split; [lia|]. split; [lia|done].
Qed.

Lemma search_enumerates_leaves_witness :
  exists ns', search 10 demo_tree NodeStack_new = inr ([10; 20; 21; 22], ns') /\ has_another_execution ns' = false.
Proof. apply (search_enumerates_leaves demo_tree 10); [apply demo_tree_ok|simpl; lia]. Defined.
