(* ===== verification/NodeFile.v ===== *)
(** * NodeFile: saving and loading the decision stack

    [NodeStack::save_state] and [NodeStack::set_state] of
    [src/src/model/nodestack.cc].  A file is the list of its bytes, [None] when
    the path does not exist.  [open] succeeds or not as the argument says;
    [write] writes at the current offset and never truncates. *)
From S2P Require Import Prelude Choice NodeStack.

(** Writing [new] from offset 0 over a file opened without [O_TRUNC]. *)
Definition overwrite (new old : list Z) : list Z := new ++ drop (length new) old.

(** The index of [curr_backtrack] in [node_list], or [u16 (-1)]. *)
Fixpoint find_node (a : addr) (l : list (addr * Node)) (it : Z) : option Z :=
  match l with
  | [] => None
  | (b, _) :: l => if bool_decide (b = a) then Some it else find_node a l (it + 1)
  end.
Definition curr_ind (ns : NodeStack) : Z :=
  match curr_backtrack ns with
  | None => u16 (-1)
  | Some a => match find_node a (node_list ns) 0 with
              | Some it => u16 it
              | None => u16 (-1)
              end
  end.

Definition node_bytes (n : Node) : list Z := [u8 (get_choice n); u8 (get_read_from_size n)].
Definition state_bytes (exec_num : Z) (ns : NodeStack) : list Z :=
  to_le 4 exec_num ++ to_le 2 (curr_ind ns) ++ concat (node_bytes <$> (node_list ns).*2).

Definition save_state (exec_num : Z) (opened : bool) (ns : NodeStack) (file : option (list Z))
  : option (list Z) :=
  if opened then Some (overwrite (state_bytes exec_num ns) (default [] file)) else file.

Fixpoint read_nodes (l : list Z) : list Node :=
  match l with
  | i :: sz :: l => mkNode i sz :: read_nodes l
  | _ => []
  end.

(** [node_list.push_back(new Node(buf[0], buf[1]))] for each record. *)
Definition push_node (ns : NodeStack) (n : Node) : NodeStack :=
  mkNS (node_list ns ++ [(next_addr ns, n)]) (last_backtrack ns) (curr_backtrack ns)
       (head_idx ns) (S (next_addr ns)).

(** The returned [uint32_t] and the stack; an absent file or a short header
    returns [(uint32_t)-1]. *)
Definition set_state (file : option (list Z)) (ns : NodeStack) : Z * NodeStack :=
  match file with
  | None => (u32 (-1), ns)
  | Some bytes =>
      let ns := full_reset ns in
      if (length bytes <? 4)%nat then (u32 (-1), ns)
      else
        let exec_num := from_le (take 4 bytes) in
        let bytes := drop 4 bytes in
        if (length bytes <? 2)%nat then (u32 (-1), ns)
        else
          let ind := from_le (take 2 bytes) in
          let ns := foldl push_node ns (read_nodes (drop 2 bytes)) in
          let ns := match lookupZ (node_list ns) ind with
                    | Some (a, _) => mkNS (node_list ns) (last_backtrack ns) (Some a)
                                          (head_idx ns) (next_addr ns)
                    | None => ns
                    end in
          (exec_num, ns)
  end.

(** ** What the file records *)

(** The nodes and the position of the open decision, without the addresses. *)
Definition view (ns : NodeStack) : list Node * option Z :=
  ((node_list ns).*2,
   match curr_backtrack ns with Some a => find_node a (node_list ns) 0 | None => None end).

(** The widths of the file format: 8-bit choices and sizes, 16-bit index. *)
Definition fits (ns : NodeStack) : Prop :=
  Forall (fun n => 0 <= read_from_idx n < 2 ^ 8 /\ 0 <= rf_size n < 2 ^ 8) (node_list ns).*2 /\
  lenZ (node_list ns) < 2 ^ 16 /\
  match curr_backtrack ns with Some a => a ∈ (node_list ns).*1 | None => True end.

Lemma read_nodes_bytes ns l k :
  Forall (fun n => 0 <= read_from_idx n < 2 ^ 8 /\ 0 <= rf_size n < 2 ^ 8) ns ->
  read_nodes (concat (node_bytes <$> l ++ ns) ++ k) =
    read_nodes (concat (node_bytes <$> l) ++ concat (node_bytes <$> ns) ++ k).
Proof. intros _. by rewrite fmap_app, concat_app, <- app_assoc. Qed.

Lemma read_nodes_app l k :
  Forall (fun n => 0 <= read_from_idx n < 2 ^ 8 /\ 0 <= rf_size n < 2 ^ 8) l ->
  read_nodes (concat (node_bytes <$> l) ++ k) = l ++ read_nodes k.
Proof.
  induction l as [|[i sz] l IH]; [done|]. intros Hl. inversion Hl as [|x y [Hi Hs] Hl']; subst. cbn in Hi, Hs.
  cbn. rewrite IH by done. unfold get_choice, get_read_from_size. cbn. rewrite !wrap_small by done. done.
Qed.

Lemma find_node_elem a l it : a ∈ l.*1 ->
  exists i, find_node a l it = Some (it + i) /\ 0 <= i < lenZ l /\ exists n, lookupZ l i = Some (a, n).
Proof.
  revert it. induction l as [|[b n] l IH]; intros it; [by intros ?%elem_of_nil|].
  simpl. case_bool_decide as Hb.
  - intros _. subst. exists 0. split; [by rewrite Z.add_0_r|]. split; [unfold lenZ; simpl; lia|by exists n].
  - intros [->|Hin]%elem_of_cons; [done|]. destruct (IH (it + 1) Hin) as (i & -> & Hi & m & Hm).
    exists (i + 1). split; [f_equal; lia|]. split; [unfold lenZ in *; simpl; lia|].
    exists m. unfold lookupZ in *. rewrite !(proj2 (Z.ltb_ge _ 0)) in * by lia.
    by replace (Z.to_nat (i + 1)) with (S (Z.to_nat i)) by lia.
Qed.

Lemma find_node_lookup a n l i it : NoDup l.*1 -> lookupZ l i = Some (a, n) ->
  find_node a l it = Some (it + i).
Proof.
  intros Hnd Hl. destruct (find_node_elem a l it) as (j & Hf & Hj & m & Hm).
  { unfold lookupZ in Hl. destruct (i <? 0); [done|]. apply list_elem_of_lookup. exists (Z.to_nat i).
    by rewrite list_lookup_fmap, Hl. }
  rewrite Hf. do 2 f_equal. unfold lookupZ in *. destruct (i <? 0) eqn:?, (j <? 0) eqn:?; try done. bools.
  assert (Z.to_nat j = Z.to_nat i); [|lia].
  eapply NoDup_lookup; [exact Hnd| |]; rewrite list_lookup_fmap; by rewrite ?Hl, ?Hm.
Qed.

Lemma push_nodes ns l :
  node_list (foldl push_node ns l) = node_list ns ++ zip (seq (next_addr ns) (length l)) l /\
  last_backtrack (foldl push_node ns l) = last_backtrack ns /\
  curr_backtrack (foldl push_node ns l) = curr_backtrack ns /\
  head_idx (foldl push_node ns l) = head_idx ns /\
  next_addr (foldl push_node ns l) = (next_addr ns + length l)%nat.
Proof.
  revert ns. induction l as [|n l IH]; intros ns; simpl.
  { rewrite app_nil_r, Nat.add_0_r. done. }
  destruct (IH (push_node ns n)) as (-> & -> & -> & -> & ->). simpl.
  rewrite <- app_assoc, <- Nat.add_succ_comm. done.
Qed.

(** Loading a file made of the bytes of [ns] followed by [tail] gives the
    nodes of [ns] followed by those that [tail] encodes. *)
Lemma set_state_bytes exec_num ns tail ns0 :
  0 <= exec_num < 2 ^ 32 -> fits ns ->
  curr_backtrack ns <> None \/ lenZ (read_nodes tail) + lenZ (node_list ns) < 2 ^ 16 ->
  last_backtrack ns0 = None ->
  exists ns', set_state (Some (state_bytes exec_num ns ++ tail)) ns0 = (exec_num, ns') /\
    addrs_ok ns' /\ head_idx ns' = -1 /\ last_backtrack ns' = None /\
    view ns' = ((view ns).1 ++ read_nodes tail, (view ns).2).
Proof.
  intros He (Hfit & Hlen & Hcb) Htail Hlb.
  assert (set_state (Some (state_bytes exec_num ns ++ tail)) ns0 =
    (exec_num,
     let ns1 := foldl push_node (full_reset ns0) ((node_list ns).*2 ++ read_nodes tail) in
     match lookupZ (node_list ns1) (curr_ind ns) with
     | Some (a, _) => mkNS (node_list ns1) (last_backtrack ns1) (Some a) (head_idx ns1) (next_addr ns1)
     | None => ns1 end)) as ->.
  { unfold set_state, state_bytes. rewrite <- !app_assoc.
    rewrite (proj2 (Nat.ltb_ge _ _)) by (rewrite length_app, length_to_le; lia).
    rewrite (take_app_length' (to_le 4 _)), (drop_app_length' (to_le 4 _)) by (by rewrite length_to_le).
    rewrite (proj2 (Nat.ltb_ge _ _)) by (rewrite length_app, length_to_le; lia).
    rewrite (take_app_length' (to_le 2 _)), (drop_app_length' (to_le 2 _)) by (by rewrite length_to_le).
    rewrite read_nodes_app by done.
    rewrite !from_to_le. rewrite (Z.mod_small exec_num) by (simpl; lia).
    rewrite (Z.mod_small (curr_ind ns)); [done|].
    change (256 ^ Z.of_nat 2) with (2 ^ 16). unfold curr_ind.
    destruct (curr_backtrack ns); [|done]. destruct (find_node _ _ _); [|done]. by apply wrap_bounds. }
  set (all := (node_list ns).*2 ++ read_nodes tail). cbn zeta.
  destruct (push_nodes (full_reset ns0) all) as (El & Elb & Ecb & Eh & En). simpl in El.
  set (ns1 := foldl push_node (full_reset ns0) all) in *.
  assert ((node_list ns1).*1 = seq (next_addr ns0) (length all)) as E1
    by (rewrite El, fst_zip; [done|rewrite length_seq; lia]).
  assert ((node_list ns1).*2 = all) as E2 by (rewrite El, snd_zip; [done|rewrite length_seq; lia]).
  assert (addrs_ok ns1) as Ha.
  { split; rewrite E1; [apply NoDup_seq|]. rewrite Forall_forall, En. intros x Hx%elem_of_seq.
    simpl in *. lia. }
  assert (lenZ (node_list ns1) = lenZ (read_nodes tail) + lenZ (node_list ns)) as Elen.
  { unfold lenZ. rewrite <- (length_fmap snd (node_list ns1)), E2. unfold all.
    rewrite length_app, length_fmap. lia. }
  unfold curr_ind, view. destruct (curr_backtrack ns) as [a|] eqn:Ea.
  - destruct (find_node_elem a (node_list ns) 0 Hcb) as (i & -> & Hi & m & Hm).
    rewrite wrap_small by (unfold lenZ in *; lia).
    destruct (lookupZ_is_Some (node_list ns1) (0 + i)) as [[b n] Hb].
    { fold (lenZ (node_list ns1)). pose proof (lenZ_nonneg (read_nodes tail)). lia. }
    rewrite Hb. eexists. split; [done|]. simpl. rewrite Eh, Elb, E2. split; [apply Ha|].
    split; [done|]. split; [done|]. f_equal.
    by rewrite (find_node_lookup b n _ (0 + i) 0) by (apply Ha || done).
  - destruct (lookupZ (node_list ns1) (u16 (-1))) as [[]|] eqn:E.
    { apply lookupZ_Some in E. fold (lenZ (node_list ns1)) in E. rewrite Elen in E.
      change (u16 (-1)) with 65535 in E. destruct Htail; [done|].
      exfalso. lia. }
    exists ns1. rewrite Eh, Elb, Ecb, E2. simpl. rewrite Hlb. split_and!; try done; apply Ha.
Qed.

(** ** Round trip *)

(** The index of the last node with more choices. *)
Fixpoint open_idx (l : list Node) (it : Z) : option Z :=
  match l with
  | [] => None
  | n :: l => match open_idx l (it + 1) with
              | Some i => Some i
              | None => if has_more_choices n then Some it else None
              end
  end.

Lemma last_more_open l it : NoDup l.*1 ->
  match last_more l with Some b => find_node b l it | None => None end = open_idx l.*2 it.
Proof.
  revert it. induction l as [|[a n] l IH]; intros it; [done|]. simpl.
  intros [Hnin Hnd]%NoDup_cons. specialize (IH (it + 1) Hnd).
  destruct (last_more l) as [b|] eqn:Em.
  - apply last_more_elem in Em as Hb. fold (snd <$> l). rewrite <- IH. rewrite bool_decide_false by (by intros ->).
    destruct (find_node_elem b l (it + 1) Hb) as (i & -> & _). done.
  - fold (snd <$> l). rewrite <- IH. destruct (has_more_choices n); [|done]. by rewrite bool_decide_true.
Qed.

Lemma find_node_Some a l it j : find_node a l it = Some j ->
  0 <= j - it /\ exists n, lookupZ l (j - it) = Some (a, n).
Proof.
  revert it. induction l as [|[c n] l IH]; intros it; [done|]. simpl. case_bool_decide.
  - intros [= <-]. subst. rewrite Z.sub_diag. split; [lia|]. by exists n.
  - intros (Hj & m & Hm)%IH. split; [lia|]. exists m.
    unfold lookupZ in *. rewrite !(proj2 (Z.ltb_ge _ 0)) in * by lia.
    by replace (Z.to_nat (j - it)) with (S (Z.to_nat (j - (it + 1)))) by lia.
Qed.

(** A stack loaded with the view of a ready stack is ready. *)
Lemma ready_view {A} (t : tree A) ns ns' :
  ready t ns -> view ns' = view ns -> addrs_ok ns' -> head_idx ns' = -1 ->
  last_backtrack ns' = None -> ready t ns'.
Proof.
  intros (Hp & [Hnd _] & _ & _ & b & Hc & Hm) Hv Ha Hh Hlb. unfold view in Hv.
  rewrite Hc in Hv. injection Hv as Hn Hi.
  unfold ready. rewrite Hn. do 4 (split; [done|]).
  pose proof (last_more_open _ 0 Hnd) as Ho. rewrite Hm in Ho.
  destruct (find_node_elem b (node_list ns) 0 (last_more_elem _ _ Hm)) as (i & Hfb & _).
  destruct (curr_backtrack ns') as [b'|]; [|congruence]. exists b'. split; [done|].
  pose proof (last_more_open (node_list ns') 0 (proj1 Ha)) as Ho'. rewrite Hn, <- Ho, Hfb in Ho'.
  destruct (last_more (node_list ns')) as [c|]; [|done].
  rewrite Hfb in Hi. apply find_node_Some in Ho', Hi. destr. congruence.
Qed.

(** Saving the decision stack and loading it back gives the same recorded
    decisions and the same open decision, and the saved execution number, when
    the file did not exist or was not longer, choices and sizes fit a byte and
    the stack has fewer than 2^16 nodes. *)
Theorem save_load_roundtrip exec_num ns file ns0 :
  0 <= exec_num < 2 ^ 32 -> fits ns ->
  (length (default [] file) <= length (state_bytes exec_num ns))%nat ->
  last_backtrack ns0 = None ->
  exists ns', set_state (save_state exec_num true ns file) ns0 = (exec_num, ns') /\ view ns' = view ns.
Proof.
  intros He Hf Hfile Hlb.
  destruct (set_state_bytes exec_num ns [] ns0) as (ns' & Hs & _ & _ & _ & Hv); try done.
  { right. destruct Hf as (_ & Hlen & _). unfold lenZ in *. simpl. lia. }
  exists ns'. unfold save_state, overwrite. rewrite drop_ge by done. split; [done|].
  rewrite Hv. cbn [read_nodes]. rewrite app_nil_r. by destruct (view ns).
Qed.

(** A stack that is loaded back is where the saved one was. *)
Lemma loaded_ready {A} (t : tree A) exec_num ns ns0 :
  ready t ns -> fits ns -> 0 <= exec_num < 2 ^ 32 -> last_backtrack ns0 = None ->
  exists ns1, set_state (save_state exec_num true ns None) ns0 = (exec_num, ns1) /\ ready t ns1 /\
    (node_list ns1).*2 = (node_list ns).*2.
Proof.
  intros Hrd Hf He Hlb.
  destruct (set_state_bytes exec_num ns [] ns0) as (ns1 & Hs & Ha & Hh & Hlb1 & Hv); try done.
  { right. destruct Hf as (_ & Hlen & _). unfold lenZ in *. simpl. lia. }
  assert (view ns1 = view ns) as Hv'
    by (rewrite Hv; cbn [read_nodes]; rewrite app_nil_r; by destruct (view ns)).
  exists ns1. split; [|split; [by eapply ready_view|apply (f_equal fst Hv')]].
  rewrite <- Hs. unfold save_state, overwrite. simpl default. by rewrite drop_nil.
Qed.

(** A search resumed from a saved stack visits exactly the leaves that the
    interrupted search had left. *)
Theorem resumed_search {A} (t : tree A) exec_num ns ns0 fuel :
  tree_ok 0 t -> ready t ns -> fits ns -> 0 <= exec_num < 2 ^ 32 ->
  last_backtrack ns0 = None -> (length (rest t (node_list ns).*2) <= fuel)%nat ->
  exists ns1 ns2, set_state (save_state exec_num true ns None) ns0 = (exec_num, ns1) /\
    search fuel t ns1 = inr (rest t (node_list ns).*2, ns2) /\ has_another_execution ns2 = false.
Proof.
  intros Hok Hrd Hf He Hlb Hfuel. destruct (loaded_ready t exec_num ns ns0) as (ns1 & Hs & Hrd1 & Hn); try done.
  destruct (search_rest t ns1 fuel Hok Hrd1) as (ns2 & Hse & Hd); [by rewrite Hn|].
  exists ns1, ns2. split; [done|]. by rewrite <- Hn.
Qed.

(** [save_state] does not truncate the file: saved over a longer file, the
    stack that is loaded back carries the nodes left in the file's tail. *)
Theorem save_keeps_stale_tail exec_num ns old ns0 :
  0 <= exec_num < 2 ^ 32 -> fits ns -> curr_backtrack ns <> None -> last_backtrack ns0 = None ->
  exists ns', set_state (save_state exec_num true ns (Some old)) ns0 = (exec_num, ns') /\
    (view ns').1 = (view ns).1 ++ read_nodes (drop (length (state_bytes exec_num ns)) old).
Proof.
  intros He Hf Hc Hlb.
  destruct (set_state_bytes exec_num ns (drop (length (state_bytes exec_num ns)) old) ns0)
    as (ns' & Hs & _ & _ & _ & Hv); [done|done|by left|done|].
  exists ns'. split; [done|]. by rewrite Hv.
Qed.

(** The stack after the first execution of the demonstration tree, and a file
    with a longer state of five nodes. *)
Definition demo_stack : NodeStack :=
  reset_execution (mkNS [(0%nat, mkNode 1 2); (1%nat, mkNode 0 3)] (Some 1%nat) None 1 2%nat).
Definition demo_old_file : list Z := state_bytes 7 NodeStack_new ++ concat (replicate 5 [1; 2]).

Lemma demo_fits : fits demo_stack.
Proof. split; [repeat constructor; simpl; lia|]. split; [by vm_compute|]. simpl. set_solver. Qed.
Lemma demo_ready_stack : ready demo_tree demo_stack.
Proof.
  split; [by exists 20|]. split; [|split; [done|split; [done|by exists 1%nat]]].
  split; [|repeat constructor]. simpl. apply NoDup_cons. split; [set_solver|]. apply NoDup_singleton.
Qed.

Lemma save_load_roundtrip_witness :
  exists ns', set_state (save_state 3 true demo_stack None) NodeStack_new = (3, ns') /\ view ns' = view demo_stack.
Proof. apply (save_load_roundtrip 3 demo_stack None NodeStack_new); [lia|apply demo_fits|simpl; lia|reflexivity]. Defined.

Lemma resumed_search_witness :
  exists ns1 ns2, set_state (save_state 3 true demo_stack None) NodeStack_new = (3, ns1) /\
    search 10 demo_tree ns1 = inr ([21; 22], ns2) /\ has_another_execution ns2 = false.
Proof.
  apply (resumed_search demo_tree 3 demo_stack NodeStack_new 10);
    [apply demo_tree_ok|apply demo_ready_stack|apply demo_fits|lia|reflexivity|simpl; lia].
Defined.

Lemma save_keeps_stale_tail_witness :
  exists ns', set_state (save_state 3 true demo_stack (Some demo_old_file)) NodeStack_new = (3, ns') /\
    (view ns').1 = [mkNode 1 2; mkNode 0 3; mkNode 1 2; mkNode 1 2; mkNode 1 2].
Proof. apply (save_keeps_stale_tail 3 demo_stack demo_old_file NodeStack_new); [lia|apply demo_fits|discriminate|reflexivity]. Defined.
