(* ===== verification/Action.v ===== *)
(** * Action: the actions of the program under test

    [src/include/action.h] and [src/src/model/action.cc].  A [void *] is a [Z];
    a [Thread *], [Mutex *] or [ConditionVariable *] stored in a [void *] is
    the number of the object. *)
From S2P Require Import Prelude Choice.

Inductive action_type :=
| THREAD_START | THREAD_YIELD | THREAD_FINISH | THREADONLY_FINISH
| PTHREAD_CREATE | PTHREAD_JOIN | NONATOMIC_STORE | NONATOMIC_LOAD
| ATOMIC_INIT | ATOMIC_STORE | ATOMIC_LOAD | ATOMIC_RMWR | ATOMIC_CAS_FAILED | ATOMIC_RMW
| ATOMIC_LOCK | ATOMIC_TRYLOCK | ATOMIC_UNLOCK | ATOMIC_NOTIFY_ONE | ATOMIC_NOTIFY_ALL
| ATOMIC_WAIT | ATOMIC_TIMEDWAIT
| CACHE_MFENCE | CACHE_SFENCE | CACHE_CLFLUSH | CACHE_CLFLUSHOPT.

#[export] Instance action_type_eq_dec : EqDecision action_type.
Proof. solve_decision. Defined.

Inductive memory_order :=
| memory_order_relaxed | memory_order_consume | memory_order_acquire
| memory_order_release | memory_order_acq_rel | memory_order_seq_cst.

#[export] Instance memory_order_eq_dec : EqDecision memory_order.
Proof. solve_decision. Defined.

(** [action_type2str] *)
Definition action_type2str (type : action_type) : string :=
  match type with
  | THREAD_START => "THREAD_START"
  | THREAD_YIELD => "THREAD_YIELD"
  | THREAD_FINISH => "THREAD_FINISH"
  | THREADONLY_FINISH => "THREADONLY_FINISH"
  | PTHREAD_CREATE => "PTHREAD_CREATE"
  | PTHREAD_JOIN => "PTHREAD_JOIN"
  | NONATOMIC_STORE => "NONACTOMIC_STORE"
  | NONATOMIC_LOAD => "NONACTOMIC_LOAD"
  | ATOMIC_INIT => "ATOMIC_INIT"
  | ATOMIC_STORE => "ATOMIC_STORE"
  | ATOMIC_LOAD => "ATOMIC_LOAD"
  | ATOMIC_RMWR => "ATOMIC_RMWR"
  | ATOMIC_CAS_FAILED => "ATOMIC_CAS_FAILED"
  | ATOMIC_RMW => "ATOMIC_RMW"
  | ATOMIC_LOCK => "ATOMIC_LOCK"
  | ATOMIC_TRYLOCK => "ATOMIC_TRYLOCK"
  | ATOMIC_UNLOCK => "ATOMIC_UNLOCK"
  | ATOMIC_NOTIFY_ONE => "ATOMIC_NOTIFY_ONE"
  | ATOMIC_NOTIFY_ALL => "ATOMIC_NOTIFY_ALL"
  | ATOMIC_WAIT => "ATOMIC_WAIT"
  | ATOMIC_TIMEDWAIT => "ATOMCI_TIMEDWAIT"
  | CACHE_MFENCE => "CACHE_MFENCE"
  | CACHE_SFENCE => "CACHE_SFENCE"
  | CACHE_CLFLUSH => "CACHE_CLFLUSH"
  | CACHE_CLFLUSHOPT => "CACHE_CLFLUSHOPT"
  end.

Record ModelAction := mkAction {
  act_tid : Z;
  act_type : action_type;
  location : Z;
  value : Z;
  seq_num : Z;
  earliest_effect : Z;
  act_size : Z;
  act_order : memory_order;
  act_position : string
}.

#[export] Instance ModelAction_eq_dec : EqDecision ModelAction.
Proof. solve_decision. Defined.

(** The two constructors; [tid] is the global [thread_id].  The first one leaves
    [location] and [value] unset; they are never read on its actions. *)
Definition ModelAction_thread (tid : Z) (t : action_type) : ModelAction :=
  mkAction tid t 0 0 0 0 0 memory_order_seq_cst EmptyString.
Definition ModelAction_new (tid : Z) (t : action_type) (loc val : Z) (ord : memory_order)
    (sz : Z) (pos : string) : ModelAction :=
  mkAction tid t loc val 0 0 sz ord pos.
(** The copy constructor: [earliest_effect] takes its default, 0. *)
Definition ModelAction_copy (a : ModelAction) : ModelAction :=
  mkAction (act_tid a) (act_type a) (location a) (value a) (seq_num a) 0
           (act_size a) (act_order a) (act_position a).

Definition set_seq_num (n : Z) (a : ModelAction) : ModelAction :=
  mkAction (act_tid a) (act_type a) (location a) (value a) n (earliest_effect a)
           (act_size a) (act_order a) (act_position a).
Definition set_value (v : Z) (a : ModelAction) : ModelAction :=
  mkAction (act_tid a) (act_type a) (location a) v (seq_num a) (earliest_effect a)
           (act_size a) (act_order a) (act_position a).
Definition set_earliest_effect (ef : Z) (a : ModelAction) : ModelAction :=
  mkAction (act_tid a) (act_type a) (location a) (value a) (seq_num a) ef
           (act_size a) (act_order a) (act_position a).

Definition is_seq_cst (a : ModelAction) : bool := bool_decide (act_order a = memory_order_seq_cst).
Definition is_second_part_of_rmw (a : ModelAction) : bool :=
  match act_type a with ATOMIC_RMW | ATOMIC_CAS_FAILED => true | _ => false end.
Definition is_read (a : ModelAction) : bool :=
  match act_type a with ATOMIC_LOAD | NONATOMIC_LOAD | ATOMIC_RMWR | ATOMIC_RMW => true | _ => false end.
Definition is_write (a : ModelAction) : bool :=
  match act_type a with ATOMIC_STORE | ATOMIC_RMW | ATOMIC_INIT | NONATOMIC_STORE => true | _ => false end.
Definition equivalent (a other : ModelAction) : bool :=
  (value a =? value other) && (act_size a =? act_size other) && (location a =? location other).

(** The casts of [action.cc]; a wrong type fails [assert(0)]. *)
Definition get_thread_ptr (a : ModelAction) : err Z :=
  match act_type a with
  | PTHREAD_JOIN => inr (location a)
  | _ => inl (AssertFail "get_thread")
  end.
Definition get_mutex (a : ModelAction) : err Z :=
  match act_type a with
  | ATOMIC_TRYLOCK | ATOMIC_LOCK | ATOMIC_UNLOCK => inr (location a)
  | ATOMIC_WAIT => inr (value a)
  | _ => inl (AssertFail "get_mutex")
  end.
Definition get_cond (a : ModelAction) : err Z :=
  match act_type a with
  | ATOMIC_NOTIFY_ONE | ATOMIC_NOTIFY_ALL | ATOMIC_WAIT | ATOMIC_TIMEDWAIT => inr (location a)
  | _ => inl (AssertFail "get_cond")
  end.

(** ** Types and names *)

(** The name printed for an action determines its type. *)
Lemma action_type2str_inj t u : action_type2str t = action_type2str u -> t = u.
Proof. destruct t, u; (reflexivity || discriminate). Qed.

(** Every action that is a read or a write and is not an RMW is one or the other. *)
Lemma read_write_excl a : is_read a = true -> is_write a = true -> act_type a = ATOMIC_RMW.
Proof. unfold is_read, is_write. by destruct (act_type a). Qed.

Lemma equivalent_spec a b :
  equivalent a b = true <-> value a = value b /\ act_size a = act_size b /\ location a = location b.
Proof. unfold equivalent. rewrite !andb_true_iff, !Z.eqb_eq. tauto. Qed.
