(* ===== verification/ReadFrom.v ===== *)
(** * ReadFrom: assembling the value of a load from the stores that cover it

    [get_overlaps], [get_overlaps_save_old] and [get_read_value] of
    [src/include/thread_memory.h], and the copies of the first two in
    [src/include/rfentry.h].  A read of [n] bytes has [n] slots, each [NULL] or
    the write its byte comes from; [numslotsleft] counts the empty ones.  The
    callers allocate exactly [read->get_size()] slots. *)
From S2P Require Import Prelude Choice Action.

Abbreviation slots := (list (option ModelAction)).

(** The body of both loops: visit the slots [i], [i+1], ... ([n] of them) and
    stop early when no slot is left. *)
Fixpoint overlaps_loop (n : nat) (i : Z) (write : ModelAction) (rf : slots)
    (numslotsleft : Z) (ret : bool) : bool * slots * Z :=
  match n with
  | O => (ret, rf, numslotsleft)
  | S n =>
      match lookupZ rf i with
      | Some None =>
          let rf := <[Z.to_nat i := Some write]> rf in
          let numslotsleft := u32 (numslotsleft - 1) in
          if numslotsleft =? 0 then (true, rf, numslotsleft)
          else overlaps_loop n (i + 1) write rf numslotsleft true
      | _ => overlaps_loop n (i + 1) write rf numslotsleft ret
      end
  end.

Definition get_overlaps (write read : ModelAction) (rf : slots) (numslotsleft : Z)
  : bool * slots * Z :=
  let wbot := location write in
  let wsize := act_size write in
  let wtop := u64 (wbot + wsize) in
  let rbot := location read in
  let rsize := act_size read in
  let rtop := u64 (rbot + rsize) in
  if (rtop <=? wbot) || (wtop <=? rbot) then (false, rf, numslotsleft)
  else
    let offset := if rbot <? wbot then wbot - rbot else 0 in
    overlaps_loop (Z.to_nat (Z.min (offset + wsize) rsize - offset)) offset
                  write rf numslotsleft false.

Fixpoint overlaps_old_loop (n : nat) (i : Z) (write : ModelAction) (rf : slots)
    (numslotsleft : Z) (ret : option slots) : option slots * slots * Z :=
  match n with
  | O => (ret, rf, numslotsleft)
  | S n =>
      match lookupZ rf i with
      | Some None =>
          let ret := match ret with None => Some rf | Some old => Some old end in
          let rf := <[Z.to_nat i := Some write]> rf in
          let numslotsleft := u32 (numslotsleft - 1) in
          if numslotsleft =? 0 then (ret, rf, numslotsleft)
          else overlaps_old_loop n (i + 1) write rf numslotsleft ret
      | _ => overlaps_old_loop n (i + 1) write rf numslotsleft ret
      end
  end.

Definition get_overlaps_save_old (write read : ModelAction) (rf : slots) (numslotsleft : Z)
  : option slots * slots * Z :=
  let wbot := location write in
  let wsize := act_size write in
  let wtop := u64 (wbot + wsize) in
  let rbot := location read in
  let rsize := act_size read in
  let rtop := u64 (rbot + rsize) in
  if (rtop <=? wbot) || (wtop <=? rbot) then (None, rf, numslotsleft)
  else
    let offset := if rbot <? wbot then wbot - rbot else 0 in
    overlaps_old_loop (Z.to_nat (Z.min (offset + wsize) rsize - offset)) offset
                      write rf numslotsleft None.

(** [for (i = size-1; i >= 0; i--)]; [n] is [i + 1]. *)
Fixpoint read_value_loop (n : nat) (read_loc : Z) (rf : slots) (value : Z) : Z :=
  match n with
  | O => value
  | S i =>
      let value := u64 (Z.shiftl value 8) in
      match rf !! i with
      | Some (Some write) =>
          let offset := Z.of_nat i + read_loc - location write in
          let writevalue := Z.shiftr (Action.value write) (8 * offset) in
          read_value_loop i read_loc rf (Z.lor value (Z.land writevalue 255))
      | _ => read_value_loop i read_loc rf value
      end
  end.

Definition get_read_value (read_loc : Z) (rf : slots) : Z :=
  read_value_loop (length rf) read_loc rf 0.

(** ** [rfentry.h]: the same operations as methods of a candidate *)
Record rfEntry := mkRfEntry { rf_overlaps : slots; rf_addr : Z; rf_crashes : gmap Z Z }.

Definition rfEntry_get_overlaps (e : rfEntry) (write read : ModelAction) (numslotsleft : Z)
  : bool * rfEntry * Z :=
  let '(b, ov, n) := get_overlaps write read (rf_overlaps e) numslotsleft in
  (b, mkRfEntry ov (rf_addr e) (rf_crashes e), n).

Definition rfEntry_get_overlaps_save_old (e : rfEntry) (write read : ModelAction) (numslotsleft : Z)
  : option slots * rfEntry * Z :=
  let '(old, ov, n) := get_overlaps_save_old write read (rf_overlaps e) numslotsleft in
  (old, mkRfEntry ov (rf_addr e) (rf_crashes e), n).

(** ** Specification: filling the empty slots that the write covers *)

Definition covers (w : ModelAction) (a : Z) : bool :=
  (location w <=? a) && (a <? location w + act_size w).

Definition fill_slot (w : ModelAction) (a : Z) (s : option ModelAction) : option ModelAction :=
  match s with Some x => Some x | None => if covers w a then Some w else None end.

(** [fill w a rf]: the slots of the bytes [a], [a+1], ... after taking [w]. *)
Fixpoint fill (w : ModelAction) (a : Z) (rf : slots) : slots :=
  match rf with [] => [] | s :: rf => fill_slot w a s :: fill w (a + 1) rf end.

Fixpoint count_none (rf : slots) : Z :=
  match rf with
  | [] => 0
  | None :: rf => 1 + count_none rf
  | Some _ :: rf => count_none rf
  end.

(** The access stays in the address space and has a [uint] size. *)
Definition in_range (a : ModelAction) : Prop :=
  0 <= location a /\ 0 <= act_size a < 2 ^ 32 /\ location a + act_size a < 2 ^ 64.

Lemma length_fill w a rf : length (fill w a rf) = length rf.
Proof. revert a. induction rf; simpl; auto. Qed.

Lemma count_none_bounds rf : 0 <= count_none rf <= lenZ rf.
Proof. unfold lenZ. induction rf as [|[|] rf IH]; simpl; lia. Qed.

Lemma lookup_fill w a rf i : fill w a rf !! i = fill_slot w (a + Z.of_nat i) <$> rf !! i.
Proof.
  revert a i. induction rf as [|s rf IH]; intros a i; [done|]. destruct i as [|i]; simpl.
  - by rewrite Z.add_0_r.
  - rewrite IH. do 2 f_equal. lia.
Qed.

Lemma fill_id w a rf :
  (forall i, rf !! i = Some None -> covers w (a + Z.of_nat i) = false) -> fill w a rf = rf.
Proof.
  intros H. apply list_eq. intros i. rewrite lookup_fill.
  destruct (rf !! i) as [[x|]|] eqn:E; simpl; [done| |done]. by rewrite H.
Qed.

Lemma count_none_replicate n : count_none (replicate n None) = Z.of_nat n.
Proof. induction n as [|n IH]; simpl; [done|]. lia. Qed.

Lemma count_none_zero rf : count_none rf = 0 -> Forall is_Some rf.
Proof.
  induction rf as [|[x|] rf IH]; simpl; [done|by constructor; eauto|].
  pose proof (count_none_bounds rf). lia.
Qed.

Lemma fill_full w a rf : count_none rf = 0 -> fill w a rf = rf.
Proof.
  intros H%count_none_zero. apply fill_id. intros i Hi.
  eapply Forall_lookup_1 in H; [|done]. by destruct H.
Qed.

Lemma count_none_insert rf i w :
  rf !! i = Some None -> count_none (<[i := Some w]> rf) = count_none rf - 1.
Proof.
  revert i. induction rf as [|s rf IH]; intros [|i] Hi; simpl in *; [done|done| |].
  - injection Hi as ->. lia.
  - rewrite (IH i Hi). destruct s; lia.
Qed.

(** Slots [lo, lo+n) of the bytes from [a] are the ones [w] covers. *)
Definition window (w : ModelAction) (a lo : Z) (n : nat) (rf : slots) : Prop :=
  forall i, (i < length rf)%nat ->
    covers w (a + Z.of_nat i) = (lo <=? Z.of_nat i) && (Z.of_nat i <? lo + Z.of_nat n).

(** [rem_fill]: the covered slots from index [lo] on. *)
Definition rem_fill (w : ModelAction) (lo n : Z) (rf : slots) : slots :=
  imap (fun i s => match s with
                   | None => if (lo <=? Z.of_nat i) && (Z.of_nat i <? lo + n) then Some w else None
                   | Some x => Some x end) rf.

Lemma rem_fill_step w lo n rf : 0 <= lo -> 0 <= n -> lookupZ rf lo <> Some None ->
  rem_fill w lo (n + 1) rf = rem_fill w (lo + 1) n rf.
Proof.
  intros Hlo Hn Hl. apply list_eq. intros i. unfold rem_fill. rewrite !list_lookup_imap.
  destruct (rf !! i) as [[x|]|] eqn:E; simpl; [done| |done].
  do 2 f_equal. assert (Z.of_nat i <> lo).
  { intros <-. apply Hl. unfold lookupZ. rewrite (proj2 (Z.ltb_ge _ 0)), Nat2Z.id by lia. done. }
  destruct (Z.leb_spec lo (Z.of_nat i)), (Z.leb_spec (lo + 1) (Z.of_nat i)); try lia; [|done].
  simpl. by replace (lo + 1 + n) with (lo + (n + 1)) by lia.
Qed.

Lemma rem_fill_insert w lo n rf : 0 <= lo -> 0 <= n -> lookupZ rf lo = Some None ->
  rem_fill w lo (n + 1) rf = rem_fill w (lo + 1) n (<[Z.to_nat lo := Some w]> rf).
Proof.
  intros Hlo Hn Hl. unfold lookupZ in Hl. rewrite (proj2 (Z.ltb_ge _ 0)) in Hl by lia.
  apply list_eq. intros i. unfold rem_fill. rewrite !list_lookup_imap.
  destruct (decide (i = Z.to_nat lo)) as [->|Hne].
  - rewrite list_lookup_insert_eq by (by eapply lookup_lt_Some). rewrite Hl. simpl.
    rewrite (proj2 (Z.leb_le _ _)), (proj2 (Z.ltb_lt _ _)) by lia. done.
  - rewrite list_lookup_insert_ne by done. destruct (rf !! i) as [[x|]|]; simpl; [done| |done].
    destruct (Z.leb_spec lo (Z.of_nat i)), (Z.leb_spec (lo + 1) (Z.of_nat i)); try lia; [|done].
    simpl. by replace (lo + 1 + n) with (lo + (n + 1)) by lia.
Qed.

Lemma rem_fill_full w lo n rf : count_none rf = 0 -> rem_fill w lo n rf = rf.
Proof.
  intros H%count_none_zero. apply list_eq. intros i. unfold rem_fill. rewrite list_lookup_imap.
  destruct (rf !! i) as [[x|]|] eqn:E; simpl; [done| |done].
  eapply Forall_lookup_1 in H; [|done]. by destruct H.
Qed.

Lemma rem_fill_zero w lo rf : rem_fill w lo 0 rf = rf.
Proof.
  apply list_eq. intros i. unfold rem_fill. rewrite list_lookup_imap.
  destruct (rf !! i) as [[x|]|] eqn:E; simpl; [done| |done].
  destruct (Z.leb_spec lo (Z.of_nat i)), (Z.ltb_spec (Z.of_nat i) (lo + 0)); try lia; done.
Qed.

Lemma rem_fill_changes w lo n rf : 0 <= lo -> 0 <= n -> lookupZ rf lo = Some None ->
  rem_fill w lo (n + 1) rf <> rf.
Proof.
  intros Hlo Hn Hl Heq. unfold lookupZ in Hl. rewrite (proj2 (Z.ltb_ge _ 0)) in Hl by lia.
  rewrite <- Heq in Hl. unfold rem_fill in Hl. rewrite list_lookup_imap in Hl.
  destruct (rf !! Z.to_nat lo) as [[x|]|]; simpl in Hl; [done| |done].
  rewrite (proj2 (Z.leb_le _ _)), (proj2 (Z.ltb_lt _ _)) in Hl by lia. done.
Qed.

Lemma overlaps_loop_spec n i w rf b :
  0 <= i -> lenZ rf < 2 ^ 32 ->
  let rf' := rem_fill w i (Z.of_nat n) rf in
  overlaps_loop n i w rf (count_none rf) b = (b || bool_decide (rf' <> rf), rf', count_none rf').
Proof.
  revert i rf b. induction n as [|n IH]; intros i rf b Hi Hlen; cbn zeta; cbn [overlaps_loop].
  { rewrite rem_fill_zero, bool_decide_false by naive_solver. by rewrite orb_false_r. }
  rewrite Nat2Z.inj_succ, <- Z.add_1_r.
  destruct (lookupZ rf i) as [[x|]|] eqn:E.
  1,3: rewrite IH by lia; rewrite rem_fill_step by (lia || congruence); done.
  pose proof (rem_fill_insert w i (Z.of_nat n) rf Hi ltac:(lia) E) as Hrf.
  pose proof (rem_fill_changes w i (Z.of_nat n) rf Hi ltac:(lia) E) as Hch.
  rewrite (bool_decide_true _ Hch), orb_true_r, Hrf.
  unfold lookupZ in E. rewrite (proj2 (Z.ltb_ge _ 0)) in E by lia.
  assert (count_none (<[Z.to_nat i := Some w]> rf) = count_none rf - 1) as Hc by (by apply count_none_insert).
  pose proof (count_none_bounds rf). pose proof (count_none_bounds (<[Z.to_nat i := Some w]> rf)).
  rewrite wrap_small, <- Hc by lia.
  destruct (Z.eqb_spec (count_none (<[Z.to_nat i := Some w]> rf)) 0) as [Hz|Hz].
  - by rewrite rem_fill_full.
  - rewrite IH by (lia || by unfold lenZ in *; rewrite length_insert). done.
Qed.

Lemma overlaps_old_loop_eq n i w rf c old :
  overlaps_old_loop n i w rf c (Some old) =
    let '(_, rf', c') := overlaps_loop n i w rf c true in (Some old, rf', c').
Proof.
  revert i rf c. induction n as [|n IH]; intros i rf c; cbn; [done|].
  destruct (lookupZ rf i) as [[x|]|]; [apply IH| |apply IH]. case_if; [done|apply IH].
Qed.

Lemma overlaps_old_loop_none n i w rf c :
  overlaps_old_loop n i w rf c None =
    let '(b, rf', c') := overlaps_loop n i w rf c false in (if b then Some rf else None, rf', c').
Proof.
  revert i rf c. induction n as [|n IH]; intros i rf c; cbn; [done|].
  destruct (lookupZ rf i) as [[x|]|]; [apply IH| |apply IH]. case_if; [done|].
  rewrite overlaps_old_loop_eq.
  assert (forall n i rf c, (overlaps_loop n i w rf c true).1.1 = true) as Htrue.
  { clear. induction n as [|n IH]; intros i rf c; [done|]. cbn.
    destruct (lookupZ rf i) as [[x|]|]; [apply IH| |apply IH]. case_if; [done|apply IH]. }
  specialize (Htrue n (i + 1) (<[Z.to_nat i:=Some w]> rf) (u32 (c - 1))).
  destruct (overlaps_loop _ _ _ _ _ _) as [[b r] c']. simpl in Htrue. by subst.
Qed.

Lemma fill_rem_fill w a lo n rf :
  window w a lo (Z.to_nat n) rf -> 0 <= n -> fill w a rf = rem_fill w lo n rf.
Proof.
  intros Hw Hn. apply list_eq. intros i. unfold rem_fill. rewrite lookup_fill, list_lookup_imap.
  destruct (rf !! i) as [[x|]|] eqn:E; simpl; [done| |done].
  apply lookup_lt_Some in E. rewrite (Hw i E). by rewrite Z2Nat.id.
Qed.

(** The loop fills [wsize] slots from [offset], which are the covered ones when
    the store does not start before the load and end inside it. *)
Definition overlap_ok (w r : ModelAction) : Prop :=
  location r <= location w \/ location r + act_size r <= location w + act_size w \/
  location w + act_size w <= location r.

(** A naturally aligned access of 1, 2, 4 or 8 bytes. *)
Definition aligned (a : ModelAction) : Prop :=
  (act_size a = 1 \/ act_size a = 2 \/ act_size a = 4 \/ act_size a = 8) /\
  location a mod act_size a = 0.

Lemma aligned_overlap_ok w r : aligned w -> aligned r -> overlap_ok w r.
Proof.
  intros [Hw Hw0] [Hr Hr0]. unfold overlap_ok.
  destruct (Z.le_gt_cases (location r) (location w)) as [|Hlt]; [by left|right].
  destruct Hw as [E|[E|[E|E]]], Hr as [F|[F|[F|F]]]; rewrite E, F in *;
    Z.div_mod_to_equations; lia.
Qed.

(** The slots that the loop visits. *)
Lemma visited_slots w r i :
  in_range w -> in_range r -> overlap_ok w r -> 0 <= i < act_size r ->
  location w < location r + act_size r -> location r < location w + act_size w ->
  let lo := if location r <? location w then location w - location r else 0 in
  covers w (location r + i) = (lo <=? i) && (i <? lo + (Z.min (lo + act_size w) (act_size r) - lo)).
Proof.
  intros (Hw1 & Hw2 & Hw3) (Hr1 & Hr2 & Hr3) Hov Hi H1 H2. cbn zeta. unfold covers, overlap_ok in *.
  apply eq_bool_prop_intro. rewrite !andb_True, !Is_true_true, !Z.leb_le, !Z.ltb_lt.
  destruct (Z.ltb_spec (location r) (location w)); lia.
Qed.

(** The store fills exactly the empty slots it covers, and reports whether it
    filled one. *)
Lemma get_overlaps_fill w r rf :
  in_range w -> in_range r -> overlap_ok w r -> lenZ rf = act_size r ->
  get_overlaps w r rf (count_none rf) =
    (bool_decide (fill w (location r) rf <> rf), fill w (location r) rf,
     count_none (fill w (location r) rf)).
Proof.
  intros Hw Hr Hov Hlen. pose proof Hw as (Hw1 & Hw2 & Hw3). pose proof Hr as (Hr1 & Hr2 & Hr3).
  unfold get_overlaps, lenZ in *. rewrite !wrap_small by lia. destruct (_ || _) eqn:Eb.
  - assert (fill w (location r) rf = rf) as ->; [|by rewrite bool_decide_false by naive_solver].
    apply fill_id. intros i Hi%lookup_lt_Some. unfold covers.
    apply orb_true_iff in Eb as [E|E]; apply Z.leb_le in E.
    + rewrite (proj2 (Z.leb_gt _ _)) by lia. done.
    + rewrite (proj2 (Z.ltb_ge _ _)) by lia. apply andb_false_r.
  - bools. set (lo := if location r <? location w then location w - location r else 0).
    assert (0 <= lo) by (unfold lo; case_if; lia).
    assert (0 <= Z.min (lo + act_size w) (act_size r) - lo) by (unfold lo; case_if; lia).
    rewrite overlaps_loop_spec by (unfold lenZ; lia). cbn zeta.
    rewrite Z2Nat.id, <- (fill_rem_fill w (location r)) by (lia || (intros i Hi;
      rewrite Z2Nat.id by lia; apply visited_slots; (done || lia))).
    done.
Qed.

Lemma get_overlaps_save_old_eq w r rf n :
  get_overlaps_save_old w r rf n =
    let '(b, rf', n') := get_overlaps w r rf n in (if b then Some rf else None, rf', n').
Proof.
  unfold get_overlaps_save_old, get_overlaps. case_if; [done|]. apply overlaps_old_loop_none.
Qed.

(** ** The value read *)

(** The byte that [w] stores at address [a], and the byte of a slot. *)
Definition write_byte (w : ModelAction) (a : Z) : Z :=
  u8 (Z.shiftr (Action.value w) (8 * (a - location w))).
Definition slot_byte (a : Z) (s : option ModelAction) : Z :=
  match s with Some w => write_byte w a | None => 0 end.
Fixpoint slot_bytes (a : Z) (rf : slots) : list Z :=
  match rf with [] => [] | s :: rf => slot_byte a s :: slot_bytes (a + 1) rf end.

Lemma length_slot_bytes a rf : length (slot_bytes a rf) = length rf.
Proof. revert a. induction rf; simpl; auto. Qed.

Lemma lookup_slot_bytes a rf i :
  slot_bytes a rf !! i = slot_byte (a + Z.of_nat i) <$> rf !! i.
Proof.
  revert a i. induction rf as [|s rf IH]; intros a [|i]; simpl; try done.
  - by rewrite Z.add_0_r.
  - rewrite IH. do 2 f_equal. lia.
Qed.

Lemma slot_byte_bounds a s : 0 <= slot_byte a s < 256.
Proof. destruct s; simpl; [by apply wrap_bounds|lia]. Qed.

Lemma slot_bytes_bounds a rf : Forall (fun b => 0 <= b < 256) (slot_bytes a rf).
Proof. revert a. induction rf; simpl; constructor; eauto using slot_byte_bounds. Qed.

Lemma read_value_loop_spec n loc rf v :
  (n <= length rf)%nat -> 0 <= v -> (n = 0%nat \/ (v + 1) * 256 ^ Z.of_nat n <= 2 ^ 64) ->
  read_value_loop n loc rf v = from_le (take n (slot_bytes loc rf)) + 256 ^ Z.of_nat n * v.
Proof.
  revert v. induction n as [|n IH]; intros v Hn Hv Hle.
  { change (v = 0 + 1 * v). lia. }
  cbn [read_value_loop]. rewrite Nat2Z.inj_succ, Z.pow_succ_r in * by lia.
  assert (0 < 256 ^ Z.of_nat n) by (apply Z.pow_pos_nonneg; lia).
  destruct Hle as [|Hle]; [lia|].
  assert (v * 256 < 2 ^ 64) by nia.
  rewrite wrap_small by (rewrite Z.shiftl_mul_pow2 by lia; change (2 ^ 8) with 256; lia).
  destruct (lookup_lt_is_Some_2 rf n) as [s Hs]; [lia|]. rewrite Hs.
  assert (take (S n) (slot_bytes loc rf) = take n (slot_bytes loc rf) ++ [slot_byte (loc + Z.of_nat n) s]) as ->.
  { rewrite (take_S_r _ _ (slot_byte (loc + Z.of_nat n) s)); [done|]. by rewrite lookup_slot_bytes, Hs. }
  assert (forall l x, from_le (l ++ [x]) = from_le l + 256 ^ lenZ l * x) as Hsnoc.
  { clear. induction l as [|b l IHl]; intros x; cbn [app from_le]; [unfold lenZ; simpl; lia|].
    rewrite IHl. unfold lenZ. cbn [length]. rewrite Nat2Z.inj_succ, Z.pow_succ_r by lia. lia. }
  rewrite Hsnoc.
  assert (lenZ (take n (slot_bytes loc rf)) = Z.of_nat n) as ->.
  { unfold lenZ. rewrite length_take, length_slot_bytes. lia. }
  set (b := slot_byte (loc + Z.of_nat n) s). pose proof (slot_byte_bounds (loc + Z.of_nat n) s) as Hb. fold b in Hb.
  assert (match s with
          | Some write => read_value_loop n loc rf (Z.lor (Z.shiftl v 8)
              (Z.land (Z.shiftr (Action.value write) (8 * (Z.of_nat n + loc - location write))) 255))
          | None => read_value_loop n loc rf (Z.shiftl v 8)
          end = read_value_loop n loc rf (b + 256 * v)) as ->.
  { destruct s as [w|]; subst b; cbn [slot_byte] in *.
    - rewrite land_ff. unfold write_byte in *.
      replace (Z.of_nat n + loc - location w) with (loc + Z.of_nat n - location w) by lia.
      by rewrite lor_shift8.
    - rewrite Z.shiftl_mul_pow2 by lia. f_equal. change (2 ^ 8) with 256. lia. }
  rewrite IH; [ring|lia|lia|]. right. nia.
Qed.

(** A load of at most 8 bytes gathers, little-endian, the byte of each slot. *)
Lemma get_read_value_bytes loc rf :
  lenZ rf <= 8 -> get_read_value loc rf = from_le (slot_bytes loc rf).
Proof.
  intros H8. unfold get_read_value, lenZ in *.
  rewrite read_value_loop_spec; [|lia|lia|].
  - rewrite take_ge by (rewrite length_slot_bytes; lia). lia.
  - right. change (2 ^ 64) with (256 ^ 8). rewrite Z.mul_1_l. apply Z.pow_le_mono_r; lia.
Qed.

Lemma slot_bytes_replicate a w n :
  slot_bytes a (replicate n (Some w)) = (fun i => write_byte w (a + Z.of_nat i)) <$> seq 0 n.
Proof.
  apply list_eq. intros i. rewrite lookup_slot_bytes, list_lookup_fmap.
  destruct (decide (i < n)%nat).
  - rewrite lookup_replicate_2, lookup_seq_lt by done. done.
  - rewrite (lookup_ge_None_2 (replicate _ _)), (lookup_ge_None_2 (seq _ _))
      by (rewrite ?length_replicate, ?length_seq; lia). done.
Qed.

Lemma write_bytes_le w n :
  (fun i => write_byte w (location w + Z.of_nat i)) <$> seq 0 n = to_le n (Action.value w).
Proof.
  apply list_eq. intros i. rewrite list_lookup_fmap. destruct (decide (i < n)%nat).
  - rewrite lookup_seq_lt, lookup_to_le by done. simpl. unfold write_byte. do 4 f_equal. lia.
  - rewrite (lookup_ge_None_2 (seq _ _)), (lookup_ge_None_2 (to_le _ _))
      by (rewrite ?length_to_le, ?length_seq; lia). done.
Qed.

(** ** Taking the stores of a list, newest first *)

Definition fill_all (ws : list ModelAction) (a : Z) (rf : slots) : slots :=
  fold_left (fun rf w => fill w a rf) ws rf.

Lemma length_fill_all ws a rf : length (fill_all ws a rf) = length rf.
Proof. revert rf. induction ws as [|w ws IH]; intros rf; simpl; [done|]. by rewrite IH, length_fill. Qed.

Lemma fill_all_full ws a rf : count_none rf = 0 -> fill_all ws a rf = rf.
Proof. revert rf. induction ws as [|w ws IH]; intros rf H; simpl; [done|]. rewrite fill_full by done. by apply IH. Qed.

(** The first store of the list that covers the byte. *)
Definition first_cover (ws : list ModelAction) (a : Z) : option ModelAction :=
  List.find (fun w => covers w a) ws.

Lemma lookup_fill_all ws a rf i :
  fill_all ws a rf !! i =
    (fun s => match s with Some x => Some x | None => first_cover ws (a + Z.of_nat i) end) <$> rf !! i.
Proof.
  revert rf. induction ws as [|w ws IH]; intros rf; simpl.
  { by destruct (rf !! i) as [[|]|]. }
  rewrite IH, lookup_fill. destruct (rf !! i) as [[x|]|]; simpl; [done| |done].
  by destruct (covers w (a + Z.of_nat i)).
Qed.

(** A read slot assignment is right for its bytes: a write covers the bytes it
    supplies. *)
Definition sound_slots (a : Z) (rf : slots) : Prop :=
  forall i w, rf !! i = Some (Some w) -> covers w (a + Z.of_nat i) = true.

Lemma sound_fill w a rf : sound_slots a rf -> sound_slots a (fill w a rf).
Proof.
  intros H i x. rewrite lookup_fill. destruct (rf !! i) as [[y|]|] eqn:E; simpl; intros Hx; simplify_eq; [by apply H|].
  destruct (covers w (a + Z.of_nat i)) eqn:Ec; by simplify_eq.
Qed.

(** ** Properties *)

(** C24: For naturally aligned accesses, a store fills exactly the empty slots of
    the load whose bytes it covers and leaves the others; the two variants agree
    on the slots and on the number that is left, the first says whether a slot
    was filled and the second returns the slots of before. *)
Theorem overlaps_fill_covered w r rf :
  in_range w -> in_range r -> aligned w -> aligned r -> lenZ rf = act_size r ->
  let rf' := fill w (location r) rf in
  (forall i, rf' !! i = (fun s => match s with
     | Some x => Some x
     | None => if covers w (location r + Z.of_nat i) then Some w else None end) <$> rf !! i) /\
  get_overlaps w r rf (count_none rf) = (bool_decide (rf' <> rf), rf', count_none rf') /\
  get_overlaps_save_old w r rf (count_none rf) =
    (if bool_decide (rf' <> rf) then Some rf else None, rf', count_none rf').
Proof.
  intros Hw Hr Aw Ar Hlen. cbn zeta. pose proof (aligned_overlap_ok w r Aw Ar) as Hov.
  split; [intros i; apply lookup_fill|]. split; [by apply get_overlaps_fill|].
  by rewrite get_overlaps_save_old_eq, get_overlaps_fill.
Qed.

Definition demo_access (loc v sz : Z) : ModelAction :=
  ModelAction_new 0 NONATOMIC_STORE loc v memory_order_relaxed sz "demo".

Lemma overlaps_fill_covered_witness :
  let w := demo_access 66 0x1234 2 in
  get_overlaps w (demo_access 64 0 4) (replicate 4 None) 4 = (true, [None; None; Some w; Some w], 2).
Proof.
  cbn zeta. destruct (overlaps_fill_covered (demo_access 66 0x1234 2) (demo_access 64 0 4) (replicate 4 None))
    as (_ & H & _); [split; simpl; lia|split; simpl; lia|split; simpl; auto|split; simpl; auto|reflexivity|].
  exact H.
Defined.

(** The value of a load of at most 8 bytes has exactly the bytes of its
    slots: byte [i] is the byte that the store of slot [i] has at that address,
    whatever the address and size of that store. *)
Theorem read_value_bytes loc rf :
  lenZ rf <= 8 ->
  0 <= get_read_value loc rf < 256 ^ lenZ rf /\
  forall i w, rf !! i = Some (Some w) ->
    u8 (Z.shiftr (get_read_value loc rf) (8 * Z.of_nat i)) =
      u8 (Z.shiftr (Action.value w) (8 * (loc + Z.of_nat i - location w))).
Proof.
  intros H8. rewrite get_read_value_bytes by done.
  pose proof (from_le_bounds _ (slot_bytes_bounds loc rf)) as Hb.
  unfold lenZ in Hb |- *. rewrite length_slot_bytes in Hb. split; [done|].
  intros i w Hi. apply lookup_lt_Some in Hi as Hlt.
  pose proof (lookup_from_le (slot_bytes loc rf) i (slot_byte (loc + Z.of_nat i) (Some w)) (slot_bytes_bounds loc rf)) as Hl.
  by rewrite Hl by (by rewrite lookup_slot_bytes, Hi).
Qed.

Lemma read_value_bytes_witness :
  let w := demo_access 66 0x1234 2 in
  u8 (Z.shiftr (get_read_value 64 [Some (demo_access 64 0x55AA 2); Some (demo_access 64 0x55AA 2); Some w; Some w]) 24) = 0x12.
Proof.
  cbn zeta. destruct (read_value_bytes 64 [Some (demo_access 64 0x55AA 2); Some (demo_access 64 0x55AA 2);
    Some (demo_access 66 0x1234 2); Some (demo_access 66 0x1234 2)]) as [_ H]; [by vm_compute|].
  exact (H 3%nat (demo_access 66 0x1234 2) eq_refl).
Defined.

(** A load of the location and size of an aligned store is complete after
    that store and returns the stored value. *)
Theorem store_load_roundtrip w r :
  in_range w -> aligned w -> location r = location w -> act_size r = act_size w ->
  let '(b, rf, n) := get_overlaps w r (replicate (Z.to_nat (act_size r)) None) (act_size r) in
  b = true /\ n = 0 /\ get_read_value (location r) rf = Action.value w mod 256 ^ act_size w.
Proof.
  intros Hw Aw Hl Hs. pose proof Hw as (W1 & W2 & W3).
  assert (0 < act_size w <= 8) as Hsz by (destruct Aw; lia).
  set (k := Z.to_nat (act_size r)). assert (Z.of_nat k = act_size w) as Hk by lia.
  assert (count_none (replicate k None) = act_size r) as Hc by (rewrite count_none_replicate; lia).
  assert (fill w (location r) (replicate k None) = replicate k (Some w)) as Hf.
  { apply list_eq. intros i. rewrite lookup_fill. destruct (decide (i < k)%nat).
    - rewrite !lookup_replicate_2 by done. simpl. unfold covers.
      by rewrite (proj2 (Z.leb_le _ _)), (proj2 (Z.ltb_lt _ _)) by lia.
    - by rewrite !(lookup_ge_None_2 (replicate _ _)) by (rewrite length_replicate; lia). }
  assert (in_range r) as Hr by (unfold in_range; rewrite Hl, Hs; done).
  assert (overlap_ok w r) as Hov by (left; lia).
  pose proof (get_overlaps_fill w r (replicate k None) Hw Hr Hov) as Hg.
  rewrite Hc, Hf in Hg. rewrite Hg by (unfold lenZ; rewrite length_replicate; lia).
  split; [|split].
  - apply bool_decide_eq_true_2. destruct k; [simpl in *; lia|done].
  - clear. by induction k.
  - rewrite get_read_value_bytes by (unfold lenZ; rewrite length_replicate; lia).
    by rewrite slot_bytes_replicate, Hl, write_bytes_le, from_to_le, Hk.
Qed.

Lemma store_load_roundtrip_witness :
  let '(b, rf, n) := get_overlaps (demo_access 64 0x11223344 4) (demo_access 64 0 4) (replicate 4 None) 4 in
  b = true /\ n = 0 /\ get_read_value 64 rf = 0x11223344.
Proof. apply (store_load_roundtrip (demo_access 64 0x11223344 4) (demo_access 64 0 4)); [split; simpl; lia|split; simpl; auto|reflexivity|reflexivity]. Defined.

(** A store of [4, 12) and a load of [8, 16): the store covers the first four
    bytes of the load, but all eight slots are filled with it. *)
Example misaligned_overfill :
  let w := demo_access 4 (-1) 8 in
  get_overlaps w (demo_access 8 0 8) (replicate 8 None) 8 = (true, replicate 8 (Some w), 0) /\
  covers w 12 = false.
Proof. split; reflexivity. Qed.
