(* ===== verification/CacheLine.v ===== *)
(** * CacheLine: persistence windows of the cache lines

    [src/include/cacheline.h], with the constants of [src/include/config.h] and
    [alignAddress] of [src/include/model.h].  Each process has, per cache line,
    a window of sequence numbers: the stores up to [begin] have reached memory,
    those from [end] on (when [end] is not 0) have not. *)
From S2P Require Import Prelude Choice.

Definition CACHELINE_SIZE : Z := 64.
Definition MAX_CRASHES_PER_EXECUTION : Z := 1.
Definition MAX_EXECUTION : Z := 50000.
Definition EVICT_MAX : Z := 100.
Definition VALUE_NONE : Z := 0xdeadbeef.
Definition CXL_MEM_SIZE : Z := 2 ^ 32.

Record Range := mkRange { range_begin : Z; range_end : Z }.
Definition Range_new : Range := mkRange 0 0.
Definition setBegin (b : Z) (r : Range) : Range := mkRange b (range_end r).
Definition setEnd (e : Z) (r : Range) : Range := mkRange (range_begin r) e.

#[export] Instance Range_eq_dec : EqDecision Range.
Proof. solve_decision. Defined.

(** A process's table of windows; [None] is raw zeroed memory, an object that
    was never constructed (see [CacheLineStore_init]). *)
Abbreviation CacheLineStore := (list (option (gmap Z Range))).

(** [init]: the vector is resized to [p_count] raw elements and then [p_count]
    empty tables are inserted in front of them, one by one at index [i]
    ([Vector.store_init_vector] runs the vector's operations and gives this list
    for at most [VECTOR_DEFCAP = 8] processes).  For more processes the block is
    reallocated and the first insertion copies tables that were never constructed
    ([Vector.store_init_9], a finding): what the source does then is undefined, and
    the definition takes the case that this raw memory is zero. *)
Definition CacheLineStore_init (p_count : Z) : CacheLineStore :=
  replicate (Z.to_nat p_count) (Some ∅) ++ replicate (Z.to_nat p_count) None.

Definition get_table (pid : Z) (s : CacheLineStore) : err (gmap Z Range) :=
  let? _ := eassert (pid <? lenZ s) "pid < _store.size()" in
  match lookupZ s pid with
  | Some (Some t) => inr t
  | Some None => inl (UB "hash table never constructed")
  | None => inl (UB "_store[pid]")
  end.

(** The window, created empty if absent, and the table that now holds it. *)
Definition get_cacheline (pid addr : Z) (s : CacheLineStore) : err (Range * CacheLineStore) :=
  let? t := get_table pid s in
  match t !! addr with
  | None => inr (Range_new, <[Z.to_nat pid := Some (<[addr := Range_new]> t)]> s)
  | Some cl => inr (cl, s)
  end.

Definition set_cacheline (pid addr : Z) (cl : Range) (s : CacheLineStore) : err CacheLineStore :=
  let? t := get_table pid s in
  inr (<[Z.to_nat pid := Some (<[addr := cl]> t)]> s).

Definition CacheLineStore_clear (s : CacheLineStore) : CacheLineStore :=
  (fun p => match p with Some _ => Some ∅ | None => None end) <$> s.

Definition getCacheID (address : Z) : Z := Z.land address (Z.lnot (CACHELINE_SIZE - 1)).
Definition getCacheRange (id : Z) : Z * Z := (id, Z.lor id (CACHELINE_SIZE - 1)).
Definition alignAddress (addr : Z) : Z := Z.land addr (Z.lnot 7).

(** ** Alignment *)

Lemma land_lnot_ones a n : 0 <= n -> Z.land a (Z.lnot (Z.ones n)) = a - a mod 2 ^ n.
Proof.
  intros Hn. rewrite <- Z.ldiff_land, Z.ldiff_ones_r, Z.shiftl_mul_pow2, Z.shiftr_div_pow2 by lia.
  pose proof (Z.div_mod a (2 ^ n)). lia.
Qed.

Lemma getCacheID_eq a : getCacheID a = a - a mod 64.
Proof. apply (land_lnot_ones a 6). lia. Qed.

Lemma alignAddress_eq a : alignAddress a = a - a mod 8.
Proof. apply (land_lnot_ones a 3). lia. Qed.

Lemma getCacheID_align a : getCacheID (alignAddress a) = getCacheID a.
Proof. rewrite !getCacheID_eq, !alignAddress_eq. Z.div_mod_to_equations. lia. Qed.

Lemma alignAddress_idemp a : alignAddress (alignAddress a) = alignAddress a.
Proof. rewrite !alignAddress_eq. Z.div_mod_to_equations. lia. Qed.

Lemma getCacheRange_spec a x : 0 <= a ->
  let '(lo, hi) := getCacheRange (getCacheID a) in
  (lo <= x <= hi <-> getCacheID x = getCacheID a).
Proof.
  intros Ha. unfold getCacheRange. set (id := getCacheID a).
  assert (Z.lor id (CACHELINE_SIZE - 1) = id + 63) as ->.
  { assert (Z.land id 63 = 0) as Hz.
    { unfold id, getCacheID. apply Z.bits_inj'. intros n Hn.
      rewrite Z.bits_0, !Z.land_spec, Z.lnot_spec by done. change (CACHELINE_SIZE - 1) with 63.
      by destruct (Z.testbit a n), (Z.testbit 63 n). }
    rewrite <- Z.lxor_lor, <- Z.add_nocarry_lxor by done. done. }
  unfold id. rewrite !getCacheID_eq. Z.div_mod_to_equations. lia.
Qed.

(** ** Windows *)

(** The window that a process's table holds for a line. *)
Definition window_of (s : CacheLineStore) (pid addr : Z) : Range :=
  match lookupZ s pid with Some (Some t) => default Range_new (t !! addr) | _ => Range_new end.

(** The table of process [pid] exists. *)
Definition has_table (s : CacheLineStore) (pid : Z) : Prop :=
  exists t, lookupZ s pid = Some (Some t).

Lemma get_table_ok s pid : has_table s pid -> exists t, get_table pid s = inr t /\ lookupZ s pid = Some (Some t).
Proof.
  intros [t Ht]. exists t. split; [|done]. unfold get_table.
  apply lookupZ_Some in Ht as Hb. rewrite (proj2 (Z.ltb_lt _ _)) by (unfold lenZ; lia).
  cbn. by rewrite Ht.
Qed.

Lemma lookupZ_insert {A} (l : list A) i j x : 0 <= i -> 0 <= j ->
  lookupZ (<[Z.to_nat i := x]> l) j =
    if decide (i = j /\ i < lenZ l) then Some x else lookupZ l j.
Proof.
  intros Hi Hj. unfold lookupZ, lenZ. rewrite (proj2 (Z.ltb_ge j 0)) by lia.
  destruct (decide _) as [[-> ?]|Hne].
  - apply list_lookup_insert_eq. lia.
  - destruct (decide (i = j)) as [->|].
    + rewrite list_insert_ge by lia. done.
    + apply list_lookup_insert_ne. lia.
Qed.

(** The tables of the store, emptied, are the same after a change of a window. *)
Lemma clear_insert_table s pid t t' : lookupZ s pid = Some (Some t) ->
  CacheLineStore_clear (<[Z.to_nat pid := Some t']> s) = CacheLineStore_clear s.
Proof.
  intros Hl. unfold CacheLineStore_clear. rewrite list_fmap_insert. apply list_insert_id.
  unfold lookupZ in Hl. destruct (pid <? 0); [done|]. by rewrite list_lookup_fmap, Hl.
Qed.
Lemma get_table_lookup s pid t : get_table pid s = inr t -> lookupZ s pid = Some (Some t).
Proof.
  unfold get_table, eassert. destruct (pid <? lenZ s); [simpl|done]. destruct (lookupZ s pid) as [[u|]|]; by intros [= ->].
Qed.
Lemma get_cacheline_clear s pid addr w s' : get_cacheline pid addr s = inr (w, s') ->
  CacheLineStore_clear s' = CacheLineStore_clear s.
Proof.
  unfold get_cacheline. intros (t & Ht%get_table_lookup & Hw)%ebind_inr.
  destruct (t !! addr); injection Hw as <- <-; [done|by eapply clear_insert_table].
Qed.
Lemma set_cacheline_clear s pid addr w s' : set_cacheline pid addr w s = inr s' ->
  CacheLineStore_clear s' = CacheLineStore_clear s.
Proof.
  unfold set_cacheline. intros (t & Ht%get_table_lookup & [= <-])%ebind_inr. by eapply clear_insert_table.
Qed.

Lemma get_cacheline_ok s pid addr : has_table s pid ->
  exists s', get_cacheline pid addr s = inr (window_of s pid addr, s') /\
    (forall p a, window_of s' p a = window_of s p a) /\ (forall p, has_table s p -> has_table s' p).
Proof.
  intros Hs. destruct (get_table_ok s pid Hs) as (t & Hg & Hl). unfold get_cacheline. rewrite Hg. cbn.
  unfold window_of at 1. rewrite Hl. destruct (t !! addr) as [cl|] eqn:E.
  { exists s. simpl. split_and!; done. }
  eexists. split; [done|]. apply lookupZ_Some in Hl as Hb. split.
  - intros p a. unfold window_of. destruct (decide (p < 0)).
    { unfold lookupZ. by rewrite (proj2 (Z.ltb_lt p 0)). }
    rewrite lookupZ_insert by lia. case_decide as Hd; [|done]. destruct Hd as [-> _]. rewrite Hl.
    destruct (decide (addr = a)) as [->|]; [by rewrite lookup_insert_eq, E|by rewrite lookup_insert_ne].
  - intros p [tp Htp]. apply lookupZ_Some in Htp as Hp. unfold has_table. rewrite lookupZ_insert by lia.
    case_decide; eauto.
Qed.

Lemma set_cacheline_ok s pid addr cl : has_table s pid ->
  exists s', set_cacheline pid addr cl s = inr s' /\
    (forall p a, window_of s' p a = if decide (p = pid /\ a = addr) then cl else window_of s p a) /\
    (forall p, has_table s p -> has_table s' p).
Proof.
  intros Hs. destruct (get_table_ok s pid Hs) as (t & Hg & Hl). unfold set_cacheline. rewrite Hg. cbn.
  eexists. split; [done|]. apply lookupZ_Some in Hl as Hb. split.
  - intros p a. unfold window_of. destruct (decide (p < 0)).
    { rewrite decide_False by lia. unfold lookupZ. by rewrite (proj2 (Z.ltb_lt p 0)). }
    rewrite lookupZ_insert by lia. destruct (decide (pid = p)) as [->|].
    + rewrite decide_True by (unfold lenZ; lia). rewrite Hl.
      destruct (decide (addr = a)) as [->|].
      * by rewrite lookup_insert_eq, decide_True.
      * rewrite lookup_insert_ne, decide_False by naive_solver. done.
    + rewrite !decide_False by naive_solver. done.
  - intros p [tp Htp]. apply lookupZ_Some in Htp as Hp. unfold has_table. rewrite lookupZ_insert by lia.
    case_decide; eauto.
Qed.
