(* ===== verification/Alloc.v ===== *)
(** * Alloc: what the containers ask of the memory spaces

    [operator new] of [TEMPLATEALLOC] ([src/include/allocators.h]) returns a
    block of the container's [mspace] or fails the assertion "bad alloc".  The
    containers' theorems are proved for every allocator that hands out unused
    addresses: [Allocator] is what they rely on. *)
From S2P Require Import Prelude.

(** The computation gives a value that satisfies [P]; only an allocation may fail. *)
Definition may {B} (r : err B) (P : B -> Prop) : Prop :=
  match r with inr b => P b | inl e => e = AssertFail "bad alloc" end.

Lemma may_bind {B C} (r : err B) (P : B -> Prop) (f : B -> err C) Q :
  may r P -> (forall b, P b -> may (f b) Q) -> may (ebind r f) Q.
Proof. destruct r as [e|b]; simpl; [done|]. intros Hb Hf. by apply Hf. Qed.

Lemma may_mono {B} (r : err B) (P Q : B -> Prop) : may r P -> (forall b, P b -> Q b) -> may r Q.
Proof. destruct r as [e|b]; simpl; [done|]. intros Hb HQ. by apply HQ. Qed.

(** [fresh h]: the address of a new object beside the objects of [h]. *)
Class Allocator := {
  fresh : forall A, gmap Z A -> option Z;
  fresh_ok : forall A (h : gmap Z A) p, fresh A h = Some p -> p <> 0 /\ h !! p = None
}.

(** [new T(x)] *)
Definition new_object `{Allocator} {A} (x : A) (h : gmap Z A) : err (Z * gmap Z A) :=
  match fresh A h with
  | Some p => inr (p, <[p := x]> h)
  | None => inl (AssertFail "bad alloc")
  end.

Lemma new_object_may `{Allocator} {A} (x : A) h :
  may (new_object x h) (fun '(p, h') => p <> 0 /\ h !! p = None /\ h' = <[p := x]> h).
Proof.
  unfold new_object. destruct (fresh A h) as [p|] eqn:E; simpl; [|done].
  apply fresh_ok in E as [? ?]. done.
Qed.

(** [delete p] *)
Definition delete_object {A} (p : Z) (h : gmap Z A) : err (gmap Z A) :=
  match h !! p with Some _ => inr (delete p h) | None => inl (UB "delete") end.

(** An allocator to run examples with: the first address after all used ones. *)
Program Definition bump_allocator : Allocator :=
  {| fresh := fun A h => Some (1 + Z.abs (map_fold (fun k _ m => Z.max k m) 0 h)) |}.
Next Obligation.
  intros A h p [= <-]. split; [lia|]. destruct (h !! _) as [x|] eqn:E; [|done].
  assert (forall k y, h !! k = Some y -> k <= map_fold (fun k _ m => Z.max k m) 0 h) as Hmax.
  { apply (map_fold_weak_ind (fun r m => forall k y, m !! k = Some y -> k <= r)).
    - intros k y Hk. by rewrite lookup_empty in Hk.
    - intros i y m r Hi IH k z Hk. apply lookup_insert_Some in Hk as [[-> _]|[_ Hk]]; [lia|].
      specialize (IH _ _ Hk). lia. }
  specialize (Hmax _ _ E). lia.
Qed.
