(* ===== verification/Vector.v ===== *)
(** * Vector: the growable array of the shared space

    [Vector<type, msp>] of [src/include/vector.h].  [array] is the block that the
    memory space gave out: a cell holds an object, or [None] when it is raw
    (what [mspace_realloc] adds, and where a destructor ran).  [zero] is the
    object that the all-zero bytes of [mspace_calloc] are, and [room n] tells
    whether the space has a block of [n] cells.  [uint] arithmetic is on 32 bits;
    an access outside the block is a [UB] stop.  [repr] relates a vector to the
    list of its elements, where [None] is an element that was never set. *)
From S2P Require Import Prelude Choice CacheLine Alloc.

Record Vector (A : Type) := mkVector { _size : Z; capacity : Z; array : list (option A) }.
Arguments mkVector {A} _size capacity array.
Arguments _size {A} v : rename.
Arguments capacity {A} v : rename.
Arguments array {A} v : rename.

Definition VECTOR_DEFCAP : Z := 8.

Definition with_size {A} (n : Z) (v : Vector A) : Vector A := mkVector n (capacity v) (array v).
Definition with_array {A} (cap : Z) (a : list (option A)) (v : Vector A) : Vector A := mkVector (_size v) cap a.

(** [at(index)], [operator[]]: the object in a cell. *)
Definition at_ {A} (index : Z) (v : Vector A) : err A :=
  match lookupZ (array v) index with Some (Some x) => inr x | _ => inl (UB "array[index]") end.
(** A constructor or a destructor runs on a cell. *)
Definition put_cell {A} (index : Z) (c : option A) (v : Vector A) : err (Vector A) :=
  if (0 <=? index) && (index <? lenZ (array v))
  then inr (with_array (capacity v) (<[Z.to_nat index := c]> (array v)) v)
  else inl (UB "array[index]").
Definition set_ {A} (index : Z) (item : A) (v : Vector A) : err (Vector A) := put_cell index (Some item) v.

(** [n] destructor calls from cell [i] on. *)
Fixpoint destroy {A} (n : nat) (i : Z) (v : Vector A) : err (Vector A) :=
  match n with
  | O => inr v
  | S n => let? v := put_cell i None v in destroy n (i + 1) v
  end.

(** The copies of [l] are constructed in the cells from [i] on. *)
Fixpoint construct {A} (i : Z) (l : list A) (v : Vector A) : err (Vector A) :=
  match l with
  | [] => inr v
  | x :: l => let? v := put_cell i (Some x) v in construct (i + 1) l v
  end.

(** The objects of the [n] cells from [i] on. *)
Fixpoint objects {A} (n : nat) (i : Z) (v : Vector A) : err (list A) :=
  match n with
  | O => inr []
  | S n => let? x := at_ i v in let? l := objects n (i + 1) v in inr (x :: l)
  end.

(** [for (i = _size - 1; i > index; i--) set(i, at(i - 1))], [n] iterations. *)
Fixpoint shift_up {A} (n : nat) (i : Z) (v : Vector A) : err (Vector A) :=
  match n with
  | O => inr v
  | S n => let? x := at_ (i - 1) v in let? v := set_ i x v in shift_up n (i - 1) v
  end.

(** [for (i = index; (i + 1) < _size; i++) set(i, at(i + 1))] *)
Fixpoint shift_down {A} (fuel : nat) (i : Z) (v : Vector A) : err (Vector A) :=
  if u32 (i + 1) <? _size v then
    match fuel with
    | O => inl (NoReturn "removeAt")
    | S fuel => let? x := at_ (u32 (i + 1)) v in let? v := set_ i x v in shift_down fuel (u32 (i + 1)) v
    end
  else inr v.

Definition pop_back {A} (v : Vector A) : err (Vector A) :=
  let? v' := put_cell (u32 (_size v - 1)) None v in inr (with_size (u32 (_size v - 1)) v').
Definition back {A} (v : Vector A) : err A := at_ (u32 (_size v - 1)) v.
Definition empty_ {A} (v : Vector A) : bool := _size v =? 0.
Definition clear {A} (v : Vector A) : err (Vector A) :=
  let? v := destroy (Z.to_nat (_size v)) 0 v in inr (with_size 0 v).
Definition swap {A} (v other : Vector A) : Vector A * Vector A :=
  (mkVector (_size other) (capacity other) (array other), mkVector (_size v) (capacity v) (array v)).

Section Alloc.
Context {A : Type} (zero : A) (room : Z -> bool).

Definition calloc (n : Z) : err (list (option A)) :=
  if room n then inr (replicate (Z.to_nat n) (Some zero)) else inl (AssertFail "bad alloc").
Definition realloc (l : list (option A)) (n : Z) : err (list (option A)) :=
  if room n then inr (take (Z.to_nat n) l ++ replicate (Z.to_nat n - length l) None)
  else inl (AssertFail "bad alloc").

Definition Vector_new : err (Vector A) :=
  let? a := calloc VECTOR_DEFCAP in inr (mkVector 0 VECTOR_DEFCAP a).
Definition Vector_sized (size : Z) : err (Vector A) :=
  let? a := calloc size in inr (mkVector size size a).
Definition Vector_from (l : list A) : err (Vector A) :=
  let? v := Vector_sized (lenZ l) in construct 0 l v.
Definition Vector_copy (vec : Vector A) : err (Vector A) :=
  let? a := calloc (capacity vec) in
  let? l := objects (Z.to_nat (_size vec)) 0 vec in
  construct 0 l (mkVector (_size vec) (capacity vec) a).
(** [v = vec] for different vectors. *)
Definition assign (v vec : Vector A) : err (Vector A) :=
  let? _ := destroy (Z.to_nat (_size v)) 0 v in Vector_copy vec.

Definition resize (psize : Z) (v : Vector A) : err (Vector A) :=
  if psize <=? _size v then
    let? v := destroy (Z.to_nat (_size v - psize)) psize v in inr (with_size psize v)
  else
    let? v :=
      (if capacity v <? psize then
         let? a := realloc (array v) (u32 (Z.shiftl psize 1)) in
         inr (with_array (u32 (Z.shiftl psize 1)) a v)
       else inr v) in
    inr (with_size psize v).

Definition push_back (item : A) (v : Vector A) : err (Vector A) :=
  let? v :=
    (if capacity v <=? _size v then
       let newcap := u32 (Z.shiftl (capacity v) 1) in
       let? a := realloc (array v) newcap in inr (with_array newcap a v)
     else inr v) in
  let? v' := put_cell (_size v) (Some item) v in inr (with_size (u32 (_size v + 1)) v').

Definition setExpand (index : Z) (item : A) (v : Vector A) : err (Vector A) :=
  let? v := (if _size v <=? index then resize (u32 (index + 1)) v else inr v) in set_ index item v.

Definition insertAt (index : Z) (item : A) (v : Vector A) : err (Vector A) :=
  let? v := resize (u32 (_size v + 1)) v in
  let i := u32 (_size v - 1) in
  let? v := shift_up (Z.to_nat (i - index)) i v in
  set_ index item v.

Definition removeAt (index : Z) (v : Vector A) : err (Vector A) :=
  let? v := shift_down (Z.to_nat (_size v)) index v in resize (u32 (_size v - 1)) v.

(** ** The list of elements *)

Record repr (v : Vector A) (l : list (option A)) : Prop := mkRepr {
  r_size : _size v = lenZ l;
  r_cap : capacity v = lenZ (array v);
  r_le : lenZ l <= capacity v;
  r_bound : 1 <= capacity v < 2 ^ 31;
  r_cells : forall i x, l !! i = Some (Some x) -> array v !! i = Some (Some x)
}.

Inductive vop := PushBack (x : A) | PopBack | Set_ (i : Z) (x : A) | SetExpand (i : Z) (x : A)
  | InsertAt (i : Z) (x : A) | RemoveAt (i : Z) | Resize (n : Z) | Clear.
Definition vexec (o : vop) : Vector A -> err (Vector A) :=
  match o with
  | PushBack x => push_back x | PopBack => pop_back | Set_ i x => set_ i x | SetExpand i x => setExpand i x
  | InsertAt i x => insertAt i x | RemoveAt i => removeAt i | Resize n => resize n | Clear => clear
  end.

(** The elements up to [n], raw beyond the old end. *)
Definition cut (n : nat) (l : list (option A)) : list (option A) := take n l ++ replicate (n - length l) None.
Definition vspec (o : vop) (l : list (option A)) : list (option A) :=
  match o with
  | PushBack x => l ++ [Some x]
  | PopBack => take (length l - 1) l
  | Set_ i x => <[Z.to_nat i := Some x]> l
  | SetExpand i x => <[Z.to_nat i := Some x]> (cut (Nat.max (length l) (S (Z.to_nat i))) l)
  | InsertAt i x => take (Z.to_nat i) l ++ Some x :: drop (Z.to_nat i) l
  | RemoveAt i => take (Z.to_nat i) l ++ drop (S (Z.to_nat i)) l
  | Resize n => cut (Z.to_nat n) l
  | Clear => []
  end.
(** What the caller respects: positions inside the vector, no move of an element
    that was never set, sizes that the doubling of a [uint] holds. *)
Definition vpre (o : vop) (l : list (option A)) : Prop :=
  match o with
  | PushBack _ | Clear => True
  | PopBack => l <> []
  | Set_ i _ => 0 <= i < lenZ l
  | SetExpand i _ => 0 <= i < 2 ^ 31 - 1
  | InsertAt i _ => 0 <= i <= lenZ l /\ lenZ l < 2 ^ 31 - 1 /\ Forall is_Some (drop (Z.to_nat i) l)
  | RemoveAt i => 0 <= i < lenZ l /\ Forall is_Some (drop (S (Z.to_nat i)) l)
  | Resize n => 0 <= n < 2 ^ 31
  end.

(** ** Loops over the cells *)

Definition same_cells (v : Vector A) (a : list (option A)) (out : nat -> Prop) : Prop :=
  length a = length (array v) /\ forall j, out j -> a !! j = array v !! j.

Lemma put_cell_in (k : nat) c (v : Vector A) : (k < length (array v))%nat ->
  put_cell (Z.of_nat k) c v = inr (with_array (capacity v) (<[k := c]> (array v)) v).
Proof.
  intros Hk. unfold put_cell, lenZ. rewrite (proj2 (Z.leb_le _ _)), (proj2 (Z.ltb_lt _ _)) by lia.
  simpl. by rewrite Nat2Z.id.
Qed.

Lemma at_in (k : nat) x (v : Vector A) : array v !! k = Some (Some x) -> at_ (Z.of_nat k) v = inr x.
Proof. intros Hk. unfold at_, lookupZ. rewrite (proj2 (Z.ltb_ge _ _)) by lia. by rewrite Nat2Z.id, Hk. Qed.

Lemma destroy_in n : forall (k : nat) (v : Vector A), (k + n <= length (array v))%nat ->
  exists a, destroy n (Z.of_nat k) v = inr (with_array (capacity v) a v) /\ same_cells v a (fun j => j < k)%nat.
Proof.
  induction n as [|n IH]; intros k v Hk; simpl.
  - exists (array v). split; [by destruct v|]. by split.
  - rewrite put_cell_in by lia. simpl. replace (Z.of_nat k + 1) with (Z.of_nat (S k)) by lia.
    destruct (IH (S k) (with_array (capacity v) (<[k:=None]> (array v)) v)) as (a & -> & Hl & Ha).
    { simpl. rewrite length_insert. lia. }
    exists a. split; [done|]. simpl in *. rewrite length_insert in Hl. split; [done|].
    intros j Hj. rewrite Ha by lia. by rewrite list_lookup_insert_ne by lia.
Qed.

Lemma shift_up_in n : forall (k : nat) (v : Vector A), (n <= k < length (array v))%nat ->
  (forall j, k - n <= j < k -> exists x, array v !! j = Some (Some x))%nat ->
  exists a, shift_up n (Z.of_nat k) v = inr (with_array (capacity v) a v) /\
    same_cells v a (fun j => j <= k - n \/ k < j)%nat /\ forall j, (k - n <= j < k)%nat -> a !! S j = array v !! j.
Proof.
  induction n as [|n IH]; intros k v Hk Hx; simpl.
  - exists (array v). split; [by destruct v|]. split; [by split|]. intros j Hj. lia.
  - destruct (Hx (k - 1)%nat ltac:(lia)) as [x Hx1].
    replace (Z.of_nat k - 1) with (Z.of_nat (k - 1)) by lia. rewrite (at_in _ _ _ Hx1). simpl.
    unfold set_. rewrite put_cell_in by lia. simpl.
    destruct (IH (k - 1)%nat (with_array (capacity v) (<[k:=Some x]> (array v)) v)) as (a & -> & [Hl Ha] & Hs).
    { simpl. rewrite length_insert. lia. }
    { intros j Hj. simpl. rewrite list_lookup_insert_ne by lia. apply Hx. lia. }
    exists a. simpl in *. rewrite length_insert in Hl. split; [done|]. split; [split; [done|]|].
    + intros j Hj. rewrite Ha by lia. by rewrite list_lookup_insert_ne by lia.
    + intros j Hj. destruct (decide (j = k - 1)%nat) as [->|Hne].
      * rewrite Hx1. replace (S (k - 1)) with k by lia. rewrite Ha by lia. apply list_lookup_insert_eq. lia.
      * rewrite Hs by lia. by rewrite list_lookup_insert_ne by lia.
Qed.

Lemma shift_down_in fuel : forall (k : nat) (v : Vector A), 0 <= _size v < 2 ^ 31 -> Z.of_nat k < _size v ->
  _size v <= Z.of_nat (length (array v)) -> _size v - 1 - Z.of_nat k <= Z.of_nat fuel ->
  (forall j, (k < j)%nat -> Z.of_nat j < _size v -> exists x, array v !! j = Some (Some x)) ->
  exists a, shift_down fuel (Z.of_nat k) v = inr (with_array (capacity v) a v) /\
    same_cells v a (fun j => j < k)%nat /\
    forall j, (k <= j)%nat -> Z.of_nat (S j) < _size v -> a !! j = array v !! S j.
Proof.
  induction fuel as [|fuel IH]; intros k v Hs Hk Hl Hf Hx; simpl; rewrite (wrap_small 32) by lia; case_if.
  - lia.
  - exists (array v). split; [by destruct v|]. split; [by split|]. intros j Hj Hj'. lia.
  - destruct (Hx (S k) ltac:(lia) ltac:(lia)) as [x Hx1].
    replace (Z.of_nat k + 1) with (Z.of_nat (S k)) by lia. rewrite (at_in _ _ _ Hx1). simpl.
    unfold set_. rewrite put_cell_in by lia. simpl.
    destruct (IH (S k) (with_array (capacity v) (<[k:=Some x]> (array v)) v)) as (a & -> & [Hl' Ha] & Hd);
      simpl; rewrite ?length_insert; try lia.
    { intros j Hj Hj'. rewrite list_lookup_insert_ne by lia. apply Hx; lia. }
    exists a. simpl in *. rewrite length_insert in Hl'. split; [done|]. split; [split; [done|]|].
    + intros j Hj. rewrite Ha by lia. by rewrite list_lookup_insert_ne by lia.
    + intros j Hj Hj'. destruct (decide (j = k)) as [->|Hne].
      * rewrite Ha by lia. rewrite list_lookup_insert_eq by lia. by rewrite Hx1.
      * rewrite Hd by lia. by rewrite list_lookup_insert_ne by lia.
  - exists (array v). split; [by destruct v|]. split; [by split|]. intros j Hj Hj'. lia.
Qed.
End Alloc.

(** ** Each operation does to the list what it says *)

Section Refine.
Context {A : Type} (zero : A) (room : Z -> bool).
Hypothesis room_bound : forall n, room n = true -> n < 2 ^ 31.

Definition refines (r : err (Vector A)) (l : list (option A)) : Prop := may r (fun v => repr v l).

Lemma length_cut n (l : list (option A)) : length (cut n l) = n.
Proof. unfold cut. rewrite length_app, length_take, length_replicate. lia. Qed.

Lemma lookup_cut n (l : list (option A)) i x : cut n l !! i = Some (Some x) -> (i < n)%nat /\ l !! i = Some (Some x).
Proof.
  unfold cut. intros [Hi|[Hl Hi]]%lookup_app_Some.
  - by apply lookup_take_Some in Hi as [? ?].
  - by apply lookup_replicate in Hi as [? _].
Qed.

Lemma lookup_cut_old n (l : list (option A)) i y : (i < n)%nat -> l !! i = Some (Some y) -> cut n l !! i = Some (Some y).
Proof.
  intros Hi Hl. apply lookup_lt_Some in Hl as Hlt. unfold cut. rewrite lookup_app_l by (rewrite length_take; lia).
  by rewrite lookup_take_lt.
Qed.

Lemma repr_length (v : Vector A) l : repr v l -> (length l <= length (array v))%nat /\ _size v = lenZ l /\ lenZ l < 2 ^ 31.
Proof. intros [H1 H2 H3 H4 H5]. unfold lenZ in *. lia. Qed.

(** A new block with the old objects. *)
Lemma realloc_refines (v : Vector A) l n : repr v l -> capacity v < n ->
  may (let? a := realloc room (array v) n in inr (with_array n a v)) (fun v' => repr v' l /\ capacity v' = n).
Proof.
  intros [H1 H2 H3 H4 H5] Hn. unfold realloc. destruct (room n) eqn:E; [|done]. specialize (room_bound _ E).
  simpl. split; [|done]. unfold lenZ in *. constructor; simpl; unfold lenZ; try lia.
  - rewrite length_app, length_take, length_replicate. lia.
  - intros i x Hi. apply H5 in Hi. apply lookup_lt_Some in Hi as Hlt. rewrite lookup_app_l.
    + by rewrite lookup_take_lt by lia.
    + rewrite length_take. lia.
Qed.

Lemma with_size_repr (v : Vector A) l n : repr v l -> 0 <= n <= capacity v -> repr (with_size n v) (cut (Z.to_nat n) l).
Proof.
  intros [H1 H2 H3 H4 H5] Hn. constructor; simpl; unfold lenZ in *; rewrite ?length_cut; try lia.
  intros i x [_ Hi]%lookup_cut. by apply H5.
Qed.

(** The cells of the elements after a step that keeps the size. *)
Lemma with_array_repr (v : Vector A) a l l' : repr v l -> length a = length (array v) -> length l' = length l ->
  (forall i x, l' !! i = Some (Some x) -> a !! i = Some (Some x)) -> repr (with_array (capacity v) a v) l'.
Proof. intros [H1 H2 H3 H4 H5] Ha Hl Hc. constructor; simpl; unfold lenZ in *; rewrite ?Ha, ?Hl; try lia; done. Qed.

Lemma shrink_repr (v : Vector A) l n : repr v l -> 0 <= n <= _size v ->
  refines (let? v' := destroy (Z.to_nat (_size v - n)) n v in inr (with_size n v')) (cut (Z.to_nat n) l).
Proof.
  intros Hr Hn. destruct (repr_length _ _ Hr) as (Hl & Hs & _). unfold lenZ in Hs.
  destruct (destroy_in (Z.to_nat (_size v - n)) (Z.to_nat n) v ltac:(lia)) as (a & Hd & Ha & Hc).
  rewrite Z2Nat.id in Hd by lia. rewrite Hd. simpl. destruct Hr as [H1 H2 H3 H4 H5].
  constructor; simpl; unfold lenZ in *; rewrite ?length_cut, ?Ha; try lia.
  intros i x [Hi Hx]%lookup_cut. rewrite Hc by done. by apply H5.
Qed.

Lemma resize_refines (v : Vector A) l n : repr v l -> 0 <= n < 2 ^ 31 -> refines (resize room n v) (cut (Z.to_nat n) l).
Proof.
  intros Hr Hn. unfold resize. case_if; [apply shrink_repr; [done|lia]|].
  case_if; simpl; [|apply with_size_repr; [done|lia]].
  rewrite Z.shiftl_mul_pow2 by lia. change (2 ^ 1) with 2. rewrite wrap_small by lia.
  eapply may_bind; [apply realloc_refines; [exact Hr|lia]|]. intros v' [Hv' Hc]. apply with_size_repr; [done|lia].
Qed.

Lemma set_refines (v : Vector A) l i x : repr v l -> 0 <= i < lenZ l -> refines (set_ i x v) (<[Z.to_nat i := Some x]> l).
Proof.
  intros Hr Hi. destruct (repr_length _ _ Hr) as (Hl & _). unfold set_, lenZ in *.
  replace i with (Z.of_nat (Z.to_nat i)) at 1 by lia. rewrite put_cell_in by lia. simpl.
  apply (with_array_repr v _ l); [done|by rewrite !length_insert..|].
  intros j y Hj. destruct (decide (j = Z.to_nat i)) as [->|Hne].
  - rewrite list_lookup_insert_eq in Hj |- * by lia. done.
  - rewrite list_lookup_insert_ne in Hj |- * by done. by apply (r_cells _ _ Hr).
Qed.

Lemma insert_last (x : A) (l : list (option A)) : <[length l := Some x]> (cut (S (length l)) l) = l ++ [Some x].
Proof.
  unfold cut. rewrite take_ge by lia. replace (S (length l) - length l)%nat with 1%nat by lia.
  rewrite insert_app_r_alt by lia. by rewrite Nat.sub_diag.
Qed.

Lemma push_back_refines (v : Vector A) l x : repr v l -> refines (push_back room x v) (l ++ [Some x]).
Proof.
  intros Hr. destruct (repr_length _ _ Hr) as (_ & Hs & Hb). unfold push_back.
  apply (may_bind _ (fun v' => repr v' l /\ lenZ l < capacity v')).
  - case_if; [|split; [done|lia]]. pose proof (r_bound _ _ Hr). pose proof (r_le _ _ Hr).
    rewrite Z.shiftl_mul_pow2 by lia. change (2 ^ 1) with 2. rewrite wrap_small by lia.
    eapply may_mono; [apply realloc_refines; [exact Hr|lia]|]. intros v' [Hv' Hc]. simpl. split; [done|lia].
  - intros v' [Hv' Hc]. destruct (repr_length _ _ Hv') as (Hl & Hs' & _). rewrite Hs'.
    pose proof (r_bound _ _ Hv'). pose proof (lenZ_nonneg l). rewrite wrap_small by lia.
    assert (repr (with_size (lenZ l + 1) v') (cut (S (length l)) l)) as Hw.
    { replace (S (length l)) with (Z.to_nat (lenZ l + 1)) by (unfold lenZ; lia). apply with_size_repr; [done|lia]. }
    pose proof (set_refines _ _ (lenZ l) x Hw) as Hset. unfold lenZ in *. rewrite length_cut, Nat2Z.id, insert_last in Hset.
    specialize (Hset ltac:(lia)). pose proof (r_cap _ _ Hv') as Hcap. unfold set_, lenZ in *.
    rewrite put_cell_in in Hset |- * by (simpl; lia). exact Hset.
Qed.

Lemma constructed_from (n : nat) (l : list (option A)) : Forall is_Some (drop n l) ->
  forall j, (n <= j < length l)%nat -> exists x, l !! j = Some (Some x).
Proof.
  intros Hd j Hj. destruct (lookup_lt_is_Some_2 l j ltac:(lia)) as [o Ho].
  rewrite Forall_lookup in Hd. specialize (Hd (j - n)%nat o). rewrite lookup_drop in Hd.
  replace (n + (j - n))%nat with j in Hd by lia. destruct (Hd Ho) as [x ->]. by exists x.
Qed.

Lemma insertAt_refines (v : Vector A) l i x : repr v l -> vpre (InsertAt i x) l ->
  refines (insertAt room i x v) (vspec (InsertAt i x) l).
Proof.
  intros Hr (Hi & Hb & Hd). destruct (repr_length _ _ Hr) as (_ & Hs & _). unfold insertAt. rewrite Hs.
  pose proof (lenZ_nonneg l). rewrite wrap_small by lia.
  eapply may_bind; [apply resize_refines; [done|lia]|]. intros v' Hv'. cbn beta in Hv'.
  destruct (repr_length _ _ Hv') as (Hl & Hs' & _). unfold lenZ in *. rewrite length_cut in Hl, Hs'.
  rewrite Hs'. replace (Z.of_nat (Z.to_nat (Z.of_nat (length l) + 1)) - 1) with (Z.of_nat (length l)) by lia.
  rewrite wrap_small by lia.
  replace (Z.to_nat (Z.of_nat (length l) + 1)) with (S (length l)) in * by lia.
  set (n := length l) in *. set (k := Z.to_nat i) in *.
  assert (length l = n) as Hn by done. assert (Z.of_nat k = i) as Hk by (unfold k; lia).
  assert (forall j y, l !! j = Some (Some y) -> array v' !! j = Some (Some y)) as Hold.
  { intros j y Hj. apply (r_cells _ _ Hv'), lookup_cut_old; [|done]. apply lookup_lt_Some in Hj. lia. }
  destruct (shift_up_in (Z.to_nat (Z.of_nat n - i)) n v') as (a & Hsh & [Ha Hout] & Hin); [lia| |].
  { intros j Hj. destruct (constructed_from _ _ Hd j ltac:(lia)) as [y Hy]. eauto. }
  rewrite Hsh. simpl. unfold set_. replace i with (Z.of_nat k) at 1 by lia. rewrite put_cell_in by (simpl; lia). simpl.
  change (with_array (capacity v') (<[k:=Some x]> a) (with_array (capacity v') a v'))
    with (with_array (capacity v') (<[k:=Some x]> a) v').
  eapply (with_array_repr v' _ (cut (S n) l)); [done|by rewrite length_insert| |].
  { rewrite length_cut, length_app, length_take. simpl. rewrite length_drop. lia. }
  intros j y Hj. simpl in Hj. fold k in Hj. destruct (decide (j = k)) as [->|Hne].
  - rewrite list_lookup_insert_eq by lia. rewrite lookup_app_r, length_take in Hj by (rewrite length_take; lia).
    replace (k - k `min` length l)%nat with O in Hj by lia. done.
  - rewrite list_lookup_insert_ne by done. apply lookup_app_Some in Hj as [Hj|[Hge Hj]].
    + apply lookup_take_Some in Hj as [Hj ?]. rewrite Hout by lia. by apply Hold.
    + rewrite length_take in Hge, Hj. destruct j as [|j]; [lia|].
      replace (S j - k `min` length l)%nat with (S (j - k))%nat in Hj by lia. simpl in Hj.
      rewrite lookup_drop in Hj. replace (k + (j - k))%nat with j in Hj by lia.
      rewrite Hin by (apply lookup_lt_Some in Hj; lia). by apply Hold.
Qed.

Lemma removeAt_refines (v : Vector A) l i : repr v l -> vpre (RemoveAt i) l ->
  refines (removeAt room i v) (vspec (RemoveAt i) l).
Proof.
  intros Hr (Hi & Hd). destruct (repr_length _ _ Hr) as (Hl & Hs & Hb). unfold removeAt, lenZ in *.
  set (n := length l) in *. set (k := Z.to_nat i) in *. rewrite Hs.
  assert (length l = n) as Hn by done. assert (Z.of_nat k = i) as Hk by (unfold k; lia).
  destruct (shift_down_in (Z.to_nat (Z.of_nat n)) k v) as (a & Hsh & [Ha Hout] & Hin); try lia.
  { intros j Hj Hj'. destruct (constructed_from _ _ Hd j ltac:(lia)) as [y Hy]. exists y. by apply (r_cells _ _ Hr). }
  replace i with (Z.of_nat k) by lia. rewrite Hsh. simpl. rewrite Hk, Hs, wrap_small by lia.
  set (l' := take k l ++ drop (S k) l).
  assert (length l' = (n - 1)%nat) as Hl' by (unfold l'; rewrite length_app, length_take, length_drop; lia).
  change (take (Z.to_nat i) l ++ drop (S (Z.to_nat i)) l) with l'.
  assert (l' = cut (Z.to_nat (Z.of_nat n - 1)) (l' ++ [None])) as ->.
  { unfold cut. replace (Z.to_nat (Z.of_nat n - 1)) with (length l') by lia.
    rewrite take_app_length, length_app. replace (length l' - _)%nat with O by lia. by rewrite app_nil_r. }
  apply resize_refines; [|lia]. apply (with_array_repr v _ l); [done..| |].
  { rewrite length_app, Hl'. simpl. lia. }
  intros j y [Hj|[_ Hj]]%lookup_app_Some.
  - apply lookup_app_Some in Hj as [Hj|[Hge Hj]].
    + apply lookup_take_Some in Hj as [Hj ?]. rewrite Hout by lia. by apply (r_cells _ _ Hr).
    + rewrite length_take in Hge, Hj. rewrite lookup_drop in Hj.
      replace (S k + (j - k `min` length l))%nat with (S j) in Hj by lia.
      rewrite Hin; [by apply (r_cells _ _ Hr)|lia|]. apply lookup_lt_Some in Hj. lia.
  - by destruct (j - length l')%nat as [|m].
Qed.

Lemma vexec_refines o (v : Vector A) l : repr v l -> vpre o l -> refines (vexec room o v) (vspec o l).
Proof.
  intros Hr Hp. destruct (repr_length _ _ Hr) as (Hl & Hs & Hb). pose proof (r_bound _ _ Hr) as Hc.
  destruct o as [x| |i x|i x|i x|i|n|]; cbn [vexec].
  - by apply push_back_refines.
  - simpl in Hp. assert (1 <= lenZ l) by (destruct l; [done|unfold lenZ; simpl; lia]).
    unfold pop_back. rewrite Hs, wrap_small by lia.
    pose proof (shrink_repr v l (lenZ l - 1) Hr ltac:(lia)) as Hk. rewrite Hs in Hk.
    replace (Z.to_nat (lenZ l - (lenZ l - 1))) with 1%nat in Hk by lia. simpl in Hk.
    replace (cut (Z.to_nat (lenZ l - 1)) l) with (vspec PopBack l) in Hk.
    + destruct (put_cell _ _ _); exact Hk.
    + unfold cut, lenZ in *. simpl. replace (_ - length l)%nat with O by lia. rewrite app_nil_r. f_equal. lia.
  - by apply set_refines.
  - simpl in Hp. unfold setExpand.
    apply (may_bind _ (fun v' => repr v' (cut (Nat.max (length l) (S (Z.to_nat i))) l))).
    + case_if.
      * rewrite wrap_small by lia. unfold lenZ in *. replace (Nat.max _ _) with (Z.to_nat (i + 1)) by lia.
        apply resize_refines; [done|lia].
      * unfold lenZ in *. replace (Nat.max _ _) with (length l) by lia.
        unfold cut. rewrite firstn_all, Nat.sub_diag. simpl. by rewrite app_nil_r.
    + intros v' Hv'. apply set_refines; [done|]. unfold lenZ. rewrite length_cut. lia.
  - by apply insertAt_refines.
  - by apply removeAt_refines.
  - by apply resize_refines.
  - unfold clear. pose proof (shrink_repr v l 0 Hr ltac:(rewrite Hs; pose proof (lenZ_nonneg l); lia)) as Hk.
    rewrite Z.sub_0_r in Hk. exact Hk.
Qed.

(** A sequence of operations, and what each needs of the list it starts from. *)
Fixpoint vrun (os : list (@vop A)) (v : Vector A) : err (Vector A) :=
  match os with [] => inr v | o :: os => let? v := vexec room o v in vrun os v end.
Fixpoint vpres (os : list (@vop A)) (l : list (option A)) : Prop :=
  match os with [] => True | o :: os => vpre o l /\ vpres os (vspec o l) end.

Lemma vrun_refines os : forall l v, vpres os l -> repr v l ->
  may (vrun os v) (fun v => repr v (foldl (fun l o => vspec o l) l os)).
Proof.
  induction os as [|o os IH]; intros l v Hp Hv; simpl; [done|]. destruct Hp as [Ho Hos].
  eapply may_bind; [by apply vexec_refines|]. intros v' Hv'. by apply IH.
Qed.

Lemma new_repr : may (Vector_new zero room) (fun v => repr v []).
Proof.
  unfold Vector_new, calloc. destruct (room VECTOR_DEFCAP); simpl; [|done].
  constructor; simpl; unfold lenZ, VECTOR_DEFCAP; simpl; try lia. by intros [|i] x.
Qed.
End Refine.

(** C36: A vector is a list: a sequence of operations on a new vector that meets
    [vpres] (positions inside the vector, insertions and removals that move only
    elements that were set, sizes below 2^31) gives, unless the space runs out, a
    vector whose elements are those of the list operations, whatever moves of the
    block happened in between.  [CacheLineStore::init] for more than 8 processes
    breaks the condition on moved elements ([store_init_9]). *)
Theorem vector_refines {A} (zero : A) (room : Z -> bool) os :
  (forall n, room n = true -> n < 2 ^ 31) -> vpres os [] ->
  may (let? v := Vector_new zero room in vrun room os v) (fun v => repr v (foldl (fun l o => vspec o l) [] os)).
Proof.
  intros Hroom Hp. eapply may_bind; [apply new_repr|]. intros v Hv. by apply vrun_refines.
Qed.
Lemma vector_refines_witness :
  may (let? v := Vector_new 0 (fun n => n <? 100) in
       vrun (fun n => n <? 100) [PushBack 1; PushBack 2; InsertAt 1 7; RemoveAt 0; SetExpand 9 4; PopBack] v)
      (fun v => repr v [Some 7; Some 2; None; None; None; None; None; None; None]).
Proof.
  apply (vector_refines 0 (fun n => n <? 100)
    [PushBack 1; PushBack 2; InsertAt 1 7; RemoveAt 0; SetExpand 9 4; PopBack]).
  - intros n Hn. apply Z.ltb_lt in Hn. lia.
  - simpl. repeat split; try (unfold lenZ; simpl; lia); try congruence; vm_compute; repeat constructor; by eexists.
Defined.

(** ** The cache line store

    [CacheLineStore::init] resizes a new vector to [p_count] tables and inserts
    an empty table at each of the first [p_count] positions.  The zeroed object
    of the block is a table that was never constructed, [None]; copying it gives
    such an object again. *)
Definition init_inserts (pc : Z) : list (@vop (option (gmap Z Range))) := (fun i => InsertAt i (Some ∅)) <$> seqZ 0 pc.
Definition store_init (room : Z -> bool) (pc : Z) : err (Vector (option (gmap Z Range))) :=
  let? v := Vector_new None room in
  let? v := resize room pc v in
  vrun room (init_inserts pc) v.

Lemma init_inserts_spec (n k m : nat) :
  let l := replicate k (Some (Some ∅)) ++ replicate m (Some (@None (gmap Z Range))) in
  let os := (fun i => InsertAt i (Some ∅)) <$> seqZ (Z.of_nat k) (Z.of_nat n) in
  Z.of_nat (k + m + n) < 2 ^ 31 -> vpres os l /\
  foldl (fun l o => vspec o l) l os = replicate (k + n) (Some (Some ∅)) ++ replicate m (Some None).
Proof.
  revert k. induction n as [|n IH]; intros k l os Hn; [simpl; split; [done|by rewrite Nat.add_0_r]|].
  unfold os. rewrite seqZ_cons by lia. cbn [fmap list_fmap foldl vpres].
  assert (vspec (InsertAt (Z.of_nat k) (Some ∅)) l = replicate (S k) (Some (Some ∅)) ++ replicate m (Some None)) as Hl.
  { unfold l. simpl. rewrite Nat2Z.id, take_app_length', drop_app_length' by (by rewrite length_replicate).
    by rewrite cons_middle, app_assoc, <- replicate_S_end. }
  destruct (IH (S k) ltac:(lia)) as [Hp Hf]. replace (Z.succ (Z.of_nat k)) with (Z.of_nat (S k)) by lia.
  replace (Z.pred (Z.of_nat (S n))) with (Z.of_nat n) by lia. rewrite Hl. split; [split; [|done]|].
  - unfold vpre, l, lenZ. rewrite length_app, !length_replicate. split; [lia|]. split; [lia|].
    rewrite Nat2Z.id, drop_app_length' by (by rewrite length_replicate). apply Forall_replicate. by eexists.
  - rewrite Hf. do 2 f_equal. lia.
Qed.

(** Up to the first capacity the store is the one of [CacheLine]. *)
Lemma store_init_vector room pc : (forall n, room n = true -> n < 2 ^ 31) -> 1 <= pc <= VECTOR_DEFCAP ->
  may (store_init room pc) (fun v => repr v (Some <$> CacheLineStore_init pc)).
Proof.
  unfold VECTOR_DEFCAP. intros Hroom Hpc. unfold store_init, Vector_new, calloc.
  destruct (room VECTOR_DEFCAP); simpl; [|done].
  unfold resize. rewrite (proj2 (Z.leb_gt _ _)), (proj2 (Z.ltb_ge _ _)) by (simpl; unfold VECTOR_DEFCAP; lia). simpl.
  destruct (init_inserts_spec (Z.to_nat pc) 0 (Z.to_nat pc) ltac:(lia)) as [Hp Hf]. simpl in Hp, Hf.
  rewrite Z2Nat.id in Hp, Hf by lia. unfold CacheLineStore_init. rewrite fmap_app, !fmap_replicate, <- Hf.
  apply vrun_refines; [exact Hroom|exact Hp|].
  constructor; simpl; unfold lenZ, VECTOR_DEFCAP; rewrite ?length_replicate; simpl; try lia.
  intros i x [-> Hi]%lookup_replicate. assert (i < 8)%nat by lia. do 8 (destruct i as [|i]; [done|]). lia.
Qed.

(** Beyond it the block was reallocated, and the first insertion copies an object
    from raw memory. *)
Example store_init_9 : store_init (fun n => n <? 1000) 9 = inl (UB "array[index]").
Proof. vm_compute. reflexivity. Qed.
