(* ===== verification/DList.v ===== *)
(** * DList: the doubly linked list of the shared space

    [List<_Tp, msp>] of [src/include/list.h]: nodes in a memory space, linked by
    addresses ([NULL] is 0).  The list carries the nodes of its space, those of
    other lists too; [lseg] describes the nodes of this one, and [lrepr] relates
    the list to the sequence of its values. *)
From S2P Require Import Prelude Alloc.

Record llnode (A : Type) := mkNode { prev : Z; next : Z; val : A }.
Arguments mkNode {A} prev next val.
Arguments prev {A} n : rename.
Arguments next {A} n : rename.
Arguments val {A} n : rename.

Record dlist (A : Type) := mkList { nodes : gmap Z (llnode A); head : Z; tail : Z; _size : Z }.
Arguments mkList {A} nodes head tail _size.
Arguments nodes {A} l : rename.
Arguments head {A} l : rename.
Arguments tail {A} l : rename.
Arguments _size {A} l : rename.

Section DList.
Context {A : Type} `{Allocator}.
Local Abbreviation heap := (gmap Z (llnode A)).

(** Reads and writes through a node pointer. *)
Definition deref (p : Z) (h : heap) : err (llnode A) :=
  match h !! p with Some n => inr n | None => inl (UB "node") end.
Definition set_prev (p q : Z) (h : heap) : err heap :=
  let? n := deref p h in inr (<[p := mkNode q (next n) (val n)]> h).
Definition set_next (p q : Z) (h : heap) : err heap :=
  let? n := deref p h in inr (<[p := mkNode (prev n) q (val n)]> h).

Definition List_new (h : heap) : dlist A := mkList h 0 0 0.

Definition add_front (x : A) (L : dlist A) : err (Z * dlist A) :=
  let? (tmp, h) := new_object (mkNode 0 (head L) x) (nodes L) in
  let? (h, tl) := (if head L =? 0 then inr (h, tmp)
                   else let? h := set_prev (head L) tmp h in inr (h, tail L)) in
  inr (tmp, mkList h tmp tl (u32 (_size L + 1))).
Definition push_front (x : A) (L : dlist A) : err (dlist A) := let? (_, L) := add_front x L in inr L.

Definition add_back (x : A) (L : dlist A) : err (Z * dlist A) :=
  let? (tmp, h) := new_object (mkNode (tail L) 0 x) (nodes L) in
  let? (h, hd) := (if tail L =? 0 then inr (h, tmp)
                   else let? h := set_next (tail L) tmp h in inr (h, head L)) in
  inr (tmp, mkList h hd tmp (u32 (_size L + 1))).
Definition push_back (x : A) (L : dlist A) : err (dlist A) := let? (_, L) := add_back x L in inr L.

Definition pop_front (L : dlist A) : err (A * dlist A) :=
  let tmp := head L in
  let? n := deref (head L) (nodes L) in
  let hd := next n in
  let? (h, tl) := (if hd =? 0 then inr (nodes L, 0)
                   else let? h := set_prev hd 0 (nodes L) in inr (h, tail L)) in
  let? m := deref tmp h in
  let? h := delete_object tmp h in
  inr (val m, mkList h hd tl (u32 (_size L - 1))).

Definition pop_back (L : dlist A) : err (dlist A) :=
  let tmp := tail L in
  let? n := deref (tail L) (nodes L) in
  let tl := prev n in
  let? (h, hd) := (if tl =? 0 then inr (nodes L, 0)
                   else let? h := set_next tl 0 (nodes L) in inr (h, head L)) in
  let? h := delete_object tmp h in
  inr (mkList h hd tl (u32 (_size L - 1))).

(** [while (head != NULL)]: [fuel] bounds the iterations. *)
Fixpoint clear_loop (fuel : nat) (hd : Z) (h : heap) : err heap :=
  if hd =? 0 then inr h
  else match fuel with
       | O => inl (NoReturn "clear")
       | S fuel =>
           let? n := deref hd h in
           let? h := delete_object hd h in
           clear_loop fuel (next n) h
       end.
Definition clear (L : dlist A) : err (dlist A) :=
  let? h := clear_loop (size (nodes L)) (head L) (nodes L) in inr (mkList h 0 0 0).

Definition insertAfter (node : Z) (x : A) (L : dlist A) : err (Z * dlist A) :=
  let? n := deref node (nodes L) in
  let? (tmp, h) := new_object (mkNode node (next n) x) (nodes L) in
  let? h := set_next node tmp h in
  let? t := deref tmp h in
  let? (h, tl) := (if next t =? 0 then inr (h, tmp)
                   else let? h := set_prev (next t) tmp h in inr (h, tail L)) in
  inr (tmp, mkList h (head L) tl (u32 (_size L + 1))).

Definition insertBefore (node : Z) (x : A) (L : dlist A) : err (dlist A) :=
  let? n := deref node (nodes L) in
  let? (tmp, h) := new_object (mkNode (prev n) node x) (nodes L) in
  let? h := set_prev node tmp h in
  let? t := deref tmp h in
  let? (h, hd) := (if prev t =? 0 then inr (h, tmp)
                   else let? h := set_next (prev t) tmp h in inr (h, head L)) in
  inr (mkList h hd (tail L) (u32 (_size L + 1))).

Definition erase (node : Z) (L : dlist A) : err (Z * dlist A) :=
  let? n := deref node (nodes L) in
  let? (h, hd) := (if head L =? node then inr (nodes L, next n)
                   else let? h := set_next (prev n) (next n) (nodes L) in inr (h, head L)) in
  let? n := deref node h in
  let? (h, tl) := (if tail L =? node then inr (h, prev n)
                   else let? h := set_prev (next n) (prev n) h in inr (h, tail L)) in
  let? n := deref node h in
  let? h := delete_object node h in
  inr (next n, mkList h hd tl (u32 (_size L - 1))).

(** [for (it = begin(); it != end(); it++)] and its reverse: the values seen. *)
Fixpoint forward (fuel : nat) (p : Z) (h : heap) : err (list A) :=
  if p =? 0 then inr []
  else match fuel with
       | O => inl (NoReturn "iterator")
       | S fuel => let? n := deref p h in let? l := forward fuel (next n) h in inr (val n :: l)
       end.
Fixpoint backward (fuel : nat) (p : Z) (h : heap) : err (list A) :=
  if p =? 0 then inr []
  else match fuel with
       | O => inl (NoReturn "reverse_iterator")
       | S fuel => let? n := deref p h in let? l := backward fuel (prev n) h in inr (val n :: l)
       end.
Definition iterate (L : dlist A) : err (list A) := forward (size (nodes L)) (head L) (nodes L).
Definition iterate_back (L : dlist A) : err (list A) := backward (size (nodes L)) (tail L) (nodes L).

(** The copy constructor, whose nodes are beside those of [list]. *)
Fixpoint append (l : list A) (L : dlist A) : err (dlist A) :=
  match l with [] => inr L | x :: l => let? L := push_back x L in append l L end.
Definition List_copy (list : dlist A) : err (dlist A) :=
  let? l := iterate list in append l (List_new (nodes list)).

(** [L = list] for two lists of one space. *)
Definition assign (L list : dlist A) : err (dlist A) :=
  let? L := clear L in
  let? l := forward (size (nodes L)) (head list) (nodes L) in append l L.

Definition front (L : dlist A) : err A := let? n := deref (head L) (nodes L) in inr (val n).
Definition back (L : dlist A) : err A := let? n := deref (tail L) (nodes L) in inr (val n).
Definition empty_ (L : dlist A) : bool := _size L =? 0.

(** ** The nodes of a list *)

(** [l] is linked from [f] to [la], between the nodes [pv] and [nx]. *)
Fixpoint lseg (h : heap) (pv f la nx : Z) (l : list (Z * A)) : Prop :=
  match l with
  | [] => f = nx /\ la = pv
  | (a, x) :: l => f = a /\ a <> 0 /\ exists n, h !! a = Some (mkNode pv n x) /\ lseg h a n la nx l
  end.

Lemma lseg_app h l1 l2 : forall pv f la nx,
  lseg h pv f la nx (l1 ++ l2) <-> exists c b, lseg h pv f c b l1 /\ lseg h c b la nx l2.
Proof.
  induction l1 as [|[a x] l1 IH]; intros pv f la nx; simpl.
  - split; [by eauto 6|]. by intros (c & b & [-> ->] & Hl).
  - split.
    + intros (-> & Ha & n & Hn & (c & b & H1 & H2)%IH). eauto 10.
    + intros (c & b & (-> & Ha & n & Hn & H1) & H2). split; [done|]. split; [done|].
      exists n. split; [done|]. apply IH. eauto.
Qed.

Lemma lseg_first h pv f la nx l : lseg h pv f la nx l -> l = [] \/ f ∈ l.*1.
Proof. destruct l as [|[a x] l]; [by left|]. intros (-> & _). right. set_solver. Qed.

Lemma lseg_last h l : forall pv f la nx, lseg h pv f la nx l -> l = [] \/ la ∈ l.*1.
Proof.
  induction l as [|[a x] l IH]; intros pv f la nx; [by left|]. intros (_ & _ & n & _ & Hl). right.
  destruct (IH _ _ _ _ Hl) as [->|Hin]; [destruct Hl as [_ ->]|]; set_solver.
Qed.

Lemma lseg_nonzero h l : forall pv f la nx p, lseg h pv f la nx l -> p ∈ l.*1 -> p <> 0 /\ is_Some (h !! p).
Proof.
  induction l as [|[a x] l IH]; intros pv f la nx p; simpl; [set_solver|]. intros (_ & Ha & n & Hn & Hl) [->|Hp]%elem_of_cons.
  - split; [done|]. by eexists.
  - by eapply IH.
Qed.

(** A segment whose end nodes are linked to other neighbours. *)
Lemma lseg_relabel h h' l pv' nx' : forall pv f la nx, lseg h pv f la nx l -> NoDup l.*1 -> l <> [] ->
  (forall p n, p ∈ l.*1 -> h !! p = Some n ->
     h' !! p = Some (mkNode (if p =? f then pv' else prev n) (if p =? la then nx' else next n) (val n))) ->
  lseg h' pv' f la nx' l.
Proof.
  revert pv'. induction l as [|[a x] l IH]; intros pv' pv f la nx Hs Hnd Hne Hh; [done|].
  destruct Hs as (-> & Ha & n & Hn & Hl). simpl in Hnd. apply NoDup_cons in Hnd as [Hna Hnd].
  pose proof (Hh a _ ltac:(set_solver) Hn) as Hh1. simpl in Hh1. rewrite Z.eqb_refl in Hh1.
  split; [done|]. split; [done|]. destruct l as [|y l].
  - destruct Hl as [_ ->]. rewrite Z.eqb_refl in Hh1. by eexists.
  - destruct (lseg_last _ _ _ _ _ _ Hl) as [?|Hla]; [done|].
    rewrite (proj2 (Z.eqb_neq a la)) in Hh1 by (intros ->; done). exists n. split; [done|].
    eapply (IH a); [exact Hl|done|done|]. intros p m Hp Hm. rewrite (Hh p m) by set_solver.
    rewrite (proj2 (Z.eqb_neq p a)) by (intros ->; done). do 2 f_equal.
    case_if; [|done]. subst p. destruct y as [b y]. destruct Hl as (-> & _ & k & Hk & _).
    rewrite Hk in Hm. by injection Hm as <-.
Qed.

(** The segments before and after a place of the list: [c] and [b] are the
    neighbours of the place, [n0] and [p0] what they are linked to. *)
Record joint (h : heap) (f la c b n0 p0 : Z) (l1 l2 : list (Z * A)) : Prop := mkJoint {
  j_left : lseg h 0 f c n0 l1;
  j_right : lseg h p0 b la 0 l2;
  j_first : l1 = [] -> c = 0;
  j_last : l2 = [] -> b = 0;
  j_nodup : NoDup (l1.*1 ++ l2.*1)
}.

Lemma joint_left h f la c b n0 p0 l1 l2 : joint h f la c b n0 p0 l1 l2 ->
  (l1 = [] /\ c = 0) \/ (l1 <> [] /\ c ∈ l1.*1 /\ c <> 0).
Proof.
  intros [Hl _ Hc _ _]. destruct (lseg_last _ _ _ _ _ _ Hl) as [->|Hin]; [left; auto|right].
  split; [intros ->; set_solver|]. split; [done|]. by eapply lseg_nonzero.
Qed.

Lemma joint_right h f la c b n0 p0 l1 l2 : joint h f la c b n0 p0 l1 l2 ->
  (l2 = [] /\ b = 0) \/ (l2 <> [] /\ b ∈ l2.*1 /\ b <> 0).
Proof.
  intros [_ Hl _ Hb _]. destruct (lseg_first _ _ _ _ _ _ Hl) as [->|Hin]; [left; auto|right].
  split; [intros ->; set_solver|]. split; [done|]. by eapply lseg_nonzero.
Qed.

(** The nodes of the list with the neighbours [p'] and [n'] of the joint. *)
Definition rejoined (h h' : heap) (c b p' n' : Z) (ps : list Z) : Prop :=
  forall p n, p ∈ ps -> h !! p = Some n ->
    h' !! p = Some (mkNode (if p =? b then p' else prev n) (if p =? c then n' else next n) (val n)).

Lemma lseg_first_prev h pv f la nx l n : lseg h pv f la nx l -> l <> [] -> h !! f = Some n -> prev n = pv.
Proof. destruct l as [|[a x] l]; [done|]. intros (-> & _ & m & -> & _) _ [= <-]. done. Qed.

Lemma lseg_last_next h l : forall pv f la nx n, lseg h pv f la nx l -> l <> [] -> h !! la = Some n -> next n = nx.
Proof.
  induction l as [|[a x] l IH]; intros pv f la nx n; [done|]. intros (_ & _ & m & Hm & Hl) _ Hn.
  destruct l as [|y l]; [|by eapply IH]. destruct Hl as [-> ->]. rewrite Hm in Hn. by injection Hn as <-.
Qed.

Lemma joint_relabel h h' f la c b n0 p0 l1 l2 p' n' :
  joint h f la c b n0 p0 l1 l2 -> rejoined h h' c b p' n' (l1.*1 ++ l2.*1) ->
  (l1 <> [] -> lseg h' 0 f c n' l1) /\ (l2 <> [] -> lseg h' p' b la 0 l2).
Proof.
  intros Hj Hh. pose proof (joint_left _ _ _ _ _ _ _ _ _ Hj) as Hjl. pose proof (joint_right _ _ _ _ _ _ _ _ _ Hj) as Hjr.
  destruct Hj as [H1 H2 _ _ Hnd]. apply NoDup_app in Hnd as (Hn1 & Hdis & Hn2). split; intros Hne.
  - eapply lseg_relabel; [exact H1|done|done|]. intros p n Hp Hn. rewrite (Hh p n) by (set_solver || done).
    destruct (Z.eqb_spec p b) as [->|_].
    { destruct Hjr as [[_ ->]|(_ & Hb & _)]; [|by destruct (Hdis b)].
      by destruct (lseg_nonzero _ _ _ _ _ _ _ H1 Hp). }
    do 2 f_equal. case_if; [|done]. subst p. by eapply lseg_first_prev.
  - eapply lseg_relabel; [exact H2|done|done|]. intros p n Hp Hn. rewrite (Hh p n) by (set_solver || done).
    destruct (Z.eqb_spec p c) as [->|_].
    { destruct Hjl as [[_ ->]|(_ & Hb & _)]; [|by destruct (Hdis c)].
      by destruct (lseg_nonzero _ _ _ _ _ _ _ H2 Hp). }
    do 2 f_equal. case_if; [|done]. subst p. by eapply lseg_last_next.
Qed.

Lemma link h h' f la c b l1 l2 a x : joint h f la c b b c l1 l2 -> a <> 0 ->
  h' !! a = Some (mkNode c b x) -> rejoined h h' c b a a (l1.*1 ++ l2.*1) ->
  lseg h' 0 (if c =? 0 then a else f) (if b =? 0 then a else la) 0 (l1 ++ (a, x) :: l2).
Proof.
  intros Hj Ha Hn Hh. destruct (joint_relabel _ _ _ _ _ _ _ _ _ _ _ _ Hj Hh) as [Hl Hr].
  apply lseg_app. exists c, a. split.
  - destruct (joint_left _ _ _ _ _ _ _ _ _ Hj) as [[-> ->]|(Hne & _ & Hc)]; [done|].
    rewrite (proj2 (Z.eqb_neq _ _)) by done. by apply Hl.
  - split; [done|]. split; [done|]. exists b. split; [done|].
    destruct (joint_right _ _ _ _ _ _ _ _ _ Hj) as [[-> ->]|(Hne & _ & Hc)]; [done|].
    rewrite (proj2 (Z.eqb_neq _ _)) by done. by apply Hr.
Qed.

Lemma unlink h h' f la c b l1 l2 a : joint h f la c b a a l1 l2 ->
  rejoined h h' c b c b (l1.*1 ++ l2.*1) ->
  lseg h' 0 (if c =? 0 then b else f) (if b =? 0 then c else la) 0 (l1 ++ l2).
Proof.
  intros Hj Hh. destruct (joint_relabel _ _ _ _ _ _ _ _ _ _ _ _ Hj Hh) as [Hl Hr].
  apply lseg_app. exists c, b. split.
  - destruct (joint_left _ _ _ _ _ _ _ _ _ Hj) as [[-> ->]|(Hne & _ & Hc)]; [done|].
    rewrite (proj2 (Z.eqb_neq _ _)) by done. by apply Hl.
  - destruct (joint_right _ _ _ _ _ _ _ _ _ Hj) as [[-> ->]|(Hne & _ & Hc)]; [done|].
    rewrite (proj2 (Z.eqb_neq _ _)) by done. by apply Hr.
Qed.

(** The list [L] has the nodes [ps], an address and a value each. *)
Record lists (L : dlist A) (ps : list (Z * A)) : Prop := mkLists {
  li_seg : lseg (nodes L) 0 (head L) (tail L) 0 ps;
  li_nodup : NoDup ps.*1;
  li_size : _size L = u32 (lenZ ps)
}.
(** The nodes of other lists stay. *)
Definition others_kept (L L' : dlist A) (ps : list (Z * A)) : Prop :=
  forall p n, p ∉ ps.*1 -> nodes L !! p = Some n -> nodes L' !! p = Some n.

Lemma lists_alive L ps p : lists L ps -> p ∈ ps.*1 -> p <> 0 /\ exists n, nodes L !! p = Some n.
Proof. intros [Hs _ _] Hp. destruct (lseg_nonzero _ _ _ _ _ _ _ Hs Hp) as [? [n Hn]]. eauto. Qed.

Lemma lists_joint L l1 l2 : lists L (l1 ++ l2) -> exists c b, joint (nodes L) (head L) (tail L) c b b c l1 l2.
Proof.
  intros [Hs Hn _]. apply lseg_app in Hs as (c & b & H1 & H2). rewrite fmap_app in Hn. exists c, b.
  constructor; try done; intros ->; [by destruct H1|by destruct H2].
Qed.

Lemma size_up (ps qs : list (Z * A)) n : n = u32 (lenZ ps) -> length qs = S (length ps) -> u32 (n + 1) = u32 (lenZ qs).
Proof.
  intros -> Hq. unfold wrap, lenZ. rewrite Hq. rewrite Zplus_mod_idemp_l. f_equal. lia.
Qed.
Lemma size_down (ps qs : list (Z * A)) n : n = u32 (lenZ ps) -> length ps = S (length qs) -> u32 (n - 1) = u32 (lenZ qs).
Proof.
  intros -> Hq. unfold wrap, lenZ. rewrite Hq. rewrite Zminus_mod_idemp_l. f_equal. lia.
Qed.

Lemma linked L c b l1 l2 a x h' : lists L (l1 ++ l2) -> joint (nodes L) (head L) (tail L) c b b c l1 l2 ->
  a <> 0 -> nodes L !! a = None -> h' !! a = Some (mkNode c b x) -> rejoined (nodes L) h' c b a a (l1.*1 ++ l2.*1) ->
  lists (mkList h' (if c =? 0 then a else head L) (if b =? 0 then a else tail L) (u32 (_size L + 1))) (l1 ++ (a, x) :: l2).
Proof.
  intros HL Hj Ha Hf Hn Hh. constructor; simpl; [by eapply link| |].
  - assert (a ∉ (l1 ++ l2).*1) as Hin by (intros Hin; destruct (lists_alive _ _ _ HL Hin) as [_ [n Hn']]; congruence).
    destruct HL as [_ Hnd _]. rewrite fmap_app in Hin, Hnd |- *. simpl. apply NoDup_app in Hnd as (N1 & Hd & N2).
    apply NoDup_app. split; [done|]. split; [|apply NoDup_cons; set_solver].
    intros p Hp [->|Hq]%elem_of_cons; [set_solver|by destruct (Hd p)].
  - eapply size_up; [apply HL|]. rewrite !length_app. simpl. lia.
Qed.

Lemma unlinked L c b l1 l2 a x h' : lists L (l1 ++ (a, x) :: l2) -> joint (nodes L) (head L) (tail L) c b a a l1 l2 ->
  rejoined (nodes L) h' c b c b (l1.*1 ++ l2.*1) ->
  lists (mkList h' (if c =? 0 then b else head L) (if b =? 0 then c else tail L) (u32 (_size L - 1))) (l1 ++ l2).
Proof.
  intros HL Hj Hh. constructor; simpl; [by eapply unlink| |].
  - rewrite fmap_app. apply Hj.
  - eapply size_down; [apply HL|]. rewrite !length_app. simpl. lia.
Qed.

Lemma set_prev_in p q h n : h !! p = Some n -> set_prev p q h = inr (<[p := mkNode q (next n) (val n)]> h).
Proof. intros Hp. unfold set_prev, deref. by rewrite Hp. Qed.
Lemma set_next_in p q h n : h !! p = Some n -> set_next p q h = inr (<[p := mkNode (prev n) q (val n)]> h).
Proof. intros Hp. unfold set_next, deref. by rewrite Hp. Qed.

(** Look up the changed nodes. *)
Ltac apart := first [done | congruence | intros ->; set_solver | intros <-; set_solver].
Ltac lookups := repeat first
  [ rewrite lookup_insert_eq | rewrite lookup_insert_ne by apart | rewrite lookup_delete_ne by apart ].

Lemma add_front_lists L ps x : lists L ps ->
  may (add_front x L) (fun '(a, L') => nodes L !! a = None /\ lists L' ((a, x) :: ps) /\ others_kept L L' ps).
Proof.
  intros HL. destruct (lists_joint L [] ps HL) as (c & b & Hj). destruct (joint_right _ _ _ _ _ _ _ _ _ Hj) as [[-> ->]|(Hne & Hb & Hb0)].
  all: destruct (j_left _ _ _ _ _ _ _ _ _ Hj) as [Hf ->]; unfold add_front.
  all: eapply may_bind; [apply new_object_may|]; intros [a h] (Ha & Hnone & ->); simpl in *; rewrite Hf.
  - simpl. split; [done|]. split.
    + pose proof (linked L 0 0 [] [] a x (<[a:=mkNode 0 0 x]> (nodes L)) HL Hj Ha Hnone) as Hl. simpl in Hl.
      apply Hl; [by lookups|]. intros p n Hp. set_solver.
    + intros p n _ Hn. simpl. by lookups.
  - rewrite (proj2 (Z.eqb_neq b 0)) by done. destruct (lists_alive _ _ _ HL Hb) as [_ [n Hn]].
    rewrite (set_prev_in _ _ _ n) by (by lookups). simpl. split; [done|]. split.
    + pose proof (linked L 0 b [] ps a x (<[b:=mkNode a (next n) (val n)]> (<[a:=mkNode 0 b x]> (nodes L))) HL Hj Ha Hnone) as Hl.
      simpl in Hl. rewrite (proj2 (Z.eqb_neq b 0)) in Hl by done. apply Hl; [by lookups|].
      intros p m Hp Hm. destruct (lists_alive _ _ _ HL Hp) as [Hp0 _]. rewrite (proj2 (Z.eqb_neq p 0)) by done.
      destruct (Z.eqb_spec p b) as [->|Hpb]; lookups; [congruence|]. by destruct m.
    + intros p m Hp Hm. simpl. by lookups.
Qed.

Lemma deref_in p h n : h !! p = Some n -> deref p h = inr n.
Proof. intros Hp. unfold deref. by rewrite Hp. Qed.

Lemma add_back_lists L ps x : lists L ps ->
  may (add_back x L) (fun '(a, L') => nodes L !! a = None /\ lists L' (ps ++ [(a, x)]) /\ others_kept L L' ps).
Proof.
  intros HL. assert (lists L (ps ++ [])) as HL' by by rewrite app_nil_r.
  destruct (lists_joint L ps [] HL') as (c & b & Hj).
  destruct (j_right _ _ _ _ _ _ _ _ _ Hj) as [-> Hf]. unfold add_back.
  eapply may_bind; [apply new_object_may|]; intros [a h] (Ha & Hnone & ->); simpl in *; rewrite Hf.
  destruct (joint_left _ _ _ _ _ _ _ _ _ Hj) as [[-> ->]|(Hne & Hc & Hc0)].
  - simpl. split; [done|]. split; [|by intros p n _ Hn; simpl; lookups].
    pose proof (linked L 0 0 [] [] a x (<[a:=mkNode 0 0 x]> (nodes L)) HL Hj Ha Hnone) as Hl. simpl in Hl.
    apply Hl; [by lookups|]. intros p n Hp. set_solver.
  - rewrite (proj2 (Z.eqb_neq c 0)) by done. destruct (lists_alive _ _ _ HL Hc) as [_ [n Hn]].
    rewrite (set_next_in _ _ _ n) by (by lookups). simpl. split; [done|]. split; [|by intros p m Hp Hm; simpl; lookups].
    pose proof (linked L c 0 ps [] a x (<[c:=mkNode (prev n) a (val n)]> (<[a:=mkNode c 0 x]> (nodes L))) HL' Hj Ha Hnone) as Hl.
    simpl in Hl. rewrite (proj2 (Z.eqb_neq c 0)) in Hl by done. apply Hl; [by lookups|].
    intros p m Hp Hm. rewrite app_nil_r in Hp. destruct (lists_alive _ _ _ HL Hp) as [Hp0 _].
    rewrite (proj2 (Z.eqb_neq p 0)) by done. destruct (Z.eqb_spec p c) as [->|Hpb]; lookups; [congruence|]. by destruct m.
Qed.

Lemma joint_before h f la c b n0 p0 l1 l2 : joint h f la c b n0 p0 l1 l2 -> c <> 0 ->
  c ∈ l1.*1 /\ c ∉ l2.*1 /\ exists n, h !! c = Some n /\ next n = n0.
Proof.
  intros Hj Hc. destruct (joint_left _ _ _ _ _ _ _ _ _ Hj) as [[_ ?]|(Hne & Hin & _)]; [done|].
  destruct Hj as [H1 _ _ _ Hn]. apply NoDup_app in Hn as (_ & Hd & _). split; [done|]. split; [by apply Hd|].
  destruct (lseg_nonzero _ _ _ _ _ _ _ H1 Hin) as [_ [n Hcn]]. exists n. split; [done|]. by eapply lseg_last_next.
Qed.

Lemma joint_after h f la c b n0 p0 l1 l2 : joint h f la c b n0 p0 l1 l2 -> b <> 0 ->
  b ∈ l2.*1 /\ b ∉ l1.*1 /\ exists n, h !! b = Some n /\ prev n = p0.
Proof.
  intros Hj Hc. destruct (joint_right _ _ _ _ _ _ _ _ _ Hj) as [[_ ?]|(Hne & Hin & _)]; [done|].
  destruct Hj as [_ H2 _ _ Hn]. apply NoDup_app in Hn as (_ & Hd & _). split; [done|]. split; [by intros ?; apply (Hd b)|].
  destruct (lseg_nonzero _ _ _ _ _ _ _ H2 Hin) as [_ [n Hcn]]. exists n. split; [done|]. by eapply lseg_first_prev.
Qed.

(** The heap after the links on both sides of a place were set, when they exist. *)
Lemma rejoin L l1 l2 c b n0 p0 p' n' h' : joint (nodes L) (head L) (tail L) c b n0 p0 l1 l2 ->
  (forall p n, p ∈ l1.*1 ++ l2.*1 -> nodes L !! p = Some n -> p <> b -> p <> c -> h' !! p = Some n) ->
  (forall n, b <> 0 -> nodes L !! b = Some n -> h' !! b = Some (mkNode p' (next n) (val n))) ->
  (forall n, c <> 0 -> nodes L !! c = Some n -> h' !! c = Some (mkNode (prev n) n' (val n))) ->
  rejoined (nodes L) h' c b p' n' (l1.*1 ++ l2.*1).
Proof.
  intros Hj Ho Hb Hc p n Hp Hn.
  assert (p <> 0) as Hp0.
  { apply elem_of_app in Hp as [Hp|Hp]; [pose proof (j_left _ _ _ _ _ _ _ _ _ Hj) as Hs|pose proof (j_right _ _ _ _ _ _ _ _ _ Hj) as Hs];
      by destruct (lseg_nonzero _ _ _ _ _ _ _ Hs Hp). }
  destruct (Z.eqb_spec p b) as [Hpb|Hpb], (Z.eqb_spec p c) as [Hpc|Hpc]; try subst c; try subst b.
  - destruct (joint_before _ _ _ _ _ _ _ _ _ Hj Hp0) as (_ & Hn2 & _).
    by destruct (joint_after _ _ _ _ _ _ _ _ _ Hj Hp0) as (Hin & _).
  - by apply Hb.
  - by apply Hc.
  - rewrite (Ho p n) by done. by destruct n.
Qed.

Lemma insertAfter_lists L l1 l2 c b x : lists L (l1 ++ l2) -> joint (nodes L) (head L) (tail L) c b b c l1 l2 -> c <> 0 ->
  may (insertAfter c x L) (fun '(a, L') => nodes L !! a = None /\ lists L' (l1 ++ (a, x) :: l2) /\ others_kept L L' (l1 ++ l2)).
Proof.
  intros HL Hj Hc0. destruct (joint_before _ _ _ _ _ _ _ _ _ Hj Hc0) as (Hc & Hc2 & n & Hn & Hnext).
  unfold insertAfter. rewrite (deref_in _ _ n) by done. simpl.
  eapply may_bind; [apply new_object_may|]; intros [a h] (Ha & Hnone & ->); simpl. rewrite Hnext.
  rewrite (set_next_in _ _ _ n) by (by lookups). simpl.
  rewrite (deref_in _ _ (mkNode c b x)) by (by lookups). simpl.
  pose proof (fun h' => linked L c b l1 l2 a x h' HL Hj Ha Hnone) as Hl. rewrite (proj2 (Z.eqb_neq c 0)) in Hl by done.
  unfold others_kept. rewrite fmap_app. destruct (Z.eqb_spec b 0) as [->|Hb0].
  - simpl. split; [done|]. split; [|by intros p m Hp Hm; simpl; lookups]. apply Hl; [by lookups|].
    apply (rejoin L l1 l2 c 0 0 c); [done|intros; by lookups|done|]. intros m _ Hm. lookups. congruence.
  - destruct (joint_after _ _ _ _ _ _ _ _ _ Hj Hb0) as (Hb & Hb1 & m & Hm & _).
    rewrite (set_prev_in _ _ _ m) by (by lookups). simpl. split; [done|]. split; [|by intros p k Hp Hk; simpl; lookups].
    apply Hl; [by lookups|]. apply (rejoin L l1 l2 c b b c); [done|intros; by lookups| |]; intros k _ Hk; lookups; congruence.
Qed.

Lemma insertBefore_lists L l1 l2 c b x : lists L (l1 ++ l2) -> joint (nodes L) (head L) (tail L) c b b c l1 l2 -> b <> 0 ->
  may (insertBefore b x L) (fun L' => (exists a, nodes L !! a = None /\ lists L' (l1 ++ (a, x) :: l2)) /\ others_kept L L' (l1 ++ l2)).
Proof.
  intros HL Hj Hb0. destruct (joint_after _ _ _ _ _ _ _ _ _ Hj Hb0) as (Hb & Hb1 & n & Hn & Hprev).
  unfold insertBefore. rewrite (deref_in _ _ n) by done. simpl.
  eapply may_bind; [apply new_object_may|]; intros [a h] (Ha & Hnone & ->); simpl. rewrite Hprev.
  rewrite (set_prev_in _ _ _ n) by (by lookups). simpl.
  rewrite (deref_in _ _ (mkNode c b x)) by (by lookups). simpl.
  pose proof (fun h' => linked L c b l1 l2 a x h' HL Hj Ha Hnone) as Hl. rewrite (proj2 (Z.eqb_neq b 0)) in Hl by done.
  unfold others_kept. rewrite fmap_app. destruct (Z.eqb_spec c 0) as [->|Hc0].
  - simpl. split; [|by intros p m Hp Hm; simpl; lookups]. exists a. split; [done|]. apply Hl; [by lookups|].
    apply (rejoin L l1 l2 0 b b 0); [done|intros; by lookups| |done]. intros m _ Hm. lookups. congruence.
  - destruct (joint_before _ _ _ _ _ _ _ _ _ Hj Hc0) as (Hc & Hc1 & m & Hm & _).
    rewrite (set_next_in _ _ _ m) by (by lookups). simpl. split; [|by intros p k Hp Hk; simpl; lookups].
    exists a. split; [done|]. apply Hl; [by lookups|]. apply (rejoin L l1 l2 c b b c); [done|intros; by lookups| |]; intros k _ Hk; lookups; congruence.
Qed.

Lemma lists_hole L l1 l2 a x : lists L (l1 ++ (a, x) :: l2) -> exists c b,
  joint (nodes L) (head L) (tail L) c b a a l1 l2 /\ nodes L !! a = Some (mkNode c b x) /\
  a ∉ l1.*1 /\ a ∉ l2.*1 /\ (head L =? a) = (c =? 0) /\ (tail L =? a) = (b =? 0).
Proof.
  intros [Hs Hn _]. apply lseg_app in Hs as (c & a' & H1 & -> & Ha & b & Hab & H2).
  rewrite fmap_app in Hn. simpl in Hn. pose proof Hn as (N1 & Hd & [Ha2 N2]%NoDup_cons)%NoDup_app. exists c, b.
  assert (joint (nodes L) (head L) (tail L) c b a a l1 l2) as Hj.
  { constructor; try done.
    - intros ->. by destruct H1.
    - intros ->. by destruct H2.
    - apply NoDup_app. split; [done|]. split; [|done]. intros p Hp Hq. apply (Hd p); set_solver. }
  split; [done|]. split; [done|]. split; [intros Hin; apply (Hd a); set_solver|]. split; [done|]. split.
  - destruct (joint_left _ _ _ _ _ _ _ _ _ Hj) as [[-> ->]|(Hne & Hin & Hc)].
    + destruct H1 as [-> _]. by rewrite Z.eqb_refl.
    + rewrite (proj2 (Z.eqb_neq c 0)) by done. apply Z.eqb_neq. intros He.
      destruct (lseg_first _ _ _ _ _ _ H1) as [?|Hf]; [done|]. rewrite He in Hf. apply (Hd a); set_solver.
  - destruct (joint_right _ _ _ _ _ _ _ _ _ Hj) as [[-> ->]|(Hne & Hin & Hc)].
    + destruct H2 as [_ ->]. by rewrite Z.eqb_refl.
    + rewrite (proj2 (Z.eqb_neq b 0)) by done. apply Z.eqb_neq. intros He.
      destruct (lseg_last _ _ _ _ _ _ H2) as [?|Hf]; [done|]. by rewrite He in Hf.
Qed.

Lemma delete_in p (h : heap) n : h !! p = Some n -> delete_object p h = inr (delete p h).
Proof. intros Hp. unfold delete_object. by rewrite Hp. Qed.

(** [node->next] of the last node before [l]. *)
Definition first_of (l : list (Z * A)) : Z := match l with [] => 0 | (p, _) :: _ => p end.
Lemma joint_first_of h f la c b n0 p0 l1 l2 : joint h f la c b n0 p0 l1 l2 -> b = first_of l2.
Proof. intros [_ H2 _ Hb _]. destruct l2 as [|[q y] l2]; [by apply Hb|]. by destruct H2 as [-> _]. Qed.

Lemma erase_lists L l1 l2 a x : lists L (l1 ++ (a, x) :: l2) ->
  may (erase a L) (fun '(nx, L') => lists L' (l1 ++ l2) /\ nx = first_of l2 /\
    others_kept L L' (l1 ++ (a, x) :: l2)).
Proof.
  intros HL. destruct (lists_hole _ _ _ _ _ HL) as (c & b & Hj & Ha & Ha1 & Ha2 & Hhd & Htl).
  rewrite <- (joint_first_of _ _ _ _ _ _ _ _ _ Hj). pose proof (fun h' => unlinked L c b l1 l2 a x h' HL Hj) as Hl.
  unfold erase. rewrite (deref_in _ _ _ Ha). simpl. rewrite Hhd, Htl.
  unfold others_kept. rewrite fmap_app. simpl.
  destruct (Z.eqb_spec c 0) as [->|Hc0]; [|destruct (joint_before _ _ _ _ _ _ _ _ _ Hj Hc0) as (Hc & Hc2 & n & Hn & _);
    rewrite (set_next_in _ _ _ n) by done]; simpl; rewrite (deref_in _ _ (mkNode _ b x)) by (by lookups); simpl.
  all: destruct (Z.eqb_spec b 0) as [->|Hb0]; [|destruct (joint_after _ _ _ _ _ _ _ _ _ Hj Hb0) as (Hb & Hb1 & m & Hm & _);
    rewrite (set_prev_in _ _ _ m) by (by lookups)]; simpl; rewrite (deref_in _ _ (mkNode _ _ x)) by (by lookups); simpl.
  all: rewrite (delete_in _ _ (mkNode _ _ x)) by (by lookups); simpl.
  all: split; [|split; [done|intros p k Hp Hk; simpl; by lookups]]; apply Hl; eapply rejoin; [exact Hj|..].
  all: intros; first [congruence | by lookups | lookups; congruence].
Qed.

Lemma pop_front_lists L a x l2 : lists L ((a, x) :: l2) ->
  may (pop_front L) (fun '(y, L') => lists L' l2 /\ y = x /\ others_kept L L' ((a, x) :: l2)).
Proof.
  intros HL. destruct (lists_hole _ [] _ _ _ HL) as (c & b & Hj & Ha & Ha1 & Ha2 & Hhd & Htl).
  pose proof (fun h' => unlinked L c b [] l2 a x h' HL Hj) as Hl.
  pose proof (j_first _ _ _ _ _ _ _ _ _ Hj eq_refl) as ->. simpl in *. apply Z.eqb_eq in Hhd.
  unfold pop_front, others_kept. rewrite Hhd, (deref_in _ _ _ Ha). simpl.
  destruct (Z.eqb_spec b 0) as [->|Hb0]; [|destruct (joint_after _ _ _ _ _ _ _ _ _ Hj Hb0) as (Hb & Hb1 & m & Hm & _);
    rewrite (set_prev_in _ _ _ m) by (by lookups)]; simpl; rewrite (deref_in _ _ (mkNode 0 _ x)) by (by lookups); simpl.
  all: rewrite (delete_in _ _ (mkNode _ _ x)) by (by lookups); simpl.
  all: split; [|split; [done|intros p k Hp Hk; simpl; by lookups]]; apply Hl; eapply (rejoin _ []); [exact Hj|..].
  all: intros; first [congruence | by lookups | lookups; congruence].
Qed.

Lemma pop_back_lists L a x l1 : lists L (l1 ++ [(a, x)]) ->
  may (pop_back L) (fun L' => lists L' l1 /\ others_kept L L' (l1 ++ [(a, x)])).
Proof.
  intros HL. destruct (lists_hole _ _ [] _ _ HL) as (c & b & Hj & Ha & Ha1 & Ha2 & Hhd & Htl).
  pose proof (fun h' => unlinked L c b l1 [] a x h' HL Hj) as Hl.
  pose proof (j_last _ _ _ _ _ _ _ _ _ Hj eq_refl) as ->. simpl in *. apply Z.eqb_eq in Htl.
  unfold pop_back, others_kept. rewrite fmap_app, Htl, (deref_in _ _ _ Ha). simpl. rewrite !app_nil_r in Hl.
  destruct (Z.eqb_spec c 0) as [->|Hc0]; [|destruct (joint_before _ _ _ _ _ _ _ _ _ Hj Hc0) as (Hc & Hc2 & m & Hm & _);
    rewrite (set_next_in _ _ _ m) by (by lookups)]; simpl.
  all: rewrite (delete_in _ _ (mkNode _ _ x)) by (by lookups); simpl.
  all: split; [|intros p k Hp Hk; simpl; by lookups]; apply Hl; rewrite <- (app_nil_r (l1.*1)); eapply (rejoin _ _ []); [exact Hj|..].
  all: intros; first [congruence | by lookups | lookups; congruence].
Qed.

(** Walks over the list. *)
Lemma lists_length L ps : lists L ps -> (length ps <= size (nodes L))%nat.
Proof.
  intros HL. rewrite <- (length_fmap fst), <- (size_list_to_set (C := gset Z) ps.*1), <- (size_dom (D := gset Z)) by apply HL.
  apply subseteq_size. intros p Hp%elem_of_list_to_set. apply elem_of_dom. destruct (lists_alive _ _ _ HL Hp) as [_ [n ->]]. by eexists.
Qed.

Lemma forward_seg h l : forall fuel pv f la, lseg h pv f la 0 l -> (length l <= fuel)%nat -> forward fuel f h = inr l.*2.
Proof.
  induction l as [|[a x] l IH]; intros fuel pv f la; [intros [-> _] _; by destruct fuel|].
  intros (-> & Ha & n & Hn & Hl) Hf. destruct fuel as [|fuel]; simpl in Hf; [lia|]. cbn [forward].
  rewrite (proj2 (Z.eqb_neq _ _)), (deref_in _ _ _ Hn) by done. simpl. rewrite (IH fuel a n la) by (done || lia). done.
Qed.

Lemma backward_seg h l : forall fuel f la nx, lseg h 0 f la nx l -> (length l <= fuel)%nat -> backward fuel la h = inr (rev l.*2).
Proof.
  induction l as [|[a x] l IH] using rev_ind; intros fuel f la nx; [intros [_ ->] _; by destruct fuel|].
  intros (c & b & H1 & -> & Ha & n & Hn & [-> ->])%lseg_app Hf. rewrite length_app in Hf. simpl in Hf.
  destruct fuel as [|fuel]; [lia|]. cbn [backward]. rewrite (proj2 (Z.eqb_neq _ _)), (deref_in _ _ _ Hn) by done. simpl.
  rewrite (IH fuel f c a) by (done || lia). simpl. by rewrite fmap_app, rev_app_distr.
Qed.

Lemma iterate_lists L ps : lists L ps -> iterate L = inr ps.*2 /\ iterate_back L = inr (rev ps.*2).
Proof.
  intros HL. pose proof (lists_length _ _ HL). destruct HL as [Hs _ _].
  split; [by eapply forward_seg|by eapply backward_seg].
Qed.

Lemma clear_loop_seg l : forall fuel h pv f la, lseg h pv f la 0 l -> NoDup l.*1 -> (length l <= fuel)%nat ->
  exists h', clear_loop fuel f h = inr h' /\ forall p n, p ∉ l.*1 -> h !! p = Some n -> h' !! p = Some n.
Proof.
  induction l as [|[a x] l IH]; intros fuel h pv f la; [intros [-> _] _ _; exists h; by destruct fuel|].
  intros (-> & Ha & n & Hn & Hl) [Hna Hnd]%NoDup_cons Hf. destruct fuel as [|fuel]; simpl in Hf; [lia|]. cbn [clear_loop].
  rewrite (proj2 (Z.eqb_neq _ _)), (deref_in _ _ _ Hn) by done. simpl. rewrite (delete_in _ _ _ Hn). simpl.
  destruct (IH fuel (delete a h) a n la) as (h' & -> & Hk); [|done|lia|].
  - destruct l as [|y l]; [exact Hl|]. eapply lseg_relabel; [exact Hl|done|done|]. intros p m Hp Hm. lookups.
    rewrite Hm. f_equal. destruct m as [mp mn mv]. simpl. f_equal.
    + case_if; [|done]. subst p. by rewrite <- (lseg_first_prev _ _ _ _ _ _ _ Hl ltac:(done) Hm).
    + case_if; [|done]. subst p. by rewrite <- (lseg_last_next _ _ _ _ _ _ _ Hl ltac:(done) Hm).
  - exists h'. split; [done|]. intros p m Hp Hm. simpl in Hp. apply Hk; [set_solver|]. by lookups.
Qed.

Lemma clear_lists L ps : lists L ps -> may (clear L) (fun L' => lists L' [] /\ others_kept L L' ps).
Proof.
  intros HL. unfold clear. destruct (clear_loop_seg ps (size (nodes L)) _ _ _ _ (li_seg _ _ HL) (li_nodup _ _ HL) (lists_length _ _ HL))
    as (h' & -> & Hk). simpl. split; [|exact Hk]. constructor; [by split|apply NoDup_nil_2|done].
Qed.

(** ** Sequences of operations *)

(** The node that an iterator reaches after [i] steps from [begin()]. *)
Fixpoint advance (i : nat) (p : Z) (h : heap) : err Z :=
  match i with O => inr p | S i => let? n := deref p h in advance i (next n) h end.
Definition nth_node (i : nat) (L : dlist A) : err Z := advance i (head L) (nodes L).

Inductive lop := PushFront (x : A) | PushBack (x : A) | PopFront | PopBack | InsertAfter (i : nat) (x : A)
  | InsertBefore (i : nat) (x : A) | Erase (i : nat) | Clear.
Definition lexec (o : lop) (L : dlist A) : err (dlist A) :=
  match o with
  | PushFront x => push_front x L
  | PushBack x => push_back x L
  | PopFront => let? (_, L) := pop_front L in inr L
  | PopBack => pop_back L
  | InsertAfter i x => let? p := nth_node i L in let? (_, L) := insertAfter p x L in inr L
  | InsertBefore i x => let? p := nth_node i L in insertBefore p x L
  | Erase i => let? p := nth_node i L in let? (_, L) := erase p L in inr L
  | Clear => clear L
  end.
Definition lspec (o : lop) (l : list A) : list A :=
  match o with
  | PushFront x => x :: l
  | PushBack x => l ++ [x]
  | PopFront => drop 1 l
  | PopBack => take (length l - 1) l
  | InsertAfter i x => take (S i) l ++ x :: drop (S i) l
  | InsertBefore i x => take i l ++ x :: drop i l
  | Erase i => take i l ++ drop (S i) l
  | Clear => []
  end.
Definition lpre (o : lop) (l : list A) : Prop :=
  match o with
  | PopFront | PopBack => l <> []
  | InsertAfter i _ | InsertBefore i _ | Erase i => (i < length l)%nat
  | _ => True
  end.
Fixpoint lrun (os : list lop) (L : dlist A) : err (dlist A) :=
  match os with [] => inr L | o :: os => let? L := lexec o L in lrun os L end.
Fixpoint lpres (os : list lop) (l : list A) : Prop :=
  match os with [] => True | o :: os => lpre o l /\ lpres os (lspec o l) end.

(** The list [L] holds [l] beside the nodes [h0] of other lists. *)
Definition holds (h0 : heap) (l : list A) (L : dlist A) : Prop :=
  exists ps, lists L ps /\ ps.*2 = l /\ forall p n, h0 !! p = Some n -> nodes L !! p = Some n /\ p ∉ ps.*1.

Lemma holds_new h0 : holds h0 [] (List_new h0).
Proof. exists []. split; [constructor; [by split|apply NoDup_nil_2|done]|]. split; [done|]. set_solver. Qed.

(** A step whose nodes are the old ones and perhaps the new node [a]. *)
Lemma holds_step h0 L L' ps qs l : lists L ps -> lists L' qs -> others_kept L L' ps -> qs.*2 = l ->
  (forall p, p ∈ qs.*1 -> p ∈ ps.*1 \/ nodes L !! p = None) ->
  (forall p n, h0 !! p = Some n -> nodes L !! p = Some n /\ p ∉ ps.*1) -> holds h0 l L'.
Proof.
  intros HL HL' Hk Hl Hq H0. exists qs. split; [done|]. split; [done|]. intros p n Hp. destruct (H0 p n Hp) as [Hn Hin].
  split; [by apply Hk|]. intros [?|?]%Hq; [done|congruence].
Qed.

Lemma split_at (ps : list (Z * A)) i : (i < length ps)%nat ->
  exists l1 a x l2, ps = l1 ++ (a, x) :: l2 /\ length l1 = i.
Proof.
  intros Hi. destruct (lookup_lt_is_Some_2 ps i Hi) as [[a x] Hp].
  exists (take i ps), a, x, (drop (S i) ps). split; [by rewrite take_drop_middle|rewrite length_take; lia].
Qed.

Lemma advance_seg h l1 l2 a x : forall pv f la nx, lseg h pv f la nx (l1 ++ (a, x) :: l2) -> advance (length l1) f h = inr a.
Proof.
  induction l1 as [|[b y] l1 IH]; intros pv f la nx; [by intros [-> _]|].
  intros (-> & _ & n & Hn & Hl). simpl. rewrite (deref_in _ _ _ Hn). simpl. by eapply IH.
Qed.

Lemma nth_node_in L l1 l2 a x : lists L (l1 ++ (a, x) :: l2) -> nth_node (length l1) L = inr a.
Proof. intros [Hs _ _]. by eapply advance_seg. Qed.

(** The neighbours of a place are the nodes around it. *)
Lemma place_after L l1 l2 a x : lists L (l1 ++ (a, x) :: l2) ->
  exists b, joint (nodes L) (head L) (tail L) a b b a (l1 ++ [(a, x)]) l2 /\ a <> 0.
Proof.
  intros HL. assert (lists L ((l1 ++ [(a, x)]) ++ l2)) as HL' by by rewrite <- app_assoc.
  destruct (lists_joint _ _ _ HL') as (c & b & Hj). pose proof (j_left _ _ _ _ _ _ _ _ _ Hj) as Hs.
  apply lseg_app in Hs as (u & v & _ & -> & Ha & n & _ & _ & ->). by exists b.
Qed.
Lemma place_before L l1 l2 a x : lists L (l1 ++ (a, x) :: l2) ->
  exists c, joint (nodes L) (head L) (tail L) c a a c l1 ((a, x) :: l2) /\ a <> 0.
Proof.
  intros HL. destruct (lists_joint _ _ _ HL) as (c & b & Hj). pose proof (j_right _ _ _ _ _ _ _ _ _ Hj) as (-> & Ha & _).
  by exists c.
Qed.

Lemma values_around (l1 l2 : list (Z * A)) (k : list A) (n : nat) : length l1 = n ->
  (l1 ++ l2).*2 = l1.*2 ++ l2.*2 /\ take n ((l1 ++ l2).*2) = l1.*2 /\ drop n ((l1 ++ l2).*2) = l2.*2.
Proof.
  intros <-. rewrite fmap_app. split; [done|].
  split; [apply take_app_length'|apply drop_app_length']; by rewrite length_fmap.
Qed.

Ltac step := cbn [may]; match goal with Hk : others_kept ?L ?L' ?ps |- _ =>
  eapply (holds_step _ L L' ps); [eassumption|eassumption|exact Hk| | |eassumption] end.
Lemma holds_exec o h0 l L : holds h0 l L -> lpre o l -> may (lexec o L) (holds h0 (lspec o l)).
Proof.
  intros (ps & HL & <- & H0) Hp.
  destruct o as [x|x| | |i x|i x|i|]; simpl in Hp |- *; try rewrite length_fmap in Hp.
  - unfold push_front. eapply may_bind; [by apply add_front_lists|]. intros [a L'] (Hn & HL' & Hk).
    step; [done|]. simpl. intros p [->|?]%elem_of_cons; auto.
  - unfold push_back. eapply may_bind; [by apply add_back_lists|]. intros [a L'] (Hn & HL' & Hk).
    step; [by rewrite fmap_app|]. rewrite fmap_app. simpl. set_solver.
  - destruct ps as [|[a x] l2]; [done|]. eapply may_bind; [by apply pop_front_lists|]. intros [y L'] (HL' & _ & Hk).
    step; [done|]. simpl. set_solver.
  - destruct (exists_last (l := ps)) as (l1 & [a x] & ->); [by intros ->|].
    eapply may_mono; [by apply pop_back_lists|]. intros L' (HL' & Hk).
    step; [|rewrite fmap_app; set_solver].
    rewrite fmap_app, length_app. simpl. rewrite Nat.add_sub, length_fmap. by rewrite take_app_length' by by rewrite length_fmap.
  - destruct (split_at ps i Hp) as (l1 & a & y & l2 & -> & <-). rewrite (nth_node_in _ _ _ _ _ HL).
    destruct (place_after _ _ _ _ _ HL) as (b & Hj & Ha). cbn [ebind].
    assert (l1 ++ (a, y) :: l2 = (l1 ++ [(a, y)]) ++ l2) as E by by rewrite <- app_assoc. rewrite E in *.
    eapply may_bind; [by eapply insertAfter_lists|]. intros [c L'] (Hn & HL' & Hk).
    step.
    + destruct (values_around (l1 ++ [(a, y)]) l2 [] (S (length l1))) as (_ & -> & ->); [rewrite length_app; simpl; lia|].
      by rewrite fmap_app.
    + rewrite !fmap_app. simpl. set_solver.
  - destruct (split_at ps i Hp) as (l1 & a & y & l2 & -> & <-). rewrite (nth_node_in _ _ _ _ _ HL). cbn [ebind].
    destruct (place_before _ _ _ _ _ HL) as (c & Hj & Ha).
    eapply may_mono; [by eapply insertBefore_lists|]. intros L' ((b & Hn & HL') & Hk).
    step.
    + destruct (values_around l1 ((a, y) :: l2) [] (length l1)) as (_ & -> & ->); [done|]. by rewrite fmap_app.
    + rewrite !fmap_app. simpl. set_solver.
  - destruct (split_at ps i Hp) as (l1 & a & y & l2 & -> & <-). rewrite (nth_node_in _ _ _ _ _ HL). cbn [ebind].
    eapply may_bind; [by apply erase_lists|]. intros [nx L'] (HL' & _ & Hk).
    step; [|rewrite !fmap_app; simpl; set_solver].
    destruct (values_around l1 ((a, y) :: l2) [] (length l1)) as (_ & -> & _); [done|].
    assert (l1 ++ (a, y) :: l2 = (l1 ++ [(a, y)]) ++ l2) as -> by by rewrite <- app_assoc.
    destruct (values_around (l1 ++ [(a, y)]) l2 [] (S (length l1))) as (_ & _ & ->);
      [rewrite length_app; simpl; lia|]. by rewrite fmap_app.
  - eapply may_mono; [by apply clear_lists|]. intros L' [HL' Hk]. step; [done|]. simpl. set_solver.
Qed.

Lemma holds_run os : forall h0 l L, holds h0 l L -> lpres os l ->
  may (lrun os L) (holds h0 (foldl (fun l o => lspec o l) l os)).
Proof.
  induction os as [|o os IH]; intros h0 l L HL Hp; simpl; [done|]. destruct Hp as [Ho Hos].
  eapply may_bind; [by apply holds_exec|]. intros L' HL'. by apply IH.
Qed.

Lemma holds_read h0 l L : holds h0 l L ->
  iterate L = inr l /\ iterate_back L = inr (rev l) /\ _size L = u32 (lenZ l) /\ h0 ⊆ nodes L.
Proof.
  intros (ps & HL & <- & H0). destruct (iterate_lists _ _ HL) as [-> ->]. split; [done|]. split; [done|]. split.
  - rewrite (li_size _ _ HL). unfold lenZ. by rewrite length_fmap.
  - apply map_subseteq_spec. intros p n Hp. by apply H0.
Qed.

Lemma append_lists l : forall h0 k L, holds h0 k L -> may (append l L) (holds h0 (k ++ l)).
Proof.
  induction l as [|x l IH]; intros h0 k L HL; simpl; [by rewrite app_nil_r|].
  eapply may_bind; [by apply (holds_exec (PushBack x))|]. intros L' HL'. rewrite cons_middle, app_assoc. by apply IH.
Qed.

(** The copy has the values and shares no node with the original. *)
Lemma copy_lists h0 l L : holds h0 l L -> may (List_copy L) (holds (nodes L) l).
Proof.
  intros HL. unfold List_copy. destruct (holds_read _ _ _ HL) as [-> _]. simpl. apply (append_lists l _ []), holds_new.
Qed.

Lemma assign_lists h1 l k L list : holds h1 l list -> holds (nodes list) k L ->
  may (assign L list) (holds (nodes list) l).
Proof.
  intros (ps & Hl & <- & _) HL. unfold assign. eapply may_bind; [by apply (holds_exec Clear (nodes list) k)|]. intros L' HL'.
  pose proof (holds_read _ _ _ HL') as (_ & _ & _ & Hsub). rewrite map_subseteq_spec in Hsub.
  assert (lseg (nodes L') 0 (head list) (tail list) 0 ps) as Hs.
  { destruct ps as [|x ps]; [apply Hl|]. eapply lseg_relabel; [apply Hl|apply Hl|done|]. intros p n Hp Hn. rewrite (Hsub _ _ Hn).
    f_equal. destruct n as [np nn nv]. simpl. pose proof (li_seg _ _ Hl) as Hs. f_equal.
    - case_if; [|done]. subst p. by rewrite <- (lseg_first_prev _ _ _ _ _ _ _ Hs ltac:(done) Hn).
    - case_if; [|done]. subst p. by rewrite <- (lseg_last_next _ _ _ _ _ _ _ Hs ltac:(done) Hn). }
  rewrite (forward_seg _ _ (size (nodes L')) _ _ _ Hs); [by apply (append_lists _ _ [])|].
  etrans; [by eapply lists_length|]. rewrite <- !(size_dom (D := gset Z)). apply subseteq_size, subseteq_dom, map_subseteq_spec. exact Hsub.
Qed.

Lemma ends_read h0 l L : holds h0 l L -> l <> [] -> Some (front L) = inr <$> list.head l /\ Some (back L) = inr <$> last l.
Proof.
  intros (ps & HL & <- & _) Hne. pose proof (li_seg _ _ HL) as Hs. unfold front, back. split.
  - destruct ps as [|[a x] ps]; [done|]. destruct Hs as (-> & _ & n & Hn & _). by rewrite (deref_in _ _ _ Hn).
  - destruct (exists_last (l := ps)) as (l1 & [a x] & ->); [by intros ->|].
    apply lseg_app in Hs as (c & b & _ & -> & _ & n & Hn & _ & ->). rewrite (deref_in _ _ _ Hn).
    rewrite fmap_app. simpl. by rewrite last_snoc.
Qed.
End DList.

(** C35: A linked list is a sequence: after any operations whose positions are inside
    the list, the forward iterator sees the values of the list operations, the
    reverse iterator sees them backwards, the size is their number, and the
    nodes of the other lists of the space are where they were. *)
Theorem list_refines {A} `{Allocator} os (h0 : gmap Z (llnode A)) : lpres os [] ->
  may (lrun os (List_new h0)) (fun L => let l := foldl (fun l o => lspec o l) [] os in
    iterate L = inr l /\ iterate_back L = inr (rev l) /\ _size L = u32 (lenZ l) /\ h0 ⊆ nodes L).
Proof.
  intros Hp. eapply may_mono; [apply holds_run; [apply holds_new|done]|]. intros L HL. by eapply holds_read.
Qed.
Lemma list_refines_witness :
  may (lrun (H := bump_allocator) [PushBack 1; PushFront 2; InsertAfter 0 3; InsertBefore 2 4; Erase 1; PopBack] (List_new {[7 := mkNode 0 0 9]}))
    (fun L => iterate L = inr [2; 4] /\ iterate_back L = inr [4; 2] /\ _size L = 2 /\ {[7 := mkNode 0 0 9]} ⊆ nodes L).
Proof.
  refine (list_refines (H := bump_allocator) [PushBack 1; PushFront 2; InsertAfter 0 3; InsertBefore 2 4; Erase 1; PopBack] {[7 := mkNode 0 0 9]} _).
  simpl. repeat split; (lia || done).
Defined.
