(* ===== verification/HashTable.v ===== *)
(** * HashTable: the chained hash table of the shared space

    [HashTable<_Key, _Val, msp, _hash, _equals>] and [HashSet] of
    [src/include/hash_table.h]: an array of bucket heads and nodes linked by
    addresses ([NULL] is 0).  [_hash] is a parameter; [_equals] is [==].  The load
    factor, a [double], is a fraction.  [chain] describes the nodes of a bucket,
    [stores] relates a table to the finite map it holds. *)
From Stdlib Require Import QArith_base.
From S2P Require Import Prelude Alloc.
#[local] Open Scope Z_scope.

(** [t ^ (t << 5)] on 64 bits. *)
Definition default_hash_function (hash : Z) : Z := Z.lxor (u64 hash) (u64 (Z.shiftl (u64 hash) 5)).
(** [shared::Pair::hash]. *)
Definition pair_hash (p : Z * Z) : Z :=
  u64 (default_hash_function p.1 * 31 + default_hash_function p.2).

Record htnode (K V : Type) := mkNode { first : K; second : V; next : Z }.
Arguments mkNode {K V} first second next.
Arguments first {K V} n : rename.
Arguments second {K V} n : rename.
Arguments next {K V} n : rename.

Record HashTable (K V : Type) := mkTable {
  nodes : gmap Z (htnode K V);
  table : list Z;
  _size : Z;
  buckets : Z;
  max_factor : Q;
  threshold : Z
}.
Arguments mkTable {K V} nodes table _size buckets max_factor threshold.
Arguments nodes {K V} t : rename.
Arguments table {K V} t : rename.
Arguments _size {K V} t : rename.
Arguments buckets {K V} t : rename.
Arguments max_factor {K V} t : rename.
Arguments threshold {K V} t : rename.

(** A position: the node, the one before it in its bucket, and the bucket. *)
Record iterator := mkIter { _node : Z; _prev : Z; _index : Z }.

(** [(size_t)(buckets * max_factor)] *)
Definition scale (n : Z) (f : Q) : Z := (n * Qnum f) / Z.pos (Qden f).

Section HashTable.
Context {K V : Type} `{Countable K} `{Allocator} (_hash : K -> Z) (room : Z -> bool) (val0 : V).
Local Abbreviation heap := (gmap Z (htnode K V)).
Local Abbreviation HT := (HashTable K V).

Definition default_equals (key1 key2 : K) : bool := bool_decide (key1 = key2).

Definition deref (p : Z) (h : heap) : err (htnode K V) :=
  match h !! p with Some n => inr n | None => inl (UB "node") end.
Definition set_next (p q : Z) (h : heap) : err heap :=
  let? n := deref p h in inr (<[p := mkNode (first n) (second n) q]> h).
Definition set_second (p : Z) (v : V) (h : heap) : err heap :=
  let? n := deref p h in inr (<[p := mkNode (first n) v (next n)]> h).

Definition bucket (i : Z) (t : list Z) : err Z :=
  match lookupZ t i with Some p => inr p | None => inl (UB "table[index]") end.
Definition set_bucket (i p : Z) (t : list Z) : err (list Z) :=
  if (0 <=? i) && (i <? lenZ t) then inr (<[Z.to_nat i := p]> t) else inl (UB "table[index]").
Definition calloc_table (n : Z) : err (list Z) :=
  if room n then inr (replicate (Z.to_nat n) 0) else inl (AssertFail "bad alloc").
(** [_hash(key) % buckets]: a division by 0 when the table has no bucket. *)
Definition index_of (key : K) (t : HT) : err Z :=
  if buckets t =? 0 then inl (UB "% 0") else inr (_hash key mod buckets t).

Definition HashTable_new (h : heap) (initial_buckets : Z) (factor : Q) : err HT :=
  let? t := calloc_table initial_buckets in
  inr (mkTable h t 0 initial_buckets factor (scale initial_buckets factor)).

Definition with_nodes (h : heap) (t : HT) : HT :=
  mkTable h (table t) (_size t) (buckets t) (max_factor t) (threshold t).

(** The loops over a bucket's nodes: the node with the key or 0, and the last
    node before it. *)
Fixpoint scan (fuel : nat) (key : K) (node last : Z) (h : heap) : err (Z * Z) :=
  if node =? 0 then inr (0, last)
  else match fuel with
       | O => inl (NoReturn "bucket")
       | S fuel =>
           let? n := deref node h in
           if default_equals (first n) key then inr (node, last) else scan fuel key (next n) node h
       end.

(** The inner loop of [resize]: the nodes of an old bucket go to the front of
    their new buckets. *)
Fixpoint rehash_bucket (fuel : nat) (node : Z) (n : Z) (h : heap) (t : list Z) : err (heap * list Z) :=
  if node =? 0 then inr (h, t)
  else match fuel with
       | O => inl (NoReturn "resize")
       | S fuel =>
           let? nd := deref node h in
           let index := _hash (first nd) mod n in
           let? p := bucket index t in
           let? h := set_next node p h in
           let? t := set_bucket index node t in
           rehash_bucket fuel (next nd) n h t
       end.
Fixpoint rehash (fuel : nat) (old : list Z) (n : Z) (h : heap) (t : list Z) : err (heap * list Z) :=
  match old with
  | [] => inr (h, t)
  | node :: old => let? (h, t) := rehash_bucket fuel node n h t in rehash fuel old n h t
  end.
Definition resize (t : HT) : err HT :=
  if _size t <? threshold t then inr t
  else
    let n := u64 (Z.shiftl (buckets t) 1) in
    let? tb := calloc_table n in
    let? (h, tb) := rehash (size (nodes t)) (table t) n (nodes t) tb in
    inr (mkTable h tb (_size t) n (max_factor t) (scale n (max_factor t))).

(** A new node at the end of its bucket. *)
Definition append_node (key : K) (v : V) (index last : Z) (t : HT) : err (Z * HT) :=
  let? (node, h) := new_object (mkNode key v 0) (nodes t) in
  let? (h, tb) :=
    (if last =? 0 then let? tb := set_bucket index node (table t) in inr (h, tb)
     else let? h := set_next last node h in inr (h, table t)) in
  inr (node, mkTable h tb (u64 (_size t + 1)) (buckets t) (max_factor t) (threshold t)).

(** [operator[]]: the node whose [second] is referred to. *)
Definition subscript (key : K) (t : HT) : err (Z * HT) :=
  let? t := resize t in
  let? index := index_of key t in
  let? p := bucket index (table t) in
  let? (node, last) := scan (size (nodes t)) key p 0 (nodes t) in
  if node =? 0 then append_node key val0 index last t else inr (node, t).
(** [t[key]] read, and [t[key] = v]. *)
Definition get_sub (key : K) (t : HT) : err (V * HT) :=
  let? (node, t) := subscript key t in let? n := deref node (nodes t) in inr (second n, t).
Definition set_sub (key : K) (v : V) (t : HT) : err HT :=
  let? (node, t) := subscript key t in let? h := set_second node v (nodes t) in inr (with_nodes h t).

Definition at_ (key : K) (t : HT) : err (V * HT) :=
  let? t := resize t in
  let? index := index_of key t in
  let? p := bucket index (table t) in
  let? (node, _) := scan (size (nodes t)) key p 0 (nodes t) in
  if node =? 0 then inl Abort else let? n := deref node (nodes t) in inr (second n, t).

Definition emplace (key : K) (v : V) (t : HT) : err (iterator * bool * HT) :=
  let? t := resize t in
  let? index := index_of key t in
  let? p := bucket index (table t) in
  let? (node, last) := scan (size (nodes t)) key p 0 (nodes t) in
  if node =? 0 then
    let? (node, t) := append_node key v index last t in inr (mkIter node last index, true, t)
  else inr (mkIter node last index, false, t).
Definition try_emplace_val (key : K) (v : V) (t : HT) : err (iterator * bool * HT) := emplace key v t.
Definition try_emplace (key : K) (t : HT) : err (iterator * bool * HT) := emplace key val0 t.

Definition end_ (t : HT) : iterator := mkIter 0 0 (buckets t).
Definition find (key : K) (t : HT) : err iterator :=
  let? index := index_of key t in
  let? p := bucket index (table t) in
  let? (node, last) := scan (size (nodes t)) key p 0 (nodes t) in
  if node =? 0 then inr (end_ t) else inr (mkIter node last index).
(** [operator==] of iterators over the same table. *)
Definition iter_eqb (x y : iterator) : bool := (_node x =? _node y) && (_index x =? _index y).

(** The loop of [operator++]: the first node of the next bucket that has one. *)
Fixpoint next_bucket (fuel : nat) (node prev index : Z) (t : HT) : err iterator :=
  if negb (node =? 0) then inr (mkIter node prev index)
  else match fuel with
       | O => inl (NoReturn "operator++")
       | S fuel =>
           let index := u64 (index + 1) in
           if index <? buckets t then let? p := bucket index (table t) in next_bucket fuel p 0 index t
           else inr (mkIter 0 0 index)
       end.
Definition incr (it : iterator) (t : HT) : err iterator :=
  let? n := deref (_node it) (nodes t) in
  next_bucket (S (Z.to_nat (buckets t))) (next n) (_node it) (_index it) t.

Definition erase (pos : iterator) (t : HT) : err (iterator * HT) :=
  let size' := u64 (_size t - 1) in
  let? n := deref (_node pos) (nodes t) in
  let? (h, tb) :=
    (if negb (_prev pos =? 0) then let? h := set_next (_prev pos) (next n) (nodes t) in inr (h, table t)
     else let? tb := set_bucket (_index pos) (next n) (table t) in inr (nodes t, tb)) in
  let t := mkTable h tb size' (buckets t) (max_factor t) (threshold t) in
  let? it := incr pos t in
  inr (it, t).

Fixpoint begin_from (i : Z) (l : list Z) (t : HT) : iterator :=
  match l with
  | [] => end_ t
  | p :: l => if negb (p =? 0) then mkIter p 0 i else begin_from (i + 1) l t
  end.
Definition begin_ (t : HT) : iterator := begin_from 0 (table t) t.

(** [for (p : table)]: the pairs in the order of the iterator. *)
Fixpoint pairs_from (fuel : nat) (it : iterator) (t : HT) : err (list (K * V)) :=
  if iter_eqb it (end_ t) then inr []
  else match fuel with
       | O => inl (NoReturn "iterator")
       | S fuel =>
           let? n := deref (_node it) (nodes t) in
           let? it := incr it t in
           let? l := pairs_from fuel it t in
           inr ((first n, second n) :: l)
       end.
Definition pairs (t : HT) : err (list (K * V)) := pairs_from (size (nodes t)) (begin_ t) t.

Fixpoint clear_bucket (fuel : nat) (node : Z) (h : heap) : err heap :=
  if node =? 0 then inr h
  else match fuel with
       | O => inl (NoReturn "clear")
       | S fuel =>
           let? n := deref node h in
           let? h := delete_object node h in
           clear_bucket fuel (next n) h
       end.
Fixpoint clear_buckets (fuel : nat) (tb : list Z) (h : heap) : err heap :=
  match tb with
  | [] => inr h
  | p :: tb => let? h := clear_bucket fuel p h in clear_buckets fuel tb h
  end.
Definition clear (t : HT) : err HT :=
  let? h := clear_buckets (size (nodes t)) (table t) (nodes t) in
  inr (mkTable h ((fun _ => 0) <$> table t) 0 (buckets t) (max_factor t) (threshold t)).

(** The loop of the copy constructor and of [operator=]. *)
Fixpoint set_all (l : list (K * V)) (t : HT) : err HT :=
  match l with
  | [] => inr t
  | p :: l => let? t := set_sub p.1 p.2 t in set_all l t
  end.
Definition HashTable_copy (src : HT) : err HT :=
  let? tb := calloc_table (buckets src) in
  let? l := pairs src in
  set_all l (mkTable (nodes src) tb 0 (buckets src) (max_factor src) (threshold src)).
(** [t = src] for two tables of one space. *)
Definition assign (t src : HT) : err HT :=
  let? t := clear t in
  let? tb := calloc_table (buckets src) in
  let? l := pairs (with_nodes (nodes t) src) in
  set_all l (mkTable (nodes t) tb 0 (buckets src) (max_factor src) (threshold src)).

(** ** The nodes of a table *)

Local Abbreviation cell := (Z * (K * V))%type.
Definition keys_of (l : list cell) : list K := l.*2.*1.
Arguments keys_of : simpl never.
Lemma keys_of_cons a k v l : keys_of ((a, (k, v)) :: l) = k :: keys_of l.
Proof. done. Qed.
Lemma keys_of_app l1 l2 : keys_of (l1 ++ l2) = keys_of l1 ++ keys_of l2.
Proof. unfold keys_of. by rewrite !fmap_app. Qed.
Lemma in_keys_of k l : k ∈ keys_of l <-> exists a v, (a, (k, v)) ∈ l.
Proof.
  unfold keys_of. rewrite list_elem_of_fmap. split.
  - intros ([k' v] & -> & Hin). apply list_elem_of_fmap in Hin as ([a kv] & -> & Hin). by exists a, kv.2; destruct kv.
  - intros (a & v & Hin). exists (k, v). split; [done|]. apply list_elem_of_fmap. by exists (a, (k, v)).
Qed.
Definition last_of (d : Z) (l : list cell) : Z := default d (last l.*1).

(** [l] is linked from [p] to [q]. *)
Fixpoint seg (h : heap) (p : Z) (l : list cell) (q : Z) : Prop :=
  match l with
  | [] => p = q
  | (a, (k, v)) :: l => p = a /\ a <> 0 /\ exists n, h !! a = Some (mkNode k v n) /\ seg h n l q
  end.

Lemma seg_app h l1 l2 : forall p q, seg h p (l1 ++ l2) q <-> exists r, seg h p l1 r /\ seg h r l2 q.
Proof.
  induction l1 as [|[a [k v]] l1 IH]; intros p q; simpl; [split; [eauto|by intros (r & -> & ?)]|]. split.
  - intros (-> & Ha & n & Hn & (r & H1 & H2)%IH). eauto 10.
  - intros (r & (-> & Ha & n & Hn & H1) & H2). split; [done|]. split; [done|]. exists n. split; [done|]. apply IH. eauto.
Qed.

Lemma seg_frame h h' l : forall p q, (forall a, a ∈ l.*1 -> h' !! a = h !! a) -> seg h p l q -> seg h' p l q.
Proof.
  induction l as [|[a [k v]] l IH]; intros p q Hh; [done|]. intros (-> & Ha & n & Hn & Hl). simpl in Hh.
  split; [done|]. split; [done|]. exists n. rewrite Hh by set_solver. split; [done|]. apply IH; [|done]. set_solver.
Qed.

Lemma seg_alive h l : forall p q a, seg h p l q -> a ∈ l.*1 -> a <> 0 /\ is_Some (h !! a).
Proof.
  induction l as [|[b [k v]] l IH]; intros p q a; simpl; [set_solver|]. intros (_ & Hb & n & Hn & Hl) [->|Hin]%elem_of_cons.
  - split; [done|by eexists].
  - by eapply IH.
Qed.

(** The last node of a segment is linked elsewhere. *)
Lemma seg_relink h l a k v p q q' : seg h p (l ++ [(a, (k, v))]) q -> NoDup (l ++ [(a, (k, v))]).*1 ->
  seg (<[a := mkNode k v q']> h) p (l ++ [(a, (k, v))]) q'.
Proof.
  intros (r & H1 & -> & Ha & n & Hn & _)%seg_app Hnd. apply seg_app. exists a.
  rewrite fmap_app in Hnd. apply NoDup_app in Hnd as (_ & Hd & _). split.
  - eapply seg_frame; [|exact H1]. intros b Hb. apply lookup_insert_ne. intros ->. apply (Hd b Hb). set_solver.
  - split; [done|]. split; [done|]. exists q'. by rewrite lookup_insert_eq.
Qed.

Lemma node_in p h n : h !! p = Some n -> deref p h = inr n.
Proof. intros Hp. unfold deref. by rewrite Hp. Qed.
Lemma set_link_in p q h n : h !! p = Some n -> set_next p q h = inr (<[p := mkNode (first n) (second n) q]> h).
Proof. intros Hp. unfold set_next, deref. by rewrite Hp. Qed.

Lemma last_of_snoc d l a kv : last_of d (l ++ [(a, kv)]) = a.
Proof. unfold last_of. rewrite fmap_app. simpl. by rewrite last_snoc. Qed.
Lemma last_of_cons d a kv l : last_of d ((a, kv) :: l) = last_of a l.
Proof. unfold last_of. cbn [fmap list_fmap fst]. rewrite last_cons. by destruct (last l.*1). Qed.

Lemma scan_miss key l : forall fuel p d h, seg h p l 0 -> (length l <= fuel)%nat -> key ∉ keys_of l ->
  scan fuel key p d h = inr (0, last_of d l).
Proof.
  induction l as [|[a [k v]] l IH]; intros fuel p d h; [intros -> _ _; by destruct fuel|].
  intros (-> & Ha & n & Hn & Hl) Hf Hk. rewrite keys_of_cons in Hk. apply not_elem_of_cons in Hk as [Hne Hk].
  destruct fuel as [|fuel]; simpl in Hf; [lia|]. cbn [scan].
  rewrite (proj2 (Z.eqb_neq _ _)), (node_in _ _ _ Hn) by done. simpl. unfold default_equals.
  rewrite bool_decide_false by congruence. rewrite last_of_cons. apply IH; [done|lia|done].
Qed.

Lemma scan_hit key v l2 a l1 : forall fuel p d h, seg h p (l1 ++ (a, (key, v)) :: l2) 0 ->
  (length (l1 ++ (a, (key, v)) :: l2) <= fuel)%nat -> key ∉ keys_of l1 ->
  scan fuel key p d h = inr (a, last_of d l1).
Proof.
  induction l1 as [|[b [k w]] l1 IH]; intros fuel p d h; intros (-> & Ha & n & Hn & Hl) Hf Hk;
    (destruct fuel as [|fuel]; simpl in Hf; [lia|]); cbn [scan];
    rewrite (proj2 (Z.eqb_neq _ _)), (node_in _ _ _ Hn) by done; simpl; unfold default_equals.
  - by rewrite bool_decide_true.
  - rewrite keys_of_cons in Hk. apply not_elem_of_cons in Hk as [Hne Hk].
    rewrite bool_decide_false by congruence. rewrite last_of_cons. apply IH; [done|lia|done].
Qed.

(** ** The table as a whole *)

(** The chains [cs] hang at the buckets [tb]; a node is in the bucket of its key. *)
Record hung (h : heap) (tb : list Z) (cs : list (list cell)) : Prop := mkHung {
  hu_seg : Forall2 (fun p c => seg h p c 0) tb cs;
  hu_hash : forall i c a k v, cs !! i = Some c -> (a, (k, v)) ∈ c -> _hash k mod lenZ cs = Z.of_nat i
}.
(** The nodes and the keys are different. *)
Record distinct (l : list cell) : Prop := mkDistinct { di_addr : NoDup l.*1; di_keys : NoDup (keys_of l) }.

Record table_ok (h0 : heap) (t : HT) (cs : list (list cell)) : Prop := mkOk {
  k_hung : hung (nodes t) (table t) cs;
  k_distinct : distinct (concat cs);
  k_buckets : buckets t = lenZ cs /\ 1 <= buckets t < 2 ^ 60;
  k_size : _size t = u64 (lenZ (concat cs));
  k_others : forall p n, h0 !! p = Some n -> nodes t !! p = Some n /\ p ∉ (concat cs).*1
}.
Definition contents (cs : list (list cell)) : gmap K V := list_to_map ((concat cs).*2).
(** The table [t] holds the map [m] beside the nodes [h0] of other tables. *)
Definition stores (h0 : heap) (m : gmap K V) (t : HT) : Prop := exists cs, table_ok h0 t cs /\ contents cs = m.

Lemma distinct_perm l l' : l ≡ₚ l' -> distinct l -> distinct l'.
Proof. intros Hp [H1 H2]. constructor; [by rewrite <- Hp|]. unfold keys_of. by rewrite <- Hp. Qed.

Lemma concat_insert (cs : list (list cell)) i c : cs !! i = Some c ->
  exists rest, concat cs ≡ₚ c ++ rest /\ forall c', concat (<[i:=c']> cs) ≡ₚ c' ++ rest.
Proof.
  intros Hi. exists (concat (take i cs) ++ concat (drop (S i) cs)). apply lookup_lt_Some in Hi as Hlt. split.
  - rewrite <- (take_drop_middle cs i c Hi) at 1. rewrite concat_app. simpl. by rewrite Permutation_app_swap_app.
  - intros c'. rewrite insert_take_drop by done. rewrite concat_app. simpl. by rewrite Permutation_app_swap_app.
Qed.

Lemma hung_lookup h tb cs i c : hung h tb cs -> cs !! i = Some c -> exists p, tb !! i = Some p /\ seg h p c 0.
Proof. intros [Hs _] Hi. destruct (Forall2_lookup_r _ _ _ _ _ Hs Hi) as (p & Hp & Hc). eauto. Qed.

Lemma hung_length h tb cs : hung h tb cs -> lenZ tb = lenZ cs.
Proof. intros [Hs _]. unfold lenZ. by rewrite (Forall2_length _ _ _ Hs). Qed.

(** One bucket changes. *)
Lemma hung_update h h' tb cs (i : nat) c c' p' : hung h tb cs -> cs !! i = Some c -> seg h' p' c' 0 ->
  (forall j d a, j <> i -> cs !! j = Some d -> a ∈ d.*1 -> h' !! a = h !! a) ->
  (forall a k v, (a, (k, v)) ∈ c' -> _hash k mod lenZ cs = Z.of_nat i) ->
  hung h' (<[i:=p']> tb) (<[i:=c']> cs).
Proof.
  intros [Hs Hh] Hi Hc' Hfr Hk. constructor.
  - apply Forall2_same_length_lookup. rewrite !length_insert. split; [by eapply Forall2_length|].
    intros j p d Hp Hd. apply Forall2_same_length_lookup in Hs as [Hl Hs]. apply list_lookup_insert_Some in Hd as [(-> & <- & _)|[Hne Hd]].
    + by rewrite list_lookup_insert_eq in Hp by (rewrite Hl; by eapply lookup_lt_Some); injection Hp as <-.
    + rewrite list_lookup_insert_ne in Hp by done. eapply seg_frame; [|by eapply Hs]. intros a Ha. by eapply Hfr.
  - unfold lenZ in *. rewrite length_insert. intros j d a k v [(-> & <- & _)|[Hne Hd]]%list_lookup_insert_Some Hin; [by eapply Hk|by eapply Hh].
Qed.

Lemma in_concat (cs : list (list cell)) i c a kv : cs !! i = Some c -> (a, kv) ∈ c -> (a, kv) ∈ concat cs.
Proof. intros Hi Hin. destruct (concat_insert cs i c Hi) as (rest & -> & _). set_solver. Qed.

Lemma of_concat (cs : list (list cell)) x : x ∈ concat cs -> exists i c, cs !! i = Some c /\ x ∈ c.
Proof.
  induction cs as [|c cs IH]; simpl; [by intros ?%elem_of_nil|]. intros [Hx|(i & d & Hi & Hd)%IH]%elem_of_app.
  - by exists O, c.
  - by exists (S i), d.
Qed.

Lemma contents_Some cs k v : distinct (concat cs) -> contents cs !! k = Some v <-> exists a, (a, (k, v)) ∈ concat cs.
Proof.
  intros Hd. unfold contents. rewrite <- elem_of_list_to_map by apply Hd. rewrite list_elem_of_fmap. split.
  - intros ([a kv] & -> & Hin). by exists a.
  - intros (a & Hin). by exists (a, (k, v)).
Qed.

Lemma contents_None cs k : k ∉ keys_of (concat cs) -> contents cs !! k = None.
Proof. apply not_elem_of_list_to_map_1. Qed.

Lemma contents_perm cs l : distinct (concat cs) -> concat cs ≡ₚ l -> contents cs = list_to_map l.*2.
Proof. intros Hd Hp. apply list_to_map_proper; [apply Hd|by rewrite Hp]. Qed.

Lemma table_alive h0 t cs a kv : table_ok h0 t cs -> (a, kv) ∈ concat cs -> a <> 0 /\ is_Some (nodes t !! a).
Proof.
  intros Ht (i & c & Hi & Hin)%of_concat. destruct (hung_lookup _ _ _ _ _ (k_hung _ _ _ Ht) Hi) as (p & _ & Hs).
  eapply seg_alive; [exact Hs|]. apply list_elem_of_fmap. by exists (a, kv).
Qed.

Lemma table_length h0 t cs : table_ok h0 t cs -> (length (concat cs) <= size (nodes t))%nat.
Proof.
  intros Ht. rewrite <- (length_fmap fst), <- (size_list_to_set (C := gset Z) (concat cs).*1), <- (size_dom (D := gset Z)) by apply Ht.
  apply subseteq_size. intros p Hp%elem_of_list_to_set. apply list_elem_of_fmap in Hp as ([a kv] & -> & Hin).
  apply elem_of_dom. by eapply table_alive.
Qed.

(** The bucket of a key, and what the loop over it finds. *)
Record located (t : HT) (cs : list (list cell)) (key : K) (i : nat) (p : Z) (c : list cell) : Prop := mkLocated {
  lc_index : index_of key t = inr (Z.of_nat i) /\ _hash key mod lenZ cs = Z.of_nat i;
  lc_bucket : bucket (Z.of_nat i) (table t) = inr p /\ table t !! i = Some p;
  lc_chain : cs !! i = Some c /\ seg (nodes t) p c 0;
  lc_fuel : (length c <= size (nodes t))%nat
}.

Lemma locate h0 t cs key : table_ok h0 t cs -> exists i p c, located t cs key i p c.
Proof.
  intros Ht. destruct (k_buckets _ _ _ Ht) as [Hb Hpos].
  assert (0 <= _hash key mod lenZ cs < lenZ cs) as Hm by (apply Z.mod_pos_bound; lia).
  set (i := Z.to_nat (_hash key mod lenZ cs)). unfold lenZ in *.
  destruct (lookup_lt_is_Some_2 cs i ltac:(unfold i; lia)) as [c Hc].
  destruct (hung_lookup _ _ _ _ _ (k_hung _ _ _ Ht) Hc) as (p & Hp & Hs). exists i, p, c. constructor.
  - unfold index_of. rewrite (proj2 (Z.eqb_neq _ _)), Hb by lia. unfold i. rewrite Z2Nat.id by lia. done.
  - unfold bucket, lookupZ. rewrite (proj2 (Z.ltb_ge _ _)) by lia. by rewrite Nat2Z.id, Hp.
  - done.
  - etrans; [|by eapply table_length]. destruct (concat_insert cs i c Hc) as (rest & -> & _). rewrite length_app. lia.
Qed.

(** A key is in the chain of its bucket or nowhere. *)
Lemma locate_scan h0 t cs key i p c : table_ok h0 t cs -> located t cs key i p c ->
  (exists c1 a v c2, c = c1 ++ (a, (key, v)) :: c2 /\ contents cs !! key = Some v /\
     scan (size (nodes t)) key p 0 (nodes t) = inr (a, last_of 0 c1)) \/
  (key ∉ keys_of (concat cs) /\ contents cs !! key = None /\
     scan (size (nodes t)) key p 0 (nodes t) = inr (0, last_of 0 c)).
Proof.
  intros Ht [[_ Hm] _ [Hc Hs] Hf]. pose proof (k_distinct _ _ _ Ht) as Hd.
  destruct (concat_insert cs i c Hc) as (rest & Hp & _).
  destruct (decide (key ∈ keys_of c)) as [Hin|Hin].
  - left. apply in_keys_of in Hin as (a & v & Hin). apply list_elem_of_split in Hin as (c1 & c2 & ->).
    exists c1, a, v, c2. split; [done|]. split.
    + apply contents_Some; [done|]. exists a. rewrite Hp. set_solver.
    + eapply scan_hit; [exact Hs|done|]. apply (distinct_perm _ _ Hp) in Hd. destruct Hd as [_ Hk].
      rewrite <- app_assoc, keys_of_app in Hk. apply NoDup_app in Hk as (_ & Hk & _). intros Hk1.
      apply (Hk _ Hk1). rewrite <- app_comm_cons. rewrite keys_of_cons. set_solver.
  - right. assert (key ∉ keys_of (concat cs)) as Hno.
    { intros (a & v & Hk)%in_keys_of. apply of_concat in Hk as (j & d & Hj & Hk).
      pose proof (hu_hash _ _ _ (k_hung _ _ _ Ht) j d a key v Hj Hk) as Hjm. rewrite Hm in Hjm.
      assert (i = j) as -> by lia. rewrite Hc in Hj. injection Hj as ->. apply Hin.
      apply in_keys_of. by exists a, v. }
    split; [done|]. split; [by apply contents_None|]. by apply scan_miss.
Qed.

Lemma addr_in a kv (l : list cell) : (a, kv) ∈ l -> a ∈ l.*1.
Proof. intros Hin. apply list_elem_of_fmap. by exists (a, kv). Qed.

Lemma addr_alive h0 t cs a : table_ok h0 t cs -> a ∈ (concat cs).*1 -> a <> 0 /\ is_Some (nodes t !! a).
Proof. intros Ht ([b kv] & -> & Hin)%list_elem_of_fmap. by eapply table_alive. Qed.

Lemma chains_apart (cs : list (list cell)) i j c d a : distinct (concat cs) -> i <> j -> cs !! i = Some c -> cs !! j = Some d ->
  a ∈ c.*1 -> a ∉ d.*1.
Proof.
  intros Hd Hne Hi Hj Hc Hin. destruct (concat_insert cs i c Hi) as (rest & Hp & Hp').
  assert (<[i:=[]]> cs !! j = Some d) as Hj' by by rewrite list_lookup_insert_ne.
  apply (distinct_perm _ _ Hp) in Hd as [Hd _]. rewrite fmap_app in Hd. apply NoDup_app in Hd as (_ & Hd & _).
  apply (Hd a Hc). apply list_elem_of_fmap in Hin as ([b kv] & -> & Hb).
  pose proof (in_concat _ _ _ _ _ Hj' Hb) as Hb'. rewrite (Hp' []) in Hb'. by eapply addr_in.
Qed.

(** One bucket of a table changes: its nodes are old ones or new. *)
Lemma table_update h0 t cs (i : nat) c c' h' p' sz : table_ok h0 t cs -> cs !! i = Some c -> seg h' p' c' 0 ->
  (forall a n, a ∉ c.*1 -> nodes t !! a = Some n -> h' !! a = Some n) ->
  (forall a, a ∈ c'.*1 -> a ∈ c.*1 \/ nodes t !! a = None) ->
  (forall k, k ∈ keys_of c' -> _hash k mod lenZ cs = Z.of_nat i /\ (k ∈ keys_of c \/ k ∉ keys_of (concat cs))) ->
  distinct c' -> sz = u64 (lenZ (concat (<[i:=c']> cs))) ->
  table_ok h0 (mkTable h' (<[i:=p']> (table t)) sz (buckets t) (max_factor t) (threshold t)) (<[i:=c']> cs).
Proof.
  intros Ht Hi Hs Hfr Hnew Hk Hd' Hsz. destruct (concat_insert cs i c Hi) as (rest & Hp & Hp').
  pose proof (distinct_perm _ _ Hp (k_distinct _ _ _ Ht)) as [Da Dk]. rewrite fmap_app in Da. rewrite keys_of_app in Dk.
  apply NoDup_app in Da as (_ & Da & Dr). apply NoDup_app in Dk as (_ & Dk & Dkr).
  constructor; simpl.
  - eapply hung_update; [apply Ht|exact Hi|exact Hs| |].
    + intros j d a Hne Hj Ha. destruct (hung_lookup _ _ _ _ _ (k_hung _ _ _ Ht) Hj) as (q & _ & Hq).
      destruct (seg_alive _ _ _ _ _ Hq Ha) as [_ [n Hn]]. rewrite Hn. apply Hfr; [|done]. intros Hc.
      by apply (chains_apart cs i j c d a (k_distinct _ _ _ Ht)).
    + intros a k v Hin. apply Hk. apply in_keys_of. by exists a, v.
  - apply (distinct_perm (c' ++ rest)); [by rewrite Hp'|]. destruct Hd' as [D1 D2].
    constructor; [rewrite fmap_app|rewrite keys_of_app]; apply NoDup_app; (split; [done|split; [|done]]).
    + intros a Ha Hr. destruct (Hnew a Ha) as [Hc|Hn]; [by apply (Da a)|].
      destruct (addr_alive h0 t cs a Ht) as [_ [n Hn']]; [rewrite Hp, fmap_app; set_solver|congruence].
    + intros k Hkk Hr. destruct (Hk k Hkk) as [_ [Hc|Hn]]; [by apply (Dk k)|].
      apply Hn, in_keys_of. apply in_keys_of in Hr as (a & v & Hr). exists a, v. rewrite Hp. set_solver.
  - unfold lenZ. rewrite length_insert. apply Ht.
  - done.
  - intros q n Hq. destruct (k_others _ _ _ Ht q n Hq) as [Hn Hin]. rewrite Hp, fmap_app in Hin. split; [apply Hfr; set_solver|].
    rewrite Hp', fmap_app. intros [Hc|Hc]%elem_of_app; [|set_solver]. destruct (Hnew q Hc) as [?|?]; [set_solver|congruence].
Qed.

Lemma insert_same {B} (l : list B) i x : l !! i = Some x -> <[i:=x]> l = l.
Proof. apply list_insert_id. Qed.

Lemma set_bucket_in (i : nat) p tb q : tb !! i = Some q -> set_bucket (Z.of_nat i) p tb = inr (<[i:=p]> tb).
Proof.
  intros Hi%lookup_lt_Some. unfold set_bucket, lenZ.
  rewrite (proj2 (Z.leb_le _ _)), (proj2 (Z.ltb_lt _ _)) by lia. simpl. by rewrite Nat2Z.id.
Qed.

Lemma distinct_snoc l a k v : distinct l -> a ∉ l.*1 -> k ∉ keys_of l -> distinct (l ++ [(a, (k, v))]).
Proof.
  intros [D1 D2] Ha Hk. constructor; [rewrite fmap_app|rewrite keys_of_app]; apply NoDup_app; (split; [done|]).
  - split; [|apply NoDup_singleton]. simpl. intros x Hx ->%list_elem_of_singleton. done.
  - split; [|apply NoDup_singleton]. intros x Hx ->%list_elem_of_singleton. done.
Qed.

Lemma chain_distinct cs i c : distinct (concat cs) -> cs !! i = Some c -> distinct c.
Proof.
  intros Hd Hi. destruct (concat_insert cs i c Hi) as (rest & Hp & _). apply (distinct_perm _ _ Hp) in Hd as [D1 D2].
  rewrite fmap_app in D1. rewrite keys_of_app in D2. apply NoDup_app in D1 as [? _]. apply NoDup_app in D2 as [? _]. done.
Qed.

(** The iterator stands at the cell [x]. *)
Definition valid_iter (cs : list (list cell)) (it : iterator) (x : cell) : Prop :=
  exists i c1 c2, cs !! i = Some (c1 ++ x :: c2) /\ it = mkIter x.1 (last_of 0 c1) (Z.of_nat i).

(** What the table is after a new key. *)
Definition grown (h0 : heap) (m : gmap K V) (key : K) (v : V) (it : iterator) (t' : HT) : Prop :=
  exists cs', table_ok h0 t' cs' /\ contents cs' = <[key:=v]> m /\ valid_iter cs' it (_node it, (key, v)).

Lemma append_node_ok h0 t cs key v i p c : table_ok h0 t cs -> located t cs key i p c -> key ∉ keys_of (concat cs) ->
  may (append_node key v (Z.of_nat i) (last_of 0 c) t) (fun '(a, t') => a <> 0 /\ grown h0 (contents cs) key v (mkIter a (last_of 0 c) (Z.of_nat i)) t').
Proof.
  intros Ht Hl Hk. unfold append_node. eapply may_bind; [apply new_object_may|]. intros [a h] (Ha & Hn & ->).
  destruct Hl as [[Hi Hm] [Hb Hb'] [Hc Hs] Hf].
  pose proof (chain_distinct _ _ _ (k_distinct _ _ _ Ht) Hc) as Hcd.
  assert (a ∉ c.*1) as Hac by (intros Hin; destruct (seg_alive _ _ _ _ _ Hs Hin) as [_ [n ?]]; congruence).
  assert (key ∉ keys_of c) as Hkc.
  { intros (b & w & Hin)%in_keys_of. apply Hk, in_keys_of. exists b, w. by eapply in_concat. }
  assert (forall h' p', seg h' p' (c ++ [(a, (key, v))]) 0 ->
    (forall b n, b ∉ c.*1 -> nodes t !! b = Some n -> h' !! b = Some n) ->
    table_ok h0 (mkTable h' (<[i:=p']> (table t)) (u64 (_size t + 1)) (buckets t) (max_factor t) (threshold t))
      (<[i:=c ++ [(a, (key, v))]]> cs)) as Hup.
  { intros h' p' Hs' Hfr. eapply table_update; try done.
    - rewrite fmap_app. simpl. intros b [?| ->%list_elem_of_singleton]%elem_of_app; auto.
    - rewrite keys_of_app. intros k [Hin| ->%list_elem_of_singleton]%elem_of_app; [|auto]. split; [|by left].
      apply in_keys_of in Hin as (b & w & Hin). rewrite (hu_hash _ _ _ (k_hung _ _ _ Ht) i c b k w) by done. done.
    - by apply distinct_snoc.
    - destruct (concat_insert cs i c Hc) as (rest & Hp & Hp'). rewrite (k_size _ _ _ Ht). unfold lenZ.
      rewrite Hp, Hp', !length_app. simpl. unfold wrap. rewrite Zplus_mod_idemp_l. f_equal. lia. }
  assert (forall h' p', 
    table_ok h0 (mkTable h' (<[i:=p']> (table t)) (u64 (_size t + 1)) (buckets t) (max_factor t) (threshold t))
      (<[i:=c ++ [(a, (key, v))]]> cs) ->
    grown h0 (contents cs) key v (mkIter a (last_of 0 c) (Z.of_nat i))
      (mkTable h' (<[i:=p']> (table t)) (u64 (_size t + 1)) (buckets t) (max_factor t) (threshold t))) as Hgr.
  { intros h' p' Ht'. eexists. split; [exact Ht'|].
    destruct (concat_insert cs i c Hc) as (rest & Hp & Hp'). split.
    - rewrite (contents_perm cs (c ++ rest)) by (done || apply Ht).
      rewrite (contents_perm _ ((a, (key, v)) :: c ++ rest)); [done|apply Ht'|]. rewrite Hp', <- app_assoc.
      by rewrite Permutation_middle.
    - exists i, c, []. split; [|done]. apply list_lookup_insert_eq. by eapply lookup_lt_Some. }
  destruct (decide (c = [])) as [->|Hne].
  - simpl. rewrite (set_bucket_in _ _ _ _ Hb'). simpl. split; [done|]. apply Hgr, Hup; [|intros b n _ Hbn; rewrite lookup_insert_ne by congruence; done].
    split; [done|]. split; [done|]. exists 0. by rewrite lookup_insert_eq.
  - destruct (exists_last Hne) as (c1 & [b [k w]] & ->). rewrite last_of_snoc.
    pose proof Hs as (r & H1 & -> & Hb0 & nx & Hnx & Hz)%seg_app.
    rewrite (proj2 (Z.eqb_neq b 0)) by done.
    assert (a <> b) as Hab by (intros ->; apply Hac; rewrite fmap_app; set_solver).
    rewrite (set_link_in _ _ _ (mkNode k w nx)) by by rewrite lookup_insert_ne. simpl.
    rewrite <- (insert_same (table t) i p Hb'). split; [done|].
    rewrite <- (last_of_snoc 0 c1 b (k, w)) at 1. apply Hgr, Hup.
    + apply seg_app. exists a. split.
      * apply (seg_relink _ c1 b k w p 0); [|apply Hcd]. eapply seg_frame; [|exact Hs].
        intros x Hx. rewrite lookup_insert_ne; [done|]. intros ->. done.
      * split; [done|]. split; [done|]. exists 0. by rewrite lookup_insert_ne, lookup_insert_eq by done.
    + intros x n Hx Hn'. rewrite fmap_app in Hx. rewrite !lookup_insert_ne; [done|congruence|]. intros ->. apply Hx. set_solver.
Qed.

(** ** Rehashing *)

Lemma bucket_in (i : nat) tb p : tb !! i = Some p -> bucket (Z.of_nat i) tb = inr p.
Proof. intros Hi. unfold bucket, lookupZ. rewrite (proj2 (Z.ltb_ge _ _)) by lia. by rewrite Nat2Z.id, Hi. Qed.

(** The chains [l] and then [todo] are still to be moved into the new table. *)
Lemma rehash_bucket_ok l : forall fuel p h tb cs, seg h p l 0 -> hung h tb cs -> NoDup (l.*1 ++ (concat cs).*1) ->
  (length l <= fuel)%nat -> 0 < lenZ cs ->
  exists h' tb' cs', rehash_bucket fuel p (lenZ cs) h tb = inr (h', tb') /\ hung h' tb' cs' /\ lenZ cs' = lenZ cs /\
    concat cs' ≡ₚ l ++ concat cs /\ (forall a, a ∉ l.*1 -> h' !! a = h !! a).
Proof.
  induction l as [|[a [k v]] l IH]; intros fuel p h tb cs Hs Hh Hnd Hf Hpos.
  { simpl in Hs. subst p. exists h, tb, cs. split; [by destruct fuel|]. done. }
  destruct Hs as (-> & Ha & n & Hn & Hs). destruct fuel as [|fuel]; simpl in Hf; [lia|]. cbn [rehash_bucket].
  rewrite (proj2 (Z.eqb_neq _ _)), (node_in _ _ _ Hn) by done. simpl.
  simpl in Hnd. apply NoDup_cons in Hnd as [Hna Hnd].
  assert (0 <= _hash k mod lenZ cs < lenZ cs) as Hm by (apply Z.mod_pos_bound; lia).
  set (i := Z.to_nat (_hash k mod lenZ cs)). assert (_hash k mod lenZ cs = Z.of_nat i) as Hi by (unfold i; lia).
  destruct (lookup_lt_is_Some_2 cs i ltac:(unfold lenZ in *; lia)) as [c Hc].
  destruct (hung_lookup _ _ _ _ _ Hh Hc) as (q & Hq & Hcs).
  assert (forall b, b ∈ c.*1 -> b ∈ (concat cs).*1) as Hsub.
  { intros b Hb. destruct (concat_insert cs i c Hc) as (rest & -> & _). rewrite fmap_app. set_solver. }
  rewrite Hi, (bucket_in _ _ _ Hq). simpl. rewrite (set_link_in _ _ _ _ Hn). simpl. rewrite (set_bucket_in _ _ _ _ Hq). simpl.
  destruct (IH fuel n (<[a:=mkNode k v q]> h) (<[i:=a]> tb) (<[i:=(a, (k, v)) :: c]> cs)) as (h' & tb' & cs' & Hr & Hh' & Hl & Hp & Hfr).
  - eapply seg_frame; [|exact Hs]. intros b Hb. apply lookup_insert_ne. intros ->. set_solver.
  - eapply hung_update; [exact Hh|exact Hc| | |].
    + split; [done|]. split; [done|]. exists q. rewrite lookup_insert_eq. split; [done|].
      eapply seg_frame; [|exact Hcs]. intros b Hb. apply lookup_insert_ne. intros ->. apply Hna. apply elem_of_app. auto.
    + intros j d b Hne Hj Hb. apply lookup_insert_ne. intros ->. apply Hna, elem_of_app. right.
      destruct (concat_insert cs j d Hj) as (rest & -> & _). rewrite fmap_app. set_solver.
    + intros b k' v' [[= -> -> ->]|Hin]%elem_of_cons; [done|]. by eapply (hu_hash _ _ _ Hh).
  - destruct (concat_insert cs i c Hc) as (rest & Hp & Hp'). rewrite Hp'. simpl.
    rewrite <- Hp, <- Permutation_middle. by apply NoDup_cons.
  - lia.
  - unfold lenZ in *. by rewrite length_insert.
  - unfold lenZ in Hr, Hl. rewrite length_insert in Hr, Hl. exists h', tb', cs'. split; [exact Hr|]. split; [done|]. split; [done|]. split.
    + rewrite Hp. destruct (concat_insert cs i c Hc) as (rest & Hp1 & Hp2). rewrite Hp2, Hp1. simpl. by rewrite <- Permutation_middle.
    + simpl. intros b Hb. rewrite Hfr by set_solver. apply lookup_insert_ne. set_solver.
Qed.

Lemma segs_frame h h' old os : Forall2 (fun p c => seg h p c 0) old os -> (forall a, a ∈ (concat os).*1 -> h' !! a = h !! a) ->
  Forall2 (fun p c => seg h' p c 0) old os.
Proof.
  induction 1 as [|p c old os Hs Hss IH]; intros Hh; constructor; simpl in Hh; rewrite fmap_app in Hh.
  - eapply seg_frame; [|exact Hs]. set_solver.
  - apply IH. set_solver.
Qed.

Lemma rehash_ok os : forall fuel old h tb cs, Forall2 (fun p c => seg h p c 0) old os -> hung h tb cs ->
  NoDup ((concat os).*1 ++ (concat cs).*1) -> (length (concat os) <= fuel)%nat -> 0 < lenZ cs ->
  exists h' tb' cs', rehash fuel old (lenZ cs) h tb = inr (h', tb') /\ hung h' tb' cs' /\ lenZ cs' = lenZ cs /\
    concat cs' ≡ₚ concat os ++ concat cs /\ (forall a, a ∉ (concat os).*1 -> h' !! a = h !! a).
Proof.
  induction os as [|l os IH]; intros fuel old h tb cs Hs Hh Hnd Hf Hpos.
  { apply Forall2_nil_inv_r in Hs as ->. by exists h, tb, cs. }
  apply Forall2_cons_inv_r in Hs as (p & old' & Hs & Hss & ->). simpl in Hnd, Hf. rewrite length_app in Hf.
  rewrite fmap_app, <- app_assoc in Hnd. cbn [rehash].
  assert (NoDup (l.*1 ++ (concat cs).*1)) as Hnd1.
  { rewrite (Permutation_app_comm (concat os).*1), app_assoc in Hnd. by apply NoDup_app in Hnd as [? _]. }
  destruct (rehash_bucket_ok l fuel p h tb cs Hs Hh Hnd1 ltac:(lia) Hpos) as (h1 & tb1 & cs1 & -> & Hh1 & Hl1 & Hp1 & Hfr1).
  simpl. rewrite <- Hl1 in Hpos |- *. pose proof Hnd as (_ & Hdis & _)%NoDup_app.
  destruct (IH fuel old' h1 tb1 cs1) as (h2 & tb2 & cs2 & -> & Hh2 & Hl2 & Hp2 & Hfr2); [|done| |lia|done|].
  - eapply segs_frame; [exact Hss|]. intros a Ha. apply Hfr1. intros Hl. apply (Hdis a Hl). set_solver.
  - rewrite Hp1, fmap_app, app_assoc, (Permutation_app_comm _ l.*1), <- app_assoc. done.
  - exists h2, tb2, cs2. split; [done|]. split; [done|]. split; [done|]. split.
    + rewrite Hp2, Hp1. simpl. by rewrite app_assoc, (Permutation_app_comm _ l), <- app_assoc.
    + intros a Ha. simpl in Ha. rewrite fmap_app in Ha. rewrite Hfr2, Hfr1 by set_solver. done.
Qed.

(** Empty chains at all buckets. *)
Lemma hung_empty h n : hung h (replicate n 0) (replicate n []).
Proof.
  constructor.
  - apply Forall2_replicate. done.
  - intros i c a k v [-> _]%lookup_replicate Hin. by apply elem_of_nil in Hin.
Qed.
Lemma concat_empty n : concat (replicate n (@nil cell)) = [].
Proof. by induction n. Qed.

Hypothesis room_bound : forall n, room n = true -> 1 <= n < 2 ^ 60.

Lemma resize_ok h0 t cs : table_ok h0 t cs ->
  may (resize t) (fun t' => exists cs', table_ok h0 t' cs' /\ contents cs' = contents cs).
Proof.
  intros Ht. unfold resize. case_if; [by exists cs|]. destruct (k_buckets _ _ _ Ht) as [Hb Hpos].
  rewrite Z.shiftl_mul_pow2 by lia. change (2 ^ 1) with 2. rewrite wrap_small by lia.
  unfold calloc_table. destruct (room (buckets t * 2)) eqn:Er; simpl; [|done]. apply room_bound in Er.
  set (n := Z.to_nat (buckets t * 2)). assert (lenZ (replicate n (@nil cell)) = buckets t * 2) as Hn
    by (unfold lenZ; rewrite length_replicate; unfold n; lia).
  pose proof (k_distinct _ _ _ Ht) as [Da Dk].
  destruct (rehash_ok cs (size (nodes t)) (table t) (nodes t) (replicate n 0) (replicate n []))
    as (h' & tb' & cs' & Hr & Hh & Hl & Hp & Hfr).
  - apply Ht.
  - apply hung_empty.
  - rewrite concat_empty. by rewrite app_nil_r.
  - by eapply table_length.
  - lia.
  - rewrite Hn in Hr. rewrite Hr. simpl. rewrite concat_empty, app_nil_r in Hp. exists cs'. split.
    + constructor; simpl; [done| |lia| |].
      * apply (distinct_perm (concat cs)); [by rewrite Hp|apply Ht].
      * unfold lenZ. rewrite Hp. apply Ht.
      * intros p nd Hpn. destruct (k_others _ _ _ Ht p nd Hpn) as [H1 H2]. rewrite Hfr, Hp by done. done.
    + apply contents_perm; [|done]. apply (distinct_perm (concat cs)); [by rewrite Hp|apply Ht].
Qed.

(** ** The operations *)

Lemma seg_node h l1 a k v l2 : forall p q, seg h p (l1 ++ (a, (k, v)) :: l2) q ->
  a <> 0 /\ exists n, h !! a = Some (mkNode k v n) /\ seg h n l2 q.
Proof. intros p q (r & _ & -> & Ha & n & Hn & Hs)%seg_app. eauto. Qed.

Lemma iter_node h0 t cs it a k v : table_ok h0 t cs -> valid_iter cs it (a, (k, v)) ->
  _node it = a /\ a <> 0 /\ contents cs !! k = Some v /\ exists n, nodes t !! a = Some (mkNode k v n).
Proof.
  intros Ht (i & c1 & c2 & Hi & ->). destruct (hung_lookup _ _ _ _ _ (k_hung _ _ _ Ht) Hi) as (p & _ & Hs).
  destruct (seg_node _ _ _ _ _ _ _ _ Hs) as (Ha & n & Hn & _). split; [done|]. split; [done|]. split; [|by exists n].
  apply contents_Some; [apply Ht|]. exists a. eapply in_concat; [exact Hi|]. set_solver.
Qed.

(** A bucket's list where one cell is replaced by [c']. *)
Lemma keys_after (l1 l2 : list cell) a k v : distinct (l1 ++ (a, (k, v)) :: l2) ->
  a ∉ l1.*1 /\ a ∉ l2.*1 /\ k ∉ keys_of l1 /\ k ∉ keys_of l2 /\ distinct (l1 ++ l2).
Proof.
  intros [D1 D2]. rewrite <- Permutation_middle in D1. unfold keys_of in D2. rewrite <- Permutation_middle in D2.
  simpl in D1, D2. apply NoDup_cons in D1 as [N1 D1]. apply NoDup_cons in D2 as [N2 D2].
  change (k ∉ keys_of (l1 ++ l2)) in N2. rewrite fmap_app in N1. rewrite keys_of_app in N2.
  split; [set_solver|]. split; [set_solver|]. split; [intros ?; apply N2, elem_of_app; auto|].
  split; [intros ?; apply N2, elem_of_app; auto|]. done.
Qed.

(** Writing through [node->second]. *)
Lemma second_ok h0 t cs it a k v v' : table_ok h0 t cs -> valid_iter cs it (a, (k, v)) ->
  may (let? h := set_second a v' (nodes t) in inr (with_nodes h t)) (stores h0 (<[k:=v']> (contents cs))).
Proof.
  intros Ht (i & c1 & c2 & Hi & ->). destruct (hung_lookup _ _ _ _ _ (k_hung _ _ _ Ht) Hi) as (p & Hp & Hs).
  pose proof Hs as (r & H1 & -> & Ha & n & Hn & H2)%seg_app.
  pose proof (chain_distinct _ _ _ (k_distinct _ _ _ Ht) Hi) as Hcd. destruct (keys_after _ _ _ _ _ Hcd) as (A1 & A2 & K1 & K2 & _).
  unfold set_second. rewrite (node_in _ _ _ Hn). simpl. unfold with_nodes.
  rewrite <- (insert_same (table t) i p Hp). destruct (concat_insert cs i _ Hi) as (rest & Hp1 & Hp2).
  assert (table_ok h0 (mkTable (<[a:=mkNode k v' n]> (nodes t)) (<[i:=p]> (table t)) (_size t) (buckets t) (max_factor t) (threshold t))
    (<[i:=c1 ++ (a, (k, v')) :: c2]> cs)) as Ht'.
  { assert ((c1 ++ (a, (k, v')) :: c2).*1 = (c1 ++ (a, (k, v)) :: c2).*1) as E1 by by rewrite !fmap_app.
    assert (keys_of (c1 ++ (a, (k, v')) :: c2) = keys_of (c1 ++ (a, (k, v)) :: c2)) as E2 by by rewrite !keys_of_app, !keys_of_cons.
    eapply table_update; try done.
    - apply seg_app. exists a. split; [|split; [done|split; [done|]]].
      + eapply seg_frame; [|exact H1]. intros b Hb. apply lookup_insert_ne. by intros ->.
      + exists n. rewrite lookup_insert_eq. split; [done|]. eapply seg_frame; [|exact H2]. intros b Hb. apply lookup_insert_ne. by intros ->.
    - intros b nd Hb Hnd. rewrite lookup_insert_ne; [done|]. intros ->. apply Hb. rewrite fmap_app. set_solver.
    - rewrite E1. auto.
    - rewrite E2. intros k' Hk'. split; [|by left]. apply in_keys_of in Hk' as (b & w & Hin).
      by apply (hu_hash _ _ _ (k_hung _ _ _ Ht) i _ b k' w Hi).
    - constructor; [rewrite E1|rewrite E2]; apply Hcd.
    - rewrite (k_size _ _ _ Ht). unfold lenZ. by rewrite Hp1, Hp2, !length_app. }
  eexists. split; [exact Ht'|].
  rewrite (contents_perm cs ((a, (k, v)) :: (c1 ++ c2) ++ rest)); [|apply Ht|by rewrite Hp1, <- Permutation_middle].
  rewrite (contents_perm _ ((a, (k, v')) :: (c1 ++ c2) ++ rest)); [|apply Ht'|by rewrite Hp2, <- Permutation_middle].
  simpl. by rewrite insert_insert_eq.
Qed.

(** The bucket loop and the new node, as [operator[]] and [emplace] run them. *)
Lemma find_or_append h0 t cs key v : table_ok h0 t cs ->
  may (let? index := index_of key t in
       let? p := bucket index (table t) in
       let? (node, last) := scan (size (nodes t)) key p 0 (nodes t) in
       if node =? 0 then let? (node, t) := append_node key v index last t in inr (mkIter node last index, true, t)
       else inr (mkIter node last index, false, t))
    (fun '(it, new, t') => new = bool_decide (contents cs !! key = None) /\ _node it <> 0 /\
       exists cs', table_ok h0 t' cs' /\ contents cs' = <[key := default v (contents cs !! key)]> (contents cs) /\
         valid_iter cs' it (_node it, (key, default v (contents cs !! key)))).
Proof.
  intros Ht. destruct (locate _ _ _ key Ht) as (i & p & c & Hl). rewrite (proj1 (lc_index _ _ _ _ _ _ Hl)). cbn [ebind].
  rewrite (proj1 (lc_bucket _ _ _ _ _ _ Hl)). cbn [ebind].
  destruct (locate_scan _ _ _ _ _ _ _ Ht Hl) as [(c1 & a & w & c2 & -> & Hw & ->)|(Hno & Hnone & ->)]; cbn [ebind].
  - destruct (lc_chain _ _ _ _ _ _ Hl) as [Hc Hs]. destruct (seg_node _ _ _ _ _ _ _ _ Hs) as (Ha & _).
    rewrite (proj2 (Z.eqb_neq _ _)) by done. simpl. rewrite Hw, bool_decide_false by done. split; [done|]. split; [done|].
    exists cs. split; [done|]. simpl. split; [by rewrite insert_id|]. by exists i, c1, c2.
  - rewrite Z.eqb_refl, Hnone, bool_decide_true by done. eapply may_bind; [by eapply append_node_ok|].
    intros [a t'] (Ha & cs' & Ht' & Hc' & Hit). simpl. split; [done|]. split; [done|]. exists cs'. done.
Qed.

Lemma emplace_ok h0 m t key v : stores h0 m t ->
  may (emplace key v t) (fun '(it, new, t') => new = bool_decide (m !! key = None) /\ _node it <> 0 /\
    exists cs', table_ok h0 t' cs' /\ contents cs' = <[key := default v (m !! key)]> m /\
      valid_iter cs' it (_node it, (key, default v (m !! key)))).
Proof.
  intros (cs & Ht & <-). unfold emplace. eapply may_bind; [by apply resize_ok|]. intros t' (cs' & Ht' & <-).
  by eapply find_or_append.
Qed.

Lemma subscript_emplace key t :
  subscript key t = let? (it, _, t) := emplace key val0 t in inr (_node it, t).
Proof.
  unfold subscript, emplace. destruct (resize t) as [e|t1]; [done|]. simpl.
  destruct (index_of key t1) as [e|i]; [done|]. simpl. destruct (bucket i _) as [e|p]; [done|]. simpl.
  destruct (scan _ _ _ _ _) as [e|[node last]]; [done|]. simpl. case_if; [|done].
  by destruct (append_node _ _ _ _ _) as [e|[a t2]].
Qed.

Lemma get_sub_ok h0 m t key : stores h0 m t ->
  may (get_sub key t) (fun '(v, t') => v = default val0 (m !! key) /\ stores h0 (<[key := v]> m) t').
Proof.
  intros Ht. unfold get_sub. rewrite subscript_emplace.
  eapply (may_bind _ (fun '(node, t') => exists it cs', node = _node it /\ table_ok h0 t' cs' /\
    contents cs' = <[key := default val0 (m !! key)]> m /\ valid_iter cs' it (_node it, (key, default val0 (m !! key))))).
  - eapply may_bind; [by apply emplace_ok|]. intros [[it new] t'] (_ & _ & cs' & ? & ? & ?). simpl. by exists it, cs'.
  - intros [node t'] (it & cs' & -> & Ht' & Hc & Hit). destruct (iter_node _ _ _ _ _ _ _ Ht' Hit) as (_ & _ & _ & n & Hn).
    rewrite (node_in _ _ _ Hn). simpl. split; [done|]. by exists cs'.
Qed.

Lemma set_sub_ok h0 m t key v : stores h0 m t -> may (set_sub key v t) (stores h0 (<[key := v]> m)).
Proof.
  intros Ht. unfold set_sub. rewrite subscript_emplace.
  eapply (may_bind _ (fun '(node, t') => exists it cs', node = _node it /\ table_ok h0 t' cs' /\
    contents cs' = <[key := default val0 (m !! key)]> m /\ valid_iter cs' it (_node it, (key, default val0 (m !! key))))).
  - eapply may_bind; [by apply emplace_ok|]. intros [[it new] t'] (_ & _ & cs' & ? & ? & ?). simpl. by exists it, cs'.
  - intros [node t'] (it & cs' & -> & Ht' & Hc & Hit). eapply may_mono; [by eapply second_ok|].
    intros t2. by rewrite Hc, insert_insert_eq.
Qed.

Lemma at_ok h0 m t key v : stores h0 m t -> m !! key = Some v ->
  may (at_ key t) (fun '(w, t') => w = v /\ stores h0 m t').
Proof.
  intros (cs & Ht & <-) Hv. unfold at_. eapply may_bind; [by apply resize_ok|]. intros t' (cs' & Ht' & Hc).
  rewrite <- Hc in Hv. destruct (locate _ _ _ key Ht') as (i & p & c & Hl). rewrite (proj1 (lc_index _ _ _ _ _ _ Hl)). cbn [ebind].
  rewrite (proj1 (lc_bucket _ _ _ _ _ _ Hl)). cbn [ebind].
  destruct (locate_scan _ _ _ _ _ _ _ Ht' Hl) as [(c1 & a & w & c2 & -> & Hw & ->)|(_ & Hnone & _)]; [|congruence].
  destruct (lc_chain _ _ _ _ _ _ Hl) as [_ Hs]. destruct (seg_node _ _ _ _ _ _ _ _ Hs) as (Ha & n & Hn & _). cbn [ebind].
  rewrite (proj2 (Z.eqb_neq _ _)), (node_in _ _ _ Hn) by done. simpl. split; [congruence|]. by exists cs'.
Qed.

(** [abort()] *)
Lemma at_missing h0 m t key : stores h0 m t -> m !! key = None ->
  at_ key t = inl Abort \/ at_ key t = inl (AssertFail "bad alloc").
Proof.
  intros (cs & Ht & <-) Hv. unfold at_. pose proof (resize_ok _ _ _ Ht) as Hr.
  destruct (resize t) as [e|t']; simpl in *; [right; by rewrite Hr|]. left. destruct Hr as (cs' & Ht' & Hc).
  rewrite <- Hc in Hv. destruct (locate _ _ _ key Ht') as (i & p & c & Hl). rewrite (proj1 (lc_index _ _ _ _ _ _ Hl)). cbn [ebind].
  rewrite (proj1 (lc_bucket _ _ _ _ _ _ Hl)). cbn [ebind].
  by destruct (locate_scan _ _ _ _ _ _ _ Ht' Hl) as [(c1 & a & w & c2 & -> & Hw & _)|(_ & _ & ->)]; [congruence|].
Qed.

Lemma find_ok h0 t cs key : table_ok h0 t cs -> exists it, find key t = inr it /\
  match contents cs !! key with
  | Some v => _node it <> 0 /\ valid_iter cs it (_node it, (key, v))
  | None => it = end_ t
  end.
Proof.
  intros Ht. unfold find. destruct (locate _ _ _ key Ht) as (i & p & c & Hl). rewrite (proj1 (lc_index _ _ _ _ _ _ Hl)). cbn [ebind].
  rewrite (proj1 (lc_bucket _ _ _ _ _ _ Hl)). cbn [ebind].
  destruct (locate_scan _ _ _ _ _ _ _ Ht Hl) as [(c1 & a & w & c2 & -> & -> & ->)|(_ & -> & ->)]; cbn [ebind].
  - destruct (lc_chain _ _ _ _ _ _ Hl) as [Hc Hs]. destruct (seg_node _ _ _ _ _ _ _ _ Hs) as (Ha & _).
    rewrite (proj2 (Z.eqb_neq _ _)) by done. eexists. split; [done|]. split; [done|]. by exists i, c1, c2.
  - rewrite Z.eqb_refl. by eexists.
Qed.

(** ** Iterators *)

(** The cells [l] are still to come at the iterator. *)
Definition points (t : HT) (cs : list (list cell)) (it : iterator) (l : list cell) : Prop :=
  (l = [] /\ it = end_ t) \/
  (exists i c1 c2 x, cs !! i = Some (c1 ++ x :: c2) /\ _node it = x.1 /\ _index it = Z.of_nat i /\
     l = x :: c2 ++ concat (drop (S i) cs)).

Lemma next_bucket_ok h0 t cs fuel : forall (i : nat) c1 c2 n prev, table_ok h0 t cs -> cs !! i = Some (c1 ++ c2) ->
  seg (nodes t) n c2 0 -> (length cs - i < fuel)%nat ->
  exists it, next_bucket fuel n prev (Z.of_nat i) t = inr it /\ points t cs it (c2 ++ concat (drop (S i) cs)).
Proof.
  induction fuel as [|fuel IH]; intros i c1 c2 n prev Ht Hi Hs Hf; [lia|]. cbn [next_bucket].
  destruct c2 as [|[a [k v]] c2].
  - simpl in Hs. subst n. rewrite Z.eqb_refl. simpl. destruct (k_buckets _ _ _ Ht) as [Hb Hb2].
    apply lookup_lt_Some in Hi as Hlt. unfold lenZ in Hb. rewrite wrap_small by lia. case_if.
    + destruct (lookup_lt_is_Some_2 cs (S i) ltac:(lia)) as [c Hc].
      destruct (hung_lookup _ _ _ _ _ (k_hung _ _ _ Ht) Hc) as (p & Hp & Hs).
      replace (Z.of_nat i + 1) with (Z.of_nat (S i)) by lia. rewrite (bucket_in _ _ _ Hp). simpl.
      destruct (IH (S i) [] c p 0 Ht Hc Hs ltac:(lia)) as (it & Hr & Hpt). exists it. split; [exact Hr|].
      by rewrite (drop_S cs c (S i) Hc).
    + eexists. split; [done|]. left. rewrite drop_ge by lia. split; [done|]. unfold end_. f_equal. lia.
  - destruct Hs as (-> & Ha & nx & Hn & Hs). rewrite (proj2 (Z.eqb_neq _ _)) by done. simpl. eexists. split; [done|].
    right. by exists i, c1, c2, (a, (k, v)).
Qed.

Lemma points_incr h0 t cs it x l : table_ok h0 t cs -> points t cs it (x :: l) ->
  _node it = x.1 /\ x.1 <> 0 /\ (exists n, nodes t !! x.1 = Some (mkNode x.2.1 x.2.2 n)) /\
  exists it', incr it t = inr it' /\ points t cs it' l.
Proof.
  intros Ht [[? _]|(i & c1 & c2 & y & Hi & Hnode & Hidx & [= <- ->])]; [done|].
  destruct (hung_lookup _ _ _ _ _ (k_hung _ _ _ Ht) Hi) as (p & _ & Hs). destruct x as [a [k v]].
  destruct (seg_node _ _ _ _ _ _ _ _ Hs) as (Ha & n & Hn & Hs2). split; [done|]. split; [done|]. split; [by exists n|].
  simpl in Hnode. unfold incr. rewrite Hnode, (node_in _ _ _ Hn), Hidx. cbn [ebind].
  assert (c1 ++ (a, (k, v)) :: c2 = (c1 ++ [(a, (k, v))]) ++ c2) as E by by rewrite <- app_assoc. rewrite E in Hi.
  eapply next_bucket_ok; [exact Ht|exact Hi|exact Hs2|]. destruct (k_buckets _ _ _ Ht) as [Hb _]. unfold lenZ in Hb. lia.
Qed.

Lemma begin_from_points t cs tb cs2 : Forall2 (fun p c => seg (nodes t) p c 0) tb cs2 -> forall i : nat, drop i cs = cs2 ->
  points t cs (begin_from (Z.of_nat i) tb t) (concat cs2).
Proof.
  induction 1 as [|p c tb cs2 Hp Hs IH]; intros i Hd; simpl; [by left|].
  assert (cs !! i = Some c) as Hi by (rewrite <- (Nat.add_0_r i), <- lookup_drop, Hd; done).
  assert (drop (S i) cs = cs2) as Hd' by (rewrite (drop_S _ _ _ Hi) in Hd; by injection Hd).
  destruct c as [|[a [k v]] c].
  - simpl in Hp. subst p. simpl. replace (Z.of_nat i + 1) with (Z.of_nat (S i)) by lia. by apply IH.
  - destruct Hp as (-> & Ha & n & Hn & _). rewrite (proj2 (Z.eqb_neq _ _)) by done. simpl. right.
    exists i, [], c, (a, (k, v)). by rewrite Hd'.
Qed.

Lemma begin_points h0 t cs : table_ok h0 t cs -> points t cs (begin_ t) (concat cs).
Proof. intros Ht. by apply (begin_from_points t cs (table t) cs (hu_seg _ _ _ (k_hung _ _ _ Ht)) 0%nat). Qed.

Lemma pairs_from_ok h0 t cs l : forall fuel it, table_ok h0 t cs -> points t cs it l -> (length l <= fuel)%nat ->
  pairs_from fuel it t = inr l.*2.
Proof.
  induction l as [|x l IH]; intros fuel it Ht Hp Hf.
  - destruct Hp as [[_ ->]|(i & c1 & c2 & x & _ & _ & _ & ?)]; [|done].
    destruct fuel; cbn [pairs_from]; unfold iter_eqb; by rewrite !Z.eqb_refl.
  - destruct fuel as [|fuel]; simpl in Hf; [lia|]. cbn [pairs_from].
    destruct (points_incr _ _ _ _ _ _ Ht Hp) as (Hnode & Hx & [n Hn] & it' & -> & Hp').
    unfold iter_eqb, end_. simpl. rewrite (proj2 (Z.eqb_neq _ 0)) by congruence. simpl. rewrite Hnode, (node_in _ _ _ Hn). simpl.
    rewrite (IH fuel it' Ht Hp') by lia. simpl. by destruct x as [a [k v]].
Qed.

Lemma pairs_ok h0 t cs : table_ok h0 t cs -> pairs t = inr (concat cs).*2.
Proof. intros Ht. eapply pairs_from_ok; [exact Ht|by eapply begin_points|by eapply table_length]. Qed.

(** The table after the node [a] is taken out of its chain, and the iterator after it. *)
Lemma unlink_ok h0 t cs (i : nat) c1 a k v n c2 h' p' pv : table_ok h0 t cs -> cs !! i = Some (c1 ++ (a, (k, v)) :: c2) ->
  seg h' p' (c1 ++ c2) 0 -> h' !! a = Some (mkNode k v n) -> seg h' n c2 0 ->
  (forall b nd, b ∉ (c1 ++ (a, (k, v)) :: c2).*1 -> nodes t !! b = Some nd -> h' !! b = Some nd) ->
  let t' := mkTable h' (<[i:=p']> (table t)) (u64 (_size t - 1)) (buckets t) (max_factor t) (threshold t) in
  exists it' cs' l, incr (mkIter a pv (Z.of_nat i)) t' = inr it' /\
    table_ok h0 t' cs' /\ contents cs' = delete k (contents cs) /\ points t' cs' it' l.
Proof.
  intros Ht Hi Hs' Hna Hsn Hfr t'. destruct (concat_insert cs i _ Hi) as (rest & Hp1 & Hp2). pose proof (lookup_lt_Some _ _ _ Hi) as Hlt.
  pose proof (chain_distinct _ _ _ (k_distinct _ _ _ Ht) Hi) as Hcd. destruct (keys_after _ _ _ _ _ Hcd) as (A1 & A2 & K1 & K2 & Hd12).
  assert (table_ok h0 t' (<[i:=c1 ++ c2]> cs)) as Ht'.
  { eapply table_update; try done.
    - rewrite !fmap_app. simpl. intros b Hb. left. set_solver.
    - rewrite keys_of_app. intros k' Hk'.
      assert (k' ∈ keys_of (c1 ++ (a, (k, v)) :: c2)) as Hin.
      { rewrite keys_of_app, keys_of_cons. apply elem_of_app in Hk' as [?|?]; apply elem_of_app; [by left|right].
        apply elem_of_cons. by right. }
      split; [|by left]. apply in_keys_of in Hin as (b & w & Hin). by apply (hu_hash _ _ _ (k_hung _ _ _ Ht) i _ b k' w Hi).
    - rewrite (k_size _ _ _ Ht). unfold lenZ. rewrite Hp1, Hp2, !length_app. simpl. unfold wrap.
      rewrite Zminus_mod_idemp_l. f_equal. lia. }
  unfold incr. cbn [_node]. change (nodes t') with h'. rewrite (node_in a h' _ Hna). cbn [ebind next _prev _index].
  destruct (next_bucket_ok h0 t' (<[i:=c1 ++ c2]> cs) (S (Z.to_nat (buckets t'))) i c1 c2 n a Ht') as (it' & Hr & Hpt);
    [by apply list_lookup_insert_eq|exact Hsn| |].
  { destruct (k_buckets _ _ _ Ht) as [Hb _]. simpl. rewrite Hb, length_insert. unfold lenZ. lia. }
  rewrite Hr. eexists it', _, _. split; [done|]. split; [exact Ht'|]. split; [|exact Hpt].
  rewrite (contents_perm cs ((a, (k, v)) :: (c1 ++ c2) ++ rest)); [|apply Ht|by rewrite Hp1, <- Permutation_middle].
  rewrite (contents_perm _ ((c1 ++ c2) ++ rest)); [|apply Ht'|by rewrite Hp2]. simpl. rewrite delete_insert_eq.
  rewrite delete_id; [done|]. apply not_elem_of_list_to_map_1. fold (keys_of ((c1 ++ c2) ++ rest)).
  pose proof (distinct_perm _ _ Hp1 (k_distinct _ _ _ Ht)) as [_ Hk]. unfold keys_of in Hk.
  rewrite <- Permutation_middle in Hk. simpl in Hk. by apply NoDup_cons in Hk as [? _].
Qed.

(** [erase] of the cell at a valid iterator; what it returns points to the next. *)
Lemma erase_ok h0 t cs it a k v : table_ok h0 t cs -> valid_iter cs it (a, (k, v)) ->
  exists it' t' cs' l, erase it t = inr (it', t') /\ table_ok h0 t' cs' /\ contents cs' = delete k (contents cs) /\
    points t' cs' it' l.
Proof.
  intros Ht (i & c1 & c2 & Hi & ->). destruct (hung_lookup _ _ _ _ _ (k_hung _ _ _ Ht) Hi) as (p & Hp & Hs).
  pose proof Hs as (r & H1 & -> & Ha & n & Hn & H2)%seg_app.
  pose proof (chain_distinct _ _ _ (k_distinct _ _ _ Ht) Hi) as Hcd. destruct (keys_after _ _ _ _ _ Hcd) as (A1 & A2 & K1 & K2 & Hd12).
  unfold erase. cbn [_node _prev _index fst]. rewrite (node_in _ _ _ Hn). cbn [ebind next].
  destruct (decide (c1 = [])) as [->|Hne].
  - simpl in H1. subst p. change (last_of 0 []) with 0. cbn [negb Z.eqb]. rewrite (set_bucket_in _ _ _ _ Hp). cbn [ebind].
    destruct (unlink_ok h0 t cs i [] a k v n c2 (nodes t) n 0 Ht Hi H2 Hn H2) as (it' & cs' & l & Hit & Hok); [done|].
    simpl. rewrite Hit. simpl. by eexists _, _, _, _.
  - destruct (exists_last Hne) as (d1 & [b [k' w]] & ->). rewrite last_of_snoc.
    pose proof H1 as (r' & _ & -> & Hb0 & nx & Hnx & Hnxa)%seg_app. simpl in Hnxa. subst nx.
    rewrite (proj2 (Z.eqb_neq b 0)) by done. cbn [negb]. rewrite (set_link_in _ _ _ _ Hnx). cbn [ebind first second].
    assert (b ∈ (d1 ++ [(b, (k', w))]).*1) as Hbin by (rewrite fmap_app; set_solver).
    destruct Hd12 as [Hd12 _]. rewrite fmap_app in Hd12. apply NoDup_app in Hd12 as (Hd1 & Hdd & _).
    assert (seg (<[b:=mkNode k' w n]> (nodes t)) n c2 0) as Hsn.
    { eapply seg_frame; [|exact H2]. intros x Hx. apply lookup_insert_ne. intros ->. by apply (Hdd x). }
    destruct (unlink_ok h0 t cs i (d1 ++ [(b, (k', w))]) a k v n c2 (<[b:=mkNode k' w n]> (nodes t)) p b Ht Hi)
      as (it' & cs' & l & Hit & Hok); [| |exact Hsn| |].
    + apply seg_app. exists n. split; [|done]. eapply seg_relink; [exact H1|done].
    + rewrite lookup_insert_ne; [done|]. by intros ->.
    + intros x nd Hx Hnd. rewrite lookup_insert_ne; [done|]. intros ->. apply Hx. rewrite fmap_app. set_solver.
    + rewrite (insert_same (table t) i p Hp) in Hit, Hok. rewrite Hit. simpl. by eexists _, _, _, _.
Qed.

(** ** [clear] and the copies *)

Lemma clear_bucket_ok l : forall fuel h p, seg h p l 0 -> NoDup l.*1 -> (length l <= fuel)%nat ->
  exists h', clear_bucket fuel p h = inr h' /\ forall a, a ∉ l.*1 -> h' !! a = h !! a.
Proof.
  induction l as [|[a [k v]] l IH]; intros fuel h p; [intros -> _ _; exists h; by destruct fuel|].
  intros (-> & Ha & n & Hn & Hs) [Hna Hnd]%NoDup_cons Hf. destruct fuel as [|fuel]; simpl in Hf; [lia|]. cbn [clear_bucket].
  rewrite (proj2 (Z.eqb_neq _ _)), (node_in _ _ _ Hn) by done. cbn [ebind next]. unfold delete_object. rewrite Hn. cbn [ebind].
  destruct (IH fuel (delete a h) n) as (h' & -> & Hh'); [|done|lia|].
  - eapply seg_frame; [|exact Hs]. intros b Hb. apply lookup_delete_ne. by intros ->.
  - exists h'. split; [done|]. simpl. intros b Hb. rewrite Hh' by set_solver. apply lookup_delete_ne. set_solver.
Qed.

Lemma clear_buckets_ok cs : forall fuel h tb, Forall2 (fun p c => seg h p c 0) tb cs -> NoDup (concat cs).*1 ->
  (length (concat cs) <= fuel)%nat -> exists h', clear_buckets fuel tb h = inr h' /\ forall a, a ∉ (concat cs).*1 -> h' !! a = h !! a.
Proof.
  induction cs as [|c cs IH]; intros fuel h tb Hs Hnd Hf; [apply Forall2_nil_inv_r in Hs as ->; by exists h|].
  apply Forall2_cons_inv_r in Hs as (p & tb' & Hs & Hss & ->). simpl in Hnd, Hf. rewrite length_app in Hf. rewrite fmap_app in Hnd.
  apply NoDup_app in Hnd as (N1 & Hd & N2). cbn [clear_buckets].
  destruct (clear_bucket_ok c fuel h p Hs N1 ltac:(lia)) as (h1 & -> & Hh1). cbn [ebind].
  destruct (IH fuel h1 tb') as (h2 & -> & Hh2); [|done|lia|].
  - eapply segs_frame; [exact Hss|]. intros a Ha. apply Hh1. intros Hin. by apply (Hd a).
  - exists h2. split; [done|]. simpl. rewrite fmap_app. intros a Ha. rewrite Hh2, Hh1 by set_solver. done.
Qed.

Lemma empty_table h0 h n b f th : h0 ⊆ h -> lenZ (replicate n (@nil cell)) = b -> 1 <= b < 2 ^ 60 ->
  stores h0 ∅ (mkTable h (replicate n 0) 0 b f th).
Proof.
  intros Hh Hn Hb. exists (replicate n []). split; [|unfold contents; by rewrite concat_empty].
  constructor; simpl; rewrite ?concat_empty; simpl.
  - apply hung_empty.
  - constructor; apply NoDup_nil_2.
  - by rewrite Hn.
  - done.
  - intros p nd Hp. rewrite map_subseteq_spec in Hh. split; [by apply Hh|]. by intros ?%elem_of_nil.
Qed.

Lemma clear_ok h0 m t : stores h0 m t -> may (clear t) (stores h0 ∅).
Proof.
  intros (cs & Ht & _). unfold clear.
  destruct (clear_buckets_ok cs (size (nodes t)) _ _ (hu_seg _ _ _ (k_hung _ _ _ Ht)) (di_addr _ (k_distinct _ _ _ Ht)) (table_length _ _ _ Ht))
    as (h' & -> & Hh'). simpl. destruct (k_buckets _ _ _ Ht) as [Hb Hpos].
  pose proof (hung_length _ _ _ (k_hung _ _ _ Ht)) as Hl. unfold lenZ in *.
  assert ((fun _ : Z => 0) <$> table t = replicate (length cs) 0) as ->.
  { apply list_eq. intros j. rewrite list_lookup_fmap. destruct (decide (j < length cs)%nat).
    - rewrite lookup_replicate_2 by done. destruct (lookup_lt_is_Some_2 (table t) j ltac:(lia)) as [x ->]. done.
    - rewrite (lookup_ge_None_2 (table t)), lookup_ge_None_2 by (rewrite ?length_replicate; lia). done. }
  apply empty_table; [|unfold lenZ; rewrite length_replicate; lia|done]. apply map_subseteq_spec. intros p nd Hp.
  destruct (k_others _ _ _ Ht p nd Hp) as [H1 H2]. by rewrite Hh'.
Qed.

Lemma new_ok h n f : may (HashTable_new h n f) (stores h ∅).
Proof.
  unfold HashTable_new, calloc_table. destruct (room n) eqn:E; simpl; [|done]. apply room_bound in E.
  apply empty_table; [done| |done]. unfold lenZ. rewrite length_replicate. lia.
Qed.

Lemma set_all_ok h0 l : forall m t, stores h0 m t -> may (set_all l t) (stores h0 (foldl (fun m p => <[p.1:=p.2]> m) m l)).
Proof.
  induction l as [|p l IH]; intros m t Ht; simpl; [done|].
  eapply may_bind; [by apply set_sub_ok|]. intros t' Ht'. by apply IH.
Qed.

Lemma foldl_insert (l : list (K * V)) : forall m : gmap K V,
  foldl (fun m p => <[p.1:=p.2]> m) m l = list_to_map (rev l) ∪ m.
Proof.
  induction l as [|[k v] l IH]; intros m; simpl; [by rewrite map_empty_union|].
  rewrite IH, list_to_map_app. simpl. rewrite insert_union_singleton_l, map_union_assoc. by rewrite insert_empty.
Qed.

(** The copy holds the same map and leaves the original alone. *)
Lemma copy_ok h0 m t : stores h0 m t -> may (HashTable_copy t) (stores (nodes t) m).
Proof.
  intros (cs & Ht & <-). unfold HashTable_copy, calloc_table. destruct (room (buckets t)) eqn:E; simpl; [|done].
  rewrite (pairs_ok _ _ _ Ht). simpl. destruct (k_buckets _ _ _ Ht) as [Hb Hpos].
  eapply may_mono; [apply (set_all_ok (nodes t)), empty_table; [done| |done]|].
  - unfold lenZ. rewrite length_replicate. lia.
  - intros t'. rewrite foldl_insert, map_union_empty. unfold contents.
    rewrite (list_to_map_proper (rev (concat cs).*2) (concat cs).*2); [done| |by rewrite <- Permutation_rev].
    rewrite <- Permutation_rev. apply (k_distinct _ _ _ Ht).
Qed.

(** A table beside which other nodes came. *)
Lemma table_weaken h0 t cs h : table_ok h0 t cs -> nodes t ⊆ h -> table_ok ∅ (with_nodes h t) cs.
Proof.
  intros Ht Hh. rewrite map_subseteq_spec in Hh. constructor; simpl; [|apply Ht..|].
  - constructor; [|apply (k_hung _ _ _ Ht)]. eapply segs_frame; [apply (k_hung _ _ _ Ht)|].
    intros a Ha. destruct (addr_alive _ _ _ _ Ht Ha) as [_ [n Hn]]. rewrite Hn. by apply Hh.
  - intros p n Hp. by rewrite lookup_empty in Hp.
Qed.

Lemma assign_ok h1 m1 m2 t src : stores h1 m2 src -> stores (nodes src) m1 t ->
  may (assign t src) (stores (nodes src) m2).
Proof.
  intros (cs & Hs & <-) Ht. unfold assign. eapply may_bind; [by eapply clear_ok|]. intros t' (cs' & Ht' & _).
  assert (nodes src ⊆ nodes t') as Hsub by (apply map_subseteq_spec; intros p n Hp; by apply (k_others _ _ _ Ht')).
  unfold calloc_table. destruct (room (buckets src)) eqn:E; cbn [ebind]; [|done].
  rewrite (pairs_ok _ _ _ (table_weaken _ _ _ _ Hs Hsub)). cbn [ebind]. destruct (k_buckets _ _ _ Hs) as [Hb Hpos].
  eapply may_mono; [apply (set_all_ok (nodes src)), empty_table; [done| |done]|].
  - unfold lenZ. rewrite length_replicate. lia.
  - intros t2. rewrite foldl_insert, map_union_empty. unfold contents.
    rewrite (list_to_map_proper (rev (concat cs).*2) (concat cs).*2); [done| |by rewrite <- Permutation_rev].
    rewrite <- Permutation_rev. apply (k_distinct _ _ _ Hs).
Qed.

(** ** Sequences of operations *)

Inductive hop := Get (k : K) | Store (k : K) (v : V) | Emplace (k : K) (v : V) | TryEmplace (k : K)
  | Find (k : K) | Erase (k : K) | Size | Clear.
Inductive hout := OUnit | OVal (v : V) | ONew (b : bool) | OFound (o : option V) | OSize (n : Z).

(** What the caller does with an iterator: compare it with [end()], read it, erase it. *)
Definition hexec (o : hop) (t : HT) : err (hout * HT) :=
  match o with
  | Get k => let? (v, t) := get_sub k t in inr (OVal v, t)
  | Store k v => let? t := set_sub k v t in inr (OUnit, t)
  | Emplace k v => let? (_, b, t) := emplace k v t in inr (ONew b, t)
  | TryEmplace k => let? (_, b, t) := try_emplace k t in inr (ONew b, t)
  | Find k => let? it := find k t in
      if iter_eqb it (end_ t) then inr (OFound None, t)
      else let? n := deref (_node it) (nodes t) in inr (OFound (Some (second n)), t)
  | Erase k => let? it := find k t in
      if iter_eqb it (end_ t) then inr (ONew false, t) else let? (_, t) := erase it t in inr (ONew true, t)
  | Size => inr (OSize (_size t), t)
  | Clear => let? t := clear t in inr (OUnit, t)
  end.
Definition hspec (o : hop) (m : gmap K V) : hout * gmap K V :=
  match o with
  | Get k => let v := default val0 (m !! k) in (OVal v, <[k:=v]> m)
  | Store k v => (OUnit, <[k:=v]> m)
  | Emplace k v => (ONew (bool_decide (m !! k = None)), <[k := default v (m !! k)]> m)
  | TryEmplace k => (ONew (bool_decide (m !! k = None)), <[k := default val0 (m !! k)]> m)
  | Find k => (OFound (m !! k), m)
  | Erase k => (ONew (bool_decide (is_Some (m !! k))), delete k m)
  | Size => (OSize (u64 (Z.of_nat (size m))), m)
  | Clear => (OUnit, ∅)
  end.

Lemma size_ok h0 t cs : table_ok h0 t cs -> _size t = u64 (Z.of_nat (size (contents cs))).
Proof.
  intros Ht. rewrite (k_size _ _ _ Ht). unfold contents, lenZ. do 2 f_equal.
  rewrite <- length_map_to_list, map_to_list_to_map by apply (k_distinct _ _ _ Ht). by rewrite length_fmap.
Qed.

Lemma hexec_refines o h0 m t : stores h0 m t ->
  may (hexec o t) (fun '(out, t') => out = (hspec o m).1 /\ stores h0 (hspec o m).2 t').
Proof.
  intros Hm. destruct o as [k|k v|k v|k|k|k| |]; cbn [hexec hspec fst snd].
  - eapply may_bind; [by apply get_sub_ok|]. intros [v t'] [-> Ht']. done.
  - eapply may_bind; [by apply set_sub_ok|]. intros t' Ht'. done.
  - eapply may_bind; [by apply emplace_ok|]. intros [[it b] t'] (-> & _ & cs' & Ht' & Hc & _). simpl. split; [done|]. by exists cs'.
  - unfold try_emplace. eapply may_bind; [by apply emplace_ok|]. intros [[it b] t'] (-> & _ & cs' & Ht' & Hc & _). simpl.
    split; [done|]. by exists cs'.
  - destruct Hm as (cs & Ht & <-). destruct (find_ok _ _ _ k Ht) as (it & -> & Hit). cbn [ebind].
    destruct (contents cs !! k) as [v|].
    + destruct Hit as [Hn Hit]. unfold iter_eqb. simpl. rewrite (proj2 (Z.eqb_neq _ _)) by done. simpl.
      destruct (iter_node _ _ _ _ _ _ _ Ht Hit) as (_ & _ & _ & n & Hnd). rewrite (node_in _ _ _ Hnd). simpl.
      split; [done|]. by exists cs.
    + subst it. unfold iter_eqb. rewrite !Z.eqb_refl. simpl. split; [done|]. by exists cs.
  - destruct Hm as (cs & Ht & <-). destruct (find_ok _ _ _ k Ht) as (it & -> & Hit). cbn [ebind].
    destruct (contents cs !! k) as [v|] eqn:Hk.
    + destruct Hit as [Hn Hit]. unfold iter_eqb. simpl. rewrite (proj2 (Z.eqb_neq _ _)) by done. cbn [andb].
      destruct (erase_ok _ _ _ _ _ _ _ Ht Hit) as (it' & t' & cs' & l & -> & Ht' & Hc' & _). simpl.
      split; [done|]. by exists cs'.
    + subst it. unfold iter_eqb. rewrite !Z.eqb_refl. simpl.
      split; [done|]. exists cs. split; [done|]. by rewrite delete_id.
  - destruct Hm as (cs & Ht & <-). simpl. split; [by rewrite (size_ok _ _ _ Ht)|]. by exists cs.
  - eapply may_bind; [by eapply clear_ok|]. intros t' Ht'. done.
Qed.

Fixpoint hrun (os : list hop) (t : HT) : err (list hout * HT) :=
  match os with
  | [] => inr ([], t)
  | o :: os => let? (x, t) := hexec o t in let? (xs, t) := hrun os t in inr (x :: xs, t)
  end.
Fixpoint hspecs (os : list hop) (m : gmap K V) : list hout * gmap K V :=
  match os with
  | [] => ([], m)
  | o :: os => let (x, m) := hspec o m in let (xs, m) := hspecs os m in (x :: xs, m)
  end.

Lemma hrun_refines os : forall h0 m t, stores h0 m t ->
  may (hrun os t) (fun '(xs, t') => xs = (hspecs os m).1 /\ stores h0 (hspecs os m).2 t').
Proof.
  induction os as [|o os IH]; intros h0 m t Hm; simpl; [done|].
  eapply may_bind; [by apply hexec_refines|]. intros [x t'] [-> Ht']. cbn beta iota in Ht'.
  destruct (hspec o m) as [x m']. eapply may_bind; [by apply IH|]. intros [xs t2] [-> Ht2]. cbn beta iota in Ht2.
  simpl in *. by destruct (hspecs os m').
Qed.

Lemma stores_pairs h0 m t : stores h0 m t -> exists l, pairs t = inr l /\ NoDup l.*1 /\ list_to_map l = m.
Proof.
  intros (cs & Ht & <-). eexists. split; [by eapply pairs_ok|]. split; [apply (k_distinct _ _ _ Ht)|done].
Qed.
End HashTable.

(** C34: A hash table is a finite map: a sequence of operations on a new table gives
    the answers of the operations on the map, through every growth of the
    table, the iterator then visits every binding of the map once, and the nodes
    of the other tables of the space are where they were. *)
Theorem table_refines {K V} `{Countable K} `{Allocator} (_hash : K -> Z) room (val0 : V) n f os (h0 : gmap Z (htnode K V)) :
  (forall n, room n = true -> 1 <= n < 2 ^ 60) ->
  may (let? t := HashTable_new room h0 n f in hrun _hash room val0 os t)
    (fun '(outs, t) => outs = (hspecs val0 os ∅).1 /\ h0 ⊆ nodes t /\
       exists l, pairs t = inr l /\ NoDup l.*1 /\ list_to_map l = (hspecs val0 os ∅).2).
Proof.
  intros Hroom. eapply may_bind; [by apply (new_ok _hash)|]. intros t Ht.
  eapply may_mono; [by apply hrun_refines|]. intros [outs t'] [-> Ht']. split; [done|].
  split; [|by eapply stores_pairs]. destruct Ht' as (cs & Ht' & _). apply map_subseteq_spec. intros p nd Hp.
  by apply (k_others _ _ _ _ Ht').
Qed.
Definition demo_room (n : Z) : bool := (0 <? n) && (n <? 100).
Definition demo_ops : list (@hop Z Z) := [Store 1 10; Store 2 20; Emplace 2 30; Get 5; Erase 1; Find 2; Find 1; Size].
Example demo_spec : hspecs 0 demo_ops (∅ : gmap Z Z) =
  ([OUnit; OUnit; ONew false; OVal 0; ONew true; OFound (Some 20); OFound None; OSize 2], {[2 := 20; 5 := 0]}).
Proof. vm_compute. reflexivity. Qed.

Lemma demo_room_bound n : demo_room n = true -> 1 <= n < 2 ^ 60.
Proof. unfold demo_room. intros [H1%Z.ltb_lt H2%Z.ltb_lt]%andb_true_iff. lia. Qed.
Lemma table_refines_witness :
  may (let? t := HashTable_new demo_room ∅ 2 (3 # 4) in
       hrun (H0 := bump_allocator) default_hash_function demo_room 0 demo_ops t)
    (fun '(outs, t) => outs = (hspecs 0 demo_ops (∅ : gmap Z Z)).1 /\ ∅ ⊆ nodes t /\
       exists l, pairs t = inr l /\ NoDup l.*1 /\ list_to_map l = (hspecs 0 demo_ops (∅ : gmap Z Z)).2).
Proof.
  exact (table_refines (H0 := bump_allocator) default_hash_function demo_room 0 2 (3 # 4) demo_ops ∅ demo_room_bound).
Defined.

(** ** [HashSet]: a table whose values carry nothing *)

Section HashSet.
Context {T : Type} `{Countable T} `{Allocator} (_hash : T -> Z) (room : Z -> bool).
Definition set_insert (item : T) (t : HashTable T unit) : err (iterator * bool * HashTable T unit) :=
  emplace _hash room item tt t.
Definition set_find (item : T) (t : HashTable T unit) : err iterator := find _hash item t.
Definition set_erase (it : iterator) (t : HashTable T unit) : err (iterator * HashTable T unit) := erase it t.
Definition set_clear (t : HashTable T unit) : err (HashTable T unit) := clear t.
Definition set_size (t : HashTable T unit) : Z := _size t.
(** The items in the order of the iterator. *)
Definition set_items (t : HashTable T unit) : err (list T) := let? l := pairs t in inr l.*1.

Definition set_stores (h0 : gmap Z (htnode T unit)) (X : gset T) (t : HashTable T unit) : Prop :=
  exists m, stores _hash h0 m t /\ dom m = X.

Hypothesis room_bound : forall n, room n = true -> 1 <= n < 2 ^ 60.

(** The model keeps its sets as [gset]s. *)
Lemma set_insert_ok h0 X item t : set_stores h0 X t ->
  may (set_insert item t) (fun '(_, new, t') => new = bool_decide (item ∉ X) /\ set_stores h0 ({[item]} ∪ X) t').
Proof.
  intros (m & Ht & <-). eapply may_mono; [by apply emplace_ok|]. intros [[it new] t'] (-> & _ & cs & Ht' & Hc & _). split.
  - apply bool_decide_ext. by rewrite not_elem_of_dom.
  - exists (contents cs). split; [by exists cs|]. rewrite Hc. by rewrite dom_insert_L.
Qed.

Lemma set_erase_ok h0 X item t : set_stores h0 X t -> item ∈ X ->
  exists it it' t', set_find item t = inr it /\ set_erase it t = inr (it', t') /\ set_stores h0 (X ∖ {[item]}) t'.
Proof.
  intros (m & (cs & Ht & <-) & <-) Hin. apply elem_of_dom in Hin as [[] Hv]. unfold set_find.
  destruct (find_ok _ room _ _ _ item Ht) as (it & -> & Hit). rewrite Hv in Hit. destruct Hit as [_ Hit].
  destruct (erase_ok _ room room_bound _ _ _ _ _ _ _ Ht Hit) as (it' & t' & cs' & l & He & Ht' & Hc & _).
  exists it, it', t'. split; [done|]. split; [done|]. exists (contents cs'). split; [by exists cs'|]. by rewrite Hc, dom_delete_L.
Qed.

Lemma set_items_ok h0 X t : set_stores h0 X t -> exists l, set_items t = inr l /\ NoDup l /\ list_to_set l = X.
Proof.
  intros (m & Ht & <-). destruct (stores_pairs _ _ _ _ Ht) as (l & Hl & Hnd & <-). exists l.*1. unfold set_items. rewrite Hl.
  split; [done|]. split; [done|]. by rewrite dom_list_to_map_L.
Qed.
End HashSet.

(** The iterator that [erase] returns keeps the erased node as its predecessor:
    erasing through it takes nothing out of the table. *)
Definition demo_collision : err (list (option Z) * Z) :=
  let _hash := fun k : Z => 0 in
  let? t := HashTable_new demo_room ∅ 4 (3 # 4) in
  let? (_, _, t) := emplace (H0 := bump_allocator) _hash demo_room 1 10 t in
  let? (_, _, t) := emplace (H0 := bump_allocator) _hash demo_room 2 20 t in
  let? (it, t) := erase (begin_ t) t in
  let? (_, t) := erase it t in
  let? (x, t) := hexec (H0 := bump_allocator) _hash demo_room 0 (Find 2) t in
  inr ([match x with OFound o => o | _ => None end], _size t).
Example erase_then_erase : demo_collision = inr ([Some 20], 0).
Proof. vm_compute. reflexivity. Qed.
