(* ===== verification/ThreadMemory.v ===== *)
(** * ThreadMemory: the store buffer and the flush buffer of a thread

    [src/include/thread_memory.h] and [src/src/model/thread_memory.cc].  Popping
    an entry calls back into [Model]; what [ThreadMemory] needs from it is the
    class [Evictor], and the theorems of this file hold for every evictor. *)
From S2P Require Import Prelude Choice Action ReadFrom CacheLine.

Record ThreadMemory := mkTM {
  storeBuffer : list ModelAction;     (* front first *)
  flushBuffer : list ModelAction;
  last_sfence : Z;
  cl_to_last_wr_clf : gmap Z Z
}.

Definition ThreadMemory_new : ThreadMemory := mkTM [] [] 0 ∅.

Definition with_storeBuffer (l : list ModelAction) (tm : ThreadMemory) : ThreadMemory :=
  mkTM l (flushBuffer tm) (last_sfence tm) (cl_to_last_wr_clf tm).
Definition with_flushBuffer (l : list ModelAction) (tm : ThreadMemory) : ThreadMemory :=
  mkTM (storeBuffer tm) l (last_sfence tm) (cl_to_last_wr_clf tm).
Definition with_last_sfence (n : Z) (tm : ThreadMemory) : ThreadMemory :=
  mkTM (storeBuffer tm) (flushBuffer tm) n (cl_to_last_wr_clf tm).
Definition note_wr_clf (addr n : Z) (tm : ThreadMemory) : ThreadMemory :=
  mkTM (storeBuffer tm) (flushBuffer tm) (last_sfence tm) (<[addr := n]> (cl_to_last_wr_clf tm)).

(** The types that [add_to_store_buffer] asserts. *)
Definition bufferable (t : action_type) : bool :=
  match t with
  | ATOMIC_INIT | ATOMIC_STORE | NONATOMIC_STORE | ATOMIC_RMW
  | CACHE_SFENCE | CACHE_CLFLUSH | CACHE_CLFLUSHOPT => true
  | _ => false
  end.

Definition get_store_buffer_size (tm : ThreadMemory) : Z := lenZ (storeBuffer tm).
Definition get_flush_buffer_size (tm : ThreadMemory) : Z := lenZ (flushBuffer tm).

(** Newest entry first: the argument is the reversed buffer. *)
Fixpoint bypass_loop (rbuf : list ModelAction) (read : ModelAction) (rf : slots) (numslotsleft : Z)
  : bool * slots * Z :=
  match rbuf with
  | [] => (false, rf, numslotsleft)
  | write :: rbuf =>
      if bool_decide (act_type write = NONATOMIC_STORE) then
        let '(_, rf, numslotsleft) := get_overlaps write read rf numslotsleft in
        if numslotsleft =? 0 then (true, rf, numslotsleft)
        else bypass_loop rbuf read rf numslotsleft
      else bypass_loop rbuf read rf numslotsleft
  end.

Definition local_bypassing (read : ModelAction) (tm : ThreadMemory) (rf : slots) (numslotsleft : Z)
  : bool * slots * Z :=
  bypass_loop (rev (storeBuffer tm)) read rf numslotsleft.

(** The times that a [CACHE_CLFLUSHOPT] waits for: the thread's last fence and
    its last write or flush of the line. *)
Definition clflushopt_effect (tm : ThreadMemory) (action : ModelAction) : ModelAction :=
  let action := if earliest_effect action <? last_sfence tm
                then set_earliest_effect (last_sfence tm) action else action in
  match cl_to_last_wr_clf tm !! getCacheID (location action) with
  | Some n => if earliest_effect action <? n then set_earliest_effect n action else action
  | None => action
  end.

(** What [ThreadMemory] needs from the model: the two evictions, which give the
    action its sequence number and leave the thread memory alone. *)
Class Evictor (S : Type) := {
  get_tm : S -> ThreadMemory;
  put_tm : ThreadMemory -> S -> S;
  evict_store : ModelAction -> M S ModelAction;
  evict_clflush : ModelAction -> M S ModelAction;
  tm_ok : S -> Prop;
  get_put_tm : forall tm s, tm_ok s -> get_tm (put_tm tm s) = tm;
  put_tm_ok : forall tm s, tm_ok s -> tm_ok (put_tm tm s);
  evict_store_tm : forall a tm, preserves (fun s => tm_ok s /\ get_tm s = tm) (evict_store a);
  evict_clflush_tm : forall a tm, preserves (fun s => tm_ok s /\ get_tm s = tm) (evict_clflush a)
}.

Section Ops.
Context {S : Type} `{Evictor S}.

Definition upd_tm (f : ThreadMemory -> ThreadMemory) : M S unit :=
  modify (fun s => put_tm (f (get_tm s)) s).

Definition add_to_store_buffer (action : ModelAction) : M S unit :=
  massert (bufferable (act_type action)) "add_to_store_buffer" ;;;
  upd_tm (fun tm => with_storeBuffer (storeBuffer tm ++ [action]) tm).

Fixpoint empty_flush_loop (fuel : nat) : M S unit :=
  let! tm := gets get_tm in
  match flushBuffer tm with
  | [] => ret tt
  | action :: rest =>
      match fuel with
      | O => halt (NoReturn "empty_flush_buffer")
      | Datatypes.S fuel =>
          upd_tm (with_flushBuffer rest) ;;;
          massert (bool_decide (act_type action = CACHE_CLFLUSHOPT)) "CACHE_CLFLUSHOPT" ;;;
          evict_clflush action ;;;
          empty_flush_loop fuel
      end
  end.
Definition empty_flush_buffer : M S unit :=
  let! tm := gets get_tm in empty_flush_loop (length (flushBuffer tm)).

Definition pop_from_store_buffer : M S bool :=
  let! tm := gets get_tm in
  match storeBuffer tm with
  | [] => ret false
  | action :: rest =>
      upd_tm (with_storeBuffer rest) ;;;
      match act_type action with
      | ATOMIC_INIT | ATOMIC_STORE | NONATOMIC_STORE | ATOMIC_RMW =>
          let! action := evict_store action in
          upd_tm (note_wr_clf (getCacheID (location action)) (seq_num action))
      | CACHE_CLFLUSH =>
          let! action := evict_clflush action in
          upd_tm (note_wr_clf (getCacheID (location action)) (seq_num action))
      | CACHE_CLFLUSHOPT =>
          upd_tm (fun tm => with_flushBuffer (flushBuffer tm ++ [clflushopt_effect tm action]) tm)
      | CACHE_SFENCE =>
          empty_flush_buffer ;;;
          upd_tm (with_last_sfence (seq_num action))
      | _ => halt (AssertFail "UNREACHABLE")
      end ;;;
      ret false
  end.

Fixpoint empty_store_loop (fuel : nat) : M S unit :=
  let! tm := gets get_tm in
  match storeBuffer tm, fuel with
  | [], _ => ret tt
  | _, O => halt (NoReturn "empty_store_buffer")
  | _, Datatypes.S fuel => pop_from_store_buffer ;;; empty_store_loop fuel
  end.
Definition empty_store_buffer : M S unit :=
  let! tm := gets get_tm in empty_store_loop (length (storeBuffer tm)).
End Ops.

(** ** Forwarding from the store buffer *)

Definition forwardable (w : ModelAction) : bool := bool_decide (act_type w = NONATOMIC_STORE).

(** The load takes its bytes from the buffered non-atomic stores, newest first,
    and needs nothing more exactly when they cover all its bytes. *)
Lemma bypass_loop_fill rbuf r rf :
  in_range r -> lenZ rf = act_size r -> 0 < count_none rf ->
  Forall (fun w => act_type w = NONATOMIC_STORE -> in_range w /\ overlap_ok w r) rbuf ->
  let rf' := fill_all (List.filter forwardable rbuf) (location r) rf in
  bypass_loop rbuf r rf (count_none rf) = (count_none rf' =? 0, rf', count_none rf').
Proof.
  intros Hr. revert rf. induction rbuf as [|w rbuf IH]; intros rf Hlen Hc Hall; cbn zeta; simpl.
  { by rewrite (proj2 (Z.eqb_neq _ _)) by lia. }
  inversion Hall as [|? ? Hw Hall']; subst. change (bool_decide (act_type w = NONATOMIC_STORE)) with (forwardable w).
  destruct (forwardable w) eqn:Ef; [|by apply IH].
  apply bool_decide_eq_true in Ef as Ht.
  destruct (Hw Ht) as [Hrw Hov]. rewrite get_overlaps_fill by done. simpl.
  pose proof (count_none_bounds (fill w (location r) rf)).
  destruct (Z.eqb_spec (count_none (fill w (location r) rf)) 0) as [Hz|Hz].
  - rewrite (fill_all_full _ _ _ Hz), (proj2 (Z.eqb_eq _ 0) Hz). done.
  - apply IH; [unfold lenZ in *; by rewrite length_fill|lia|done].
Qed.

(** ** Draining the buffers *)

(** The buffers hold what the code puts there. *)
Definition buffers_ok (tm : ThreadMemory) : Prop :=
  Forall (fun a => bufferable (act_type a) = true) (storeBuffer tm) /\
  Forall (fun a => act_type a = CACHE_CLFLUSHOPT) (flushBuffer tm).

Definition is_flush (t : action_type) : Prop := t = CACHE_CLFLUSH \/ t = CACHE_CLFLUSHOPT.

Section Drain.
Context {S : Type} `{Evictor S}.
(** [E]: the reasons for which the evictions themselves may stop. *)
Variable E : stop -> Prop.
Hypothesis evict_store_E : forall a, is_write a = true ->
  triple tm_ok (evict_store a) (fun _ _ => True) E.
Hypothesis evict_clflush_E : forall a, is_flush (act_type a) ->
  triple tm_ok (evict_clflush a) (fun _ _ => True) E.

Definition at_tm (tm : ThreadMemory) (s : S) : Prop := tm_ok s /\ get_tm s = tm.

Lemma triple_upd_tm f tm (Q : unit -> S -> Prop) (F : stop -> Prop) :
  (forall s, at_tm (f tm) s -> Q tt s) -> triple (at_tm tm) (upd_tm f) Q F.
Proof.
  intros HQ. apply triple_modify. intros s [Hok <-]. apply HQ.
  split; [by apply put_tm_ok|by apply get_put_tm].
Qed.

Lemma triple_get_tm {B} tm (f : ThreadMemory -> M S B) Q (F : stop -> Prop) :
  triple (at_tm tm) (f tm) Q F -> triple (at_tm tm) (bind (gets get_tm) f) Q F.
Proof. intros Hf. apply triple_gets. intros tm' s [[Hs <-] <-]. by apply Hf. Qed.

Lemma triple_evict tm (m : M S ModelAction) :
  preserves (fun s => tm_ok s /\ get_tm s = tm) m ->
  triple tm_ok m (fun _ _ => True) E -> triple (at_tm tm) m (fun _ => at_tm tm) E.
Proof.
  intros Hp Hm s [Hok Htm]. eapply wp_mono; [|apply wp_and; [by apply (Hp s)|by apply (Hm s)]].
  intros [a s'|e s']; simpl; [by intros [? _]|by intros [_ ?]].
Qed.

Lemma empty_flush_loop_ok n tm :
  Forall (fun a => act_type a = CACHE_CLFLUSHOPT) (flushBuffer tm) -> (length (flushBuffer tm) <= n)%nat ->
  triple (at_tm tm) (empty_flush_loop n) (fun _ => at_tm (with_flushBuffer [] tm)) E.
Proof.
  revert tm. induction n as [|n IH]; intros [sb fb ls cl] Hf Hn; simpl in *; apply triple_get_tm; simpl;
    destruct fb as [|a fb]; simpl in *; try lia; try by apply triple_ret.
  inversion Hf as [|? ? Ha Hf']; subst.
  eapply triple_bind with (R := fun _ => at_tm (mkTM sb fb ls cl)); [by apply triple_upd_tm|]. intros _.
  apply triple_massert; [intros; by apply bool_decide_eq_true_2|].
  eapply triple_bind; [eapply triple_evict; [apply evict_clflush_tm|apply evict_clflush_E; by right]|].
  intros ?. apply (IH (mkTM sb fb ls cl)); simpl; [done|lia].
Qed.

Lemma empty_flush_buffer_ok tm :
  Forall (fun a => act_type a = CACHE_CLFLUSHOPT) (flushBuffer tm) ->
  triple (at_tm tm) empty_flush_buffer (fun _ => at_tm (with_flushBuffer [] tm)) E.
Proof. intros Hf. apply triple_get_tm. by apply empty_flush_loop_ok. Qed.

(** One pop removes the front entry and keeps the buffers well formed. *)
Lemma pop_ok tm a rest :
  buffers_ok tm -> storeBuffer tm = a :: rest ->
  triple (at_tm tm) pop_from_store_buffer
    (fun _ s => exists tm', at_tm tm' s /\ buffers_ok tm' /\ storeBuffer tm' = rest) E.
Proof.
  destruct tm as [sb fb ls cl]. simpl. intros [Hsb Hfb] ->. simpl in *.
  inversion Hsb as [|? ? Ha Hrest]; subst.
  apply triple_get_tm. simpl.
  eapply triple_bind with (R := fun _ => at_tm (mkTM rest fb ls cl)); [by apply triple_upd_tm|]. intros _.
  eapply triple_bind with (R := fun _ s => exists tm', at_tm tm' s /\ buffers_ok tm' /\ storeBuffer tm' = rest);
    [|by intros _; apply triple_ret].
  destruct (act_type a) eqn:Et; try done.
  1-4: eapply triple_bind; [eapply triple_evict; [apply evict_store_tm|apply evict_store_E; unfold is_write; by rewrite Et]|];
    intros a'; apply triple_upd_tm; intros s Hs; by exists (note_wr_clf (getCacheID (location a')) (seq_num a') (mkTM rest fb ls cl)).
  - eapply triple_bind; [apply empty_flush_buffer_ok; done|]. intros ?.
    apply triple_upd_tm. intros s Hs. by eexists.
  - eapply triple_bind; [eapply triple_evict; [apply evict_clflush_tm|apply evict_clflush_E; by left]|].
    intros a'. apply triple_upd_tm. intros s Hs. by exists (note_wr_clf (getCacheID (location a')) (seq_num a') (mkTM rest fb ls cl)).
  - apply triple_upd_tm. intros s Hs. eexists. split; [exact Hs|]. split; [|done]. split; [done|]. simpl.
    apply Forall_app. split; [done|]. constructor; [|done]. unfold clflushopt_effect.
    repeat case_match; done.
Qed.

Lemma empty_store_loop_ok n tm :
  buffers_ok tm -> (length (storeBuffer tm) <= n)%nat ->
  triple (at_tm tm) (empty_store_loop n)
    (fun _ s => exists tm', at_tm tm' s /\ buffers_ok tm' /\ storeBuffer tm' = []) E.
Proof.
  revert tm. induction n as [|n IH]; intros tm Hb Hn; apply triple_get_tm;
    destruct (storeBuffer tm) as [|a rest] eqn:Es; simpl in Hn; try lia;
    try by apply triple_ret; eauto.
  eapply triple_bind; [by eapply pop_ok|]. intros ?. apply triple_exists. intros tm'.
  intros s (Hs & Hb' & Hs'). eapply IH; [exact Hb'|by rewrite Hs'; lia|done].
Qed.

Lemma empty_store_buffer_ok tm :
  buffers_ok tm ->
  triple (at_tm tm) empty_store_buffer
    (fun _ s => exists tm', at_tm tm' s /\ buffers_ok tm' /\ storeBuffer tm' = []) E.
Proof. intros Hb. apply triple_get_tm. by apply empty_store_loop_ok. Qed.
End Drain.

(** ** Order of the evictions *)

(** An evictor that only records what it is given, in order. *)
Definition Recorder : Type := ThreadMemory * list ModelAction.
Definition record (a : ModelAction) : M Recorder ModelAction :=
  modify (fun s => (s.1, s.2 ++ [a])) ;;; ret a.

Lemma record_tm a tm : preserves (fun s : Recorder => True /\ s.1 = tm) (record a).
Proof. apply preserves_bind; [by apply preserves_modify|]. intros. apply preserves_ret. Qed.

#[export] Instance recorder : Evictor Recorder := {|
  get_tm := fst; put_tm := fun tm s => (tm, s.2); evict_store := record; evict_clflush := record;
  tm_ok := fun _ => True; get_put_tm := fun _ _ _ => eq_refl; put_tm_ok := fun _ _ _ => I;
  evict_store_tm := record_tm; evict_clflush_tm := record_tm |}.

(** Stores and flushes in program order; an optimised flush is held until the
    next store fence; [fl] are those already held. *)
Fixpoint evictions (fl sb : list ModelAction) : list ModelAction :=
  match sb with
  | [] => []
  | a :: sb =>
      match act_type a with
      | CACHE_CLFLUSHOPT => evictions (fl ++ [a]) sb
      | CACHE_SFENCE => fl ++ evictions [] sb
      | _ => a :: evictions fl sb
      end
  end.
(** The flushes still held at the end. *)
Fixpoint held (fl sb : list ModelAction) : list ModelAction :=
  match sb with
  | [] => fl
  | a :: sb =>
      match act_type a with
      | CACHE_CLFLUSHOPT => held (fl ++ [a]) sb
      | CACHE_SFENCE => held [] sb
      | _ => held fl sb
      end
  end.

(** An action without the effect time that the buffers compute. *)
Definition erase (a : ModelAction) : ModelAction := set_earliest_effect 0 a.

Lemma erase_effect tm a : erase (clflushopt_effect tm a) = erase a.
Proof. unfold clflushopt_effect, erase. by repeat case_match. Qed.

Lemma effect_type tm a : act_type (clflushopt_effect tm a) = act_type a.
Proof. unfold clflushopt_effect. by repeat case_match. Qed.

Lemma record_flush_loop n sb fb ls cl log :
  Forall (fun a => act_type a = CACHE_CLFLUSHOPT) fb -> (length fb <= n)%nat ->
  empty_flush_loop n ((mkTM sb fb ls cl, log) : Recorder) = Leaf (Val tt (mkTM sb [] ls cl, log ++ fb)).
Proof.
  revert fb log. induction n as [|n IH]; intros [|a fb] log Hf Hn; simpl in Hn; try lia.
  1,2: by rewrite app_nil_r.
  inversion Hf; subst. cbn [empty_flush_loop]. run_step. cbn [get_tm recorder fst flushBuffer].
  run_step. rewrite bool_decide_true by done. run_step. run_step.
  etransitivity; [apply (IH fb (log ++ [a])); [done|lia]|]. by rewrite <- app_assoc.
Qed.

Lemma record_flush sb fb ls cl log :
  Forall (fun a => act_type a = CACHE_CLFLUSHOPT) fb ->
  empty_flush_buffer ((mkTM sb fb ls cl, log) : Recorder) = Leaf (Val tt (mkTM sb [] ls cl, log ++ fb)).
Proof. intros Hf. by apply record_flush_loop. Qed.

Lemma evictions_erase fl fl' sb : map erase fl = map erase fl' ->
  map erase (evictions fl sb) = map erase (evictions fl' sb) /\
  map erase (held fl sb) = map erase (held fl' sb).
Proof.
  revert fl fl'. induction sb as [|a sb IH]; intros fl fl' He; simpl; [done|].
  destruct (act_type a); simpl; try (destruct (IH _ _ He) as [-> ->]; done).
  - by rewrite !map_app, He.
  - apply IH. by rewrite !map_app, He.
Qed.

Lemma record_pop a sb fb ls cl log :
  buffers_ok (mkTM (a :: sb) fb ls cl) ->
  exists fb' ls' cl' out, pop_from_store_buffer ((mkTM (a :: sb) fb ls cl, log) : Recorder) =
      Leaf (Val false (mkTM sb fb' ls' cl', log ++ out)) /\
    buffers_ok (mkTM sb fb' ls' cl') /\
    map erase (out ++ evictions fb' sb) = map erase (evictions fb (a :: sb)) /\
    map erase (held fb' sb) = map erase (held fb (a :: sb)).
Proof.
  intros [Hsb Hfb]; simpl in *. inversion Hsb as [|? ? Ha Hsb']; subst.
  assert (pop_from_store_buffer ((mkTM (a :: sb) fb ls cl, log) : Recorder) =
    (match act_type a with
     | ATOMIC_INIT | ATOMIC_STORE | NONATOMIC_STORE | ATOMIC_RMW =>
         let! action := evict_store a in
         upd_tm (note_wr_clf (getCacheID (location action)) (seq_num action))
     | CACHE_CLFLUSH =>
         let! action := evict_clflush a in
         upd_tm (note_wr_clf (getCacheID (location action)) (seq_num action))
     | CACHE_CLFLUSHOPT =>
         upd_tm (fun tm => with_flushBuffer (flushBuffer tm ++ [clflushopt_effect tm a]) tm)
     | CACHE_SFENCE => empty_flush_buffer ;;; upd_tm (with_last_sfence (seq_num a))
     | _ => halt (AssertFail "UNREACHABLE")
     end ;;; ret false) ((mkTM sb fb ls cl, log) : Recorder)) as -> by done.
  destruct (act_type a) eqn:Et; try done.
  1-4,6: by exists fb, ls, (<[getCacheID (location a) := seq_num a]> cl), [a].
  - erewrite bind_val by (erewrite bind_val by (by apply record_flush); reflexivity).
    exists [], (seq_num a), cl, fb. by repeat split; try constructor.
  - exists (fb ++ [clflushopt_effect (mkTM sb fb ls cl) a]), ls, cl, []. rewrite app_nil_r.
    split; [done|]. split; [|apply evictions_erase; by rewrite !map_app; simpl; rewrite erase_effect].
    split; [done|]. simpl. apply Forall_app. split; [done|]. constructor; [|done]. by rewrite effect_type.
Qed.

(** Emptying the store buffer hands over the evictions in this order and keeps
    the held flushes. *)
Lemma record_empty n sb fb ls cl log :
  buffers_ok (mkTM sb fb ls cl) -> (length sb <= n)%nat ->
  exists fb' ls' cl' out, empty_store_loop n ((mkTM sb fb ls cl, log) : Recorder) =
      Leaf (Val tt (mkTM [] fb' ls' cl', log ++ out)) /\
    map erase out = map erase (evictions fb sb) /\ map erase fb' = map erase (held fb sb).
Proof.
  revert sb fb ls cl log. induction n as [|n IH]; intros [|a sb] fb ls cl log Hb Hn; simpl in Hn; try lia.
  1,2: exists fb, ls, cl, []; by rewrite app_nil_r.
  destruct (record_pop a sb fb ls cl log Hb) as (fb1 & ls1 & cl1 & out1 & Hpop & Hb1 & He1 & Hh1).
  destruct (IH sb fb1 ls1 cl1 (log ++ out1) Hb1) as (fb2 & ls2 & cl2 & out2 & Hrun & He2 & Hh2); [lia|].
  exists fb2, ls2, cl2, (out1 ++ out2). split; [|split; [|congruence]].
  - cbn [empty_store_loop]. run_step. cbn [get_tm recorder fst storeBuffer].
    rewrite (bind_val _ _ _ _ _ Hpop), Hrun. by rewrite app_assoc.
  - rewrite map_app, He2, <- He1, map_app. done.
Qed.

(** ** Properties *)

(** C18: Total store order: emptying the store buffer evicts its stores and
    flushes in the order the thread issued them, except that an optimised flush
    waits for the next store fence; the flushes with no fence after them stay in
    the flush buffer, in order. *)
Theorem eviction_order tm log :
  buffers_ok tm ->
  exists fb' ls' cl' out,
    empty_store_buffer ((tm, log) : Recorder) = Leaf (Val tt (mkTM [] fb' ls' cl', log ++ out)) /\
    map erase out = map erase (evictions (flushBuffer tm) (storeBuffer tm)) /\
    map erase fb' = map erase (held (flushBuffer tm) (storeBuffer tm)).
Proof.
  destruct tm as [sb fb ls cl]. intros Hb.
  destruct (record_empty (length sb) sb fb ls cl log Hb) as (fb' & ls' & cl' & out & Hrun & H); [lia|].
  exists fb', ls', cl', out. split; [|done]. unfold empty_store_buffer. run_step. exact Hrun.
Qed.

Definition demo_buffered (t : action_type) (loc v : Z) : ModelAction :=
  ModelAction_new 0 t loc v memory_order_relaxed 8 "demo".
Definition demo_buffers : ThreadMemory :=
  mkTM [demo_buffered NONATOMIC_STORE 64 1; demo_buffered CACHE_CLFLUSHOPT 64 0;
        demo_buffered NONATOMIC_STORE 128 2; demo_buffered CACHE_SFENCE 0 0;
        demo_buffered CACHE_CLFLUSHOPT 128 0; demo_buffered CACHE_CLFLUSH 64 0] [] 0 ∅.
Lemma demo_buffers_ok : buffers_ok demo_buffers.
Proof. split; repeat constructor. Qed.

Lemma eviction_order_witness :
  exists fb' ls' cl' out,
    empty_store_buffer ((demo_buffers, []) : Recorder) = Leaf (Val tt (mkTM [] fb' ls' cl', out)) /\
    map erase out = [demo_buffered NONATOMIC_STORE 64 1; demo_buffered NONATOMIC_STORE 128 2;
                     demo_buffered CACHE_CLFLUSHOPT 64 0; demo_buffered CACHE_CLFLUSH 64 0] /\
    map erase fb' = [demo_buffered CACHE_CLFLUSHOPT 128 0].
Proof. exact (eviction_order demo_buffers [] demo_buffers_ok). Defined.

(** The buffers drain: whatever the evictions do, as long as they return,
    emptying both buffers returns with both of them empty; every loop ends and
    the assertions on the entries hold, so the only stops are those of an
    eviction ([E]). *)
Theorem buffers_drain {S} `{Evictor S} (E : stop -> Prop) tm :
  (forall a, is_write a = true -> triple tm_ok (evict_store a) (fun _ _ => True) E) ->
  (forall a, is_flush (act_type a) -> triple tm_ok (evict_clflush a) (fun _ _ => True) E) ->
  buffers_ok tm ->
  triple (at_tm tm) (empty_store_buffer ;;; empty_flush_buffer)
    (fun _ s => storeBuffer (get_tm s) = [] /\ flushBuffer (get_tm s) = []) E.
Proof.
  intros Hs Hf Hb. eapply triple_bind; [by apply empty_store_buffer_ok|]. intros u. apply triple_exists.
  intros tm1 s (Hat & Hb1 & He).
  eapply wp_mono; [|apply (empty_flush_buffer_ok E Hf tm1 (proj2 Hb1) s Hat)].
  intros [[] s2|e s2]; simpl; [|done]. intros [_ ->]. by destruct tm1; simpl in *.
Qed.

Lemma buffers_drain_witness :
  triple (at_tm demo_buffers) (empty_store_buffer ;;; empty_flush_buffer)
    (fun _ (s : Recorder) => storeBuffer (get_tm s) = [] /\ flushBuffer (get_tm s) = []) (fun _ => False).
Proof.
  refine (buffers_drain (fun _ => False) demo_buffers _ _ demo_buffers_ok); intros a _ s Hs; exact I.
Defined.

(** C25: Store forwarding: a load takes its bytes from the non-atomic stores in
    the thread's buffer, the newest that covers each byte, and is served by the
    buffer alone exactly when they cover all its bytes. *)
Theorem forwarding tm r :
  in_range r -> 0 < act_size r ->
  Forall (fun w => act_type w = NONATOMIC_STORE -> in_range w /\ overlap_ok w r) (storeBuffer tm) ->
  let own := List.filter forwardable (rev (storeBuffer tm)) in
  let '(served, rf, n) := local_bypassing r tm (replicate (Z.to_nat (act_size r)) None) (act_size r) in
  (forall i, (i < Z.to_nat (act_size r))%nat -> rf !! i = Some (first_cover own (location r + Z.of_nat i))) /\
  (served = true <-> forall i, (i < Z.to_nat (act_size r))%nat -> first_cover own (location r + Z.of_nat i) <> None).
Proof.
  intros Hr Hsz Hall. cbn zeta. set (k := Z.to_nat (act_size r)).
  pose proof (bypass_loop_fill (rev (storeBuffer tm)) r (replicate k None) Hr) as Hb.
  rewrite count_none_replicate in Hb. unfold local_bypassing. assert (act_size r = Z.of_nat k) as Hk by lia. rewrite Hk.
  cbn zeta in Hb. rewrite Hb; [|unfold lenZ; rewrite length_replicate; lia|lia|].
  2:{ apply Forall_forall. intros w Hw%list_elem_of_In%in_rev%list_elem_of_In. rewrite Forall_forall in Hall. by apply Hall. }
  set (own := List.filter forwardable _). set (rf := fill_all own _ _).
  assert (forall i, (i < k)%nat -> rf !! i = Some (first_cover own (location r + Z.of_nat i))) as Hl.
  { intros i Hi. unfold rf. by rewrite lookup_fill_all, lookup_replicate_2. }
  split; [done|]. rewrite Z.eqb_eq. split.
  - intros Hz%count_none_zero i Hi Hn. rewrite Forall_lookup in Hz.
    destruct (Hz i None) as [x Hx]; [|done]. by rewrite Hl, Hn.
  - intros Hn. pose proof (count_none_bounds rf). destruct (decide (count_none rf = 0)) as [|Hne]; [done|].
    exfalso. assert (exists i, rf !! i = Some None) as [i Hi].
    { clear -Hne. induction rf as [|[x|] rf IH]; simpl in *; [done| |by exists 0%nat].
      destruct (IH Hne) as [i Hi]. by exists (Datatypes.S i). }
    assert (i < k)%nat as Hik.
    { apply lookup_lt_Some in Hi. unfold rf in Hi. by rewrite length_fill_all, length_replicate in Hi. }
    apply (Hn i Hik). rewrite (Hl i Hik) in Hi. congruence.
Qed.

Lemma forwarding_witness :
  let '(served, rf, n) := local_bypassing (demo_buffered NONATOMIC_LOAD 64 0) demo_buffers (replicate 8 None) 8 in
  served = true <-> forall i, (i < 8)%nat -> first_cover
    [demo_buffered NONATOMIC_STORE 128 2; demo_buffered NONATOMIC_STORE 64 1] (64 + Z.of_nat i) <> None.
Proof.
  refine (proj2 (forwarding demo_buffers (demo_buffered NONATOMIC_LOAD 64 0) _ _ _)); [split; simpl; lia|reflexivity|].
  repeat constructor; simpl; lia.
Defined.

(** An atomic store that the thread has in its buffer is not forwarded. *)
Example atomic_store_not_forwarded :
  local_bypassing (demo_buffered NONATOMIC_LOAD 64 0) (mkTM [demo_buffered ATOMIC_STORE 64 1] [] 0 ∅)
    (replicate 8 None) 8 = (false, replicate 8 None, 8).
Proof. reflexivity. Qed.
