(* ===== verification/State.v ===== *)
(** * State: the objects shared by the processes under test, and those of one process

    The fields of [Thread], [Mutex], [Scheduler] and [Model]
    ([src/include/threads.h], [mutex.h], [scheduler.h], [model.h]) and the
    globals of a process.  A [Thread *] is the thread's number, its index in
    [Scheduler::threads]; a [Mutex *] or a [ConditionVariable *] is the number
    of an object of the shared heap ([next_obj] is the next free one, 0 the null
    pointer).  The members of [Model] that survive an execution are not here:
    [Execution] keeps them, the decision stack among them, which answers the
    questions of the [M] computations (see [NodeStack.drive]). *)
From S2P Require Import Prelude Choice Action CacheLine ThreadMemory.

Inductive thread_state := THREAD_RUNNING | THREAD_BLOCKED | THREAD_COMPLETED | THREAD_CRASHED.

#[export] Instance thread_state_eq_dec : EqDecision thread_state.
Proof. solve_decision. Defined.

Record Thread := mkThread {
  thr_id : Z;
  thr_pid : Z;
  thr_state : thread_state;
  thr_parent : option Z;
  is_main : bool;
  pending : option ModelAction;
  thread_memory : ThreadMemory;
  owned_mutexes : gset Z;
  params : Z * Z;                 (* func, arg *)
  ret_val : Z
}.

(** The two constructors; [pending] is set by the first action. *)
Definition Thread_new (tid pid : Z) (par : option Z) (p : Z * Z) : Thread :=
  mkThread tid pid THREAD_RUNNING par false None ThreadMemory_new ∅ p 0.
Definition Thread_main (pid : Z) : Thread :=
  mkThread pid pid THREAD_RUNNING None true None ThreadMemory_new ∅ (0, 0) 0.

Definition set_state (ts : thread_state) (t : Thread) : Thread :=
  mkThread (thr_id t) (thr_pid t) ts (thr_parent t) (is_main t) (pending t) (thread_memory t)
           (owned_mutexes t) (params t) (ret_val t).
Definition set_pending (a : option ModelAction) (t : Thread) : Thread :=
  mkThread (thr_id t) (thr_pid t) (thr_state t) (thr_parent t) (is_main t) a (thread_memory t)
           (owned_mutexes t) (params t) (ret_val t).
Definition set_thread_memory (tm : ThreadMemory) (t : Thread) : Thread :=
  mkThread (thr_id t) (thr_pid t) (thr_state t) (thr_parent t) (is_main t) (pending t) tm
           (owned_mutexes t) (params t) (ret_val t).
Definition set_owned (m : gset Z) (t : Thread) : Thread :=
  mkThread (thr_id t) (thr_pid t) (thr_state t) (thr_parent t) (is_main t) (pending t) (thread_memory t)
           m (params t) (ret_val t).
Definition set_ret_val (v : Z) (t : Thread) : Thread :=
  mkThread (thr_id t) (thr_pid t) (thr_state t) (thr_parent t) (is_main t) (pending t) (thread_memory t)
           (owned_mutexes t) (params t) v.

Definition is_completed_state (ts : thread_state) : bool :=
  match ts with THREAD_COMPLETED | THREAD_CRASHED => true | _ => false end.
Definition thread_is_completed (t : Thread) : bool := is_completed_state (thr_state t).

(** What a blocked thread waits for: objects of the three classes are at
    different addresses. *)
Inductive object := OThread (tid : Z) | OMutex (m : Z) | OCond (c : Z).
#[export] Instance object_eq_dec : EqDecision object.
Proof. solve_decision. Defined.

Definition waiting_on (t : Thread) : option object :=
  match pending t with
  | None => None
  | Some a =>
      if bool_decide (thr_state t <> THREAD_BLOCKED) then None
      else match act_type a with
           | PTHREAD_JOIN => match get_thread_ptr a with inr p => Some (OThread p) | inl _ => None end
           | ATOMIC_LOCK => match get_mutex a with inr p => Some (OMutex p) | inl _ => None end
           | ATOMIC_WAIT => match get_cond a with inr p => Some (OCond p) | inl _ => None end
           | _ => None
           end
  end.

Record Mutex := mkMutex { mutex_type : Z; owner : option Z; recursive_lock_count : Z }.
Definition Mutex_new (type : Z) : Mutex := mkMutex type None 0.
Definition PTHREAD_MUTEX_DEFAULT : Z := 0.
Definition PTHREAD_MUTEX_RECURSIVE : Z := 1.
Definition PTHREAD_MUTEX_ERRORCHECK : Z := 2.
Definition owner_crashed (m : Mutex) : Mutex := mkMutex (mutex_type m) None 0.
Definition increment_lock_count (m : Mutex) : Mutex :=
  mkMutex (mutex_type m) (owner m) (recursive_lock_count m + 1).
Definition decrement_lock_count (m : Mutex) : Mutex :=
  mkMutex (mutex_type m) (owner m) (recursive_lock_count m - 1).

Record Scheduler := mkSched {
  process_count : Z;
  active_thread : Z;
  threads : list Thread;
  terminating : bool
}.

Record Model := mkModel {
  next_sequence_num : Z;
  obj_to_wr : gmap Z (list ModelAction);        (* oldest store first *)
  obj_to_cl : CacheLineStore;
  crashes : gmap Z Z;
  completed_procs : gset Z;
  mutex_map : gmap (Z * Z) Z;
  cond_map : gmap (Z * Z) Z;
  crash_points : Z;
  cxl_mapping : Z
}.

(** The globals of the process that runs. *)
Record Process := mkProc {
  process_id : Z;
  thread_id : Z;
  backtrack : bool;
  inside_model : bool;
  rng : Z;
  errno : Z
}.

Record St := mkSt {
  sched : Scheduler;
  mdl : Model;
  mutexes : gmap Z Mutex;
  conds : gset Z;
  next_obj : Z;
  memory : gmap Z Z;             (* bytes of the mapped memory, 0 when absent *)
  proc : Process
}.

Definition on_sched (f : Scheduler -> Scheduler) (s : St) : St :=
  mkSt (f (sched s)) (mdl s) (mutexes s) (conds s) (next_obj s) (memory s) (proc s).
Definition on_mdl (f : Model -> Model) (s : St) : St :=
  mkSt (sched s) (f (mdl s)) (mutexes s) (conds s) (next_obj s) (memory s) (proc s).
Definition on_mutexes (f : gmap Z Mutex -> gmap Z Mutex) (s : St) : St :=
  mkSt (sched s) (mdl s) (f (mutexes s)) (conds s) (next_obj s) (memory s) (proc s).
Definition on_memory (f : gmap Z Z -> gmap Z Z) (s : St) : St :=
  mkSt (sched s) (mdl s) (mutexes s) (conds s) (next_obj s) (f (memory s)) (proc s).
Definition on_proc (f : Process -> Process) (s : St) : St :=
  mkSt (sched s) (mdl s) (mutexes s) (conds s) (next_obj s) (memory s) (f (proc s)).

Definition with_active (n : Z) (c : Scheduler) : Scheduler :=
  mkSched (process_count c) n (threads c) (terminating c).
Definition with_threads (l : list Thread) (c : Scheduler) : Scheduler :=
  mkSched (process_count c) (active_thread c) l (terminating c).
Definition with_terminating (b : bool) (c : Scheduler) : Scheduler :=
  mkSched (process_count c) (active_thread c) (threads c) b.

Definition with_next_seq (n : Z) (m : Model) : Model :=
  mkModel n (obj_to_wr m) (obj_to_cl m) (crashes m) (completed_procs m) (mutex_map m) (cond_map m)
          (crash_points m) (cxl_mapping m).
Definition with_wr (w : gmap Z (list ModelAction)) (m : Model) : Model :=
  mkModel (next_sequence_num m) w (obj_to_cl m) (crashes m) (completed_procs m) (mutex_map m) (cond_map m)
          (crash_points m) (cxl_mapping m).
Definition with_cl (c : CacheLineStore) (m : Model) : Model :=
  mkModel (next_sequence_num m) (obj_to_wr m) c (crashes m) (completed_procs m) (mutex_map m) (cond_map m)
          (crash_points m) (cxl_mapping m).
Definition with_crashes (c : gmap Z Z) (m : Model) : Model :=
  mkModel (next_sequence_num m) (obj_to_wr m) (obj_to_cl m) c (completed_procs m) (mutex_map m) (cond_map m)
          (crash_points m) (cxl_mapping m).
Definition with_completed (c : gset Z) (m : Model) : Model :=
  mkModel (next_sequence_num m) (obj_to_wr m) (obj_to_cl m) (crashes m) c (mutex_map m) (cond_map m)
          (crash_points m) (cxl_mapping m).
Definition with_mutex_map (x : gmap (Z * Z) Z) (m : Model) : Model :=
  mkModel (next_sequence_num m) (obj_to_wr m) (obj_to_cl m) (crashes m) (completed_procs m) x (cond_map m)
          (crash_points m) (cxl_mapping m).
Definition with_cond_map (x : gmap (Z * Z) Z) (m : Model) : Model :=
  mkModel (next_sequence_num m) (obj_to_wr m) (obj_to_cl m) (crashes m) (completed_procs m) (mutex_map m) x
          (crash_points m) (cxl_mapping m).
Definition with_crash_points (n : Z) (m : Model) : Model :=
  mkModel (next_sequence_num m) (obj_to_wr m) (obj_to_cl m) (crashes m) (completed_procs m) (mutex_map m)
          (cond_map m) n (cxl_mapping m).
Definition with_cxl_mapping (a : Z) (m : Model) : Model :=
  mkModel (next_sequence_num m) (obj_to_wr m) (obj_to_cl m) (crashes m) (completed_procs m) (mutex_map m)
          (cond_map m) (crash_points m) a.

Definition with_process_id (n : Z) (p : Process) : Process :=
  mkProc n (thread_id p) (backtrack p) (inside_model p) (rng p) (errno p).
Definition with_thread_id (n : Z) (p : Process) : Process :=
  mkProc (process_id p) n (backtrack p) (inside_model p) (rng p) (errno p).
Definition with_backtrack (b : bool) (p : Process) : Process :=
  mkProc (process_id p) (thread_id p) b (inside_model p) (rng p) (errno p).
Definition with_inside_model (b : bool) (p : Process) : Process :=
  mkProc (process_id p) (thread_id p) (backtrack p) b (rng p) (errno p).
Definition with_rng (n : Z) (p : Process) : Process :=
  mkProc (process_id p) (thread_id p) (backtrack p) (inside_model p) n (errno p).
Definition with_errno (n : Z) (p : Process) : Process :=
  mkProc (process_id p) (thread_id p) (backtrack p) (inside_model p) (rng p) n.

(** [Scheduler::Scheduler(pc)] and [Model::Model(s)]. *)
Definition Scheduler_new (pc : Z) : Scheduler :=
  mkSched pc 0 (Thread_main <$> seqZ 0 pc) false.
Definition Model_new (pc : Z) : Model :=
  mkModel 0 ∅ (CacheLineStore_init pc) ∅ ∅ ∅ ∅ 0 0.
(** The process [pid] right after the fork: [Scheduler::process_init]. *)
Definition Process_init (pid seed : Z) : Process := mkProc pid pid true false seed 0.

(** ** Reading and updating the state from computations *)
Definition get_thread (tid : Z) : M St Thread :=
  let! s := get in from_some (lookupZ (threads (sched s)) tid) (UB "threads[tid]").
Definition update_at {A} (i : Z) (f : A -> A) (l : list A) : list A :=
  if i <? 0 then l else alter f (Z.to_nat i) l.
Definition upd_thread (tid : Z) (f : Thread -> Thread) : M St unit :=
  modify (on_sched (fun c => with_threads (update_at tid f (threads c)) c)).
Definition self_pid : M St Z := gets (fun s => process_id (proc s)).
Definition self_tid : M St Z := gets (fun s => thread_id (proc s)).
Definition get_mutex_obj (m : Z) : M St Mutex :=
  let! s := get in from_some (mutexes s !! m) (UB "mutex pointer").
Definition upd_mutex (m : Z) (f : Mutex -> Mutex) : M St unit :=
  modify (on_mutexes (alter f m)).

Lemma lookupZ_update_at {A} (i j : Z) (f : A -> A) l :
  lookupZ (update_at i f l) j = if decide (i = j) then f <$> lookupZ l j else lookupZ l j.
Proof.
  unfold lookupZ, update_at. destruct (Z.ltb_spec i 0), (Z.ltb_spec j 0); case_decide; try done; try lia.
  - subst. apply list_lookup_alter_eq.
  - apply list_lookup_alter_ne. lia.
Qed.

Lemma length_update_at {A} i (f : A -> A) l : length (update_at i f l) = length l.
Proof. unfold update_at. case_if; [done|apply length_alter]. Qed.
