(* ===== verification/Scheduler.v ===== *)
(** * Scheduler: which thread runs

    [src/include/scheduler.h] and [src/src/model/scheduler.cc].  At any time one
    thread of one process is active; [yield] hands over to the next runnable
    one in cyclic order.  [wait()] returns to its caller when its thread is
    active again: here [yield] says whether control went to another thread, and
    the machine of [Machine] resumes the caller later.  The operations on the
    thread table are functions of [Scheduler]; the last section lifts them. *)
From S2P Require Import Prelude Choice Action ThreadMemory State.

Definition is_running (t : Thread) : bool := bool_decide (thr_state t = THREAD_RUNNING).
Definition is_blocked (t : Thread) : bool := bool_decide (thr_state t = THREAD_BLOCKED).

(** [for (i = 1; i < tc; i++)] over the threads [(base + i) % tc]: the first
    that satisfies [p].  [n] iterations are left, the next one is [i]. *)
Fixpoint scan (n : nat) (i base : Z) (p : Thread -> bool) (l : list Thread) : option Z :=
  match n with
  | O => None
  | S n =>
      let tid := (base + i) mod lenZ l in
      match lookupZ l tid with
      | Some t => if p t then Some tid else scan n (i + 1) base p l
      | None => None
      end
  end.
Definition scan_others (base : Z) (p : Thread -> bool) (l : list Thread) : option Z :=
  scan (length l - 1) 1 base p l.

(** [thread_id]s are handed out in order; the new thread belongs to the running
    process and its parent is the running thread. *)
Definition new_thread (pid tid func arg : Z) (c : Scheduler) : Z * Scheduler :=
  let id := lenZ (threads c) in
  (id, with_threads (threads c ++ [Thread_new id pid (Some tid) (func, arg)]) c).

Definition wake_all_threads_waiting_on (v : object) (c : Scheduler) : Scheduler :=
  with_threads ((fun t => if bool_decide (waiting_on t = Some v) then set_state THREAD_RUNNING t else t)
                  <$> threads c) c.

Definition wake_thread_waiting_on (tid : Z) (v : object) (c : Scheduler) : Scheduler :=
  match scan_others tid (fun t => bool_decide (waiting_on t = Some v)) (threads c) with
  | Some w => with_threads (update_at w (set_state THREAD_RUNNING) (threads c)) c
  | None => c
  end.

Definition EXIT_SUCCESS : Z := 0.
Definition EXIT_FAILURE : Z := 1.

(** [true]: another thread is active now and the caller waits. *)
Definition yield_sched (c : Scheduler) : err (bool * Scheduler) :=
  match scan_others (active_thread c) is_running (threads c) with
  | Some tid => inr (true, with_active tid c)
  | None =>
      match lookupZ (threads c) (active_thread c) with
      | None => inl (UB "threads[active]")
      | Some t => if is_running t then inr (false, c) else inl (Exit EXIT_FAILURE)
      end
  end.

(** [true]: another thread is active now; [false]: every other thread is done. *)
Definition last_yield_sched (c : Scheduler) : err (bool * Scheduler) :=
  match scan_others (active_thread c) is_running (threads c) with
  | Some tid => inr (true, with_active tid c)
  | None =>
      match scan_others (active_thread c) is_blocked (threads c) with
      | Some _ => inl (Exit EXIT_FAILURE)
      | None => inr (false, c)
      end
  end.

Definition finalize_sched (tid : Z) (c : Scheduler) : err (bool * Scheduler) :=
  match lookupZ (threads c) tid with
  | None => inl (UB "threads[thread_id]")
  | Some t =>
      let c := if thread_is_completed t then c
               else with_threads (update_at tid (set_state THREAD_COMPLETED) (threads c)) c in
      if terminating c then inr (false, c) else last_yield_sched c
  end.

(** One iteration of [process_crash]: thread [i]. *)
Definition crash_thread (pid : Z) (c : Scheduler) (i : Z) : Scheduler :=
  match lookupZ (threads c) i with
  | Some t =>
      if (thr_pid t =? pid) && negb (thread_is_completed t) then
        foldl (fun c m => wake_all_threads_waiting_on (OMutex m) c)
              (with_threads (update_at i (set_state THREAD_CRASHED) (threads c)) c)
              (elements (owned_mutexes t))
      else c
  | None => c
  end.
Definition process_crash_sched (pid : Z) (c : Scheduler) : Scheduler :=
  foldl (crash_thread pid) c (seqZ 0 (lenZ (threads c))).

Definition reset_sched (c : Scheduler) : Scheduler :=
  with_active 0 (with_threads (Thread_main <$> seqZ 0 (process_count c)) c).

(** ** The operations of [Scheduler] as computations *)
Definition on_sched_err {A} (f : Scheduler -> err (A * Scheduler)) : M St A :=
  let! s := get in
  let! (a, c) := lift (f (sched s)) in
  modify (on_sched (fun _ => c)) ;;; ret a.

Definition assert_active : M St unit :=
  let! s := get in massert (active_thread (sched s) =? thread_id (proc s)) "active_thread == thread_id".
Definition current_thread : M St Thread := let! tid := self_tid in get_thread tid.
Definition yield : M St bool := assert_active ;;; on_sched_err yield_sched.
Definition last_yield : M St bool := assert_active ;;; on_sched_err last_yield_sched.
Definition finalize : M St bool :=
  let! tid := self_tid in
  let! t := get_thread tid in
  (if thread_is_completed t then ret tt else upd_thread tid (set_state THREAD_COMPLETED)) ;;;
  let! s := get in
  if terminating (sched s) then ret false else last_yield.
Definition process_crash : M St unit :=
  let! pid := self_pid in modify (on_sched (process_crash_sched pid)).
Definition sched_reset : M St unit := modify (on_sched reset_sched).
Definition set_terminating : M St unit := modify (on_sched (with_terminating true)).

(** ** The scan *)

Lemma scan_Some n i base p l tid :
  scan n i base p l = Some tid ->
  exists j t, i <= j < i + Z.of_nat n /\ tid = (base + j) mod lenZ l /\ lookupZ l tid = Some t /\ p t = true /\
    forall k u, i <= k < j -> lookupZ l ((base + k) mod lenZ l) = Some u -> p u = false.
Proof.
  revert i. induction n as [|n IH]; intros i; [done|]. cbn [scan].
  destruct (lookupZ l ((base + i) mod lenZ l)) as [t|] eqn:E; [|done].
  destruct (p t) eqn:Ep.
  - intros [= <-]. exists i, t. split; [lia|]. do 3 (split; [done|]). lia.
  - intros (j & u & Hj & -> & Hl & Hp & Hk)%IH. exists j, u. split; [lia|]. do 3 (split; [done|]).
    intros k v Hik Hv. destruct (decide (k = i)) as [->|]; [congruence|]. apply (Hk k v); [lia|done].
Qed.

Lemma scan_None n i base p l :
  l <> [] -> scan n i base p l = None ->
  forall j t, i <= j < i + Z.of_nat n -> lookupZ l ((base + j) mod lenZ l) = Some t -> p t = false.
Proof.
  intros Hl. revert i. induction n as [|n IH]; intros i Hs j t Hj Ht; [lia|].
  cbn [scan] in Hs.
  destruct (lookupZ_is_Some l ((base + i) mod lenZ l)) as [u Hu].
  { fold (lenZ l). apply Z.mod_pos_bound. destruct l; [done|]. unfold lenZ. simpl. lia. }
  rewrite Hu in Hs. destruct (p u) eqn:Ep; [done|].
  destruct (decide (j = i)) as [->|]; [congruence|]. apply (IH (i + 1) Hs j t); [lia|done].
Qed.

(** Index [j <> base] is visited. *)
Lemma scan_reach {A} (l : list A) base j : 0 <= base < lenZ l -> 0 <= j < lenZ l -> j <> base ->
  exists i, 1 <= i < lenZ l /\ (base + i) mod lenZ l = j.
Proof.
  intros Hb Hj Hne. destruct (Z.lt_ge_cases base j).
  - exists (j - base). split; [lia|]. rewrite Z.mod_small; lia.
  - exists (j + lenZ l - base). split; [lia|].
    replace (base + (j + lenZ l - base)) with (j + 1 * lenZ l) by lia.
    rewrite Z.mod_add, Z.mod_small; lia.
Qed.

Lemma scan_others_Some base p l tid :
  0 <= base < lenZ l -> scan_others base p l = Some tid ->
  0 <= tid < lenZ l /\ tid <> base /\ exists t, lookupZ l tid = Some t /\ p t = true.
Proof.
  intros Hb (j & t & Hj & -> & Hl & Hp & _)%scan_Some.
  assert (1 <= j < lenZ l) by (unfold lenZ in *; lia).
  split; [apply Z.mod_pos_bound; lia|]. split; [|by exists t].
  intros Heq. destruct (Z.lt_ge_cases (base + j) (lenZ l)).
  - rewrite Z.mod_small in Heq; lia.
  - replace (base + j) with (base + j - lenZ l + 1 * lenZ l) in Heq by lia.
    rewrite Z.mod_add, Z.mod_small in Heq; lia.
Qed.

Lemma scan_others_None base p l j t :
  0 <= base < lenZ l -> scan_others base p l = None -> j <> base -> lookupZ l j = Some t -> p t = false.
Proof.
  intros Hb Hs Hj Ht. apply lookupZ_Some in Ht as Hjb. fold (lenZ l) in Hjb.
  destruct (scan_reach l base j Hb Hjb Hj) as (i & Hi & Hm).
  eapply (scan_None (length l - 1) 1 base p l); [intros ->; unfold lenZ in Hb; simpl in Hb; lia|done| |].
  - instantiate (1 := i). unfold lenZ in *. lia.
  - by rewrite Hm.
Qed.

(** ** Yielding *)

(** The active thread exists. *)
Definition sched_ok (c : Scheduler) : Prop := 0 <= active_thread c < lenZ (threads c).

Definition some_running (c : Scheduler) : Prop :=
  exists i t, lookupZ (threads c) i = Some t /\ thr_state t = THREAD_RUNNING.

Lemma some_running_Exists c : some_running c <-> Exists (fun t => thr_state t = THREAD_RUNNING) (threads c).
Proof.
  rewrite Exists_exists. split.
  - intros (i & t & Ht & Hr). exists t. split; [|done]. unfold lookupZ in Ht. destruct (i <? 0); [done|].
    by eapply list_elem_of_lookup_2.
  - intros (t & [i Hi]%list_elem_of_lookup & Hr). exists (Z.of_nat i), t. split; [|done].
    unfold lookupZ. by rewrite (proj2 (Z.ltb_ge _ 0)), Nat2Z.id by lia.
Qed.
#[export] Instance some_running_dec c : Decision (some_running c).
Proof.
  refine (cast_if (decide (Exists (fun t => thr_state t = THREAD_RUNNING) (threads c)))); by rewrite some_running_Exists.
Defined.

Lemma is_running_spec t : is_running t = true <-> thr_state t = THREAD_RUNNING.
Proof. apply bool_decide_eq_true. Qed.
Lemma is_blocked_spec t : is_blocked t = true <-> thr_state t = THREAD_BLOCKED.
Proof. apply bool_decide_eq_true. Qed.

Lemma yield_sched_cases c : sched_ok c ->
  (exists tid t, yield_sched c = inr (true, with_active tid c) /\ tid <> active_thread c /\
     lookupZ (threads c) tid = Some t /\ thr_state t = THREAD_RUNNING /\
     scan_others (active_thread c) is_running (threads c) = Some tid) \/
  (forall j t, j <> active_thread c -> lookupZ (threads c) j = Some t -> thr_state t <> THREAD_RUNNING) /\
  exists t, lookupZ (threads c) (active_thread c) = Some t /\
    yield_sched c = (if is_running t then inr (false, c) else inl (Exit EXIT_FAILURE)).
Proof.
  intros Hok. unfold yield_sched. destruct (scan_others _ _ _) as [tid|] eqn:E.
  - left. pose proof E as Hs. apply scan_others_Some in E as (Hb & Hne & t & Ht & Hr); [|done].
    exists tid, t. do 3 (split; [done|]). split; [by apply is_running_spec|done].
  - right. split.
    + intros j t Hj Ht Hr. apply is_running_spec in Hr. pose proof (scan_others_None _ _ _ j t Hok E Hj Ht).
      congruence.
    + destruct (lookupZ_is_Some (threads c) (active_thread c)) as [t Ht]; [exact Hok|].
      rewrite Ht. by exists t.
Qed.

(** ** Waking *)

Lemma wake_all_lookup v c i :
  lookupZ (threads (wake_all_threads_waiting_on v c)) i =
    (fun t => if bool_decide (waiting_on t = Some v) then set_state THREAD_RUNNING t else t)
      <$> lookupZ (threads c) i.
Proof. unfold lookupZ. simpl. case_if; [done|]. apply list_lookup_fmap. Qed.

Lemma wake_all_length v c : lenZ (threads (wake_all_threads_waiting_on v c)) = lenZ (threads c).
Proof. unfold lenZ. simpl. by rewrite length_fmap. Qed.

Lemma waiting_blocked t v : waiting_on t = Some v -> thr_state t = THREAD_BLOCKED.
Proof. unfold waiting_on. destruct (pending t); [|done]. case_bool_decide; [done|]. by destruct (thr_state t). Qed.

Definition wake_list (c : Scheduler) (ms : list Z) : Scheduler :=
  foldl (fun c m => wake_all_threads_waiting_on (OMutex m) c) c ms.

Definition waits_on_any (t : Thread) (ms : list Z) : bool :=
  existsb (fun m => bool_decide (waiting_on t = Some (OMutex m))) ms.

Lemma waits_on_any_blocked t ms : waits_on_any t ms = true -> thr_state t = THREAD_BLOCKED.
Proof. intros (m & _ & Hm)%existsb_exists. apply bool_decide_eq_true in Hm. by eapply waiting_blocked. Qed.

Lemma waits_on_any_running t ms : thr_state t <> THREAD_BLOCKED -> waits_on_any t ms = false.
Proof.
  intros Ht. destruct (waits_on_any t ms) eqn:E; [|done]. by apply waits_on_any_blocked in E.
Qed.

(** Waking the waiters of a list of mutexes. *)
Lemma wake_list_lookup ms c i t : lookupZ (threads c) i = Some t ->
  lookupZ (threads (wake_list c ms)) i =
    Some (if waits_on_any t ms then set_state THREAD_RUNNING t else t).
Proof.
  revert c t. induction ms as [|m ms IH]; intros c t Ht; simpl; [done|].
  fold (wake_list (wake_all_threads_waiting_on (OMutex m) c) ms).
  pose proof (wake_all_lookup (OMutex m) c i) as Hw. rewrite Ht in Hw. cbn [fmap option_fmap option_map] in Hw.
  rewrite (IH _ _ Hw). case_bool_decide as Hm; [|done]. cbn [orb].
 by rewrite waits_on_any_running.
Qed.

Lemma wake_list_length ms c : lenZ (threads (wake_list c ms)) = lenZ (threads c).
Proof.
  revert c. induction ms as [|m ms IH]; intros c; [done|]. simpl.
  fold (wake_list (wake_all_threads_waiting_on (OMutex m) c) ms). by rewrite IH, wake_all_length.
Qed.

Lemma crash_thread_eq pid c i t : lookupZ (threads c) i = Some t ->
  crash_thread pid c i =
    if (thr_pid t =? pid) && negb (thread_is_completed t)
    then wake_list (with_threads (update_at i (set_state THREAD_CRASHED) (threads c)) c) (elements (owned_mutexes t))
    else c.
Proof. unfold crash_thread. by intros ->. Qed.

Lemma crash_thread_length pid c i : lenZ (threads (crash_thread pid c i)) = lenZ (threads c).
Proof.
  unfold crash_thread. destruct (lookupZ (threads c) i) as [t|]; [|done]. case_if; [|done].
  fold (wake_list (with_threads (update_at i (set_state THREAD_CRASHED) (threads c)) c) (elements (owned_mutexes t))).
  rewrite wake_list_length. unfold lenZ. simpl. by rewrite length_update_at.
Qed.

(** Same thread, up to its state. *)
Definition same_thread (t t' : Thread) : Prop := t' = set_state (thr_state t') t.

Lemma same_thread_refl t : same_thread t t.
Proof. by destruct t. Qed.
Lemma same_thread_trans t u v : same_thread t u -> same_thread u v -> same_thread t v.
Proof. unfold same_thread. intros -> ->. by destruct t. Qed.
Lemma same_thread_pid t t' : same_thread t t' -> thr_pid t' = thr_pid t.
Proof. intros ->. done. Qed.

(** One iteration: thread [i] of the process is done; done threads stay done;
    every thread keeps its identity. *)
Lemma crash_thread_lookup pid c i j t : lookupZ (threads c) j = Some t ->
  exists t', lookupZ (threads (crash_thread pid c i)) j = Some t' /\ same_thread t t' /\
    (thread_is_completed t = true -> t' = t) /\
    (j = i -> thr_pid t = pid -> thread_is_completed t' = true).
Proof.
  intros Ht. unfold crash_thread. destruct (lookupZ (threads c) i) as [u|] eqn:Eu.
  2:{ exists t. split; [done|]. split; [apply same_thread_refl|]. split; [done|]. congruence. }
  case_if.
  2:{ exists t. split; [done|]. split; [apply same_thread_refl|]. split; [done|]. intros -> Hp.
      rewrite Ht in Eu. injection Eu as ->. rewrite Hp, Z.eqb_refl in Eb. simpl in Eb. by bools. }
  bools.
  fold (wake_list (with_threads (update_at i (set_state THREAD_CRASHED) (threads c)) c) (elements (owned_mutexes u))).
  set (c1 := with_threads _ c).
  assert (lookupZ (threads c1) j = Some (if decide (i = j) then set_state THREAD_CRASHED t else t)) as H1.
  { simpl. rewrite lookupZ_update_at, Ht. by case_decide. }
  rewrite (wake_list_lookup _ _ _ _ H1). eexists. split; [done|].
  destruct (decide (i = j)) as [->|Hij].
  - rewrite waits_on_any_running by done.
    rewrite Eu in Ht. injection Ht as ->.
    split; [by destruct t|]. split; [congruence|done].
  - destruct (waits_on_any t _) eqn:Hb.
    + apply waits_on_any_blocked in Hb as Hx.
      split; [by destruct t|]. split; [|congruence]. unfold thread_is_completed. by rewrite Hx.
    + split; [apply same_thread_refl|]. split; [done|congruence].
Qed.

Lemma crash_threads_lookup pid ids c j t : lookupZ (threads c) j = Some t ->
  exists t', lookupZ (threads (foldl (crash_thread pid) c ids)) j = Some t' /\ same_thread t t' /\
    (thread_is_completed t = true -> t' = t) /\
    (j ∈ ids -> thr_pid t = pid -> thread_is_completed t' = true).
Proof.
  revert c t. induction ids as [|i ids IH]; intros c t Ht; simpl.
  { exists t. split; [done|]. split; [apply same_thread_refl|]. split; [done|]. by intros ?%elem_of_nil. }
  destruct (crash_thread_lookup pid c i j t Ht) as (t1 & H1 & Hs1 & Hc1 & Hd1).
  destruct (IH _ _ H1) as (t2 & H2 & Hs2 & Hc2 & Hd2).
  exists t2. split; [done|]. split; [by eapply same_thread_trans|]. split.
  - intros Hc. rewrite (Hc1 Hc) in Hc2. by apply Hc2.
  - intros [->|Hin]%elem_of_cons Hp.
    + rewrite Hc2 by (by apply Hd1). by apply Hd1.
    + apply Hd2; [done|]. by rewrite (same_thread_pid t t1).
Qed.

(** After [process_crash], every thread of the process is done. *)
Lemma process_crash_done pid c j t :
  lookupZ (threads c) j = Some t ->
  exists t', lookupZ (threads (process_crash_sched pid c)) j = Some t' /\ same_thread t t' /\
    (thread_is_completed t = true -> t' = t) /\
    (thr_pid t = pid -> thread_is_completed t' = true).
Proof.
  intros Ht. destruct (crash_threads_lookup pid (seqZ 0 (lenZ (threads c))) c j t Ht) as (t' & H1 & H2 & H3 & H4).
  exists t'. do 3 (split; [done|]). apply H4. apply elem_of_seqZ. apply lookupZ_Some in Ht. unfold lenZ. lia.
Qed.

Lemma crash_thread_count pid c i : process_count (crash_thread pid c i) = process_count c /\
  active_thread (crash_thread pid c i) = active_thread c /\ terminating (crash_thread pid c i) = terminating c.
Proof.
  unfold crash_thread. destruct (lookupZ (threads c) i) as [t|]; [|done]. case_if; [|done].
  generalize (elements (owned_mutexes t)) as ms. intros ms.
  assert (forall d, process_count (wake_list d ms) = process_count d /\ active_thread (wake_list d ms) = active_thread d /\
    terminating (wake_list d ms) = terminating d) as Hw; [|apply (Hw (with_threads _ c))].
  induction ms as [|m ms IH]; intros d; [done|]. simpl. destruct (IH (wake_all_threads_waiting_on (OMutex m) d)) as (-> & -> & ->).
  done.
Qed.

(** ** A crash wakes the threads that wait for the mutexes of the dead *)

(** One iteration, exactly. *)
Lemma crash_thread_exact pid c i u j t :
  lookupZ (threads c) i = Some u -> lookupZ (threads c) j = Some t ->
  lookupZ (threads (crash_thread pid c i)) j =
    Some (if (thr_pid u =? pid) && negb (thread_is_completed u) then
            if decide (i = j) then set_state THREAD_CRASHED t
            else if waits_on_any t (elements (owned_mutexes u)) then set_state THREAD_RUNNING t else t
          else t).
Proof.
  intros Hu Ht. rewrite (crash_thread_eq _ _ _ _ Hu). case_if; [|done].
  set (c1 := with_threads _ c).
  assert (lookupZ (threads c1) j = Some (if decide (i = j) then set_state THREAD_CRASHED t else t)) as H1.
  { simpl. rewrite lookupZ_update_at, Ht. by case_decide. }
  rewrite (wake_list_lookup _ _ _ _ H1). case_decide; [|done]. by rewrite waits_on_any_running.
Qed.

Lemma crash_threads_unblocked pid ids c j t : lookupZ (threads c) j = Some t -> thr_state t <> THREAD_BLOCKED ->
  exists t', lookupZ (threads (foldl (crash_thread pid) c ids)) j = Some t' /\ thr_state t' <> THREAD_BLOCKED.
Proof.
  revert c t. induction ids as [|i ids IH]; intros c t Ht Hb; simpl; [eauto|].
  destruct (lookupZ (threads c) i) as [u|] eqn:Hu.
  - eapply IH; [by apply crash_thread_exact|]. case_if; [|done]. case_decide; [done|]. by rewrite waits_on_any_running.
  - eapply IH; [|done]. unfold crash_thread. by rewrite Hu.
Qed.

Lemma waits_on_any_elem t m (ms : gset Z) : waiting_on t = Some (OMutex m) -> m ∈ ms ->
  waits_on_any t (elements ms) = true.
Proof.
  intros Hw Hm. apply existsb_exists. exists m. split; [|by apply bool_decide_eq_true].
  by apply list_elem_of_In, elem_of_elements.
Qed.

Lemma crash_threads_wake pid ids c i u j t m :
  i ∈ ids -> lookupZ (threads c) i = Some u -> thr_pid u = pid -> thread_is_completed u = false ->
  m ∈ owned_mutexes u -> lookupZ (threads c) j = Some t -> waiting_on t = Some (OMutex m) ->
  exists t', lookupZ (threads (foldl (crash_thread pid) c ids)) j = Some t' /\ thr_state t' <> THREAD_BLOCKED.
Proof.
  revert c u t. induction ids as [|x ids IH]; intros c u t Hin Hu Hp Hc Hm Ht Hw; [by apply elem_of_nil in Hin|].
  simpl. destruct (decide (x = i)) as [->|Hne].
  { eapply crash_threads_unblocked; [by eapply crash_thread_exact|].
    rewrite (proj2 (Z.eqb_eq _ _) Hp), Hc. simpl. case_decide; [done|]. by rewrite (waits_on_any_elem t m). }
  apply elem_of_cons in Hin as [->|Hin]; [done|].
  destruct (lookupZ (threads c) x) as [v|] eqn:Hv.
  2:{ eapply IH; [exact Hin| |exact Hp|exact Hc|exact Hm| |exact Hw]; unfold crash_thread; by rewrite Hv. }
  pose proof (crash_thread_exact pid c x v i u Hv Hu) as Hu'. rewrite (decide_False _ _ Hne) in Hu'.
  pose proof (crash_thread_exact pid c x v j t Hv Ht) as Ht'.
  set (b := (thr_pid v =? pid) && negb (thread_is_completed v)) in *.
  set (wj := waits_on_any t (elements (owned_mutexes v))) in *.
  destruct (decide (b = true /\ (x = j \/ wj = true))) as [[Hb Hj]|Hno].
  - rewrite Hb in Ht'. eapply crash_threads_unblocked; [exact Ht'|]. case_decide; [done|].
    destruct Hj as [?| ->]; done.
  - assert (lookupZ (threads (crash_thread pid c x)) j = Some t) as Hj.
    { rewrite Ht'. destruct b; [|done]. rewrite decide_False by naive_solver. destruct wj; [|done].
      exfalso. apply Hno. split; [done|by right]. }
    eapply IH; [exact Hin|exact Hu'| | | |exact Hj|exact Hw];
      destruct b; try done; destruct (waits_on_any u _) eqn:Ew; try done.
Qed.

(** ** Properties *)

(** C22: [yield] is fair and detects deadlock: it hands over to the first running
    thread after the active one in cyclic order; it keeps the processor when the
    active thread is the only running one; it exits exactly when no thread of
    any process can run. *)
Theorem yield_round_robin c : sched_ok c ->
  let n := lenZ (threads c) in
  (exists j tid t, 1 <= j < n /\ tid = (active_thread c + j) mod n /\
     yield_sched c = inr (true, with_active tid c) /\
     lookupZ (threads c) tid = Some t /\ thr_state t = THREAD_RUNNING /\
     forall k u, 1 <= k < j -> lookupZ (threads c) ((active_thread c + k) mod n) = Some u ->
       thr_state u <> THREAD_RUNNING) \/
  ((forall j t, j <> active_thread c -> lookupZ (threads c) j = Some t -> thr_state t <> THREAD_RUNNING) /\
   yield_sched c = (if decide (some_running c) then inr (false, c) else inl (Exit EXIT_FAILURE))).
Proof.
  intros Hok. cbn zeta. unfold yield_sched. destruct (scan_others _ _ _) as [tid|] eqn:E.
  - left. apply scan_Some in E as (j & u & Hj & Htid & Hu & Hr & Hk). exists j, tid, u.
    split; [unfold sched_ok, lenZ in *; lia|]. do 3 (split; [done|]). split; [by apply is_running_spec|].
    intros k v Hkj Hv Hrv%is_running_spec. specialize (Hk k v Hkj Hv). congruence.
  - right. assert (forall j t, j <> active_thread c -> lookupZ (threads c) j = Some t -> thr_state t <> THREAD_RUNNING) as Hno.
    { intros j t Hj Ht Hr%is_running_spec. pose proof (scan_others_None _ _ _ j t Hok E Hj Ht). congruence. }
    split; [done|]. destruct (lookupZ_is_Some (threads c) (active_thread c) Hok) as [t Ht]. rewrite Ht.
    destruct (is_running t) eqn:Er.
    + rewrite decide_True; [done|]. exists (active_thread c), t. split; [done|by apply is_running_spec].
    + rewrite decide_False; [done|]. intros (i & u & Hu & Hr). destruct (decide (i = active_thread c)) as [->|Hi].
      * apply is_running_spec in Hr. congruence.
      * by apply (Hno i u).
Qed.

(** Three processes; the first one yields while the second is blocked. *)
Definition demo_sched : Scheduler :=
  mkSched 3 0 [Thread_main 0; set_state THREAD_BLOCKED (Thread_main 1); Thread_main 2] false.
Lemma yield_round_robin_witness :
  yield_sched demo_sched = inr (true, with_active 2 demo_sched).
Proof.
  destruct (yield_round_robin demo_sched) as [(j & tid & t & Hj & Ht & Hy & Hl & Hr & _)|[Hno _]];
    [split; [simpl; lia|reflexivity]| |].
  - simpl in Hj. assert (j = 1 \/ j = 2) as [-> | ->] by (unfold lenZ in Hj; simpl in Hj; lia).
    + subst tid. vm_compute in Hl. injection Hl as <-. discriminate.
    + subst tid. exact Hy.
  - exfalso. exact (Hno 2 (Thread_main 2) ltac:(discriminate) eq_refl eq_refl).
Defined.

(** C23: The crash of a process is total: afterwards every thread of the process
    has completed or crashed, threads that were done are untouched, every thread
    keeps its identity and buffers, and no thread of any process stays blocked
    on a mutex that a crashed thread owned. *)
Theorem process_crash_total pid c j t :
  lookupZ (threads c) j = Some t ->
  (exists t', lookupZ (threads (process_crash_sched pid c)) j = Some t' /\ same_thread t t' /\
    (thread_is_completed t = true -> t' = t) /\ (thr_pid t = pid -> thread_is_completed t' = true) /\
    forall i u m, lookupZ (threads c) i = Some u -> thr_pid u = pid -> thread_is_completed u = false ->
      m ∈ owned_mutexes u -> waiting_on t = Some (OMutex m) -> thr_state t' <> THREAD_BLOCKED).
Proof.
  intros Ht. destruct (process_crash_done pid c j t Ht) as (t' & Ht' & Hs & Hd & Hp).
  exists t'. do 4 (split; [done|]). intros i u m Hu Hpu Hc Hm Hw.
  destruct (crash_threads_wake pid (seqZ 0 (lenZ (threads c))) c i u j t m) as (v & Hv & Hb); try done.
  { apply elem_of_seqZ. apply lookupZ_Some in Hu. unfold lenZ. lia. }
  unfold process_crash_sched in Ht'. congruence.
Qed.

(** Thread 1 waits for the mutex 5 of thread 0. *)
Definition demo_waiter : Thread :=
  set_pending (Some (ModelAction_new 1 ATOMIC_LOCK 5 0 memory_order_seq_cst 1 "demo"))
    (set_state THREAD_BLOCKED (Thread_main 1)).
Lemma process_crash_total_witness :
  exists t', lookupZ (threads (process_crash_sched 0 (mkSched 2 0 [set_owned {[5]} (Thread_main 0); demo_waiter] false))) 1 = Some t' /\
    thr_state t' <> THREAD_BLOCKED.
Proof.
  destruct (process_crash_total 0 (mkSched 2 0 [set_owned {[5]} (Thread_main 0); demo_waiter] false) 1 demo_waiter eq_refl)
    as (t' & Ht' & _ & _ & _ & Hw).
  exists t'. split; [exact Ht'|].
  apply (Hw 0 (set_owned {[5]} (Thread_main 0)) 5); [reflexivity|reflexivity|reflexivity|set_solver|reflexivity].
Defined.
