(* ===== verification/ModelCore.v ===== *)
(** * ModelCore: the persistent memory of the model

    The memory operations of [src/src/model/model.cc]: the store lists, the
    evictions out of the store buffers, the crash decisions and the
    construction of the value of a load.  [decision_point] is [choose]: the
    decision stack answers it. *)
From S2P Require Import Prelude Choice Action ReadFrom CacheLine ThreadMemory State Scheduler.

Definition decision_point_m (numchoices : Z) : M St Z := choose numchoices.

Definition is_crashed (s : St) (pid : Z) : bool := bool_decide (is_Some (crashes (mdl s) !! pid)).
Definition is_completed (s : St) (pid : Z) : bool := bool_decide (pid ∈ completed_procs (mdl s)).
Definition is_live (s : St) (pid : Z) : bool := negb (is_crashed s pid) && negb (is_completed s pid).
Definition crash_count (s : St) : Z := Z.of_nat (size (crashes (mdl s))).
Definition get_crashed_process_count (s : St) : Z := crash_count s.
Definition get_completed_process_count (s : St) : Z := Z.of_nat (size (completed_procs (mdl s))).
Definition complete_process : M St unit :=
  let! pid := self_pid in
  modify (on_mdl (fun m => with_completed ({[pid]} ∪ completed_procs m) m)).

Definition mem_is_cxl (s : St) (addr : Z) : bool :=
  negb (cxl_mapping (mdl s) =? 0) && (cxl_mapping (mdl s) <=? addr) &&
  (addr <? u64 (cxl_mapping (mdl s) + CXL_MEM_SIZE)).

(** Raw memory: bytes, little-endian words. *)
Definition load_byte (m : gmap Z Z) (a : Z) : Z := default 0 (m !! a).
Definition load_bytes (m : gmap Z Z) (a : Z) (n : nat) : Z :=
  from_le (map (fun i => load_byte m (a + Z.of_nat i)) (seq 0 n)).
Fixpoint store_bytes (m : gmap Z Z) (a : Z) (l : list Z) : gmap Z Z :=
  match l with [] => m | b :: l => store_bytes (<[a := b]> m) (a + 1) l end.

(** [decision_point] with the counter of crash points. *)
Definition ask_crash : M St bool :=
  modify (on_mdl (fun m => with_crash_points (u32 (crash_points m + 1)) m)) ;;;
  let! s := get in
  if crash_points (mdl s) =? 0 then ret false
  else let! c := decision_point_m 2 in ret (c =? 0).

(** The conditions of a crash: another one is allowed and a process survives. *)
Definition crash_allowed (s : St) : bool :=
  backtrack (proc s) && (crash_count s <? MAX_CRASHES_PER_EXECUTION) &&
  (crash_count s + 1 <? process_count (sched s)).

Definition should_crash : M St bool :=
  let! s := get in if crash_allowed s then ask_crash else ret false.

Definition get_next_sequence_num : M St Z :=
  let! n := gets (fun s => next_sequence_num (mdl s)) in
  modify (on_mdl (with_next_seq (u32 (n + 1)))) ;;; ret n.

(** [crashes.emplace]: an entry already there is kept. *)
Definition emplace_crash (pid : Z) : M St unit :=
  modify (on_mdl (fun m =>
    match crashes m !! pid with
    | Some _ => m
    | None => with_crashes (<[pid := next_sequence_num m]> (crashes m)) m
    end)).

Definition insert_crash (pid : Z) : M St unit :=
  let! crash := should_crash in
  if negb crash then ret tt
  else
    let! me := self_pid in
    if pid =? me then
      modify (on_mdl (fun m => with_crashes (<[me := next_sequence_num m]> (crashes m)) m)) ;;;
      process_crash ;;;
      halt (Exit EXIT_SUCCESS)
    else emplace_crash pid.

Definition get_process_id (a : ModelAction) : M St Z :=
  let! t := get_thread (act_tid a) in ret (thr_pid t).

Definition get_storelist (addr : Z) : M St (list ModelAction) :=
  let aligned := alignAddress addr in
  let! s := get in
  match obj_to_wr (mdl s) !! aligned with
  | Some l => ret l
  | None => modify (on_mdl (fun m => with_wr (<[aligned := []]> (obj_to_wr m)) m)) ;;; ret []
  end.
Definition set_storelist (addr : Z) (l : list ModelAction) : M St unit :=
  modify (on_mdl (fun m => with_wr (<[alignAddress addr := l]> (obj_to_wr m)) m)).

Definition cacheline (pid addr : Z) : M St Range :=
  let! s := get in
  let! (cl, c) := lift (get_cacheline pid addr (obj_to_cl (mdl s))) in
  modify (on_mdl (with_cl c)) ;;; ret cl.
(** Assignment through the reference that [get_cacheline] returned. *)
Definition assign_cacheline (pid addr : Z) (cl : Range) : M St unit :=
  let! s := get in
  let! c := lift (set_cacheline pid addr cl (obj_to_cl (mdl s))) in
  modify (on_mdl (with_cl c)).

Definition ensureInitialValue (action : ModelAction) : M St unit :=
  let addr := alignAddress (location action) in
  let! list := get_storelist addr in
  let! tid := self_tid in
  let! s := get in
  match list with
  | [] => set_storelist addr [ModelAction_new tid ATOMIC_INIT addr (load_bytes (memory s) addr 8)
                                memory_order_relaxed 8 "ensureInitialValue"]
  | _ => ret tt
  end.

(** ** Evictions *)

Definition Model_evict_store (action : ModelAction) : M St ModelAction :=
  massert (is_write action) "action->is_write()" ;;;
  let! stores := get_storelist (location action) in
  let! n := get_next_sequence_num in
  let action := set_seq_num n action in
  set_storelist (location action) (stores ++ [action]) ;;;
  ret action.

(** The loop over the processes: the window of each moves up to [seq_num]; the
    result is the least old [begin], or [seq_num]. *)
Fixpoint flush_windows (pids : list Z) (addr seq_num min : Z) : M St Z :=
  match pids with
  | [] => ret min
  | i :: pids =>
      let! cl := cacheline i addr in
      if seq_num <=? range_begin cl then flush_windows pids addr seq_num min
      else
        let min := if range_begin cl <? min then range_begin cl else min in
        assign_cacheline i addr (setBegin seq_num cl) ;;;
        flush_windows pids addr seq_num min
  end.

(** The loop over the stores, newest first: a live writer may crash. *)
Fixpoint crash_writer (rstores : list ModelAction) (min : Z) : M St unit :=
  match rstores with
  | [] => ret tt
  | store :: rstores =>
      let! s := get in
      if (Action.seq_num store <=? min) || (MAX_CRASHES_PER_EXECUTION <=? crash_count s)
         || (process_count (sched s) - 1 <=? crash_count s)
      then ret tt
      else
        let! wpid := get_process_id store in
        if is_live s wpid then insert_crash wpid
        else crash_writer rstores min
  end.

Definition Model_evict_clflush (action : ModelAction) : M St ModelAction :=
  massert (bool_decide (act_type action = CACHE_CLFLUSH) || bool_decide (act_type action = CACHE_CLFLUSHOPT))
          "CACHE_CLFLUSH || CACHE_CLFLUSHOPT" ;;;
  let! (action, seq_num) :=
    (if bool_decide (act_type action = CACHE_CLFLUSH)
     then let! n := get_next_sequence_num in ret (set_seq_num n action, n)
     else ret (action, earliest_effect action)) in
  let addr := getCacheID (location action) in
  let! s := get in
  let! min := flush_windows (seqZ 0 (process_count (sched s))) addr seq_num seq_num in
  let! stores := get_storelist (location action) in
  crash_writer (rev stores) min ;;;
  ret action.

(** ** Building the value of a load *)

(** A store of a running process: taking it may instead crash its writer. *)
Definition running_store (read store : ModelAction) (cache_addr rpid wpid : Z)
    (rf : slots) (numslotsleft : Z) : M St (slots * Z) :=
  match get_overlaps_save_old store read rf numslotsleft with
  | (None, rf', n') => ret (rf', n')
  | (Some old, rf', n') =>
      if bool_decide (act_type store <> ATOMIC_INIT) && negb (wpid =? rpid) then
        let! cl := cacheline wpid cache_addr in
        let! s := get in
        let! crash :=
          (if crash_allowed s && negb (is_completed s wpid) && (range_begin cl <? seq_num store)
           then ask_crash else ret false) in
        if crash then emplace_crash wpid ;;; ret (old, numslotsleft)
        else
          (if range_begin cl <? seq_num store
           then assign_cacheline wpid cache_addr (setBegin (seq_num store) cl) else ret tt) ;;;
          ret (rf', n')
      else ret (rf', n')
  end.

(** A store of a crashed process: it has persisted, has not, or either.  [None]
    is the [continue] of EQUIV_STORE_SKIP. *)
Definition crashed_store (read store : ModelAction) (older : list ModelAction) (cache_addr wpid : Z)
    (rf : slots) (numslotsleft : Z) : M St (option (slots * Z)) :=
  let! cl := cacheline wpid cache_addr in
  if seq_num store <=? range_begin cl then
    let '(_, rf', n') := get_overlaps store read rf numslotsleft in ret (Some (rf', n'))
  else if (range_end cl =? 0) || (seq_num store <? range_end cl) then
    if match older with next :: _ => equivalent store next | [] => false end then ret None
    else match get_overlaps_save_old store read rf numslotsleft with
         | (None, rf', n') => ret (Some (rf', n'))
         | (Some old, rf', n') =>
             let! s := get in
             let! lost :=
               (if bool_decide (act_type store <> ATOMIC_INIT) && backtrack (proc s)
                then let! c := decision_point_m 2 in ret (c =? 0) else ret false) in
             if lost then
               assign_cacheline wpid cache_addr (setEnd (seq_num store) cl) ;;;
               ret (Some (old, numslotsleft))
             else
               assign_cacheline wpid cache_addr (setBegin (seq_num store) cl) ;;;
               ret (Some (rf', n'))
         end
  else ret (Some (rf, numslotsleft)).

(** One iteration of the loop over the stores: the slots taken so far, or
    [None] when the iteration was cut short. *)
Definition read_step (read store : ModelAction) (older : list ModelAction) (cache_addr rpid : Z)
    (rf : slots) (numslotsleft : Z) : M St (option (slots * Z)) :=
  let! wpid := get_process_id store in
  let! s := get in
  let! (rf, numslotsleft) :=
    (if is_crashed s wpid then ret (rf, numslotsleft)
     else running_store read store cache_addr rpid wpid rf numslotsleft) in
  let! s := get in
  if is_crashed s wpid then crashed_store read store older cache_addr wpid rf numslotsleft
  else ret (Some (rf, numslotsleft)).

(** The loop over the stores of the word, newest first. *)
Fixpoint read_loop (rstores : list ModelAction) (read : ModelAction) (cache_addr rpid : Z)
    (rf : slots) (numslotsleft : Z) : M St Z :=
  match rstores with
  | [] => halt (AssertFail "build_read_from: a byte has no store")
  | store :: older =>
      let! next := read_step read store older cache_addr rpid rf numslotsleft in
      match next with
      | None => read_loop older read cache_addr rpid rf numslotsleft
      | Some (rf, numslotsleft) =>
          if numslotsleft =? 0 then ret (get_read_value (location read) rf)
          else read_loop older read cache_addr rpid rf numslotsleft
      end
  end.

Definition build_read_from (read : ModelAction) : M St Z :=
  let cache_addr := getCacheID (location read) in
  let numslotsleft := act_size read in
  let rf := replicate (Z.to_nat numslotsleft) None in
  let! t := get_thread (act_tid read) in
  match local_bypassing read (thread_memory t) rf numslotsleft with
  | (true, rf, _) => ret (get_read_value (location read) rf)
  | (false, rf, numslotsleft) =>
      let! stores := get_storelist (location read) in
      massert (bool_decide (stores <> [])) "stores.size() != 0" ;;;
      let! rpid := get_process_id read in
      read_loop (rev stores) read cache_addr rpid rf numslotsleft
  end.
