(* ===== verification/Spaces.v ===== *)
(** * Spaces: the allocators over the memory spaces

    The [operator new] and [delete] of [TEMPLATEALLOC], [SHAREDALLOC] and
    [CXLALLOC], the C++ allocators [shared_allocator], [snapshot_allocator] and
    [cxl_allocator] ([src/include/allocators.h], [src/include/cxl_allocator.h]), the
    functions of [src/src/allocators/cxl_allocator.c] and [init_cxl_space] of
    [src/src/user/api.cc].  All of them call the mspaces of the malloc library
    in [src/src/allocators/malloc.c]: what they rely on of it is the class
    [Mspaces].  The containers' own view of a space is [Alloc]. *)
From S2P Require Import Prelude Choice Action ReadFrom CacheLine ThreadMemory State Scheduler ModelCore.

(** The malloc library: a space is a range of memory with a header, named by an
    address; [live] are the blocks handed out, by address, with their space and
    size. *)
Class Mspaces := {
  Heap : Type;
  live : Heap -> gmap Z (Z * Z);
  region : Heap -> Z -> option (Z * Z);
  mspace_malloc : Z -> Z -> Heap -> Z * Heap;
  mspace_memalign : Z -> Z -> Z -> Heap -> Z * Heap;
  mspace_calloc : Z -> Z -> Z -> Heap -> Z * Heap;
  mspace_realloc : Z -> Z -> Z -> Heap -> Z * Heap;
  mspace_free : Z -> Z -> Heap -> Heap;
  create_mspace_with_base : Z -> Z -> Z -> Heap -> Z * Heap
}.

(** Two ranges of addresses are apart. *)
Definition apart (p n q k : Z) : Prop := p + n <= q \/ q + k <= p.

Section Contract.
Context `{Mspaces}.

(** A block of at least [n] bytes at [p] has been taken from the space [ms]. *)
Record taken (ms n p : Z) (h h' : Heap) : Prop := mkTaken {
  tk_nonnull : p <> 0;
  tk_live : live h' = <[p := (ms, n)]> (live h);
  tk_fresh : live h !! p = None;
  tk_inside : forall base cap, region h ms = Some (base, cap) -> base <= p /\ p + n <= base + cap;
  tk_apart : forall q ms' k, live h !! q = Some (ms', k) -> apart p n q k
}.
(** An allocation that succeeds, or gives 0 and changes nothing that matters. *)
Definition allocates (ms n : Z) (h : Heap) (r : Z * Heap) : Prop :=
  region r.2 = region h /\ (taken ms n r.1 h r.2 \/ (r.1 = 0 /\ live r.2 = live h)).
End Contract.

(** What the malloc library promises for the spaces that exist.  The library is
    [src/src/allocators/malloc.c], vendored third-party code that is not modelled.
    Its comment on [create_mspace_with_base] (lines 1294-1295) lets a space that is
    exhausted take more memory from the system; [tk_inside] is true of the build of
    this repository, whose [src/src/allocators/CMakeLists.txt] compiles the file
    with [HAVE_MMAP=0] and [ONLY_MSPACES] (so [HAVE_MORECORE] is 0): there is
    nothing that it could take memory from, and the allocation returns 0. *)
Class MspaceLaws `{Mspaces} : Prop := {
  malloc_law ms n h : is_Some (region h ms) -> 0 <= n < 2 ^ 64 -> allocates ms n h (mspace_malloc ms n h);
  memalign_law ms al n h : is_Some (region h ms) -> 0 <= n < 2 ^ 64 -> allocates ms n h (mspace_memalign ms al n h);
  calloc_law ms k n h : is_Some (region h ms) -> 0 <= k < 2 ^ 64 -> 0 <= n < 2 ^ 64 ->
    allocates ms (k * n) h (mspace_calloc ms k n h);
  free_law ms p h : p = 0 \/ (exists n, live h !! p = Some (ms, n)) ->
    region (mspace_free ms p h) = region h /\ live (mspace_free ms p h) = delete p (live h);
  realloc_law ms p n h : is_Some (region h ms) -> 0 <= n < 2 ^ 64 -> p = 0 \/ (exists k, live h !! p = Some (ms, k)) ->
    let r := mspace_realloc ms p n h in
    region r.2 = region h /\ (taken ms n r.1 (mspace_free ms p h) r.2 \/ (r.1 = 0 /\ live r.2 = live h));
  create_law base cap locked h : (forall p x, live h !! p = Some x -> apart base cap p x.2) ->
    let (ms, h') := create_mspace_with_base base cap locked h in
    live h' = live h /\ (ms = 0 \/ (region h' ms = Some (base, cap) /\
      (forall ms', ms' <> ms -> region h' ms' = region h ms') /\ forall p n, live h !! p <> Some (ms, n)))
}.

(** ** The operators of a class *)
Section Operators.
Context `{Mspaces}.

(** [TEMPLATEALLOC]: [msp] is the space of the container. *)
Definition operator_new (msp size : Z) (h : Heap) : err (Z * Heap) :=
  let (addr, h) := mspace_malloc msp size h in
  if addr =? 0 then inl (AssertFail "bad alloc") else inr (addr, h).
Definition operator_new_array (msp size : Z) (h : Heap) : err (Z * Heap) :=
  let (addr, h) := mspace_malloc msp size h in
  if addr =? 0 then inl (AssertFail "bad alloc") else inr (addr, h).
(** [operator new(size, std::align_val_t)]: the result is not tested. *)
Definition operator_new_aligned (msp size al : Z) (h : Heap) : Z * Heap := mspace_memalign msp al size h.
Definition operator_delete (msp p : Z) (h : Heap) : Heap := mspace_free msp p h.
Definition operator_delete_array (msp p : Z) (h : Heap) : Heap := mspace_free msp p h.
Definition operator_new_placement (size p : Z) : Z := p.

(** [SHAREDALLOC] and the two C++ allocators. *)
Section Spaces.
Variables shared_space snapshot_space : Z.
Definition shared_new (size : Z) (h : Heap) : err (Z * Heap) := operator_new shared_space size h.
Definition shared_new_array (size : Z) (h : Heap) : err (Z * Heap) := operator_new_array shared_space size h.
Definition shared_new_aligned (size al : Z) (h : Heap) : Z * Heap := operator_new_aligned shared_space size al h.
Definition shared_delete (p : Z) (h : Heap) : Heap := operator_delete shared_space p h.
Definition shared_delete_array (p : Z) (h : Heap) : Heap := operator_delete_array shared_space p h.
Definition shared_new_placement (size p : Z) : Z := p.
(** [shared_allocator<T>] and [snapshot_allocator<T>]. *)
Definition shared_allocate (sizeof_T n : Z) (h : Heap) : err (Z * Heap) := operator_new shared_space (u64 (n * sizeof_T)) h.
Definition shared_deallocate (p n : Z) (h : Heap) : Heap := mspace_free shared_space p h.
Definition snapshot_allocate (sizeof_T n : Z) (h : Heap) : err (Z * Heap) := operator_new snapshot_space (u64 (n * sizeof_T)) h.
Definition snapshot_deallocate (p n : Z) (h : Heap) : Heap := mspace_free snapshot_space p h.
End Spaces.
(** [operator!=] of two allocators. *)
Definition allocators_differ (other : Z) : bool := true.

(** ** The allocation functions of the CXL memory *)
(** [memset(ret, CXL_ALLOC_RAND_VAL, bytes)] when [CXL_ALLOC_RAND] is set: the
    byte that fills the block, which must exist. *)
Definition CXL_ALLOC_RAND_VAL : Z := 3735928559.
Record Filled := mkFilled { fill_at : Z; fill_byte : Z; fill_size : Z }.
Definition rand_fill (cxl_alloc_rand : bool) (ret bytes : Z) : err (option Filled) :=
  if cxl_alloc_rand then
    if ret =? 0 then inl (UB "memset of a null pointer")
    else inr (Some (mkFilled ret (u8 CXL_ALLOC_RAND_VAL) bytes))
  else inr None.

Section CXL.
Variables (cxl_alloc_rand : bool) (cxl_space : Z).
Definition cxl_malloc (bytes : Z) (h : Heap) : err (Z * option Filled * Heap) :=
  let (ret, h) := mspace_malloc cxl_space bytes h in
  let? f := rand_fill cxl_alloc_rand ret bytes in inr (ret, f, h).
Definition cxl_free (mem : Z) (h : Heap) : Heap := mspace_free cxl_space mem h.
Definition cxl_realloc (mem newsize : Z) (h : Heap) : Z * Heap := mspace_realloc cxl_space mem newsize h.
Definition cxl_calloc (n_elements elem_size : Z) (h : Heap) : Z * Heap := mspace_calloc cxl_space n_elements elem_size h.
Definition cxl_memalign (alignment bytes : Z) (h : Heap) : err (Z * option Filled * Heap) :=
  let (ret, h) := mspace_memalign cxl_space alignment bytes h in
  let? f := rand_fill cxl_alloc_rand ret bytes in inr (ret, f, h).

(** [CXLALLOC] and [cxl_allocator<T>] *)
Definition cxl_operator_new (size : Z) (h : Heap) : err (Z * Heap) :=
  let? (addr, _, h) := cxl_malloc size h in
  if addr =? 0 then inl (AssertFail "bad alloc") else inr (addr, h).
Definition cxl_operator_new_array (size : Z) (h : Heap) : err (Z * Heap) := cxl_operator_new size h.
Definition cxl_operator_delete (p : Z) (h : Heap) : Heap := cxl_free p h.
Definition cxl_operator_delete_array (p : Z) (h : Heap) : Heap := cxl_free p h.
Definition cxl_allocate (sizeof_T n : Z) (h : Heap) : err (Z * Heap) := cxl_operator_new (u64 (n * sizeof_T)) h.
Definition cxl_deallocate (p n : Z) (h : Heap) : Heap := cxl_free p h.
End CXL.

(** [init_cxl_space]: the new value of [cxl_space]. *)
Definition init_cxl_space (s : St) (offset size : Z) (h : Heap) : err (Z * Heap) :=
  let? _ := eassert (u64 (offset + size) <=? CXL_MEM_SIZE) "offset + size <= CXL_MEM_SIZE" in
  inr (create_mspace_with_base (u64 (cxl_mapping (mdl s) + offset)) size 1 h).
End Operators.

(** ** Properties *)
Section Facts.
Context `{MspaceLaws}.

(** An allocation that cannot fail silently. *)
Definition gets_block (ms n : Z) (h : Heap) (r : err (Z * Heap)) : Prop :=
  match r with
  | inr (p, h') => taken ms n p h h' /\ region h' = region h
  | inl e => e = AssertFail "bad alloc"
  end.
Lemma operator_new_block ms n h : is_Some (region h ms) -> 0 <= n < 2 ^ 64 -> gets_block ms n h (operator_new ms n h).
Proof.
  intros Hr Hn. unfold operator_new. pose proof (malloc_law ms n h Hr Hn) as Ha.
  destruct (mspace_malloc ms n h) as [p h']. destruct Ha as [H1 [H2|[H2 _]]]; simpl in *.
  - rewrite (proj2 (Z.eqb_neq _ _) (tk_nonnull _ _ _ _ _ H2)). by split.
  - by rewrite H2.
Qed.

Lemma cxl_new_block b ms n h : is_Some (region h ms) -> 0 <= n < 2 ^ 64 ->
  match cxl_operator_new b ms n h with
  | inr (p, h') => taken ms n p h h' /\ region h' = region h
  | inl e => e = AssertFail "bad alloc" \/ (b = true /\ e = UB "memset of a null pointer")
  end.
Proof.
  intros Hr Hn. unfold cxl_operator_new, cxl_malloc, rand_fill. pose proof (malloc_law ms n h Hr Hn) as Ha.
  destruct (mspace_malloc ms n h) as [p h']. destruct Ha as [H1 [H2|[H2 _]]]; simpl in *.
  - rewrite (proj2 (Z.eqb_neq _ _) (tk_nonnull _ _ _ _ _ H2)). destruct b; simpl;
      by rewrite (proj2 (Z.eqb_neq _ _) (tk_nonnull _ _ _ _ _ H2)).
  - rewrite H2. destruct b; simpl; auto.
Qed.
End Facts.

(** ** Clients of the CXL memory *)

(** What the programs do with the space [ms], and the blocks of other spaces that
    come and go meanwhile. *)
Section Client.
Context `{MspaceLaws}.
Variables (rand_ : bool) (ms : Z).

Inductive client : Heap -> Heap -> Prop :=
| cl_refl h : client h h
| cl_malloc h n r f h1 h' : 0 <= n < 2 ^ 64 -> cxl_malloc rand_ ms n h = inr (r, f, h1) -> client h1 h' -> client h h'
| cl_memalign h al n r f h1 h' : 0 <= n < 2 ^ 64 -> cxl_memalign rand_ ms al n h = inr (r, f, h1) -> client h1 h' -> client h h'
| cl_calloc h k n h' : 0 <= k < 2 ^ 64 -> 0 <= n < 2 ^ 64 -> client (cxl_calloc ms k n h).2 h' -> client h h'
| cl_realloc h p n h' : 0 <= n < 2 ^ 64 -> p = 0 \/ (exists k, live h !! p = Some (ms, k)) ->
    client (cxl_realloc ms p n h).2 h' -> client h h'
| cl_new h n p h1 h' : 0 <= n < 2 ^ 64 -> cxl_operator_new rand_ ms n h = inr (p, h1) -> client h1 h' -> client h h'
| cl_allocate h sz n p h1 h' : cxl_allocate rand_ ms sz n h = inr (p, h1) -> client h1 h' -> client h h'
| cl_free h p h' : p = 0 \/ (exists n, live h !! p = Some (ms, n)) -> client (cxl_free ms p h) h' -> client h h'
| cl_other h ms' n p h1 h' : ms' <> ms -> is_Some (region h ms') -> 0 <= n < 2 ^ 64 ->
    operator_new ms' n h = inr (p, h1) -> client h1 h' -> client h h'.

(** The blocks are inside their space and apart from each other. *)
Record blocks_ok (base cap : Z) (h : Heap) : Prop := mkBlocksOk {
  bo_region : region h ms = Some (base, cap);
  bo_inside : forall p n, live h !! p = Some (ms, n) -> base <= p /\ p + n <= base + cap;
  bo_apart : forall p q x y, p <> q -> live h !! p = Some x -> live h !! q = Some y -> apart p x.2 q y.2
}.

Lemma taken_ok base cap ms' n p h h' : blocks_ok base cap h -> taken ms' n p h h' -> region h' = region h ->
  blocks_ok base cap h'.
Proof.
  intros [B1 B2 B3] [T1 T2 T3 T4 T5] Hr. constructor.
  - by rewrite Hr.
  - intros q k. rewrite T2. intros [[<- [= -> ->]]|[_ Hq]]%lookup_insert_Some; [by apply T4|by apply B2].
  - intros q r x y Hne. rewrite T2. intros [[<- <-]|[_ Hq]]%lookup_insert_Some [[Hpr <-]|[_ Hr']]%lookup_insert_Some; simpl.
    + done.
    + destruct y as [m k]. by eapply T5.
    + subst r. destruct x as [m k]. destruct (T5 _ _ _ Hq); [right|left]; done.
    + by eapply B3.
Qed.
Lemma allocates_ok base cap ms' n h r : blocks_ok base cap h -> allocates ms' n h r -> blocks_ok base cap r.2.
Proof.
  intros Hb [Hr [Ht|[_ Hl]]]; [by eapply taken_ok|]. destruct Hb as [B1 B2 B3].
  constructor; [by rewrite Hr|rewrite Hl; exact B2|rewrite Hl; exact B3].
Qed.
Lemma free_ok base cap p h : blocks_ok base cap h -> p = 0 \/ (exists n, live h !! p = Some (ms, n)) ->
  blocks_ok base cap (cxl_free ms p h).
Proof.
  intros [B1 B2 B3] Hp. unfold cxl_free. destruct (free_law ms p h Hp) as [Hr Hl]. constructor.
  - by rewrite Hr.
  - intros q n. rewrite Hl, lookup_delete_Some. intros [_ Hq]. by apply B2.
  - intros q r x y Hne. rewrite Hl, !lookup_delete_Some. intros [_ Hq] [_ Hr']. by eapply B3.
Qed.

Lemma client_ok base cap h h' : client h h' -> blocks_ok base cap h -> blocks_ok base cap h'.
Proof.
  assert (forall h, blocks_ok base cap h -> is_Some (region h ms)) as Hreg by (intros h0 [-> _ _]; by eexists).
  induction 1 as [h|h n r f h1 h' Hn Hc Hcl IH|h al n r f h1 h' Hn Hc Hcl IH|h k n h' Hk Hn Hcl IH
    |h p n h' Hn Hp Hcl IH|h n p h1 h' Hn Hc Hcl IH|h sz n p h1 h' Hc Hcl IH|h p h' Hp Hcl IH|h ms' n p h1 h' Hne Hr Hn Hc Hcl IH]; intros Hb; [done|apply IH..].
  - unfold cxl_malloc in Hc. pose proof (malloc_law ms n h (Hreg _ Hb) Hn) as Ha.
    destruct (mspace_malloc ms n h) as [p h2]. apply ebind_inr in Hc as (f' & _ & [= -> -> ->]). by apply (allocates_ok _ _ _ _ _ _ Hb) in Ha.
  - unfold cxl_memalign in Hc. pose proof (memalign_law ms al n h (Hreg _ Hb) Hn) as Ha.
    destruct (mspace_memalign ms al n h) as [p h2]. apply ebind_inr in Hc as (f' & _ & [= -> -> ->]). by apply (allocates_ok _ _ _ _ _ _ Hb) in Ha.
  - eapply allocates_ok; [exact Hb|]. by apply calloc_law; [apply Hreg|..].
  - unfold cxl_realloc. destruct (realloc_law ms p n h (Hreg _ Hb) Hn Hp) as [Hr [Ht|[_ Hl]]].
    + pose proof (free_ok _ _ _ _ Hb Hp) as Hf. eapply taken_ok; [exact Hf|exact Ht|].
      unfold cxl_free. rewrite Hr. by rewrite (proj1 (free_law ms p h Hp)).
    + destruct Hb as [B1 B2 B3]. constructor; [by rewrite Hr|rewrite Hl; exact B2|rewrite Hl; exact B3].
  - pose proof (cxl_new_block rand_ ms n h (Hreg _ Hb) Hn) as Ha. rewrite Hc in Ha. destruct Ha. by eapply taken_ok.
  - unfold cxl_allocate in Hc. pose proof (cxl_new_block rand_ ms (u64 (n * sz)) h (Hreg _ Hb) ltac:(by apply wrap_bounds)) as Ha.
    rewrite Hc in Ha. destruct Ha. by eapply taken_ok.
  - by apply free_ok.
  - pose proof (operator_new_block ms' n h Hr Hn) as Ha. rewrite Hc in Ha. destruct Ha. by eapply taken_ok.
Qed.
End Client.

(** ** A malloc library to run examples with: blocks one after the other *)
Record Bump := mkBump { bump_regions : gmap Z (Z * Z); bump_live : gmap Z (Z * Z) }.
Definition top_of (l : gmap Z (Z * Z)) : Z := map_fold (fun p x m => Z.max (p + Z.max x.2 1) m) 1 l.
Definition bump_malloc (ms n : Z) (h : Bump) : Z * Bump :=
  match bump_regions h !! ms with
  | Some (base, cap) =>
      let p := Z.max base (top_of (bump_live h)) in
      if p + n <=? base + cap then (p, mkBump (bump_regions h) (<[p := (ms, n)]> (bump_live h))) else (0, h)
  | None => (0, h)
  end.
Definition bump_free (ms p : Z) (h : Bump) : Bump := mkBump (bump_regions h) (delete p (bump_live h)).
Definition bump_realloc (ms p n : Z) (h : Bump) : Z * Bump :=
  let (q, h') := bump_malloc ms n (bump_free ms p h) in if q =? 0 then (0, h) else (q, h').
Definition fresh_space (h : Bump) : Z :=
  1 + map_fold (fun p x m => Z.max (Z.abs x.1) m) (map_fold (fun ms _ m => Z.max (Z.abs ms) m) 0 (bump_regions h)) (bump_live h).
Definition bump_create (base cap locked : Z) (h : Bump) : Z * Bump :=
  let ms := fresh_space h in (ms, mkBump (<[ms := (base, cap)]> (bump_regions h)) (bump_live h)).
Definition bump_spaces : Mspaces := {|
  Heap := Bump; live := bump_live; region h ms := bump_regions h !! ms;
  mspace_malloc := bump_malloc; mspace_memalign := fun ms _ => bump_malloc ms;
  mspace_calloc := fun ms k n => bump_malloc ms (k * n); mspace_realloc := bump_realloc;
  mspace_free := bump_free; create_mspace_with_base := bump_create
|}.

Lemma map_fold_max {A} (f : Z -> A -> Z) b (l : gmap Z A) :
  b <= map_fold (fun p x m => Z.max (f p x) m) b l /\
  forall p x, l !! p = Some x -> f p x <= map_fold (fun p x m => Z.max (f p x) m) b l.
Proof.
  apply (map_fold_weak_ind (fun r l => b <= r /\ forall p x, l !! p = Some x -> f p x <= r)).
  - split; [lia|]. intros p x Hp. by rewrite lookup_empty in Hp.
  - intros i y l' r Hi [IH1 IH2]. split; [lia|]. intros p x [[<- <-]|[_ Hp]]%lookup_insert_Some; [lia|].
    specialize (IH2 _ _ Hp). lia.
Qed.
Lemma top_spec l : 1 <= top_of l /\ forall p x, l !! p = Some x -> p + Z.max x.2 1 <= top_of l.
Proof. apply (map_fold_max (fun p x => p + Z.max x.2 1)). Qed.

Lemma bump_allocates ms n h : allocates (H := bump_spaces) ms n h (bump_malloc ms n h).
Proof.
  unfold allocates, bump_malloc; simpl. destruct (bump_regions h !! ms) as [[base cap]|] eqn:Er; [|by auto].
  destruct (top_spec (bump_live h)) as [T1 T2]. case_match eqn:El; [|by auto]. bools. split; [done|left].
  constructor; simpl; try done.
  - lia.
  - destruct (bump_live h !! _) as [x|] eqn:Ex; [|done]. specialize (T2 _ _ Ex). lia.
  - intros b c Hbc. rewrite Er in Hbc. injection Hbc as <- <-. lia.
  - intros q ms' k Hq. specialize (T2 _ _ Hq). simpl in T2. right. lia.
Qed.
#[export] Instance bump_laws : MspaceLaws (H := bump_spaces).
Proof.
  constructor; simpl.
  - intros ms n h _ _. apply bump_allocates.
  - intros ms _ n h _ _. apply bump_allocates.
  - intros ms k n h _ _ _. apply bump_allocates.
  - done.
  - intros ms p n h _ _ _. unfold bump_realloc. destruct (bump_allocates ms n (bump_free ms p h)) as [H1 H2].
    destruct (bump_malloc ms n (bump_free ms p h)) as [q h']; simpl in *. case_match eqn:Eq; simpl; [by auto|].
    split; [done|]. destruct H2 as [H2|[H2 _]]; [by left|]. subst q. done.
  - intros base cap locked h Ha. unfold bump_create; simpl. split; [done|right].
    split; [by rewrite lookup_insert_eq|]. split; [intros ms' Hne; by rewrite lookup_insert_ne|].
    intros p n Hp. unfold fresh_space in Hp.
    pose proof (proj2 (map_fold_max (fun p x => Z.abs x.1) (map_fold (fun ms _ m => Z.max (Z.abs ms) m) 0 (bump_regions h)) (bump_live h)) _ _ Hp) as Hm.
    simpl in Hm. lia.
Qed.

(** ** The CXL memory *)

(** Everything that is allocated in the CXL space lies in the CXL memory: when
    [init_cxl_space] has made a space of [size] bytes at [offset], with no overflow
    of their sum, then after any sequence of allocations, reallocations and frees
    of the space, and of others, every address of every block of the space is one
    that [mem_is_cxl] accepts, so that loads and stores of it go through the
    model, and the block shares no byte with another one. *)
Theorem cxl_blocks_are_cxl `{MspaceLaws} rand_ s offset size h0 space h1 h p n :
  0 <= offset -> 0 <= size -> offset + size < 2 ^ 64 ->
  0 < cxl_mapping (mdl s) -> cxl_mapping (mdl s) + CXL_MEM_SIZE < 2 ^ 64 ->
  (forall q x, live h0 !! q = Some x -> apart (cxl_mapping (mdl s) + offset) size q x.2) ->
  (forall q r x y, q <> r -> live h0 !! q = Some x -> live h0 !! r = Some y -> apart q x.2 r y.2) ->
  init_cxl_space s offset size h0 = inr (space, h1) -> space <> 0 ->
  client rand_ space h1 h -> live h !! p = Some (space, n) ->
  (forall a, p <= a < p + n -> mem_is_cxl s a = true) /\
  (forall q x, q <> p -> live h !! q = Some x -> apart p n q x.2).
Proof.
  intros Ho Hsz Hov Hmp Hmm Hfree Hap Hi Hsp Hcl Hp. unfold init_cxl_space, eassert in Hi.
  rewrite (wrap_small 64 (offset + size)) in Hi by lia. case_match eqn:Ele; [|done]. bools. simpl in Hi. injection Hi as Hi.
  rewrite wrap_small in Hi by (unfold CXL_MEM_SIZE in *; lia).
  pose proof (create_law (cxl_mapping (mdl s) + offset) size 1 h0 Hfree) as Hc. rewrite Hi in Hc.
  destruct Hc as [Hl [Hz|(Hr & _ & Hno)]]; [done|].
  assert (blocks_ok space (cxl_mapping (mdl s) + offset) size h1) as Hb.
  { constructor; [done|rewrite Hl; intros q k Hq; by destruct (Hno q k)|rewrite Hl; exact Hap]. }
  apply (client_ok _ _ _ _ _ _ Hcl) in Hb as [_ B2 B3]. split.
  - intros a Ha. destruct (B2 _ _ Hp). unfold mem_is_cxl. rewrite wrap_small by (unfold CXL_MEM_SIZE in *; lia).
    rewrite (proj2 (Z.eqb_neq _ _)), (proj2 (Z.leb_le _ _)), (proj2 (Z.ltb_lt _ _)) by lia. done.
  - intros q x Hq Hx. by apply (B3 p q (space, n) x).
Qed.

(** A process with the CXL memory at [2^33], which takes half of it and allocates
    two blocks. *)
Definition demo_cxl : St :=
  mkSt (Scheduler_new 1) (with_cxl_mapping (2 ^ 33) (Model_new 1)) ∅ ∅ 1 ∅ (Process_init 0 0).
Definition demo_base : Z := 2 ^ 33 + 2 ^ 31.
Definition demo_heap0 : Bump := mkBump ∅ ∅.
Definition demo_heap1 : Bump := mkBump {[1 := (demo_base, 2 ^ 31)]} ∅.
Definition demo_heap2 : Bump := mkBump {[1 := (demo_base, 2 ^ 31)]} {[demo_base := (1, 100)]}.
Definition demo_heap3 : Bump :=
  mkBump {[1 := (demo_base, 2 ^ 31)]} {[demo_base + 100 := (1, 64); demo_base := (1, 100)]}.
Lemma cxl_blocks_are_cxl_witness : mem_is_cxl demo_cxl (demo_base + 150) = true.
Proof.
  refine (proj1 (cxl_blocks_are_cxl (H := bump_spaces) false demo_cxl (2 ^ 31) (2 ^ 31) demo_heap0 1 demo_heap1 demo_heap3
    (demo_base + 100) 64 _ _ _ _ _ _ _ _ _ _ _) (demo_base + 150) _).
  1-3, 9: lia.
  1-2: vm_compute; reflexivity.
  - intros q x Hq. simpl in Hq. by rewrite lookup_empty in Hq.
  - intros q r x y _ Hq. simpl in Hq. by rewrite lookup_empty in Hq.
  - vm_compute. reflexivity.
  - eapply (cl_malloc (H := bump_spaces) false 1 _ 100 _ _ demo_heap2); [lia|vm_compute; reflexivity|].
    eapply (cl_new (H := bump_spaces) false 1 _ 64 _ demo_heap3); [lia|vm_compute; reflexivity|apply cl_refl].
  - vm_compute. reflexivity.
  - split; [apply Z.leb_le|apply Z.ltb_lt]; vm_compute; reflexivity.
Defined.

(** The assertion of [init_cxl_space] adds in 64 bits: an offset just below
    [2^64] passes it and the space begins before the CXL memory. *)
Theorem init_cxl_space_overflow `{Mspaces} s h : let base := cxl_mapping (mdl s) in
  4096 <= base -> base + CXL_MEM_SIZE < 2 ^ 64 ->
  init_cxl_space s (2 ^ 64 - 4096) 8192 h = inr (create_mspace_with_base (base - 4096) 8192 1 h) /\
  mem_is_cxl s (base - 4096) = false.
Proof.
  intros base H1 H2. unfold init_cxl_space. split.
  - replace (u64 (2 ^ 64 - 4096 + 8192)) with 4096 by done. simpl. fold base. repeat f_equal.
    unfold wrap. symmetry. apply (Z.mod_unique _ _ 1); unfold CXL_MEM_SIZE in *; lia.
  - unfold mem_is_cxl. fold base. rewrite (proj2 (Z.leb_gt _ (base - 4096))) by lia. by rewrite andb_false_r.
Qed.
Lemma init_cxl_space_overflow_witness : mem_is_cxl demo_cxl (2 ^ 33 - 4096) = false.
Proof.
  apply (init_cxl_space_overflow (H := bump_spaces) demo_cxl demo_heap0);
    [apply Z.leb_le|apply Z.ltb_lt]; vm_compute; reflexivity.
Defined.

(** [new] and the allocators' [allocate] give a block of the size asked for, of
    no byte in use, or stop with "bad alloc"; [delete] of it gives the space back
    as it was.  The product of [allocate] has 64 bits: [n] objects fit in the
    block if it does not overflow. *)
Theorem allocate_then_deallocate `{MspaceLaws} space sizeof_T n h : is_Some (region h space) ->
  0 <= n -> 0 <= sizeof_T -> n * sizeof_T < 2 ^ 64 ->
  match shared_allocate space sizeof_T n h with
  | inr (p, h') => taken space (n * sizeof_T) p h h' /\ live (shared_deallocate space p n h') = live h
  | inl e => e = AssertFail "bad alloc"
  end.
Proof.
  intros Hr Hn Hsz Hov. unfold shared_allocate. rewrite wrap_small by nia.
  pose proof (operator_new_block space (n * sizeof_T) h Hr ltac:(nia)) as Ha.
  destruct (operator_new space (n * sizeof_T) h) as [e|[p h']]; [done|]. destruct Ha as [Ht Hreg]. split; [done|].
  unfold shared_deallocate. pose proof (tk_live _ _ _ _ _ Ht) as Hl.
  destruct (free_law space p h') as [_ ->]; [right; exists (n * sizeof_T); by rewrite Hl, lookup_insert_eq|].
  rewrite Hl. apply delete_insert_id, (tk_fresh _ _ _ _ _ Ht).
Qed.
Lemma allocate_then_deallocate_witness : exists h, shared_allocate (H := bump_spaces) 1 8 4 demo_heap2 = inr (demo_base + 100, h) /\
  live (shared_deallocate (H := bump_spaces) 1 (demo_base + 100) 4 h) = live (Mspaces := bump_spaces) demo_heap2.
Proof.
  pose proof (allocate_then_deallocate (H := bump_spaces) 1 8 4 demo_heap2 ltac:(by eexists) ltac:(lia) ltac:(lia) ltac:(lia)) as Ha.
  destruct (shared_allocate (H := bump_spaces) 1 8 4 demo_heap2) as [e|[p h]] eqn:E; [by vm_compute in E|].
  destruct Ha as [_ Ha]. exists h. assert (p = demo_base + 100) as -> by (by vm_compute in E; injection E as <- _).
  by split.
Defined.

(** With an overflow the block is smaller than the objects: [2^61 + 1] objects of 8
    bytes get 8 bytes. *)
Example allocate_overflow : exists h, shared_allocate (H := bump_spaces) 1 8 (2 ^ 61 + 1) demo_heap2 = inr (demo_base + 100, h) /\
  live (Mspaces := bump_spaces) h !! (demo_base + 100) = Some (1, 8).
Proof. eexists. split; vm_compute; reflexivity. Qed.

(** With [CXL_ALLOC_RAND] set, a [cxl_malloc] that fails writes through the null
    pointer before its caller can test it. *)
Lemma cxl_malloc_rand_null `{Mspaces} space n h h' : mspace_malloc space n h = (0, h') ->
  cxl_malloc true space n h = inl (UB "memset of a null pointer") /\ cxl_malloc false space n h = inr (0, None, h').
Proof. intros Hm. unfold cxl_malloc. by rewrite Hm. Qed.
