(* ===== verification/Executor.v ===== *)
(** * Executor: carrying out the actions

    [Model::action] and [Model::process_store_buffer] of
    [src/src/model/model.cc], [execute] of [src/src/model/executor.cc],
    [Mutex::set_owner] and [Scheduler::process_shutdown].  A thread that yields
    inside an action stops at a [point]; the machine of [Machine] resumes it
    there when the scheduler selects it again. *)
From S2P Require Import Prelude Choice Action ReadFrom CacheLine ThreadMemory State Scheduler ModelCore.

(** Where a thread waits: before [execute], in the loop of [ATOMIC_LOCK], after
    [execute], or in [Thread::finalize]. *)
Inductive point := PExec | PLock | PAfter | PDead.
Inductive outcome := Done (val : Z) | Wait (p : point).
(** [execute] finished the action, or waits at a point. *)
Inductive progress := Executed (a : ModelAction) | Blocked (p : point).

(** [rand] and [random] of the C library: a generator of non-negative numbers
    over the state that [srand] sets. *)
Class Rand := { rand_next : Z -> Z * Z; rand_nonneg : forall g, 0 <= fst (rand_next g) }.

(** A generator to run examples with. *)
Definition counter_rand : Rand := {| rand_next := fun g => (Z.abs g, g + 1); rand_nonneg := fun g => Z.abs_nonneg g |}.

Definition EDEADLK : Z := 35.
Definition EPERM : Z := 1.
Definition EBUSY : Z := 16.
Definition EINVAL : Z := 22.
Definition set_errno (e : Z) : M St unit := modify (on_proc (with_errno e)).

(** ** The model as evictor of the buffers of thread [tid] *)
Definition get_thread_memory (tid : Z) (s : St) : ThreadMemory :=
  match lookupZ (threads (sched s)) tid with Some t => thread_memory t | None => ThreadMemory_new end.
Definition put_thread_memory (tid : Z) (tm : ThreadMemory) (s : St) : St :=
  on_sched (fun c => with_threads (update_at tid (set_thread_memory tm) (threads c)) c) s.
Definition thread_exists (tid : Z) (s : St) : Prop := is_Some (lookupZ (threads (sched s)) tid).

(** Properties of the thread table that the operations on memory keep. *)
Section SchedOnly.
Variable P : Scheduler -> Prop.
Hypothesis P_crash : forall pid c, P c -> P (process_crash_sched pid c).
Let I (s : St) : Prop := P (sched s).

Lemma so_mdl f : preserves I (modify (on_mdl f)).
Proof. by apply preserves_modify. Qed.
Lemma so_lift {A} (m : err A) : preserves I (lift m).
Proof. destruct m; intros ? Hs; exact Hs. Qed.
Local Hint Resolve so_mdl so_lift : pres.
Local Hint Unfold self_pid self_tid get_thread decision_point_m : pres.
Ltac so := pres; try (unfold self_pid, self_tid, decision_point_m; pres).

Lemma so_get_storelist a : preserves I (get_storelist a).
Proof. unfold get_storelist. so. Qed.
Lemma so_set_storelist a l : preserves I (set_storelist a l).
Proof. unfold set_storelist. so. Qed.
Lemma so_next_seq : preserves I get_next_sequence_num.
Proof. unfold get_next_sequence_num. so. Qed.
Local Hint Resolve so_get_storelist so_set_storelist so_next_seq : pres.
Lemma so_evict_store a : preserves I (Model_evict_store a).
Proof. unfold Model_evict_store. so. Qed.
Lemma so_cacheline p a : preserves I (cacheline p a).
Proof. unfold cacheline. so. Qed.
Lemma so_assign p a w : preserves I (assign_cacheline p a w).
Proof. unfold assign_cacheline. so. Qed.
Local Hint Resolve so_cacheline so_assign : pres.
Lemma so_flush_windows l a n m : preserves I (flush_windows l a n m).
Proof. revert m. induction l as [|i l IH]; intros m; simpl; so. Qed.
Lemma so_get_thread t : preserves I (get_thread t).
Proof. unfold get_thread. so. Qed.
Local Hint Resolve so_get_thread so_flush_windows : pres.
Lemma so_ask_crash : preserves I ask_crash.
Proof. unfold ask_crash. so. Qed.
Local Hint Resolve so_ask_crash : pres.
Lemma so_should_crash : preserves I should_crash.
Proof. unfold should_crash. so. Qed.
Lemma so_process_crash : preserves I process_crash.
Proof.
  unfold process_crash. apply preserves_bind; [unfold self_pid; so|]. intros p. apply preserves_modify.
  intros s. apply P_crash.
Qed.
Lemma so_emplace p : preserves I (emplace_crash p).
Proof. unfold emplace_crash. so. Qed.
Local Hint Resolve so_should_crash so_process_crash so_emplace : pres.
Lemma so_insert_crash p : preserves I (insert_crash p).
Proof. unfold insert_crash. so. Qed.
Lemma so_get_process_id a : preserves I (get_process_id a).
Proof. unfold get_process_id. so. Qed.
Local Hint Resolve so_insert_crash so_get_process_id : pres.
Lemma so_crash_writer l m : preserves I (crash_writer l m).
Proof. induction l as [|w l IH]; simpl; so. Qed.
Local Hint Resolve so_crash_writer : pres.
Lemma so_evict_clflush a : preserves I (Model_evict_clflush a).
Proof. unfold Model_evict_clflush. so. Qed.
End SchedOnly.

Section ThreadEvictor.
Variable tid : Z.

(** A crash of a process keeps the memory of every thread. *)
Lemma crash_thread_memory pid c tm :
  (exists t, lookupZ (threads c) tid = Some t /\ thread_memory t = tm) ->
  exists t, lookupZ (threads (process_crash_sched pid c)) tid = Some t /\ thread_memory t = tm.
Proof.
  intros (t & Ht & <-). destruct (process_crash_done pid c tid t Ht) as (t' & Ht' & Hs & _).
  exists t'. split; [done|]. rewrite Hs. by destruct t.
Qed.

Lemma at_thread_memory tm s : thread_exists tid s /\ get_thread_memory tid s = tm <->
  exists t, lookupZ (threads (sched s)) tid = Some t /\ thread_memory t = tm.
Proof.
  unfold thread_exists, get_thread_memory. split.
  - intros [[t Ht] <-]. rewrite Ht. eauto.
  - intros (t & -> & <-). eauto.
Qed.

Lemma keeps_memory {A} (m : M St A) tm :
  (forall P : Scheduler -> Prop, (forall pid c, P c -> P (process_crash_sched pid c)) ->
     preserves (fun s => P (sched s)) m) ->
  preserves (fun s => thread_exists tid s /\ get_thread_memory tid s = tm) m.
Proof.
  intros Hm s Hs. apply at_thread_memory in Hs.
  eapply wp_mono; [|apply (Hm (fun c => exists t, lookupZ (threads c) tid = Some t /\ thread_memory t = tm));
    [intros; by apply crash_thread_memory|exact Hs]].
  intros [a s'|e s']; simpl; by intros ?%at_thread_memory.
Qed.

#[export] Program Instance thread_evictor : Evictor St := {|
  get_tm := get_thread_memory tid; put_tm := put_thread_memory tid;
  evict_store := Model_evict_store; evict_clflush := Model_evict_clflush; tm_ok := thread_exists tid |}.
Next Obligation.
  intros tm s [t Ht]. unfold get_thread_memory, put_thread_memory. simpl.
  by rewrite lookupZ_update_at, decide_True, Ht.
Qed.
Next Obligation.
  intros tm s [t Ht]. unfold thread_exists, put_thread_memory. simpl.
  rewrite lookupZ_update_at, decide_True, Ht by done. by eexists.
Qed.
Next Obligation. intros a tm. apply keeps_memory. intros P HP. apply so_evict_store. Qed.
Next Obligation. intros a tm. apply keeps_memory. intros P HP. by apply so_evict_clflush. Qed.
End ThreadEvictor.

(** ** The buffers of a thread *)
Definition buffer_store (tid : Z) (a : ModelAction) : M St unit :=
  add_to_store_buffer (S := St) (H := thread_evictor tid) a.
Definition pop_thread (tid : Z) : M St bool := pop_from_store_buffer (S := St) (H := thread_evictor tid).
Definition empty_buffers (tid : Z) : M St unit :=
  empty_store_buffer (S := St) (H := thread_evictor tid) ;;;
  empty_flush_buffer (S := St) (H := thread_evictor tid).

(** ** Mutexes *)

(** The two halves of [Mutex::set_owner]: the mutex leaves the set of its old
    owner, unless that has crashed, and enters the set of the new one. *)
Definition mutex_disown (m : Z) (own : option Z) : M St unit :=
  match own with
  | Some o =>
      let! t := get_thread o in
      if bool_decide (thr_state t <> THREAD_CRASHED) then
        massert (bool_decide (m ∈ owned_mutexes t)) "iter != mutex_set.end()" ;;;
        upd_thread o (set_owned (owned_mutexes t ∖ {[m]}))
      else ret tt
  | None => ret tt
  end.
Definition mutex_own (m : Z) (thr : option Z) : M St unit :=
  match thr with
  | Some o =>
      let! t := get_thread o in
      massert (bool_decide (m ∉ owned_mutexes t)) "pair.second" ;;;
      upd_thread o (set_owned ({[m]} ∪ owned_mutexes t))
  | None => ret tt
  end.
Definition Mutex_set_owner (m : Z) (thr : option Z) : M St unit :=
  let! mx := get_mutex_obj m in
  mutex_disown m (owner mx) ;;;
  mutex_own m thr ;;;
  upd_mutex m (fun mx => mkMutex (mutex_type mx) thr 0).

Definition wake_waiters (v : object) : M St unit := modify (on_sched (wake_all_threads_waiting_on v)).
Definition wake_one (v : object) : M St unit :=
  let! tid := self_tid in modify (on_sched (wake_thread_waiting_on tid v)).

Definition may_wait (a : ModelAction) : bool :=
  match act_type a with PTHREAD_JOIN | ATOMIC_LOCK | ATOMIC_WAIT => true | _ => false end.

(** [thread_wait]: the thread blocks and another one runs; without one, the
    program is in a deadlock and [yield] exits. *)
Definition thread_wait (tid : Z) : M St bool :=
  let! t := get_thread tid in
  massert (match pending t with Some a => may_wait a | None => false end) "thread_wait" ;;;
  upd_thread tid (set_state THREAD_BLOCKED) ;;;
  yield.

(** [Thread::finalize] *)
Definition Thread_finalize : M St progress :=
  let! more := finalize in
  if more then ret (Blocked PDead) else halt (AssertFail "Thread::finalize").

(** The loop of [ATOMIC_LOCK]. *)
Definition lock_loop (a : ModelAction) (m : Z) : M St progress :=
  let! mx := get_mutex_obj m in
  let! crashed :=
    (match owner mx with
     | None => ret (Some false)
     | Some o => let! t := get_thread o in
                 ret (if bool_decide (thr_state t = THREAD_CRASHED) then Some true else None)
     end) in
  match crashed with
  | Some thread_crashed =>
      Mutex_set_owner m (Some (act_tid a)) ;;;
      ret (Executed (set_value (Z.b2z thread_crashed) a))
  | None =>
      let! switched := thread_wait (act_tid a) in
      if switched then ret (Blocked PLock) else halt (NoReturn "ATOMIC_LOCK")
  end.

Definition exec_lock (a : ModelAction) : M St progress :=
  let! m := lift (get_mutex a) in
  let! mx := get_mutex_obj m in
  match owner mx with
  | None => Mutex_set_owner m (Some (act_tid a)) ;;; ret (Executed a)
  | Some o =>
      if act_tid a =? o then
        if mutex_type mx =? PTHREAD_MUTEX_RECURSIVE then upd_mutex m increment_lock_count ;;; ret (Executed a)
        else if mutex_type mx =? PTHREAD_MUTEX_ERRORCHECK then set_errno EDEADLK ;;; ret (Executed a)
        else halt Abort
      else lock_loop a m
  end.

Definition exec_trylock (a : ModelAction) : M St progress :=
  let! m := lift (get_mutex a) in
  let! mx := get_mutex_obj m in
  let! free :=
    (match owner mx with
     | None => ret (Some false)
     | Some o => let! t := get_thread o in
                 ret (if bool_decide (thr_state t = THREAD_CRASHED) then Some true else None)
     end) in
  match free with
  | Some thread_crashed =>
      Mutex_set_owner m (Some (act_tid a)) ;;;
      ret (Executed (set_value (1 + Z.b2z thread_crashed) a))
  | None => ret (Executed (set_value 0 a))
  end.

(** [ATOMIC_UNLOCK] and the first half of [ATOMIC_WAIT]. *)
Definition exec_unlock (a : ModelAction) : M St progress :=
  let! m := lift (get_mutex a) in
  let! mx := get_mutex_obj m in
  if negb (bool_decide (owner mx = Some (act_tid a))) then set_errno EPERM ;;; ret (Executed a)
  else if (mutex_type mx =? PTHREAD_MUTEX_RECURSIVE) && (0 <? recursive_lock_count mx) then
    upd_mutex m decrement_lock_count ;;; ret (Executed a)
  else
    Mutex_set_owner m None ;;;
    wake_waiters (OMutex m) ;;;
    if bool_decide (act_type a = ATOMIC_WAIT) then
      let! switched := thread_wait (act_tid a) in
      ret (if switched then Blocked PAfter else Executed a)
    else ret (Executed a).

(** ** [execute] *)

Definition THREAD_ID_SIZE : Z := 4.
(** The [pthread_params] at an address: two pointers. *)
Definition load_params (s : St) (addr : Z) : Z * Z :=
  (load_bytes (memory s) addr 8, load_bytes (memory s) (addr + 8) 8).

Definition exec_create (a : ModelAction) : M St progress :=
  let! s := get in
  let (func, arg) := load_params s (value a) in
  let (tid, c) := new_thread (process_id (proc s)) (thread_id (proc s)) func arg (sched s) in
  modify (on_sched (fun _ => c)) ;;;
  let! self := self_tid in
  buffer_store (act_tid a)
    (ModelAction_new self NONATOMIC_STORE (location a) tid memory_order_relaxed THREAD_ID_SIZE "pthread_create") ;;;
  modify (on_memory (fun m => store_bytes m (location a) (to_le 4 tid))) ;;;
  ret (Executed a).

Definition exec_join (a : ModelAction) : M St progress :=
  let! tid := lift (get_thread_ptr a) in
  let! t := get_thread tid in
  let! pid := self_pid in
  massert (thr_pid t =? pid) "thread->get_process_id() == process_id" ;;;
  if bool_decide (thr_state t <> THREAD_COMPLETED) then
    let! switched := thread_wait (act_tid a) in
    ret (if switched then Blocked PAfter else Executed a)
  else ret (Executed a).

Definition exec_store (a : ModelAction) : M St progress :=
  buffer_store (act_tid a) (ModelAction_copy a) ;;;
  (if bool_decide (act_type a = ATOMIC_RMW) || is_seq_cst a then empty_buffers (act_tid a) else ret tt) ;;;
  ret (Executed a).

Definition exec_load (a : ModelAction) : M St progress :=
  let! v := build_read_from a in ret (Executed (set_value v a)).

Definition execute (a : ModelAction) : M St progress :=
  match act_type a with
  | THREAD_START | THREAD_YIELD => ret (Executed a)
  | THREAD_FINISH => wake_waiters (OThread (act_tid a)) ;;; Thread_finalize
  | THREADONLY_FINISH =>
      upd_thread (act_tid a) (set_ret_val (location a)) ;;;
      wake_waiters (OThread (act_tid a)) ;;;
      Thread_finalize
  | PTHREAD_CREATE => exec_create a
  | PTHREAD_JOIN => exec_join a
  | ATOMIC_TRYLOCK => exec_trylock a
  | ATOMIC_LOCK => exec_lock a
  | ATOMIC_WAIT | ATOMIC_TIMEDWAIT | ATOMIC_UNLOCK => exec_unlock a
  | ATOMIC_NOTIFY_ONE => let! cv := lift (get_cond a) in wake_one (OCond cv) ;;; ret (Executed a)
  | ATOMIC_NOTIFY_ALL => let! cv := lift (get_cond a) in wake_waiters (OCond cv) ;;; ret (Executed a)
  | ATOMIC_INIT | ATOMIC_STORE | NONATOMIC_STORE | ATOMIC_RMW => exec_store a
  | ATOMIC_RMWR => empty_buffers (act_tid a) ;;; exec_load a
  | ATOMIC_LOAD | NONATOMIC_LOAD => exec_load a
  | CACHE_SFENCE | CACHE_CLFLUSH | CACHE_CLFLUSHOPT =>
      buffer_store (act_tid a) (ModelAction_copy a) ;;; ret (Executed a)
  | CACHE_MFENCE => empty_buffers (act_tid a) ;;; ret (Executed a)
  | ATOMIC_CAS_FAILED => ret (Executed a)
  end.

(** The object whose waiters [execute] wakes for an action, when it gets there. *)
Definition woken_by (a : ModelAction) : option object :=
  match act_type a with
  | THREAD_FINISH | THREADONLY_FINISH => Some (OThread (act_tid a))
  | ATOMIC_WAIT | ATOMIC_TIMEDWAIT | ATOMIC_UNLOCK =>
      match get_mutex a with inr m => Some (OMutex m) | inl _ => None end
  | ATOMIC_NOTIFY_ONE | ATOMIC_NOTIFY_ALL =>
      match get_cond a with inr c => Some (OCond c) | inl _ => None end
  | _ => None
  end.

(** ** [Model::action] *)

Section Random.
Context `{Rand}.

Definition rand : M St Z :=
  let! g := gets (fun s => rng (proc s)) in
  let (r, g') := rand_next g in
  modify (on_proc (with_rng g')) ;;; ret r.

(** The loop looks for a thread of a live process, at most [n] steps from [t]. *)
Fixpoint find_live (n : nat) (t thread_count : Z) : M St Z :=
  match n with
  | O => ret t
  | S n =>
      let! th := get_thread t in
      let! s := get in
      if is_live s (thr_pid th) then ret t else find_live n ((t + 1) mod thread_count) thread_count
  end.

Definition process_store_buffer : M St unit :=
  let! thread_count := gets (fun s => lenZ (threads (sched s))) in
  let! r := rand in
  let! thread_to_pop := find_live (Z.to_nat thread_count) (r mod thread_count) thread_count in
  let! t := get_thread thread_to_pop in
  let size := get_store_buffer_size (thread_memory t) in
  if size =? 0 then ret tt
  else
    let! r := rand in
    let num := r mod EVICT_MAX in
    let num := if size <=? num then size - 1 else num in
    times (Z.to_nat num) (let! _ := pop_thread thread_to_pop in ret tt).

(** The end of an action, after [execute]. *)
Definition action_end (a : ModelAction) : M St outcome :=
  let! tid := self_tid in
  upd_thread tid (set_pending None) ;;;
  process_store_buffer ;;;
  modify (on_proc (with_inside_model false)) ;;;
  ret (Done (value a)).

Definition after_execute (r : progress) : M St outcome :=
  match r with
  | Executed a => action_end a
  | Blocked p => ret (Wait p)
  end.

(** From the point before [execute]. *)
Definition action_exec (a : ModelAction) : M St outcome :=
  (if is_read a || is_write a then ensureInitialValue a else ret tt) ;;;
  let! n := gets (fun s => next_sequence_num (mdl s)) in
  let a := if bool_decide (act_type a = CACHE_CLFLUSHOPT) then set_earliest_effect n a else a in
  let! r := execute a in
  after_execute r.

Definition action (a : ModelAction) (yield_flag : bool) : M St outcome :=
  assert_active ;;;
  let! pid := self_pid in
  let! s := get in
  if is_crashed s pid then process_crash ;;; halt (Exit EXIT_SUCCESS)
  else
    modify (on_proc (with_inside_model true)) ;;;
    let! tid := self_tid in
    upd_thread tid (set_pending (Some a)) ;;;
    let! switched := (if yield_flag && negb (is_second_part_of_rmw a) then yield else ret false) in
    if switched then ret (Wait PExec) else action_exec a.

(** The thread is selected again while its action waits at a point. *)
Definition resume (p : point) (a : ModelAction) : M St outcome :=
  match p with
  | PExec => action_exec a
  | PLock =>
      let! m := lift (get_mutex a) in
      let! r := lock_loop a m in
      after_execute r
  | PAfter => action_end a
  | PDead => halt (AssertFail "Thread::finalize")
  end.

(** [Scheduler::process_shutdown] after its [yield]. *)
Definition shutdown_thread (i : Z) : M St unit :=
  let! t := get_thread i in
  let! pid := self_pid in
  if thr_pid t =? pid then
    (if thread_is_completed t then ret tt else upd_thread i (set_state THREAD_COMPLETED)) ;;;
    empty_buffers i
  else ret tt.
Definition process_shutdown : M St unit :=
  let! n := gets (fun s => lenZ (threads (sched s))) in
  for_each (seqZ 0 n) shutdown_thread.
End Random.
