(* ===== verification/Atomic.v ===== *)
(** * Atomic: the accesses to memory run without interruption

    [Model::action] gives the processor away only in [Scheduler::yield].  An
    access to memory reaches it at most once, before it is carried out, and the
    second half of a read-modify-write never does. *)
From S2P Require Import Prelude Choice Action ReadFrom CacheLine ThreadMemory State Scheduler ModelCore Executor.

(** Loads, stores, read-modify-writes, flushes and fences. *)
Definition memory_type (t : action_type) : bool :=
  match t with
  | NONATOMIC_STORE | NONATOMIC_LOAD | ATOMIC_INIT | ATOMIC_STORE | ATOMIC_LOAD
  | ATOMIC_RMWR | ATOMIC_CAS_FAILED | ATOMIC_RMW
  | CACHE_MFENCE | CACHE_SFENCE | CACHE_CLFLUSH | CACHE_CLFLUSHOPT => true
  | _ => false
  end.

(** The types whose action returns the value it was given. *)
Definition keeps_value (t : action_type) : bool :=
  match t with
  | NONATOMIC_LOAD | ATOMIC_LOAD | ATOMIC_RMWR => false
  | _ => true
  end.

Section Active.
Variable n : Z.
Definition active_is (s : St) : Prop := active_thread (sched s) = n.
Let P (c : Scheduler) : Prop := active_thread c = n.

Lemma P_crash pid c : P c -> P (process_crash_sched pid c).
Proof.
  unfold process_crash_sched. generalize (seqZ 0 (lenZ (threads c))) as l. intros l. revert c.
  induction l as [|i l IH]; intros c Hc; simpl; [done|]. apply IH. unfold P.
  by rewrite (proj1 (proj2 (crash_thread_count pid c i))).
Qed.

Lemma ac_sched f : (forall c, active_thread (f c) = active_thread c) -> preserves active_is (modify (on_sched f)).
Proof. intros Hf. apply preserves_modify. intros s Hs. unfold active_is. simpl. by rewrite Hf. Qed.
Lemma ac_other f : (forall s, sched (f s) = sched s) -> preserves active_is (modify f).
Proof. intros Hf. apply preserves_modify. intros s Hs. unfold active_is. by rewrite Hf. Qed.

Lemma ac_upd_tm i f : preserves active_is (upd_tm (H := thread_evictor i) f).
Proof. unfold upd_tm. by apply preserves_modify. Qed.
Lemma ac_get_tm i : preserves active_is (gets (get_tm (Evictor := thread_evictor i))).
Proof. apply preserves_gets. Qed.
Lemma ac_store a : preserves active_is (Model_evict_store a).
Proof. apply (so_evict_store P). Qed.
Lemma ac_clflush a : preserves active_is (Model_evict_clflush a).
Proof. apply (so_evict_clflush P), P_crash. Qed.
Local Hint Resolve ac_upd_tm ac_get_tm ac_store ac_clflush : pres.

Lemma ac_buffer i a : preserves active_is (buffer_store i a).
Proof. unfold buffer_store, add_to_store_buffer. pres. Qed.
Lemma ac_flush_loop i k : preserves active_is (empty_flush_loop (H := thread_evictor i) k).
Proof. induction k as [|k IH]; simpl; pres. Qed.
Local Hint Resolve ac_flush_loop : pres.
Lemma ac_flush_buffer i : preserves active_is (empty_flush_buffer (H := thread_evictor i)).
Proof. unfold empty_flush_buffer. pres. Qed.
Local Hint Resolve ac_flush_buffer : pres.
Lemma ac_pop i : preserves active_is (pop_from_store_buffer (H := thread_evictor i)).
Proof. unfold pop_from_store_buffer. pres. Qed.
Local Hint Resolve ac_pop : pres.
Lemma ac_store_loop i k : preserves active_is (empty_store_loop (H := thread_evictor i) k).
Proof. induction k as [|k IH]; simpl; pres. Qed.
Local Hint Resolve ac_store_loop : pres.
Lemma ac_empty i : preserves active_is (empty_buffers i).
Proof. unfold empty_buffers, empty_store_buffer. pres. Qed.
Local Hint Resolve ac_buffer ac_empty : pres.

Lemma ac_mdl f : preserves active_is (modify (on_mdl f)).
Proof. by apply ac_other. Qed.
Lemma ac_proc f : preserves active_is (modify (on_proc f)).
Proof. by apply ac_other. Qed.
Lemma ac_storelist a : preserves active_is (get_storelist a).
Proof. apply (so_get_storelist P). Qed.
Lemma ac_set_storelist a l : preserves active_is (set_storelist a l).
Proof. apply (so_set_storelist P). Qed.
Lemma ac_cacheline p a : preserves active_is (cacheline p a).
Proof. apply (so_cacheline P). Qed.
Lemma ac_assign p a w : preserves active_is (assign_cacheline p a w).
Proof. apply (so_assign P). Qed.
Lemma ac_ask : preserves active_is ask_crash.
Proof. apply (so_ask_crash P). Qed.
Lemma ac_emplace p : preserves active_is (emplace_crash p).
Proof. apply (so_emplace P). Qed.
Lemma ac_thread i : preserves active_is (get_thread i).
Proof. unfold get_thread. pres. Qed.
Local Hint Resolve ac_mdl ac_proc ac_storelist ac_set_storelist ac_cacheline ac_assign ac_ask ac_emplace ac_thread : pres.
Lemma ac_pid a : preserves active_is (get_process_id a).
Proof. unfold get_process_id. pres. Qed.
Local Hint Resolve ac_pid : pres.
Lemma ac_step r w l ca rp rf k : preserves active_is (read_step r w l ca rp rf k).
Proof. unfold read_step, running_store, crashed_store, decision_point_m. pres. Qed.
Local Hint Resolve ac_step : pres.
Lemma ac_loop l r ca rp rf k : preserves active_is (read_loop l r ca rp rf k).
Proof. revert rf k. induction l as [|w l IH]; intros rf k; simpl; pres. Qed.
Local Hint Resolve ac_loop : pres.
Lemma ac_build r : preserves active_is (build_read_from r).
Proof. unfold build_read_from. pres. Qed.
Lemma ac_initial a : preserves active_is (ensureInitialValue a).
Proof. unfold ensureInitialValue, self_tid. pres. Qed.
Local Hint Resolve ac_build ac_initial : pres.

Lemma ac_execute a : memory_type (act_type a) = true -> preserves active_is (execute a).
Proof. intros Ht. unfold execute. destruct (act_type a); try done; unfold exec_store, exec_load; pres. Qed.

Context `{Rand}.
Lemma ac_rand : preserves active_is rand.
Proof. unfold rand. pres. Qed.
Lemma ac_find k i tc : preserves active_is (find_live k i tc).
Proof. revert i. induction k as [|k IH]; intros i; simpl; pres. Qed.
Lemma ac_times k i : preserves active_is (Choice.times k (let! _ := pop_thread i in ret tt)).
Proof. induction k as [|k IH]; simpl; [pres|]. apply preserves_bind; [|done]. unfold pop_thread. pres. Qed.
Lemma ac_upd i f : preserves active_is (upd_thread i f).
Proof. by apply ac_sched. Qed.
Local Hint Resolve ac_upd ac_rand ac_find ac_times : pres.
Lemma ac_end a : preserves active_is (action_end a).
Proof.
  unfold action_end, self_tid, process_store_buffer. pres.
Qed.
Local Hint Resolve ac_end : pres.
Lemma ac_process_crash : preserves active_is process_crash.
Proof.
  unfold process_crash, self_pid. apply preserves_bind; [pres|]. intros p. apply preserves_modify. intros s. apply P_crash.
Qed.
Local Hint Resolve ac_process_crash : pres.

(** The action without its [yield]. *)
Lemma ac_action a y : memory_type (act_type a) = true -> y && negb (is_second_part_of_rmw a) = false ->
  preserves active_is (action a y).
Proof.
  intros Ht Hy. assert (forall a', act_type a' = act_type a -> preserves active_is (execute a')) as He.
  { intros a' Ha. apply ac_execute. by rewrite Ha. }
  unfold action, action_exec, assert_active, after_execute, self_pid, self_tid. rewrite Hy. pres.
  apply He. by case_bool_decide.
Qed.
End Active.

(** A sequence returns what its last part returns. *)
Lemma if_returns_bind {S A B} (m : Choice.M S A) (f : A -> Choice.M S B) (Q : B -> S -> Prop) s :
  (forall a s', wp (f a) (if_returns Q) s') -> wp (bind m f) (if_returns Q) s.
Proof. intros Hf. rewrite wp_bind. eapply wp_mono; [|apply wp_true]. by intros [a s'|e s'] _; simpl. Qed.

(** [execute] finishes a memory action in one go. *)
Definition finishes (a : ModelAction) (p : progress) (_ : St) : Prop :=
  exists a', p = Executed a' /\ (keeps_value (act_type a) = true -> value a' = value a).

Lemma execute_finishes a s : memory_type (act_type a) = true -> wp (execute a) (if_returns (finishes a)) s.
Proof.
  intros Ht. unfold execute, finishes. destruct (act_type a); try done; unfold exec_store, exec_load;
    repeat (apply if_returns_bind; intros ? ?); unfold wp; simpl; eexists; (split; [reflexivity|done]).
Qed.

Lemma memory_action_done `{Rand} a y s : memory_type (act_type a) = true -> y && negb (is_second_part_of_rmw a) = false ->
  wp (action a y) (if_returns (fun o _ => match o with
    | Done v => keeps_value (act_type a) = true -> v = value a
    | Wait _ => False end)) s.
Proof.
  intros Ht Hno. unfold action. do 3 (apply if_returns_bind; intros ? ?). case_if; [by apply if_returns_bind|].
  do 3 (apply if_returns_bind; intros ? ?). rewrite Hno. wp_step. unfold wp at 1; simpl.
  unfold action_exec. do 2 (apply if_returns_bind; intros ? ?). wp_step.
  set (a' := if bool_decide _ then _ else a). assert (act_type a' = act_type a /\ value a' = value a) as [Ha Hv]
    by (unfold a'; by case_bool_decide).
  eapply wp_mono; [|apply (execute_finishes a'); by rewrite Ha].
  intros [p s1|e s1]; simpl; [|done]. intros (b & -> & Hb). simpl. unfold action_end.
  do 4 (apply if_returns_bind; intros ? ?). unfold wp; simpl. rewrite Ha, Hv in Hb. done.
Qed.

(** ** Properties *)

(** C20: Atomicity: an access to memory that does not ask to yield, and the second
    half of a read-modify-write always, is carried out in one go: the action
    never waits, no other thread becomes active, and an action that is not a
    load returns the value it was given. *)
Theorem memory_action_atomic `{Rand} a y s :
  memory_type (act_type a) = true -> y = false \/ is_second_part_of_rmw a = true ->
  wp (action a y) (fun r => match r with
    | Val (Done v) s' => active_thread (sched s') = active_thread (sched s) /\
                         (keeps_value (act_type a) = true -> v = value a)
    | Val (Wait _) _ => False
    | Stop _ s' => active_thread (sched s') = active_thread (sched s)
    end) s.
Proof.
  intros Ht Hy. assert (y && negb (is_second_part_of_rmw a) = false) as Hno
    by (destruct Hy as [-> | ->]; [done|by rewrite andb_false_r]).
  pose proof (memory_action_done a y s Ht Hno) as Hdone.
  eapply wp_mono; [|exact (wp_and _ _ _ _ Hdone (ac_action _ a y Ht Hno s eq_refl))].
  intros [[v|p] s'|e s']; simpl; tauto.
Qed.

Lemma memory_action_atomic_witness :
  let a := ModelAction_new 0 ATOMIC_RMW 64 7 memory_order_seq_cst 8 "demo" in
  let s := mkSt (Scheduler_new 2) (Model_new 2) ∅ ∅ 1 ∅ (Process_init 0 0) in
  wp (action (H := counter_rand) a true) (fun r => match r with
    | Val (Done v) s' => active_thread (sched s') = 0 /\ (true = true -> v = 7)
    | Val (Wait _) _ => False
    | Stop _ s' => active_thread (sched s') = 0
    end) s.
Proof.
  cbn zeta. eapply wp_mono; [|exact (memory_action_atomic (H := counter_rand)
    (ModelAction_new 0 ATOMIC_RMW 64 7 memory_order_seq_cst 8 "demo") true _ eq_refl (or_intror eq_refl))].
  intros [[v|p] s'|e s']; [|done|done]. intros [H1 H2]. split; [exact H1|exact H2].
Defined.
