(* ===== verification/ReadSound.v ===== *)
(** * ReadSound: what a load may return after a crash

    The contract of [Model::build_read_from] with respect to persistence.  The
    stores of a crashed process that reached memory are those up to some time
    inside its window; the loop narrows the windows while it assembles a value.
    [kept] and [replay] are the abstract memory: the value of a load when the
    persistence times are known.  The theorems relate the loop to it. *)
From Stdlib Require Import Sorted.
From S2P Require Import Prelude Choice Action ReadFrom CacheLine ThreadMemory State Scheduler ModelCore.

(** The process that issued an action. *)
Definition pid_of (s : St) (a : ModelAction) : Z :=
  match lookupZ (threads (sched s)) (act_tid a) with Some t => thr_pid t | None => 0 end.

Definition win (s : St) (pid ca : Z) : Range := window_of (obj_to_cl (mdl s)) pid ca.

(** A persistence time per process, and the stores that are in memory under it. *)
Definition times := Z -> Z.
Definition kept (s : St) (T : times) (a : ModelAction) : bool :=
  negb (is_crashed s (pid_of s a)) || (seq_num a <=? T (pid_of s a)).
Definition compatible (ca : Z) (T : times) (s : St) : Prop :=
  forall p, is_crashed s p = true ->
    range_begin (win s p ca) <= T p /\ (range_end (win s p ca) = 0 \/ T p < range_end (win s p ca)).

(** The slots of a load of the stores [rstores] (newest first) over [rf]. *)
Definition replay (s : St) (T : times) (rstores : list ModelAction) (loc : Z) (rf : slots) : slots :=
  fill_all (List.filter (kept s T) rstores) loc rf.
Definition replay_value (s : St) (T : times) (rstores : list ModelAction) (loc : Z) (rf : slots) : Z :=
  from_le (slot_bytes loc (replay s T rstores loc rf)).

Definition one_crash (s : St) : Prop := (size (crashes (mdl s)) <= 1)%nat.

(** Well-formed windows of a line: not empty; only crashed processes have an end. *)
Definition line_ok (ca : Z) (s : St) : Prop :=
  (forall p, 0 <= range_begin (win s p ca) /\
     (range_end (win s p ca) = 0 \/ range_begin (win s p ca) < range_end (win s p ca))) /\
  (forall p, is_crashed s p = false -> range_end (win s p ca) = 0) /\
  one_crash s.

(** ** The two accesses to a window *)

Lemma cacheline_run p a s : has_table (obj_to_cl (mdl s)) p ->
  exists c, ModelCore.cacheline p a s = Leaf (Val (win s p a) (on_mdl (with_cl c) s)) /\
    (forall q b, window_of c q b = win s q b) /\ (forall q, has_table (obj_to_cl (mdl s)) q -> has_table c q).
Proof.
  intros (c & Hg & Hw & Ht)%(get_cacheline_ok _ p a). exists c. split; [|done].
  unfold ModelCore.cacheline. run_step. rewrite Hg. simpl. run_step. done.
Qed.

Lemma assign_run p a w s : has_table (obj_to_cl (mdl s)) p ->
  exists c, assign_cacheline p a w s = Leaf (Val tt (on_mdl (with_cl c) s)) /\
    (forall q b, window_of c q b = if decide (q = p /\ b = a) then w else win s q b) /\
    (forall q, has_table (obj_to_cl (mdl s)) q -> has_table c q).
Proof.
  intros (c & Hg & Hw & Ht)%(set_cacheline_ok _ p a w). exists c. split; [|done].
  unfold assign_cacheline. run_step. rewrite Hg. simpl. run_step. done.
Qed.

(** ** How the loop changes the state *)

(** The windows of line [ca] narrow, other windows stay, processes other than
    [rpid] that are running may crash if a crash is allowed; nothing else of
    what a load depends on changes. *)
Record evol (ca rpid : Z) (s s' : St) : Prop := mkEvol {
  ev_sched : sched s' = sched s;
  ev_proc : proc s' = proc s;
  ev_wr : obj_to_wr (mdl s') = obj_to_wr (mdl s);
  ev_completed : completed_procs (mdl s') = completed_procs (mdl s);
  ev_crashes : crashes (mdl s) ⊆ crashes (mdl s');
  ev_new : forall p, is_crashed s' p = true -> is_crashed s p = true \/
             (p <> rpid /\ is_completed s p = false /\ crash_allowed s = true);
  ev_tables : forall p, has_table (obj_to_cl (mdl s)) p -> has_table (obj_to_cl (mdl s')) p;
  ev_other : forall p a, a <> ca -> win s' p a = win s p a;
  ev_begin : forall p, range_begin (win s p ca) <= range_begin (win s' p ca);
  ev_end : forall p, range_end (win s p ca) <> 0 ->
             range_end (win s' p ca) <> 0 /\ range_end (win s' p ca) <= range_end (win s p ca)
}.

Lemma crashed_mono ca rpid s s' p : evol ca rpid s s' -> is_crashed s p = true -> is_crashed s' p = true.
Proof.
  intros He. unfold is_crashed. rewrite !bool_decide_eq_true. intros [x Hx]. exists x.
  eapply lookup_weaken; [done|apply (ev_crashes _ _ _ _ He)].
Qed.

Lemma evol_refl ca rpid s : evol ca rpid s s.
Proof. constructor; try done; by auto. Qed.

Lemma crash_allowed_mono ca rpid s s' :
  evol ca rpid s s' -> crash_allowed s' = true -> crash_allowed s = true.
Proof.
  intros He. unfold crash_allowed, crash_count. rewrite (ev_proc _ _ _ _ He), (ev_sched _ _ _ _ He).
  assert (size (crashes (mdl s)) <= size (crashes (mdl s')))%nat.
  { rewrite <- !size_dom. apply subseteq_size. apply subseteq_dom, (ev_crashes _ _ _ _ He). }
  rewrite !andb_true_iff, !Z.ltb_lt. intros [[Hb Hm] Hp]. split; [split; [done|]|]; lia.
Qed.

Lemma evol_trans ca rpid s1 s2 s3 : evol ca rpid s1 s2 -> evol ca rpid s2 s3 -> evol ca rpid s1 s3.
Proof.
  intros H12 H23. destruct H12 as [A1 A2 A3 A4 A5 A6 A7 A8 A9 A10] eqn:E12.
  destruct H23 as [B1 B2 B3 B4 B5 B6 B7 B8 B9 B10].
  constructor; try congruence; eauto.
  - by etrans.
  - intros p [Hp|(Hp & Hc & Ha)]%B6; [auto|]. right. split; [done|]. split.
    + unfold is_completed in *. by rewrite A4 in Hc.
    + by eapply crash_allowed_mono.
  - intros p a Ha. by rewrite B8, A8.
  - intros p. etrans; [apply A9|apply B9].
  - intros p Hp. destruct (A10 p Hp) as [Hn Hle]. destruct (B10 p Hn). split; [done|lia].
Qed.

Lemma pid_of_evol ca rpid s s' a : evol ca rpid s s' -> pid_of s' a = pid_of s a.
Proof. intros He. unfold pid_of. by rewrite (ev_sched _ _ _ _ He). Qed.

(** What the rest of an execution does to a line after a load of process [rpid]:
    the windows narrow and processes crash, but not [rpid]; threads come and keep
    their process. *)
Record narrows (ca rpid : Z) (s s' : St) : Prop := mkNarrows {
  nr_pids : forall i t, lookupZ (threads (sched s)) i = Some t ->
             exists t', lookupZ (threads (sched s')) i = Some t' /\ thr_pid t' = thr_pid t;
  nr_crashed : forall p, is_crashed s p = true -> is_crashed s' p = true;
  nr_spared : is_crashed s rpid = false -> is_crashed s' rpid = false;
  nr_begin : forall p, range_begin (win s p ca) <= range_begin (win s' p ca);
  nr_end : forall p, range_end (win s p ca) <> 0 ->
             range_end (win s' p ca) <> 0 /\ range_end (win s' p ca) <= range_end (win s p ca)
}.

Lemma evol_narrows ca rpid s s' : evol ca rpid s s' -> narrows ca rpid s s'.
Proof.
  intros He. constructor; [|intros p; by apply (crashed_mono ca rpid)| |apply He|apply He].
  - intros i t Ht. exists t. by rewrite (ev_sched _ _ _ _ He).
  - intros Hc. destruct (is_crashed s' rpid) eqn:E; [|done].
    destruct (ev_new _ _ _ _ He _ E) as [|(? & _)]; congruence.
Qed.

Lemma narrows_refl ca rpid s : narrows ca rpid s s.
Proof. apply evol_narrows, evol_refl. Qed.

Lemma narrows_trans ca rpid s1 s2 s3 : narrows ca rpid s1 s2 -> narrows ca rpid s2 s3 -> narrows ca rpid s1 s3.
Proof.
  intros [A1 A2 A3 A4 A5] [B1 B2 B3 B4 B5]. constructor; eauto.
  - intros i t Ht. destruct (A1 i t Ht) as (t' & Ht' & Hp). destruct (B1 i t' Ht') as (u & Hu & Hp'). exists u. split; [done|congruence].
  - intros p. etrans; [apply A4|apply B4].
  - intros p Hp. destruct (A5 p Hp) as [Hn Hle]. destruct (B5 p Hn). split; [done|lia].
Qed.

Lemma evol_narrows_trans ca rpid s1 s2 s3 : evol ca rpid s1 s2 -> narrows ca rpid s2 s3 -> narrows ca rpid s1 s3.
Proof. intros H. apply narrows_trans. by apply evol_narrows. Qed.

Definition has_thread (s : St) (a : ModelAction) : Prop := is_Some (lookupZ (threads (sched s)) (act_tid a)).

Lemma pid_of_narrows ca rpid s s' a : narrows ca rpid s s' -> has_thread s a -> pid_of s' a = pid_of s a.
Proof. intros Hn [t Ht]. destruct (nr_pids _ _ _ _ Hn _ _ Ht) as (t' & Ht' & Hp). unfold pid_of. by rewrite Ht, Ht'. Qed.

Lemma has_thread_evol ca rpid s s' a : evol ca rpid s s' -> has_thread s a -> has_thread s' a.
Proof. intros He. unfold has_thread. by rewrite (ev_sched _ _ _ _ He). Qed.

(** A change of the windows only. *)
Lemma evol_cl ca rpid s c :
  (forall q, has_table (obj_to_cl (mdl s)) q -> has_table c q) ->
  (forall q b, b <> ca -> window_of c q b = win s q b) ->
  (forall q, range_begin (win s q ca) <= range_begin (window_of c q ca)) ->
  (forall q, range_end (win s q ca) <> 0 -> range_end (window_of c q ca) <> 0 /\
     range_end (window_of c q ca) <= range_end (win s q ca)) ->
  evol ca rpid s (on_mdl (with_cl c) s).
Proof. intros H1 H2 H3 H4. constructor; try done; by auto. Qed.

(** ** The store of a running process *)

(** Why a store that the loop took stays in memory whatever happens later. *)
Definition will_keep (ca rpid : Z) (s : St) (w : ModelAction) : Prop :=
  seq_num w <= range_begin (win s (pid_of s w) ca) \/ pid_of s w = rpid.

Lemma will_keep_kept ca rpid s s' w T :
  narrows ca rpid s s' -> has_thread s w -> is_crashed s (pid_of s w) = false -> will_keep ca rpid s w ->
  compatible ca T s' -> kept s' T w = true.
Proof.
  intros He Hw Hc Hk HT. unfold kept. rewrite (pid_of_narrows _ _ _ _ _ He Hw).
  destruct (is_crashed s' (pid_of s w)) eqn:Ec; [|done]. simpl. apply Z.leb_le.
  destruct (HT _ Ec) as [Hb _]. pose proof (nr_begin _ _ _ _ He (pid_of s w)).
  destruct Hk as [?|Hk]; [lia|]. rewrite Hk in Hc, Ec. by rewrite (nr_spared _ _ _ _ He Hc) in Ec.
Qed.

Lemma ask_crash_wp s (Q : result St bool -> Prop) :
  (forall s', s' = on_mdl (with_crash_points (u32 (crash_points (mdl s) + 1))) s ->
     Q (Val false s') /\ Q (Val true s')) ->
  wp ask_crash Q s.
Proof.
  intros H. unfold ask_crash. wp_step. unfold wp at 1. simpl. wp_step. unfold wp at 1. simpl.
  destruct (H _ eq_refl) as [Hf Ht]. case_if; [done|].
  wp_step. unfold wp. simpl. intros c _. by destruct (c =? 0).
Qed.

(** The setters of counters do not touch what a load depends on. *)
Lemma evol_crash_points ca rpid s n : evol ca rpid s (on_mdl (with_crash_points n) s).
Proof. constructor; try done; by auto. Qed.

Lemma line_ok_evol_same ca s s' :
  (forall p, win s' p ca = win s p ca) -> crashes (mdl s') = crashes (mdl s) -> line_ok ca s -> line_ok ca s'.
Proof.
  intros Hw Hc (H1 & H2 & H3). unfold line_ok, one_crash, is_crashed in *. rewrite Hc.
  split; [intros p; by rewrite Hw|]. split; [|done]. intros p Hp. rewrite Hw. by apply H2.
Qed.

(** A window of line [ca] set to a narrower, non-empty window. *)
Lemma assign_wp ca rpid p w s (Q : result St unit -> Prop) :
  has_table (obj_to_cl (mdl s)) p -> line_ok ca s ->
  range_begin (win s p ca) <= range_begin w ->
  (range_end (win s p ca) <> 0 -> range_end w <> 0 /\ range_end w <= range_end (win s p ca)) ->
  (range_end w = 0 \/ range_begin w < range_end w) ->
  (is_crashed s p = false -> range_end w = 0) ->
  (forall s', evol ca rpid s s' -> line_ok ca s' -> win s' p ca = w -> crashes (mdl s') = crashes (mdl s) ->
     Q (Val tt s')) ->
  wp (assign_cacheline p ca w) Q s.
Proof.
  intros Ht (L1 & L2 & L3) Hb He Hne Hcr HQ. destruct (assign_run p ca w s Ht) as (c & Hrun & Hw & Htab).
  unfold wp. rewrite Hrun. simpl. apply HQ.
  - apply evol_cl; [done| | |]; intros q.
    + intros b Hbne. rewrite Hw, decide_False by naive_solver. done.
    + rewrite Hw. case_decide as Hd; [destruct Hd as [-> _]; done|lia].
    + rewrite Hw. case_decide as Hd; [destruct Hd as [-> _]; done|lia].
  - split; [|split]; unfold win in *; simpl.
    + intros q. rewrite Hw. case_decide as Hd; [destruct Hd as [-> _]|apply L1].
      pose proof (proj1 (L1 p)). split; [lia|done].
    + intros q Hq. rewrite Hw. case_decide as Hd; [destruct Hd as [-> _]; by apply Hcr|by apply L2].
    + done.
  - unfold win at 1. simpl. rewrite Hw. by rewrite decide_True.
  - done.
Qed.

Lemma cacheline_wp ca rpid p s (Q : result St Range -> Prop) :
  has_table (obj_to_cl (mdl s)) p -> line_ok ca s ->
  (forall s', evol ca rpid s s' -> line_ok ca s' -> (forall q, win s' q ca = win s q ca) ->
     crashes (mdl s') = crashes (mdl s) -> Q (Val (win s p ca) s')) ->
  wp (ModelCore.cacheline p ca) Q s.
Proof.
  intros Ht Hl HQ. destruct (cacheline_run p ca s Ht) as (c & Hrun & Hw & Htab).
  unfold wp. rewrite Hrun. simpl. apply HQ; [|eapply line_ok_evol_same; [intros; apply Hw|done|done]|by intros; apply Hw|done].
  apply evol_cl; [done| | |]; intros q; intros; by rewrite Hw.
Qed.

(** Contract of [running_store]: the writer is spared and the store is taken
    for good, or the writer crashes and nothing is taken. *)
Definition run_post (ca rpid : Z) (s : St) (w read : ModelAction) (rf : slots)
    (r : result St (slots * Z)) : Prop :=
  match r with
  | Val (rf', n') s' =>
      evol ca rpid s s' /\ line_ok ca s' /\ n' = count_none rf' /\
      ((is_crashed s' (pid_of s w) = false /\ rf' = fill w (location read) rf /\
        (will_keep ca rpid s' w \/ rf' = rf)) \/
       (is_crashed s' (pid_of s w) = true /\ rf' = rf))
  | Stop _ _ => False
  end.

Lemma emplace_crash_wp ca rpid p s (Q : result St unit -> Prop) :
  is_crashed s p = false -> line_ok ca s -> crash_allowed s = true -> p <> rpid -> is_completed s p = false ->
  (forall s', evol ca rpid s s' -> line_ok ca s' -> is_crashed s' p = true -> Q (Val tt s')) ->
  wp (emplace_crash p) Q s.
Proof.
  intros Hc (L1 & L2 & L3) Ha Hp Hcomp HQ. unfold emplace_crash, wp. simpl.
  unfold is_crashed in Hc. apply bool_decide_eq_false in Hc. apply eq_None_not_Some in Hc.
  unfold crash_allowed, crash_count, MAX_CRASHES_PER_EXECUTION in Ha. bools.
  assert (forall s', s' = on_mdl (fun m => with_crashes (<[p:=next_sequence_num m]> (crashes m)) m) s ->
    Q (Val tt s')) as HQ'.
  { intros s' ->. apply HQ.
    - constructor; try done; try by auto.
      + simpl. by apply insert_subseteq.
      + intros q. unfold is_crashed. rewrite !bool_decide_eq_true. simpl. destruct (decide (p = q)) as [->|].
        * right. split; [done|]. split; [done|]. unfold crash_allowed, crash_count, MAX_CRASHES_PER_EXECUTION.
          by repeat (apply andb_true_intro; split; try by apply Z.ltb_lt).
        * rewrite lookup_insert_ne by done. auto.
    - split; [done|]. split; simpl.
      + intros q Hq. apply L2. unfold is_crashed in *. rewrite bool_decide_eq_false in *. simpl in Hq.
        intros Hx. apply Hq. destruct (decide (p = q)) as [->|]; [rewrite lookup_insert_eq; by eexists|by rewrite lookup_insert_ne].
      + unfold one_crash; simpl. rewrite map_size_insert_None by done. lia.
    - unfold is_crashed. apply bool_decide_eq_true. simpl. rewrite lookup_insert_eq. by eexists. }
  apply HQ'. unfold on_mdl. by rewrite Hc.
Qed.

Lemma running_store_wp ca rpid read w rf s :
  is_crashed s (pid_of s w) = false -> line_ok ca s -> has_table (obj_to_cl (mdl s)) (pid_of s w) ->
  in_range w -> in_range read -> overlap_ok w read -> lenZ rf = act_size read ->
  (act_type w = ATOMIC_INIT -> seq_num w = 0) ->
  wp (running_store read w ca rpid (pid_of s w) rf (count_none rf)) (run_post ca rpid s w read rf) s.
Proof.
  intros Hc Hl Ht Hw Hr Hov Hlen Hinit. unfold running_store.
  rewrite get_overlaps_save_old_eq, get_overlaps_fill by done.
  set (rf' := fill w (location read) rf). set (p := pid_of s w) in *.
  assert (forall s', evol ca rpid s s' -> line_ok ca s' -> is_crashed s' p = false ->
    will_keep ca rpid s' w \/ rf' = rf -> run_post ca rpid s w read rf (Val (rf', count_none rf') s')) as Hkeep.
  { intros s' He Hl' Hc' Hk. do 3 (split; [done|]). by left. }
  case_bool_decide as Hch.
  2:{ apply Hkeep; [apply evol_refl|done|done|]. right. destruct (decide (rf' = rf)); naive_solver. }
  destruct (bool_decide (act_type w <> ATOMIC_INIT) && negb (p =? rpid)) eqn:Eb.
  2:{ apply Hkeep; [apply evol_refl|done|done|]. left. apply andb_false_iff in Eb as [E|E]; bools.
      - left. destruct (decide (act_type w = ATOMIC_INIT)) as [Hi|]; [|done].
        rewrite (Hinit Hi). apply Hl.
      - by right. }
  bools. wp_step. eapply cacheline_wp; [done|done|]. intros s1 He1 Hl1 Hw1 Hcr1.
  wp_step. unfold wp at 1. simpl.
  assert (is_crashed s1 p = false) as Hc1 by (unfold is_crashed in *; by rewrite Hcr1).
  assert (forall s2, evol ca rpid s1 s2 -> line_ok ca s2 -> is_crashed s2 p = false ->
    win s2 p ca = win s p ca ->
    wp ((if range_begin (win s p ca) <? seq_num w
         then assign_cacheline p ca (setBegin (seq_num w) (win s p ca)) else ret tt) ;;; ret (rf', count_none rf'))
       (run_post ca rpid s w read rf) s2) as Hspare.
  { intros s2 He2 Hl2 Hc2 Hw2. wp_step. assert (evol ca rpid s s2) as He by (by eapply evol_trans).
    assert (has_table (obj_to_cl (mdl s2)) p) by (by apply (ev_tables _ _ _ _ He)).
    pose proof (proj1 (proj2 Hl2) p Hc2) as Hend. rewrite Hw2 in Hend.
    case_if.
    - eapply (assign_wp ca rpid); rewrite ?Hw2; try done; simpl; [lia|by left|].
      intros s3 He3 Hl3 Hw3 Hcr3. apply Hkeep; [by eapply evol_trans|done| |].
      + unfold is_crashed in *. by rewrite Hcr3.
      + left. left. rewrite (pid_of_evol ca rpid s) by (by eapply evol_trans). fold p. rewrite Hw3. simpl. lia.
    - apply Hkeep; [done|done|done|]. left. left. rewrite (pid_of_evol _ _ _ _ w He). fold p. rewrite Hw2. lia. }
  destruct (crash_allowed s1 && negb (is_completed s1 p) && (range_begin (win s p ca) <? seq_num w)) eqn:Ec.
  2:{ wp_step. unfold wp at 1. simpl. apply Hspare; [apply evol_refl|done|done|apply Hw1]. }
  bools. wp_step. apply ask_crash_wp. intros s2 Hs2.
  assert (evol ca rpid s1 s2) as He2 by (subst s2; apply evol_crash_points).
  assert (line_ok ca s2) as Hl2 by (subst s2; by eapply line_ok_evol_same).
  assert (is_crashed s2 p = false) as Hc2 by (by subst s2).
  split.
  - apply Hspare; [done|done|done|]. subst s2. apply Hw1.
  - wp_step. eapply (emplace_crash_wp ca rpid); [done|done| |done| |].
    + by subst s2.
    + by subst s2.
    + intros s3 He3 Hl3 Hc3. unfold wp; simpl. split; [eauto using evol_trans|]. split; [done|]. split; [done|].
      by right.
Qed.

(** ** The store of a crashed process *)

Lemma compatible_mono ca rpid s s' T p : narrows ca rpid s s' -> compatible ca T s' -> is_crashed s p = true ->
  range_begin (win s p ca) <= T p /\ (range_end (win s p ca) = 0 \/ T p < range_end (win s p ca)).
Proof.
  intros He HT Hp. destruct (HT p (nr_crashed _ _ _ _ He _ Hp)) as [Hb Hend].
  pose proof (nr_begin _ _ _ _ He p).
  split; [lia|]. destruct (decide (range_end (win s p ca) = 0)) as [|Hne]; [by left|right].
  destruct (nr_end _ _ _ _ He p Hne). lia.
Qed.

Lemma kept_crashed ca rpid s s' T w : narrows ca rpid s s' -> has_thread s w -> is_crashed s (pid_of s w) = true ->
  kept s' T w = (seq_num w <=? T (pid_of s w)).
Proof.
  intros He Hw Hc. unfold kept. rewrite (pid_of_narrows _ _ _ _ _ He Hw).
  by rewrite (nr_crashed _ _ _ _ He _ Hc).
Qed.

(** [rf'] is [rf] with the store [w], exactly when [w] is in memory, whatever
    the loop and the rest of the execution do after state [s]. *)
Definition settled (ca rpid : Z) (s : St) (w : ModelAction) (loc : Z) (rf rf' : slots) : Prop :=
  forall s' T, narrows ca rpid s s' -> compatible ca T s' ->
    rf' = if kept s' T w then fill w loc rf else rf.

Lemma settled_evol ca rpid s s' w loc rf rf' :
  evol ca rpid s s' -> settled ca rpid s w loc rf rf' -> settled ca rpid s' w loc rf rf'.
Proof. intros He Hs s2 T He2 HT. apply Hs; [by eapply evol_narrows_trans|done]. Qed.

Lemma settled_kept ca rpid s w loc rf : has_thread s w ->
  is_crashed s (pid_of s w) = true -> seq_num w <= range_begin (win s (pid_of s w) ca) ->
  settled ca rpid s w loc rf (fill w loc rf).
Proof.
  intros Hw Hc Hs s' T He HT. rewrite (kept_crashed _ _ _ _ _ _ He Hw Hc).
  destruct (compatible_mono _ _ _ _ _ _ He HT Hc) as [Hb _].
  by rewrite (proj2 (Z.leb_le _ _)) by lia.
Qed.

Lemma settled_lost ca rpid s w loc rf : has_thread s w ->
  is_crashed s (pid_of s w) = true -> range_end (win s (pid_of s w) ca) <> 0 ->
  range_end (win s (pid_of s w) ca) <= seq_num w -> settled ca rpid s w loc rf rf.
Proof.
  intros Hw Hc Hne Hs s' T He HT. rewrite (kept_crashed _ _ _ _ _ _ He Hw Hc).
  destruct (compatible_mono _ _ _ _ _ _ He HT Hc) as [_ [?|?]]; [done|].
  by rewrite (proj2 (Z.leb_gt _ _)) by lia.
Qed.

Lemma settled_full ca rpid s w loc rf : fill w loc rf = rf -> settled ca rpid s w loc rf rf.
Proof. intros Hf s' T _ _. rewrite Hf. by case_if. Qed.

Definition crashed_post (ca rpid : Z) (s : St) (w : ModelAction) (older : list ModelAction)
    (loc : Z) (rf : slots) (r : result St (option (slots * Z))) : Prop :=
  match r with
  | Val (Some (rf', n')) s' =>
      evol ca rpid s s' /\ line_ok ca s' /\ n' = count_none rf' /\ settled ca rpid s' w loc rf rf'
  | Val None s' =>
      evol ca rpid s s' /\ line_ok ca s' /\ is_crashed s' (pid_of s w) = true /\ 0 < seq_num w /\
      exists next rest, older = next :: rest /\ equivalent w next = true
  | Stop _ _ => False
  end.

Lemma crashed_store_wp ca rpid read w older rf s : has_thread s w ->
  is_crashed s (pid_of s w) = true -> line_ok ca s -> has_table (obj_to_cl (mdl s)) (pid_of s w) ->
  in_range w -> in_range read -> overlap_ok w read -> lenZ rf = act_size read ->
  wp (crashed_store read w older ca (pid_of s w) rf (count_none rf))
     (crashed_post ca rpid s w older (location read) rf) s.
Proof.
  intros Hthr Hc Hl Ht Hw Hr Hov Hlen. unfold crashed_store. set (p := pid_of s w) in *.
  wp_step. eapply (cacheline_wp ca rpid); [done|done|]. intros s1 He1 Hl1 Hw1 Hcr1.
  assert (pid_of s1 w = p) as Hp1 by apply (pid_of_evol _ _ _ _ _ He1).
  pose proof (crashed_mono _ _ _ _ _ He1 Hc) as Hc1.
  rewrite get_overlaps_save_old_eq, get_overlaps_fill by done.
  set (rf' := fill w (location read) rf).
  assert (forall s2, evol ca rpid s s2 -> line_ok ca s2 -> seq_num w <= range_begin (win s2 p ca) ->
    crashed_post ca rpid s w older (location read) rf (Val (Some (rf', count_none rf')) s2)) as Hkeep.
  { intros s2 He Hl2 Hb. do 3 (split; [done|]).
    apply settled_kept; rewrite ?(pid_of_evol _ _ _ _ _ He); [by eapply has_thread_evol|by eapply crashed_mono|done]. }
  assert (forall s2, evol ca rpid s s2 -> line_ok ca s2 -> range_end (win s2 p ca) <> 0 ->
    range_end (win s2 p ca) <= seq_num w ->
    crashed_post ca rpid s w older (location read) rf (Val (Some (rf, count_none rf)) s2)) as Hlose.
  { intros s2 He Hl2 Hne Hb. do 3 (split; [done|]).
    apply settled_lost; rewrite ?(pid_of_evol _ _ _ _ _ He); [by eapply has_thread_evol|by eapply crashed_mono|done|done]. }
  rewrite <- (Hw1 p) in *.
  destruct (Z.leb_spec (seq_num w) (range_begin (win s1 p ca))) as [|Hgt]; [by apply Hkeep|].
  destruct ((range_end (win s1 p ca) =? 0) || (seq_num w <? range_end (win s1 p ca))) eqn:Ee.
  2:{ apply orb_false_iff in Ee as [E1%Z.eqb_neq E2%Z.ltb_ge]. by apply Hlose. }
  assert (range_end (win s1 p ca) = 0 \/ seq_num w < range_end (win s1 p ca)) as Hend
    by (apply orb_true_iff in Ee as [?%Z.eqb_eq|?%Z.ltb_lt]; auto).
  destruct (match older with next :: _ => equivalent w next | [] => false end) eqn:Eq.
  { destruct older as [|next rest]; [done|]. do 3 (split; [done|]).
    pose proof (proj1 (proj1 Hl1 p)). split; [lia|]. eauto. }
  case_bool_decide as Hch.
  2:{ assert (rf' = rf) as Hsame by (destruct (decide (rf' = rf)); naive_solver).
      rewrite Hsame. do 3 (split; [done|]). apply settled_full, Hsame. }
  pose proof (proj1 (proj1 Hl1 p)) as Hpos.
  assert (forall b (s2 : St), evol ca rpid s s2 -> line_ok ca s2 -> win s2 p ca = win s1 p ca ->
    is_crashed s2 p = true -> has_table (obj_to_cl (mdl s2)) p ->
    wp (if b : bool then assign_cacheline p ca (setEnd (seq_num w) (win s1 p ca)) ;;; ret (Some (rf, count_none rf))
        else assign_cacheline p ca (setBegin (seq_num w) (win s1 p ca)) ;;; ret (Some (rf', count_none rf')))
       (crashed_post ca rpid s w older (location read) rf) s2) as Hfin.
  { intros b s2 He2 Hl2 Hw2 Hc2 Ht2. destruct b; wp_step.
    - eapply (assign_wp ca rpid); rewrite ?Hw2; try done; simpl; [lia| |congruence|].
      { right. lia. }
      intros s3 He3 Hl3 Hw3 _. apply Hlose; [by eapply evol_trans|done|rewrite Hw3; simpl; lia..].
    - eapply (assign_wp ca rpid); rewrite ?Hw2; try done; simpl; [lia|congruence|].
      intros s3 He3 Hl3 Hw3 _. apply Hkeep; [by eapply evol_trans|done|rewrite Hw3; simpl; lia]. }
  wp_step. unfold wp at 1. simpl. wp_step.
  destruct (bool_decide (act_type w <> ATOMIC_INIT) && backtrack (proc s1)) eqn:Eb.
  - wp_step. unfold wp at 1. simpl. intros c _. unfold wp at 1. simpl.
    apply Hfin; try done. by apply (ev_tables _ _ _ _ He1).
  - unfold wp at 1. simpl. apply (Hfin false); try done. by apply (ev_tables _ _ _ _ He1).
Qed.

(** ** The loop *)

Definition newest_first : list ModelAction -> Prop := StronglySorted (fun a b => seq_num b <= seq_num a).

(** What the loop needs of each store of the list. *)
Record store_ok (s : St) (read w : ModelAction) : Prop := mkStoreOk {
  so_thread : is_Some (lookupZ (threads (sched s)) (act_tid w));
  so_table : has_table (obj_to_cl (mdl s)) (pid_of s w);
  so_range : in_range w;
  so_overlap : overlap_ok w read;
  so_init : act_type w = ATOMIC_INIT -> seq_num w = 0
}.

Lemma store_ok_evol ca rpid s s' read w : evol ca rpid s s' -> store_ok s read w -> store_ok s' read w.
Proof.
  intros He [H1 H2 H3 H4 H5]. constructor; try done.
  - by rewrite (ev_sched _ _ _ _ He).
  - rewrite (pid_of_evol _ _ _ _ _ He). by apply (ev_tables _ _ _ _ He).
Qed.

(** The initial value of the word, which ends every list of stores. *)
Definition base_store (read w : ModelAction) : Prop :=
  act_type w = ATOMIC_INIT /\
  forall a, location read <= a < location read + act_size read -> covers w a = true.

Lemma fill_base read w rf : base_store read w -> lenZ rf = act_size read ->
  count_none (fill w (location read) rf) = 0.
Proof.
  intros [_ Hb]. unfold lenZ. generalize dependent (act_size read). intros n Hb Hn. subst n.
  generalize dependent (location read). induction rf as [|x rf IH]; intros a Hb; simpl; [done|].
  assert (count_none (fill w (a + 1) rf) = 0) as Hz.
  { apply IH. intros b Hr. apply Hb. rewrite length_cons. lia. }
  unfold fill_slot. rewrite Hb by (rewrite length_cons; lia). by destruct x.
Qed.

Lemma compatible_begin ca s : line_ok ca s -> compatible ca (fun p => range_begin (win s p ca)) s.
Proof. intros (H1 & _) p _. destruct (H1 p). split; [lia|]. lia. Qed.

Lemma settled_init ca rpid s w loc rf rf' : line_ok ca s -> seq_num w = 0 ->
  settled ca rpid s w loc rf rf' -> rf' = fill w loc rf.
Proof.
  intros Hl Hs Hset. rewrite (Hset _ _ (narrows_refl _ _ _) (compatible_begin _ _ Hl)).
  unfold kept. rewrite Hs. pose proof (proj1 (proj1 Hl (pid_of s w))).
  rewrite (proj2 (Z.leb_le _ _)) by lia. by rewrite orb_true_r.
Qed.

Lemma one_crash_unique s p q :
  one_crash s -> is_crashed s p = true -> is_crashed s q = true -> p = q.
Proof.
  intros Hn. unfold one_crash, is_crashed in *. rewrite !bool_decide_eq_true, <- !elem_of_dom.
  rewrite <- size_dom in Hn. intros Hp Hq.
  apply (size_singleton_inv (dom (crashes (mdl s)))); [|done|done].
  assert (size (dom (crashes (mdl s))) <> 0%nat); [|lia].
  intros Hz%size_empty_inv. set_solver.
Qed.

(** Skipping a store whose predecessor writes the same bytes changes no byte. *)
Lemma skip_equivalent w next rest loc rf : equivalent w next = true ->
  slot_bytes loc (fill_all (next :: rest) loc (fill w loc rf)) =
  slot_bytes loc (fill_all (next :: rest) loc rf).
Proof.
  intros (Hv & Hs & Hl)%equivalent_spec. apply list_eq. intros i.
  rewrite !lookup_slot_bytes, !lookup_fill_all, lookup_fill.
  destruct (rf !! i) as [[x|]|]; simpl; [done| |done].
  assert (forall a, covers w a = covers next a) as Hcov by (intros a; unfold covers; by rewrite Hl, Hs).
  rewrite Hcov. destruct (covers next (loc + Z.of_nat i)); simpl; [|done].
  unfold write_byte. by rewrite Hv, Hl.
Qed.

Lemma skip_kept s T w next :
  one_crash s -> is_crashed s (pid_of s w) = true -> seq_num next <= seq_num w ->
  kept s T w = true -> kept s T next = true.
Proof.
  intros Hl Hc Hle. unfold kept. rewrite Hc. simpl. intros Hk%Z.leb_le.
  destruct (is_crashed s (pid_of s next)) eqn:Hn; [|done]. simpl.
  rewrite (one_crash_unique _ _ _ Hl Hn Hc). apply Z.leb_le. lia.
Qed.

Lemma get_thread_run s tid t : lookupZ (threads (sched s)) tid = Some t -> get_thread tid s = Leaf (Val t s).
Proof. intros Ht. unfold get_thread. run_step. by rewrite Ht. Qed.

Lemma get_process_id_run s w : is_Some (lookupZ (threads (sched s)) (act_tid w)) ->
  get_process_id w s = Leaf (Val (pid_of s w) s).
Proof.
  intros [t Ht]. unfold get_process_id, pid_of. erewrite bind_val by (by apply get_thread_run). by rewrite Ht.
Qed.

(** One iteration: the store is settled, or skipped for an equivalent one. *)
Definition step_post (ca rpid : Z) (s : St) (w : ModelAction) (older : list ModelAction) (loc : Z)
    (rf : slots) (r : result St (option (slots * Z))) : Prop :=
  match r with
  | Val (Some (rf', n')) s' =>
      evol ca rpid s s' /\ line_ok ca s' /\ n' = count_none rf' /\ length rf' = length rf /\
      settled ca rpid s' w loc rf rf'
  | _ => crashed_post ca rpid s w older loc rf r
  end.

Lemma settled_length ca rpid s w loc rf rf' :
  line_ok ca s -> settled ca rpid s w loc rf rf' -> length rf' = length rf.
Proof.
  intros Hl Hs. rewrite (Hs _ _ (narrows_refl _ _ _) (compatible_begin _ _ Hl)).
  case_if; [apply length_fill|done].
Qed.

Lemma crashed_step ca rpid s w older loc rf r :
  crashed_post ca rpid s w older loc rf r -> step_post ca rpid s w older loc rf r.
Proof.
  destruct r as [[[rf' n']|] s'|e s']; simpl; [|done|done].
  intros (H1 & H2 & H3 & H4). split; [done|]. split; [done|]. split; [done|]. split; [|done]. by eapply settled_length.
Qed.

Lemma crashed_post_evol ca rpid s s1 w older loc rf r : evol ca rpid s s1 ->
  crashed_post ca rpid s1 w older loc rf r -> crashed_post ca rpid s w older loc rf r.
Proof.
  intros He. destruct r as [[[rf' n']|] s'|e s']; simpl; [| |done].
  - intros (H1 & H2 & H3 & H4). split; [by eapply evol_trans|done].
  - rewrite (pid_of_evol _ _ _ _ _ He). intros (H1 & H2). split; [by eapply evol_trans|done].
Qed.

Lemma read_step_wp ca rpid read w older rf s (Q : result St (option (slots * Z)) -> Prop) :
  store_ok s read w -> line_ok ca s -> in_range read -> lenZ rf = act_size read ->
  (forall r, step_post ca rpid s w older (location read) rf r -> Q r) ->
  wp (read_step read w older ca rpid rf (count_none rf)) Q s.
Proof.
  intros Hok Hl Hr Hlen HQ. unfold read_step. wp_step. unfold wp at 1.
  rewrite get_process_id_run by apply Hok. simpl. wp_step. unfold wp at 1; simpl. wp_step.
  destruct (is_crashed s (pid_of s w)) eqn:Hc.
  { unfold wp at 1; simpl. wp_step. unfold wp at 1; simpl. rewrite Hc.
    eapply wp_mono; [|apply (crashed_store_wp ca rpid); [apply Hok|done|done|apply Hok|apply Hok|done|apply Hok|done]].
    intros r Hp. by apply HQ, crashed_step. }
  eapply wp_mono; [|apply running_store_wp; [done|done|apply Hok|apply Hok|done|apply Hok|done|apply Hok]].
  intros [[rf' n'] s'|e s'] Hrun; simpl in Hrun; [|done].
  destruct Hrun as (He & Hl' & -> & Hcase). wp_step. unfold wp at 1; simpl.
  destruct Hcase as [(Hc' & -> & Hk)|[Hc' ->]]; rewrite Hc'.
  - unfold wp; simpl. apply HQ. split; [done|]. split; [done|]. split; [done|]. split; [apply length_fill|].
    destruct Hk as [Hk|Hk]; [|rewrite Hk; by apply settled_full].
    intros s2 T He2 HT. rewrite (will_keep_kept ca rpid s' s2); [done|done| | |done|done].
    + eapply has_thread_evol; [done|apply Hok].
    + by rewrite (pid_of_evol _ _ _ _ _ He).
  - pose proof (store_ok_evol _ _ _ _ _ _ He Hok) as Hok'.
    rewrite <- (pid_of_evol _ _ _ _ w He) in Hc' |- *.
    eapply wp_mono; [|apply (crashed_store_wp ca rpid); [apply Hok'|done|done|apply Hok'|apply Hok'|done|apply Hok'|done]].
    intros r Hp. apply HQ, crashed_step. by eapply crashed_post_evol.
Qed.

(** What the loop returns is the content of the word under every persistence
    time that the windows allow then and whenever they are narrower later. *)
Lemma read_loop_sound ca rpid read rstores : forall rf s,
  in_range read -> act_size read <= 8 -> lenZ rf = act_size read ->
  line_ok ca s -> Forall (store_ok s read) rstores -> newest_first rstores ->
  Exists (base_store read) rstores ->
  wp (read_loop rstores read ca rpid rf (count_none rf))
     (returns (fun v s' => evol ca rpid s s' /\ line_ok ca s' /\
        forall s2 T, narrows ca rpid s' s2 -> one_crash s2 -> compatible ca T s2 ->
          v = replay_value s2 T rstores (location read) rf)) s.
Proof.
  induction rstores as [|w older IH]; intros rf s Hr H8 Hlen Hl Hok Hsort Hbase; [by inversion Hbase|].
  apply Forall_cons in Hok as [Hw Hok]. apply StronglySorted_inv in Hsort as [Hsort Hle].
  rewrite List.Forall_forall in Hle. simpl. wp_step.
  apply read_step_wp; [done..|]. intros [[[rf' n']|] s'|e s']; simpl; [| |done].
  - intros (He & Hl' & -> & Hlen' & Hset).
    assert (lenZ rf' = act_size read) as Hlen2 by (unfold lenZ in *; congruence).
    destruct (Z.eqb_spec (count_none rf') 0) as [Hz|Hz].
    + unfold wp; simpl. split; [done|]. split; [done|]. intros s2 T Hn _ HT.
      rewrite get_read_value_bytes by lia. unfold replay_value, replay. simpl.
      rewrite (Hset s2 T Hn HT) in *.
      destruct (kept s2 T w); simpl; [|]; by rewrite fill_all_full.
    + eapply wp_mono; [|apply IH; [done..| |done|]].
      * intros [v s2|? ?]; simpl; [|done]. intros (He2 & Hl2 & HT2).
        split; [by eapply evol_trans|]. split; [done|]. intros s3 T Hn Ho HT. rewrite (HT2 s3 T Hn Ho HT).
        unfold replay_value, replay. simpl. rewrite (Hset s3 T (evol_narrows_trans _ _ _ _ _ He2 Hn) HT). by destruct (kept s3 T w).
      * eapply Forall_impl; [done|]. intros; by eapply store_ok_evol.
      * apply Exists_cons in Hbase as [Hb|]; [|done]. destruct Hz.
        rewrite (settled_init _ _ _ _ _ _ _ Hl' (so_init _ _ _ Hw (proj1 Hb)) Hset). by apply fill_base.
  - intros (He & Hl' & Hc & Hpos & next & rest & -> & Heq).
    eapply wp_mono; [|apply IH; [done..| |done|]].
    + intros [v s2|? ?]; simpl; [|done]. intros (He2 & Hl2 & HT2).
      split; [by eapply evol_trans|]. split; [done|]. intros s3 T Hn Ho HT. rewrite (HT2 s3 T Hn Ho HT).
      pose proof (evol_narrows_trans _ _ _ _ _ He2 Hn) as Hn'.
      unfold replay_value, replay. simpl. destruct (kept s3 T w) eqn:Hk; [|done].
      assert (kept s3 T next = true) as Hkn.
      { eapply (skip_kept _ _ w); [done| |apply Hle; by left|done].
        rewrite (pid_of_narrows ca rpid s); [|by eapply evol_narrows_trans|apply Hw].
        by apply (nr_crashed _ _ _ _ Hn'). }
      rewrite Hkn. f_equal. symmetry. by apply skip_equivalent.
    + eapply Forall_impl; [done|]. intros; by eapply store_ok_evol.
    + apply Exists_cons in Hbase as [Hb|]; [|done].
      pose proof (so_init _ _ _ Hw (proj1 Hb)). lia.
Qed.

(** ** Every content is explored *)

(** The state keeps the persistence times [T] possible. *)
Definition still (ca : Z) (T : times) {A} (r : result St A) : Prop :=
  match r with Val _ s' => compatible ca T s' | Stop _ _ => False end.

Lemma compatible_eq ca T s s' : (forall q, win s' q ca = win s q ca) -> crashes (mdl s') = crashes (mdl s) ->
  compatible ca T s -> compatible ca T s'.
Proof. intros Hw Hc HT p. unfold is_crashed. rewrite Hc, Hw. apply HT. Qed.

Lemma cacheline_can ca p s (Q : result St Range -> Prop) : has_table (obj_to_cl (mdl s)) p ->
  (forall s', evol ca 0 s s' -> (forall q, win s' q ca = win s q ca) -> crashes (mdl s') = crashes (mdl s) ->
     proc s' = proc s -> Q (Val (win s p ca) s')) ->
  can (ModelCore.cacheline p ca) Q s.
Proof.
  intros Ht HQ. destruct (cacheline_run p ca s Ht) as (c & Hrun & Hw & Htab).
  unfold can. rewrite Hrun. simpl. apply HQ; [|by intros; apply Hw|done|done].
  apply evol_cl; [done| | |]; intros q; intros; by rewrite Hw.
Qed.

(** Narrowing the window of [p] around [T p], or any window of a running process. *)
Lemma assign_can ca p w s T (Q : result St unit -> Prop) :
  has_table (obj_to_cl (mdl s)) p -> compatible ca T s ->
  (is_crashed s p = true -> range_begin w <= T p /\ (range_end w = 0 \/ T p < range_end w)) ->
  (forall s', compatible ca T s' -> Q (Val tt s')) ->
  can (assign_cacheline p ca w) Q s.
Proof.
  intros Ht HT Hw HQ. destruct (assign_run p ca w s Ht) as (c & Hrun & Hc & _).
  unfold can. rewrite Hrun. simpl. apply HQ. intros q Hq. unfold win. simpl. rewrite Hc.
  case_decide as Hd; [destruct Hd as [-> _]; by apply Hw|by apply HT].
Qed.

Lemma running_store_can ca rpid p read w rf n T s :
  has_table (obj_to_cl (mdl s)) p -> is_crashed s p = false -> crash_allowed s = false ->
  compatible ca T s -> can (running_store read w ca rpid p rf n) (still ca T) s.
Proof.
  intros Ht Hc Ha HT. unfold running_store.
  destruct (get_overlaps_save_old w read rf n) as [[[old|] rf'] n']; [|exact HT].
  case_if; [|exact HT]. rewrite can_bind. eapply cacheline_can; [done|].
  intros s1 He Hw Hcr _. rewrite can_bind. unfold can at 1; simpl.
  assert (crash_allowed s1 = false) as ->.
  { destruct (crash_allowed s1) eqn:E; [|done]. by rewrite (crash_allowed_mono _ _ _ _ He E) in Ha. }
  assert (compatible ca T s1) as HT1 by (by eapply compatible_eq).
  simpl. rewrite can_bind. unfold can at 1; simpl. rewrite can_bind. case_if; [|exact HT1].
  eapply assign_can; [by apply (ev_tables _ _ _ _ He)|done| |].
  - unfold is_crashed in *. rewrite Hcr. congruence.
  - intros s2 HT2. exact HT2.
Qed.

Lemma crashed_store_can ca p read w older rf n T s :
  has_table (obj_to_cl (mdl s)) p -> is_crashed s p = true -> backtrack (proc s) = true ->
  (act_type w = ATOMIC_INIT -> seq_num w = 0) -> line_ok ca s -> compatible ca T s ->
  can (crashed_store read w older ca p rf n) (still ca T) s.
Proof.
  intros Ht Hc Hb Hinit Hl HT. unfold crashed_store. rewrite can_bind. eapply cacheline_can; [done|].
  intros s1 He Hw Hcr Hproc. assert (compatible ca T s1) as HT1 by (by eapply compatible_eq).
  pose proof (proj1 (proj1 Hl p)) as Hpos. destruct (HT p Hc) as [Hlo Hhi].
  destruct (Z.leb_spec (seq_num w) (range_begin (win s p ca))) as [|Hgt].
  { destruct (get_overlaps w read rf n) as [[? ?] ?]. exact HT1. }
  case_if; [|exact HT1]. case_if; [exact HT1|].
  destruct (get_overlaps_save_old w read rf n) as [[[old|] rf'] n']; [|exact HT1].
  rewrite can_bind. unfold can at 1; simpl. rewrite bool_decide_true by (intros Hi; specialize (Hinit Hi); lia).
  rewrite Hproc, Hb. simpl. rewrite can_bind. rewrite can_bind. unfold can at 1; simpl.
  assert (has_table (obj_to_cl (mdl s1)) p) by (by apply (ev_tables _ _ _ _ He)).
  destruct (Z.lt_ge_cases (T p) (seq_num w)) as [Hlost|Hkept].
  - exists 0. split; [lia|]. simpl. unfold can at 1. simpl. rewrite can_bind.
    eapply assign_can; [done|done| |intros s2 HT2; exact HT2]. intros _. simpl. split; [lia|by right].
  - exists 1. split; [lia|]. simpl. unfold can at 1. simpl. rewrite can_bind.
    eapply assign_can; [done|done| |intros s2 HT2; exact HT2]. intros _. simpl. split; [lia|].
    destruct Hhi; [by left|by right].
Qed.

Lemma read_step_can ca rpid read w older rf n T s :
  store_ok s read w -> line_ok ca s -> compatible ca T s ->
  crash_allowed s = false -> backtrack (proc s) = true ->
  in_range read -> lenZ rf = act_size read -> n = count_none rf ->
  can (read_step read w older ca rpid rf n) (still ca T) s.
Proof.
  intros Hok Hl HT Ha Hb Hr Hlen ->. unfold read_step. rewrite can_bind. unfold can at 1.
  rewrite get_process_id_run by apply Hok. simpl. rewrite can_bind. unfold can at 1; simpl. rewrite can_bind.
  destruct (is_crashed s (pid_of s w)) eqn:Hc.
  { unfold can at 1; simpl. rewrite can_bind. unfold can at 1; simpl. rewrite Hc.
    apply crashed_store_can; try done; apply Hok. }
  assert (wp (running_store read w ca rpid (pid_of s w) rf (count_none rf)) (run_post ca rpid s w read rf) s) as Hwp
    by (apply running_store_wp; try done; apply Hok).
  pose proof (running_store_can ca rpid (pid_of s w) read w rf (count_none rf) T s
    (so_table _ _ _ Hok) Hc Ha HT) as Hcan.
  eapply can_mono; [|exact (wp_can _ _ _ _ Hwp Hcan)].
  intros [[rf' n'] s'|e s'] [Hrun HT']; simpl in *; [|done].
  destruct Hrun as (He & Hl' & -> & _). rewrite can_bind. unfold can at 1; simpl.
  destruct (is_crashed s' (pid_of s w)) eqn:Hc'; [|exact HT'].
  destruct (ev_new _ _ _ _ He _ Hc') as [|(_ & _ & ?)]; congruence.
Qed.

(** When no further crash can happen, the content under any persistence times
    that the windows allow is returned on some path, which keeps these times
    possible. *)
Lemma read_loop_complete ca rpid read T rstores : forall rf s,
  in_range read -> act_size read <= 8 -> lenZ rf = act_size read ->
  line_ok ca s -> Forall (store_ok s read) rstores -> newest_first rstores ->
  Exists (base_store read) rstores ->
  compatible ca T s -> crash_allowed s = false -> backtrack (proc s) = true ->
  can (read_loop rstores read ca rpid rf (count_none rf)) (still ca T) s.
Proof.
  induction rstores as [|w older IH]; intros rf s Hr H8 Hlen Hl Hok Hsort Hbase HT Ha Hb; [by inversion Hbase|].
  apply Forall_cons in Hok as [Hw Hok]. apply StronglySorted_inv in Hsort as [Hsort _].
  simpl. rewrite can_bind.
  pose proof (read_step_can ca rpid read w older rf _ T s Hw Hl HT Ha Hb Hr Hlen eq_refl) as Hcan.
  pose proof (read_step_wp ca rpid read w older rf s _ Hw Hl Hr Hlen (fun r Hp => Hp)) as Hwp.
  eapply can_mono; [|exact (wp_can _ _ _ _ Hwp Hcan)].
  assert (forall s' : St, evol ca rpid s s' -> Forall (store_ok s' read) older /\ crash_allowed s' = false /\ backtrack (proc s') = true) as Hkeep.
  { intros s' He. split; [eapply Forall_impl; [done|]; intros; by eapply store_ok_evol|].
    split; [|by rewrite (ev_proc _ _ _ _ He)].
    destruct (crash_allowed s') eqn:E; [|done]. by rewrite (crash_allowed_mono _ _ _ _ He E) in Ha. }
  intros [[[rf' n']|] s'|e s']; simpl; [| |tauto].
  - intros [(He & Hl' & -> & Hlen' & Hset) HT']. destruct (Hkeep _ He) as (K1 & K2 & K3).
    destruct (Z.eqb_spec (count_none rf') 0) as [|Hz]; [exact HT'|].
    apply IH; try done; [by unfold lenZ in *; congruence|].
    apply Exists_cons in Hbase as [Hbs|]; [|done]. destruct Hz.
    rewrite (settled_init _ _ _ _ _ _ _ Hl' (so_init _ _ _ Hw (proj1 Hbs)) Hset). by apply fill_base.
  - intros [(He & Hl' & Hc & Hpos & _) HT']. destruct (Hkeep _ He) as (K1 & K2 & K3). apply IH; try done.
    apply Exists_cons in Hbase as [Hbs|]; [|done]. pose proof (so_init _ _ _ Hw (proj1 Hbs)). lia.
Qed.

(** ** [build_read_from] *)

(** The slots that the thread's own buffered stores supply. *)
Definition local_slots (t : Thread) (read : ModelAction) : slots :=
  fill_all (List.filter forwardable (rev (storeBuffer (thread_memory t)))) (location read)
    (replicate (Z.to_nat (act_size read)) None).

(** A load of thread [t] from a word with the stores [stores], oldest first. *)
Record load_ready (s : St) (read : ModelAction) (t : Thread) (stores : list ModelAction) : Prop := mkLoadReady {
  lr_thread : lookupZ (threads (sched s)) (act_tid read) = Some t;
  lr_range : in_range read;
  lr_size : 0 < act_size read <= 8;
  lr_local : Forall (fun w => act_type w = NONATOMIC_STORE -> in_range w /\ overlap_ok w read)
               (storeBuffer (thread_memory t));
  lr_list : obj_to_wr (mdl s) !! alignAddress (location read) = Some stores;
  lr_stores : Forall (store_ok s read) stores;
  lr_sorted : newest_first (rev stores);
  lr_base : Exists (base_store read) stores;
  lr_line : line_ok (getCacheID (location read)) s
}.

Lemma build_read_from_unfold s read t stores : load_ready s read t stores ->
  let rf := local_slots t read in
  build_read_from read s =
    if count_none rf =? 0 then Leaf (Val (get_read_value (location read) rf) s)
    else read_loop (rev stores) read (getCacheID (location read)) (thr_pid t) rf (count_none rf) s.
Proof.
  intros [Ht Hr Hs Hl Hlist _ _ Hb _]. cbn zeta. unfold build_read_from.
  erewrite bind_val by (by apply get_thread_run). cbn beta. unfold local_bypassing.
  assert (bypass_loop (rev (storeBuffer (thread_memory t))) read
            (replicate (Z.to_nat (act_size read)) None) (act_size read) =
          (count_none (local_slots t read) =? 0, local_slots t read, count_none (local_slots t read))) as ->.
  { replace (act_size read) with (count_none (replicate (Z.to_nat (act_size read)) None)) at 2
      by (rewrite count_none_replicate; lia).
    apply bypass_loop_fill; [done| | |].
    - unfold lenZ. rewrite length_replicate. lia.
    - rewrite count_none_replicate. lia.
    - by apply List.Forall_rev. }
  destruct (count_none (local_slots t read) =? 0); [done|].
  unfold get_storelist. erewrite bind_val; [|run_step; rewrite Hlist; done].
  rewrite bool_decide_true by (intros ->; by inversion Hb). run_step.
  unfold get_process_id. erewrite bind_val; [reflexivity|].
  erewrite bind_val by (by apply get_thread_run). done.
Qed.

Lemma length_local_slots t read : 0 <= act_size read -> lenZ (local_slots t read) = act_size read.
Proof. intros. unfold local_slots, lenZ. rewrite length_fill_all, length_replicate. lia. Qed.

Lemma read_loop_of_ready s read t stores : load_ready s read t stores ->
  Forall (store_ok s read) (rev stores) /\ Exists (base_store read) (rev stores).
Proof.
  intros H. pose proof (lr_stores _ _ _ _ H) as Hs. pose proof (lr_base _ _ _ _ H) as Hb.
  rewrite Forall_forall in Hs. rewrite Exists_exists in Hb. destruct Hb as (w & Hw & Hb).
  rewrite Forall_forall, Exists_exists. split.
  - intros x Hx%list_elem_of_In%in_rev%list_elem_of_In. by apply Hs.
  - exists w. split; [|done]. apply list_elem_of_In. rewrite <- in_rev. by apply list_elem_of_In.
Qed.

(** The value of a load is the content of memory, then and later. *)
Lemma build_read_from_lasting s read t stores : load_ready s read t stores ->
  let ca := getCacheID (location read) in
  wp (build_read_from read)
     (returns (fun v s' => evol ca (thr_pid t) s s' /\ line_ok ca s' /\
        forall s2 T, narrows ca (thr_pid t) s' s2 -> one_crash s2 -> compatible ca T s2 ->
          v = replay_value s2 T (rev stores) (location read) (local_slots t read))) s.
Proof.
  intros H. cbn zeta. destruct (read_loop_of_ready _ _ _ _ H) as [Hok Hb].
  pose proof (lr_size _ _ _ _ H) as Hs. pose proof (length_local_slots t read) as Hlen.
  unfold wp. rewrite (build_read_from_unfold _ _ _ _ H). cbn zeta.
  destruct (Z.eqb_spec (count_none (local_slots t read)) 0) as [Hz|Hz].
  - simpl. split; [apply evol_refl|]. split; [apply H|]. intros s2 T _ _ _.
    unfold replay_value, replay. rewrite fill_all_full by done. apply get_read_value_bytes. lia.
  - apply read_loop_sound; try done; [apply H|lia|lia|apply H|apply H].
Qed.

Lemma build_read_from_wp s read t stores : load_ready s read t stores ->
  let ca := getCacheID (location read) in
  wp (build_read_from read)
     (returns (fun v s' => evol ca (thr_pid t) s s' /\ line_ok ca s' /\
        forall T, compatible ca T s' ->
          v = replay_value s' T (rev stores) (location read) (local_slots t read))) s.
Proof.
  intros H. eapply wp_mono; [|by apply build_read_from_lasting]. intros [v s'|e s']; simpl; [|done].
  intros (He & Hl & HT). split; [done|]. split; [done|]. intros T. apply HT; [apply narrows_refl|apply Hl].
Qed.

Lemma build_read_from_can s read t stores T : load_ready s read t stores ->
  let ca := getCacheID (location read) in
  compatible ca T s -> crash_allowed s = false -> backtrack (proc s) = true ->
  can (build_read_from read)
     (returns (fun v s' => compatible ca T s' /\
        v = replay_value s' T (rev stores) (location read) (local_slots t read))) s.
Proof.
  intros H. cbn zeta. intros HT Ha Hbt. pose proof (build_read_from_wp _ _ _ _ H) as Hwp. cbn zeta in Hwp.
  assert (can (build_read_from read) (still (getCacheID (location read)) T) s) as Hcan.
  { destruct (read_loop_of_ready _ _ _ _ H) as [Hok Hb].
    pose proof (lr_size _ _ _ _ H) as Hs. pose proof (length_local_slots t read) as Hlen.
    unfold can. rewrite (build_read_from_unfold _ _ _ _ H). cbn zeta.
    destruct (Z.eqb_spec (count_none (local_slots t read)) 0) as [Hz|Hz]; [exact HT|].
    apply read_loop_complete; try done; [apply H|lia|lia|apply H|apply H]. }
  eapply can_mono; [|exact (wp_can _ _ _ _ Hwp Hcan)].
  intros [v s'|e s']; simpl; [|tauto]. intros [(_ & _ & HT') Hs']. split; [done|]. by apply HT'.
Qed.

(** ** A load after the crash of its writer *)

(** Process 1 stored 7 and then 9 at address 64 and crashed; nothing has been
    flushed.  Process 0 loads the word. *)
Definition demo_read : ModelAction := ModelAction_new 0 NONATOMIC_LOAD 64 VALUE_NONE memory_order_relaxed 8 "demo".
Definition demo_store (v n : Z) : ModelAction :=
  set_seq_num n (ModelAction_new 1 NONATOMIC_STORE 64 v memory_order_relaxed 8 "demo").
Definition demo_stores : list ModelAction :=
  [ModelAction_new 0 ATOMIC_INIT 64 5 memory_order_relaxed 8 "demo"; demo_store 7 1; demo_store 9 2].
Definition demo_state : St :=
  mkSt (Scheduler_new 2) (with_crashes {[1 := 3]} (with_wr {[64 := demo_stores]} (Model_new 2)))
       ∅ ∅ 0 ∅ (Process_init 0 0).

Example demo_loads :
  (fun r => match r with Val v _ => Some v | Stop _ _ => None end) <$>
    leaves (build_read_from demo_read demo_state) = [Some 5; Some 7; Some 9].
Proof. vm_compute. reflexivity. Qed.

Lemma demo_window p a : window_of (CacheLineStore_init 2) p a = Range_new.
Proof. unfold window_of, lookupZ. case_if; [done|]. by destruct (Z.to_nat p) as [|[|[|[|n]]]]. Qed.

Lemma demo_ready : load_ready demo_state demo_read (Thread_main 0) demo_stores.
Proof.
  assert (Forall (store_ok demo_state demo_read) demo_stores) as Hst.
  { repeat apply Forall_cons_2; [..|apply Forall_nil_2].
    all: constructor; [by eexists|by eexists|by vm_compute|by left|done]. }
  constructor; try done.
  - repeat constructor; vm_compute; congruence.
  - left. split; [done|]. intros a Ha. unfold covers. bools. simpl in *. apply andb_true_intro.
    split; [apply Z.leb_le|apply Z.ltb_lt]; lia.
  - split; [|split].
    + intros p. unfold win. simpl. rewrite demo_window. simpl. lia.
    + intros p _. unfold win. simpl. by rewrite demo_window.
    + by vm_compute.
Qed.

(** ** Properties *)

(** C9: A load returns, on every decision path, the content of its bytes under
    every choice of persistence times that the windows left by the load still
    allow: the thread's buffered stores first, then the newest stores that
    reached memory.  It never fails, only narrows the windows of its line and
    crashes only processes that may crash. *)
Theorem load_sound s read t stores : load_ready s read t stores ->
  let ca := getCacheID (location read) in
  wp (build_read_from read)
     (returns (fun v s' => evol ca (thr_pid t) s s' /\ line_ok ca s' /\
        forall T, compatible ca T s' ->
          v = replay_value s' T (rev stores) (location read) (local_slots t read))) s.
Proof. apply build_read_from_wp. Qed.

Lemma load_sound_witness :
  wp (build_read_from demo_read)
     (returns (fun v s' => evol 64 0 demo_state s' /\ line_ok 64 s' /\
        forall T, compatible 64 T s' ->
          v = replay_value s' T (rev demo_stores) 64 (local_slots (Thread_main 0) demo_read))) demo_state.
Proof. exact (load_sound _ _ _ _ demo_ready). Defined.

(** C40: Nothing is missed: when no further crash can happen, every choice of
    persistence times that the windows allow is explored, that is, some decision
    path of the load returns the content under these times and keeps them
    possible. *)
Theorem load_complete s read t stores T : load_ready s read t stores ->
  let ca := getCacheID (location read) in
  compatible ca T s -> crash_allowed s = false -> backtrack (proc s) = true ->
  can (build_read_from read)
     (returns (fun v s' => compatible ca T s' /\
        v = replay_value s' T (rev stores) (location read) (local_slots t read))) s.
Proof. apply build_read_from_can. Qed.

Lemma load_complete_witness :
  can (build_read_from demo_read)
     (returns (fun v s' => compatible 64 (fun _ => 1) s' /\
        v = replay_value s' (fun _ => 1) (rev demo_stores) 64 (local_slots (Thread_main 0) demo_read))) demo_state.
Proof.
  apply (load_complete _ _ _ _ (fun _ => 1) demo_ready); [|done|done].
  intros p Hp. assert (p = 1) as -> by (unfold is_crashed in Hp; apply bool_decide_eq_true in Hp as [x Hx];
    simpl in Hx; by apply lookup_singleton_Some in Hx as [-> _]).
  vm_compute. split; [congruence|by left].
Defined.

(** C26: Without crashes the memory is sequential: a load that may not crash
    anyone returns, byte by byte, the newest buffered store of its thread and
    else the newest store of the word that covers the byte. *)
Theorem load_without_crash s read t stores : load_ready s read t stores ->
  crashes (mdl s) = ∅ -> crash_allowed s = false ->
  wp (build_read_from read)
     (returns (fun v s' => crashes (mdl s') = ∅ /\
        v = from_le (slot_bytes (location read) (fill_all (rev stores) (location read) (local_slots t read))))) s.
Proof.
  intros H Hcr Ha. eapply wp_mono; [|by apply build_read_from_wp].
  intros [v s'|e s']; simpl; [|done]. intros (He & Hl & HT).
  assert (forall p, is_crashed s' p = false) as Hno.
  { intros p. destruct (is_crashed s' p) eqn:E; [|done].
    destruct (ev_new _ _ _ _ He p E) as [Hs|(_ & _ & ?)]; [|congruence].
    unfold is_crashed in Hs. rewrite Hcr in Hs. apply bool_decide_eq_true in Hs as [x Hx]. done. }
  split.
  - apply map_empty. intros p. specialize (Hno p). unfold is_crashed in Hno.
    apply bool_decide_eq_false in Hno. by apply eq_None_not_Some.
  - rewrite (HT (fun _ => 0)); [|intros p Hp; congruence]. unfold replay_value, replay.
    assert (forall l, List.filter (kept s' (fun _ => 0)) l = l) as ->; [|done].
    induction l as [|w l IH]; simpl; [done|]. unfold kept at 1. rewrite Hno. simpl. by rewrite IH.
Qed.

Definition demo_quiet : St :=
  mkSt (Scheduler_new 2) (with_wr {[64 := demo_stores]} (Model_new 2)) ∅ ∅ 0 ∅ (with_backtrack false (Process_init 0 0)).

Lemma load_without_crash_witness :
  wp (build_read_from demo_read)
     (returns (fun v s' => crashes (mdl s') = ∅ /\
        v = from_le (slot_bytes 64 (fill_all (rev demo_stores) 64 (local_slots (Thread_main 0) demo_read))))) demo_quiet.
Proof.
  apply load_without_crash; [|done|done]. destruct demo_ready as [H1 H2 H3 H4 H5 H6 H7 H8 (H9 & _ & _)].
  constructor; try done.
  - eapply Forall_impl; [exact H6|]. intros w [K1 K2 K3 K4 K5]. by constructor.
  - split; [done|]. split; [|unfold one_crash; simpl; rewrite map_size_empty; lia]. intros p _. unfold win. simpl. by rewrite demo_window.
Defined.
