(* ===== verification/Recovery.v ===== *)
(** * Recovery: what the checker finds out about a crash

    The code that runs after a crash loads what is left in memory.  Here a
    sequence of loads ([build_read_from] of [src/src/model/model.cc]) is compared
    with an abstract persistent memory, in which every process has, for each
    cache line, one time up to which its stores have reached memory.  The search
    of the decision stack over the loads gives exactly the values that such a
    memory can hold. *)
From S2P Require Import Prelude Choice NodeStack Action ReadFrom CacheLine ThreadMemory State Scheduler ModelCore ReadSound.

(** ** The abstract memory *)

(** A persistence time for each cache line and process. *)
Definition oracle := Z -> times.
(** The windows of [s] allow it. *)
Definition possible (s : St) (O : oracle) : Prop := forall ca, compatible ca (O ca) s.

Definition stores_of (s : St) (read : ModelAction) : list ModelAction :=
  default [] (obj_to_wr (mdl s) !! alignAddress (location read)).
(** The value of a load when the persistence times are known: the thread's buffered
    stores first, then the newest stores that are in memory. *)
Definition recovered (s : St) (O : oracle) (read : ModelAction) : Z :=
  match lookupZ (threads (sched s)) (act_tid read) with
  | Some t => replay_value s (O (getCacheID (location read))) (rev (stores_of s read)) (location read) (local_slots t read)
  | None => 0
  end.

(** The loads, one after the other. *)
Fixpoint loads (reads : list ModelAction) : M St (list Z) :=
  match reads with
  | [] => ret []
  | r :: reads => let! v := build_read_from r in let! vs := loads reads in ret (v :: vs)
  end.

(** The state after a crash in which no further process may crash. *)
Record recovery (s : St) (reads : list ModelAction) : Prop := mkRecovery {
  rc_windows : forall ca, line_ok ca s;
  rc_ready : Forall (fun r => exists t stores, load_ready s r t stores) reads;
  rc_crash : crash_allowed s = false;
  rc_backtrack : backtrack (proc s) = true
}.

(** ** One load *)

Section After.
Context (ca rpid : Z) (s s' : St).
Hypothesis He : evol ca rpid s s'.
Hypothesis Hl : line_ok ca s'.
Hypothesis Hno : crash_allowed s = false.

Lemma crashed_after p : is_crashed s' p = is_crashed s p.
Proof.
  destruct (is_crashed s' p) eqn:E.
  - destruct (ev_new _ _ _ _ He p E) as [->|(_ & _ & ?)]; [done|congruence].
  - destruct (is_crashed s p) eqn:E'; [|done]. by rewrite (crashed_mono _ _ _ _ _ He E') in E.
Qed.

Lemma possible_after O : possible s' O -> possible s O.
Proof.
  intros HO cb p Hp. specialize (HO cb). destruct (decide (cb = ca)) as [->|Hne].
  - by eapply compatible_mono; [by apply evol_narrows| |].
  - rewrite <- (ev_other _ _ _ _ He p cb Hne). apply HO. by rewrite crashed_after.
Qed.

Lemma possible_other O : possible s O -> compatible ca (O ca) s' -> possible s' O.
Proof.
  intros HO Hca cb. destruct (decide (cb = ca)) as [->|Hne]; [done|]. intros p Hp.
  rewrite (ev_other _ _ _ _ He p cb Hne). apply HO. by rewrite <- crashed_after.
Qed.

Lemma kept_after T w : kept s' T w = kept s T w.
Proof. unfold kept. by rewrite (pid_of_evol _ _ _ _ _ He), crashed_after. Qed.

Lemma recovered_after O r : recovered s' O r = recovered s O r.
Proof.
  unfold recovered, stores_of, replay_value, replay. rewrite (ev_sched _ _ _ _ He), (ev_wr _ _ _ _ He).
  case_match; [|done]. do 3 f_equal. apply List.filter_ext. intros w. apply kept_after.
Qed.

Lemma ready_after r t stores : (forall cb, line_ok cb s) -> load_ready s r t stores -> load_ready s' r t stores.
Proof.
  intros Hlines [H1 H2 H3 H4 H5 H6 H7 H8 H9]. constructor; try done.
  - by rewrite (ev_sched _ _ _ _ He).
  - by rewrite (ev_wr _ _ _ _ He).
  - eapply Forall_impl; [exact H6|]. intros w. by eapply store_ok_evol.
  - destruct (decide (getCacheID (location r) = ca)) as [->|Hne]; [done|].
    destruct (Hlines (getCacheID (location r))) as (L1 & L2 & _). split; [|split; [|apply Hl]].
    + intros p. rewrite (ev_other _ _ _ _ He p _ Hne). apply L1.
    + intros p Hp. rewrite (ev_other _ _ _ _ He p _ Hne). apply L2. by rewrite <- crashed_after.
Qed.

Lemma recovery_after r reads : recovery s (r :: reads) -> recovery s' reads.
Proof.
  intros [H1 [_ H2]%Forall_cons H3 H4]. constructor.
  - intros cb. destruct (decide (cb = ca)) as [->|Hne]; [done|]. destruct (H1 cb) as (L1 & L2 & _).
    split; [|split; [|apply Hl]].
    + intros p. rewrite (ev_other _ _ _ _ He p _ Hne). apply L1.
    + intros p Hp. rewrite (ev_other _ _ _ _ He p _ Hne). apply L2. by rewrite <- crashed_after.
  - eapply Forall_impl; [exact H2|]. intros x (t & stores & Hx). exists t, stores. by apply ready_after.
  - destruct (crash_allowed s') eqn:E; [|done]. by rewrite (crash_allowed_mono _ _ _ _ He E) in H3.
  - by rewrite (ev_proc _ _ _ _ He).
Qed.
End After.

(** The load at the head of a sequence returns what the memory holds under the
    times that are still possible after it. *)
Lemma head_load s r reads : recovery s (r :: reads) -> exists t stores,
  load_ready s r t stores /\
  wp (build_read_from r) (returns (fun v s' => evol (getCacheID (location r)) (thr_pid t) s s' /\
    line_ok (getCacheID (location r)) s' /\ forall O, possible s' O -> v = recovered s O r)) s.
Proof.
  intros Hr. pose proof (rc_ready _ _ Hr) as [(t & stores & Hready) _]%Forall_cons. exists t, stores. split; [done|].
  eapply wp_mono; [|by apply build_read_from_wp]. intros [v s'|e s']; simpl; [|done]. intros (He & Hl & HT).
  split; [done|]. split; [done|]. intros O HO. rewrite (HT (O (getCacheID (location r)))) by apply HO.
  rewrite <- (recovered_after _ _ _ _ He (rc_crash _ _ Hr) O r). unfold recovered, stores_of.
  rewrite (ev_sched _ _ _ _ He), (ev_wr _ _ _ _ He), (lr_thread _ _ _ _ Hready), (lr_list _ _ _ _ Hready). done.
Qed.

(** ** All loads *)

Lemma loads_sound reads : forall s, recovery s reads ->
  wp (loads reads) (returns (fun vs s' => (forall ca, line_ok ca s') /\
    forall O, possible s' O -> possible s O /\ vs = recovered s O <$> reads)) s.
Proof.
  induction reads as [|r reads IH]; intros s Hr; simpl.
  { unfold wp; simpl. split; [apply Hr|done]. }
  destruct (head_load s r reads Hr) as (t & stores & _ & Hhead). wp_step. eapply wp_mono; [|exact Hhead].
  intros [v s1|e s1]; simpl; [|done]. intros (He & Hl & Hv).
  pose proof (recovery_after _ _ _ _ He Hl (rc_crash _ _ Hr) _ _ Hr) as Hr1.
  wp_step. eapply wp_mono; [|by apply IH]. intros [vs s2|e s2]; simpl; [|done]. intros [Hlines HO]. unfold wp; simpl.
  split; [done|]. intros O HP. destruct (HO O HP) as [HP1 ->]. split; [exact (possible_after _ _ _ _ He (rc_crash _ _ Hr) O HP1)|].
  rewrite (Hv O HP1). f_equal. apply list_fmap_ext. intros i x _. exact (recovered_after _ _ _ _ He (rc_crash _ _ Hr) O x).
Qed.

Lemma loads_complete O reads : forall s, recovery s reads -> possible s O ->
  can (loads reads) (returns (fun vs s' => possible s' O /\ vs = recovered s O <$> reads)) s.
Proof.
  induction reads as [|r reads IH]; intros s Hr HP; simpl; [done|].
  destruct (head_load s r reads Hr) as (t & stores & Hready & Hhead). rewrite can_bind.
  pose proof (build_read_from_can s r t stores (O (getCacheID (location r))) Hready (HP _) (rc_crash _ _ Hr) (rc_backtrack _ _ Hr)) as Hcan.
  eapply can_mono; [|exact (wp_can _ _ _ _ Hhead Hcan)].
  intros [v s1|e s1]; simpl; [|tauto]. intros ((He & Hl & Hv) & Hc & _).
  pose proof (possible_other _ _ _ _ He (rc_crash _ _ Hr) O HP Hc) as HP1.
  pose proof (recovery_after _ _ _ _ He Hl (rc_crash _ _ Hr) _ _ Hr) as Hr1.
  rewrite can_bind. eapply can_mono; [|by apply (IH s1)]. intros [vs s2|e s2]; simpl; [|done]. intros [HP2 ->].
  unfold can; simpl. split; [done|]. rewrite (Hv O HP1). f_equal. apply list_fmap_ext. intros i x _.
  exact (recovered_after _ _ _ _ He (rc_crash _ _ Hr) O x).
Qed.

(** ** How many questions the loads ask *)

(** Every path through [t] asks at most [n] questions, with two choices each. *)
Fixpoint asks_at_most {A} (n : nat) (t : tree A) {struct t} : Prop :=
  match t with
  | Leaf _ => True
  | Choose m k => m = 2 /\ match n with O => False | S n => forall c, 0 <= c < 2 -> asks_at_most n (k c) end
  end.
Definition asks {S A} (n : nat) (m : M S A) : Prop := forall s, asks_at_most n (m s).

Lemma asks_mono {A} (t : tree A) : forall n n', (n <= n')%nat -> asks_at_most n t -> asks_at_most n' t.
Proof.
  induction t as [a|m k IH]; simpl; [done|]. intros n n' Hn [-> Ht]. split; [done|].
  destruct n as [|n]; [done|]. destruct n' as [|n']; [lia|]. intros c Hc. apply (IH c n); [lia|by apply Ht].
Qed.
Lemma asks_tbind {A B} (t : tree A) (f : A -> tree B) b : forall a, asks_at_most a t ->
  all_leaves (fun x => asks_at_most b (f x)) t -> asks_at_most (a + b) (tbind t f).
Proof.
  induction t as [x|m k IH]; simpl; intros a Ha Hf; [eapply asks_mono; [|exact Hf]; lia|].
  destruct Ha as [-> Ha]. split; [done|]. destruct a as [|a]; [done|]. simpl. intros c Hc. by apply IH; [apply Ha|apply Hf].
Qed.
Lemma asks_wp_bind {S A B} (m : M S A) (f : A -> M S B) a b s : asks_at_most a (m s) ->
  wp m (fun r => match r with Val x s' => asks_at_most b (f x s') | Stop _ _ => True end) s ->
  asks_at_most (a + b) (bind m f s).
Proof.
  intros Hm Hf. apply asks_tbind; [done|]. eapply all_leaves_mono; [|exact Hf]. by intros [x s'|e s'].
Qed.
Lemma asks_bind {S A B} (m : M S A) (f : A -> M S B) a b : asks a m -> (forall x, asks b (f x)) -> asks (a + b) (bind m f).
Proof.
  intros Hm Hf s. apply asks_wp_bind; [apply Hm|]. eapply all_leaves_mono; [|apply all_leaves_true].
  intros [x s'|e s'] _; [apply Hf|done].
Qed.
Lemma asks_after {S A B} (m : M S A) (f : A -> M S B) b : asks 0 m -> (forall x, asks b (f x)) -> asks b (bind m f).
Proof. apply (asks_bind m f 0 b). Qed.
Lemma asks_ret {S A} (x : A) n : asks n (ret (S := S) x).
Proof. done. Qed.
Lemma asks_get {S} n : asks n (get (S := S)).
Proof. done. Qed.
Lemma asks_gets {S A} (g : S -> A) n : asks n (gets g).
Proof. done. Qed.
Lemma asks_modify {S} (g : S -> S) n : asks n (modify g).
Proof. done. Qed.
Lemma asks_halt {S A} e n : asks n (halt (S := S) (A := A) e).
Proof. done. Qed.
Lemma asks_lift {S A} (m : err A) n : asks n (lift (S := S) m).
Proof. by destruct m. Qed.
Lemma asks_some {S A} (o : option A) e n : asks n (from_some (S := S) o e).
Proof. by destruct o. Qed.
Lemma asks_choose {S} n : asks (Datatypes.S n) (choose (S := S) 2).
Proof. intros s. simpl. split; [done|]. by intros c _. Qed.

Create HintDb asks discriminated.
#[export] Hint Resolve asks_ret asks_get asks_gets asks_modify asks_halt asks_lift asks_some : asks.
(** Steps without a question, and the branches; [1] to the decisions. *)
Ltac asks_steps :=
  repeat first
    [ progress intros
    | solve [auto with asks]
    | match goal with |- asks _ (if ?b then _ else _) => destruct b end
    | match goal with |- asks _ (match ?o with _ => _ end) => destruct o end
    | apply asks_after ].

Lemma asks_cacheline p a : asks 0 (ModelCore.cacheline p a).
Proof. unfold ModelCore.cacheline. asks_steps. Qed.
Lemma asks_assign p a w n : asks n (assign_cacheline p a w).
Proof. unfold assign_cacheline. asks_steps. Qed.
Lemma asks_emplace p n : asks n (emplace_crash p).
Proof. unfold emplace_crash. asks_steps. Qed.
Lemma asks_ask_crash : asks 1 ask_crash.
Proof.
  unfold ask_crash, decision_point_m. apply asks_after; [auto with asks|]. intros []. apply asks_after; [auto with asks|].
  intros s. case_if; [auto with asks|]. apply (asks_bind _ _ 1 0); [apply asks_choose|]. asks_steps.
Qed.
#[export] Hint Resolve asks_cacheline asks_assign asks_emplace asks_ask_crash : asks.

Lemma asks_running_store r w ca rp wp0 rf n : asks 1 (running_store r w ca rp wp0 rf n).
Proof.
  unfold running_store. destruct (get_overlaps_save_old w r rf n) as [[[old|] rf'] n']; [|asks_steps].
  case_if; [|asks_steps]. apply asks_after; [asks_steps|]. intros cl. apply asks_after; [asks_steps|]. intros s.
  apply (asks_bind _ _ 1 0); [asks_steps|]. asks_steps.
Qed.
Lemma asks_crashed_store r w l ca wp0 rf n : asks 1 (crashed_store r w l ca wp0 rf n).
Proof.
  unfold crashed_store. apply asks_after; [asks_steps|]. intros cl. case_if.
  { destruct (get_overlaps w r rf n) as [[b rf'] n']. asks_steps. }
  case_if; [|asks_steps]. case_if; [asks_steps|].
  destruct (get_overlaps_save_old w r rf n) as [[[old|] rf'] n']; [|asks_steps].
  apply asks_after; [asks_steps|]. intros s. apply (asks_bind _ _ 1 0); [|asks_steps].
  case_if; [|asks_steps]. unfold decision_point_m. apply (asks_bind _ _ 1 0); [apply asks_choose|]. asks_steps.
Qed.
Lemma asks_get_process_id w : asks 0 (get_process_id w).
Proof. unfold get_process_id, get_thread. asks_steps. Qed.
Lemma asks_read_step r w l ca rp rf n : asks 2 (read_step r w l ca rp rf n).
Proof.
  unfold read_step. apply asks_after; [apply asks_get_process_id|]. intros wp0. apply asks_after; [asks_steps|]. intros s.
  apply (asks_bind _ _ 1 1).
  - case_if; [asks_steps|apply asks_running_store].
  - intros [rf' n']. apply asks_after; [asks_steps|]. intros s'. case_if; [apply asks_crashed_store|asks_steps].
Qed.
Lemma asks_read_loop rstores r ca rp : forall rf n, asks (2 * length rstores) (read_loop rstores r ca rp rf n).
Proof.
  induction rstores as [|w rstores IH]; intros rf n; [apply asks_halt|]. cbn [read_loop length].
  replace (2 * S (length rstores))%nat with (2 + 2 * length rstores)%nat by lia.
  apply (asks_bind _ _ 2); [apply asks_read_step|]. intros [[rf' n']|]; [|apply IH]. case_if; [asks_steps|apply IH].
Qed.

(** All loads together. *)
Definition questions (s : St) (reads : list ModelAction) : nat :=
  sum_list ((fun r => 2 * length (stores_of s r))%nat <$> reads).

Arguments questions : simpl never.

Lemma asks_load s r t stores : load_ready s r t stores -> asks_at_most (2 * length stores) (build_read_from r s).
Proof.
  intros Hr. rewrite (build_read_from_unfold _ _ _ _ Hr). cbn zeta. case_if; [done|].
  rewrite <- length_rev. apply asks_read_loop.
Qed.

Lemma asks_loads reads : forall s, recovery s reads -> asks_at_most (questions s reads) (loads reads s).
Proof.
  induction reads as [|r reads IH]; intros s Hr; [done|].
  destruct (head_load s r reads Hr) as (t & stores & Hready & Hhead). cbn [loads].
  change (questions s (r :: reads)) with (2 * length (stores_of s r) + questions s reads)%nat.
  apply asks_wp_bind.
  - unfold stores_of. rewrite (lr_list _ _ _ _ Hready). by eapply asks_load.
  - eapply wp_mono; [|exact Hhead]. intros [v s1|e s1]; simpl; [|done]. intros (He & Hl & _).
    pose proof (recovery_after _ _ _ _ He Hl (rc_crash _ _ Hr) _ _ Hr) as Hr1.
    rewrite <- (Nat.add_0_r (questions s reads)). apply asks_wp_bind.
    + specialize (IH s1 Hr1). unfold questions, stores_of in *. by rewrite (ev_wr _ _ _ _ He) in IH.
    + eapply all_leaves_mono; [|apply all_leaves_true]. by intros [? ?|? ?] _.
Qed.

Lemma asks_tree_ok {A} (t : tree A) : forall n d, asks_at_most n t -> 0 <= d -> d + Z.of_nat n <= 2 ^ 31 - 1 -> tree_ok d t.
Proof.
  induction t as [a|m k IH]; simpl; [done|]. intros n d [-> Hk] Hd Hn. destruct n as [|n]; [done|].
  split; [lia|]. split; [lia|]. intros c Hc. apply (IH c n); [by apply Hk|lia|lia].
Qed.
Lemma asks_leaves {A} (t : tree A) : forall n, asks_at_most n t -> (length (leaves t) <= 2 ^ n)%nat.
Proof.
  induction t as [a|m k IH]; simpl; intros n Hn; [apply Nat.pow_lower_bound; lia|].
  destruct Hn as [-> Hk]. destruct n as [|n]; [done|]. change (seqZ 0 2) with [0; 1]. cbn [fmap list_fmap concat].
  rewrite !length_app. simpl. pose proof (IH 0 n (Hk 0 ltac:(lia))). pose proof (IH 1 n (Hk 1 ltac:(lia))). lia.
Qed.

(** ** Properties *)

Lemma loads_exact reads s : recovery s reads ->
  (forall r, r ∈ leaves (loads reads s) -> exists vs s', r = Val vs s') /\
  forall vs, (exists s', Val vs s' ∈ leaves (loads reads s)) <-> exists O, possible s O /\ vs = recovered s O <$> reads.
Proof.
  intros Hr. pose proof (loads_sound reads s Hr) as Hs. unfold wp in Hs. apply all_leaves_elem in Hs. rewrite Forall_forall in Hs.
  split; [|intros vs; split].
  - intros r Hin. specialize (Hs r Hin). destruct r as [vs s'|e s']; [by exists vs, s'|done].
  - intros [s' Hin]. destruct (Hs _ Hin) as [Hl HO]. exists (fun ca p => range_begin (win s' p ca)). apply HO.
    intros ca. apply (compatible_begin ca s' (Hl ca)).
  - intros (O & HO & ->). pose proof (loads_complete O reads s Hr HO) as Hc. unfold can in Hc.
    apply some_leaf_elem, Exists_exists in Hc as ([vs s'|e s'] & Hin & Hret); [|done].
    destruct Hret as [_ ->]. by exists s'.
Qed.

(** C7: The checker explores exactly the memories that a crash can leave: the search
    that the decision stack drives over any sequence of loads after the last
    crash, possibly of several lines and by several threads, finishes; every
    execution returns the values that one choice of persistence times gives, the
    same times for all its loads, and every choice that the windows allow is
    returned by some execution. *)
Theorem recovery_explored s reads fuel : recovery s reads ->
  Z.of_nat (questions s reads) <= 2 ^ 31 - 1 -> (2 ^ questions s reads <= fuel)%nat ->
  exists results ns, search fuel (loads reads s) NodeStack_new = inr (results, ns) /\ has_another_execution ns = false /\
    (forall r, r ∈ results -> exists vs s', r = Val vs s') /\
    forall vs, (exists s', Val vs s' ∈ results) <-> exists O, possible s O /\ vs = recovered s O <$> reads.
Proof.
  intros Hr Hq Hf. pose proof (asks_loads reads s Hr) as Ha. pose proof (asks_leaves _ _ Ha) as Hl.
  destruct (search_leaves (loads reads s) fuel) as (ns & Hs & Hn); [eapply asks_tree_ok; [exact Ha|lia|lia]|lia|].
  exists (leaves (loads reads s)), ns. split; [done|]. split; [done|]. by apply loads_exact.
Qed.

(** Process 1 stored 7 and then 9 over 5 and crashed; process 0 loads the word twice:
    it sees 5, 7 or 9, the same both times. *)
Lemma demo_recovery : recovery demo_state [demo_read; demo_read].
Proof.
  constructor; try done.
  - intros ca. split; [|split; [|by vm_compute]].
    + intros p. unfold win. simpl. rewrite demo_window. simpl. lia.
    + intros p _. unfold win. simpl. by rewrite demo_window.
  - repeat constructor; exists (Thread_main 0), demo_stores; apply demo_ready.
Qed.
Lemma recovery_explored_witness : exists results ns,
  search 4096 (loads [demo_read; demo_read] demo_state) NodeStack_new = inr (results, ns) /\
  (exists s', Val [7; 7] s' ∈ results) /\ ~ (exists s', Val [7; 9] s' ∈ results).
Proof.
  destruct (recovery_explored demo_state [demo_read; demo_read] 4096 demo_recovery ltac:(by vm_compute)
    ltac:(apply Nat.leb_le; vm_compute; reflexivity)) as (results & ns & Hs & _ & _ & Hv).
  exists results, ns. split; [exact Hs|]. split.
  - apply Hv. exists (fun _ _ => 1). split; [|by vm_compute].
    intros ca p Hp. unfold win. simpl. rewrite demo_window. simpl. lia.
  - intros [O [_ HO]]%Hv. assert (forall x, [7; 9] <> [x; x]) as Hne by (intros x [= ? ?]; lia). by apply (Hne (recovered demo_state O demo_read)).
Defined.
