(* ===== verification/Wf.v ===== *)
(** * Wf: the invariant of the checker's state

    The data invariant of the shared objects: the thread table, the windows, the
    store lists (sorted by time, each on top of the initial value of its word),
    the buffers, the ownership of the mutexes.  This file states it, shows that
    changes of the thread table keep it, the crash of a process among them, and
    defines what a safe end of a computation is; [ModelSafe], [Buffers] and
    [Safety] go on with the operations on memory, the buffers and whole actions. *)
From Stdlib Require Import Sorted.
From S2P Require Import Prelude Choice Action ReadFrom CacheLine ThreadMemory State Scheduler ModelCore Executor ReadSound.

(** The stops that are not failures of the checker. *)
Definition benign (e : stop) : Prop := match e with Exit _ | Abort => True | _ => False end.

(** A naturally aligned access, with its word in the address space. *)
Definition access_ok (a : ModelAction) : Prop :=
  aligned a /\ 0 <= location a /\ location a + 8 < 2 ^ 64.

(** An entry of the store list of word [w]: [n] threads exist, the clock is [clk]. *)
Record stored_ok (n w clk : Z) (a : ModelAction) : Prop := mkStored {
  st_tid : 0 <= act_tid a < n;
  st_access : access_ok a;
  st_word : alignAddress (location a) = w;
  st_seq : 0 <= seq_num a <= clk;
  st_init : act_type a = ATOMIC_INIT -> seq_num a = 0
}.

(** The initial value of word [w]. *)
Definition word_base (w : Z) (a : ModelAction) : Prop :=
  act_type a = ATOMIC_INIT /\ location a = w /\ act_size a = 8.

Record list_ok (n w clk : Z) (l : list ModelAction) : Prop := mkListOk {
  lo_stored : Forall (stored_ok n w clk) l;
  lo_sorted : newest_first (rev l);
  lo_base : l <> [] -> Exists (word_base w) l
}.

Record model_wf (n pc : Z) (m : Model) : Prop := mkModelWf {
  mw_tables : forall p, 0 <= p < pc -> has_table (obj_to_cl m) p;
  mw_begins : forall p ca, 0 <= range_begin (window_of (obj_to_cl m) p ca);
  mw_lists : forall w l, obj_to_wr m !! w = Some l -> list_ok n w (next_sequence_num m) l;
  mw_clock : 0 <= next_sequence_num m;
  mw_crashes : (size (crashes m) <= 1)%nat
}.

(** The word of [addr] has its initial value. *)
Definition based (wr : gmap Z (list ModelAction)) (addr : Z) : Prop :=
  exists l, wr !! alignAddress addr = Some l /\ l <> [].

Record buffered_ok (n : Z) (wr : gmap Z (list ModelAction)) (a : ModelAction) : Prop := mkBuffered {
  bf_tid : 0 <= act_tid a < n;
  bf_type : bufferable (act_type a) = true;
  bf_init : act_type a <> ATOMIC_INIT;
  bf_write : is_write a = true -> access_ok a /\ based wr (location a)
}.

Definition memory_wf (n : Z) (wr : gmap Z (list ModelAction)) (tm : ThreadMemory) : Prop :=
  Forall (buffered_ok n wr) (storeBuffer tm) /\
  Forall (fun a => act_type a = CACHE_CLFLUSHOPT) (flushBuffer tm).

Record threads_wf (c : Scheduler) : Prop := mkThreadsWf {
  tw_active : sched_ok c;
  tw_pids : forall i t, lookupZ (threads c) i = Some t -> 0 <= thr_pid t < process_count c
}.

(** Owners and owned sets agree, for the threads that have not crashed. *)
Record mutexes_wf (l : list Thread) (ms : gmap Z Mutex) : Prop := mkMutexesWf {
  xw_owner : forall m mx o, ms !! m = Some mx -> owner mx = Some o ->
    exists t, lookupZ l o = Some t /\ (thr_state t <> THREAD_CRASHED -> m ∈ owned_mutexes t);
  xw_owned : forall i t m, lookupZ l i = Some t -> thr_state t <> THREAD_CRASHED -> m ∈ owned_mutexes t ->
    exists mx, ms !! m = Some mx /\ owner mx = Some i
}.

Definition thread_count (s : St) : Z := lenZ (threads (sched s)).
(** Stores and flushes that still wait for a sequence number. *)
Definition buffered (l : list Thread) : Z :=
  Z.of_nat (sum_list ((fun t => length (storeBuffer (thread_memory t))) <$> l)).
Definition clock (s : St) : Z := next_sequence_num (mdl s) + buffered (threads (sched s)).

(** ** The past of a state

    What a step that is not an operation on the memory leaves alone: windows,
    store lists, crashes and the processes of the threads. *)
Definition keeps_pids (s s' : St) : Prop := forall i t, lookupZ (threads (sched s)) i = Some t ->
  exists t', lookupZ (threads (sched s')) i = Some t' /\ thr_pid t' = thr_pid t.
Record elsewhere (s s' : St) : Prop := mkElsewhere {
  el_windows : forall p ca, win s' p ca = win s p ca;
  el_stores : obj_to_wr (mdl s') = obj_to_wr (mdl s);
  el_crashes : crashes (mdl s') = crashes (mdl s);
  el_tables : CacheLineStore_clear (obj_to_cl (mdl s')) = CacheLineStore_clear (obj_to_cl (mdl s));
  el_pids : keeps_pids s s'
}.

(** The invariant carries a property of how its state was reached, which such
    steps keep; [History] chooses one, and [no_past] asks for nothing. *)
Class Past := { past : St -> Prop; past_elsewhere : forall s s', elsewhere s s' -> past s -> past s' }.
#[export] Instance no_past : Past.
Proof. by refine {| past := fun _ => True |}. Defined.

Lemma same_pids s s' : sched s' = sched s -> keeps_pids s s'.
Proof. intros Hs i t Ht. exists t. by rewrite Hs. Qed.
Lemma elsewhere_mdl s s' : obj_to_cl (mdl s') = obj_to_cl (mdl s) -> obj_to_wr (mdl s') = obj_to_wr (mdl s) ->
  crashes (mdl s') = crashes (mdl s) -> keeps_pids s s' -> elsewhere s s'.
Proof. intros Hc Hw Hk Hp. constructor; try done; [intros p ca; unfold win|]; by rewrite Hc. Qed.

Record wf {PAST : Past} (M : Z) (s : St) : Prop := mkWf {
  wf_threads : threads_wf (sched s);
  wf_model : model_wf (thread_count s) (process_count (sched s)) (mdl s);
  wf_memory : forall i t, lookupZ (threads (sched s)) i = Some t ->
    memory_wf (thread_count s) (obj_to_wr (mdl s)) (thread_memory t);
  wf_mutexes : mutexes_wf (threads (sched s)) (mutexes s);
  wf_self : exists t, lookupZ (threads (sched s)) (thread_id (proc s)) = Some t /\ thr_pid t = process_id (proc s);
  wf_clock : clock s <= M;
  wf_past : past s
}.

(** Only the past tells the invariants of two properties apart. *)
Lemma wf_recall `{P : Past, Q : Past} M s : wf (PAST := P) M s -> past (Past := Q) s -> wf (PAST := Q) M s.
Proof. intros [H1 H2 H3 H4 H5 H6 _] Hp. by constructor. Qed.
Lemma wf_forget `{P : Past} M s : wf (PAST := P) M s -> wf (PAST := no_past) M s.
Proof. intros Hs. by apply (wf_recall (P := P)). Qed.

(** A step that the past does not notice keeps it. *)
Lemma past_step {PAST : Past} M s s' : wf M s -> obj_to_cl (mdl s') = obj_to_cl (mdl s) -> obj_to_wr (mdl s') = obj_to_wr (mdl s) ->
  crashes (mdl s') = crashes (mdl s) -> keeps_pids s s' -> past s'.
Proof. intros Hs Hc Hw Hk Hp. eapply past_elsewhere; [|apply (wf_past _ _ Hs)]. by apply elsewhere_mdl. Qed.

Section Invariant.
Context {PAST : Past}.

(** ** The model part *)

(** A step of the model that keeps the words based. *)
Definition wr_grows (wr wr' : gmap Z (list ModelAction)) : Prop := forall a, based wr a -> based wr' a.

Lemma memory_wf_grows n wr wr' tm : wr_grows wr wr' -> memory_wf n wr tm -> memory_wf n wr' tm.
Proof.
  intros Hg [Hs Hf]. split; [|done]. eapply Forall_impl; [exact Hs|].
  intros a [H1 H2 H3 H4]. constructor; try done. intros Hw. destruct (H4 Hw). split; [done|by apply Hg].
Qed.

Lemma wf_on_mdl M M' s f : wf M s -> past (on_mdl f s) ->
  model_wf (thread_count s) (process_count (sched s)) (f (mdl s)) ->
  wr_grows (obj_to_wr (mdl s)) (obj_to_wr (f (mdl s))) ->
  next_sequence_num (f (mdl s)) <= next_sequence_num (mdl s) + (M' - M) ->
  wf M' (on_mdl f s).
Proof.
  intros [H1 H2 H3 H4 H5 H6 H7] Hp Hm Hg Hc. constructor; try done.
  - intros i t Ht. eapply memory_wf_grows; [exact Hg|]. by eapply H3.
  - unfold clock in *. simpl. lia.
Qed.

Lemma list_ok_later n w clk clk' l : clk <= clk' -> list_ok n w clk l -> list_ok n w clk' l.
Proof.
  intros Hc [H1 H2 H3]. constructor; try done. eapply Forall_impl; [exact H1|].
  intros a [? ? ? ? ?]. constructor; try done. lia.
Qed.

Lemma list_ok_nil n w clk : list_ok n w clk [].
Proof. constructor; [constructor|constructor|done]. Qed.

Lemma newest_first_snoc l a : newest_first (rev l) -> Forall (fun b => seq_num b <= seq_num a) l ->
  newest_first (rev (l ++ [a])).
Proof.
  intros Hs Hl. rewrite rev_app_distr. simpl. constructor; [done|]. by apply List.Forall_rev.
Qed.

Lemma wf_weaken M M' s : M <= M' -> wf M s -> wf M' s.
Proof. intros HM [H1 H2 H3 H4 H5 H6 H7]. constructor; try done. lia. Qed.

(** ** The thread table *)

(** A change of the table that keeps processes, owned mutexes and crashes. *)
Record table_step (l l' : list Thread) : Prop := mkTableStep {
  ts_length : length l' = length l;
  ts_thread : forall i t', lookupZ l' i = Some t' -> exists t, lookupZ l i = Some t /\
    thr_pid t' = thr_pid t /\ owned_mutexes t' = owned_mutexes t /\
    (thr_state t' <> THREAD_CRASHED -> thr_state t <> THREAD_CRASHED)
}.

Lemma table_step_back l l' i t : table_step l l' -> lookupZ l i = Some t ->
  exists t', lookupZ l' i = Some t' /\ thr_pid t' = thr_pid t /\ owned_mutexes t' = owned_mutexes t /\
    (thr_state t' <> THREAD_CRASHED -> thr_state t <> THREAD_CRASHED).
Proof.
  intros [Hlen H] Ht. apply lookupZ_Some in Ht as Hb.
  destruct (lookupZ_is_Some l' i) as [t' Ht']; [by rewrite Hlen|].
  destruct (H i t' Ht') as (u & Hu & Hrest). rewrite Ht in Hu. injection Hu as <-. by exists t'.
Qed.

Lemma mutexes_wf_step l l' ms : table_step l l' -> mutexes_wf l ms -> mutexes_wf l' ms.
Proof.
  intros Hst [H1 H2]. constructor.
  - intros m mx o Hm Ho. destruct (H1 m mx o Hm Ho) as (t & Ht & Hi).
    destruct (table_step_back _ _ _ _ Hst Ht) as (t' & Ht' & _ & Hown & Hcr). exists t'. split; [done|].
    rewrite Hown. auto.
  - intros i t' m Ht' Hs Hm. destruct (ts_thread _ _ Hst i t' Ht') as (t & Ht & _ & Hown & Hcr).
    eapply H2; [done|by apply Hcr|congruence].
Qed.

Lemma wf_on_threads M M' s f :
  wf M s ->
  process_count (f (sched s)) = process_count (sched s) -> sched_ok (f (sched s)) ->
  table_step (threads (sched s)) (threads (f (sched s))) ->
  (forall i t, lookupZ (threads (f (sched s))) i = Some t ->
     memory_wf (thread_count s) (obj_to_wr (mdl s)) (thread_memory t)) ->
  buffered (threads (f (sched s))) <= buffered (threads (sched s)) + (M' - M) ->
  wf M' (on_sched f s).
Proof.
  intros Hs Hpc Hok Hst Hmem Hbuf. pose proof Hs as [[W1 W1'] W2 W3 W4 W5 W6 _].
  assert (thread_count (on_sched f s) = thread_count s) as Hc.
  { unfold thread_count, lenZ. simpl. by rewrite (ts_length _ _ Hst). }
  constructor.
  - constructor; [done|]. simpl. intros i t Ht. destruct (ts_thread _ _ Hst i t Ht) as (u & Hu & -> & _).
    rewrite Hpc. by eapply W1'.
  - rewrite Hc. simpl. by rewrite Hpc.
  - rewrite Hc. simpl. exact Hmem.
  - simpl. by eapply mutexes_wf_step.
  - simpl. destruct W5 as (t & Ht & Hp). destruct (table_step_back _ _ _ _ Hst Ht) as (t' & Ht' & Hp' & _).
    exists t'. split; [done|congruence].
  - unfold clock in *. simpl. lia.
  - apply (past_step M s); [done..|]. intros i t Ht.
    destruct (table_step_back _ _ _ _ Hst Ht) as (t' & Ht' & Hp' & _). by exists t'.
Qed.

(** A change of a thread that keeps its process, memory and mutexes. *)
Definition mild (t t' : Thread) : Prop :=
  thr_pid t' = thr_pid t /\ owned_mutexes t' = owned_mutexes t /\ thread_memory t' = thread_memory t /\
  (thr_state t' <> THREAD_CRASHED -> thr_state t <> THREAD_CRASHED).

Definition mild_table (l l' : list Thread) : Prop :=
  length l' = length l /\ forall i t', lookupZ l' i = Some t' -> exists t, lookupZ l i = Some t /\ mild t t'.

Lemma buffered_same l l' : length l' = length l ->
  (forall i t', lookupZ l' i = Some t' -> exists t, lookupZ l i = Some t /\ thread_memory t' = thread_memory t) ->
  buffered l' = buffered l.
Proof.
  intros Hlen Hl. unfold buffered. do 2 f_equal. apply list_eq. intros i. rewrite !list_lookup_fmap.
  destruct (l' !! i) as [t'|] eqn:E'; simpl.
  - destruct (Hl (Z.of_nat i) t') as (t & Ht & Hm).
    { unfold lookupZ. by rewrite (proj2 (Z.ltb_ge _ 0)), Nat2Z.id by lia. }
    unfold lookupZ in Ht. rewrite (proj2 (Z.ltb_ge _ 0)), Nat2Z.id in Ht by lia. rewrite Ht. simpl. by rewrite Hm.
  - apply lookup_ge_None in E'. rewrite (lookup_ge_None_2 l i) by lia. done.
Qed.

Lemma mild_wf M s g : wf M s ->
  process_count (g (sched s)) = process_count (sched s) -> active_thread (g (sched s)) = active_thread (sched s) ->
  mild_table (threads (sched s)) (threads (g (sched s))) -> wf M (on_sched g s).
Proof.
  intros Hs Hpc Hac Hm. pose proof Hm as [Hlen Hl]. apply (wf_on_threads M M s); [done|done| | | |].
  - unfold sched_ok, lenZ. rewrite Hac, Hlen. apply (tw_active _ (wf_threads _ _ Hs)).
  - constructor; [done|]. intros i t' Ht'. destruct (Hl i t' Ht') as (t & Ht & H1 & H2 & _ & H3). by exists t.
  - intros i t' Ht'. destruct (Hl i t' Ht') as (t & Ht & _ & _ & -> & _). by eapply (wf_memory _ _ Hs).
  - rewrite (buffered_same (threads (sched s))); [lia|done|].
    intros i t' Ht'. destruct (Hl i t' Ht') as (t & Ht & _ & _ & ? & _). by exists t.
Qed.

Lemma upd_mild_wf M s i t f : wf M s -> lookupZ (threads (sched s)) i = Some t -> mild t (f t) ->
  wf M (on_sched (fun c => with_threads (update_at i f (threads c)) c) s).
Proof.
  intros Hs Ht Hf. apply (mild_wf M s); try done; simpl. split; [by rewrite length_update_at|].
  intros j t'. rewrite lookupZ_update_at. case_decide as Hj; [|intros; exists t'; done].
  subst j. rewrite Ht. intros [= <-]. by exists t.
Qed.

Lemma wake_mild t v : waiting_on t = Some v -> mild t (set_state THREAD_RUNNING t).
Proof. intros H%waiting_blocked. unfold mild. simpl. by rewrite H. Qed.

Lemma wake_all_wf M s v : wf M s -> wf M (on_sched (wake_all_threads_waiting_on v) s).
Proof.
  intros Hs. apply (mild_wf M s); [done..|]. split; [simpl; by rewrite length_fmap|].
  intros i t'. rewrite wake_all_lookup. destruct (lookupZ (threads (sched s)) i) as [t|]; [|done]. simpl.
  intros [= <-]. exists t. split; [done|]. case_bool_decide as Hw; [by eapply wake_mild|done].
Qed.

(** The table that the crash of a process leaves: threads of the process are
    crashed, waiters of their mutexes run. *)
Lemma process_crash_mild pid c : mild_table (threads c) (threads (process_crash_sched pid c)).
Proof.
  assert (length (threads (process_crash_sched pid c)) = length (threads c)) as Hlen.
  { unfold process_crash_sched. generalize (seqZ 0 (lenZ (threads c))) as ids. intros ids. revert c.
    induction ids as [|i ids IH]; intros c; simpl; [done|]. rewrite IH. pose proof (crash_thread_length pid c i).
    unfold lenZ in *. lia. }
  split; [done|]. intros i t' Ht'. destruct (lookupZ_is_Some (threads c) i) as [t Ht].
  { apply lookupZ_Some in Ht'. by rewrite <- Hlen. }
  exists t. split; [done|]. destruct (process_crash_done pid c i t Ht) as (u & Hu & Hs & Hc & _).
  rewrite Ht' in Hu. injection Hu as <-. rewrite Hs. unfold mild; simpl. do 3 (split; [done|]).
  intros Hne Hcr. apply Hne. rewrite Hc; [done|]. unfold thread_is_completed. by rewrite Hcr.
Qed.

Lemma process_crash_counts pid c : process_count (process_crash_sched pid c) = process_count c /\
  active_thread (process_crash_sched pid c) = active_thread c /\
  terminating (process_crash_sched pid c) = terminating c.
Proof.
  unfold process_crash_sched. generalize (seqZ 0 (lenZ (threads c))) as ids. intros ids. revert c.
  induction ids as [|i ids IH]; intros c; simpl; [done|]. destruct (IH (crash_thread pid c i)) as (-> & -> & ->).
  apply crash_thread_count.
Qed.

Lemma process_crash_wf M s pid : wf M s -> wf M (on_sched (process_crash_sched pid) s).
Proof.
  intros Hs. destruct (process_crash_counts pid (sched s)) as (H1 & H2 & _).
  apply mild_wf; [done..|]. apply process_crash_mild.
Qed.

End Invariant.

(** ** Safe ends *)

(** The clock budget of the actions under consideration. *)
Class Bound := bound : Z.

(** The value on return; otherwise a stop that is not a failure, and when the
    process ends the invariant holds for those that go on. *)
Definition safe {PAST : Past} {B0 : Bound} {A} (Q : A -> St -> Prop) (r : result St A) : Prop :=
  match r with
  | Val a s => Q a s
  | Stop e s => benign e /\ (e = Exit EXIT_SUCCESS -> wf bound s)
  end.

Lemma wp_safe_bind {PAST : Past} {B0 : Bound} {A B} (m : M St A) (f : A -> M St B) P Q s :
  wp m (safe P) s -> (forall a s', P a s' -> wp (f a) (safe Q) s') -> wp (bind m f) (safe Q) s.
Proof.
  intros Hm Hf. rewrite wp_bind. eapply wp_mono; [|exact Hm]. intros [a s'|e s']; simpl; [apply Hf|done].
Qed.
