(* ===== verification/ModelSafe.v ===== *)
(** * ModelSafe: the memory operations keep the invariant

    The operations of [ModelCore] from a state of the invariant of [Wf]: they
    keep it, on the paths that return and on those on which the process
    crashes, and they do not fail. *)
From Stdlib Require Import Sorted.
From S2P Require Import Prelude Choice Action ReadFrom CacheLine ThreadMemory State Scheduler ModelCore Executor ReadSound Wf.

(** A step that changes the model only, and keeps what was there. *)
Record model_step (s s' : St) : Prop := mkModelStep {
  ms_sched : sched s' = sched s;
  ms_proc : proc s' = proc s;
  ms_mutexes : mutexes s' = mutexes s;
  ms_grows : wr_grows (obj_to_wr (mdl s)) (obj_to_wr (mdl s'))
}.
Lemma model_step_refl s : model_step s s.
Proof. constructor; try done. by intros ?. Qed.
Lemma model_step_trans s1 s2 s3 : model_step s1 s2 -> model_step s2 s3 -> model_step s1 s3.
Proof. intros [A1 A2 A3 A4] [B1 B2 B3 B4]. constructor; try congruence. intros a Ha. by apply B4, A4. Qed.
#[export] Hint Resolve model_step_refl : core.

(** ** The parts of the operations

    Inside an operation the invariant carries no past. *)
Section ModelSafe.
Context {B0 : Bound}.

Lemma get_storelist_wf M s a : wf M s ->
  wp (get_storelist a) (safe (fun l s' => wf M s' /\ model_step s s' /\
    next_sequence_num (mdl s') = next_sequence_num (mdl s) /\ obj_to_wr (mdl s') !! alignAddress a = Some l)) s.
Proof.
  intros Hs. unfold get_storelist. wp_step. unfold wp at 1; simpl.
  destruct (obj_to_wr (mdl s) !! alignAddress a) as [l|] eqn:El; [done|].
  wp_step. unfold wp; simpl.
  assert (wr_grows (obj_to_wr (mdl s)) (<[alignAddress a := []]> (obj_to_wr (mdl s)))) as Hg.
  { intros b (l & Hl & Hne). exists l. split; [|done]. rewrite lookup_insert_ne; [done|]. congruence. }
  split; [|split; [done|by rewrite lookup_insert_eq]].
  apply (wf_on_mdl M M s (fun m => with_wr (<[alignAddress a := []]> (obj_to_wr m)) m)); [done|exact I| |done|simpl; lia].
  destruct (wf_model _ _ Hs) as [H1 H2 H3 H4 H5]. constructor; try done; simpl. intros w l.
  destruct (decide (alignAddress a = w)) as [<-|]; [rewrite lookup_insert_eq|rewrite lookup_insert_ne by done; apply H3].
  intros [= <-]. apply list_ok_nil.
Qed.

Lemma set_storelist_wf M s a l : wf M s ->
  list_ok (thread_count s) (alignAddress a) (next_sequence_num (mdl s)) l -> l <> [] ->
  wp (set_storelist a l) (safe (fun _ s' => wf M s' /\ model_step s s' /\ based (obj_to_wr (mdl s')) a)) s.
Proof.
  intros Hs Hl Hne. unfold set_storelist, wp. simpl.
  assert (wr_grows (obj_to_wr (mdl s)) (<[alignAddress a := l]> (obj_to_wr (mdl s)))) as Hg.
  { intros b (k & Hk & Hkne). unfold based. destruct (decide (alignAddress a = alignAddress b)) as [->|].
    - exists l. by rewrite lookup_insert_eq.
    - exists k. by rewrite lookup_insert_ne. }
  split; [|split; [done|exists l; simpl; by rewrite lookup_insert_eq]].
  apply (wf_on_mdl M M s (fun m => with_wr (<[alignAddress a := l]> (obj_to_wr m)) m)); [done|exact I| |done|simpl; lia].
  destruct (wf_model _ _ Hs) as [H1 H2 H3 H4 H5]. constructor; try done; simpl. intros w k.
  destruct (decide (alignAddress a = w)) as [<-|]; [rewrite lookup_insert_eq|rewrite lookup_insert_ne by done; apply H3].
  by intros [= <-].
Qed.

(** Taking a sequence number uses one unit of the clock budget. *)
Lemma next_seq_wf M s : wf M s -> M < 2 ^ 32 - 1 ->
  wp get_next_sequence_num (safe (fun n s' => wf (M + 1) s' /\ model_step s s' /\
    obj_to_wr (mdl s') = obj_to_wr (mdl s) /\ n = next_sequence_num (mdl s) /\ next_sequence_num (mdl s') = n + 1)) s.
Proof.
  intros Hs HM. unfold get_next_sequence_num. wp_step. unfold wp at 1; simpl. wp_step. unfold wp; simpl.
  set (n := next_sequence_num (mdl s)) in *. destruct (wf_model _ _ Hs) as [H1 H2 H3 H4 H5].
  assert (u32 (n + 1) = n + 1) as Hn.
  { apply wrap_small. pose proof (wf_clock _ _ Hs) as Hc. unfold clock, buffered in Hc. fold n in Hc, H4. lia. }
  split; [|split; [by constructor; try done; intros ?|done]]. apply (wf_on_mdl M (M + 1) s (with_next_seq (u32 (n + 1)))); [done|exact I| |by intros ?|simpl; lia].
  constructor; try done; simpl; [|lia]. intros w l Hl. eapply list_ok_later; [|by apply H3]. lia.
Qed.

Lemma assign_cacheline_wf M s p a cl : wf M s -> 0 <= p < process_count (sched s) -> 0 <= range_begin cl ->
  wp (assign_cacheline p a cl) (safe (fun _ s' => wf M s' /\ model_step s s' /\
    obj_to_wr (mdl s') = obj_to_wr (mdl s))) s.
Proof.
  intros Hs Hp Hb. destruct (wf_model _ _ Hs) as [H1 H2 H3 H4 H5].
  destruct (assign_run p a cl s (H1 p Hp)) as (c & Hrun & Hw & Ht). unfold wp. rewrite Hrun. simpl.
  split; [|split; [by constructor; try done; intros ?|done]].
  apply (wf_on_mdl M M s (with_cl c)); [done|exact I| |by intros ?|simpl; lia].
  constructor; try done; simpl.
  - intros q Hq. by apply Ht, H1.
  - intros q b. rewrite Hw. case_decide; [done|apply H2].
Qed.

Lemma cacheline_wf M s p a : wf M s -> 0 <= p < process_count (sched s) ->
  wp (ModelCore.cacheline p a) (safe (fun cl s' => wf M s' /\ model_step s s' /\
    obj_to_wr (mdl s') = obj_to_wr (mdl s) /\ 0 <= range_begin cl)) s.
Proof.
  intros Hs Hp. destruct (wf_model _ _ Hs) as [H1 H2 H3 H4 H5].
  destruct (cacheline_run p a s (H1 p Hp)) as (c & Hrun & Hw & Ht). unfold wp. rewrite Hrun. simpl.
  split; [|split; [by constructor; try done; intros ?|split; [done|apply H2]]].
  apply (wf_on_mdl M M s (with_cl c)); [done|exact I| |by intros ?|simpl; lia].
  constructor; try done; simpl.
  - intros q Hq. by apply Ht, H1.
  - intros q b. rewrite Hw. apply H2.
Qed.

(** An entry that is [buffered_ok] stays so. *)
Lemma buffered_ok_step s s' a : model_step s s' ->
  buffered_ok (thread_count s) (obj_to_wr (mdl s)) a -> buffered_ok (thread_count s') (obj_to_wr (mdl s')) a.
Proof.
  intros [H1 H2 H3 H4] [K1 K2 K3 K4]. unfold thread_count in *. rewrite H1. constructor; try done.
  intros Hw. destruct (K4 Hw). split; [done|by apply H4].
Qed.

Lemma evict_store_model M s a : wf M s -> M < 2 ^ 32 - 1 -> is_write a = true ->
  buffered_ok (thread_count s) (obj_to_wr (mdl s)) a ->
  wp (Model_evict_store a) (safe (fun _ s' => wf (M + 1) s' /\ model_step s s')) s.
Proof.
  intros Hs HM Hwr Ha. unfold Model_evict_store. rewrite Hwr. wp_step. unfold wp at 1; simpl.
  eapply wp_safe_bind; [by apply get_storelist_wf|]. intros l s1 (Hs1 & St1 & Hn1 & Hl1).
  eapply wp_safe_bind; [by apply next_seq_wf|]. intros n s2 (Hs2 & St2 & Hw2 & -> & Hn2).
  pose proof (model_step_trans _ _ _ St1 St2) as St.
  destruct (buffered_ok_step _ _ _ St Ha) as [A1 A2 A3 A4]. destruct (A4 Hwr) as [Hacc (l' & Hl' & Hne)].
  rewrite Hw2, Hl1 in Hl'. injection Hl' as <-.
  rewrite <- Hw2 in Hl1. destruct (mw_lists _ _ _ (wf_model _ _ Hs2) _ _ Hl1) as [L1 L2 L3]. rewrite Hw2 in Hl1.
  pose proof (mw_clock _ _ _ (wf_model _ _ Hs1)) as Hclk.
  eapply wp_safe_bind; [apply (set_storelist_wf (M + 1) s2 (location a)); [done| |by destruct l]|].
  - constructor.
    + apply Forall_app. split; [done|]. constructor; [|constructor]. constructor; simpl; try done. lia.
    + apply newest_first_snoc; [done|]. simpl. destruct (mw_lists _ _ _ (wf_model _ _ Hs1) _ _ Hl1) as [K1 _ _].
      eapply Forall_impl; [exact K1|]. intros b [_ _ _ Hb _]. lia.
    + intros _. apply Exists_app. left. by apply L3.
  - intros _ s3 (Hs3 & St3 & _). unfold wp; simpl. split; [done|]. by eapply model_step_trans.
Qed.

Lemma model_step_count s s' : model_step s s' -> thread_count s' = thread_count s.
Proof. intros H. unfold thread_count. by rewrite (ms_sched _ _ H). Qed.

Lemma wf_thread {PAST : Past} M s i : wf M s -> 0 <= i < thread_count s ->
  exists t, lookupZ (threads (sched s)) i = Some t /\ 0 <= thr_pid t < process_count (sched s).
Proof.
  intros Hs Hi. destruct (lookupZ_is_Some (threads (sched s)) i) as [t Ht]; [exact Hi|].
  exists t. split; [done|]. by eapply (tw_pids _ (wf_threads _ _ Hs)).
Qed.

Lemma get_thread_wf {PAST : Past} M s i : wf M s -> 0 <= i < thread_count s ->
  wp (get_thread i) (safe (fun t s' => s' = s /\ lookupZ (threads (sched s)) i = Some t /\
    0 <= thr_pid t < process_count (sched s))) s.
Proof.
  intros Hs Hi. destruct (wf_thread M s i Hs Hi) as (t & Ht & Hp).
  unfold wp. by rewrite (get_thread_run _ _ _ Ht).
Qed.

Lemma get_process_id_wf {PAST : Past} M s a : wf M s -> 0 <= act_tid a < thread_count s ->
  wp (get_process_id a) (safe (fun p s' => s' = s /\ p = pid_of s a /\ 0 <= p < process_count (sched s))) s.
Proof.
  intros Hs Hi. destruct (wf_thread M s _ Hs Hi) as (t & Ht & Hp).
  unfold wp. rewrite get_process_id_run by eauto. unfold pid_of. by rewrite Ht.
Qed.

Lemma flush_windows_wf M pids a n : forall s m, wf M s -> Forall (fun p => 0 <= p < process_count (sched s)) pids ->
  wp (flush_windows pids a n m) (safe (fun _ s' => wf M s' /\ model_step s s')) s.
Proof.
  induction pids as [|p pids IH]; intros s m Hs Hp; simpl; [done|]. inversion Hp as [|? ? Hp1 Hp2]; subst.
  assert (forall s' m, wf M s' -> model_step s s' ->
    wp (flush_windows pids a n m) (safe (fun _ s2 => wf M s2 /\ model_step s s2)) s') as Hgo.
  { intros s' m' Hs' St'. eapply wp_mono; [|apply IH; [done|by rewrite (ms_sched _ _ St')]].
    intros [x s2|e s2]; simpl; [|done]. intros [? ?]. split; [done|by eapply model_step_trans]. }
  eapply wp_safe_bind; [by apply cacheline_wf|]. intros cl s1 (Hs1 & St1 & _ & Hb).
  destruct (Z.leb_spec n (range_begin cl)); [by apply Hgo|].
  eapply wp_safe_bind; [apply (assign_cacheline_wf M); [done|by rewrite (ms_sched _ _ St1)|simpl; lia]|].
  intros [] s2 (Hs2 & St2 & _). apply Hgo; [done|by eapply model_step_trans].
Qed.

Lemma ask_crash_wf M s : wf M s ->
  wp ask_crash (safe (fun _ s' => wf M s' /\ model_step s s' /\ crashes (mdl s') = crashes (mdl s) /\
    obj_to_wr (mdl s') = obj_to_wr (mdl s))) s.
Proof.
  intros Hs. apply ask_crash_wp. intros s' ->.
  assert (wf M (on_mdl (with_crash_points (u32 (crash_points (mdl s) + 1))) s)) as Hwf.
  { destruct (wf_model _ _ Hs). by apply (wf_on_mdl M M s); [done|exact I|constructor|intros ?|simpl; lia]. }
  split; (split; [done|]; split; [by constructor; try done; intros ?|done]).
Qed.

Lemma crash_map_wf M s c : wf M s -> (size c <= 1)%nat -> wf M (on_mdl (with_crashes c) s).
Proof.
  intros Hs Hc. destruct (wf_model _ _ Hs). by apply (wf_on_mdl M M s); [done|exact I|constructor|intros ?|simpl; lia].
Qed.

Lemma crash_allowed_none s : crash_allowed s = true -> crashes (mdl s) = ∅.
Proof.
  unfold crash_allowed, crash_count, MAX_CRASHES_PER_EXECUTION. intros H. bools.
  apply map_size_empty_inv. lia.
Qed.

Lemma emplace_crash_wf M s p : wf M s -> crashes (mdl s) = ∅ ->
  wp (emplace_crash p) (safe (fun _ s' => wf M s' /\ model_step s s' /\ obj_to_wr (mdl s') = obj_to_wr (mdl s))) s.
Proof.
  intros Hs Hc. unfold emplace_crash, wp. simpl.
  assert (on_mdl (fun m => match crashes m !! p with
            | Some _ => m | None => with_crashes (<[p := next_sequence_num m]> (crashes m)) m end) s =
          on_mdl (with_crashes {[p := next_sequence_num (mdl s)]}) s) as ->.
  { unfold on_mdl. by rewrite Hc. }
  split; [apply crash_map_wf; [done|]; rewrite map_size_singleton; lia|].
  split; [constructor; try done; by intros ?|simpl; by rewrite Hc].
Qed.

Lemma should_crash_wf M s : wf M s ->
  wp should_crash (safe (fun b s' => wf M s' /\ model_step s s' /\ (b = true -> crashes (mdl s') = ∅))) s.
Proof.
  intros Hs. unfold should_crash. wp_step. unfold wp at 1; simpl.
  destruct (crash_allowed s) eqn:Ha; [|done].
  eapply wp_mono; [|by apply ask_crash_wf]. intros [b s'|e s']; simpl; [|done].
  intros (H1 & H2 & H3 & _). do 2 (split; [done|]). intros _. rewrite H3. by apply crash_allowed_none.
Qed.

Lemma insert_crash_wf M s p : wf M s -> M <= bound ->
  wp (insert_crash p) (safe (fun _ s' => wf M s' /\ model_step s s')) s.
Proof.
  intros Hs HM. unfold insert_crash. eapply wp_safe_bind; [by apply should_crash_wf|].
  intros b s1 (Hs1 & St1 & Hb). destruct b; simpl; [|done].
  unfold self_pid. wp_step. unfold wp at 1; simpl. case_if.
  - bools. wp_step. unfold wp at 1; simpl. wp_step. unfold process_crash, self_pid. wp_step.
    unfold wp at 1; simpl. unfold wp; simpl. split; [done|]. intros _. apply (wf_weaken M); [done|].
    apply process_crash_wf. apply (crash_map_wf M s1); [done|].
    rewrite Hb by done. rewrite map_size_insert, lookup_empty, map_size_empty. simpl. lia.
  - eapply wp_mono; [|apply emplace_crash_wf; [done|by apply Hb]].
    intros [x s2|e s2]; simpl; [|done]. intros (H1 & H2 & _). split; [done|by eapply model_step_trans].
Qed.

Lemma crash_writer_wf M stores m : M <= bound -> forall s, wf M s ->
  Forall (fun a => 0 <= act_tid a < thread_count s) stores ->
  wp (crash_writer stores m) (safe (fun _ s' => wf M s' /\ model_step s s')) s.
Proof.
  intros HM. induction stores as [|w stores IH]; intros s Hs Hl; simpl; [done|]. inversion Hl as [|? ? Hw Hl']; subst.
  wp_step. unfold wp at 1; simpl. case_if; [done|].
  eapply wp_safe_bind; [by apply (get_process_id_wf M)|]. intros p s' (-> & -> & Hp).
  case_if; [by apply insert_crash_wf|by apply IH].
Qed.

Lemma evict_clflush_model M s a : wf M s -> M < 2 ^ 32 - 1 -> is_flush (act_type a) ->
  (if decide (act_type a = CACHE_CLFLUSH) then M + 1 else M) <= bound ->
  wp (Model_evict_clflush a) (safe (fun _ s' =>
    wf (if decide (act_type a = CACHE_CLFLUSH) then M + 1 else M) s' /\ model_step s s')) s.
Proof.
  intros Hs HM Ht HB. unfold Model_evict_clflush.
  assert (bool_decide (act_type a = CACHE_CLFLUSH) || bool_decide (act_type a = CACHE_CLFLUSHOPT) = true) as ->.
  { apply orb_true_iff. by destruct Ht as [->| ->]; [left|right]. }
  wp_step. unfold wp at 1; simpl. set (M' := if decide _ then M + 1 else M) in *.
  eapply (wp_safe_bind _ _ (fun _ s' => wf M' s' /\ model_step s s')).
  { unfold M'. destruct (decide (act_type a = CACHE_CLFLUSH)) as [E|E].
    - rewrite bool_decide_true by done. eapply wp_safe_bind; [by apply next_seq_wf|].
      intros n s1 (Hs1 & St1 & _). done.
    - rewrite bool_decide_false by done. done. }
  intros [a' n] s1 (Hs1 & St1). wp_step. unfold wp at 1; simpl.
  eapply wp_safe_bind; [apply flush_windows_wf; [done|]|].
  { rewrite Forall_forall. intros p Hp%elem_of_seqZ. lia. }
  intros m s2 (Hs2 & St2).
  eapply wp_safe_bind; [by apply get_storelist_wf|]. intros l s3 (Hs3 & St3 & _ & Hl3).
  eapply wp_safe_bind; [apply (crash_writer_wf M'); [done|done|]|].
  { destruct (mw_lists _ _ _ (wf_model _ _ Hs3) _ _ Hl3) as [L1 _ _]. apply List.Forall_rev.
    eapply Forall_impl; [exact L1|]. by intros b [? _]. }
  intros [] s4 (Hs4 & St4). unfold wp; simpl. split; [done|].
  do 3 (eapply model_step_trans; [eassumption|]). done.
Qed.

(** ** Loads *)

Lemma access_in_range a : access_ok a -> in_range a.
Proof. intros [[Hs _] [H0 H1]]. unfold in_range. lia. Qed.

Definition slots_ok (read : ModelAction) (rf : slots) (n : Z) : Prop :=
  lenZ rf = act_size read /\ n = count_none rf.

Lemma slots_ok_fill read w rf n : slots_ok read rf n ->
  slots_ok read (fill w (location read) rf) (count_none (fill w (location read) rf)).
Proof. intros [H1 H2]. split; [|done]. unfold lenZ in *. by rewrite length_fill. Qed.

(** A store of an old enough initial value supplies every byte that is missing. *)
Definition complete_on (read w : ModelAction) (n' : Z) : Prop :=
  base_store read w -> seq_num w = 0 -> n' = 0.

Lemma complete_fill read w rf n : slots_ok read rf n ->
  complete_on read w (count_none (fill w (location read) rf)).
Proof. intros [H1 H2] Hb _. by apply fill_base. Qed.

Section LoadStep.
Context (M : Z) (read store : ModelAction) (p : Z) (s : St).
Hypothesis Hs : wf M s.
Hypothesis Hread : access_ok read.
Hypothesis Hstore : access_ok store.
Hypothesis Hp : 0 <= p < process_count (sched s).

Definition step_ok (s' : St) (rf : slots) (n : Z) : Prop :=
  wf M s' /\ model_step s s' /\ obj_to_wr (mdl s') = obj_to_wr (mdl s) /\ slots_ok read rf n.

Lemma overlaps_eq rf n : slots_ok read rf n -> get_overlaps store read rf n =
  (bool_decide (fill store (location read) rf <> rf), fill store (location read) rf,
   count_none (fill store (location read) rf)).
Proof.
  intros [Hlen ->]. apply get_overlaps_fill; [by apply access_in_range..| |done].
  apply aligned_overlap_ok; [apply Hstore|apply Hread].
Qed.

Lemma running_store_safe ca rpid rf n : slots_ok read rf n ->
  wp (running_store read store ca rpid p rf n)
     (safe (fun r s' => step_ok s' r.1 r.2 /\ complete_on read store r.2)) s.
Proof.
  intros Hrf. unfold running_store. rewrite get_overlaps_save_old_eq, overlaps_eq by done.
  pose proof (slots_ok_fill _ store _ _ Hrf) as Hfill. pose proof (complete_fill read store rf n Hrf) as Hcf.
  assert (step_ok s (fill store (location read) rf) (count_none (fill store (location read) rf))) as H0 by done.
  case_bool_decide; [|done]. destruct (bool_decide (act_type store <> ATOMIC_INIT)) eqn:Ei; simpl; [|done].
  assert (forall n', complete_on read store n') as Hno.
  { intros n' [Hi _]. apply bool_decide_eq_true in Ei. done. }
  destruct (negb (p =? rpid)); [|done].
  eapply wp_safe_bind; [by apply cacheline_wf|]. intros cl s1 (Hs1 & St1 & Hw1 & Hb1).
  wp_step. unfold wp at 1; simpl.
  eapply (wp_safe_bind _ _ (fun b s' => wf M s' /\ model_step s s' /\ obj_to_wr (mdl s') = obj_to_wr (mdl s) /\
    (b = true -> crashes (mdl s') = ∅))).
  { case_if; [|done]. bools. eapply wp_mono; [|by apply ask_crash_wf].
    intros [b s2|e s2]; simpl; [|done]. intros (K1 & K2 & K3 & K4). split; [done|].
    split; [by eapply model_step_trans|]. split; [congruence|]. intros _. rewrite K3. by apply crash_allowed_none. }
  intros b s2 (Hs2 & St2 & Hw2 & Hc2). destruct b.
  - eapply wp_safe_bind; [apply emplace_crash_wf; [done|by apply Hc2]|].
    intros [] s3 (Hs3 & St3 & Hw3). unfold wp; simpl. split; [|done]. split; [done|].
    split; [by eapply model_step_trans|]. split; [congruence|done].
  - eapply (wp_safe_bind _ _ (fun _ s' => wf M s' /\ model_step s s' /\ obj_to_wr (mdl s') = obj_to_wr (mdl s))).
    { case_if; [|done]. bools. eapply wp_mono; [|apply (assign_cacheline_wf M);
        [done|by rewrite (ms_sched _ _ St2)|simpl; lia]].
      intros [x s3|e s3]; simpl; [|done]. intros (K1 & K2 & K3). split; [done|].
      split; [by eapply model_step_trans|congruence]. }
    intros [] s3 (Hs3 & St3 & Hw3). unfold wp; simpl. done.
Qed.

Lemma crashed_store_safe ca older rf n : slots_ok read rf n -> 0 <= seq_num store ->
  wp (crashed_store read store older ca p rf n)
     (safe (fun r s' => wf M s' /\ model_step s s' /\ obj_to_wr (mdl s') = obj_to_wr (mdl s) /\
        match r with
        | Some (rf', n') => slots_ok read rf' n' /\ complete_on read store n'
        | None => 0 < seq_num store
        end)) s.
Proof.
  intros Hrf Hseq. unfold crashed_store. eapply wp_safe_bind; [by apply cacheline_wf|].
  intros cl s1 (Hs1 & St1 & Hw1 & Hb1). rewrite get_overlaps_save_old_eq, overlaps_eq by done.
  pose proof (slots_ok_fill _ store _ _ Hrf) as Hfill. pose proof (complete_fill read store rf n Hrf) as Hcf.
  destruct (Z.leb_spec (seq_num store) (range_begin cl)); [done|].
  assert (forall n', complete_on read store n') as Hno by (intros n' _ Hz; lia).
  case_if; [|done]. case_if; [unfold wp; simpl; do 3 (split; [done|]); lia|].
  case_bool_decide; [|done]. wp_step. unfold wp at 1; simpl.
  eapply (wp_safe_bind _ _ (fun _ s' => s' = s1)).
  { case_if; [|done]. wp_step. unfold wp; simpl. intros c _. done. }
  intros b s2 ->.
  destruct b; (eapply wp_safe_bind;
    [apply (assign_cacheline_wf M); [done|by rewrite (ms_sched _ _ St1)|simpl; lia]|]);
    intros [] s3 (Hs3 & St3 & Hw3); unfold wp; simpl;
    (split; [done|]; split; [by eapply model_step_trans|]; split; [congruence|done]).
Qed.
End LoadStep.

(** What a load needs of a stored entry. *)
Definition readable (n : Z) (a : ModelAction) : Prop :=
  0 <= act_tid a < n /\ access_ok a /\ 0 <= seq_num a.

Lemma read_step_safe M read store older ca rpid rf n s :
  wf M s -> access_ok read -> readable (thread_count s) store ->
  slots_ok read rf n ->
  wp (read_step read store older ca rpid rf n)
     (safe (fun r s' => wf M s' /\ model_step s s' /\ obj_to_wr (mdl s') = obj_to_wr (mdl s) /\
        match r with
        | Some (rf', n') => slots_ok read rf' n' /\ complete_on read store n'
        | None => 0 < seq_num store
        end)) s.
Proof.
  intros Hs Hr (S1 & S2 & S4) Hrf. unfold read_step.
  eapply wp_safe_bind; [by apply (get_process_id_wf M)|]. intros p s' (-> & _ & Hp).
  wp_step. unfold wp at 1; simpl.
  eapply (wp_safe_bind _ _ (fun r s' => step_ok M read s s' r.1 r.2 /\
    if is_crashed s p then s' = s else complete_on read store r.2)).
  { destruct (is_crashed s p) eqn:Hc; [done|]. eapply wp_mono; [|by apply running_store_safe].
    intros [r s'|e s']; simpl; [|done]. intros [? ?]. done. }
  intros [rf1 n1] s1 ((Hs1 & St1 & Hw1 & Hrf1) & Hc1). simpl in *. wp_step. unfold wp at 1; simpl.
  destruct (is_crashed s1 p) eqn:Hcr.
  - eapply wp_mono; [|apply (crashed_store_safe M read store p s1); try done; by rewrite (ms_sched _ _ St1)].
    intros [r s2|e s2]; simpl; [|done]. intros (K1 & K2 & K3 & K4). split; [done|].
    split; [by eapply model_step_trans|]. split; [congruence|done].
  - unfold wp; simpl. split; [done|]. split; [done|]. split; [done|]. split; [done|].
    destruct (is_crashed s p) eqn:E; [congruence|done].
Qed.

Lemma read_loop_safe M read ca rpid rstores : forall rf n s,
  wf M s -> access_ok read ->
  Forall (readable (thread_count s)) rstores ->
  Exists (fun w => base_store read w /\ seq_num w = 0) rstores -> slots_ok read rf n ->
  wp (read_loop rstores read ca rpid rf n) (safe (fun _ s' => wf M s' /\ model_step s s')) s.
Proof.
  induction rstores as [|w older IH]; intros rf n s Hs Hr Hl Hb Hrf; [by inversion Hb|].
  apply Forall_cons in Hl as [Hw Hl]. simpl.
  eapply wp_safe_bind; [by apply (read_step_safe M)|]. intros r s1 (Hs1 & St1 & Hw1 & Hr1).
  assert (forall rf n, slots_ok read rf n -> Exists (fun w => base_store read w /\ seq_num w = 0) older ->
    wp (read_loop older read ca rpid rf n) (safe (fun _ s' => wf M s' /\ model_step s s')) s1) as Hgo.
  { intros rf' n' Hrf' Hb'. eapply wp_mono; [|apply IH; try done].
    - intros [v s2|e s2]; simpl; [|done]. intros [? ?]. split; [done|by eapply model_step_trans].
    - by rewrite (model_step_count _ _ St1). }
  destruct r as [[rf1 n1]|].
  - destruct Hr1 as [Hrf1 Hc]. destruct (Z.eqb_spec n1 0); [done|]. apply Hgo; [done|].
    apply Exists_cons in Hb as [[Hb1 Hb2]|]; [|done]. by destruct (Hc Hb1 Hb2).
  - apply Hgo; [done|]. apply Exists_cons in Hb as [[_ Hz]|]; [lia|done].
Qed.

Lemma bypass_loop_slots read rbuf : forall rf n, access_ok read ->
  Forall (fun w => act_type w = NONATOMIC_STORE -> access_ok w) rbuf -> slots_ok read rf n ->
  let '(_, rf', n') := bypass_loop rbuf read rf n in slots_ok read rf' n'.
Proof.
  induction rbuf as [|w rbuf IH]; intros rf n Hr Hb Hrf; simpl; [done|].
  inversion Hb as [|? ? Hw Hb']; subst. case_bool_decide as Ht; [|by apply IH].
  rewrite overlaps_eq by (try done; by apply Hw). pose proof (slots_ok_fill _ w _ _ Hrf) as Hf.
  case_if; [done|by apply IH].
Qed.

Lemma word_base_covers w read : alignAddress (location read) = w -> access_ok read ->
  forall a, word_base w a -> base_store read a.
Proof.
  intros Hw [[Hsz Hal] _] a (Ht & Hl & H8). split; [done|]. intros b Hb. unfold covers. rewrite Hl, H8, <- Hw.
  rewrite alignAddress_eq. apply andb_true_intro. rewrite Z.leb_le, Z.ltb_lt.
  assert (location read mod 8 + act_size read <= 8).
  { destruct Hsz as [E|[E|[E|E]]]; rewrite E in *; Z.div_mod_to_equations; lia. }
  pose proof (Z.mod_pos_bound (location read) 8). lia.
Qed.

Lemma build_read_from_model M s read : wf M s -> access_ok read -> 0 <= act_tid read < thread_count s ->
  based (obj_to_wr (mdl s)) (location read) ->
  wp (build_read_from read) (safe (fun _ s' => wf M s' /\ model_step s s')) s.
Proof.
  intros Hs Hr Htid (l & Hl & Hne). destruct (wf_thread M s _ Hs Htid) as (t & Ht & Hp).
  assert (slots_ok read (replicate (Z.to_nat (act_size read)) None) (act_size read)) as Hrf.
  { destruct Hr as [[Hsz _] _]. split; [unfold lenZ; rewrite length_replicate|rewrite count_none_replicate]; lia. }
  assert (Forall (fun w => act_type w = NONATOMIC_STORE -> access_ok w) (rev (storeBuffer (thread_memory t)))) as Hbuf.
  { apply List.Forall_rev. destruct (wf_memory _ _ Hs _ _ Ht) as [Hb _]. eapply Forall_impl; [exact Hb|].
    intros a [_ _ _ Ha] Hn. apply Ha. unfold is_write. by rewrite Hn. }
  pose proof (bypass_loop_slots read _ _ _ Hr Hbuf Hrf) as Hby.
  unfold build_read_from, local_bypassing, wp. erewrite bind_val by (by apply get_thread_run). cbn beta.
  destruct (bypass_loop _ _ _ _) as [[[] rf] n]; [done|].
  destruct (mw_lists _ _ _ (wf_model _ _ Hs) _ _ Hl) as [L1 L2 L3].
  unfold get_storelist. erewrite bind_val; [|run_step; rewrite Hl; done]. cbn beta.
  rewrite bool_decide_true by done. run_step. unfold get_process_id.
  erewrite bind_val; [|erewrite bind_val by (by apply get_thread_run); reflexivity].
  eapply (read_loop_safe M); [done|done| | |done].
  - apply List.Forall_rev. eapply Forall_impl; [exact L1|]. intros a [? ? ? ? ?]. split; [done|]. split; [done|lia].
  - specialize (L3 Hne). rewrite Exists_exists in L3 |- *. destruct L3 as (a & Ha & Hb). exists a. split.
    + apply list_elem_of_In. rewrite <- in_rev. by apply list_elem_of_In.
    + split; [by eapply word_base_covers|]. rewrite Forall_forall in L1. apply (st_init _ _ _ _ (L1 a Ha)), Hb.
Qed.

Lemma ensureInitialValue_model M s a : wf M s -> access_ok a ->
  wp (ensureInitialValue a) (safe (fun _ s' => wf M s' /\ model_step s s' /\ based (obj_to_wr (mdl s')) (location a))) s.
Proof.
  intros Hs Ha. unfold ensureInitialValue. eapply wp_safe_bind; [by apply get_storelist_wf|].
  intros l s1 (Hs1 & St1 & _ & Hl). rewrite alignAddress_idemp in Hl. unfold self_tid. wp_step. unfold wp at 1; simpl.
  wp_step. unfold wp at 1; simpl. destruct l as [|w l].
  2:{ unfold wp; simpl. split; [done|]. split; [done|]. by exists (w :: l). }
  eapply wp_mono; [|apply (set_storelist_wf M); [done| |done]].
  - intros [x s2|e s2]; simpl; [|done]. intros (K1 & K2 & (l & K3 & K4)). split; [done|].
    split; [by eapply model_step_trans|]. exists l. by rewrite alignAddress_idemp in K3.
  - rewrite alignAddress_idemp. pose proof (mw_clock _ _ _ (wf_model _ _ Hs1)).
    destruct (wf_self _ _ Hs1) as (t & Ht & _). apply lookupZ_Some in Ht. constructor.
    + constructor; [|constructor]. destruct Ha as [_ Hr].
      pose proof (alignAddress_eq (location a)) as He. pose proof (Z.mod_pos_bound (location a) 8 ltac:(lia)) as Hm.
      constructor; simpl; [unfold thread_count, lenZ; lia| |apply alignAddress_idemp|lia|done].
      rewrite He. split; [split; [by right; right; right|]|simpl; Z.div_mod_to_equations; lia].
      simpl. Z.div_mod_to_equations; lia.
    + simpl. repeat constructor.
    + intros _. left. done.
Qed.
End ModelSafe.

(** ** The operations on the memory

    A thread reaches the memory by four operations.  The past learns of each of
    them, also when its process crashes in it. *)
Inductive mem_op := OLoad (read : ModelAction) | OStore (a : ModelAction) | OFlush (a : ModelAction) | OInit (a : ModelAction).
#[export] Instance mem_op_eq_dec : EqDecision mem_op.
Proof. solve_decision. Defined.
(** What the operation returns: the value of a load. *)
Definition run_op (op : mem_op) : M St (option Z) :=
  match op with
  | OLoad r => let! v := build_read_from r in ret (Some v)
  | OStore a => let! _ := Model_evict_store a in ret None
  | OFlush a => let! _ := Model_evict_clflush a in ret None
  | OInit a => ensureInitialValue a ;;; ret None
  end.

Definition op_ok (s : St) (op : mem_op) : Prop :=
  match op with
  | OLoad r => access_ok r /\ 0 <= act_tid r < thread_count s /\ based (obj_to_wr (mdl s)) (location r)
  | OStore a => is_write a = true /\ buffered_ok (thread_count s) (obj_to_wr (mdl s)) a
  | OFlush a => is_flush (act_type a)
  | OInit a => access_ok a
  end.
Definition op_ready (s : St) (op : mem_op) : Prop :=
  (exists M, wf (PAST := no_past) M s /\ M < 2 ^ 32 - 1) /\ op_ok s op.

(** The state after an operation that returned or in which the process crashed. *)
Definition op_end {A} (r : result St A) : option St :=
  match r with
  | Val _ s => Some s
  | Stop (Exit c) s => if c =? EXIT_SUCCESS then Some s else None
  | Stop _ _ => None
  end.

Class PastOps {PAST : Past} := past_op : forall s op r s', op_ready s op -> r ∈ leaves (run_op op s) ->
  op_end r = Some s' -> past s -> past s'.
#[export] Instance no_past_ops : PastOps (PAST := no_past).
Proof. done. Qed.

Section Operations.
Context {PAST : Past} {OPS : PastOps} {B0 : Bound}.

(** From the model to the invariant with its past. *)
Lemma op_past {A} (m : M St A) (f : A -> option Z) op s (Q : A -> St -> Prop) :
  op_ready s op -> past s -> run_op op = (let! a := m in ret (f a)) ->
  wp m (safe (PAST := no_past) Q) s -> wp m (safe (fun a s' => Q a s' /\ past s')) s.
Proof.
  intros Hop Hp Hrun Hm. assert (wp (run_op op) (fun r => forall s', op_end r = Some s' -> past s') s) as Hpast.
  { apply all_leaves_elem, Forall_forall. intros r Hr s' He. by eapply past_op. }
  rewrite Hrun, wp_bind in Hpast. eapply wp_mono; [|exact (wp_and _ _ _ _ Hm Hpast)].
  intros [a s'|e s'] [H1 H2]; simpl in *; [split; [done|]; by apply (H2 s')|].
  destruct H1 as [Hb Hw]. split; [done|]. intros ->. apply (wf_recall (P := no_past)); [by apply Hw|by apply H2].
Qed.

Lemma ready_wf M s op : wf M s -> M < 2 ^ 32 - 1 -> op_ok s op -> op_ready s op.
Proof. intros Hs HM Hop. split; [|done]. exists M. split; [by eapply wf_forget|done]. Qed.

(** The invariant with its past, from the one of the model. *)
Lemma op_wf {A} (m : M St A) (f : A -> option Z) op M M' s (Q : A -> St -> Prop) :
  wf M s -> M < 2 ^ 32 - 1 -> op_ok s op -> run_op op = (let! a := m in ret (f a)) ->
  wp m (safe (PAST := no_past) (fun a s' => wf (PAST := no_past) M' s' /\ Q a s')) s ->
  wp m (safe (fun a s' => wf M' s' /\ Q a s')) s.
Proof.
  intros Hs HM Hop Hrun Hm. eapply wp_mono; [|eapply (op_past m f op s); [by eapply ready_wf|apply Hs|done|exact Hm]].
  intros [a s'|e s']; [|done]. intros [[Hw HQ] Hp]. split; [|done]. by apply (wf_recall (P := no_past)).
Qed.

Lemma evict_store_wf M s a : wf M s -> M < 2 ^ 32 - 1 -> is_write a = true ->
  buffered_ok (thread_count s) (obj_to_wr (mdl s)) a ->
  wp (Model_evict_store a) (safe (fun _ s' => wf (M + 1) s' /\ model_step s s')) s.
Proof.
  intros Hs HM Hwr Ha. apply (op_wf _ (fun _ => None) (OStore a) M); [done..|].
  apply evict_store_model; [by eapply wf_forget|done..].
Qed.

Lemma evict_clflush_wf M s a : wf M s -> M < 2 ^ 32 - 1 -> is_flush (act_type a) ->
  (if decide (act_type a = CACHE_CLFLUSH) then M + 1 else M) <= bound ->
  wp (Model_evict_clflush a) (safe (fun _ s' =>
    wf (if decide (act_type a = CACHE_CLFLUSH) then M + 1 else M) s' /\ model_step s s')) s.
Proof.
  intros Hs HM Ht HB. apply (op_wf _ (fun _ => None) (OFlush a) M); [done..|].
  apply evict_clflush_model; [by eapply wf_forget|done..].
Qed.

Lemma build_read_from_safe M s read : wf M s -> M < 2 ^ 32 - 1 -> access_ok read -> 0 <= act_tid read < thread_count s ->
  based (obj_to_wr (mdl s)) (location read) ->
  wp (build_read_from read) (safe (fun _ s' => wf M s' /\ model_step s s')) s.
Proof.
  intros Hs HM Hr Htid Hb. apply (op_wf _ Some (OLoad read) M); [done..|].
  apply build_read_from_model; [by eapply wf_forget|done..].
Qed.

Lemma ensureInitialValue_wf M s a : wf M s -> M < 2 ^ 32 - 1 -> access_ok a ->
  wp (ensureInitialValue a) (safe (fun _ s' => wf M s' /\ model_step s s' /\ based (obj_to_wr (mdl s')) (location a))) s.
Proof.
  intros Hs HM Ha. apply (op_wf _ (fun _ => None) (OInit a) M); [done..|].
  apply ensureInitialValue_model; [by eapply wf_forget|done..].
Qed.
End Operations.
