(* ===== verification/Buffers.v ===== *)
(** * Buffers: the invariant under evictions

    The steps of the thread table, and the operations on the store and flush
    buffers of a thread over the model ([thread_evictor]): they keep the
    invariant of [Wf], they end, and no assertion fails. *)
From Stdlib Require Import Sorted.
From S2P Require Import Prelude Choice Action ReadFrom CacheLine ThreadMemory State Scheduler ModelCore Executor ReadSound Wf ModelSafe.

(** ** The buffers *)

Definition bare (t : Thread) : Thread := set_thread_memory ThreadMemory_new t.

(** A step that changes the model and the buffers only. *)
Record mem_step (s s' : St) : Prop := mkMemStep {
  me_sched : exists l, sched s' = with_threads l (sched s) /\ bare <$> l = bare <$> threads (sched s);
  me_proc : proc s' = proc s;
  me_mutexes : mutexes s' = mutexes s;
  me_grows : wr_grows (obj_to_wr (mdl s)) (obj_to_wr (mdl s'))
}.

Lemma model_mem_step s s' : model_step s s' -> mem_step s s'.
Proof.
  intros [H1 H2 H3 H4]. constructor; try done. exists (threads (sched s)). split; [|done]. rewrite H1. by destruct (sched s).
Qed.
Lemma mem_step_refl s : mem_step s s.
Proof. apply model_mem_step. done. Qed.
Lemma mem_step_trans s1 s2 s3 : mem_step s1 s2 -> mem_step s2 s3 -> mem_step s1 s3.
Proof.
  intros [(l1 & A1 & A1') A2 A3 A4] [(l2 & B1 & B1') B2 B3 B4]. constructor; try congruence.
  - exists l2. rewrite B1, A1 in *. simpl in *. split; [done|congruence].
  - intros a Ha. by apply B4, A4.
Qed.
#[export] Hint Resolve mem_step_refl model_mem_step : core.

Lemma bare_lookup l l' i t : bare <$> l' = bare <$> l -> lookupZ l i = Some t ->
  exists t', lookupZ l' i = Some t' /\ bare t' = bare t.
Proof.
  intros He. unfold lookupZ. case_if; [done|]. intros Ht.
  assert ((bare <$> l') !! Z.to_nat i = Some (bare t)) as Hl by (by rewrite He, list_lookup_fmap, Ht).
  rewrite list_lookup_fmap in Hl. destruct (l' !! Z.to_nat i) as [t'|]; [|done]. exists t'. split; [done|]. simpl in Hl. congruence.
Qed.

Lemma mem_step_thread s s' i t : mem_step s s' -> lookupZ (threads (sched s)) i = Some t ->
  exists t', lookupZ (threads (sched s')) i = Some t' /\ bare t' = bare t.
Proof. intros [(l & Hl & He) _ _ _] Ht. rewrite Hl. simpl. by eapply bare_lookup. Qed.

Lemma bare_table_step l l' : bare <$> l' = bare <$> l -> table_step l l'.
Proof.
  intros He. constructor.
  - apply (f_equal length) in He. by rewrite !length_fmap in He.
  - intros i t' Ht'. destruct (bare_lookup l' l i t') as (t & Ht & Hb); [done|done|]. exists t. split; [done|].
    pose proof (f_equal thr_pid Hb) as H1. pose proof (f_equal owned_mutexes Hb) as H2.
    pose proof (f_equal thr_state Hb) as H3. simpl in *. by rewrite H1, H2, H3.
Qed.

Lemma mem_step_count s s' : mem_step s s' -> thread_count s' = thread_count s.
Proof.
  intros [(l & Hl & He) _ _ _]. unfold thread_count, lenZ. rewrite Hl. simpl.
  apply (f_equal length) in He. rewrite !length_fmap in He. by rewrite He.
Qed.

Lemma buffered_update l i f t : lookupZ l i = Some t ->
  buffered (update_at i f l) = buffered l - Z.of_nat (length (storeBuffer (thread_memory t)))
                               + Z.of_nat (length (storeBuffer (thread_memory (f t)))).
Proof.
  unfold lookupZ, update_at, buffered. case_if; [done|]. generalize (Z.to_nat i) as n. clear.
  induction l as [|u l IH]; intros n; [done|]. destruct n as [|n]; simpl.
  - intros [= ->]. lia.
  - intros Ht. specialize (IH n Ht). simpl in IH. unfold fmap, alter in IH. rewrite !Nat2Z.inj_add. lia.
Qed.

Lemma put_memory_wf {PAST : Past} M M' s i t tm : wf M s -> lookupZ (threads (sched s)) i = Some t ->
  memory_wf (thread_count s) (obj_to_wr (mdl s)) tm ->
  Z.of_nat (length (storeBuffer tm)) <= Z.of_nat (length (storeBuffer (thread_memory t))) + (M' - M) ->
  wf M' (put_thread_memory i tm s) /\ mem_step s (put_thread_memory i tm s).
Proof.
  intros Hs Ht Htm Hlen.
  assert (bare <$> update_at i (set_thread_memory tm) (threads (sched s)) = bare <$> threads (sched s)) as Hb.
  { apply list_eq. intros j. rewrite !list_lookup_fmap. pose proof (lookupZ_update_at i (Z.of_nat j) (set_thread_memory tm) (threads (sched s))) as Hu.
    unfold lookupZ in Hu. rewrite (proj2 (Z.ltb_ge (Z.of_nat j) 0)), Nat2Z.id in Hu by lia. rewrite Hu.
    case_decide; [|done]. by destruct (threads (sched s) !! j) as [[]|]. }
  split.
  - apply (wf_on_threads M M' s); [done|done| | | |].
    + unfold sched_ok. simpl. unfold lenZ. rewrite length_update_at. apply (tw_active _ (wf_threads _ _ Hs)).
    + simpl. by apply bare_table_step.
    + simpl. intros j u. rewrite lookupZ_update_at. case_decide as Hij; [|apply (wf_memory _ _ Hs)].
      subst. rewrite Ht. intros [= <-]. done.
    + simpl. rewrite (buffered_update _ _ _ _ Ht). simpl. lia.
  - constructor; try done; [|by intros ?]. by eexists.
Qed.

Section Buffers.
Context {PAST : Past} {OPS : PastOps} {B0 : Bound} (i : Z).
Let E := thread_evictor i.
Definition sb (s : St) : list ModelAction := storeBuffer (get_thread_memory i s).
Definition fb (s : St) : list ModelAction := flushBuffer (get_thread_memory i s).

(** Thread [i] exists and the state is well formed. *)
Definition wf_at (M : Z) (s : St) : Prop := wf M s /\ 0 <= i < thread_count s.

Lemma wf_at_memory M s : wf_at M s ->
  exists t, lookupZ (threads (sched s)) i = Some t /\ get_thread_memory i s = thread_memory t /\
    memory_wf (thread_count s) (obj_to_wr (mdl s)) (get_thread_memory i s).
Proof.
  intros [Hs Hi]. destruct (wf_thread M s i Hs Hi) as (t & Ht & _). exists t. unfold get_thread_memory. rewrite Ht.
  split; [done|]. split; [done|]. by eapply (wf_memory _ _ Hs).
Qed.

Lemma wf_at_mem_step M s s' : mem_step s s' -> 0 <= i < thread_count s -> wf M s' -> wf_at M s'.
Proof. intros St Hi Hs. split; [done|]. by rewrite (mem_step_count _ _ St). Qed.

Lemma upd_tm_safe M M' s f : wf_at M s ->
  let tm := get_thread_memory i s in
  memory_wf (thread_count s) (obj_to_wr (mdl s)) (f tm) ->
  Z.of_nat (length (storeBuffer (f tm))) <= Z.of_nat (length (storeBuffer tm)) + (M' - M) ->
  wp (upd_tm (H := E) f) (safe (fun _ s' => wf_at M' s' /\ mem_step s s' /\ get_thread_memory i s' = f tm /\
    mdl s' = mdl s)) s.
Proof.
  intros Hs. cbn zeta. intros Hf Hlen. destruct (wf_at_memory _ _ Hs) as (t & Ht & Hg & _). destruct Hs as [Hs Hi].
  unfold upd_tm, wp. simpl. rewrite Hg in *.
  destruct (put_memory_wf M M' s i t (f (thread_memory t)) Hs Ht Hf Hlen) as [Hw St].
  split; [by eapply wf_at_mem_step|]. split; [done|]. split; [|done].
  unfold get_thread_memory, put_thread_memory. simpl. rewrite lookupZ_update_at, decide_True by done. by rewrite Ht.
Qed.

Lemma sb_model_step s s' : model_step s s' -> get_thread_memory i s' = get_thread_memory i s.
Proof. intros St. unfold get_thread_memory. by rewrite (ms_sched _ _ St). Qed.

Lemma empty_flush_loop_wf M n : M <= bound -> forall s, wf_at M s -> M < 2 ^ 32 - 1 -> (length (fb s) <= n)%nat ->
  wp (empty_flush_loop (H := E) n) (safe (fun _ s' => wf_at M s' /\ mem_step s s' /\ sb s' = sb s /\ fb s' = [])) s.
Proof.
  intros HB. induction n as [|n IH]; intros s Hs HM Hn; cbn [empty_flush_loop]; wp_step; unfold wp at 1; simpl; fold (fb s).
  { destruct (fb s) eqn:Ef; [|simpl in Hn; lia]. done. }
  destruct (fb s) as [|a rest] eqn:Ef; [done|]. destruct (wf_at_memory _ _ Hs) as (t & Ht & Hg & Hsb & Hfb).
  unfold fb in Ef. rewrite Ef in Hfb. inversion Hfb as [|? ? Ha Hrest]; subst.
  eapply wp_safe_bind; [apply (upd_tm_safe M M); [done|by split|simpl; lia]|].
  intros [] s1 (Hs1 & St1 & Hg1 & Hm1). wp_step. rewrite Ha. unfold wp at 1; simpl.
  eapply wp_safe_bind; [apply (evict_clflush_wf M); [apply Hs1|done|by right|by rewrite Ha]|].
  rewrite Ha. simpl. intros a' s2 (Hs2 & St2).
  assert (wf_at M s2) as Hs2' by (eapply wf_at_mem_step; [by apply model_mem_step|apply Hs1|done]).
  pose proof (sb_model_step _ _ St2) as Hg2.
  eapply wp_mono; [|apply (IH s2); [done|done|]].
  - intros [x s3|e s3]; simpl; [|done]. intros (K1 & K2 & K3 & K4). split; [done|].
    split; [|split; [|done]]; [eapply mem_step_trans; [done|]; eapply mem_step_trans; [by apply model_mem_step|done]|].
    rewrite K3. unfold sb. by rewrite Hg2, Hg1.
  - unfold fb. rewrite Hg2, Hg1. simpl. simpl in Hn. lia.
Qed.

Lemma empty_flush_wf M s : wf_at M s -> M < 2 ^ 32 - 1 -> M <= bound ->
  wp (empty_flush_buffer (H := E)) (safe (fun _ s' => wf_at M s' /\ mem_step s s' /\ sb s' = sb s /\ fb s' = [])) s.
Proof. intros Hs HM HB. unfold empty_flush_buffer. wp_step. unfold wp at 1; simpl. by apply empty_flush_loop_wf. Qed.

(** Evicting an entry and recording it as the last write or flush of its line. *)
Lemma evict_note_wf (m : M St ModelAction) M M' s : wf_at M s ->
  wp m (safe (fun _ s' => wf M' s' /\ model_step s s')) s ->
  wp (let! action := m in
      upd_tm (H := E) (note_wr_clf (getCacheID (location action)) (seq_num action)))
     (safe (fun _ s' => wf_at M' s' /\ mem_step s s' /\ sb s' = sb s)) s.
Proof.
  intros Hs Hm. eapply wp_safe_bind; [exact Hm|]. intros a s1 (Hs1 & St1).
  assert (wf_at M' s1) as Hs1' by (eapply wf_at_mem_step; [by apply model_mem_step|apply Hs|done]).
  destruct (wf_at_memory _ _ Hs1') as (t & _ & _ & Hmem).
  eapply wp_mono; [|apply (upd_tm_safe M' M'); [done|exact Hmem|simpl; lia]].
  intros [x s2|e s2]; simpl; [|done]. intros (K1 & K2 & K3 & _). split; [done|].
  split; [eapply mem_step_trans; [by apply model_mem_step|done]|].
  unfold sb. rewrite K3. simpl. by rewrite (sb_model_step _ _ St1).
Qed.

Lemma pop_wf M s : wf_at M s -> M < 2 ^ 32 -> M <= bound ->
  wp (pop_from_store_buffer (H := E))
     (safe (fun _ s' => wf_at M s' /\ mem_step s s' /\ sb s' = tail (sb s))) s.
Proof.
  intros Hs HM HB. unfold pop_from_store_buffer. wp_step. unfold wp at 1; simpl. fold (sb s).
  destruct (sb s) as [|a rest] eqn:Es; [done|].
  destruct (wf_at_memory _ _ Hs) as (t & Ht & Hg & Hsb & Hfb).
  unfold sb in Es. rewrite Es in Hsb. inversion Hsb as [|? ? Ha Hrest]; subst.
  eapply wp_safe_bind; [apply (upd_tm_safe M (M - 1)); [done|by split|rewrite Es; simpl; lia]|].
  intros [] s1 (Hs1 & St1 & Hg1 & Hm1).
  assert (sb s1 = rest) as Hr1 by (unfold sb; by rewrite Hg1).
  assert (buffered_ok (thread_count s1) (obj_to_wr (mdl s1)) a) as Ha1
    by (by rewrite (mem_step_count _ _ St1), Hm1).
  eapply (wp_safe_bind _ _ (fun _ s' => wf_at M s' /\ mem_step s1 s' /\ sb s' = sb s1)).
  2:{ intros [] s2 (Hs2 & St2 & Hr2). unfold wp; simpl. split; [done|]. split; [by eapply mem_step_trans|congruence]. }
  pose proof (bf_type _ _ _ Ha) as Hty. pose proof (bf_init _ _ _ Ha) as Hni.
  assert (forall m, wp m (safe (fun _ s' => wf (M - 1 + 1) s' /\ model_step s1 s')) s1 ->
    wp (let! action := m in upd_tm (H := E) (note_wr_clf (getCacheID (location action)) (seq_num action)))
      (safe (fun _ s' => wf_at M s' /\ mem_step s1 s' /\ sb s' = sb s1)) s1) as Hev.
  { intros m Hm. pose proof (evict_note_wf m (M - 1) (M - 1 + 1) s1 Hs1 Hm) as He.
    by replace (M - 1 + 1) with M in He by lia. }
  destruct (act_type a) eqn:Et; try done.
  1-3: by apply Hev, evict_store_wf; [apply Hs1|lia|unfold is_write; rewrite Et|].
  - eapply wp_safe_bind; [apply (empty_flush_wf (M - 1)); [done|lia|lia]|]. intros [] s2 (Hs2 & St2 & Hr2 & _).
    destruct (wf_at_memory _ _ Hs2) as (t2 & _ & _ & Hmem2).
    eapply wp_mono; [|apply (upd_tm_safe (M - 1) M); [done|exact Hmem2|simpl; lia]].
    intros [x s3|e s3]; simpl; [|done]. intros (K1 & K2 & K3 & _). split; [done|].
    split; [by eapply mem_step_trans|]. rewrite <- Hr2. unfold sb. by rewrite K3.
  - apply Hev. eapply wp_mono; [|apply (evict_clflush_wf (M - 1)); [apply Hs1|lia|by left|rewrite Et; simpl; lia]].
    rewrite Et. done.
  - destruct (wf_at_memory _ _ Hs1) as (t1 & _ & _ & [Hsb1 Hfb1]).
    eapply wp_mono; [|apply (upd_tm_safe (M - 1) M); [done| |simpl; lia]].
    + intros [x s3|e s3]; simpl; [|done]. intros (K1 & K2 & K3 & _). split; [done|]. split; [done|].
      unfold sb. by rewrite K3.
    + split; [done|]. simpl. apply Forall_app. split; [done|]. constructor; [|constructor].
      unfold clflushopt_effect. by repeat case_match.
Qed.

Lemma empty_store_loop_wf M n : M <= bound -> forall s, wf_at M s -> M < 2 ^ 32 -> (length (sb s) <= n)%nat ->
  wp (empty_store_loop (H := E) n) (safe (fun _ s' => wf_at M s' /\ mem_step s s' /\ sb s' = [])) s.
Proof.
  intros HB. induction n as [|n IH]; intros s Hs HM Hn; cbn [empty_store_loop]; wp_step; unfold wp at 1; simpl; fold (sb s);
    destruct (sb s) as [|a rest] eqn:Es; simpl in Hn; try lia; try (unfold wp; simpl; by rewrite <- Es).
  eapply wp_safe_bind; [by apply pop_wf|]. intros b s1 (Hs1 & St1 & Hr1). rewrite Es in Hr1. simpl in Hr1.
  eapply wp_mono; [|apply (IH s1); [done|done|rewrite Hr1; lia]].
  intros [x s2|e s2]; simpl; [|done]. intros (K1 & K2 & K3). split; [done|]. split; [by eapply mem_step_trans|done].
Qed.

Lemma empty_buffers_wf M s : wf_at M s -> M < 2 ^ 32 - 1 -> M <= bound ->
  wp (empty_buffers i) (safe (fun _ s' => wf_at M s' /\ mem_step s s' /\ sb s' = [] /\ fb s' = [])) s.
Proof.
  intros Hs HM HB. unfold empty_buffers. eapply wp_safe_bind.
  - unfold empty_store_buffer. wp_step. unfold wp at 1; simpl. apply (empty_store_loop_wf M); [done|done|lia|done].
  - intros [] s1 (Hs1 & St1 & Hr1). eapply wp_mono; [|by apply (empty_flush_wf M)].
    intros [x s2|e s2]; simpl; [|done]. intros (K1 & K2 & K3 & K4). split; [done|].
    split; [by eapply mem_step_trans|]. split; [congruence|done].
Qed.

Lemma buffer_store_wf M s a : wf_at M s -> buffered_ok (thread_count s) (obj_to_wr (mdl s)) a ->
  wp (buffer_store i a) (safe (fun _ s' => wf_at (M + 1) s' /\ mem_step s s' /\ mdl s' = mdl s)) s.
Proof.
  intros Hs Ha. unfold buffer_store, add_to_store_buffer. rewrite (bf_type _ _ _ Ha). wp_step. unfold wp at 1; simpl.
  destruct (wf_at_memory _ _ Hs) as (t & _ & _ & [Hsb Hfb]).
  eapply wp_mono; [|apply (upd_tm_safe M (M + 1)); [done| |]].
  - intros [x s1|e s1]; simpl; [|done]. by intros (K1 & K2 & K3 & K4).
  - split; [|done]. simpl. apply Forall_app. split; [done|]. by constructor.
  - simpl. rewrite length_app. simpl. lia.
Qed.
End Buffers.
