(* ===== verification/Safety.v ===== *)
(** * Safety: no action fails

    The scheduler, the mutexes, [execute] and [Model::action] keep the invariant
    of [Wf]; from a state that satisfies it the only ends are the exits of a
    crash and of a deadlock and the abort of a self-deadlock: no assertion
    fails, nothing undefined is read, every loop ends. *)
From Stdlib Require Import Sorted.
From S2P Require Import Prelude Choice Action ReadFrom CacheLine ThreadMemory State Scheduler ModelCore Executor ReadSound Wf ModelSafe Buffers.

Section Actions.
Context {PAST : Past} {OPS : PastOps}.

(** ** The scheduler *)

(** The state after giving the processor away. *)
Lemma active_wf M s n : wf M s -> 0 <= n < thread_count s -> wf M (on_sched (with_active n) s).
Proof.
  intros Hs Hn. pose proof Hs as [W1 W2 W3 W4 W5 W6 _]. apply (wf_on_threads M M s); [done|done|done| |exact W3|simpl; lia].
  by apply bare_table_step.
Qed.

Definition is_active (s : St) : Prop := active_thread (sched s) = thread_id (proc s).

Lemma yield_wf {B0 : Bound} M s : wf M s -> is_active s ->
  wp yield (safe (fun (b : bool) s' => wf M s' /\ if b then exists n, s' = on_sched (with_active n) s
    else s' = s /\ exists t, lookupZ (threads (sched s)) (active_thread (sched s)) = Some t /\ thr_state t = THREAD_RUNNING)) s.
Proof.
  intros Hs Ha. unfold yield, assert_active. wp_step. wp_step. unfold wp at 1; simpl.
  unfold is_active in Ha. rewrite Ha, Z.eqb_refl. unfold wp at 1; simpl.
  unfold on_sched_err. wp_step. unfold wp at 1; simpl.
  destruct (yield_sched_cases _ (tw_active _ (wf_threads _ _ Hs))) as [(n & t & -> & _ & Ht & _)|(_ & t & Ht & ->)].
  - simpl. wp_step. unfold wp at 1; simpl. wp_step. unfold wp at 1; simpl. unfold wp; simpl.
    split; [|by exists n]. change (on_sched (fun _ => with_active n (sched s)) s) with (on_sched (with_active n) s).
    apply active_wf; [done|]. apply lookupZ_Some in Ht. exact Ht.
  - case_if; simpl; [|done]. wp_step. unfold wp at 1; simpl. wp_step. unfold wp at 1; simpl. unfold wp; simpl.
    assert (on_sched (fun _ => sched s) s = s) as -> by (by destruct s). split; [done|]. split; [done|].
    exists t. split; [by rewrite <- Ha|]. by apply is_running_spec.
Qed.

Lemma wake_one_wf M s tid v : wf M s -> 0 <= tid < thread_count s -> wf M (on_sched (wake_thread_waiting_on tid v) s).
Proof.
  intros Hs Htid. unfold wake_thread_waiting_on.
  apply (mild_wf M s); [done|by destruct (scan_others _ _ _)|by destruct (scan_others _ _ _)|].
  destruct (scan_others tid _ (threads (sched s))) as [w|] eqn:E; [|split; [done|]; intros i t' Ht'; by exists t'].
  apply scan_others_Some in E as (_ & _ & t & Ht & Hw%bool_decide_eq_true); [|exact Htid].
  split; [simpl; by rewrite length_update_at|]. simpl. intros i t'. rewrite lookupZ_update_at.
  case_decide as Hi; [|intros; by exists t']. subst i. rewrite Ht. intros [= <-].
  exists t. split; [done|]. by eapply wake_mild.
Qed.

(** The running thread: it is active, exists and has not crashed. *)
Record running (s : St) (t : Thread) : Prop := mkRunning {
  ru_active : is_active s;
  ru_thread : lookupZ (threads (sched s)) (thread_id (proc s)) = Some t;
  ru_alive : thr_state t <> THREAD_CRASHED
}.

Lemma thread_wait_wf {B0 : Bound} M s t : wf M s -> running s t ->
  match pending t with Some a => may_wait a = true | None => False end ->
  wp (thread_wait (thread_id (proc s))) (safe (fun (b : bool) s' => wf M s' /\ b = true)) s.
Proof.
  intros Hs [Ha Ht Hc] Hp. unfold thread_wait, wp. erewrite bind_val by (by apply get_thread_run). cbn beta.
  destruct (pending t) as [a|]; [|done]. rewrite Hp. run_step. run_step.
  set (s1 := on_sched _ s).
  assert (wf M s1) as Hs1 by (by apply (upd_mild_wf M s _ t)).
  assert (lookupZ (threads (sched s1)) (active_thread (sched s1)) = Some (set_state THREAD_BLOCKED t)) as Ht1.
  { simpl. rewrite Ha, lookupZ_update_at, decide_True, Ht by done. done. }
  eapply (wp_mono yield); [|by apply yield_wf].
  intros [b s2|e s2] H; [|done]. destruct H as [Hs2 Hb]. split; [done|]. destruct b; [done|].
  destruct Hb as (_ & u & Hu & Hr). rewrite Ht1 in Hu. injection Hu as <-. done.
Qed.

(** ** Mutexes *)

Lemma get_mutex_run s m mx : mutexes s !! m = Some mx -> get_mutex_obj m s = Leaf (Val mx s).
Proof. intros H. unfold get_mutex_obj. run_step. by rewrite H. Qed.

(** The owned set of thread [i] without and with [m]. *)
Definition disowned (m : Z) (own : option Z) (i : Z) (t : Thread) : gset Z :=
  if decide (own = Some i /\ thr_state t <> THREAD_CRASHED) then owned_mutexes t ∖ {[m]} else owned_mutexes t.
Definition reowned (m : Z) (own thr : option Z) (i : Z) (t : Thread) : gset Z :=
  if decide (thr = Some i) then {[m]} ∪ disowned m own i t else disowned m own i t.

(** Threads that differ in their owned sets. *)
Definition owned_table (g : Z -> Thread -> gset Z) (l l' : list Thread) : Prop :=
  length l' = length l /\ forall i, lookupZ l' i = (fun t => set_owned (g i t) t) <$> lookupZ l i.

Lemma owned_table_wf M s g l' ms' : wf M s -> owned_table g (threads (sched s)) l' -> mutexes_wf l' ms' ->
  wf M (on_mutexes (fun _ => ms') (on_sched (with_threads l') s)).
Proof.
  intros Hs [Hlen Hl] Hm. pose proof Hs as [[W1 W1'] W2 W3 W4 W5 W6 _].
  assert (lenZ l' = lenZ (threads (sched s))) as Hlen' by (unfold lenZ; by rewrite Hlen).
  constructor; simpl; unfold thread_count in *; simpl; rewrite ?Hlen'; try done.
  - constructor; [unfold sched_ok; simpl; by rewrite Hlen'|]. simpl. intros i t. rewrite Hl.
    destruct (lookupZ (threads (sched s)) i) as [u|] eqn:Eu; [|done]. intros [= <-]. simpl. by eapply W1'.
  - intros i t. rewrite Hl. destruct (lookupZ (threads (sched s)) i) as [u|] eqn:Eu; [|done]. intros [= <-]. simpl. apply (W3 i u Eu).
  - destruct W5 as (t & Ht & Hp). exists (set_owned (g (thread_id (proc s)) t) t). by rewrite Hl, Ht.
  - unfold clock in *. simpl. assert (buffered l' = buffered (threads (sched s))) as ->; [|done].
    apply buffered_same; [done|]. intros i t'. rewrite Hl. intros Ht'. destruct (lookupZ _ i) as [t|]; [|done].
    injection Ht' as <-. by exists t.
  - apply (past_step M s); [done..|]. intros i t Ht. eexists. simpl. rewrite Hl, Ht. by split.
Qed.

Lemma update_owned l i t o g : lookupZ l i = Some t -> g i t = o ->
  (forall j u, j <> i -> lookupZ l j = Some u -> g j u = owned_mutexes u) ->
  owned_table g l (update_at i (set_owned o) l).
Proof.
  intros Ht Ho Hg. split; [apply length_update_at|]. intros k. rewrite lookupZ_update_at. case_decide as Hk.
  - subst k. rewrite Ht. simpl. by rewrite Ho.
  - destruct (lookupZ l k) as [u|] eqn:Eu; [|done]. simpl. rewrite (Hg k u) by done. by destruct u.
Qed.

Lemma same_owned l g : (forall i t, lookupZ l i = Some t -> g i t = owned_mutexes t) -> owned_table g l l.
Proof.
  intros Hg. split; [done|]. intros i. destruct (lookupZ l i) as [t|] eqn:Et; [|done]. simpl.
  rewrite (Hg i t) by done. by destruct t.
Qed.

Lemma disown_run s m mx : mutexes_wf (threads (sched s)) (mutexes s) -> mutexes s !! m = Some mx ->
  exists l, owned_table (disowned m (owner mx)) (threads (sched s)) l /\
    mutex_disown m (owner mx) s = Leaf (Val tt (on_sched (with_threads l) s)).
Proof.
  intros [X1 _] Hm. unfold mutex_disown.
  assert (on_sched (with_threads (threads (sched s))) s = s) as Hsame by (by destruct s as [[] ? ? ? ? ? ?]).
  destruct (owner mx) as [o|] eqn:Eo.
  2:{ exists (threads (sched s)). rewrite Hsame. split; [|done]. apply same_owned. intros i t _. unfold disowned.
      by rewrite decide_False by naive_solver. }
  destruct (X1 m mx o Hm Eo) as (t & Ht & Hin). erewrite bind_val by (by apply get_thread_run). cbn beta.
  case_bool_decide as Hc.
  - rewrite bool_decide_true by auto. eexists. split; [|run_step; reflexivity].
    apply (update_owned _ _ t); [done| |].
    + unfold disowned. by rewrite decide_True.
    + intros j u Hj _. unfold disowned. rewrite decide_False; [done|]. intros [? _]. congruence.
  - exists (threads (sched s)). rewrite Hsame. split; [|done]. apply same_owned. intros i u Hu. unfold disowned.
    rewrite decide_False; [done|]. intros [[= <-] Hn]. rewrite Ht in Hu. injection Hu as <-. done.
Qed.

(** The mutexes stay consistent when [m] passes from its owner to [thr]. *)
Lemma mutexes_wf_owner l l' ms m mx thr : mutexes_wf l ms -> ms !! m = Some mx ->
  owned_table (reowned m (owner mx) thr) l l' ->
  match thr with None => True | Some o => is_Some (lookupZ l o) end ->
  mutexes_wf l' (alter (fun mx => mkMutex (mutex_type mx) thr 0) m ms).
Proof.
  intros [X1 X2] Hm [_ Hl] Hthr. constructor.
  - intros m' mx' o. destruct (decide (m = m')) as [<-|Hne].
    + rewrite lookup_alter_eq, Hm. intros [= <-]. simpl. intros ->. destruct Hthr as [t Ht].
      eexists. rewrite Hl, Ht. split; [done|]. intros _. simpl. unfold reowned. rewrite decide_True by done. set_solver.
    + rewrite lookup_alter_ne by done. intros Hm' Ho. destruct (X1 m' mx' o Hm' Ho) as (t & Ht & Hi).
      eexists. rewrite Hl, Ht. split; [done|]. simpl. intros Hs. specialize (Hi Hs).
      unfold reowned, disowned. repeat case_decide; set_solver.
  - intros i t' m'. rewrite Hl. destruct (lookupZ l i) as [t|] eqn:Et; [|done]. intros [= <-]. simpl. intros Hs Hin.
    destruct (decide (m = m')) as [<-|Hne].
    + rewrite lookup_alter_eq, Hm. eexists. split; [done|]. simpl. unfold reowned, disowned in Hin.
      destruct (decide (thr = Some i)) as [->|Hti]; [done|]. exfalso.
      destruct (decide (owner mx = Some i /\ thr_state t <> THREAD_CRASHED)) as [|Hno]; [set_solver|].
      destruct (X2 i t m Et Hs Hin) as (mx' & Hmx' & Ho). rewrite Hm in Hmx'. injection Hmx' as <-. by apply Hno.
    + rewrite lookup_alter_ne by done. apply (X2 i t m'); [done|done|].
      unfold reowned, disowned in Hin. repeat case_decide; set_solver.
Qed.

(** The owner of mutex [m] is replaced by a thread that has not crashed, or by none. *)
Lemma set_owner_run M s m mx thr : wf M s -> mutexes s !! m = Some mx ->
  match thr with
  | None => True
  | Some o => owner mx <> Some o /\ exists t, lookupZ (threads (sched s)) o = Some t /\ thr_state t <> THREAD_CRASHED
  end ->
  exists l, owned_table (reowned m (owner mx) thr) (threads (sched s)) l /\
    let s' := on_mutexes (fun _ => alter (fun mx => mkMutex (mutex_type mx) thr 0) m (mutexes s)) (on_sched (with_threads l) s) in
    Mutex_set_owner m thr s = Leaf (Val tt s') /\ wf M s'.
Proof.
  intros Hs Hm Hthr. pose proof (wf_mutexes _ _ Hs) as Hx. destruct Hx as [X1 X2] eqn:Ex.
  destruct (disown_run s m mx (wf_mutexes _ _ Hs) Hm) as (l1 & Hl1 & Hrun1).
  assert (exists l, owned_table (reowned m (owner mx) thr) (threads (sched s)) l /\
    mutex_own m thr (on_sched (with_threads l1) s) = Leaf (Val tt (on_sched (with_threads l) s))) as (l & Hl & Hrun2).
  { unfold mutex_own. destruct thr as [o|].
    2:{ exists l1. split; [|done]. exact Hl1. }
    destruct Hthr as [Hne (t & Ht & Hc)]. destruct Hl1 as [Hlen1 Hl1]. pose proof (Hl1 o) as Ho. rewrite Ht in Ho. simpl in Ho.
    erewrite bind_val by (by apply get_thread_run). cbn beta.
    assert (disowned m (owner mx) o t = owned_mutexes t) as Hd.
    { unfold disowned. rewrite decide_False; [done|]. intros [? _]. congruence. }
    rewrite bool_decide_true.
    2:{ simpl. rewrite Hd. intros Hin. destruct (X2 o t m Ht Hc Hin) as (mx' & Hmx' & Ho'). congruence. }
    eexists. split; [|run_step; reflexivity]. split; [simpl; by rewrite length_update_at|]. intros i.
    simpl. rewrite lookupZ_update_at. unfold reowned. case_decide as Hi.
    - subst i. rewrite Ho, Ht. simpl. by rewrite decide_True, Hd.
    - rewrite Hl1. destruct (lookupZ _ i); [|done]. simpl. rewrite decide_False by naive_solver. done. }
  exists l. split; [done|]. cbn zeta. split.
  - unfold Mutex_set_owner. erewrite bind_val by (by apply get_mutex_run). cbn beta.
    rewrite (bind_val _ _ _ _ _ Hrun1), (bind_val _ _ _ _ _ Hrun2). done.
  - eapply owned_table_wf; [done|done|]. eapply mutexes_wf_owner; [done|done|done|].
    destruct thr as [o|]; [|done]. destruct Hthr as [_ (t & -> & _)]. by eexists.
Qed.

(** A change of the counter of a mutex. *)
Lemma upd_mutex_wf M s m f : wf M s -> (forall mx, owner (f mx) = owner mx) -> wf M (on_mutexes (alter f m) s).
Proof.
  intros Hwf Hf. pose proof Hwf as [W1 W2 W3 [X1 X2] W5 W6 _].
  constructor; try done; [|by apply (past_step M s); [..|apply same_pids]]. constructor; simpl.
  - intros m' mx o. destruct (decide (m = m')) as [<-|]; [rewrite lookup_alter_eq|rewrite lookup_alter_ne by done; apply X1].
    destruct (mutexes s !! m) as [my|] eqn:Em; [|done]. intros [= <-]. rewrite Hf. by apply X1.
  - intros i t m' Ht Hs Hm. destruct (X2 i t m' Ht Hs Hm) as (mx & Hmx & Ho).
    destruct (decide (m = m')) as [<-|]; [rewrite lookup_alter_eq, Hmx|rewrite lookup_alter_ne by done; eauto].
    exists (f mx). split; [done|]. by rewrite Hf.
Qed.

Lemma on_proc_wf M s f : wf M s -> thread_id (f (proc s)) = thread_id (proc s) ->
  process_id (f (proc s)) = process_id (proc s) -> wf M (on_proc f s).
Proof.
  intros Hs H1 H2. pose proof Hs as [W1 W2 W3 W4 W5 W6 _].
  constructor; try done; [simpl; by rewrite H1, H2|by apply (past_step M s); [..|apply same_pids]].
Qed.

(** A new thread of the running process. *)
Lemma model_wf_more n n' pc m : n <= n' -> model_wf n pc m -> model_wf n' pc m.
Proof.
  intros Hn [H1 H2 H3 H4 H5]. constructor; try done. intros w l Hl. destruct (H3 w l Hl) as [L1 L2 L3].
  constructor; try done. eapply Forall_impl; [exact L1|]. intros a [? ? ? ? ?]. constructor; try done. lia.
Qed.

Lemma memory_wf_more n n' wr tm : n <= n' -> memory_wf n wr tm -> memory_wf n' wr tm.
Proof.
  intros Hn [H1 H2]. split; [|done]. eapply Forall_impl; [exact H1|]. intros a [? ? ? ?]. constructor; try done. lia.
Qed.

Lemma lookupZ_snoc {A} (l : list A) x i y : lookupZ (l ++ [x]) i = Some y ->
  lookupZ l i = Some y \/ (i = lenZ l /\ y = x).
Proof.
  unfold lookupZ, lenZ. case_if; [done|]. rewrite lookup_app. destruct (l !! Z.to_nat i) as [z|] eqn:E; [by left|].
  apply lookup_ge_None in E. destruct (Z.to_nat i - length l)%nat eqn:En; simpl; [|done].
  intros [= <-]. right. split; [lia|done].
Qed.
Lemma lookupZ_app_l {A} (l k : list A) i y : lookupZ l i = Some y -> lookupZ (l ++ k) i = Some y.
Proof. unfold lookupZ. case_if; [done|]. by apply lookup_app_l_Some. Qed.

Lemma new_thread_wf M s func arg :
  let c := snd (new_thread (process_id (proc s)) (thread_id (proc s)) func arg (sched s)) in
  wf M s -> wf M (on_sched (fun _ => c) s).
Proof.
  cbn zeta. intros Hwf. pose proof Hwf as [[W1 W1'] W2 W3 W4 W5 W6 _]. unfold new_thread. simpl.
  set (nt := Thread_new _ _ _ _).
  assert (lenZ (threads (sched s) ++ [nt]) = lenZ (threads (sched s)) + 1) as Hlen
    by (unfold lenZ; rewrite length_app; simpl; lia).
  destruct W5 as (t & Ht & Hp). pose proof (W1' _ _ Ht) as Hpid.
  constructor; unfold thread_count in *; simpl; rewrite ?Hlen.
  - constructor; [unfold sched_ok in *; simpl; lia|]. simpl.
    intros i u [Hu|[_ ->]]%lookupZ_snoc; [by eapply W1'|]. simpl. by rewrite <- Hp.
  - by eapply model_wf_more; [|exact W2]; lia.
  - intros i u [Hu|[_ ->]]%lookupZ_snoc; [eapply memory_wf_more; [|by eapply W3]; lia|]. by split.
  - destruct W4 as [X1 X2]. constructor.
    + intros m mx o Hm Ho. destruct (X1 m mx o Hm Ho) as (u & Hu & Hi). exists u. split; [by apply lookupZ_app_l|done].
    + intros i u m [Hu|[_ ->]]%lookupZ_snoc Hs Hin; [by eapply X2|]. simpl in Hin. set_solver.
  - exists t. split; [by apply lookupZ_app_l|done].
  - unfold clock, buffered in *. simpl. rewrite fmap_app, sum_list_with_app. simpl. lia.
  - apply (past_step M s); [done..|]. intros i u Hu. exists u. split; [by apply lookupZ_app_l|done].
Qed.

(** ** [execute] *)

(** What the program must respect: aligned accesses, existing mutexes, joins in
    its own process; a created thread's number goes to memory the checker knows;
    a thread does not end last. *)
Record action_ok (s : St) (a : ModelAction) : Prop := mkActionOk {
  ao_tid : act_tid a = thread_id (proc s);
  ao_type : act_type a <> ATOMIC_INIT /\ act_type a <> ATOMIC_TIMEDWAIT;
  ao_access : is_read a || is_write a = true -> access_ok a;
  ao_mutex : forall m, get_mutex a = inr m -> is_Some (mutexes s !! m);
  ao_join : act_type a = PTHREAD_JOIN -> exists t, lookupZ (threads (sched s)) (location a) = Some t /\
    thr_pid t = process_id (proc s);
  ao_create : act_type a = PTHREAD_CREATE -> location a mod THREAD_ID_SIZE = 0 /\
    0 <= location a /\ location a + 8 < 2 ^ 64 /\ based (obj_to_wr (mdl s)) (location a);
  ao_finish : act_type a = THREAD_FINISH \/ act_type a = THREADONLY_FINISH ->
    terminating (sched s) = false /\ exists j t, j <> thread_id (proc s) /\
      lookupZ (threads (sched s)) j = Some t /\ thread_is_completed t = false
}.

(** The action of the running thread, when it is carried out. *)
Record exec_ready (M : Z) (s : St) (t : Thread) (a : ModelAction) : Prop := mkExecReady {
  er_wf : wf M s;
  er_clock : M < 2 ^ 32 - 2;
  er_running : running s t;
  er_pending : exists b, pending t = Some b /\ may_wait b = may_wait a;
  er_ok : action_ok s a
}.

Definition progressed {B0 : Bound} (M : Z) (r : result St progress) : Prop := safe (fun _ s' => wf M s') r.

Section Execute.
Context {B0 : Bound} (M : Z) (s : St) (t : Thread) (a : ModelAction).
Hypothesis H : exec_ready M s t a.
Hypothesis HB : M + 1 <= bound.

Let Hs := er_wf _ _ _ _ H.
Let Hok := er_ok _ _ _ _ H.

Lemma self_at : wf_at (act_tid a) M s.
Proof.
  split; [exact Hs|]. rewrite (ao_tid _ _ Hok). pose proof (ru_thread _ _ (er_running _ _ _ _ H)) as Ht.
  by apply lookupZ_Some in Ht.
Qed.

Lemma exec_load_safe s1 : wf M s1 -> mem_step s s1 -> based (obj_to_wr (mdl s1)) (location a) -> access_ok a ->
  wp (exec_load a) (progressed (M + 1)) s1.
Proof.
  intros Hs1 St Hb Ha. unfold exec_load.
  pose proof (er_clock _ _ _ _ H). eapply wp_safe_bind; [apply (build_read_from_safe M); [done|lia|done| |done]|].
  - rewrite (mem_step_count _ _ St). apply self_at.
  - intros v s2 (Hs2 & _). unfold wp; simpl. eapply wf_weaken; [|done]. lia.
Qed.

Lemma exec_store_safe s1 : wf_at (act_tid a) M s1 -> buffered_ok (thread_count s1) (obj_to_wr (mdl s1)) a ->
  wp (exec_store a) (progressed (M + 1)) s1.
Proof.
  intros Hs1 [B1 B2 B3 B4]. pose proof (er_clock _ _ _ _ H). unfold exec_store.
  eapply wp_safe_bind; [apply buffer_store_wf; [done|by constructor]|]. intros [] s2 (Hs2 & St2 & _).
  eapply (wp_safe_bind _ _ (fun _ s' => wf (M + 1) s')); [|intros [] s3 Hs3; exact Hs3].
  case_if; [|by apply Hs2]. eapply wp_mono; [|apply (empty_buffers_wf (act_tid a) (M + 1)); [done|lia|done]].
  intros [x s3|e s3]; simpl; [|done]. by intros [[? _] _].
Qed.

Lemma exec_flush_safe : is_read a || is_write a = false -> bufferable (act_type a) = true ->
  wp (buffer_store (act_tid a) (ModelAction_copy a) ;;; ret (Executed a)) (progressed (M + 1)) s.
Proof.
  intros Hrw Hb. apply orb_false_iff in Hrw as [_ Hw]. eapply wp_safe_bind; [apply buffer_store_wf; [apply self_at|]|].
  - constructor; simpl; [apply self_at|done|apply Hok|]. change (is_write (ModelAction_copy a)) with (is_write a). congruence.
  - intros [] s2 ([Hs2 _] & _). exact Hs2.
Qed.

Lemma weaken_progress s' r : wf M s' -> progressed (M + 1) (Val r s').
Proof. intros Hw. simpl. eapply wf_weaken; [|exact Hw]. lia. Qed.

Lemma self_thread : lookupZ (threads (sched s)) (act_tid a) = Some t /\ thr_state t <> THREAD_CRASHED.
Proof. rewrite (ao_tid _ _ Hok). split; [apply (ru_thread _ _ (er_running _ _ _ _ H))|apply (ru_alive _ _ (er_running _ _ _ _ H))]. Qed.

(** Taking the mutex for the running thread. *)
Lemma take_mutex_safe m mx : mutexes s !! m = Some mx -> owner mx <> Some (act_tid a) ->
  wp (Mutex_set_owner m (Some (act_tid a))) (safe (fun _ s' => wf M s')) s.
Proof.
  intros Hm Ho. destruct (set_owner_run M s m mx (Some (act_tid a)) Hs Hm) as (l & _ & Hrun & Hw).
  { split; [done|]. exists t. apply self_thread. }
  unfold wp. by rewrite Hrun.
Qed.

Lemma wait_safe : may_wait a = true -> wp (thread_wait (act_tid a)) (safe (fun (b : bool) s' => wf M s' /\ b = true)) s.
Proof.
  intros Hw. rewrite (ao_tid _ _ Hok). eapply thread_wait_wf; [exact Hs|exact (er_running _ _ _ _ H)|].
  destruct (er_pending _ _ _ _ H) as (b & -> & ->). done.
Qed.

Lemma mutex_exists m : get_mutex a = inr m -> exists mx, mutexes s !! m = Some mx.
Proof. intros Hm. by destruct (ao_mutex _ _ Hok m Hm) as [mx Hmx]; exists mx. Qed.

Lemma lock_loop_safe m : get_mutex a = inr m -> may_wait a = true -> wp (lock_loop a m) (progressed (M + 1)) s.
Proof.
  intros Hm Hw. destruct (mutex_exists m Hm) as [mx Hmx]. unfold lock_loop, wp.
  erewrite bind_val by (by apply get_mutex_run). cbn beta.
  assert (forall b, owner mx <> Some (act_tid a) ->
    wp (Mutex_set_owner m (Some (act_tid a)) ;;; ret (Executed (set_value (Z.b2z b) a))) (progressed (M + 1)) s) as Htake.
  { intros b Ho. eapply wp_safe_bind; [by eapply (take_mutex_safe m mx)|]. intros [] s1 Hs1.
    by apply weaken_progress. }
  destruct (owner mx) as [o|] eqn:Eo; [|apply (Htake false); congruence].
  destruct (xw_owner _ _ (wf_mutexes _ _ Hs) m mx o Hmx Eo) as (u & Hu & _).
  destruct self_thread as [Ht Hc].
  erewrite bind_val; [|erewrite bind_val by (by apply get_thread_run); reflexivity]. cbn beta.
  case_bool_decide as Hcr; [apply (Htake true); congruence|].
  eapply (wp_safe_bind (thread_wait (act_tid a))); [by apply wait_safe|]. intros b s1 [Hs1 ->]. by apply weaken_progress.
Qed.

Lemma exec_lock_safe : act_type a = ATOMIC_LOCK -> wp (exec_lock a) (progressed (M + 1)) s.
Proof.
  intros Ht. unfold exec_lock. assert (get_mutex a = inr (location a)) as Hg by (unfold get_mutex; by rewrite Ht).
  destruct (mutex_exists _ Hg) as [mx Hmx]. rewrite Hg. wp_step. unfold wp at 1; simpl.
  unfold wp. erewrite bind_val by (by apply get_mutex_run). cbn beta. destruct (owner mx) as [o|] eqn:Eo.
  - case_if; [|apply lock_loop_safe; [done|by unfold may_wait; rewrite Ht]].
    case_if; [|case_if; [|done]].
    + unfold upd_mutex. run_step. apply weaken_progress. by apply upd_mutex_wf.
    + unfold set_errno. run_step. apply weaken_progress. by apply on_proc_wf.
  - eapply (wp_safe_bind (Mutex_set_owner _ _)); [apply (take_mutex_safe _ mx); [done|congruence]|].
    intros [] s1 Hs1. by apply weaken_progress.
Qed.

Lemma exec_trylock_safe : act_type a = ATOMIC_TRYLOCK -> wp (exec_trylock a) (progressed (M + 1)) s.
Proof.
  intros Ht. unfold exec_trylock. assert (get_mutex a = inr (location a)) as Hg by (unfold get_mutex; by rewrite Ht).
  destruct (mutex_exists _ Hg) as [mx Hmx]. rewrite Hg. wp_step. unfold wp at 1; simpl.
  unfold wp. erewrite bind_val by (by apply get_mutex_run). cbn beta.
  assert (forall b, owner mx <> Some (act_tid a) ->
    wp (Mutex_set_owner (location a) (Some (act_tid a)) ;;; ret (Executed (set_value (1 + Z.b2z b) a))) (progressed (M + 1)) s) as Htake.
  { intros b Ho. eapply wp_safe_bind; [by eapply (take_mutex_safe _ mx)|]. intros [] s1 Hs1. by apply weaken_progress. }
  destruct (owner mx) as [o|] eqn:Eo; [|apply (Htake false); congruence].
  destruct (xw_owner _ _ (wf_mutexes _ _ Hs) _ mx o Hmx Eo) as (u & Hu & _). destruct self_thread as [Ht' Hc].
  erewrite bind_val; [|erewrite bind_val by (by apply get_thread_run); reflexivity]. cbn beta.
  case_bool_decide as Hcr; [apply (Htake true); congruence|]. by apply weaken_progress.
Qed.

Lemma exec_unlock_safe : act_type a = ATOMIC_UNLOCK \/ act_type a = ATOMIC_WAIT ->
  wp (exec_unlock a) (progressed (M + 1)) s.
Proof.
  intros Ht. unfold exec_unlock.
  assert (exists m, get_mutex a = inr m) as [m Hg] by (unfold get_mutex; destruct Ht as [->| ->]; eauto).
  destruct (mutex_exists _ Hg) as [mx Hmx]. rewrite Hg. wp_step. unfold wp at 1; simpl.
  unfold wp. erewrite bind_val by (by apply get_mutex_run). cbn beta. case_bool_decide as Ho; simpl.
  2:{ apply (wf_weaken M); [lia|]. by apply on_proc_wf. }
  case_if; [unfold upd_mutex; run_step; apply weaken_progress; by apply upd_mutex_wf|].
  destruct (set_owner_run M s m mx None Hs Hmx I) as (l & [Hlen Hl] & Hrun & Hw).
  rewrite (bind_val _ _ _ _ _ Hrun). unfold wake_waiters. run_step. set (s2 := on_sched (wake_all_threads_waiting_on _) _).
  assert (wf M s2) as Hs2 by by apply wake_all_wf.
  case_bool_decide as Hwt; [|by apply weaken_progress].
  destruct self_thread as [Hself Hc]. pose proof (er_running _ _ _ _ H) as [Ha _ _].
  assert (exists t2, running s2 t2 /\ pending t2 = pending t) as (t2 & Hr2 & Hp2).
  { pose proof (wake_all_lookup (OMutex m) (with_threads l (sched s)) (act_tid a)) as Hlk. simpl in Hlk.
    rewrite Hl, Hself in Hlk. simpl in Hlk. eexists. split; [constructor; [exact Ha|change (proc s2) with (proc s); rewrite <- (ao_tid _ _ Hok); exact Hlk|]|].
    - case_bool_decide; simpl; done.
    - case_bool_decide; simpl; done. }
  eapply (wp_safe_bind (thread_wait (act_tid a)) _ (fun (b : bool) s' => wf M s' /\ b = true)).
  - rewrite (ao_tid _ _ Hok). change (thread_id (proc s)) with (thread_id (proc s2)).
    eapply thread_wait_wf; [done|exact Hr2|]. rewrite Hp2.
    destruct (er_pending _ _ _ _ H) as (b & -> & ->). unfold may_wait. by rewrite Hwt.
  - intros b s3 [Hs3 ->]. by apply weaken_progress.
Qed.

Lemma exec_join_safe : act_type a = PTHREAD_JOIN -> wp (exec_join a) (progressed (M + 1)) s.
Proof.
  intros Ht. unfold exec_join. destruct (ao_join _ _ Hok Ht) as (u & Hu & Hp).
  assert (get_thread_ptr a = inr (location a)) as -> by (unfold get_thread_ptr; by rewrite Ht).
  wp_step. unfold wp at 1; simpl. unfold wp. erewrite bind_val by (by apply get_thread_run). cbn beta.
  unfold self_pid. run_step. rewrite Hp, Z.eqb_refl. run_step.
  case_bool_decide; [|by apply weaken_progress].
  eapply (wp_safe_bind (thread_wait (act_tid a))); [apply wait_safe; unfold may_wait; by rewrite Ht|].
  intros b s3 [Hs3 ->]. by apply weaken_progress.
Qed.

Lemma exec_create_safe : act_type a = PTHREAD_CREATE -> wp (exec_create a) (progressed (M + 1)) s.
Proof.
  intros Ht. unfold exec_create. wp_step. unfold wp at 1; simpl. destruct (ao_create _ _ Hok Ht) as (Hal & H0 & H1 & l & Hl & Hne).
  pose proof (new_thread_wf M s (load_bytes (memory s) (value a) 8) (load_bytes (memory s) (value a + 8) 8) Hs) as Hw.
  cbn zeta in Hw. simpl in Hw. set (c := with_threads _ _) in *. set (s1 := on_sched (fun _ => c) s) in *.
  wp_step. unfold wp at 1; simpl. unfold self_tid. wp_step. unfold wp at 1; simpl.
  assert (lenZ (threads c) = lenZ (threads (sched s)) + 1) as Hlen
    by (unfold c, lenZ; simpl; rewrite length_app; simpl; lia).
  pose proof self_at as [_ Hself]. unfold thread_count in Hself.
  eapply (wp_safe_bind (buffer_store _ _)); [apply (buffer_store_wf (act_tid a) M s1)|].
  - split; [done|]. unfold thread_count. change (threads (sched s1)) with (threads c). lia.
  - constructor; [simpl; rewrite <- (ao_tid _ _ Hok); unfold thread_count; change (threads (sched s1)) with (threads c); lia|done|done|]. intros _.
    split; [|by exists l]. split; [split; [by right; right; left|done]|done].
  - intros [] s2 ([Hs2 _] & _). wp_step. unfold wp; simpl.
    destruct Hs2 as [K1 K2 K3 K4 K5 K6 K7]. constructor; try done.
    eapply past_elsewhere; [|exact K7]. apply elsewhere_mdl; [done..|by apply same_pids].
Qed.

(** The end of a thread that is not the last one. *)
Lemma finalize_safe s1 : wf M s1 -> is_active s1 -> terminating (sched s1) = false ->
  (exists j u, j <> thread_id (proc s1) /\ lookupZ (threads (sched s1)) j = Some u /\ thread_is_completed u = false) ->
  wp Thread_finalize (progressed (M + 1)) s1.
Proof.
  intros Hs1 Ha Hterm (j & u & Hj & Hu & Hc). destruct (wf_self _ _ Hs1) as (t1 & Ht1 & _).
  assert (exists s2, wf M s2 /\ proc s2 = proc s1 /\ is_active s2 /\ terminating (sched s2) = false /\
    lookupZ (threads (sched s2)) j = Some u /\
    Thread_finalize s1 = (let! more := last_yield in
      if more then ret (Blocked PDead) else halt (AssertFail "Thread::finalize")) s2) as (s2 & Hs2 & Hp2 & Ha2 & Hterm2 & Hu2 & Hrun).
  { unfold Thread_finalize, finalize. destruct (thread_is_completed t1) eqn:Ec.
    - exists s1. do 5 (split; [done|]). unfold self_tid, bind, gets. simpl. rewrite (get_thread_run _ _ _ Ht1).
      simpl. rewrite Ec. simpl. by rewrite Hterm.
    - exists (on_sched (fun c => with_threads (update_at (thread_id (proc s1)) (set_state THREAD_COMPLETED) (threads c)) c) s1).
      split; [eapply (upd_mild_wf M s1); [done|exact Ht1|]|].
      { unfold mild. simpl. unfold thread_is_completed in Ec. by destruct (thr_state t1). }
      do 3 (split; [done|]). split; [simpl; rewrite lookupZ_update_at, decide_False by done; done|].
      unfold self_tid, bind, gets. simpl. rewrite (get_thread_run _ _ _ Ht1). simpl. rewrite Ec. simpl. by rewrite Hterm. }
  unfold wp. rewrite Hrun. fold (wp (let! more := last_yield in
      if more then ret (Blocked PDead) else halt (AssertFail "Thread::finalize")) (progressed (M + 1)) s2).
  unfold last_yield, assert_active. do 3 wp_step. unfold wp at 1; simpl.
  unfold is_active in Ha2. rewrite Ha2, Z.eqb_refl. unfold wp at 1; simpl.
  unfold on_sched_err. wp_step. unfold wp at 1; simpl. wp_step. unfold last_yield_sched.
  pose proof (tw_active _ (wf_threads _ _ Hs2)) as Hact.
  destruct (scan_others _ is_running _) as [n|] eqn:E1.
  - unfold wp; simpl. apply scan_others_Some in E1 as (Hn & _); [|exact Hact].
    change (on_sched (fun _ => with_active n (sched s2)) s2) with (on_sched (with_active n) s2).
    apply (wf_weaken M); [lia|]. by apply active_wf.
  - destruct (scan_others _ is_blocked _) as [n|] eqn:E2; [done|]. exfalso.
    rewrite Ha2, Hp2 in E1, E2. rewrite Hp2 in *. unfold sched_ok in Hact. rewrite Ha2 in Hact.
    pose proof (scan_others_None _ _ _ _ _ Hact E1 Hj Hu2) as N1.
    pose proof (scan_others_None _ _ _ _ _ Hact E2 Hj Hu2) as N2.
    unfold is_running, is_blocked, thread_is_completed in *. apply bool_decide_eq_false in N1, N2.
    by destruct (thr_state u).
Qed.

Lemma finish_safe s1 : act_type a = THREAD_FINISH \/ act_type a = THREADONLY_FINISH ->
  wf M s1 -> proc s1 = proc s -> active_thread (sched s1) = active_thread (sched s) ->
  terminating (sched s1) = terminating (sched s) ->
  (forall j u, lookupZ (threads (sched s)) j = Some u -> exists r, lookupZ (threads (sched s1)) j = Some (set_ret_val r u)) ->
  wp (wake_waiters (OThread (act_tid a)) ;;; Thread_finalize) (progressed (M + 1)) s1.
Proof.
  intros Ht Hs1 Hp Hact Hterm Hth. destruct (ao_finish _ _ Hok Ht) as [Ht1 (j & u & Hj & Hu & Hc)].
  pose proof (ru_active _ _ (er_running _ _ _ _ H)) as Ha. unfold is_active in Ha.
  unfold wake_waiters. wp_step. unfold wp at 1; simpl. apply finalize_safe.
  - by apply wake_all_wf.
  - unfold is_active. simpl. congruence.
  - simpl. congruence.
  - destruct (Hth j u Hu) as [r Hr]. exists j.
    pose proof (wake_all_lookup (OThread (act_tid a)) (sched s1) j) as Hlk. rewrite Hr in Hlk. simpl in Hlk.
    eexists. split; [simpl; by rewrite Hp|]. split; [exact Hlk|]. by case_bool_decide.
Qed.

Lemma execute_safe : (is_read a || is_write a = true -> based (obj_to_wr (mdl s)) (location a)) ->
  wp (execute a) (progressed (M + 1)) s.
Proof.
  intros Hb. pose proof self_at as Hself. pose proof (ao_type _ _ Hok) as [Hni Hnt].
  pose proof (er_clock _ _ _ _ H) as Hclk.
  assert (is_write a = true -> wp (exec_store a) (progressed (M + 1)) s) as Hstore.
  { intros Hw. apply exec_store_safe; [done|]. constructor; [apply Hself| |done|].
    - unfold is_write in Hw. by destruct (act_type a).
    - intros _. split; [apply Hok|apply Hb]; by rewrite Hw, orb_true_r. }
  assert (forall k : Choice.M St progress, (forall s1, wf M s1 -> mem_step s s1 -> wp k (progressed (M + 1)) s1) ->
    wp (empty_buffers (act_tid a) ;;; k) (progressed (M + 1)) s) as Hempty.
  { intros k Hk. eapply wp_safe_bind; [apply (empty_buffers_wf (act_tid a) M); [done|lia|lia]|].
    intros [] s1 ([Hs1 _] & St1 & _). by apply Hk. }
  assert (is_read a = true -> wp (exec_load a) (progressed (M + 1)) s) as Hload.
  { intros Hr. apply exec_load_safe; [done|done|apply Hb|apply Hok]; by rewrite Hr. }
  unfold execute. destruct (act_type a) eqn:Et; try done.
  all: try (by apply weaken_progress).
  all: try (apply Hstore; unfold is_write; by rewrite Et).
  all: try (apply Hload; unfold is_read; by rewrite Et).
  all: try (apply exec_flush_safe; [unfold is_read, is_write; by rewrite Et|by rewrite Et]).
  - apply finish_safe; try done; [by left|]. intros j u Hu. exists (ret_val u). rewrite Hu. by destruct u.
  - unfold upd_thread. wp_step. unfold wp at 1; simpl. apply finish_safe; try done; [by right| |].
    + destruct self_thread. by apply (upd_mild_wf M s _ t).
    + simpl. intros j u Hu. rewrite lookupZ_update_at, Hu. case_decide; [by eexists|].
      exists (ret_val u). by destruct u.
  - by apply exec_create_safe.
  - by apply exec_join_safe.
  - apply Hempty. intros s1 Hs1 St1. apply exec_load_safe; [done|done| |apply Hok; unfold is_read; by rewrite Et].
    apply (me_grows _ _ St1), Hb. unfold is_read. by rewrite Et.
  - by apply exec_lock_safe.
  - by apply exec_trylock_safe.
  - apply exec_unlock_safe. by left.
  - assert (get_cond a = inr (location a)) as -> by (unfold get_cond; by rewrite Et).
    wp_step. unfold wp at 1; simpl. unfold wake_one, self_tid. do 2 wp_step. unfold wp at 1; simpl. unfold wp; simpl.
    apply (wf_weaken M); [lia|]. apply wake_one_wf; [done|]. rewrite <- (ao_tid _ _ Hok). apply Hself.
  - assert (get_cond a = inr (location a)) as -> by (unfold get_cond; by rewrite Et).
    wp_step. unfold wp at 1; simpl. unfold wake_waiters. wp_step. unfold wp; simpl.
    apply (wf_weaken M); [lia|]. by apply wake_all_wf.
  - apply exec_unlock_safe. by right.
  - apply Hempty. intros s1 Hs1 St1. apply (wf_weaken M); [lia|done].
Qed.
End Execute.

(** ** [Model::action] *)

Section Action.
Context `{Rand} {B0 : Bound}.

Lemma find_live_wf M n : forall s i tc, wf M s -> thread_count s = tc -> 0 <= i < tc ->
  wp (find_live n i tc) (safe (fun j s' => s' = s /\ 0 <= j < tc)) s.
Proof.
  induction n as [|n IH]; intros s i tc Hs Htc Hi; simpl; [done|].
  eapply wp_safe_bind; [apply (get_thread_wf M); [done|lia]|]. intros t s' (-> & Ht & _).
  wp_step. unfold wp at 1; simpl. destruct (is_live s (thr_pid t)); [done|].
  apply IH; [done|done|]. apply Z.mod_pos_bound. lia.
Qed.

Lemma rand_wf M s : wf M s -> wp rand (safe (fun r s' => wf M s' /\ 0 <= r /\ sched s' = sched s)) s.
Proof.
  intros Hs. unfold rand. wp_step. unfold wp at 1; simpl. pose proof (rand_nonneg (rng (proc s))) as Hr.
  destruct (rand_next (rng (proc s))) as [r g]. wp_step. unfold wp; simpl. split; [by apply on_proc_wf|done].
Qed.

Lemma times_wf M n i : M < 2 ^ 32 -> M <= bound -> forall s, wf_at i M s ->
  wp (Choice.times n (let! _ := pop_thread i in ret tt)) (safe (fun _ s' => wf M s')) s.
Proof.
  intros HM HB. induction n as [|n IH]; intros s Hs; simpl; [by apply Hs|].
  eapply (wp_safe_bind _ _ (fun _ s' => wf_at i M s')); [|intros [] s1 Hs1; by apply IH].
  eapply (wp_safe_bind (pop_thread i)); [by apply pop_wf|]. by intros b s1 (Hs1 & _).
Qed.

Lemma process_store_buffer_wf M s : wf M s -> M < 2 ^ 32 -> M <= bound ->
  wp process_store_buffer (safe (fun _ s' => wf M s')) s.
Proof.
  intros Hs HM HB. unfold process_store_buffer. wp_step. unfold wp at 1; simpl.
  eapply wp_safe_bind; [by apply rand_wf|]. intros r s1 (Hs1 & Hr & Hc1).
  set (tc := lenZ (threads (sched s))) in *.
  assert (thread_count s1 = tc) as Htc by (unfold thread_count; by rewrite Hc1).
  pose proof (tw_active _ (wf_threads _ _ Hs)) as Hact. unfold sched_ok in Hact. fold tc in Hact.
  eapply wp_safe_bind; [apply (find_live_wf M); [done|done|apply Z.mod_pos_bound; lia]|].
  intros j s' (-> & Hj). eapply wp_safe_bind; [apply (get_thread_wf M); [done|lia]|]. intros t s' (-> & Ht & _).
  case_if; [done|]. eapply wp_safe_bind; [by apply rand_wf|]. intros r2 s2 (Hs2 & Hr2 & Hc2).
  apply times_wf; [done|done|]. split; [done|]. unfold thread_count in *. rewrite Hc2. lia.
Qed.

Lemma action_end_wf M s a t : wf M s -> M < 2 ^ 32 -> M <= bound -> lookupZ (threads (sched s)) (thread_id (proc s)) = Some t ->
  wp (action_end a) (safe (fun _ s' => wf M s')) s.
Proof.
  intros Hs HM HB Ht. unfold action_end, self_tid. wp_step. unfold wp at 1; simpl. unfold upd_thread. wp_step.
  unfold wp at 1; simpl. eapply wp_safe_bind; [apply (process_store_buffer_wf M); [|done|done]|].
  - eapply (upd_mild_wf M s); [done|exact Ht|]. unfold mild. simpl. auto.
  - intros [] s1 Hs1. wp_step. unfold wp; simpl. by apply on_proc_wf.
Qed.

Lemma after_execute_wf M s r : wf M s -> M < 2 ^ 32 -> M <= bound -> wp (after_execute r) (safe (fun _ s' => wf M s')) s.
Proof.
  intros Hs HM HB. destruct r as [a|p]; simpl; [|done]. destruct (wf_self _ _ Hs) as (t & Ht & _).
  by eapply action_end_wf.
Qed.

(** The word of an access has an initial value. *)
Definition has_initial (s : St) (a : ModelAction) : Prop :=
  is_read a || is_write a = true -> based (obj_to_wr (mdl s)) (location a).

Lemma ensure_ready M s t a : exec_ready M s t a ->
  wp (if is_read a || is_write a then ensureInitialValue a else ret tt)
     (safe (fun _ s' => exec_ready M s' t a /\ has_initial s' a)) s.
Proof.
  intros Hr. pose proof (er_clock _ _ _ _ Hr) as HM. unfold has_initial.
  destruct (is_read a || is_write a) eqn:Erw; [|done].
  eapply wp_mono; [|apply (ensureInitialValue_wf M); [apply Hr|lia|apply (er_ok _ _ _ _ Hr), Erw]].
  intros [x s'|e s']; simpl; [|done]. intros (Hs' & [St1 St2 St3 St4] & Hb).
  split; [|done]. destruct Hr as [R1 R2 [R3 R4 R5] R6 [O1 O2 O3 O4 O5 O6 O7]].
  constructor; [done|done| |done|].
  - constructor; [unfold is_active in *; by rewrite St1, St2|by rewrite St1, St2|done].
  - constructor; rewrite ?St1, ?St2, ?St3; try done. intros Hc. destruct (O6 Hc) as (K1 & K2 & K3 & K4).
    do 3 (split; [done|]). by apply St4.
Qed.

Lemma action_exec_wf M s t a : exec_ready M s t a -> M + 1 <= bound ->
  wp (action_exec a) (safe (fun _ s' => wf (M + 1) s')) s.
Proof.
  intros Hr HB. pose proof (er_clock _ _ _ _ Hr) as HM. unfold action_exec.
  eapply wp_safe_bind; [by apply (ensure_ready M s t)|]. intros [] s1 (Hr1 & Hb). wp_step. unfold wp at 1; simpl.
  set (a' := if bool_decide (act_type a = CACHE_CLFLUSHOPT) then set_earliest_effect (next_sequence_num (mdl s1)) a else a).
  assert (exec_ready M s1 t a') as Hr1'.
  { unfold a'. case_bool_decide; [|done]. destruct Hr1 as [R1 R2 R3 R4 [O1 O2 O3 O4 O5 O6 O7]]. by constructor; [..|constructor]. }
  assert (has_initial s1 a') as Hb' by (unfold a'; by case_bool_decide).
  eapply wp_safe_bind; [by eapply execute_safe|]. intros r s2 Hs2.
  apply after_execute_wf; [done|lia|done].
Qed.

(** The way of an action to the point before [execute]: the process may have
    crashed, the thread may give the processor away, or it goes on. *)
Lemma action_enters M s t a b (Q : result St outcome -> Prop) :
  wf M s -> M < 2 ^ 32 - 2 -> running s t -> action_ok s a -> M <= bound ->
  (forall s', wf M s' -> Q (Val (Wait PExec) s')) ->
  (forall e s', benign e /\ (e = Exit EXIT_SUCCESS -> wf bound s') -> Q (Stop e s')) ->
  (forall s1 t1, exec_ready M s1 t1 a -> wp (action_exec a) Q s1) ->
  wp (action a b) Q s.
Proof.
  intros Hs HM [Ha Ht Hc] Hok HB HQw HQe HQx. unfold action, assert_active. do 2 wp_step. unfold wp at 1; simpl.
  unfold is_active in Ha. rewrite Ha, Z.eqb_refl. unfold wp at 1; simpl. unfold self_pid, self_tid.
  wp_step. unfold wp at 1; simpl. wp_step. unfold wp at 1; simpl.
  destruct (is_crashed s (process_id (proc s))).
  { wp_step. unfold process_crash, self_pid. wp_step. unfold wp; simpl. apply HQe. split; [done|]. intros _.
    apply (wf_weaken M); [lia|]. by apply process_crash_wf. }
  wp_step. unfold wp at 1; simpl. wp_step. unfold wp at 1; simpl. unfold upd_thread. wp_step. unfold wp at 1; simpl.
  set (s1 := on_sched _ _).
  assert (wf M s1) as Hs1.
  { apply (upd_mild_wf M _ _ t); [by apply on_proc_wf|exact Ht|]. unfold mild. simpl. auto. }
  assert (running s1 (set_pending (Some a) t)) as Hr1.
  { constructor; [exact Ha| |done]. simpl. by rewrite lookupZ_update_at, decide_True, Ht. }
  assert (action_ok s1 a) as Hok1.
  { destruct Hok as [O1 O2 O3 O4 O5 O6 O7]. constructor; try done.
    - intros Hj. destruct (O5 Hj) as (u & Hu & Hp). simpl. rewrite lookupZ_update_at, Hu.
      case_decide; [by eexists|by exists u].
    - intros Hf. destruct (O7 Hf) as (Hterm & j & u & Hj & Hu & Hcu). split; [done|]. exists j, u. split; [done|].
      simpl. rewrite lookupZ_update_at, decide_False by done. done. }
  assert (wp (if b && negb (is_second_part_of_rmw a) then yield else ret false)
    (safe (fun (sw : bool) s' => wf M s' /\ (sw = false -> s' = s1))) s1) as Hy.
  { case_if; [|done]. eapply wp_mono; [|apply (yield_wf M s1 Hs1 (ru_active _ _ Hr1))].
    intros [sw s2|e s2] Hy; [|exact Hy]. destruct Hy as [Hy1 Hy2]. split; [done|]. intros ->. apply Hy2. }
  rewrite wp_bind. eapply wp_mono; [|exact Hy]. intros [sw s2|e s2] Hsw; [|by apply HQe].
  destruct Hsw as [Hs2 Hsw]. destruct sw; [by apply HQw|].
  rewrite (Hsw eq_refl) in *. eapply HQx. constructor; try done. exists a. done.
Qed.

Lemma action_wf M s t a b : wf M s -> M < 2 ^ 32 - 2 -> running s t -> action_ok s a -> M + 1 <= bound ->
  wp (action a b) (safe (fun _ s' => wf (M + 1) s')) s.
Proof.
  intros Hs HM Hr Hok HB. eapply action_enters; [done|done|done|done|lia| |done|].
  - intros s' Hs'. apply (wf_weaken M); [lia|done].
  - intros s1 t1 Hx. by eapply action_exec_wf.
Qed.

(** A thread is resumed where it waits. *)
Definition resumable (p : point) (a : ModelAction) : Prop :=
  match p with
  | PExec => True
  | PAfter => may_wait a = true
  | PLock => act_type a = ATOMIC_LOCK
  | PDead => False
  end.

Lemma resume_wf M s t p a : exec_ready M s t a -> resumable p a -> M + 1 <= bound ->
  wp (resume p a) (safe (fun _ s' => wf (M + 1) s')) s.
Proof.
  intros Hr Hp HB. pose proof (er_clock _ _ _ _ Hr) as HM. destruct p; simpl; [by eapply action_exec_wf| | |done].
  - assert (get_mutex a = inr (location a)) as Hg by (unfold get_mutex; by rewrite Hp).
    rewrite Hg. wp_step. unfold wp at 1; simpl. eapply wp_safe_bind; [apply (lock_loop_safe M s t); [done|done|]|].
    + unfold may_wait. by rewrite Hp.
    + intros r s1 Hs1. apply after_execute_wf; [done|lia|done].
  - eapply wp_mono; [|apply (action_end_wf M s a t); [apply Hr|lia|lia|apply (er_running _ _ _ _ Hr)]].
    intros [o s1|e s1]; simpl; [|done]. intros Hs1. eapply wf_weaken; [|exact Hs1]. lia.
Qed.

(** [process_shutdown]: the threads of the process end and their buffers drain. *)
Lemma shutdown_thread_wf M s i : wf_at i M s -> M < 2 ^ 32 - 1 -> M <= bound ->
  wp (shutdown_thread i) (safe (fun _ s' => wf M s' /\ thread_count s' = thread_count s)) s.
Proof.
  intros [Hs Hi] HM HB. unfold shutdown_thread. eapply wp_safe_bind; [by apply (get_thread_wf M)|].
  intros t s' (-> & Ht & _). unfold self_pid. wp_step. unfold wp at 1; simpl. case_if; [|done].
  eapply (wp_safe_bind _ _ (fun _ s' => wf M s' /\ thread_count s' = thread_count s)).
  - destruct (thread_is_completed t) eqn:Ec; [done|]. unfold upd_thread, wp. simpl. split.
    + apply (upd_mild_wf M s i t); [done|done|]. unfold mild. simpl. unfold thread_is_completed in Ec.
      by destruct (thr_state t).
    + unfold thread_count. simpl. unfold lenZ. by rewrite length_update_at.
  - intros [] s1 [Hs1 Hc]. eapply wp_mono; [|apply (empty_buffers_wf i M); [split; [done|by rewrite Hc]|done|done]].
    intros [[] s2|e s2]; simpl; [|done]. intros ([Hs2 _] & St & _). split; [done|].
    by rewrite (mem_step_count _ _ St).
Qed.

Lemma process_shutdown_wf M s : wf M s -> M < 2 ^ 32 - 1 -> M <= bound ->
  wp process_shutdown (safe (fun _ s' => wf M s')) s.
Proof.
  intros Hs HM HB. unfold process_shutdown. wp_step. unfold wp at 1; simpl.
  assert (Forall (fun i => 0 <= i < thread_count s) (seqZ 0 (lenZ (threads (sched s))))) as Hl.
  { rewrite Forall_forall. intros i Hi%elem_of_seqZ. unfold thread_count. lia. }
  revert Hl Hs. generalize (seqZ 0 (lenZ (threads (sched s)))) as l. intros l. revert s.
  induction l as [|i l IH]; intros s Hl Hs; simpl; [done|]. apply Forall_cons in Hl as [Hi Hl].
  eapply wp_safe_bind; [by apply (shutdown_thread_wf M)|]. intros [] s1 [Hs1 Hc]. apply IH; [by rewrite Hc|done].
Qed.
End Action.

End Actions.

(** ** The initial state *)

(** The process [pid] of [pc], at the start of an execution. *)
Definition initial (pc pid seed : Z) : St :=
  mkSt (Scheduler_new pc) (Model_new pc) ∅ ∅ 1 ∅ (Process_init pid seed).

Lemma init_table pc p : 0 <= p < pc -> lookupZ (CacheLineStore_init pc) p = Some (Some ∅).
Proof.
  intros Hp. unfold CacheLineStore_init, lookupZ. rewrite (proj2 (Z.ltb_ge _ _)) by lia.
  rewrite lookup_app_l by (rewrite length_replicate; lia). apply lookup_replicate_2. lia.
Qed.

Lemma init_window pc p a : window_of (CacheLineStore_init pc) p a = Range_new.
Proof.
  unfold window_of, lookupZ. case_if; [done|]. unfold CacheLineStore_init. rewrite lookup_app.
  destruct (replicate (Z.to_nat pc) (Some ∅) !! Z.to_nat p) as [t|] eqn:E.
  - apply lookup_replicate in E as [-> _]. done.
  - destruct (replicate (Z.to_nat pc) (@None (gmap Z Range)) !! _) as [t|] eqn:E2; [|done].
    apply lookup_replicate in E2 as [-> _]. done.
Qed.

Lemma main_thread pc i : 0 <= i < pc -> lookupZ (Thread_main <$> seqZ 0 pc) i = Some (Thread_main i).
Proof.
  intros Hi. unfold lookupZ. rewrite (proj2 (Z.ltb_ge _ _)) by lia. rewrite list_lookup_fmap, lookup_seqZ_lt by lia.
  simpl. do 2 f_equal. lia.
Qed.

Lemma main_thread_inv pc i t : lookupZ (Thread_main <$> seqZ 0 pc) i = Some t -> 0 <= i < pc /\ t = Thread_main i.
Proof.
  intros Ht. apply lookupZ_Some in Ht as Hi. rewrite length_fmap, length_seqZ in Hi.
  rewrite main_thread in Ht by lia. injection Ht as <-. split; [lia|done].
Qed.

Lemma wf_initial pc pid seed : 0 <= pid < pc -> wf 0 (initial pc pid seed).
Proof.
  intros Hp. assert (lenZ (Thread_main <$> seqZ 0 pc) = pc) as Hlen
    by (unfold lenZ; rewrite length_fmap, length_seqZ; lia).
  constructor; unfold thread_count; simpl; rewrite ?Hlen.
  - constructor; [unfold sched_ok; simpl; rewrite Hlen; lia|]. simpl.
    intros i t [Hi ->]%main_thread_inv. simpl. lia.
  - constructor; simpl; try done.
    + intros p Hpp. eexists. by apply init_table.
    + intros p ca. by rewrite init_window.
    + rewrite map_size_empty. lia.
  - intros i t [Hi ->]%main_thread_inv. by split.
  - constructor; [done|]. intros i t m [Hi ->]%main_thread_inv _ Hin. simpl in Hin. set_solver.
  - exists (Thread_main pid). split; [by apply main_thread|done].
  - unfold clock. simpl. assert (forall l, buffered (Thread_main <$> l) = 0) as ->; [|lia].
    intros l. unfold buffered. by induction l.
  - exact I.
Qed.

(** ** A state to demonstrate with *)

(** Process 1 stored 7 and 9 at address 64 and crashed; the clock is at 3. *)
Definition demo_crashed : St :=
  on_mdl (fun m => with_crashes {[1 := 3]} (with_wr {[64 := demo_stores]} (with_next_seq 3 m))) (initial 2 0 0).

Lemma demo_list_ok : list_ok 2 64 3 demo_stores.
Proof.
  constructor.
  - repeat apply Forall_cons_2; [..|apply Forall_nil_2].
    all: constructor; [simpl; lia|split; [split; [by right; right; right|done]|simpl; lia]|done|simpl; lia|done].
  - repeat constructor; vm_compute; congruence.
  - intros _. left. done.
Qed.

Lemma wf_demo : wf 3 demo_crashed.
Proof.
  apply (wf_on_mdl 0 3 (initial 2 0 0)); [by apply wf_initial|exact I| | |simpl; lia].
  - destruct (wf_model _ _ (wf_initial 2 0 0 ltac:(lia))) as [H1 H2 H3 H4 H5]. constructor; try done.
    intros w l Hl. simpl in Hl. apply lookup_singleton_Some in Hl as [<- <-]. apply demo_list_ok.
  - intros a (l & Hl & _). simpl in Hl. by rewrite lookup_empty in Hl.
Qed.

Lemma demo_running : running demo_crashed (Thread_main 0).
Proof. by constructor. Qed.

(** ** Properties *)

(** C16: No action fails: from a state that satisfies the invariant, before the
    clock runs out, [Model::action] of the running thread on an action that meets
    [action_ok] ends in a state that satisfies the invariant, whichever decisions
    are taken and whether or not the thread yields; the only other ends are the
    exits of a crash and of a deadlock and the abort of a self-deadlock.  No
    assertion fails, no pointer is invalid, no loop runs on.  [action_ok] asks for
    an action other than [ATOMIC_INIT] and [ATOMIC_TIMEDWAIT], an aligned access, a
    mutex that exists, a join of a thread of the own process, a place of a new
    thread's number that is an accessed word, and that the finish of a thread is
    not that of the last one; without it the assertions can fail ([Findings]). *)
Theorem action_safe `{Rand} M s t a y :
  wf M s -> M < 2 ^ 32 - 2 -> running s t -> action_ok s a ->
  wp (action a y) (safe (B0 := M + 1) (fun _ s' => wf (M + 1) s')) s.
Proof. intros. by eapply (action_wf (B0 := M + 1)). Qed.

Lemma demo_load_ok s : thread_id (proc s) = 0 -> action_ok s demo_read.
Proof.
  intros Hs. constructor; try done.
  - intros _. split; [split; [by right; right; right|done]|simpl; lia].
  - intros [?|?]; done.
Qed.

Lemma action_safe_witness :
  wp (action (H := counter_rand) demo_read false) (safe (B0 := 4) (fun _ s' => wf 4 s')) demo_crashed.
Proof. exact (action_safe (H := counter_rand) 3 _ _ _ false wf_demo eq_refl demo_running (demo_load_ok demo_crashed eq_refl)). Defined.

(** Resuming is safe too: a thread whose action waited before [execute], in the
    loop of a lock or after [execute] goes on without a failure and keeps the
    invariant, whatever the other threads did meanwhile within it. *)
Theorem resume_safe `{Rand} M s t p a :
  exec_ready M s t a -> resumable p a ->
  wp (resume p a) (safe (B0 := M + 1) (fun _ s' => wf (M + 1) s')) s.
Proof. intros. by eapply (resume_wf (B0 := M + 1)). Qed.

Lemma resume_safe_witness :
  let s := on_sched (fun c => with_threads (update_at 0 (set_pending (Some demo_read)) (threads c)) c) demo_crashed in
  wp (resume (H := counter_rand) PExec demo_read) (safe (B0 := 4) (fun _ s' => wf 4 s')) s.
Proof.
  cbn zeta. refine (resume_safe (H := counter_rand) 3 _ (set_pending (Some demo_read) (Thread_main 0)) PExec demo_read _ I).
  constructor; [|reflexivity|by constructor|exists demo_read; by split|].
  - apply (upd_mild_wf 3 _ _ (Thread_main 0)); [apply wf_demo|reflexivity|]. unfold mild. simpl. auto.
  - by apply demo_load_ok.
Defined.

(** Thread [i] holds the mutex [m] and has not crashed. *)
Definition holds_mutex (s : St) (i m : Z) : Prop :=
  exists t, lookupZ (threads (sched s)) i = Some t /\ thr_state t <> THREAD_CRASHED /\ m ∈ owned_mutexes t.

(** A thread that holds a mutex is its owner. *)
Lemma holder_owns M s i m : wf M s -> holds_mutex s i m -> exists mx, mutexes s !! m = Some mx /\ owner mx = Some i.
Proof. intros Hs (t & Ht & Hct & Hmt). by eapply (xw_owned _ _ (wf_mutexes _ _ Hs)). Qed.
Lemma owner_holds M s i t m mx : wf M s -> mutexes s !! m = Some mx -> owner mx = Some i ->
  lookupZ (threads (sched s)) i = Some t -> thr_state t <> THREAD_CRASHED -> holds_mutex s i m.
Proof.
  intros Hs Hm Ho Ht Hc. destruct (xw_owner _ _ (wf_mutexes _ _ Hs) m mx i Hm Ho) as (u & Hu & Hin).
  rewrite Ht in Hu. injection Hu as <-. exists t. auto.
Qed.

(** Thread 0 owns mutex 5; process [pid] runs. *)
Definition demo_locked (pid : Z) : St :=
  on_sched (with_active pid) (on_mutexes (fun _ => {[5 := mkMutex 0 (Some 0) 0]})
    (on_sched (with_threads (update_at 0 (set_owned {[5]}) (Thread_main <$> seqZ 0 2))) (initial 2 pid 0))).

Lemma wf_locked pid : 0 <= pid < 2 -> wf 0 (demo_locked pid).
Proof.
  intros Hpid. apply active_wf; [|exact Hpid].
  apply (owned_table_wf 0 (initial 2 pid 0) (fun i _ => if decide (i = 0) then {[5]} else ∅)).
  - by apply wf_initial.
  - eapply update_owned; [by apply main_thread|done|]. intros j u Hj [_ ->]%main_thread_inv. by rewrite decide_False.
  - constructor.
    + intros m mx o Hm Ho. apply lookup_singleton_Some in Hm as [<- <-]. injection Ho as <-.
      eexists. split; [reflexivity|]. intros _. simpl. set_solver.
    + intros i t m Ht _ Hin. rewrite lookupZ_update_at in Ht. case_decide as Hi.
      * subst i. injection Ht as <-. simpl in Hin. apply elem_of_singleton in Hin as ->. eexists. by split.
      * apply main_thread_inv in Ht as [_ ->]. simpl in Hin. set_solver.
Qed.

(** An action of a lock on mutex 5 by the thread that runs. *)
Definition demo_lock (pid : Z) (ty : action_type) : ModelAction := ModelAction_new pid ty 5 0 memory_order_seq_cst 1 "demo".
Definition demo_locking (pid : Z) (ty : action_type) : St :=
  on_sched (fun c => with_threads (update_at pid (set_pending (Some (demo_lock pid ty))) (threads c)) c) (demo_locked pid).

Lemma demo_locking_ready pid ty : pid = 0 \/ pid = 1 -> ty = ATOMIC_LOCK \/ ty = ATOMIC_TRYLOCK \/ ty = ATOMIC_UNLOCK ->
  exists t, exec_ready 0 (demo_locking pid ty) t (demo_lock pid ty).
Proof.
  intros Hp Hty. assert (exists t, lookupZ (threads (sched (demo_locked pid))) pid = Some t /\ thr_state t <> THREAD_CRASHED)
    as (t & Ht & Hc) by (destruct Hp as [-> | ->]; eexists; split; (reflexivity || discriminate)).
  exists (set_pending (Some (demo_lock pid ty)) t). constructor; [|done| |by exists (demo_lock pid ty)|].
  - apply (upd_mild_wf 0 _ _ t); [apply wf_locked; lia|exact Ht|]. unfold mild. simpl. auto.
  - constructor; [done| |done]. simpl in *. rewrite lookupZ_update_at, decide_True by done. by rewrite Ht.
  - constructor; [done|..]; simpl; destruct Hty as [-> | [-> | ->]]; try done; try (by intros [?|?]); try (by intros m [= <-]).
Qed.
