(* ===== verification/Frame.v ===== *)
(** * Frame: what an action leaves alone

    A property [I] that the elementary steps of the checker keep is kept by
    whole actions: [frame] lists the steps (a change of the model, of a mutex, of
    the buffers or the owned set of a thread, a wake-up, a crash), and the
    lemmas of this file go through the code of [ModelCore] and [Executor].  The
    operations that hand over the processor or create a thread are hypotheses
    of the lemmas, and the process that ends by a crash satisfies [E].  A frame
    may be restricted to the wake-ups of the objects in [W]; a
    [base_frame] leaves open whether [E] allows deadlocks and relocks. *)
From S2P Require Import Prelude Choice Action ReadFrom CacheLine ThreadMemory State Scheduler ModelCore Executor Wf.

(** From [I], [m] returns with [Q] or stops with [E]; it keeps [I] when [Q] is [I]. *)
Definition moves {S A} (I : S -> Prop) (E : stop -> S -> Prop) (m : M S A) (Q : A -> S -> Prop) : Prop :=
  forall s, I s -> wp m (fun r => match r with Val a s' => Q a s' | Stop e s' => E e s' end) s.
Definition keeps {S A} (I : S -> Prop) (E : stop -> S -> Prop) (m : M S A) : Prop := moves I E m (fun _ => I).

Section Keeps.
Context {S : Type} (I : S -> Prop) (E : stop -> S -> Prop).

Lemma moves_bind {A B} (m : M S A) (f : A -> M S B) Q R :
  moves I E m R -> (forall a s, R a s -> wp (f a) (fun r => match r with Val b s' => Q b s' | Stop e s' => E e s' end) s) ->
  moves I E (bind m f) Q.
Proof.
  intros Hm Hf s Hs. rewrite wp_bind. eapply wp_mono; [|by apply Hm].
  intros [a s'|e s'] Hr; [by apply Hf|exact Hr].
Qed.
Lemma moves_after {A B} (m : M S A) (f : A -> M S B) Q :
  keeps I E m -> (forall a, moves I E (f a) Q) -> moves I E (bind m f) Q.
Proof. intros Hm Hf. eapply moves_bind; [exact Hm|]. intros a s Hs. by apply Hf. Qed.
Lemma keeps_bind {A B} (m : M S A) (f : A -> M S B) :
  keeps I E m -> (forall a, keeps I E (f a)) -> keeps I E (bind m f).
Proof. apply moves_after. Qed.
Lemma moves_ret {A} (a : A) (Q : A -> S -> Prop) : (forall s, I s -> Q a s) -> moves I E (ret a) Q.
Proof. intros HQ s Hs. by apply HQ. Qed.
Lemma keeps_ret {A} (a : A) : keeps I E (ret a).
Proof. by intros s Hs. Qed.
Lemma keeps_get : keeps I E get.
Proof. by intros s Hs. Qed.
Lemma keeps_gets {A} (g : S -> A) : keeps I E (gets g).
Proof. by intros s Hs. Qed.
Lemma keeps_modify g : (forall s, I s -> I (g s)) -> keeps I E (modify g).
Proof. intros Hg s Hs. by apply Hg. Qed.
Lemma keeps_choose n : keeps I E (choose n).
Proof. intros s Hs c Hc. exact Hs. Qed.
Lemma keeps_halt {A} e : (forall s, I s -> E e s) -> keeps I E (halt (A := A) e).
Proof. intros He s Hs. by apply He. Qed.
End Keeps.

Lemma keeps_preserves {S A} I (m : M S A) : keeps I (fun _ => I) m <-> preserves I m.
Proof. unfold keeps, preserves, ends. done. Qed.

(** What the steps of the model may change: the location of the CXL memory, the
    mutexes and the crashed processes stay, words keep their initial value. *)
Definition model_rel (m m' : Model) : Prop :=
  cxl_mapping m' = cxl_mapping m /\ mutex_map m' = mutex_map m /\ crashes m' = crashes m /\
  wr_grows (obj_to_wr m) (obj_to_wr m') /\ CacheLineStore_clear (obj_to_cl m') = CacheLineStore_clear (obj_to_cl m).

(** A change of a thread's buffers, mutexes or return value. *)
Definition quiet (f : Thread -> Thread) : Prop := forall t,
  thr_pid (f t) = thr_pid t /\ thr_state (f t) = thr_state t /\ is_main (f t) = is_main t /\ pending (f t) = pending t.

Definition same_process (p p' : Process) : Prop :=
  process_id p' = process_id p /\ thread_id p' = thread_id p /\ backtrack p' = backtrack p.

Definition on_thread (tid : Z) (f : Thread -> Thread) (s : St) : St :=
  on_sched (fun c => with_threads (update_at tid f (threads c)) c) s.

(** The stops that are neither an exit nor the abort of a relock. *)
Definition mishap (e : stop) : Prop := match e with Exit _ | Abort => False | _ => True end.

(** A mutex that is free, or whose owner has crashed. *)
Definition takeable (s : St) (m : Z) : Prop := forall mx o, mutexes s !! m = Some mx -> owner mx = Some o ->
  exists t, lookupZ (threads (sched s)) o = Some t /\ thr_state t = THREAD_CRASHED.
(** What may happen to a mutex: its owner releases it, which wakes its waiters, it is
    taken, or it keeps its owner. *)
Definition mutex_step (W : object -> Prop) (s : St) (m : Z) (f : Mutex -> Mutex) : Prop :=
  W (OMutex m) \/ takeable s m \/ forall mx, owner (f mx) = owner mx.

Record base_frame (W : object -> Prop) (I : St -> Prop) (E : stop -> St -> Prop) : Prop := mkBaseFrame {
  fr_mishap : forall e s, mishap e -> I s -> E e s;
  fr_mdl : forall f s, model_rel (mdl s) (f (mdl s)) -> I s -> I (on_mdl f s);
  fr_thread : forall tid f s, quiet f -> I s -> I (on_thread tid f s);
  fr_wake : forall v s, W v -> I s -> I (on_sched (wake_all_threads_waiting_on v) s);
  fr_wake_one : forall tid v s, W v -> I s -> I (on_sched (wake_thread_waiting_on tid v) s);
  fr_mutexes : forall m f s, mutex_step W s m f -> I s -> I (on_mutexes (alter f m) s);
  fr_proc : forall f s, same_process (proc s) (f (proc s)) -> I s -> I (on_proc f s);
  fr_crashes : forall c s, crash_allowed s = true -> (size c <= S (size (crashes (mdl s))))%nat ->
    I s -> I (on_mdl (with_crashes c) s);
  fr_crash : forall s, I s -> E (Exit EXIT_SUCCESS) (on_sched (process_crash_sched (process_id (proc s))) s)
}.
(** A deadlock and a relock may also end it. *)
Record frame_on (W : object -> Prop) (I : St -> Prop) (E : stop -> St -> Prop) : Prop := mkFrame {
  fr_base :> base_frame W I E;
  fr_stop : forall e s, e <> Exit EXIT_SUCCESS -> I s -> E e s
}.
Lemma make_frame (W : object -> Prop) (I : St -> Prop) (E : stop -> St -> Prop) :
  (forall e s, e <> Exit EXIT_SUCCESS -> I s -> E e s) ->
  (forall f s, model_rel (mdl s) (f (mdl s)) -> I s -> I (on_mdl f s)) ->
  (forall tid f s, quiet f -> I s -> I (on_thread tid f s)) ->
  (forall v s, W v -> I s -> I (on_sched (wake_all_threads_waiting_on v) s)) ->
  (forall tid v s, W v -> I s -> I (on_sched (wake_thread_waiting_on tid v) s)) ->
  (forall m f s, I s -> I (on_mutexes (alter f m) s)) ->
  (forall f s, same_process (proc s) (f (proc s)) -> I s -> I (on_proc f s)) ->
  (forall c s, crash_allowed s = true -> (size c <= S (size (crashes (mdl s))))%nat ->
    I s -> I (on_mdl (with_crashes c) s)) ->
  (forall s, I s -> E (Exit EXIT_SUCCESS) (on_sched (process_crash_sched (process_id (proc s))) s)) ->
  frame_on W I E.
Proof. intros Hstop. constructor; [constructor|]; try done; [intros e s He; apply Hstop; by destruct e|by auto]. Qed.
Definition frame : (St -> Prop) -> (stop -> St -> Prop) -> Prop := frame_on (fun _ => True).

Create HintDb keeps discriminated.
#[export] Hint Resolve keeps_ret keeps_get keeps_gets keeps_choose : keeps.

(** Split a computation into its steps and close them with the [keeps] hints. *)
Ltac keeps_steps :=
  repeat first
    [ progress intros
    | solve [eauto with keeps]
    | apply keeps_bind
    | match goal with |- keeps _ _ (if ?b then _ else _) => destruct b end
    | match goal with |- keeps _ _ (match ?o with _ => _ end) => destruct o end ].

Section Frame.
Context `{Rand} (W : object -> Prop) (I : St -> Prop) (E : stop -> St -> Prop).
Hypothesis F : base_frame W I E.

Lemma keeps_stop {A} e : mishap e -> keeps I E (halt (A := A) e).
Proof. intros He. apply keeps_halt. intros s. by apply (fr_mishap _ _ _ F). Qed.
Lemma keeps_assert b msg : keeps I E (massert b msg).
Proof. unfold massert. destruct b; [apply keeps_ret|by apply keeps_stop]. Qed.
Lemma keeps_some {A} (o : option A) e : mishap e -> keeps I E (from_some o e).
Proof. intros He. destruct o; [apply keeps_ret|by apply keeps_stop]. Qed.
Lemma keeps_lift {A} (m : err A) : (forall e, m = inl e -> mishap e) -> keeps I E (lift m).
Proof. intros He. destruct m; [apply keeps_stop; by apply He|apply keeps_ret]. Qed.
Lemma keeps_mdl f : (forall m, model_rel m (f m)) -> keeps I E (modify (on_mdl f)).
Proof. intros Hf. apply keeps_modify. intros s. by apply (fr_mdl _ _ _ F). Qed.
Lemma keeps_thread tid f : quiet f -> keeps I E (upd_thread tid f).
Proof. intros Hf. apply keeps_modify. intros s. by apply (fr_thread _ _ _ F). Qed.
Lemma keeps_mutex m f : (forall mx, owner (f mx) = owner mx) -> keeps I E (upd_mutex m f).
Proof. intros Hf. apply keeps_modify. intros s. apply (fr_mutexes _ _ _ F). by do 2 right. Qed.
Lemma keeps_proc f : (forall p, same_process p (f p)) -> keeps I E (modify (on_proc f)).
Proof. intros Hf. apply keeps_modify. intros s. by apply (fr_proc _ _ _ F). Qed.

Lemma wr_grows_refl wr : wr_grows wr wr.
Proof. by intros a. Qed.
Local Hint Resolve wr_grows_refl : core.
Local Hint Resolve keeps_assert keeps_some keeps_lift keeps_mdl keeps_thread keeps_mutex keeps_proc keeps_stop : keeps.
Local Hint Extern 1 (model_rel _ _) => by repeat split : keeps.
Local Hint Extern 1 (quiet _) => by intros ? : keeps.
Local Hint Extern 1 (same_process _ _) => by repeat split : keeps.
Local Hint Extern 1 (mishap _) => done : keeps.
Ltac fr := keeps_steps; try (unfold self_pid, self_tid, decision_point_m, get_thread, get_mutex_obj, set_errno; keeps_steps).

Lemma keeps_storelist a : keeps I E (get_storelist a).
Proof.
  intros s Hs. unfold get_storelist. wp_step. unfold wp at 1; simpl. destruct (_ !! _) as [l|] eqn:El; [done|].
  wp_step. unfold wp; simpl. apply (fr_mdl _ _ _ F); [|done]. do 3 (split; [done|]). split; [|done].
  intros b (k & Hk & Hne). exists k. split; [|done]. simpl. rewrite lookup_insert_ne; [done|congruence].
Qed.
Lemma keeps_set_storelist a l : l <> [] -> keeps I E (set_storelist a l).
Proof.
  intros Hl. apply keeps_mdl. intros m. do 3 (split; [done|]). split; [|done]. intros b (k & Hk & Hne). unfold based. simpl.
  destruct (decide (alignAddress a = alignAddress b)) as [->|].
  - exists l. by rewrite lookup_insert_eq.
  - exists k. by rewrite lookup_insert_ne.
Qed.
Lemma keeps_next_seq : keeps I E get_next_sequence_num.
Proof. unfold get_next_sequence_num. fr. Qed.
Local Hint Resolve keeps_storelist keeps_next_seq : keeps.
Lemma keeps_evict_store a : keeps I E (Model_evict_store a).
Proof. unfold Model_evict_store. fr. apply keeps_set_storelist. by intros [_ ?]%app_nil. Qed.
Lemma table_error p (c : CacheLineStore) e : get_table p c = inl e -> mishap e.
Proof.
  unfold get_table, eassert. destruct (p <? lenZ c); simpl; [|by intros [= <-]].
  destruct (lookupZ c p) as [[t|]|]; by intros [= <-].
Qed.
(** A new store of windows, from a computation that keeps the tables. *)
Lemma keeps_tables s c : CacheLineStore_clear c = CacheLineStore_clear (obj_to_cl (mdl s)) -> I s -> I (on_mdl (with_cl c) s).
Proof. intros Hc. by apply (fr_mdl _ _ _ F). Qed.
Lemma keeps_cacheline p a : keeps I E (cacheline p a).
Proof.
  intros s Hs. unfold cacheline. wp_step. unfold wp at 1; simpl. wp_step.
  destruct (get_cacheline p a (obj_to_cl (mdl s))) as [e|[w c]] eqn:Eg; unfold wp; simpl.
  - apply (fr_mishap _ _ _ F); [|done]. unfold get_cacheline in Eg.
    destruct (get_table _ _) as [e'|t] eqn:Et; simpl in Eg; [injection Eg as <-; by eapply table_error|by case_match].
  - apply keeps_tables; [by eapply get_cacheline_clear|done].
Qed.
Lemma keeps_assign p a w : keeps I E (assign_cacheline p a w).
Proof.
  intros s Hs. unfold assign_cacheline. wp_step. unfold wp at 1; simpl. wp_step.
  destruct (set_cacheline p a w (obj_to_cl (mdl s))) as [e|c] eqn:Eg; unfold wp; simpl.
  - apply (fr_mishap _ _ _ F); [|done]. unfold set_cacheline in Eg.
    destruct (get_table _ _) as [e'|t] eqn:Et; simpl in Eg; [injection Eg as <-; by eapply table_error|done].
  - apply keeps_tables; [by eapply set_cacheline_clear|done].
Qed.
Local Hint Resolve keeps_evict_store keeps_cacheline keeps_assign : keeps.

(** The question whether to crash, and the crash, where one is allowed. *)
Lemma ask_keeps s : crash_allowed s = true -> I s ->
  wp ask_crash (fun r => match r with Val _ s' => I s' /\ crash_allowed s' = true | Stop e s' => E e s' end) s.
Proof.
  intros Ha Hs. unfold ask_crash. wp_step. unfold wp at 1; simpl. wp_step. unfold wp at 1; simpl.
  set (s1 := on_mdl _ s). assert (I s1 /\ crash_allowed s1 = true) as H1.
  { split; [|done]. apply (fr_mdl _ _ _ F); [by repeat split|done]. }
  case_if; [exact H1|]. wp_step. unfold wp; simpl. intros c _. exact H1.
Qed.
Lemma emplace_keeps p s : crash_allowed s = true -> I s ->
  wp (emplace_crash p) (fun r => match r with Val _ s' => I s' | Stop e s' => E e s' end) s.
Proof.
  intros Ha Hs. unfold emplace_crash, wp. simpl. unfold on_mdl. destruct (crashes (mdl s) !! p) eqn:Ec.
  - by destruct s.
  - apply (fr_crashes _ _ _ F _ s Ha); [|done]. rewrite map_size_insert, Ec. simpl. lia.
Qed.
Lemma keeps_insert_crash p : keeps I E (insert_crash p).
Proof.
  intros s Hs. unfold insert_crash, should_crash. wp_step. wp_step. unfold wp at 1; simpl.
  assert (forall b s1, I s1 -> (b = true -> crash_allowed s1 = true) -> wp (if negb b then ret tt else
    (let! me := self_pid in
     if p =? me then
       modify (on_mdl (fun m => with_crashes (<[me := next_sequence_num m]> (crashes m)) m)) ;;;
       process_crash ;;; halt (Exit EXIT_SUCCESS)
     else emplace_crash p)) (fun r => match r with Val _ s' => I s' | Stop e s' => E e s' end) s1) as Hk.
  { intros b s1 H1 Hb. destruct b; simpl; [|done]. unfold self_pid. wp_step. unfold wp at 1; simpl.
    case_if; [|by apply emplace_keeps; [apply Hb|]]. wp_step. unfold wp at 1; simpl.
    unfold process_crash, self_pid. wp_step. wp_step. unfold wp at 1; simpl. unfold wp; simpl. unfold wp; simpl.
    set (s2 := on_mdl (fun m => with_crashes (<[process_id (proc s1):=next_sequence_num m]> (crashes m)) m) s1).
    apply (fr_crash _ _ _ F s2). apply (fr_crashes _ _ _ F _ s1 (Hb eq_refl)); [|done].
    rewrite map_size_insert. case_match; simpl; lia. }
  destruct (crash_allowed s) eqn:Ea; [|by apply Hk].
  eapply wp_mono; [|by apply ask_keeps]. intros [b s1|e s1]; [|done]. intros [H1 H2]. by apply Hk.
Qed.
Local Hint Resolve keeps_insert_crash : keeps.
Lemma keeps_flush_windows l a n m : keeps I E (flush_windows l a n m).
Proof. revert m. induction l as [|i l IH]; intros m; simpl; fr. Qed.
Lemma keeps_pid a : keeps I E (get_process_id a).
Proof. unfold get_process_id. fr. Qed.
Local Hint Resolve keeps_pid keeps_flush_windows : keeps.
Lemma keeps_crash_writer l m : keeps I E (crash_writer l m).
Proof. induction l as [|w l IH]; simpl; fr. Qed.
Local Hint Resolve keeps_crash_writer : keeps.
Lemma keeps_evict_clflush a : keeps I E (Model_evict_clflush a).
Proof. unfold Model_evict_clflush. fr. Qed.
Local Hint Resolve keeps_evict_clflush : keeps.

(** ** Buffers *)
Lemma keeps_upd_tm i f : keeps I E (upd_tm (H := thread_evictor i) f).
Proof. unfold upd_tm. apply keeps_modify. intros s Hs. by apply (fr_thread _ _ _ F). Qed.
Local Hint Resolve keeps_upd_tm : keeps.
Lemma keeps_buffer i a : keeps I E (buffer_store i a).
Proof. unfold buffer_store, add_to_store_buffer. fr. Qed.
Lemma keeps_flush_loop i n : keeps I E (empty_flush_loop (H := thread_evictor i) n).
Proof. induction n as [|n IH]; simpl; fr. Qed.
Local Hint Resolve keeps_flush_loop : keeps.
Lemma keeps_flush_buffer i : keeps I E (empty_flush_buffer (H := thread_evictor i)).
Proof. unfold empty_flush_buffer. fr. Qed.
Local Hint Resolve keeps_flush_buffer : keeps.
Lemma keeps_pop i : keeps I E (pop_from_store_buffer (H := thread_evictor i)).
Proof. unfold pop_from_store_buffer. fr. Qed.
Local Hint Resolve keeps_pop : keeps.
Lemma keeps_store_loop i n : keeps I E (empty_store_loop (H := thread_evictor i) n).
Proof. induction n as [|n IH]; simpl; fr. Qed.
Local Hint Resolve keeps_store_loop : keeps.
Lemma keeps_empty i : keeps I E (empty_buffers i).
Proof. unfold empty_buffers, empty_store_buffer. fr. Qed.
Local Hint Resolve keeps_buffer keeps_empty : keeps.

(** ** Loads *)
Lemma keeps_running_store r w ca rp wp0 rf n : keeps I E (running_store r w ca rp wp0 rf n).
Proof.
  unfold running_store. destruct (get_overlaps_save_old w r rf n) as [[[old|] rf'] n']; [|fr]. case_if; [|fr].
  apply keeps_bind; [fr|]. intros cl s Hs. wp_step. unfold wp at 1; simpl.
  assert (forall b s1, I s1 -> (b = true -> crash_allowed s1 = true) ->
    wp (if b then emplace_crash wp0 ;;; ret (old, n) else
          (if range_begin cl <? Action.seq_num w then assign_cacheline wp0 ca (setBegin (Action.seq_num w) cl) else ret tt) ;;;
          ret (rf', n')) (fun r => match r with Val _ s' => I s' | Stop e s' => E e s' end) s1) as Hk.
  { intros b s1 K1 Hb. destruct b.
    - wp_step. eapply wp_mono; [|apply emplace_keeps; [by apply Hb|done]]. by intros [x s2|e s2].
    - clear Hb. revert s1 K1. change (keeps I E ((if range_begin cl <? Action.seq_num w
        then assign_cacheline wp0 ca (setBegin (Action.seq_num w) cl) else ret tt) ;;; ret (rf', n'))). fr. }
  wp_step. destruct (crash_allowed s && _ && _) eqn:Ea; [|by apply Hk]. bools.
  eapply wp_mono; [|by apply ask_keeps]. intros [b s1|e s1]; [|done]. intros [K1 K2]. by apply Hk.
Qed.
Lemma keeps_crashed_store r w l ca wp0 rf n : keeps I E (crashed_store r w l ca wp0 rf n).
Proof. unfold crashed_store. fr. Qed.
Local Hint Resolve keeps_running_store keeps_crashed_store : keeps.
Lemma keeps_read_step r w l ca rp rf n : keeps I E (read_step r w l ca rp rf n).
Proof. unfold read_step. fr. Qed.
Local Hint Resolve keeps_read_step : keeps.
Lemma keeps_read_loop l r ca rp rf n : keeps I E (read_loop l r ca rp rf n).
Proof. revert rf n. induction l as [|w l IH]; intros rf n; simpl; fr. Qed.
Local Hint Resolve keeps_read_loop : keeps.
Lemma keeps_build r : keeps I E (build_read_from r).
Proof. unfold build_read_from. fr. Qed.
Lemma keeps_initial a : keeps I E (ensureInitialValue a).
Proof. unfold ensureInitialValue. fr. by apply keeps_set_storelist. Qed.
Local Hint Resolve keeps_build keeps_initial : keeps.

(** ** Mutexes, and the actions *)
Lemma takeable_thread s m o f : quiet f -> takeable s m -> takeable (on_thread o f s) m.
Proof.
  intros Hf Ht mx i Hm Ho. destruct (Ht mx i Hm Ho) as (t & Hi & Hc). simpl. rewrite lookupZ_update_at, Hi.
  case_decide; eexists; (split; [reflexivity|]); [|done]. by rewrite (proj1 (proj2 (Hf t))).
Qed.
(** A mutex that may be released or taken gets its new owner. *)
Lemma set_owner_keeps m o s : W (OMutex m) \/ takeable s m -> I s ->
  wp (Mutex_set_owner m o) (fun r => match r with Val _ s' => I s' | Stop e s' => E e s' end) s.
Proof.
  intros Hm Hs. set (I' := fun s => I s /\ (W (OMutex m) \/ takeable s m)).
  assert (forall A e, mishap e -> keeps I' E (halt (A := A) e)) as Hstop.
  { intros A e He. apply keeps_halt. intros s1 [Hs1 _]. by apply (fr_mishap _ _ _ F). }
  assert (forall A (x : option A) e, mishap e -> keeps I' E (from_some x e)) as Hsome.
  { intros A x e He. destruct x; [apply keeps_ret|by apply Hstop]. }
  assert (forall i f, quiet f -> keeps I' E (upd_thread i f)) as Hupd.
  { intros i f Hf. apply keeps_modify. intros s1 [Hs1 Ht]. split; [by apply (fr_thread _ _ _ F)|].
    destruct Ht; [by left|right]. by apply takeable_thread. }
  assert (forall i b msg (f : Thread -> Thread -> Thread), (forall t, quiet (f t)) ->
    keeps I' E (let! t := get_thread i in massert (b t) msg ;;; upd_thread i (f t))) as Hown.
  { intros i b msg f Hf. apply keeps_bind; [apply keeps_bind; [apply keeps_get|]; intros s1; by apply Hsome|]. intros t.
    apply keeps_bind; [unfold massert; destruct (b t); [apply keeps_ret|by apply Hstop]|]. intros _. by apply Hupd. }
  assert (keeps I' E (let! mx := get_mutex_obj m in mutex_disown m (owner mx) ;;; mutex_own m o)) as Hk.
  { apply keeps_bind; [apply keeps_bind; [apply keeps_get|]; intros s1; by apply Hsome|]. intros mx. apply keeps_bind.
    - destruct (owner mx) as [i|]; [|apply keeps_ret]. simpl.
      apply keeps_bind; [apply keeps_bind; [apply keeps_get|]; intros s1; by apply Hsome|]. intros t. case_if; [|apply keeps_ret].
      apply keeps_bind; [unfold massert; case_if; [apply keeps_ret|by apply Hstop]|]. intros _. by apply Hupd.
    - intros _. destruct o as [i|]; [|apply keeps_ret]. by apply (Hown i (fun t => bool_decide (m ∉ owned_mutexes t)) _ (fun t => set_owned _)). }
  unfold Mutex_set_owner. specialize (Hk s (conj Hs Hm)). rewrite wp_bind in Hk |- *. eapply wp_mono; [|exact Hk]. clear Hk.
  intros [mx s1|e s1]; [|done]. rewrite !wp_bind. apply wp_mono. intros [[] s2|e s2]; [|done]. rewrite wp_bind. apply wp_mono.
  intros [[] s3|e s3]; [|done]. intros [H1 H2]. unfold upd_mutex, wp; simpl. apply (fr_mutexes _ _ _ F); [|done].
  destruct H2; [by left|by right; left].
Qed.
Lemma keeps_wake v : W v -> keeps I E (wake_waiters v).
Proof. intros Hv. unfold wake_waiters. apply keeps_modify. intros s. by apply (fr_wake _ _ _ F). Qed.
Lemma keeps_wake_one v : W v -> keeps I E (wake_one v).
Proof. intros Hv. unfold wake_one. fr. apply keeps_modify. intros s. by apply (fr_wake_one _ _ _ F). Qed.
Lemma keeps_get_mutex a : keeps I E (lift (get_mutex a)).
Proof. apply keeps_lift. intros e. unfold get_mutex. case_match; by intros [= <-]. Qed.
Lemma keeps_get_cond a : keeps I E (lift (get_cond a)).
Proof. apply keeps_lift. intros e. unfold get_cond. case_match; by intros [= <-]. Qed.
Lemma keeps_get_thread_ptr a : keeps I E (lift (get_thread_ptr a)).
Proof. apply keeps_lift. intros e. unfold get_thread_ptr. case_match; by intros [= <-]. Qed.
Local Hint Resolve keeps_wake keeps_wake_one keeps_get_mutex keeps_get_cond keeps_get_thread_ptr : keeps.

(** [execute]: a thread that goes on satisfies [I], one that waits [J]. *)
Section Execute.
Context (a : ModelAction) (J : point -> St -> Prop).
Definition progress_post (r : progress) (s : St) : Prop :=
  match r with Executed _ => I s | Blocked p => J p s end.
Definition wait_point (p : point) : Prop :=
  match p with PLock => act_type a = ATOMIC_LOCK | PAfter => may_wait a = true | _ => False end.
Hypothesis Hwait : forall p, wait_point p ->
  moves I E (thread_wait (act_tid a)) (fun (b : bool) s => if b then J p s else I s).
Hypothesis Hfinish : act_type a = THREAD_FINISH \/ act_type a = THREADONLY_FINISH ->
  moves I E Thread_finalize progress_post.
Hypothesis Hcreate : act_type a = PTHREAD_CREATE -> keeps I E (exec_create a).
Hypothesis Hwoken : forall v, woken_by a = Some v -> W v.
Hypothesis Habort : act_type a = ATOMIC_LOCK -> forall s, I s -> E Abort s.

Lemma moves_executed (m : M St progress) : keeps I E m -> (forall s, wp m (fun r => match r with
  | Val (Blocked _) _ => False | _ => True end) s) -> moves I E m progress_post.
Proof.
  intros Hm Hr s Hs. eapply wp_mono; [|apply wp_and; [by apply Hm|apply Hr]].
  intros [[a'|p] s'|e s'] [H1 H2]; [exact H1|by destruct H2|exact H1].
Qed.
Lemma moves_keep_executed {A} (m : M St A) (f : A -> ModelAction) : keeps I E m ->
  moves I E (let! x := m in ret (Executed (f x))) progress_post.
Proof. intros Hm. apply moves_after; [done|]. intros x. by apply moves_ret. Qed.

Lemma moves_wait p (k : bool -> M St progress) : wait_point p ->
  k true = ret (Blocked p) -> (k false = ret (Executed a) \/ exists e, mishap e /\ k false = halt e) ->
  moves I E (let! switched := thread_wait (act_tid a) in k switched) progress_post.
Proof.
  intros Hp Ht Hf. eapply moves_bind; [by apply Hwait|]. intros [|] s Hs; [rewrite Ht; exact Hs|].
  destruct Hf as [->|(e & He & ->)]; [exact Hs|]. by apply (fr_mishap _ _ _ F).
Qed.

(** The action goes on with a mutex and its state. *)
Lemma moves_mutex_obj m (k : Mutex -> M St progress) :
  (forall mx s, mutexes s !! m = Some mx -> I s ->
     wp (k mx) (fun r => match r with Val x s' => progress_post x s' | Stop e s' => E e s' end) s) ->
  moves I E (let! mx := get_mutex_obj m in k mx) progress_post.
Proof.
  intros Hk s Hs. unfold get_mutex_obj. wp_step. wp_step. unfold wp at 1; simpl.
  destruct (mutexes s !! m) as [mx|] eqn:Em; [by apply Hk|]. by apply (fr_mishap _ _ _ F).
Qed.
Lemma moves_set_owner m o (x : ModelAction) s : W (OMutex m) \/ takeable s m -> I s ->
  wp (Mutex_set_owner m o ;;; ret (Executed x)) (fun r => match r with Val x s' => progress_post x s' | Stop e s' => E e s' end) s.
Proof.
  intros Hm Hs. rewrite wp_bind. eapply wp_mono; [|by apply set_owner_keeps]. by intros [[] s1|e s1].
Qed.
(** Whether a mutex can be taken: the end of the lock loop and of a trylock. *)
Lemma takeable_free s m mx : mutexes s !! m = Some mx -> owner mx = None -> takeable s m.
Proof. intros Hm Ho mx' o Hm' Ho'. congruence. Qed.
Lemma moves_taking m mx (g : bool -> Z) (w : M St progress) s : mutexes s !! m = Some mx -> I s -> moves I E w progress_post ->
  wp (let! free := (match owner mx with
        | None => ret (Some false)
        | Some o => let! t := get_thread o in ret (if bool_decide (thr_state t = THREAD_CRASHED) then Some true else None)
        end) in
      match free with
      | Some crashed => Mutex_set_owner m (Some (act_tid a)) ;;; ret (Executed (set_value (g crashed) a))
      | None => w
      end) (fun r => match r with Val x s' => progress_post x s' | Stop e s' => E e s' end) s.
Proof.
  intros Hm Hs Hw. destruct (owner mx) as [o|] eqn:Ho.
  - unfold get_thread. wp_step. wp_step. wp_step. unfold wp at 1; simpl.
    destruct (lookupZ _ o) as [t|] eqn:Ht; [|by apply (fr_mishap _ _ _ F)]. unfold wp at 1; simpl. unfold wp at 1; simpl.
    case_bool_decide as Hc; [|by apply Hw]. apply moves_set_owner; [|done]. right. intros mx' o' Hm' Ho'.
    assert (o' = o) as -> by congruence. by exists t.
  - apply moves_set_owner; [right; by eapply takeable_free|done].
Qed.
Lemma moves_lock_loop m : act_type a = ATOMIC_LOCK -> moves I E (lock_loop a m) progress_post.
Proof.
  intros Ht. apply moves_mutex_obj. intros mx s Hm Hs. apply (moves_taking m mx Z.b2z); [done|done|].
  apply (moves_wait PLock); [exact Ht|done|]. right. eexists. by split; [|reflexivity].
Qed.
Lemma moves_lock : act_type a = ATOMIC_LOCK -> moves I E (exec_lock a) progress_post.
Proof.
  intros Ht. unfold exec_lock. apply moves_after; [auto with keeps|]. intros m. apply moves_mutex_obj. intros mx s Hm Hs.
  destruct (owner mx) as [o|] eqn:Ho.
  2:{ apply moves_set_owner; [right; by eapply takeable_free|done]. }
  case_if; [|by apply moves_lock_loop].
  case_if; [by apply (moves_keep_executed _ (fun _ => _)); auto with keeps|].
  case_if; [by apply (moves_keep_executed _ (fun _ => _)); unfold set_errno; auto with keeps|].
  by apply Habort.
Qed.
(** The action goes on with the object that it names. *)
Lemma moves_named {A} (o : err A) (k : A -> M St progress) : (forall e, o = inl e -> mishap e) ->
  (forall x, o = inr x -> moves I E (k x) progress_post) -> moves I E (let! x := lift o in k x) progress_post.
Proof.
  intros He Hk. destruct o as [e|x].
  - intros s Hs. apply (fr_mishap _ _ _ F); [by apply He|done].
  - by apply Hk.
Qed.
Lemma mutex_error e : get_mutex a = inl e -> mishap e.
Proof. unfold get_mutex. case_match; by intros [= <-]. Qed.
Lemma cond_error e : get_cond a = inl e -> mishap e.
Proof. unfold get_cond. case_match; by intros [= <-]. Qed.

Lemma moves_unlock : (forall m, get_mutex a = inr m -> W (OMutex m)) -> moves I E (exec_unlock a) progress_post.
Proof.
  intros HW. unfold exec_unlock. apply moves_named; [apply mutex_error|]. intros m Hm%HW. apply moves_after; [fr|]. intros mx.
  case_if; [apply (moves_keep_executed _ (fun _ => _)); unfold set_errno; auto with keeps|].
  case_if; [apply (moves_keep_executed _ (fun _ => _)); auto with keeps|].
  apply moves_after; [intros s Hs; by apply set_owner_keeps; [left|]|]. intros _. apply moves_after; [auto with keeps|]. intros _.
  case_bool_decide as Hw; [|by apply moves_ret].
  apply (moves_wait PAfter); [simpl; unfold may_wait; by rewrite Hw|done|by left].
Qed.
Lemma moves_join : act_type a = PTHREAD_JOIN -> moves I E (exec_join a) progress_post.
Proof.
  intros Ht. unfold exec_join. apply moves_after; [auto with keeps|]. intros i. apply moves_after; [fr|]. intros t.
  apply moves_after; [unfold self_pid; fr|]. intros p. apply moves_after; [auto with keeps|]. intros _.
  case_bool_decide; [|by apply moves_ret].
  apply (moves_wait PAfter); [simpl; unfold may_wait; by rewrite Ht|done|by left].
Qed.
Lemma moves_trylock : moves I E (exec_trylock a) progress_post.
Proof.
  unfold exec_trylock. apply moves_after; [auto with keeps|]. intros m. apply moves_mutex_obj. intros mx s Hm Hs.
  by apply (moves_taking m mx (fun b => 1 + Z.b2z b)); [..|by apply moves_ret].
Qed.

Lemma moves_store : moves I E (exec_store a) progress_post.
Proof.
  unfold exec_store. apply moves_after; [auto with keeps|]. intros _.
  apply moves_after; [case_if; auto with keeps|]. intros _. by apply moves_ret.
Qed.
Lemma moves_load : moves I E (exec_load a) progress_post.
Proof. apply moves_keep_executed. auto with keeps. Qed.

Lemma moves_create : act_type a = PTHREAD_CREATE -> moves I E (exec_create a) progress_post.
Proof.
  intros Ht. apply moves_executed; [by apply Hcreate|]. intros s. unfold exec_create. wp_step. unfold wp at 1; simpl.
  wp_step. unfold wp at 1; simpl. unfold self_tid. wp_step. unfold wp at 1; simpl. wp_step.
  eapply (wp_mono _ (fun _ => True)); [|apply wp_true]. intros [[] s1|e s1] _; [|done].
  wp_step. unfold wp at 1; simpl. done.
Qed.

Lemma moves_execute_base : moves I E (execute a) progress_post.
Proof.
  assert (exists ty, act_type a = ty) as [ty Et] by eauto. unfold execute. rewrite Et.
  destruct ty; try (by apply moves_ret); try apply moves_store; try apply moves_load.
  all: try (by apply moves_create); try (by apply moves_lock); try
    (apply moves_unlock; intros m Hm; apply Hwoken; unfold woken_by; by rewrite Et, Hm); try (by apply moves_join); try apply moves_trylock.
  all: try (apply (moves_keep_executed _ (fun _ => _)); by auto with keeps).
  - apply moves_after; [apply keeps_wake, Hwoken; unfold woken_by; by rewrite Et|]. intros _. apply Hfinish. by left.
  - apply moves_after; [auto with keeps|]. intros _.
    apply moves_after; [apply keeps_wake, Hwoken; unfold woken_by; by rewrite Et|]. intros _. apply Hfinish. by right.
  - apply moves_after; [auto with keeps|]. intros _. apply moves_load.
  - apply moves_named; [apply cond_error|]. intros v Hv. apply (moves_keep_executed _ (fun _ => _)).
    apply keeps_wake_one, Hwoken. unfold woken_by. by rewrite Et, Hv.
  - apply moves_named; [apply cond_error|]. intros v Hv. apply (moves_keep_executed _ (fun _ => _)).
    apply keeps_wake, Hwoken. unfold woken_by. by rewrite Et, Hv.
Qed.
End Execute.

Lemma keeps_rand : keeps I E rand.
Proof. unfold rand. fr. Qed.
Lemma keeps_find n i tc : keeps I E (find_live n i tc).
Proof. revert i. induction n as [|n IH]; intros i; simpl; fr. Qed.
Local Hint Resolve keeps_rand keeps_find : keeps.
Lemma keeps_times n i : keeps I E (times n (let! _ := pop_thread i in ret tt)).
Proof. induction n as [|n IH]; simpl; [fr|]. apply keeps_bind; [|done]. unfold pop_thread. fr. Qed.
Local Hint Resolve keeps_times : keeps.
Lemma keeps_process_store_buffer : keeps I E process_store_buffer.
Proof. unfold process_store_buffer. fr. Qed.
Local Hint Resolve keeps_process_store_buffer : keeps.

(** An action that ends does not wait. *)
Lemma action_end_done a s : wp (action_end a) (fun r => match r with Val (Wait _) _ => False | _ => True end) s.
Proof.
  unfold action_end. repeat (wp_step; eapply (wp_mono _ (fun _ => True)); [|apply wp_true]; intros [? ?|? ?] _; [|done]).
  done.
Qed.

(** The end of an action and whole actions, where the pending action is free. *)
Section Pending.
Hypothesis P : forall p s, I s -> I (on_thread (thread_id (proc s)) (set_pending p) s).

Lemma keeps_pending p : keeps I E (let! tid := self_tid in upd_thread tid (set_pending p)).
Proof. intros s Hs. unfold self_tid, upd_thread, wp. simpl. by apply P. Qed.
Lemma keeps_self_bind {A} (f : Z -> M St unit) (k : M St A) :
  keeps I E (let! tid := self_tid in f tid) -> keeps I E k -> keeps I E (let! tid := self_tid in f tid ;;; k).
Proof.
  intros Hf Hk s Hs. specialize (Hf s Hs). change (wp (f (thread_id (proc s)) ;;; k)
    (fun r => match r with Val _ s' => I s' | Stop e s' => E e s' end) s). rewrite wp_bind.
  eapply wp_mono; [|exact Hf]. intros [[] s'|e s']; [|done]. apply Hk.
Qed.
Lemma keeps_action_end a : keeps I E (action_end a).
Proof. unfold action_end. apply keeps_self_bind; [apply keeps_pending|fr]. Qed.
Local Hint Resolve keeps_action_end : keeps.
(** Whole actions: done, or waiting. *)
Definition outcome_post (J : point -> St -> Prop) (o : outcome) (s : St) : Prop :=
  match o with Done _ => I s | Wait p => J p s end.

Lemma moves_after_execute J r s : progress_post J r s ->
  wp (after_execute r) (fun x => match x with Val o s' => outcome_post J o s' | Stop e s' => E e s' end) s.
Proof.
  destruct r as [a|p]; [|done]. intros Hs. eapply wp_mono; [|apply wp_and; [by apply (keeps_action_end a)|apply action_end_done]].
  by intros [[v|p] s'|e s'] [H1 H2].
Qed.
Lemma moves_action_exec a J :
  (forall a', act_type a' = act_type a -> act_tid a' = act_tid a -> woken_by a' = woken_by a -> moves I E (execute a') (progress_post J)) ->
  moves I E (action_exec a) (outcome_post J).
Proof.
  intros He. unfold action_exec. apply moves_after; [case_if; auto with keeps|]. intros _.
  apply moves_after; [auto with keeps|]. intros n. eapply moves_bind; [apply He; by case_bool_decide|].
  intros r s. apply moves_after_execute.
Qed.
Lemma moves_issue a y (Q : outcome -> St -> Prop) : moves I E yield (fun (b : bool) s => if b then Q (Wait PExec) s else I s) ->
  moves I E (action_exec a) Q -> moves I E (action a y) Q.
Proof.
  intros Hy He. unfold action, assert_active. apply moves_after; [fr|]. intros []. apply moves_after; [unfold self_pid; fr|].
  intros pid. apply moves_after; [fr|]. intros s0. case_if.
  { intros s Hs. unfold process_crash, self_pid. wp_step. wp_step. unfold wp at 1; simpl. unfold wp; simpl. unfold wp; simpl.
    by apply (fr_crash _ _ _ F). }
  apply moves_after; [fr|]. intros [] s Hs.
  assert (I (on_thread (thread_id (proc s)) (set_pending (Some a)) s)) as Hp by (by apply P).
  change (wp (upd_thread (thread_id (proc s)) (set_pending (Some a)) ;;;
    let! switched := (if y && negb (is_second_part_of_rmw a) then yield else ret false) in
    if switched then ret (Wait PExec) else action_exec a)
    (fun x => match x with Val o s' => Q o s' | Stop e s' => E e s' end) s).
  rewrite wp_bind. unfold upd_thread, wp at 1; simpl. revert Hp.
  fold (on_thread (thread_id (proc s)) (set_pending (Some a)) s). generalize (on_thread (thread_id (proc s)) (set_pending (Some a)) s).
  eapply moves_bind.
  - instantiate (1 := fun (b : bool) s => if b then Q (Wait PExec) s else I s). case_if; [exact Hy|by apply moves_ret].
  - intros [|] s1 H1; [done|]. by apply He.
Qed.
Lemma moves_action a y J : moves I E yield (fun (b : bool) s => if b then J PExec s else I s) ->
  (forall a', act_type a' = act_type a -> act_tid a' = act_tid a -> woken_by a' = woken_by a -> moves I E (execute a') (progress_post J)) ->
  moves I E (action a y) (outcome_post J).
Proof. intros Hy He. apply moves_issue; [exact Hy|]. by apply moves_action_exec. Qed.
Lemma moves_resume p a J :
  (forall a', act_type a' = act_type a -> act_tid a' = act_tid a -> woken_by a' = woken_by a -> moves I E (execute a') (progress_post J)) ->
  (p = PLock -> forall m, moves I E (lock_loop a m) (progress_post J)) ->
  moves I E (resume p a) (outcome_post J).
Proof.
  intros He Hl. destruct p; simpl.
  - by apply moves_action_exec.
  - apply moves_after; [auto with keeps|]. intros m. eapply moves_bind; [by apply Hl|].
    intros r s. apply moves_after_execute.
  - intros s Hs. eapply wp_mono; [|apply wp_and; [by apply (keeps_action_end a)|apply action_end_done]].
    by intros [[v|p] s'|e s'] [H1 H2].
  - intros s Hs. by apply (fr_mishap _ _ _ F).
Qed.
End Pending.

Lemma keeps_create a :
  (forall f arg s, I s -> I (on_sched (fun _ => (new_thread (process_id (proc s)) (thread_id (proc s)) f arg (sched s)).2) s)) ->
  (forall g s, I s -> I (on_memory g s)) -> keeps I E (exec_create a).
Proof.
  intros Hnew Hmem s Hs. unfold exec_create. wp_step. unfold wp at 1; simpl. wp_step. unfold wp at 1; simpl.
  unfold self_tid. wp_step. unfold wp at 1; simpl. wp_step.
  eapply wp_mono; [|apply keeps_buffer; by apply Hnew].
  intros [[] s'|e s']; [|done]. intros Hs'. wp_step. unfold wp at 1; simpl. unfold wp; simpl. by apply Hmem.
Qed.

(** A thread that waits or ends leaves [I] to the next one. *)
Lemma moves_keeps {A} (m : M St A) (Q : A -> St -> Prop) : keeps I E m -> (forall a s, I s -> Q a s) -> moves I E m Q.
Proof. intros Hm HQ s Hs. eapply wp_mono; [|by apply Hm]. intros [a s'|e s']; [|done]. apply HQ. Qed.
Lemma moves_switch (J : point -> St -> Prop) p : keeps I E yield -> (forall s, I s -> J p s) ->
  moves I E yield (fun (b : bool) s => if b then J p s else I s).
Proof. intros Hy HJ. apply moves_keeps; [done|]. intros [|] s; [apply HJ|done]. Qed.
Lemma keeps_assert_active : keeps I E assert_active.
Proof. unfold assert_active. fr. Qed.
Lemma keeps_get_thread i : keeps I E (get_thread i).
Proof. fr. Qed.
End Frame.

Section Full.
Context `{Rand} (W : object -> Prop) (I : St -> Prop) (E : stop -> St -> Prop).
Hypothesis F : frame_on W I E.

Lemma moves_execute a J :
  (forall p, wait_point a p -> moves I E (thread_wait (act_tid a)) (fun (b : bool) s => if b then J p s else I s)) ->
  (act_type a = THREAD_FINISH \/ act_type a = THREADONLY_FINISH -> moves I E Thread_finalize (progress_post I J)) ->
  (act_type a = PTHREAD_CREATE -> keeps I E (exec_create a)) -> (forall v, woken_by a = Some v -> W v) ->
  moves I E (execute a) (progress_post I J).
Proof. intros Hw Hf Hc Hv. apply (moves_execute_base W I E F); try done. intros _ s. by apply (fr_stop _ _ _ F). Qed.

(** ** Handing over the processor, and new threads

    A property that does not look at the active thread, nor at the states of the
    threads of [D], is kept when a thread of [D] waits or ends. *)
Section HandOver.
Context (D : Z -> Prop).
Hypothesis Hactive : forall n s, I s -> I (on_sched (fun _ => with_active n (sched s)) s).
Hypothesis Hstate : forall i ts s, D i -> I s -> I (on_thread i (set_state ts) s).

Lemma keeps_sched_err {A} (f : Scheduler -> err (A * Scheduler)) :
  (forall c e, f c = inl e -> e <> Exit EXIT_SUCCESS) ->
  (forall c x c', f c = inr (x, c') -> exists n, c' = with_active n c) -> keeps I E (on_sched_err f).
Proof.
  intros He Hf s Hs. unfold on_sched_err. wp_step. unfold wp at 1; simpl. wp_step.
  destruct (f (sched s)) as [e|[x c]] eqn:Ef; unfold wp at 1; simpl; [apply (fr_stop _ _ _ F); [by eapply He|done]|].
  destruct (Hf _ _ _ Ef) as [n ->]. by apply Hactive.
Qed.
Lemma same_active c : exists n, c = with_active n c.
Proof. exists (active_thread c). by destruct c. Qed.
Lemma keeps_yield : keeps I E yield.
Proof.
  apply keeps_bind; [apply (keeps_assert_active _ _ _ F)|]. intros ?. apply keeps_sched_err; intros c; unfold yield_sched.
  - intros e. case_match; [done|]. case_match; [|by intros [= <-]]. case_match; [done|by intros [= <-]].
  - intros x c'. case_match; [intros [= <- <-]; eauto|]. case_match; [|done]. case_match; [|done].
    intros [= <- <-]. apply same_active.
Qed.
Lemma keeps_last_yield : keeps I E last_yield.
Proof.
  apply keeps_bind; [apply (keeps_assert_active _ _ _ F)|]. intros ?. apply keeps_sched_err; intros c; unfold last_yield_sched.
  - intros e. case_match; [done|]. case_match; [by intros [= <-]|done].
  - intros x c'. case_match; [intros [= <- <-]; eauto|]. case_match; [done|]. intros [= <- <-]. apply same_active.
Qed.
Lemma keeps_state i ts : D i -> keeps I E (upd_thread i (set_state ts)).
Proof. intros Hi. apply keeps_modify. intros s. by apply Hstate. Qed.
Lemma keeps_wait i : D i -> keeps I E (thread_wait i).
Proof.
  intros Hi. unfold thread_wait. apply keeps_bind; [apply (keeps_get_thread _ _ _ F)|]. intros t. apply keeps_bind; [apply (keeps_assert _ _ _ F)|]. intros _.
  apply keeps_bind; [by apply keeps_state|]. intros _. apply keeps_yield.
Qed.
Lemma keeps_finalize : (forall s, I s -> D (thread_id (proc s))) -> keeps I E finalize.
Proof.
  intros Hself s Hs. unfold finalize, self_tid. wp_step. unfold wp at 1; simpl.
  pose proof (Hself s Hs) as Hi. revert s Hs Hi. intros s Hs. generalize (thread_id (proc s)) as i. intros i Hi.
  revert s Hs. match goal with |- forall s, I s -> wp ?m _ s => change (keeps I E m) end.
  apply keeps_bind; [apply (keeps_get_thread _ _ _ F)|]. intros t.
  apply keeps_bind; [case_if; [apply keeps_ret|by apply keeps_state]|]. intros _.
  apply keeps_bind; [apply keeps_get|]. intros s1. case_if; [apply keeps_ret|apply keeps_last_yield].
Qed.
Lemma keeps_thread_finalize : (forall s, I s -> D (thread_id (proc s))) -> keeps I E Thread_finalize.
Proof.
  intros Hself. apply keeps_bind; [by apply keeps_finalize|]. intros [|]; [apply keeps_ret|by apply (keeps_stop _ _ _ F)].
Qed.
End HandOver.

End Full.
