(* ===== verification/Flush.v ===== *)
(** * Flush: what a cache line flush guarantees

    [Model::evict_clflush] of [src/src/model/model.cc] against the persistence
    windows: the flush moves the window of every process for the line up to its
    time, so that no later crash loses a store that came before it, and it is
    the place where a writer of the line may crash first. *)
From Stdlib Require Import Sorted.
From S2P Require Import Prelude Choice Action ReadFrom CacheLine ThreadMemory State Scheduler ModelCore Executor ReadSound Wf ModelSafe Buffers Safety.

(** The window of process [q] after the flush at time [n] of the line [addr]. *)
Definition flushed (s : St) (pids : list Z) (addr n q b : Z) : Range :=
  if decide (b = addr /\ q ∈ pids /\ range_begin (win s q addr) < n)
  then setBegin n (win s q addr) else win s q b.

Lemma flush_windows_run addr n pids : forall min s,
  (forall p, p ∈ pids -> has_table (obj_to_cl (mdl s)) p) ->
  exists c m, flush_windows pids addr n min s = Leaf (Val m (on_mdl (with_cl c) s)) /\
    (forall q b, window_of c q b = flushed s pids addr n q b) /\
    (forall q, has_table (obj_to_cl (mdl s)) q -> has_table c q).
Proof.
  induction pids as [|i pids IH]; intros min s Ht.
  { exists (obj_to_cl (mdl s)), min. split; [by destruct s as [? []]|]. split; [|done].
    intros q b. unfold flushed. rewrite decide_False; [done|]. set_solver. }
  cbn [flush_windows].
  destruct (cacheline_run i addr s) as (c & Hc & Hw & Htc); [apply Ht; set_solver|].
  rewrite (bind_val _ _ _ _ _ Hc). set (s1 := on_mdl (with_cl c) s).
  assert (forall q b, win s1 q b = win s q b) as Hw1 by done.
  destruct (Z.leb_spec n (range_begin (win s i addr))) as [Hle|Hlt].
  - destruct (IH min s1) as (c2 & m & Hrun & Hw2 & Ht2); [intros p Hp; apply Htc, Ht; set_solver|].
    exists c2, m. split; [exact Hrun|]. split; [|intros q Hq; by apply Ht2, Htc].
    intros q b. rewrite Hw2. unfold flushed. rewrite !Hw1.
    destruct (decide (q = i)) as [->|Hne].
    + by rewrite !decide_False by lia.
    + apply decide_ext. set_solver.
  - destruct (assign_run i addr (setBegin n (win s i addr)) s1) as (c2 & Ha & Hw2 & Ht2); [apply Htc, Ht; set_solver|].
    rewrite (bind_val _ _ _ _ _ Ha). set (s2 := on_mdl (with_cl c2) s1).
    assert (forall q b, win s2 q b = if decide (q = i /\ b = addr) then setBegin n (win s i addr) else win s q b) as Hws2.
    { intros q b. unfold s2, win at 1. simpl. rewrite Hw2. by case_decide. }
    destruct (IH (if range_begin (win s i addr) <? min then range_begin (win s i addr) else min) s2)
      as (c3 & m & Hrun & Hw3 & Ht3); [intros p Hp; apply Ht2, Htc, Ht; set_solver|].
    exists c3, m. split; [exact Hrun|]. split; [|intros q Hq; by apply Ht3, Ht2, Htc].
    intros q b. rewrite Hw3. unfold flushed. rewrite !Hws2. destruct (decide (q = i)) as [->|Hne].
    + rewrite (decide_True _ _ (conj eq_refl eq_refl : i = i /\ addr = addr)).
      rewrite decide_False by (simpl; lia). destruct (decide (b = addr)) as [->|].
      * rewrite decide_True by done. rewrite decide_True; [done|]. split; [done|]. split; [set_solver|done].
      * by rewrite !decide_False by naive_solver.
    + rewrite !(decide_False (P := q = i /\ _)) by naive_solver. apply decide_ext. set_solver.
Qed.

(** The crash decisions leave the windows, the store lists and the processes of
    the threads alone, and the threads too if they return. *)
Definition crashes_grow (s s' : St) : Prop := forall p, is_crashed s p = true -> is_crashed s' p = true.
Record memory_kept (s s' : St) : Prop := mkMemoryKept {
  mk_windows : obj_to_cl (mdl s') = obj_to_cl (mdl s);
  mk_stores : obj_to_wr (mdl s') = obj_to_wr (mdl s);
  mk_pids : keeps_pids s s';
  mk_crashes : crashes_grow s s'
}.
(** What is known where an operation ends, and of the threads when it returns. *)
Definition crash_post (s : St) {A} (r : result St A) : Prop :=
  (forall s', op_end r = Some s' -> memory_kept s s') /\ if_returns (fun _ s' => sched s' = sched s) r.

Lemma memory_kept_refl s : memory_kept s s.
Proof. constructor; [done|done|by apply same_pids|by intros p]. Qed.
Lemma memory_kept_trans s1 s2 s3 : memory_kept s1 s2 -> memory_kept s2 s3 -> memory_kept s1 s3.
Proof.
  intros [A1 A2 A3 A4] [B1 B2 B3 B4]. constructor; [congruence|congruence| |intros p Hp; by apply B4, A4].
  intros i t Ht. destruct (A3 i t Ht) as (t' & Ht' & Hp). destruct (B3 i t' Ht') as (u & Hu & Hp'). exists u. split; [done|congruence].
Qed.

Lemma crash_post_ret {A} (a : A) s s' : memory_kept s s' -> sched s' = sched s -> crash_post s (Val a s').
Proof. intros Hm Hs. split; [|done]. by intros x [= <-]. Qed.

Lemma kept_same s s' : obj_to_cl (mdl s') = obj_to_cl (mdl s) -> obj_to_wr (mdl s') = obj_to_wr (mdl s) ->
  crashes (mdl s') = crashes (mdl s) -> sched s' = sched s -> memory_kept s s'.
Proof.
  intros H1 H2 H3 H4. constructor; [done|done|by apply same_pids|]. intros q. unfold is_crashed. by rewrite H3.
Qed.
Lemma kept_crashes s c : (forall q, is_Some (crashes (mdl s) !! q) -> is_Some (c !! q)) -> memory_kept s (on_mdl (with_crashes c) s).
Proof.
  intros Hc. constructor; [done|done|by apply same_pids|]. intros q. unfold is_crashed. simpl. rewrite !bool_decide_eq_true. apply Hc.
Qed.
Lemma kept_insert s p n : memory_kept s (on_mdl (with_crashes (<[p := n]> (crashes (mdl s)))) s).
Proof.
  apply kept_crashes. intros q Hq. destruct (decide (p = q)) as [<-|]; [rewrite lookup_insert_eq; by eexists|by rewrite lookup_insert_ne].
Qed.
Lemma kept_process_crash s pid : memory_kept s (on_sched (process_crash_sched pid) s).
Proof.
  constructor; [done|done| |by intros q]. intros i t Ht. destruct (process_crash_mild pid (sched s)) as [Hlen Hl].
  destruct (lookupZ_is_Some (threads (process_crash_sched pid (sched s))) i) as [t' Ht'].
  { apply lookupZ_Some in Ht. by rewrite Hlen. }
  destruct (Hl i t' Ht') as (u & Hu & Hp & _). rewrite Ht in Hu. injection Hu as <-. by exists t'.
Qed.

Lemma insert_crash_memory p s : wp (insert_crash p) (crash_post s) s.
Proof.
  unfold insert_crash, should_crash. rewrite wp_bind. wp_step. unfold wp at 1; simpl.
  assert (forall b s1, memory_kept s s1 -> sched s1 = sched s -> wp (if negb b then ret tt else
    (let! me := self_pid in
     if p =? me then
       modify (on_mdl (fun m => with_crashes (<[me := next_sequence_num m]> (crashes m)) m)) ;;;
       process_crash ;;; halt (Exit EXIT_SUCCESS)
     else emplace_crash p)) (crash_post s) s1) as Hk.
  { intros b s1 Hm Hs. destruct b; simpl; [|by apply crash_post_ret]. unfold self_pid. wp_step. unfold wp at 1; simpl.
    destruct (p =? process_id (proc s1)).
    - split; [|done]. intros x [= <-]. eapply memory_kept_trans; [exact Hm|].
      eapply memory_kept_trans; [apply kept_insert|apply kept_process_crash].
    - unfold emplace_crash, wp. simpl. apply crash_post_ret; [|exact Hs]. eapply memory_kept_trans; [exact Hm|].
      unfold on_mdl. destruct (crashes (mdl s1) !! p); [by apply kept_same|apply kept_insert]. }
  destruct (crash_allowed s); [|apply (Hk false); [apply memory_kept_refl|done]]. apply ask_crash_wp.
  intros s1 ->. split; [apply (Hk false)|apply (Hk true)]; first [by apply kept_same|done].
Qed.

Lemma crash_writer_memory l min s : wp (crash_writer l min) (crash_post s) s.
Proof.
  assert (forall e, e <> Exit EXIT_SUCCESS -> crash_post s (Stop (A := unit) e s)) as Hstop.
  { intros e He. split; [|done]. intros x Hx. destruct e as [|c| | |]; try done. simpl in Hx.
    destruct (Z.eqb_spec c EXIT_SUCCESS); [congruence|done]. }
  induction l as [|w l IH]; simpl; [by apply crash_post_ret; [apply memory_kept_refl|]|].
  wp_step. unfold wp at 1; simpl. case_if; [by apply crash_post_ret; [apply memory_kept_refl|]|].
  wp_step. unfold get_process_id, get_thread. do 2 wp_step. unfold wp at 1; simpl.
  destruct (lookupZ (threads (sched s)) (act_tid w)) as [t|]; [|by apply Hstop].
  unfold wp at 1; simpl. unfold wp at 1; simpl. destruct (is_live s (thr_pid t)); [apply insert_crash_memory|done].
Qed.

(** The time from which a flush guarantees persistence. *)
Definition flush_time (s : St) (a : ModelAction) : Z :=
  if bool_decide (act_type a = CACHE_CLFLUSH) then next_sequence_num (mdl s) else earliest_effect a.

(** The windows, crashes and processes after a flush with time [n]. *)
Record flush_effect (n : Z) (a : ModelAction) (s s' : St) : Prop := mkFlushEffect {
  fe_windows : forall q b, win s' q b = flushed s (seqZ 0 (process_count (sched s))) (getCacheID (location a)) n q b;
  fe_pids : keeps_pids s s';
  fe_crashes : crashes_grow s s'
}.
Definition flush_post (n : Z) (a : ModelAction) (s : St) (r : result St ModelAction) : Prop :=
  (forall s', op_end r = Some s' -> flush_effect n a s s') /\
  if_returns (fun a' s' => sched s' = sched s /\
    (act_type a = CACHE_CLFLUSH -> seq_num a' = next_sequence_num (mdl s))) r.

Section Flush.
Context (s : St) (a a' : ModelAction) (n : Z).
Hypothesis Ht : forall p, 0 <= p < process_count (sched s) -> has_table (obj_to_cl (mdl s)) p.
Hypothesis Hloc : location a' = location a.
Hypothesis Hseq : act_type a = CACHE_CLFLUSH -> seq_num a' = next_sequence_num (mdl s).

(** The crash decisions at the end of a flush that has moved the windows. *)
Lemma flush_writers l m c s2 : sched s2 = sched s -> obj_to_cl (mdl s2) = c -> crashes (mdl s2) = crashes (mdl s) ->
  (forall q b, window_of c q b = flushed s (seqZ 0 (process_count (sched s))) (getCacheID (location a)) n q b) ->
  wp (crash_writer (rev l) m ;;; ret a') (flush_post n a s) s2.
Proof.
  intros K1 K2 K3 Hw. wp_step. eapply wp_mono; [|apply crash_writer_memory].
  assert (forall s3, memory_kept s2 s3 -> flush_effect n a s s3) as He.
  { intros s3 [M1 M2 M3 M4]. constructor.
    - intros q b. unfold win at 1. by rewrite M1, K2.
    - intros i t Hi. apply M3. by rewrite K1.
    - intros p Hp. apply M4. unfold is_crashed in *. by rewrite K3. }
  intros [[] s3|e s3] [H1 H2]; simpl in *.
  - unfold wp; simpl. split; [intros x [= <-]; by apply He, H1|]. split; [congruence|done].
  - split; [|done]. intros x Hx. by apply He, H1.
Qed.

Lemma flush_rest s1 : sched s1 = sched s -> obj_to_cl (mdl s1) = obj_to_cl (mdl s) -> crashes (mdl s1) = crashes (mdl s) ->
  wp (let addr := getCacheID (location a') in
      let! s := get in
      let! min := flush_windows (seqZ 0 (process_count (sched s))) addr n n in
      let! stores := get_storelist (location a') in
      crash_writer (rev stores) min ;;; ret a') (flush_post n a s) s1.
Proof.
  intros H1 H2 H3. cbn zeta. wp_step. unfold wp at 1; simpl. rewrite H1, Hloc. wp_step.
  destruct (flush_windows_run (getCacheID (location a)) n (seqZ 0 (process_count (sched s))) n s1)
    as (c & m & Hrun & Hw & _).
  { intros p [Hp Hp']%elem_of_seqZ. rewrite H2. apply Ht. lia. }
  assert (forall q b, window_of c q b = flushed s (seqZ 0 (process_count (sched s))) (getCacheID (location a)) n q b) as Hw'.
  { intros q b. rewrite Hw. unfold flushed, win. by rewrite H2. }
  unfold wp at 1. rewrite Hrun. simpl. wp_step. unfold get_storelist. wp_step. unfold wp at 1; simpl.
  destruct (obj_to_wr (mdl s1) !! alignAddress (location a)) as [l|].
  - unfold wp at 1; simpl. by apply (flush_writers l m c).
  - wp_step. unfold wp at 1; simpl. unfold wp at 1; simpl. by apply (flush_writers [] m c).
Qed.
End Flush.

Lemma evict_clflush_windows a s :
  (forall p, 0 <= p < process_count (sched s) -> has_table (obj_to_cl (mdl s)) p) ->
  wp (Model_evict_clflush a) (flush_post (flush_time s a) a s) s.
Proof.
  intros Ht. unfold Model_evict_clflush. wp_step. unfold massert, flush_time.
  destruct (bool_decide (act_type a = CACHE_CLFLUSH) || _) eqn:Eb; [|by split].
  unfold wp at 1; simpl. wp_step. case_bool_decide as Et.
  - unfold get_next_sequence_num. do 2 wp_step. unfold wp at 1; simpl. wp_step. unfold wp at 1; simpl.
    do 2 (unfold wp at 1; simpl). by apply (flush_rest s a (set_seq_num (next_sequence_num (mdl s)) a)).
  - unfold wp at 1; simpl. by apply (flush_rest s a a).
Qed.

(** ** Properties *)

(** Every store of the line [ca] in [s] stays in memory in [s'], under all
    persistence times that the windows of [s'] allow. *)
Definition line_kept (ca : Z) (s s' : St) : Prop :=
  forall w l x, obj_to_wr (mdl s) !! w = Some l -> x ∈ l -> getCacheID w = ca ->
  forall T, compatible ca T s' -> kept s' T x = true.

(** C17: A flush persists: when [evict_clflush] of a [CACHE_CLFLUSH] returns, every
    store of the cache line that was in memory order before it stays in memory
    under every choice of persistence times that the windows still allow,
    whichever processes crash later; the windows of the other lines and the
    ends of the windows are untouched. *)
Theorem flush_persists M s a :
  wf M s -> act_type a = CACHE_CLFLUSH ->
  let ca := getCacheID (location a) in
  wp (Model_evict_clflush a) (if_returns (fun a' s' =>
    seq_num a' = next_sequence_num (mdl s) /\
    line_kept ca s s' /\
    (forall p b, b <> ca -> win s' p b = win s p b) /\
    (forall p b, range_end (win s' p b) = range_end (win s p b)))) s.
Proof.
  intros Hs Et. cbn zeta. eapply wp_mono; [|apply evict_clflush_windows; apply (mw_tables _ _ _ (wf_model _ _ Hs))].
  intros [a' s'|e s']; [|done]. intros [He [Hsch Hn]]. destruct (He s' eq_refl) as [Hw _ _]. simpl.
  split; [by apply Hn|]. unfold flush_time in Hw. rewrite bool_decide_true in Hw by done. split; [|split].
  - intros w l x Hl Hx Hca T HT. unfold kept. destruct (is_crashed s' (pid_of s' x)) eqn:Hc; [|done]. simpl.
    apply Z.leb_le. destruct (HT _ Hc) as [Hb _]. etrans; [|exact Hb]. rewrite Hw. unfold flushed.
    pose proof (mw_lists _ _ _ (wf_model _ _ Hs) _ _ Hl) as Hlo. pose proof (lo_stored _ _ _ _ Hlo) as Hst.
    rewrite Forall_forall in Hst. destruct (Hst x Hx) as [Htid _ _ Hseq _].
    destruct (wf_thread M s _ Hs Htid) as (t & Ht & Hp).
    assert (pid_of s' x = thr_pid t) as Hpid by (unfold pid_of; by rewrite Hsch, Ht).
    rewrite Hpid. case_decide as Hd; simpl; [lia|].
    assert (~ range_begin (win s (thr_pid t) (getCacheID (location a))) < next_sequence_num (mdl s)) as Hnlt.
    { intros Hlt. apply Hd. split; [done|]. split; [|done]. apply elem_of_seqZ. lia. }
    lia.
  - intros p b Hb. rewrite Hw. unfold flushed. by rewrite decide_False by naive_solver.
  - intros p b. rewrite Hw. unfold flushed. case_decide as Hd; [|done]. destruct Hd as [-> _]. done.
Qed.

Definition demo_flush : ModelAction := ModelAction_new 0 CACHE_CLFLUSH 64 0 memory_order_seq_cst 1 "demo".
Lemma flush_persists_witness :
  wp (Model_evict_clflush demo_flush) (if_returns (fun _ s' =>
    forall T, compatible 64 T s' -> kept s' T (demo_store 9 2) = true)) demo_crashed.
Proof.
  eapply wp_mono; [|exact (flush_persists 3 demo_crashed demo_flush wf_demo eq_refl)].
  intros [a' s'|e s']; simpl; [|done]. intros (_ & Hk & _). apply (Hk 64 demo_stores); [reflexivity|set_solver|reflexivity].
Defined.

(** ** A flush after a crash decision *)

(** Process 0 loads address 64, flushes its line and loads it again. *)
Definition load_flush_load : M St (Z * Z) :=
  let! v := build_read_from demo_read in
  Model_evict_clflush demo_flush ;;;
  let! w := build_read_from demo_read in
  ret (v, w).
Definition values {S A} (t : tree (result S A)) : list (option A) :=
  (fun r => match r with Val v _ => Some v | Stop _ _ => None end) <$> leaves t.

(** A flush resurrects lost stores: process 1 crashed at time 3 after storing
    7 and 9 at address 64.  A load of process 0 that decides that neither reached
    memory returns the initial value 5 and closes the window of process 1 at its
    first store; a flush of the line by process 0 then moves the begin of that
    window past its end, and the next load returns the lost 9. *)
Theorem flush_resurrects_lost_store :
  values (load_flush_load demo_crashed) = [Some (5, 9); Some (7, 9); Some (9, 9)].
Proof. vm_compute. reflexivity. Qed.

(** Without the flush the second load agrees with the first. *)
Example loads_agree :
  values ((let! v := build_read_from demo_read in let! w := build_read_from demo_read in ret (v, w)) demo_crashed) =
    [Some (5, 5); Some (7, 7); Some (9, 9)].
Proof. vm_compute. reflexivity. Qed.
