(* ===== verification/History.v ===== *)
(** * History: the loads of an execution against one memory

    [Recovery] looks at the loads after the last crash.  Here the operations of
    [src/src/model/model.cc] on the memory come in any order, processes crash at
    any load or flush, and between them the threads do whatever leaves the
    persistent memory alone: every value that a load returned is the one that a
    single choice of persistence times for the whole execution gives.  The flush
    of a line from which stores have been lost is left out: see
    [Flush.flush_resurrects_lost_store].  [Trace] shows that the executions of the
    machine are such histories. *)
From Stdlib Require Import Sorted.
From S2P Require Import Prelude Choice Action ReadFrom CacheLine ThreadMemory State Scheduler ModelCore Executor ReadSound Recovery Wf ModelSafe Buffers Safety Flush.

(** The windows are well formed on every line. *)
Definition windows_ok (s : St) : Prop := forall ca, line_ok ca s.

(** An operation on the memory with the value that it returned, and the states
    before and after it. *)
Record event := mkEvent { ev_before : St; ev_op : mem_op; ev_value : option Z; ev_after : St }.
Definition event_of (s : St) (op : mem_op) (r : result St (option Z)) : option event :=
  mkEvent s op (match r with Val v _ => v | Stop _ _ => None end) <$> op_end r.

(** The operations of an execution from [s0] to [s], with steps in between that
    leave the memory alone. *)
Inductive history (s0 : St) : list event -> St -> Prop :=
| hist_nil : history s0 [] s0
| hist_op l s op r e : history s0 l s -> op_ready s op -> r ∈ leaves (run_op op s) -> event_of s op r = Some e ->
    history s0 (l ++ [e]) (ev_after e)
| hist_other l s s' : history s0 l s -> elsewhere s s' -> history s0 l s'.

(** A flush finds no store of the line lost. *)
Definition nothing_lost (s : St) (a : ModelAction) : Prop :=
  forall p, let w := win s p (getCacheID (location a)) in range_end w = 0 \/ flush_time s a < range_end w.
Definition clean (e : event) : Prop := forall a, ev_op e = OFlush a -> nothing_lost (ev_before e) a.

(** ** From the invariant to the hypotheses of a load *)
Lemma wf_load_ready M s r : wf M s -> windows_ok s -> op_ok s (OLoad r) ->
  exists t stores, load_ready s r t stores /\ stores_of s r = stores.
Proof.
  intros Hs Hw (Ha & Htid & l & Hl & Hne). destruct (wf_thread M s _ Hs Htid) as (t & Ht & _). exists t, l.
  destruct (mw_lists _ _ _ (wf_model _ _ Hs) _ _ Hl) as [L1 L2 L3]. pose proof Ha as [[Hsz Hal] Hrange].
  split; [|unfold stores_of; by rewrite Hl]. constructor; try done.
  - by apply access_in_range.
  - lia.
  - destruct (wf_memory _ _ Hs _ _ Ht) as [Hb _]. eapply Forall_impl; [exact Hb|]. intros a [_ _ _ Hwr] Hn.
    destruct Hwr as [Hacc _]; [unfold is_write; by rewrite Hn|]. split; [by apply access_in_range|apply aligned_overlap_ok; [apply Hacc|apply Ha]].
  - rewrite Forall_forall in L1 |- *. intros w Hin. destruct (L1 w Hin) as [S1 S2 S3 S4 S5].
    destruct (wf_thread M s _ Hs S1) as (u & Hu & Hp). constructor; try done.
    + unfold pid_of. rewrite Hu. by apply (mw_tables _ _ _ (wf_model _ _ Hs)).
    + by apply access_in_range.
    + apply aligned_overlap_ok; [apply S2|apply Ha].
  - specialize (L3 Hne). rewrite Exists_exists in L3 |- *. destruct L3 as (w & Hin & Hb). exists w. split; [done|].
    by eapply word_base_covers.
Qed.

(** ** The operations *)

(** What a step leaves to the persistence times: windows narrow, processes crash,
    threads keep their process. *)
Record later (s s' : St) : Prop := mkLater {
  lt_pids : keeps_pids s s';
  lt_crashed : crashes_grow s s';
  lt_begin : forall p ca, range_begin (win s p ca) <= range_begin (win s' p ca);
  lt_end : forall p ca, range_end (win s p ca) <> 0 ->
    range_end (win s' p ca) <> 0 /\ range_end (win s' p ca) <= range_end (win s p ca)
}.

#[export] Instance later_preorder : PreOrder later.
Proof.
  split.
  - intros s. constructor; [|by intros p|done|done]. intros i t Ht. by exists t.
  - intros s1 s2 s3 [A1 A2 A3 A4] [B1 B2 B3 B4]. constructor.
    + intros i t Ht. destruct (A1 i t Ht) as (t' & Ht' & Hp). destruct (B1 i t' Ht') as (u & Hu & Hp').
      exists u. split; [done|congruence].
    + intros p Hp. by apply B2, A2.
    + intros p ca. etrans; [apply A3|apply B3].
    + intros p ca Hp. destruct (A4 p ca Hp) as [Hn Hle]. destruct (B4 p ca Hn). split; [done|lia].
Qed.

(** Persistence times that are possible later were possible before. *)
Lemma later_possible s s' O : later s s' -> possible s' O -> possible s O.
Proof.
  intros [_ L2 L3 L4] HO ca p Hp. destruct (HO ca p (L2 p Hp)) as [Hb He]. pose proof (L3 p ca).
  split; [lia|]. destruct (decide (range_end (win s p ca) = 0)) as [|Hne]; [by left|right].
  destruct (L4 p ca Hne). lia.
Qed.

(** For a load, a process that is still running was spared. *)
Lemma later_narrows s s' ca rpid : later s s' -> is_crashed s' rpid = false -> narrows ca rpid s s'.
Proof. intros [L1 L2 L3 L4] Hr. constructor; [exact L1|exact L2|done|intros p; apply L3|intros p; apply L4]. Qed.

(** The windows stay, and processes crash whose windows are open. *)
Lemma later_same s s' : (forall p ca, win s' p ca = win s p ca) -> crashes_grow s s' -> keeps_pids s s' -> later s s'.
Proof. intros Hw Hc Hp. constructor; [done|done|intros p ca..]; by rewrite Hw. Qed.
Lemma windows_same s s' : (forall p ca, win s' p ca = win s p ca) -> crashes_grow s s' -> one_crash s' ->
  windows_ok s -> windows_ok s'.
Proof.
  intros Hw Hc Hn Hs ca. destruct (Hs ca) as (L1 & L2 & _). split; [|split; [|done]].
  - intros p. rewrite Hw. apply L1.
  - intros p Hp. rewrite Hw. apply L2. destruct (is_crashed s p) eqn:E; [|done]. by rewrite (Hc _ E) in Hp.
Qed.

Lemma later_load ca rpid s s' : evol ca rpid s s' -> later s s'.
Proof.
  intros He. constructor.
  - by apply same_pids, (ev_sched _ _ _ _ He).
  - intros p. by eapply crashed_mono.
  - intros p cb. destruct (decide (cb = ca)) as [->|Hne]; [apply He|by rewrite (ev_other _ _ _ _ He p cb Hne)].
  - intros p cb. destruct (decide (cb = ca)) as [->|Hne]; [apply He|by rewrite (ev_other _ _ _ _ He p cb Hne)].
Qed.
Lemma windows_load ca rpid s s' : evol ca rpid s s' -> line_ok ca s' -> windows_ok s -> windows_ok s'.
Proof.
  intros He Hl Hs cb. destruct (decide (cb = ca)) as [->|Hne]; [done|]. destruct (Hs cb) as (L1 & L2 & _).
  split; [|split; [|apply Hl]]; intros p; rewrite (ev_other _ _ _ _ He p cb Hne); [apply L1|].
  intros Hp. apply L2. destruct (is_crashed s p) eqn:E; [|done]. by rewrite (crashed_mono _ _ _ _ _ He E) in Hp.
Qed.

Section Flushed.
Context (s s' : St) (a : ModelAction).
Hypothesis He : flush_effect (flush_time s a) a s s'.
Let Hw := fe_windows _ _ _ _ He.
Let Hc := fe_crashes _ _ _ _ He.

Lemma later_flush : later s s'.
Proof.
  constructor; [apply He|exact Hc|intros p ca..]; rewrite Hw; unfold flushed.
  - case_decide as Hd; [|done]. destruct Hd as (-> & _ & Hlt). simpl. lia.
  - case_decide as Hd; [|done]. by destruct Hd as (-> & _).
Qed.
Lemma windows_flush : nothing_lost s a -> one_crash s' -> windows_ok s -> windows_ok s'.
Proof.
  intros Hn Hsz Hs ca. destruct (Hs ca) as (L1 & L2 & _). split; [|split; [|done]]; intros p; rewrite Hw; unfold flushed.
  - case_decide as Hd; [|apply L1]. destruct Hd as (-> & _ & Hlt). simpl. destruct (L1 p). split; [lia|]. apply Hn.
  - intros Hp. assert (is_crashed s p = false) as Hp'.
    { destruct (is_crashed s p) eqn:E; [|done]. by rewrite (Hc _ E) in Hp. }
    case_decide as Hd; [|by apply L2]. destruct Hd as (-> & _). simpl. by apply L2.
Qed.
End Flushed.

Definition same_windows (s s' : St) : Prop :=
  obj_to_cl (mdl s') = obj_to_cl (mdl s) /\ crashes (mdl s') = crashes (mdl s) /\ keeps_pids s s'.
Lemma later_quiet s s' : same_windows s s' -> later s s' /\ (windows_ok s -> windows_ok s').
Proof.
  intros (H1 & H2 & H3).
  assert (forall p ca, win s' p ca = win s p ca) as Hw by (intros p ca; unfold win; by rewrite H1).
  assert (crashes_grow s s') as Hc by (intros p; unfold is_crashed; by rewrite H2).
  split; [by apply later_same|]. intros Hs. apply (windows_same s); [done|done| |done].
  unfold one_crash. rewrite H2. apply (Hs 0).
Qed.
Lemma elsewhere_quiet s s' : elsewhere s s' -> later s s' /\ (windows_ok s -> windows_ok s').
Proof.
  intros [H1 H2 H3 H4]. assert (crashes_grow s s') as Hc by (intros p; unfold is_crashed; by rewrite H3).
  split; [by apply later_same|]. intros Hs. apply (windows_same s); [done|done| |done].
  unfold one_crash. rewrite H3. apply (Hs 0).
Qed.

(** The value of the load [read] in [s] when the processes that have crashed in
    [s'] persisted as [O] says. *)
Definition recalled (s s' : St) (O : oracle) (read : ModelAction) : Z :=
  match lookupZ (threads (sched s)) (act_tid read) with
  | Some t => replay_value s' (O (getCacheID (location read))) (rev (stores_of s read)) (location read) (local_slots t read)
  | None => 0
  end.

(** What is known of a load for the rest of the execution. *)
Definition load_lasts (s : St) (r : ModelAction) (x : Z) : Prop :=
  (forall O, possible s O -> x = recovered s O r) /\
  forall s2 O, later s s2 -> one_crash s2 -> is_crashed s2 (pid_of s r) = false -> possible s2 O -> x = recalled s s2 O r.

(** The step of a history. *)
Record op_effect (s s1 : St) (op : mem_op) (v : option Z) : Prop := mkOpEffect {
  oe_later : later s s1;
  oe_windows : windows_ok s1;
  oe_load : forall r, op = OLoad r -> exists x, v = Some x /\ load_lasts s1 r x
}.
Definition effect_post (s : St) (op : mem_op) (r : result St (option Z)) : Prop :=
  forall s1, op_end r = Some s1 -> op_effect s s1 op (match r with Val v _ => v | Stop _ _ => None end).

Lemma load_effect M s r : wf M s -> windows_ok s -> op_ok s (OLoad r) -> wp (run_op (OLoad r)) (effect_post s (OLoad r)) s.
Proof.
  intros Hs Hw Hop. destruct (wf_load_ready M s r Hs Hw Hop) as (t & stores & Hr & _). simpl. wp_step.
  eapply wp_mono; [|by apply (build_read_from_lasting s r t stores)]. intros [v s1|e s1]; [|done].
  intros (He & Hl & HT). unfold wp; simpl. intros x [= <-]. constructor; [by eapply later_load|by eapply windows_load|].
  intros r' [= <-]. exists v. split; [done|].
  assert (lookupZ (threads (sched s1)) (act_tid r) = Some t /\ stores_of s1 r = stores) as [Ht1 Hst1].
  { unfold stores_of. by rewrite (ev_sched _ _ _ _ He), (ev_wr _ _ _ _ He), (lr_thread _ _ _ _ Hr), (lr_list _ _ _ _ Hr). }
  unfold load_lasts, recovered, recalled. rewrite Ht1, Hst1. split.
  - intros O HO. apply HT; [apply narrows_refl|apply Hl|apply HO].
  - intros s2 O Hlt Hn Hc HO. apply HT; [|done|apply HO]. apply later_narrows; [done|].
    unfold pid_of in Hc. by rewrite Ht1 in Hc.
Qed.

Lemma flush_effect_post M s a : wf M s -> M < 2 ^ 32 - 1 -> windows_ok s -> is_flush (act_type a) -> nothing_lost s a ->
  wp (run_op (OFlush a)) (effect_post s (OFlush a)) s.
Proof.
  intros Hs HM Hw Hf Hn. assert (exists B0 : Bound, bound = M + 1) as [B0 HB0] by (by exists (M + 1)). simpl. wp_step.
  eapply wp_mono; [|apply wp_and; [apply evict_clflush_windows, (mw_tables _ _ _ (wf_model _ _ Hs))|
    apply (evict_clflush_model M); [done|lia|done|rewrite HB0; case_decide; lia]]].
  intros r [[He _] Hsafe].
  assert (forall s1, op_end r = Some s1 -> op_effect s s1 (OFlush a) None) as Heff.
  { intros s1 H1. pose proof (He s1 H1) as Hfe. constructor; [by eapply later_flush| |done].
    eapply windows_flush; [done|done| |done]. destruct r as [b s2|[|c| | |] s2]; try done; simpl in *.
    - injection H1 as <-. apply (wf_model _ _ (proj1 Hsafe)).
    - destruct (Z.eqb_spec c EXIT_SUCCESS) as [->|]; [|done]. injection H1 as <-.
      destruct Hsafe as [_ Hx]. apply (wf_model _ _ (Hx eq_refl)). }
  destruct r as [b s1|e s1]; [|exact Heff]. unfold wp; simpl. intros x [= <-]. by apply Heff.
Qed.

Lemma quiet_effect s op r : windows_ok s -> (forall r', op <> OLoad r') ->
  (forall s1, op_end r = Some s1 -> same_windows s s1) -> effect_post s op r.
Proof.
  intros Hw Hop Hr s1 H1. destruct (later_quiet s s1 (Hr s1 H1)) as [L1 L2]. constructor; [done|by apply L2|].
  intros r' ->. by destruct (Hop r').
Qed.
Lemma store_effect s a : windows_ok s -> wp (run_op (OStore a)) (effect_post s (OStore a)) s.
Proof.
  intros Hw. eapply wp_mono; [intros r Hr; by apply quiet_effect, Hr|]. simpl.
  unfold Model_evict_store, get_storelist, get_next_sequence_num, set_storelist, massert. wp_step. case_if; [|done].
  wp_step. unfold wp at 1; simpl. wp_step. wp_step. unfold wp at 1; simpl.
  destruct (obj_to_wr (mdl s) !! _); intros x [= <-]; by (split; [|split; [|apply same_pids]]).
Qed.
Lemma init_effect s a : windows_ok s -> wp (run_op (OInit a)) (effect_post s (OInit a)) s.
Proof.
  intros Hw. eapply wp_mono; [intros r Hr; by apply quiet_effect, Hr|]. simpl.
  unfold ensureInitialValue, get_storelist, set_storelist. wp_step. wp_step. wp_step. unfold wp at 1; simpl.
  destruct (obj_to_wr (mdl s) !! _) as [[|w l]|]; intros x [= <-]; by (split; [|split; [|apply same_pids]]).
Qed.

(** One operation of a history. *)
Lemma op_step s op r e : op_ready s op -> windows_ok s -> r ∈ leaves (run_op op s) -> event_of s op r = Some e -> clean e ->
  ev_op e = op /\ op_effect s (ev_after e) op (ev_value e).
Proof.
  intros [(M & Hs & HM) Hop] Hw Hin He Hc. unfold event_of in He. destruct (op_end r) as [s1|] eqn:E; [|done].
  injection He as <-. split; [done|]. simpl.
  assert (wp (run_op op) (effect_post s op) s) as Hwp; [|unfold wp in Hwp; apply all_leaves_elem in Hwp; rewrite Forall_forall in Hwp; exact (Hwp _ Hin _ E)].
  destruct op as [a|a|a|a]; [by apply (load_effect M)|by apply store_effect| |by apply init_effect].
  apply (flush_effect_post M); [done|done|done|exact Hop|by apply Hc].
Qed.

(** ** Properties *)

(** What the choice [O] of persistence times and the last state [s'] say of an event. *)
Definition explained (O : oracle) (s' : St) (e : event) : Prop := forall r, ev_op e = OLoad r ->
  exists x, ev_value e = Some x /\ x = recovered (ev_after e) O r /\
    (is_crashed s' (pid_of (ev_after e) r) = false -> x = recalled (ev_after e) s' O r).

(** The state of a history: its loads last. *)
Definition lasting (s : St) (e : event) : Prop :=
  later (ev_after e) s /\ forall r, ev_op e = OLoad r -> exists x, ev_value e = Some x /\ load_lasts (ev_after e) r x.

Lemma history_lasts s0 l s : windows_ok s0 -> history s0 l s -> Forall clean l ->
  windows_ok s /\ later s0 s /\ Forall (lasting s) l.
Proof.
  intros Hw. assert (forall s s' l, later s s' -> Forall (lasting s) l -> Forall (lasting s') l) as Hmono.
  { intros s1 s2 k Hl Hk. eapply Forall_impl; [exact Hk|]. intros e [H1 H2]. split; [by etrans|done]. }
  induction 1 as [|l s op r e Hh IH Hop Hin He|l s s' Hh IH Hel]; intros Hc; [by split_and!|..].
  - apply Forall_app in Hc as [Hc Hce]. inversion Hce as [|? ? Hce' _]; subst.
    destruct (IH Hc) as (H1 & H2 & H3). destruct (op_step s op r e Hop H1 Hin He Hce') as [<- [E1 E2 E3]].
    split; [done|]. split; [by etrans|]. apply Forall_app. split; [by eapply Hmono|].
    constructor; [|constructor]. by split.
  - destruct (IH Hc) as (H1 & H2 & H3). destruct (elsewhere_quiet s s' Hel) as [L1 L2].
    split; [by apply L2|]. split; [by etrans|]. by eapply Hmono.
Qed.

Lemma history_explained s0 l s : windows_ok s0 -> history s0 l s -> Forall clean l ->
  (exists O, possible s O) /\ forall O, possible s O -> possible s0 O /\ Forall (explained O s) l.
Proof.
  intros Hw Hh Hc. destruct (history_lasts s0 l s Hw Hh Hc) as (H1 & H2 & H3).
  split; [exists (fun ca p => range_begin (win s p ca)); intros ca; apply (compatible_begin ca s (H1 ca))|].
  intros O HO. split; [by eapply later_possible|]. eapply Forall_impl; [exact H3|].
  intros e [Hl Hv] r Hr. destruct (Hv r Hr) as (x & Hx & V1 & V2). exists x. split; [done|]. split.
  - by apply V1, (later_possible _ s).
  - intros Hcr. apply V2; [done|apply (H1 0)|done|done].
Qed.


(** Process 1 stores 7 and then 9 to a word whose initial value is 0; process 0
    reads 9, which stays.  Process 1 stores 11, and the next load of process 0
    crashes it and decides that 11 was lost: it returns 9 again. *)
Definition demo_write (v : Z) : ModelAction := ModelAction_new 1 NONATOMIC_STORE 64 v memory_order_relaxed 8 "demo".
Definition demo_ops : list (mem_op * nat) :=
  [(OInit demo_read, 0); (OStore (demo_write 7), 0); (OStore (demo_write 9), 0); (OLoad demo_read, 2);
   (OStore (demo_write 11), 0); (OLoad demo_read, 0)]%nat.
Fixpoint follow (ops : list (mem_op * nat)) (s : St) : list event :=
  match ops with
  | [] => []
  | (op, n) :: ops => match leaves (run_op op s) !! n with
                      | Some (Val v s') => mkEvent s op v s' :: follow ops s'
                      | _ => []
                      end
  end.
Fixpoint final (l : list event) (s : St) : St := match l with [] => s | e :: l => final l (ev_after e) end.
Definition demo_events : list event := follow demo_ops (initial 2 0 0).

Example demo_values : ev_value <$> demo_events = [None; None; None; Some 9; None; Some 9].
Proof. vm_compute. reflexivity. Qed.

Lemma initial_windows_ok : windows_ok (initial 2 0 0).
Proof.
  intros ca. split; [|split; [|by vm_compute; lia]].
  - intros p. unfold win. simpl. rewrite demo_window. simpl. lia.
  - intros p _. unfold win. simpl. by rewrite demo_window.
Qed.

(** The clock bound after an operation. *)
Lemma op_next M s op r s1 : wf M s -> M < 2 ^ 32 - 1 -> op_ok s op -> r ∈ leaves (run_op op s) -> op_end r = Some s1 -> wf (M + 1) s1.
Proof.
  intros Hs HM Hop Hin He. assert (exists B0 : Bound, bound = M + 1) as [B0 HB0] by (by exists (M + 1)).
  assert (wp (run_op op) (safe (fun _ s' => wf (M + 1) s')) s) as Hwp.
  { destruct op as [a|a|a|a]; simpl in *.
    - destruct Hop as (H1 & H2 & H3). eapply wp_safe_bind; [by apply (build_read_from_model M)|].
      intros v s2 [Hs2 _]. apply (wf_weaken M); [lia|done].
    - destruct Hop as (H1 & H2). eapply wp_safe_bind; [by apply (evict_store_model M)|]. by intros v s2 [Hs2 _].
    - eapply wp_safe_bind; [apply (evict_clflush_model M); [done|done|done|rewrite HB0; case_decide; lia]|].
      intros v s2 [Hs2 _]. case_decide; [done|]. apply (wf_weaken M); [lia|done].
    - eapply wp_safe_bind; [by apply (ensureInitialValue_model M)|]. intros v s2 [Hs2 _]. apply (wf_weaken M); [lia|done]. }
  unfold wp in Hwp. apply all_leaves_elem in Hwp. rewrite Forall_forall in Hwp. specialize (Hwp _ Hin).
  destruct r as [v s2|[|c| | |] s2]; try done; simpl in *; [by injection He as <-|].
  destruct (Z.eqb_spec c EXIT_SUCCESS) as [->|]; [|done]. injection He as <-. destruct Hwp as [_ Hx]. rewrite <- HB0. by apply Hx.
Qed.

(** Following the operations gives a history, when each of them is ready. *)
Section Follow.
Context (ok : St -> mem_op -> bool).
Hypothesis ok_sound : forall s op, ok s op = true -> op_ok s op.

Fixpoint all_ok (ops : list (mem_op * nat)) (s : St) : bool :=
  match ops with
  | [] => true
  | (op, n) :: ops => ok s op &&
      match leaves (run_op op s) !! n with Some (Val v s') => all_ok ops s' | _ => false end
  end.
Lemma follow_history s0 ops : forall M l s, history s0 l s -> wf M s -> M + Z.of_nat (length ops) < 2 ^ 32 - 1 -> all_ok ops s = true ->
  history s0 (l ++ follow ops s) (final (follow ops s) s).
Proof.
  induction ops as [|[op n] ops IH]; intros M l s Hh Hs HM Hr; [by rewrite app_nil_r|].
  simpl in Hr. apply andb_true_iff in Hr as [Hop%ok_sound Hr]. cbn [follow]. rewrite length_cons in HM.
  destruct (leaves (run_op op s) !! n) as [[v s'|]|] eqn:E; [|done|done]. cbn [final ev_after].
  apply list_elem_of_lookup_2 in E. rewrite cons_middle, app_assoc. apply (IH (M + 1)); [|eapply op_next; [exact Hs|lia|exact Hop|exact E|done]|lia|done].
  eapply (hist_op s0 l s op); [done| |exact E|done]. split; [|done]. exists M. split; [done|lia].
Qed.
End Follow.

Lemma follow_ops ops : forall s e, e ∈ follow ops s -> ev_op e ∈ ops.*1.
Proof.
  induction ops as [|[op n] ops IH]; intros s e; simpl; [by intros ?%elem_of_nil|].
  destruct (leaves (run_op op s) !! n) as [[v s'|]|]; [|by intros ?%elem_of_nil..].
  intros [->|He]%elem_of_cons; [by left|]. right. by eapply IH.
Qed.

Definition demo_based (s : St) : bool :=
  (thread_count s =? 2) && match obj_to_wr (mdl s) !! 64 with Some (_ :: _) => true | _ => false end.
Definition demo_op_ok (s : St) (op : mem_op) : bool :=
  bool_decide (op = OInit demo_read) ||
  (demo_based s && (bool_decide (op = OLoad demo_read) || bool_decide (op ∈ OStore <$> (demo_write <$> [7; 9; 11])))).
Lemma demo_access op t v : access_ok (ModelAction_new op t 64 v memory_order_relaxed 8 "demo").
Proof. split; [split; [by right; right; right|done]|simpl; lia]. Qed.
Lemma demo_op_sound s op : demo_op_ok s op = true -> op_ok s op.
Proof.
  unfold demo_op_ok, demo_based. rewrite orb_true_iff, !andb_true_iff, orb_true_iff, !bool_decide_eq_true, Z.eqb_eq.
  intros [->|[[Hn Hl] Hop]]; [apply demo_access|].
  assert (based (obj_to_wr (mdl s)) 64) as Hb.
  { destruct (obj_to_wr (mdl s) !! 64) as [[|w l]|] eqn:E; [done| |done]. by exists (w :: l). }
  destruct Hop as [->|Hop].
  - split; [apply demo_access|]. split; [rewrite Hn; simpl; lia|done].
  - apply list_elem_of_fmap in Hop as (a & -> & (v & -> & _)%list_elem_of_fmap). split; [done|].
    constructor; [rewrite Hn; simpl; lia|done|done|]. intros _. split; [apply demo_access|done].
Qed.
