(* ===== verification/Locks.v ===== *)
(** * Locks: the behaviour of the lock actions on every branch

    [ATOMIC_LOCK], [ATOMIC_TRYLOCK] and [ATOMIC_UNLOCK] of
    [src/src/model/executor.cc], from states of the invariant of [Wf]. *)
From S2P Require Import Prelude Choice Action ReadFrom CacheLine ThreadMemory State Scheduler ModelCore Executor ReadSound Wf ModelSafe Buffers Safety Frame.

(** The state after [tid] took the mutex [m]. *)
Record takes (m tid : Z) (mx : Mutex) (s s' : St) : Prop := mkTakes {
  tk_mutex : mutexes s' !! m = Some (mkMutex (mutex_type mx) (Some tid) 0);
  tk_owned : exists t, lookupZ (threads (sched s')) tid = Some t /\ m ∈ owned_mutexes t;
  tk_others : forall m', m' <> m -> mutexes s' !! m' = mutexes s !! m';
  tk_model : mdl s' = mdl s /\ memory s' = memory s /\ active_thread (sched s') = active_thread (sched s)
}.

(** The thread blocks and another one runs. *)
Definition blocks (tid : Z) (s s' : St) : Prop :=
  (exists t, lookupZ (threads (sched s')) tid = Some t /\ thr_state t = THREAD_BLOCKED) /\
  active_thread (sched s') <> tid /\
  (exists u, lookupZ (threads (sched s')) (active_thread (sched s')) = Some u /\ thr_state u = THREAD_RUNNING) /\
  mutexes s' = mutexes s /\ mdl s' = mdl s.

Definition thread_crashed (s : St) (tid : Z) : bool :=
  match lookupZ (threads (sched s)) tid with
  | Some t => bool_decide (thr_state t = THREAD_CRASHED)
  | None => false
  end.

(** [thread_wait] of the running thread: it is blocked and another thread is
    active, or none can run. *)
Lemma thread_wait_outcome s tid t b : thread_id (proc s) = tid -> is_active s ->
  lookupZ (threads (sched s)) tid = Some t -> pending t = Some b -> may_wait b = true ->
  wp (thread_wait tid) (fun r => match r with
    | Val b s' => b = true /\ exists n u, s' = on_sched (with_active n) (on_thread tid (set_state THREAD_BLOCKED) s) /\
        n <> tid /\ lookupZ (threads (sched s')) n = Some u /\ thr_state u = THREAD_RUNNING
    | Stop e _ => e = Exit EXIT_FAILURE
    end) s.
Proof.
  intros Hid Ha Ht Hp Hw. unfold is_active in Ha.
  unfold thread_wait, wp. erewrite bind_val by (by apply get_thread_run). cbn beta.
  rewrite Hp, Hw. run_step. run_step. set (s1 := on_sched _ s).
  assert (lookupZ (threads (sched s1)) tid = Some (set_state THREAD_BLOCKED t)) as Ht1.
  { simpl. by rewrite lookupZ_update_at, decide_True, Ht. }
  assert (active_thread (sched s1) = tid) as Ha1 by (simpl; congruence).
  unfold yield, assert_active. erewrite bind_val; [|run_step; rewrite Ha1; change (proc s1) with (proc s);
    rewrite Hid, Z.eqb_refl; reflexivity]. cbn beta.
  unfold on_sched_err. run_step.
  assert (sched_ok (sched s1)) as Hok.
  { unfold sched_ok. rewrite Ha1. apply lookupZ_Some in Ht1. exact Ht1. }
  destruct (yield_sched_cases _ Hok) as [(n & u & Hy & Hn & Hu & Hr & _)|(_ & u & Hu & Hy)]; rewrite Hy.
  - split; [done|]. exists n, u. split; [done|]. split; [congruence|]. by split.
  - rewrite Ha1, Ht1 in Hu. injection Hu as <-. reflexivity.
Qed.

Section Locks.
Context (M : Z) (s : St) (t : Thread) (a : ModelAction) (mx : Mutex).
Hypothesis H : exec_ready M s t a.
Let m := location a.
Hypothesis Hm : mutexes s !! m = Some mx.
Let Hs := er_wf _ _ _ _ H.

Lemma take_run : owner mx <> Some (act_tid a) ->
  exists s', Mutex_set_owner m (Some (act_tid a)) s = Leaf (Val tt s') /\ takes m (act_tid a) mx s s'.
Proof.
  intros Ho. destruct (self_thread M s t a H) as [Ht Hc].
  destruct (set_owner_run M s m mx (Some (act_tid a)) Hs Hm) as (l & [Hlen Hl] & Hrun & _); [split; [done|by exists t]|].
  eexists. split; [exact Hrun|]. constructor; simpl; [by rewrite lookup_alter_eq, Hm| | |done].
  - rewrite Hl, Ht. eexists. split; [reflexivity|]. simpl. unfold reowned. rewrite decide_True by done. set_solver.
  - intros m' Hne. by rewrite lookup_alter_ne.
Qed.

Lemma wait_blocks : may_wait a = true ->
  wp (thread_wait (act_tid a)) (fun r => match r with
    | Val b s' => b = true /\ blocks (act_tid a) s s'
    | Stop e _ => e = Exit EXIT_FAILURE
    end) s.
Proof.
  intros Hw. destruct (self_thread M s t a H) as [Ht Hc]. destruct (er_pending _ _ _ _ H) as (b & Hp & Hb).
  pose proof (ao_tid _ _ (er_ok _ _ _ _ H)) as Htid.
  eapply wp_mono; [|eapply (thread_wait_outcome s (act_tid a) t b); [done|apply (er_running _ _ _ _ H)|done|done|congruence]].
  intros [x s'|e s']; [|done]. intros (-> & n & u & -> & Hn & Hu & Hr). split; [done|]. split; [|split; [done|split; [by exists u|done]]].
  exists (set_state THREAD_BLOCKED t). simpl. by rewrite lookupZ_update_at, decide_True, Ht.
Qed.

Lemma lock_loop_outcome : act_type a = ATOMIC_LOCK -> owner mx <> Some (act_tid a) ->
  match owner mx with
  | None => exists s', lock_loop a m s = Leaf (Val (Executed (set_value 0 a)) s') /\ takes m (act_tid a) mx s s'
  | Some o =>
      if thread_crashed s o
      then exists s', lock_loop a m s = Leaf (Val (Executed (set_value 1 a)) s') /\ takes m (act_tid a) mx s s'
      else wp (lock_loop a m) (fun r => match r with
        | Val p s' => p = Blocked PLock /\ blocks (act_tid a) s s'
        | Stop e _ => e = Exit EXIT_FAILURE
        end) s
  end.
Proof.
  intros Hty Ho. unfold lock_loop, wp. rewrite (bind_val _ _ _ _ _ (get_mutex_run s m mx Hm)).
  destruct (take_run Ho) as (s' & Hrun & Htk).
  assert (forall b, (Mutex_set_owner m (Some (act_tid a)) ;;; ret (Executed (set_value (Z.b2z b) a))) s =
    Leaf (Val (Executed (set_value (Z.b2z b) a)) s')) as Hb by (intros b; by rewrite (bind_val _ _ _ _ _ Hrun)).
  destruct (owner mx) as [o|] eqn:Eo; [|exists s'; split; [apply (Hb false)|done]].
  destruct (xw_owner _ _ (wf_mutexes _ _ Hs) m mx o Hm Eo) as (u & Hu & _).
  unfold thread_crashed. rewrite Hu.
  erewrite bind_val; [|erewrite bind_val by (by apply get_thread_run); reflexivity]. cbn beta.
  case_bool_decide as Hcr; [exists s'; split; [apply (Hb true)|done]|].
  change (wp (let! switched := thread_wait (act_tid a) in
    if switched then ret (Blocked PLock) else halt (NoReturn "ATOMIC_LOCK")) (fun r => match r with
        | Val p s' => p = Blocked PLock /\ blocks (act_tid a) s s'
        | Stop e _ => e = Exit EXIT_FAILURE
        end) s).
  wp_step. eapply wp_mono; [|apply wait_blocks; unfold may_wait; by rewrite Hty].
  intros [b s2|e s2]; [|done]. intros [-> Hbl]. unfold wp; simpl. done.
Qed.
End Locks.

(** The lookup of the mutex of an action. *)
Lemma with_mutex {B} a m mx s (k : Z -> Mutex -> Choice.M St B) :
  get_mutex a = inr m -> mutexes s !! m = Some mx ->
  (let! m := lift (get_mutex a) in let! mx := get_mutex_obj m in k m mx) s = k m mx s.
Proof. intros -> Hm. run_step. by rewrite (bind_val _ _ _ _ _ (get_mutex_run s _ mx Hm)). Qed.

(** ** Properties *)

(** C21: Locking, on every branch: a free mutex is taken; so is the mutex of a
    crashed thread, and the caller is told; a thread that owns it counts one
    more level, gets [EDEADLK] or aborts by the type of the mutex; else the
    thread blocks and another thread runs, or no thread can and the program
    exits. *)
Theorem lock_outcome M s t a mx :
  exec_ready M s t a -> act_type a = ATOMIC_LOCK -> mutexes s !! location a = Some mx ->
  let m := location a in
  match owner mx with
  | None => exists s', exec_lock a s = Leaf (Val (Executed a) s') /\ takes m (act_tid a) mx s s'
  | Some o =>
      if act_tid a =? o then
        exec_lock a s = Leaf (
          if mutex_type mx =? PTHREAD_MUTEX_RECURSIVE
          then Val (Executed a) (on_mutexes (alter increment_lock_count m) s)
          else if mutex_type mx =? PTHREAD_MUTEX_ERRORCHECK
          then Val (Executed a) (on_proc (with_errno EDEADLK) s)
          else Stop Abort s)
      else if thread_crashed s o
      then exists s', exec_lock a s = Leaf (Val (Executed (set_value 1 a)) s') /\ takes m (act_tid a) mx s s'
      else wp (exec_lock a) (fun r => match r with
          | Val p s' => p = Blocked PLock /\ blocks (act_tid a) s s'
          | Stop e _ => e = Exit EXIT_FAILURE
          end) s
  end.
Proof.
  intros H Ht Hm. cbn zeta. pose proof (take_run M s t a mx H Hm) as Htake.
  pose proof (lock_loop_outcome M s t a mx H Hm Ht) as Hloop. unfold exec_lock, wp.
  rewrite (with_mutex a (location a) mx s); [|by unfold get_mutex; rewrite Ht|done].
  destruct (owner mx) as [o|].
  - destruct (Z.eqb_spec (act_tid a) o) as [E|E].
    + case_if; [done|]. case_if; done.
    + apply Hloop. congruence.
  - destruct Htake as (s' & Hrun & Htk); [done|]. exists s'. split; [|done]. by rewrite (bind_val _ _ _ _ _ Hrun).
Qed.

Lemma lock_outcome_witness :
  wp (exec_lock (demo_lock 1 ATOMIC_LOCK)) (fun r => match r with
    | Val p s' => p = Blocked PLock /\ blocks 1 (demo_locking 1 ATOMIC_LOCK) s'
    | Stop e _ => e = Exit EXIT_FAILURE
    end) (demo_locking 1 ATOMIC_LOCK).
Proof.
  destruct (demo_locking_ready 1 ATOMIC_LOCK) as [t Ht]; [by right|by left|].
  exact (lock_outcome 0 _ t _ (mkMutex 0 (Some 0) 0) Ht eq_refl eq_refl).
Defined.

(** Trying to lock never blocks: the answer is 1 when the mutex was free, 2
    when its owner had crashed, and the mutex is then the caller's; else the
    answer is 0 and nothing changes. *)
Theorem trylock_outcome M s t a mx :
  exec_ready M s t a -> act_type a = ATOMIC_TRYLOCK -> mutexes s !! location a = Some mx ->
  let free := match owner mx with None => true | Some o => thread_crashed s o end in
  let told := match owner mx with None => 1 | Some _ => 2 end in
  if free
  then owner mx <> Some (act_tid a) -> exists s',
    exec_trylock a s = Leaf (Val (Executed (set_value told a)) s') /\ takes (location a) (act_tid a) mx s s'
  else exec_trylock a s = Leaf (Val (Executed (set_value 0 a)) s).
Proof.
  intros H Ht Hm. cbn zeta. pose proof (take_run M s t a mx H Hm) as Htake. unfold exec_trylock.
  rewrite (with_mutex a (location a) mx s); [|by unfold get_mutex; rewrite Ht|done].
  assert (forall b, owner mx <> Some (act_tid a) -> exists s',
    (Mutex_set_owner (location a) (Some (act_tid a)) ;;; ret (Executed (set_value (1 + Z.b2z b) a))) s =
      Leaf (Val (Executed (set_value (1 + Z.b2z b) a)) s') /\ takes (location a) (act_tid a) mx s s') as Hk.
  { intros b Ho. destruct (Htake Ho) as (s' & Hrun & Htk). exists s'. by rewrite (bind_val _ _ _ _ _ Hrun). }
  destruct (owner mx) as [o|] eqn:Eo; [|apply (Hk false)].
  destruct (xw_owner _ _ (wf_mutexes _ _ (er_wf _ _ _ _ H)) _ mx o Hm Eo) as (u & Hu & _).
  unfold thread_crashed. rewrite Hu.
  case_bool_decide as Hc; [intros Ho; destruct (Hk true Ho) as (s' & Hrun & Htk); exists s'; split; [etransitivity; [|exact Hrun]|done]|];
    (erewrite bind_val; [|erewrite bind_val by (by apply get_thread_run); reflexivity]); cbn beta;
    [by rewrite bool_decide_true|by rewrite bool_decide_false].
Qed.

Lemma trylock_outcome_witness :
  exec_trylock (demo_lock 1 ATOMIC_TRYLOCK) (demo_locking 1 ATOMIC_TRYLOCK) =
    Leaf (Val (Executed (demo_lock 1 ATOMIC_TRYLOCK)) (demo_locking 1 ATOMIC_TRYLOCK)).
Proof.
  destruct (demo_locking_ready 1 ATOMIC_TRYLOCK) as [t Ht]; [by right|by right; left|].
  exact (trylock_outcome 0 _ t _ (mkMutex 0 (Some 0) 0) Ht eq_refl eq_refl).
Defined.

(** C30: Unlocking, on every branch: a thread that does not own the mutex gets
    [EPERM] and changes nothing else; the owner of a recursive mutex leaves one
    level; else the mutex is free, is in the owned set of no thread that has not
    crashed, and every thread that waited for it runs again. *)
Theorem unlock_outcome M s t a mx :
  exec_ready M s t a -> act_type a = ATOMIC_UNLOCK -> mutexes s !! location a = Some mx ->
  let m := location a in
  if decide (owner mx = Some (act_tid a)) then
    if (mutex_type mx =? PTHREAD_MUTEX_RECURSIVE) && (0 <? recursive_lock_count mx)
    then exec_unlock a s = Leaf (Val (Executed a) (on_mutexes (alter decrement_lock_count m) s))
    else exists s', exec_unlock a s = Leaf (Val (Executed a) s') /\
      mutexes s' !! m = Some (mkMutex (mutex_type mx) None 0) /\
      (forall i u, lookupZ (threads (sched s')) i = Some u ->
         (thr_state u <> THREAD_CRASHED -> m ∉ owned_mutexes u) /\ waiting_on u <> Some (OMutex m)) /\
      mdl s' = mdl s
  else exec_unlock a s = Leaf (Val (Executed a) (on_proc (with_errno EPERM) s)).
Proof.
  intros H Ht Hm. cbn zeta. unfold exec_unlock.
  rewrite (with_mutex a (location a) mx s); [|by unfold get_mutex; rewrite Ht|done].
  destruct (decide (owner mx = Some (act_tid a))) as [Ho|Ho]; [|by rewrite bool_decide_false].
  rewrite bool_decide_true by done. cbn [negb]. case_if; [done|].
  destruct (set_owner_run M s (location a) mx None (er_wf _ _ _ _ H) Hm I) as (l & Hl & Hrun & Hw).
  rewrite (bind_val _ _ _ _ _ Hrun). unfold wake_waiters. run_step. rewrite Ht. rewrite bool_decide_false by done.
  eexists. split; [reflexivity|]. simpl. split; [by rewrite lookup_alter_eq, Hm|]. split; [|done].
  intros i u Hu. pose proof (wake_all_lookup (OMutex (location a)) (with_threads l (sched s)) i) as Hlk.
  simpl in Hlk. rewrite Hlk in Hu. destruct (lookupZ l i) as [v|] eqn:Hv; [|done]. injection Hu as <-. split.
  - intros Hc Hin. assert (thr_state v <> THREAD_CRASHED) as Hcv.
    { intros Hx. apply Hc. case_bool_decide as Hwt; [|done]. apply waiting_blocked in Hwt. congruence. }
    assert (location a ∈ owned_mutexes v) as Hin' by (by case_bool_decide).
    destruct (xw_owned _ _ (wf_mutexes _ _ Hw) i v (location a) Hv Hcv Hin') as (my & Hmy & Hoy).
    simpl in Hmy. rewrite lookup_alter_eq, Hm in Hmy. by injection Hmy as <-.
  - case_bool_decide as Hwt; [|done]. intros Hx%waiting_blocked. done.
Qed.

Lemma unlock_outcome_witness : exists s',
  exec_unlock (demo_lock 0 ATOMIC_UNLOCK) (demo_locking 0 ATOMIC_UNLOCK) = Leaf (Val (Executed (demo_lock 0 ATOMIC_UNLOCK)) s') /\
  mutexes s' !! 5 = Some (mkMutex 0 None 0).
Proof.
  destruct (demo_locking_ready 0 ATOMIC_UNLOCK) as [t Ht]; [by left|by right; right|].
  destruct (unlock_outcome 0 _ t _ (mkMutex 0 (Some 0) 0) Ht eq_refl eq_refl) as (s' & H1 & H2 & _).
  by exists s'.
Defined.
