(* ===== verification/Conditions.v ===== *)
(** * Conditions: the behaviour of condition variables

    [ATOMIC_WAIT], [ATOMIC_NOTIFY_ONE] and [ATOMIC_NOTIFY_ALL] of
    [src/src/model/executor.cc], from states of the invariant of [Wf].  That a
    thread that waits sleeps until it is notified is shown in [Waiting]. *)
From S2P Require Import Prelude Choice Action ReadFrom CacheLine ThreadMemory State Scheduler ModelCore Executor ReadSound Wf ModelSafe Buffers Safety Frame Locks.

(** The state after [tid] gave up the mutex [m] and waits for [v]. *)
Record sleeping (m v tid : Z) (mx : Mutex) (s s' : St) : Prop := mkSleeping {
  sl_mutex : mutexes s' !! m = Some (mkMutex (mutex_type mx) None 0);
  sl_self : exists t, lookupZ (threads (sched s')) tid = Some t /\ waiting_on t = Some (OCond v) /\ m ∉ owned_mutexes t;
  sl_woken : forall i u, lookupZ (threads (sched s')) i = Some u -> waiting_on u <> Some (OMutex m);
  sl_next : active_thread (sched s') <> tid /\
    exists u, lookupZ (threads (sched s')) (active_thread (sched s')) = Some u /\ thr_state u = THREAD_RUNNING;
  sl_model : mdl s' = mdl s /\ memory s' = memory s
}.

(** C28: Waiting, on every branch: a thread that does not own the mutex gets [EPERM]
    and does not wait; the owner of a recursive mutex that has locked it more
    than once leaves one level and does not wait; else, in one step, the mutex is
    free, all threads that waited for it can run, the thread waits for the
    condition variable, and another thread is active, or no thread can run and
    the program exits. *)
Theorem wait_outcome M s t a mx :
  exec_ready M s t a -> act_type a = ATOMIC_WAIT -> thr_state t = THREAD_RUNNING -> pending t = Some a ->
  mutexes s !! value a = Some mx ->
  let m := value a in
  if decide (owner mx = Some (act_tid a)) then
    if (mutex_type mx =? PTHREAD_MUTEX_RECURSIVE) && (0 <? recursive_lock_count mx)
    then exec_unlock a s = Leaf (Val (Executed a) (on_mutexes (alter decrement_lock_count m) s))
    else wp (exec_unlock a) (fun r => match r with
      | Val p s' => p = Blocked PAfter /\ sleeping m (location a) (act_tid a) mx s s'
      | Stop e _ => e = Exit EXIT_FAILURE
      end) s
  else exec_unlock a s = Leaf (Val (Executed a) (on_proc (with_errno EPERM) s)).
Proof.
  intros H Ht Hr Hp Hm. cbn zeta. unfold exec_unlock.
  assert (get_mutex a = inr (value a)) as Hg by (unfold get_mutex; by rewrite Ht).
  destruct (self_thread M s t a H) as [Hself Hc].
  case_decide as Ho; [|by rewrite (with_mutex a (value a) mx s), bool_decide_false].
  destruct (_ && _) eqn:Eb.
  { by rewrite (with_mutex a (value a) mx s), bool_decide_true, Eb. }
  unfold wp. rewrite (with_mutex a (value a) mx s) by done. rewrite bool_decide_true, Eb by done. cbn [negb].
  destruct (set_owner_run M s (value a) mx None (er_wf _ _ _ _ H) Hm I) as (l & [Hlen Hl] & Hrun & Hw).
  rewrite (bind_val _ _ _ _ _ Hrun). unfold wake_waiters. run_step. rewrite Ht, bool_decide_true by done.
  set (s2 := on_sched (wake_all_threads_waiting_on _) _).
  assert (forall i, lookupZ (threads (sched s2)) i =
    (fun u => if bool_decide (waiting_on u = Some (OMutex (value a))) then set_state THREAD_RUNNING u else u) <$> lookupZ l i) as Hlk.
  { intros i. apply wake_all_lookup. }
  set (t2 := set_owned (reowned (value a) (owner mx) None (act_tid a) t) t).
  assert (lookupZ (threads (sched s2)) (act_tid a) = Some t2) as Hself2.
  { rewrite Hlk, Hl, Hself. simpl. rewrite bool_decide_false; [done|]. intros Hx%waiting_blocked. simpl in Hx. congruence. }
  match goal with |- all_leaves ?Q (?c s2) => change (wp c Q s2) end.
  wp_step. eapply wp_mono; [|eapply (thread_wait_outcome s2 (act_tid a) t2 a);
    [symmetry; apply (ao_tid _ _ (er_ok _ _ _ _ H))|apply (er_running _ _ _ _ H)|exact Hself2|exact Hp|unfold may_wait; by rewrite Ht]].
  intros [x s'|e s']; [|done]. intros (-> & n & u & -> & Hn & Hu & Hru). unfold wp; simpl. split; [done|].
  constructor; simpl.
  - by rewrite lookup_alter_eq, Hm.
  - exists (set_state THREAD_BLOCKED t2). rewrite lookupZ_update_at, decide_True by done. fold s2 in Hself2. simpl in Hself2.
    rewrite Hself2. split; [done|]. split.
    + unfold waiting_on, get_cond. simpl. by rewrite Hp, Ht.
    + simpl. unfold reowned, disowned. rewrite decide_False, decide_True by done. set_solver.
  - intros i w. rewrite lookupZ_update_at. pose proof (Hlk i) as Hi. simpl in Hi. rewrite Hi.
    destruct (lookupZ l i) as [w0|] eqn:Hw0; simpl; [|by case_decide]. intros Hw1.
    case_decide as Hia; injection Hw1 as <-.
    + unfold waiting_on. simpl. subst i. rewrite Hl, Hself in Hw0. injection Hw0 as <-.
      case_bool_decide; simpl; rewrite Hp, Ht; unfold get_cond; by rewrite Ht.
    + case_bool_decide; [|done]. by intros ?%waiting_blocked.
  - split; [done|]. exists u. split; [exact Hu|done].
  - done.
Qed.

(** Thread 0 owns the mutex 5 and runs; it uses the condition variable 9, for
    which thread 1 may wait. *)
Definition demo_cond (tid : Z) (ty : action_type) : ModelAction :=
  ModelAction_new tid ty 9 5 memory_order_seq_cst 1 "demo".
Definition demo_using (b : bool) (ty : action_type) : St :=
  on_thread 0 (set_pending (Some (demo_cond 0 ty)))
    (on_thread 1 (fun t => if b then set_pending (Some (demo_cond 1 ATOMIC_WAIT)) (set_state THREAD_BLOCKED t) else t)
       (demo_locked 0)).
Definition demo_user (ty : action_type) : Thread :=
  set_pending (Some (demo_cond 0 ty)) (set_owned {[5]} (Thread_main 0)).

Lemma demo_using_ready b ty : ty = ATOMIC_WAIT \/ ty = ATOMIC_NOTIFY_ONE \/ ty = ATOMIC_NOTIFY_ALL ->
  exec_ready 0 (demo_using b ty) (demo_user ty) (demo_cond 0 ty).
Proof.
  intros Hty. constructor; [|done| |by exists (demo_cond 0 ty)|].
  - apply (upd_mild_wf 0 _ 0 (set_owned {[5]} (Thread_main 0))); [|reflexivity|unfold mild; simpl; auto].
    apply (upd_mild_wf 0 _ 1 (Thread_main 1)); [apply wf_locked; lia|reflexivity|by destruct b].
  - by constructor.
  - constructor; [done|..]; simpl; destruct Hty as [-> | [-> | ->]]; try done; try (by intros [?|?]); by intros m [= <-].
Qed.

Lemma wait_outcome_witness :
  wp (exec_unlock (demo_cond 0 ATOMIC_WAIT)) (fun r => match r with
    | Val p s' => p = Blocked PAfter /\ sleeping 5 9 0 (mkMutex 0 (Some 0) 0) (demo_using false ATOMIC_WAIT) s'
    | Stop e _ => e = Exit EXIT_FAILURE
    end) (demo_using false ATOMIC_WAIT).
Proof.
  exact (wait_outcome 0 _ _ (demo_cond 0 ATOMIC_WAIT) (mkMutex 0 (Some 0) 0) (demo_using_ready false _ (or_introl eq_refl))
    eq_refl eq_refl eq_refl eq_refl).
Defined.

(** C29: Notifying: [notify_all] lets every thread run that waited for the condition
    variable and changes nothing else; [notify_one] does so for the first such
    thread after the caller in the cyclic order of the table, for no other, and
    without one it changes nothing. *)
Theorem notify_outcome M s t a :
  exec_ready M s t a -> thr_state t = THREAD_RUNNING -> act_type a = ATOMIC_NOTIFY_ONE \/ act_type a = ATOMIC_NOTIFY_ALL ->
  let waits_for_it u := waiting_on u = Some (OCond (location a)) in
  let thread i := lookupZ (threads (sched s)) i in
  let n := lenZ (threads (sched s)) in
  if decide (act_type a = ATOMIC_NOTIFY_ALL) then
    exists l, execute a s = Leaf (Val (Executed a) (on_sched (with_threads l) s)) /\
      (forall i u, lookupZ l i = Some u -> ~ waits_for_it u) /\
      forall i, lookupZ l i = (fun u => if decide (waits_for_it u) then set_state THREAD_RUNNING u else u) <$> thread i
  else
    (execute a s = Leaf (Val (Executed a) s) /\ forall i u, thread i = Some u -> ~ waits_for_it u) \/
    exists i w, 1 <= i < n /\ let k := (act_tid a + i) mod n in
      thread k = Some w /\ waits_for_it w /\
      (forall x u, 1 <= x < i -> thread ((act_tid a + x) mod n) = Some u -> ~ waits_for_it u) /\
      execute a s = Leaf (Val (Executed a) (on_thread k (set_state THREAD_RUNNING) s)).
Proof.
  intros H0 Hr Hty. cbn zeta. unfold execute. destruct (self_thread M s t a H0) as [Hself Hc].
  assert (get_cond a = inr (location a)) as Hg by (unfold get_cond; by destruct Hty as [-> | ->]).
  case_decide as Hall.
  - rewrite Hall, Hg. eexists. split; [reflexivity|]. split.
    + intros i u. pose proof (wake_all_lookup (OCond (location a)) (sched s) i) as Hk. simpl in Hk. rewrite Hk.
      intros (w & _ & ->)%fmap_Some_1. case_bool_decide as Hx; [|exact Hx]. by intros ?%waiting_blocked.
    + intros i. pose proof (wake_all_lookup (OCond (location a)) (sched s) i) as Hk. simpl in Hk. rewrite Hk.
      destruct (lookupZ (threads (sched s)) i) as [w|]; [|done]. simpl. by case_bool_decide; case_decide.
  - destruct Hty as [Ht|]; [|done]. rewrite Ht, Hg.
    assert (forall c, scan_others (act_tid a) (fun u => bool_decide (waiting_on u = Some (OCond (location a)))) (threads (sched s)) = c ->
      (let! cv := lift (inr (location a)) in wake_one (OCond cv) ;;; ret (Executed a)) s =
        Leaf (Val (Executed a) (on_sched (fun d => match c with
          | Some w => with_threads (update_at w (set_state THREAD_RUNNING) (threads d)) d | None => d end) s))) as Hrun.
    { intros c <-. unfold wake_one. run_step. unfold on_sched, wake_thread_waiting_on. rewrite (ao_tid _ _ (er_ok _ _ _ _ H0)). reflexivity. }
    pose proof Hself as Hb%lookupZ_Some. destruct (scan_others _ _ _) as [k|] eqn:Es in Hrun; rewrite (Hrun _ eq_refl).
    + right. apply scan_Some in Es as (i & w & Hi & -> & Hw & Hwt & Hno). exists i, w.
      split; [unfold lenZ in *; lia|]. split; [done|]. split; [by apply bool_decide_eq_true in Hwt|]. split; [|done].
      intros x u Hx Hu. specialize (Hno x u Hx Hu). by apply bool_decide_eq_false in Hno.
    + left. split; [by destruct s|]. intros i u Hu. destruct (decide (i = act_tid a)) as [->|Hi].
      * rewrite Hself in Hu. injection Hu as <-. intros ?%waiting_blocked. congruence.
      * apply (bool_decide_eq_false_1 (waiting_on u = Some (OCond (location a)))).
        by eapply (scan_others_None _ _ _ i u Hb Es).
Qed.

Lemma notify_outcome_witness : exists k,
  execute (demo_cond 0 ATOMIC_NOTIFY_ONE) (demo_using true ATOMIC_NOTIFY_ONE) =
    Leaf (Val (Executed (demo_cond 0 ATOMIC_NOTIFY_ONE)) (on_thread k (set_state THREAD_RUNNING) (demo_using true ATOMIC_NOTIFY_ONE))).
Proof.
  destruct (notify_outcome 0 _ _ (demo_cond 0 ATOMIC_NOTIFY_ONE)
    (demo_using_ready true _ (or_intror (or_introl eq_refl))) eq_refl (or_introl eq_refl)) as [[_ Hno]|(i & w & _ & _ & _ & _ & Hx)].
  - exfalso. exact (Hno 1 _ eq_refl eq_refl).
  - eexists. exact Hx.
Defined.
