(* ===== verification/Execution.v ===== *)
(** * Execution: from one execution to the next

    The parts of [src/src/model/model.cc] that end an execution and prepare the
    next one ([finish_execution], [terminate_early], [wait_for_next_execution],
    [reset_execution_data], [save_execution], [load_nodestack]), the loop of
    [src/src/model/snapshot.cc], and [check_memory_poisoning], which only a
    build with [MEM_POISON] calls.  A [Run] is what survives an execution. *)
From S2P Require Import Prelude Choice NodeStack NodeFile Action ReadFrom CacheLine ThreadMemory State Scheduler ModelCore Executor ReadSound Wf ModelSafe Buffers Safety.

(** [Model]: the shared objects of the execution, and the members that outlive it. *)
Record Run := mkRun {
  run_st : St;
  nodestack : NodeStack;
  execution_num : Z;
  rollback_again : bool;
  execution_num_save : Z;
  ns_save : bool;                   (* whether a path was given and opens *)
  ns_file : option (list Z)         (* what the file at that path holds *)
}.

Definition on_st (f : St -> St) (r : Run) : Run :=
  mkRun (f (run_st r)) (nodestack r) (execution_num r) (rollback_again r) (execution_num_save r) (ns_save r) (ns_file r).
Definition with_nodestack (n : NodeStack) (r : Run) : Run :=
  mkRun (run_st r) n (execution_num r) (rollback_again r) (execution_num_save r) (ns_save r) (ns_file r).
Definition with_execution_num (n : Z) (r : Run) : Run :=
  mkRun (run_st r) (nodestack r) n (rollback_again r) (execution_num_save r) (ns_save r) (ns_file r).
Definition with_rollback (b : bool) (r : Run) : Run :=
  mkRun (run_st r) (nodestack r) (execution_num r) b (execution_num_save r) (ns_save r) (ns_file r).
Definition with_file (f : option (list Z)) (r : Run) : Run :=
  mkRun (run_st r) (nodestack r) (execution_num r) (rollback_again r) (execution_num_save r) (ns_save r) f.

(** [new Model(scheduler)] and [new NodeStack]; no path to save to. *)
Definition Run_new (pc : Z) (p : Process) (file : option (list Z)) : Run :=
  mkRun (mkSt (Scheduler_new pc) (Model_new pc) ∅ ∅ 1 ∅ p) NodeStack_new 1 true 0 false file.

(** A computation on the shared objects, inside a run. *)
Definition in_run {A} (m : M St A) : M Run A := fun r =>
  tbind (m (run_st r)) (fun x => Leaf (match x with
    | Val a s => Val a (on_st (fun _ => s) r)
    | Stop e s => Stop e (on_st (fun _ => s) r)
    end)).

Definition save_execution (exec_num : Z) (opens : bool) (r : Run) : Run :=
  mkRun (run_st r) (nodestack r) (execution_num r) (rollback_again r) exec_num opens (ns_file r).

(** [execution_num.store(exec_num)] converts to [int]. *)
Definition load_nodestack (file : option (list Z)) (r : Run) : Run :=
  let (exec_num, n) := NodeFile.set_state file (nodestack r) in
  with_nodestack n (with_execution_num (swrap 32 exec_num) r).

Definition reset_model (m : Model) : Model :=
  mkModel 0 ∅ (CacheLineStore_clear (obj_to_cl m)) ∅ ∅ ∅ ∅ (crash_points m) (cxl_mapping m).
(** The actions, mutexes and condition variables are deleted with their maps,
    and their numbers are free again. *)
Definition reset_execution_data (s : St) : St :=
  mkSt (sched s) (reset_model (mdl s)) ∅ ∅ 1 (memory s) (proc s).

Definition finish_last (r : Run) : Run :=
  let num := execution_num r in
  let r := on_st reset_execution_data r in
  let r := on_st (on_sched reset_sched) r in
  let r := on_st (on_mdl (with_crash_points 0)) r in
  let again := rollback_again r && (num + 1 <=? MAX_EXECUTION) && has_another_execution (nodestack r) in
  let r := with_rollback again r in
  let r :=
    if again then
      let r := with_nodestack (reset_execution (nodestack r)) r in
      if execution_num_save r =? num + 1
      then with_file (save_state (u32 (num + 1)) (ns_save r) (nodestack r) (ns_file r)) r
      else r
    else r in
  with_execution_num (num + 1) r.

Definition finish_execution : M Run unit :=
  let! more := in_run finalize in
  if more then ret tt else modify finish_last.

Definition terminate_early : M Run unit :=
  modify (with_rollback false) ;;;
  in_run set_terminating ;;;
  finish_execution ;;;
  halt (Exit EXIT_FAILURE).

(** [None]: the loop waits for an execution that has not ended. *)
Definition wait_for_next_execution (num : Z) (r : Run) : option bool :=
  if (MAX_EXECUTION <? num) || negb (rollback_again r) then Some false
  else if execution_num r <? num then None
  else Some (rollback_again r).

(** ** [take_snapshot] *)

(** What [waitpid] reports of the child that ran an execution, [None] where the
    child never ends and [waitpid] does not return. *)
Inductive status := Exited (code : Z) | Signaled (sig : Z).
Definition failed (s : status) : bool :=
  match s with Exited c => negb (c =? 0) | Signaled _ => true end.

Section Snapshot.
(** The forked child: it runs one execution on the shared objects. *)
Variable child : Run -> option status * Run.

(** The loop ends, terminates early, or waits for ever: for a child that does not
    end, or for an execution that has not been counted. *)
Inductive ending := Finished (r : Run) | Terminated (t : tree (result Run unit)) | Hung (r : Run) | Stuck (r : Run) | OutOfFuel.

(** Executions from number [execution_num] on; the second component lists the
    states in which the loop has started one. *)
Fixpoint take_snapshot (fuel : nat) (num : Z) (r : Run) : ending * list Run :=
  match fuel with
  | O => (OutOfFuel, [])
  | S fuel =>
      match child r with
      | (None, r') => (Hung r', [r])
      | (Some st, r') =>
          if failed st then (Terminated (terminate_early r'), [r])
          else
            match wait_for_next_execution (num + 1) r' with
            | None => (Stuck r', [r])
            | Some false => (Finished r', [r])
            | Some true => let (e, l) := take_snapshot fuel (num + 1) r' in (e, r :: l)
            end
      end
  end.

(** Every child ends, and has finished its execution unless it fails. *)
Hypothesis child_finishes : forall r o r', child r = (o, r') ->
  exists st, o = Some st /\ (failed st = false -> execution_num r' = execution_num r + 1).

Lemma take_snapshot_bound fuel : forall num r, 0 <= MAX_EXECUTION - num + 1 <= Z.of_nat fuel ->
  execution_num r = num -> (0 < fuel)%nat ->
  let (e, l) := take_snapshot fuel num r in
  (match e with Finished _ | Terminated _ => True | _ => False end) /\
  lenZ l <= Z.max 1 (MAX_EXECUTION - num + 1).
Proof.
  induction fuel as [|fuel IH]; intros num r Hf Hnum Hpos; [lia|]. cbn [take_snapshot].
  destruct (child r) as [o r'] eqn:Ec. destruct (child_finishes _ _ _ Ec) as (st & -> & Hn).
  destruct (failed st) eqn:Ef; [split; [done|unfold lenZ; simpl; lia]|]. specialize (Hn eq_refl). unfold wait_for_next_execution.
  destruct ((MAX_EXECUTION <? num + 1) || negb (rollback_again r')) eqn:Eb; [split; [done|unfold lenZ; simpl; lia]|].
  bools. rewrite (proj2 (Z.ltb_ge _ _)) by lia.
  destruct (rollback_again r'); [|split; [done|unfold lenZ; simpl; lia]].
  specialize (IH (num + 1) r' ltac:(lia) ltac:(lia) ltac:(unfold MAX_EXECUTION in *; lia)).
  destruct (take_snapshot fuel (num + 1) r') as [e l]. destruct IH as [He Hn']. split; [done|].
  unfold MAX_EXECUTION, lenZ in *. simpl. lia.
Qed.
End Snapshot.

(** ** [check_memory_poisoning] *)

(** One iteration of the loop: the word of [addr]; [poison] is the time and the
    process of the newest poisoning store so far. *)
Definition poison_word (read : ModelAction) (cache_addr addr : Z) (poison : Z * Z) : M St (Z * Z) :=
  let! stores := get_storelist addr in
  match stores with
  | [] => ret poison
  | head :: _ =>
      let! head_pid := get_process_id head in
      let! s := get in
      if negb (is_crashed s head_pid) then ret poison
      else
        let! cl := cacheline head_pid cache_addr in
        if negb (range_end cl =? 0) && (range_end cl <? Action.seq_num read) then halt (Exit EXIT_FAILURE)
        else
          if (range_begin cl <? Action.seq_num head) && (fst poison <? Action.seq_num head)
          then ret (Action.seq_num head, head_pid) else ret poison
  end.

Fixpoint poison_loop (offsets : list Z) (read : ModelAction) (cache_addr : Z) (poison : Z * Z) : M St (Z * Z) :=
  match offsets with
  | [] => ret poison
  | i :: offsets => let! p := poison_word read cache_addr (cache_addr + i) poison in poison_loop offsets read cache_addr p
  end.

Definition check_memory_poisoning (read : ModelAction) : M St unit :=
  let cache_addr := getCacheID (Action.location read) in
  let! (poison_begin, poison_pid) := poison_loop (seqZ 0 (CACHELINE_SIZE / 8)) read cache_addr (0, 0) in
  if poison_begin =? 0 then ret tt
  else
    let! cl := cacheline poison_pid cache_addr in
    let! c := decision_point_m 2 in
    if c =? 0 then
      assign_cacheline poison_pid cache_addr (setEnd poison_begin cl) ;;;
      halt (Exit EXIT_FAILURE)
    else assign_cacheline poison_pid cache_addr (setBegin poison_begin cl).

(** ** A new execution starts afresh *)

Lemma clear_window s p a : range_begin (window_of (CacheLineStore_clear s) p a) = 0 /\
  range_end (window_of (CacheLineStore_clear s) p a) = 0.
Proof.
  unfold window_of, CacheLineStore_clear, lookupZ. case_if; [done|]. rewrite list_lookup_fmap.
  destruct (s !! Z.to_nat p) as [[t|]|]; simpl; [|done..]. by rewrite lookup_empty.
Qed.

Lemma clear_table s p : has_table s p -> has_table (CacheLineStore_clear s) p.
Proof.
  intros [t Ht]. unfold has_table, CacheLineStore_clear, lookupZ in *. case_if; [done|].
  rewrite list_lookup_fmap, Ht. simpl. by eexists.
Qed.

(** The shared objects of a new execution: no store, no window, no crash, the
    clock at zero, the main threads ready to run. *)
Record fresh (pc : Z) (s : St) : Prop := mkFresh {
  fr_count : process_count (sched s) = pc;
  fr_active : active_thread (sched s) = 0;
  fr_threads : threads (sched s) = Thread_main <$> seqZ 0 pc;
  fr_seq : next_sequence_num (mdl s) = 0;
  fr_wr : obj_to_wr (mdl s) = ∅;
  fr_windows : forall p a, range_begin (window_of (obj_to_cl (mdl s)) p a) = 0 /\
                           range_end (window_of (obj_to_cl (mdl s)) p a) = 0;
  fr_crashes : crashes (mdl s) = ∅;
  fr_completed : completed_procs (mdl s) = ∅;
  fr_mutexes : mutexes s = ∅ /\ mutex_map (mdl s) = ∅ /\ cond_map (mdl s) = ∅
}.

(** The process [pid], forked for a new execution. *)
Definition as_process (pid seed : Z) (s : St) : St := on_proc (fun _ => Process_init pid seed) s.

Lemma fresh_wf pc s pid seed : fresh pc s -> 0 <= pid < pc ->
  (forall p, 0 <= p < pc -> has_table (obj_to_cl (mdl s)) p) -> wf 0 (as_process pid seed s).
Proof.
  intros [F1 F2 F3 F4 F5 F6 F7 F8 (F9 & _)] Hp Ht.
  assert (lenZ (threads (sched s)) = pc) as Hlen by (rewrite F3; unfold lenZ; rewrite length_fmap, length_seqZ; lia).
  constructor; unfold thread_count; simpl; rewrite ?Hlen, ?F1, ?F5.
  - constructor; [unfold sched_ok; rewrite F2, Hlen; lia|]. rewrite F1, F3. intros i t [Hi ->]%main_thread_inv. simpl. lia.
  - constructor; try done.
    + intros p ca. by rewrite (proj1 (F6 p ca)).
    + by rewrite F5.
    + by rewrite F4.
    + rewrite F7, map_size_empty. lia.
  - rewrite F3. intros i t [Hi ->]%main_thread_inv. by split.
  - rewrite F3, F9. constructor; [done|]. intros i t m [Hi ->]%main_thread_inv _ Hin. simpl in Hin. set_solver.
  - exists (Thread_main pid). rewrite F3. split; [by apply main_thread|done].
  - unfold clock. simpl. rewrite F3, F4. assert (forall l, buffered (Thread_main <$> l) = 0) as ->; [|lia].
    intros l. unfold buffered. by induction l.
  - exact I.
Qed.

Lemma finish_last_fresh r : fresh (process_count (sched (run_st r))) (run_st (finish_last r)) /\
  (forall p, has_table (obj_to_cl (mdl (run_st r))) p -> has_table (obj_to_cl (mdl (run_st (finish_last r)))) p).
Proof.
  unfold finish_last. set (again := rollback_again _ && _ && _).
  assert (forall r1 : Run, fresh (process_count (sched (run_st r))) (run_st r1) ->
    (forall p, has_table (obj_to_cl (mdl (run_st r))) p -> has_table (obj_to_cl (mdl (run_st r1))) p) ->
    forall r2 : Run, run_st r2 = run_st r1 ->
    let r3 := with_execution_num (execution_num r + 1) r2 in
    fresh (process_count (sched (run_st r))) (run_st r3) /\
    (forall p, has_table (obj_to_cl (mdl (run_st r))) p -> has_table (obj_to_cl (mdl (run_st r3))) p)) as Hlift.
  { intros r1 [F1 F2 F3 F4 F5 F6 F7 F8 F9] Ht r2 Hr2. simpl. rewrite Hr2. split; [by constructor|done]. }
  set (r1 := with_rollback again _).
  apply (Hlift r1); [constructor; try done; simpl; intros; apply clear_window|simpl; intros; by apply clear_table|].
  destruct again; [|done]. by destruct (execution_num_save _ =? _).
Qed.

(** The exit handler of a process: it hands over, or it is the last one. *)
Lemma finish_execution_cases r b s : finalize (run_st r) = Leaf (Val b s) ->
  finish_execution r = Leaf (Val tt (if b then on_st (fun _ => s) r else finish_last (on_st (fun _ => s) r))).
Proof. intros Hf. unfold finish_execution, bind, in_run. rewrite Hf. by destruct b. Qed.

(** ** Properties *)

(** Every execution starts afresh: when the last thread finishes an
    execution, the next one begins with no stores, windows, crashes, mutexes or
    buffered actions, with the clock at zero and the main threads ready, in a
    state that satisfies the invariant of the checker. *)
Theorem execution_starts_fresh r pid seed :
  let pc := process_count (sched (run_st r)) in
  0 <= pid < pc -> (forall p, 0 <= p < pc -> has_table (obj_to_cl (mdl (run_st r))) p) ->
  fresh pc (run_st (finish_last r)) /\ wf 0 (as_process pid seed (run_st (finish_last r))) /\
  execution_num (finish_last r) = execution_num r + 1.
Proof.
  cbn zeta. intros Hp Ht. destruct (finish_last_fresh r) as [Hf Htab]. split; [done|]. split.
  - eapply fresh_wf; [done|done|]. intros p Hpp. by apply Htab, Ht.
  - unfold finish_last. done.
Qed.

Definition demo_run : Run := Run_new 2 (Process_init 0 0) None.
Lemma execution_starts_fresh_witness : wf 0 (as_process 1 42 (run_st (finish_last demo_run))).
Proof.
  apply (execution_starts_fresh demo_run 1 42); simpl; [lia|]. intros p Hp. eexists. by apply (init_table 2).
Defined.

(** C31: The exploration ends: if every child ends and has counted its execution
    unless its status is a failure, [take_snapshot] starts at most [MAX_EXECUTION]
    executions (and at least one) and then finishes or terminates early; it never
    waits for an execution that has ended.  The condition is needed: with a child
    that ends without counting its execution the loop waits for ever
    ([Findings.deadlock_stalls]). *)
Theorem exploration_ends child r :
  (forall r o r', child r = (o, r') ->
     exists st, o = Some st /\ (failed st = false -> execution_num r' = execution_num r + 1)) ->
  1 <= execution_num r <= MAX_EXECUTION ->
  let (e, l) := take_snapshot child (Z.to_nat MAX_EXECUTION) (execution_num r) r in
  (match e with Finished _ | Terminated _ => True | _ => False end) /\ lenZ l <= MAX_EXECUTION.
Proof.
  intros Hc Hn. pose proof (take_snapshot_bound child Hc (Z.to_nat MAX_EXECUTION) (execution_num r) r) as Hb.
  destruct (take_snapshot _ _ _ _) as [e l]. destruct Hb as [He Hl]; [lia|done|unfold MAX_EXECUTION in *; lia|].
  split; [done|lia].
Qed.

(** A child whose first two executions succeed, and whose third fails. *)
Definition demo_child (r : Run) : option status * Run :=
  if execution_num r <? 3 then (Some (Exited 0), finish_last r) else (Some (Signaled 11), r).
Lemma exploration_ends_witness :
  let (e, l) := take_snapshot demo_child (Z.to_nat MAX_EXECUTION) 1 demo_run in lenZ l <= MAX_EXECUTION.
Proof.
  pose proof (exploration_ends demo_child demo_run) as H.
  assert (forall r o r', demo_child r = (o, r') ->
    exists st, o = Some st /\ (failed st = false -> execution_num r' = execution_num r + 1)) as Hc.
  { intros r o r'. unfold demo_child. case_if; intros [= <- <-]; by eexists. }
  specialize (H Hc ltac:(unfold MAX_EXECUTION; simpl; lia)).
  change (execution_num demo_run) with 1 in H.
  destruct (take_snapshot demo_child (Z.to_nat MAX_EXECUTION) 1 demo_run) as [e l]. apply H.
Defined.

Lemma first_word loc i : 0 <= i < 8 -> alignAddress (getCacheID loc + i) = getCacheID loc.
Proof.
  intros Hi. rewrite alignAddress_eq, getCacheID_eq. Z.div_mod_to_equations. lia.
Qed.

Lemma poison_loop_empty read ca l p s : obj_to_wr (mdl s) !! ca = Some [] ->
  (forall i, i ∈ l -> alignAddress (ca + i) = ca) -> poison_loop l read ca p s = Leaf (Val p s).
Proof.
  intros Hw Hl. induction l as [|i l IH]; simpl; [done|].
  assert (poison_word read ca (ca + i) p s = Leaf (Val p s)) as Hp.
  { unfold poison_word, get_storelist, wp. rewrite (Hl i) by set_solver. unfold bind, get. simpl. by rewrite Hw. }
  rewrite (bind_val _ _ _ _ _ Hp). apply IH. set_solver.
Qed.

(** The poison check looks at the first word of the cache line only, eight
    times: when that word has no store, the check passes without a question,
    whatever crashed stores the other words of the line have. *)
Theorem poison_checks_first_word read s :
  obj_to_wr (mdl s) !! getCacheID (Action.location read) = Some [] ->
  check_memory_poisoning read s = Leaf (Val tt s).
Proof.
  intros Hw. unfold check_memory_poisoning.
  rewrite (bind_val _ _ s (0, 0) s); [done|]. apply poison_loop_empty; [done|].
  intros i Hi%elem_of_seqZ. apply first_word. change (CACHELINE_SIZE / 8) with 8 in Hi. lia.
Qed.

Lemma poison_checks_first_word_witness :
  let s := on_mdl (with_wr {[64 := []; 72 := [demo_store 7 1]]}) (on_mdl (with_crashes {[1 := 2]}) (initial 2 0 0)) in
  check_memory_poisoning (ModelAction_new 0 NONATOMIC_LOAD 72 0 memory_order_relaxed 8 "demo") s = Leaf (Val tt s).
Proof. cbn zeta. apply poison_checks_first_word. reflexivity. Defined.
