(* ===== verification/Evolve.v ===== *)
(** * Evolve: what one turn of a thread does to the others

    [evolved C s0 s] relates the state before a turn of the running thread with
    one during it: the threads are still there with their processes, mutexes
    and initial values are not lost, and a thread [j] changed as [C] allows.
    The lemmas show that the code of an action stays within it: another thread
    keeps its pending action, goes on running and is not ended, except that the
    crash of a process ends the threads of that process. *)
From S2P Require Import Prelude Choice Action ReadFrom CacheLine ThreadMemory State Scheduler ModelCore Executor ReadSound Wf Safety Frame.

Definition change := Z -> Thread -> Thread -> Prop.

(** The thread that [j] was before the turn; a new thread belongs to the process
    that runs and is not its main thread. *)
Definition origin (s0 : St) (j : Z) (t : Thread) : Prop :=
  lookupZ (threads (sched s0)) j = Some t \/
  (lookupZ (threads (sched s0)) j = None /\ thr_pid t = process_id (proc s0) /\ is_main t = false).

Record evolved (C : change) (s0 s : St) : Prop := mkEvolved {
  ev_count : process_count (sched s) = process_count (sched s0);
  ev_terminating : terminating (sched s) = terminating (sched s0);
  ev_process : process_id (proc s) = process_id (proc s0) /\ thread_id (proc s) = thread_id (proc s0);
  ev_stay : forall j, is_Some (lookupZ (threads (sched s0)) j) -> is_Some (lookupZ (threads (sched s)) j);
  ev_threads : forall j t', lookupZ (threads (sched s)) j = Some t' ->
    exists t, origin s0 j t /\ thr_pid t' = thr_pid t /\ is_main t' = is_main t /\ C j t t';
  ev_mutexes : forall m, is_Some (mutexes s !! m) <-> is_Some (mutexes s0 !! m);
  ev_heap : next_obj s = next_obj s0 /\ mutex_map (mdl s) = mutex_map (mdl s0) /\
    cxl_mapping (mdl s) = cxl_mapping (mdl s0);
  ev_grows : wr_grows (obj_to_wr (mdl s0)) (obj_to_wr (mdl s))
}.

(** What the turn of another thread leaves of a thread. *)
Definition untouched (t t' : Thread) : Prop :=
  pending t' = pending t /\ (thr_state t = THREAD_RUNNING -> thr_state t' = THREAD_RUNNING).
(** A later version of a thread that waits for the same and is as alive. *)
Definition alike (t t' : Thread) : Prop :=
  thr_pid t' = thr_pid t /\ is_main t' = is_main t /\ thread_is_completed t' = thread_is_completed t /\ untouched t t'.

(** During a turn of [tid]: the others stay as they are; [tid] ends only if it
    is not the main thread of its process. *)
Definition steady (tid : Z) : change := fun j t t' =>
  (j <> tid -> untouched t t') /\
  (thread_is_completed t' = thread_is_completed t \/ (j = tid /\ is_main t = false /\ thread_is_completed t' = true)).
(** While the process [p] shuts down: its threads may end. *)
Definition closing (p : Z) : change := fun j t t' =>
  (thr_pid t <> p -> untouched t t' /\ thread_is_completed t' = thread_is_completed t) /\
  (thread_is_completed t = true -> thread_is_completed t' = true).
(** The process [p] is gone. *)
Definition closed (p : Z) : change := fun j t t' =>
  (thr_pid t <> p -> untouched t t' /\ thread_is_completed t' = thread_is_completed t) /\
  (thr_pid t = p -> thread_is_completed t' = true).

Lemma untouched_refl t : untouched t t.
Proof. done. Qed.
Lemma untouched_trans t t' t'' : untouched t t' -> untouched t' t'' -> untouched t t''.
Proof. intros [H1 H2] [K1 K2]. split; [congruence|auto]. Qed.
Lemma steady_refl tid j t : steady tid j t t.
Proof. split; [done|by left]. Qed.
Lemma alike_refl t : alike t t.
Proof. done. Qed.
Lemma alike_state t ts : is_completed_state ts = is_completed_state (thr_state t) -> thr_state t <> THREAD_RUNNING ->
  alike t (set_state ts t).
Proof. by intros H Hr. Qed.

(** What a change of the running thread's turn may be. *)
Class Turn (tid p : Z) (C : change) : Prop := {
  turn_alike : forall j t t' t'', C j t t' -> alike t' t'' -> C j t t'';
  turn_closing : forall j t t', (j = tid -> thr_pid t = p) -> C j t t' -> closing p j t t'
}.
#[export] Instance steady_turn tid p : Turn tid p (steady tid).
Proof.
  constructor; unfold steady, closing.
  - intros j t t' t'' [H1 H2] (A1 & A2 & A3 & A4). rewrite A3. split; [|done]. intros Hj. eapply untouched_trans; eauto.
  - intros j t t' Hp [H1 H2]. split.
    + intros Hne. destruct (decide (j = tid)) as [->|Hj]; [by destruct Hne; apply Hp|].
      split; [auto|]. destruct H2 as [|[? _]]; done.
    + intros Hc. destruct H2 as [->|(_ & _ & ->)]; done.
Qed.
#[export] Instance closing_turn tid p : Turn tid p (closing p).
Proof.
  constructor; [|done]. unfold closing. intros j t t' t'' [H1 H2] (A1 & A2 & A3 & A4). rewrite A3. split; [|done].
  intros Hp. destruct (H1 Hp). split; [by eapply untouched_trans|done].
Qed.

Lemma ev_old C s0 s j t : evolved C s0 s -> lookupZ (threads (sched s0)) j = Some t ->
  exists t', lookupZ (threads (sched s)) j = Some t' /\ thr_pid t' = thr_pid t /\ is_main t' = is_main t /\ C j t t'.
Proof.
  intros He Ht. destruct (ev_stay _ _ _ He j) as [t' Ht']; [by exists t|]. exists t'. split; [done|].
  destruct (ev_threads _ _ _ He j t' Ht') as (u & [Hu|[Hu _]] & H1); rewrite Ht in Hu; [|done].
  by injection Hu as <-.
Qed.

Lemma evolved_mono (C D : change) s0 s :
  (forall j t t', origin s0 j t -> C j t t' -> D j t t') -> evolved C s0 s -> evolved D s0 s.
Proof.
  intros HCD [E1 E2 E3 E4 E5 E6 E7 E8]. constructor; try done. intros j t' Ht'.
  destruct (E5 j t' Ht') as (t & H1 & H2 & H3 & H4). exists t. repeat split; try done. by eapply HCD.
Qed.

Lemma evolved_refl (C : change) s : (forall j t, lookupZ (threads (sched s)) j = Some t -> C j t t) -> evolved C s s.
Proof. intros HC. constructor; try done; [|by intros a]. intros j t Ht. exists t. split; [by left|]. auto. Qed.

(** A step that changes the table, and the table only. *)
Lemma evolved_table (C : change) s0 s f : evolved C s0 s ->
  process_count (f (sched s)) = process_count (sched s) -> terminating (f (sched s)) = terminating (sched s) ->
  lenZ (threads (f (sched s))) = lenZ (threads (sched s)) ->
  (forall j t t', lookupZ (threads (sched s)) j = Some t -> lookupZ (threads (f (sched s))) j = Some t' ->
    thr_pid t' = thr_pid t /\ is_main t' = is_main t /\ (forall u, origin s0 j u -> C j u t -> C j u t')) ->
  evolved C s0 (on_sched f s).
Proof.
  intros [E1 E2 E3 E4 E5 E6 E7 E8] Hc Ht Hl Hf.
  assert (forall j, is_Some (lookupZ (threads (sched s)) j) <-> is_Some (lookupZ (threads (f (sched s))) j)) as Hsame.
  { intros j. unfold lenZ in Hl. split; intros [u Hu]; apply lookupZ_Some in Hu; apply lookupZ_is_Some; lia. }
  constructor; simpl; try done; try congruence.
  - intros j Hj. by apply Hsame, E4.
  - intros j t' Hj. destruct (proj2 (Hsame j)) as [t1 Ht1]; [by exists t'|].
    destruct (E5 j t1 Ht1) as (t & H1 & H2 & H3 & H4). destruct (Hf j t1 t' Ht1 Hj) as (K1 & K2 & K3).
    exists t. split; [done|]. split; [congruence|]. split; [congruence|]. by apply K3.
Qed.

Lemma update_length {A} i (f : A -> A) l : lenZ (update_at i f l) = lenZ l.
Proof. unfold lenZ. by rewrite length_update_at. Qed.

Lemma evolved_update (C : change) s0 s i f : evolved C s0 s ->
  (forall t, lookupZ (threads (sched s)) i = Some t -> thr_pid (f t) = thr_pid t /\ is_main (f t) = is_main t /\
    (forall u, origin s0 i u -> C i u t -> C i u (f t))) ->
  evolved C s0 (on_thread i f s).
Proof.
  intros He Hf. apply evolved_table; try done; [apply update_length|]. simpl. intros j t t' Hj.
  rewrite lookupZ_update_at, Hj. case_decide as Hij; [subst j; intros [= <-]; by apply Hf|].
  intros [= <-]. done.
Qed.

(** ** The crash of the process ends its threads and no others *)
Lemma crash_threads_others pid ids c j t : lookupZ (threads c) j = Some t -> thr_pid t <> pid ->
  exists t', lookupZ (threads (foldl (crash_thread pid) c ids)) j = Some t' /\
    thr_pid t' = thr_pid t /\ thread_is_completed t' = thread_is_completed t /\
    (thr_state t = THREAD_RUNNING -> thr_state t' = THREAD_RUNNING).
Proof.
  revert c t. induction ids as [|i ids IH]; intros c t Ht Hp; simpl; [eauto|].
  destruct (lookupZ (threads c) i) as [u|] eqn:Hu.
  2:{ apply IH; [|done]. unfold crash_thread. by rewrite Hu. }
  pose proof (crash_thread_exact pid c i u j t Hu Ht) as He.
  assert (exists t1, lookupZ (threads (crash_thread pid c i)) j = Some t1 /\ thr_pid t1 = thr_pid t /\
    thread_is_completed t1 = thread_is_completed t /\
    (thr_state t = THREAD_RUNNING -> thr_state t1 = THREAD_RUNNING)) as (t1 & H1 & H2 & H3 & H4).
  { destruct ((thr_pid u =? pid) && negb (thread_is_completed u)) eqn:Eb; [|by exists t].
    case_decide as Hij; [subst j; bools; congruence|].
    destruct (waits_on_any t _) eqn:Ew; [|by exists t]. eexists. split; [exact He|]. split; [done|].
    apply waits_on_any_blocked in Ew. unfold thread_is_completed. by rewrite Ew. }
  destruct (IH _ t1 H1 ltac:(congruence)) as (t' & K1 & K2 & K3 & K4). exists t'. split; [done|]. split; [congruence|].
  split; [congruence|auto].
Qed.

Lemma process_crash_table pid c j t : lookupZ (threads c) j = Some t ->
  exists t', lookupZ (threads (process_crash_sched pid c)) j = Some t' /\
    thr_pid t' = thr_pid t /\ is_main t' = is_main t /\ pending t' = pending t /\
    (thr_pid t = pid -> thread_is_completed t' = true) /\
    (thr_pid t <> pid -> thread_is_completed t' = thread_is_completed t /\
      (thr_state t = THREAD_RUNNING -> thr_state t' = THREAD_RUNNING)).
Proof.
  intros Ht. destruct (process_crash_done pid c j t Ht) as (t' & H1 & H2 & H3 & H4).
  exists t'. split; [done|]. rewrite H2. do 3 (split; [done|]). split; [by intros Hp; rewrite <- H2; apply H4|].
  intros Hp. destruct (crash_threads_others pid (seqZ 0 (lenZ (threads c))) c j t Ht Hp) as (u & K1 & _ & K3).
  unfold process_crash_sched in H1. rewrite H1 in K1. injection K1 as <-. by rewrite H2 in K3.
Qed.

Lemma evolved_crash s0 s p : process_id (proc s0) = p -> evolved (closing p) s0 s ->
  evolved (closed p) s0 (on_sched (process_crash_sched p) s).
Proof.
  intros Hid [E1 E2 E3 E4 E5 E6 E7 E8]. destruct (process_crash_counts p (sched s)) as (C1 & C2 & C3).
  destruct (process_crash_mild p (sched s)) as [Hlen _].
  assert (forall j, is_Some (lookupZ (threads (sched s)) j) <->
    is_Some (lookupZ (threads (process_crash_sched p (sched s))) j)) as Hsame.
  { intros j. split; intros [u Hu]; apply lookupZ_Some in Hu; apply lookupZ_is_Some; lia. }
  constructor; simpl; try done; try congruence.
  - intros j Hj. by apply Hsame, E4.
  - intros j t' Hj. destruct (proj2 (Hsame j)) as [t1 Ht1]; [by exists t'|].
    destruct (E5 j t1 Ht1) as (t & H1 & H2 & H3 & H4 & H5).
    destruct (process_crash_table p (sched s) j t1 Ht1) as (u & K1 & K2 & K3 & K4 & K5 & K6).
    rewrite Hj in K1. injection K1 as <-. exists t. split; [done|]. split; [congruence|]. split; [congruence|].
    rewrite H2 in K5, K6. split; [|done]. intros Hp. destruct (H4 Hp) as [Hu <-]. destruct (K6 Hp) as [-> K7].
    split; [|done]. by eapply untouched_trans.
Qed.

(** ** The steps of a turn *)
Section InTurn.
Context (tid p : Z) (C : change) {T : Turn tid p C} (s0 : St) (R : Prop).
Hypothesis Hid : process_id (proc s0) = p /\ thread_id (proc s0) = tid.
Hypothesis Hself : forall t, lookupZ (threads (sched s0)) tid = Some t -> thr_pid t = p.

Definition in_turn (s : St) : Prop :=
  evolved C s0 s /\ active_thread (sched s) = tid /\
  (R -> exists t, lookupZ (threads (sched s)) tid = Some t /\ thr_state t = THREAD_RUNNING).
Definition dies (e : stop) (s : St) : Prop :=
  e = Exit EXIT_SUCCESS -> evolved (closed p) s0 s /\ active_thread (sched s) = tid.

Lemma in_turn_table s f : in_turn s ->
  process_count (f (sched s)) = process_count (sched s) -> terminating (f (sched s)) = terminating (sched s) ->
  active_thread (f (sched s)) = active_thread (sched s) ->
  lenZ (threads (f (sched s))) = lenZ (threads (sched s)) ->
  (forall j t t', lookupZ (threads (sched s)) j = Some t -> lookupZ (threads (f (sched s))) j = Some t' ->
    alike t t' /\ (thr_state t = THREAD_RUNNING -> thr_state t' = THREAD_RUNNING)) ->
  in_turn (on_sched f s).
Proof.
  intros (He & Ha & Hr) H1 H2 H3 H4 H5. split; [|split].
  - apply evolved_table; try done. intros j t t' Ht Ht'. destruct (H5 j t t' Ht Ht') as [Hal _].
    split; [apply Hal|]. split; [apply Hal|]. intros u _ Hu. by eapply turn_alike.
  - simpl. congruence.
  - intros HR. destruct (Hr HR) as (t & Ht & Hs). simpl.
    destruct (lookupZ_is_Some (threads (f (sched s))) tid) as [t' Ht'].
    { apply lookupZ_Some in Ht. unfold lenZ in H4. rewrite H4. lia. }
    exists t'. split; [done|]. by apply (H5 tid t t').
Qed.

Lemma wake_alike v t : waiting_on t = Some v -> alike t (set_state THREAD_RUNNING t).
Proof. intros Hb%waiting_blocked. apply alike_state; by rewrite Hb. Qed.

Lemma turn_frame : frame in_turn dies.
Proof.
  apply make_frame.
  - by intros e s He _ ?.
  - intros f s (M1 & M2 & M3 & M4) ([E1 E2 E3 E4 E5 E6 E7 E8] & Ha & Hr). split; [|done].
    constructor; try done; simpl; [rewrite M1, M2; exact E7|]. intros a Hb. by apply M4, E8.
  - intros i f s Hq Hs. apply in_turn_table; try done; [apply update_length|]. simpl. intros j t t' Hj.
    rewrite lookupZ_update_at, Hj. case_decide; intros [= <-]; [|done]. destruct (Hq t) as (Q1 & Q2 & Q3 & Q4).
    unfold alike, untouched, thread_is_completed. by rewrite Q1, Q2, Q3, Q4.
  - intros v s _ Hs. apply in_turn_table; try done; [apply wake_all_length|]. intros j t t' Hj.
    rewrite wake_all_lookup, Hj. intros [= <-]. case_bool_decide as Hw; [|done]. split; [by eapply wake_alike|done].
  - intros i v s _ Hs. unfold wake_thread_waiting_on.
    apply in_turn_table; try done; try (by case_match); [case_match; [apply update_length|done]|].
    destruct (scan_others i _ _) as [w|] eqn:Esc; simpl; intros j t t' Hj; [|rewrite Hj; by intros [= <-]].
    rewrite lookupZ_update_at, Hj. case_decide as Hw; intros [= <-]; [|done]. subst w. split; [|done].
    apply scan_Some in Esc as (k & u & _ & _ & Hu & Hwt & _). rewrite Hj in Hu. injection Hu as <-.
    apply bool_decide_eq_true in Hwt. by eapply wake_alike.
  - intros m f s ([E1 E2 E3 E4 E5 E6 E7 E8] & Ha & Hr). split; [|done]. constructor; try done. simpl. intros m'.
    destruct (decide (m = m')) as [<-|]; [|by rewrite lookup_alter_ne].
    rewrite lookup_alter_eq, fmap_is_Some. apply E6.
  - intros f s (P1 & P2 & P3) ([E1 E2 E3 E4 E5 E6 E7 E8] & Ha & Hr). split; [|done]. constructor; try done. simpl.
    rewrite P1, P2. done.
  - intros c s _ _ ([E1 E2 E3 E4 E5 E6 E7 E8] & Ha & Hr). split; [|done]. by constructor.
  - intros s (He & Ha & _) _. rewrite (proj1 (ev_process _ _ _ He)), (proj1 Hid). split.
    + apply evolved_crash; [apply Hid|]. eapply evolved_mono; [|exact He]. intros j t t' Hj.
      apply (turn_closing (tid := tid)). intros ->. destruct Hj as [Hj|(_ & -> & _)]; [by apply Hself|apply Hid].
    + simpl. rewrite <- Ha. apply process_crash_counts.
Qed.
End InTurn.

(** ** Giving the processor away *)

(** The active thread can run. *)
Definition active_runs (s : St) : Prop :=
  exists t, lookupZ (threads (sched s)) (active_thread (sched s)) = Some t /\ thr_state t = THREAD_RUNNING.

(** The active thread is the next one after [tid] that can run. *)
Definition next_from (tid : Z) (s : St) : Prop :=
  active_runs s /\ scan_others tid is_running (threads (sched s)) = Some (active_thread (sched s)).

Lemma running_not_completed t : thr_state t = THREAD_RUNNING -> thread_is_completed t = false.
Proof. unfold thread_is_completed. by intros ->. Qed.

(** [yield] from a table in which the thread may have changed its state. *)
Lemma yield_moves (Q : bool -> St -> Prop) s : active_thread (sched s) = thread_id (proc s) -> sched_ok (sched s) ->
  (forall n t, scan_others (active_thread (sched s)) is_running (threads (sched s)) = Some n ->
    lookupZ (threads (sched s)) n = Some t -> thr_state t = THREAD_RUNNING -> Q true (on_sched (with_active n) s)) ->
  (active_runs s -> Q false s) ->
  wp yield (fun r => match r with Val b s' => Q b s' | Stop e s' => e = Exit EXIT_FAILURE end) s.
Proof.
  intros Ha Hok Ht Hf. unfold yield, assert_active. wp_step. wp_step. unfold wp at 1; simpl. rewrite Ha, Z.eqb_refl.
  unfold wp at 1; simpl. unfold on_sched_err. wp_step. unfold wp at 1; simpl.
  destruct (yield_sched_cases _ Hok) as [(n & t & -> & _ & Hn & Hr & Hsc)|(_ & t & Hn & ->)].
  - simpl. wp_step. unfold wp at 1; simpl. wp_step. unfold wp at 1; simpl. unfold wp; simpl.
    change (on_sched (fun _ => with_active n (sched s)) s) with (on_sched (with_active n) s). by eapply Ht.
  - destruct (is_running t) eqn:Er; simpl; [|done]. wp_step. unfold wp at 1; simpl. wp_step. unfold wp at 1; simpl.
    unfold wp; simpl. assert (on_sched (fun _ => sched s) s = s) as -> by (by destruct s).
    apply Hf. exists t. split; [done|]. by apply is_running_spec.
Qed.

Lemma last_yield_moves (Q : bool -> St -> Prop) s : active_thread (sched s) = thread_id (proc s) -> sched_ok (sched s) ->
  (forall n t, scan_others (active_thread (sched s)) is_running (threads (sched s)) = Some n ->
    lookupZ (threads (sched s)) n = Some t -> thr_state t = THREAD_RUNNING -> Q true (on_sched (with_active n) s)) ->
  ((forall j t, j <> active_thread (sched s) -> lookupZ (threads (sched s)) j = Some t -> thread_is_completed t = true) ->
    Q false s) ->
  wp last_yield (fun r => match r with Val b s' => Q b s' | Stop e s' => e = Exit EXIT_FAILURE end) s.
Proof.
  intros Ha Hok Ht Hf. unfold last_yield, assert_active. wp_step. wp_step. unfold wp at 1; simpl. rewrite Ha, Z.eqb_refl.
  unfold wp at 1; simpl. unfold on_sched_err. wp_step. unfold wp at 1; simpl. wp_step. unfold last_yield_sched.
  destruct (scan_others _ is_running _) as [n|] eqn:E1.
  - unfold wp; simpl. pose proof E1 as (_ & _ & t & Hn & Hr)%scan_others_Some; [|exact Hok].
    change (on_sched (fun _ => with_active n (sched s)) s) with (on_sched (with_active n) s).
    apply (Ht n t eq_refl Hn). by apply is_running_spec.
  - destruct (scan_others _ is_blocked _) as [n|] eqn:E2; [done|]. unfold wp; simpl.
    assert (on_sched (fun _ => sched s) s = s) as -> by (by destruct s). apply Hf. intros j t Hj Hl.
    pose proof (scan_others_None _ _ _ _ _ Hok E1 Hj Hl) as N1. pose proof (scan_others_None _ _ _ _ _ Hok E2 Hj Hl) as N2.
    unfold is_running, is_blocked, thread_is_completed in *. apply bool_decide_eq_false in N1, N2.
    by destruct (thr_state t).
Qed.

(** [Scheduler::finalize] completes the thread and hands over. *)
Definition ended (tid : Z) (t : Thread) (s : St) : St :=
  if thread_is_completed t then s else on_thread tid (set_state THREAD_COMPLETED) s.

Lemma finalize_moves (Q : bool -> St -> Prop) s t :
  lookupZ (threads (sched s)) (thread_id (proc s)) = Some t ->
  active_thread (sched s) = thread_id (proc s) -> terminating (sched s) = false ->
  let s1 := ended (thread_id (proc s)) t s in
  (forall n u, scan_others (thread_id (proc s)) is_running (threads (sched s1)) = Some n ->
    lookupZ (threads (sched s1)) n = Some u -> thr_state u = THREAD_RUNNING -> Q true (on_sched (with_active n) s1)) ->
  ((forall j u, j <> thread_id (proc s) -> lookupZ (threads (sched s1)) j = Some u -> thread_is_completed u = true) ->
    Q false s1) ->
  wp finalize (fun r => match r with Val b s' => Q b s' | Stop e s' => e = Exit EXIT_FAILURE end) s.
Proof.
  intros Ht Ha Hterm s1 Hq Hf.
  assert (finalize s = last_yield s1 /\ sched_ok (sched s1) /\ active_thread (sched s1) = thread_id (proc s1) /\
    proc s1 = proc s) as (Hrun & Hok & Ha1 & Hp1).
  { unfold s1, ended, finalize, self_tid, bind, gets. simpl. rewrite (get_thread_run _ _ _ Ht). simpl.
    apply lookupZ_Some in Ht. destruct (thread_is_completed t); simpl; rewrite Hterm; (split; [done|]);
      unfold sched_ok; simpl; rewrite ?update_length, Ha; (split; [exact Ht|done]). }
  unfold wp. rewrite Hrun. apply last_yield_moves; [done|done|rewrite Ha1, Hp1; exact Hq|]. rewrite Ha1, Hp1. exact Hf.
Qed.

Section Steady.
Context (tid p : Z) (s0 : St).
Hypothesis Hid : process_id (proc s0) = p /\ thread_id (proc s0) = tid.
Hypothesis Hself : forall t, lookupZ (threads (sched s0)) tid = Some t -> thr_pid t = p.
Let I := in_turn tid (steady tid) s0 True.
Let E := dies tid p s0.
Let F : frame I E := turn_frame tid p (steady tid) s0 True Hid Hself.

(** The thread waits in [a] at a point at which [a] may wait; after its end it is
    completed. *)
Definition handed (a : ModelAction) (pt : point) (s : St) : Prop :=
  evolved (steady tid) s0 s /\ next_from tid s /\ (pt = PExec \/ pt = PDead \/ wait_point a pt) /\
  (pt = PDead -> exists t, lookupZ (threads (sched s)) tid = Some t /\ thread_is_completed t = true).

Lemma evolved_active C s n : evolved C s0 s -> evolved C s0 (on_sched (with_active n) s).
Proof. intros He. apply evolved_table; try done. intros j t t' Ht Ht'. simpl in Ht'. rewrite Ht in Ht'. injection Ht' as <-. done. Qed.

Lemma in_turn_self s : I s -> exists t, lookupZ (threads (sched s)) tid = Some t /\ thr_state t = THREAD_RUNNING.
Proof. intros (_ & _ & Hr). by apply Hr. Qed.
Lemma in_turn_ids C s : in_turn tid C s0 True s -> active_thread (sched s) = tid /\ thread_id (proc s) = tid.
Proof. intros (He & Ha & _). split; [done|]. rewrite (proj2 (ev_process _ _ _ He)). apply Hid. Qed.

Lemma steady_yield a : moves I E yield (fun (b : bool) s => if b then handed a PExec s else I s).
Proof.
  intros s Hs. destruct (in_turn_ids _ _ Hs) as [Ha Hi]. destruct (in_turn_self _ Hs) as (t & Ht & Hr).
  eapply wp_mono; [|apply (yield_moves (fun b s => if b : bool then handed a PExec s else I s)); [congruence| |intros n u Hsc Hu Hru|done]].
  - intros [b s'|e s'] Hq; [exact Hq|by subst e].
  - unfold sched_ok. rewrite Ha. apply lookupZ_Some in Ht. exact Ht.
  - split; [by apply evolved_active, Hs|]. split; [split; [by exists u|by rewrite Ha in Hsc]|]. split; [by left|done].
Qed.

Lemma steady_wait a pt : wait_point a pt ->
  moves I E (thread_wait tid) (fun (b : bool) s => if b then handed a pt s else I s).
Proof.
  intros Hpt s Hs. destruct (in_turn_ids _ _ Hs) as [Ha Hi]. destruct (in_turn_self _ Hs) as (t & Ht & Hr).
  unfold thread_wait, wp. erewrite bind_val by (by apply get_thread_run). cbn beta.
  destruct (match pending t with Some a => may_wait a | None => false end); [|done]. run_step. run_step.
  set (s1 := on_sched _ s).
  assert (lookupZ (threads (sched s1)) tid = Some (set_state THREAD_BLOCKED t)) as Ht1
    by (simpl; by rewrite lookupZ_update_at, decide_True, Ht).
  assert (evolved (steady tid) s0 s1) as He1.
  { apply evolved_update; [apply Hs|]. intros u Hu. split; [done|]. split; [done|]. intros v _ Hv.
    rewrite Ht in Hu. injection Hu as <-. destruct Hv as [_ Hv]. split; [done|].
    replace (thread_is_completed (set_state THREAD_BLOCKED t)) with (thread_is_completed t); [done|].
    by rewrite (running_not_completed _ Hr). }
  eapply wp_mono; [|apply (yield_moves (fun b s => if b : bool then handed a pt s else I s)); simpl].
  - intros [b s'|e s'] Hq; [exact Hq|by subst e].
  - congruence.
  - unfold sched_ok. simpl. rewrite Ha. apply lookupZ_Some in Ht1. simpl in Ht1. exact Ht1.
  - intros n u Hsc Hu Hru. split; [by apply evolved_active|]. split; [split; [by exists u|by rewrite Ha in Hsc]|].
    split; [by right; right|by intros ->].
  - intros (u & Hu & Hru). simpl in Hu. rewrite Ha in Hu. simpl in Ht1. rewrite Ht1 in Hu. injection Hu as <-. done.
Qed.

(** The end of a thread that is not the main thread. *)
Lemma steady_finalize a Q : terminating (sched s0) = false ->
  (forall t, lookupZ (threads (sched s0)) tid = Some t -> is_main t = false) ->
  moves I E Thread_finalize (fun r s => match r with Executed _ => Q s | Blocked pt => handed a pt s end).
Proof.
  intros Hterm Hmain s Hs. destruct (in_turn_ids _ _ Hs) as [Ha Hi]. destruct (in_turn_self _ Hs) as (t & Ht & Hr).
  pose proof (proj1 Hs) as He. unfold Thread_finalize. rewrite wp_bind.
  eapply wp_mono; [|apply (finalize_moves (fun b s' => b = true -> handed a PDead s') s t)].
  - intros [[|] s'|e s'] Hq; [by apply Hq|done|]. subst e. done.
  - by rewrite Hi.
  - congruence.
  - rewrite (ev_terminating _ _ _ He). done.
  - intros n u Hsc Hu Hru _. rewrite Hi in *. unfold ended in *. rewrite (running_not_completed _ Hr) in *.
    split; [|split; [split; [by exists u|exact Hsc]|split; [by right; left|]]].
    + apply evolved_active. apply evolved_update; [done|]. intros v Hv. split; [done|]. split; [done|]. intros w Hw _.
      split; [done|]. right. split; [done|]. split; [|done].
      destruct Hw as [Hw|(_ & _ & Hw)]; [by apply Hmain|done].
    + intros _. simpl. exists (set_state THREAD_COMPLETED t). rewrite lookupZ_update_at, decide_True, Ht by done. done.
  - done.
Qed.
(** A new thread belongs to the process and is not its main thread. *)
Lemma steady_create a : keeps I E (exec_create a).
Proof.
  intros s Hs. unfold exec_create. wp_step. unfold wp at 1; simpl. wp_step. unfold wp at 1; simpl.
  unfold self_tid. wp_step. unfold wp at 1; simpl. wp_step. set (s1 := on_sched _ s).
  assert (I s1) as Hs1.
  { destruct Hs as ([E1 E2 E3 E4 E5 E6 E7 E8] & Ha & Hr). split; [|split].
    - constructor; try done; simpl.
      + intros j Hj. destruct (E4 j Hj) as [t' Ht']. exists t'. by apply lookupZ_app_l.
      + intros j t' Hj. apply lookupZ_snoc in Hj as [Hj|[-> ->]]; [by apply E5|].
        exists (Thread_new (lenZ (threads (sched s))) (process_id (proc s)) (Some (thread_id (proc s)))
          (load_bytes (memory s) (value a) 8, load_bytes (memory s) (value a + 8) 8)).
        split; [|do 2 (split; [done|]); apply steady_refl]. right. split; [|split; [apply E3|done]]. apply eq_None_not_Some. intros Hs0.
        destruct (E4 _ Hs0) as [u Hu]. apply lookupZ_Some in Hu. unfold lenZ in Hu. lia.
    - exact Ha.
    - intros HR. destruct (Hr HR) as (t & Ht & Hst). exists t. split; [|done]. simpl. by apply lookupZ_app_l. }
  eapply wp_mono; [|by apply (keeps_buffer _ _ _ F)].
  intros [[] s2|e s2]; [|done]. intros ([E1 E2 E3 E4 E5 E6 E7 E8] & Ha & Hr). wp_step. unfold wp at 1; simpl.
  unfold wp; simpl. split; [by constructor|done].
Qed.

Context `{Rand}.
Hypothesis Hterm : terminating (sched s0) = false.

(** What the program must respect: a main thread does not end by itself. *)
Definition may_finish (a : ModelAction) : Prop :=
  act_type a = THREAD_FINISH \/ act_type a = THREADONLY_FINISH ->
  forall t, lookupZ (threads (sched s0)) tid = Some t -> is_main t = false.

Lemma steady_wait_as a b pt : act_type b = act_type a -> act_tid b = tid -> wait_point b pt ->
  moves I E (thread_wait (act_tid b)) (fun (x : bool) s => if x then handed a pt s else I s).
Proof.
  intros Hb -> Hp. apply steady_wait. destruct pt; try exact Hp; simpl in *; [congruence|].
  unfold may_wait in *. by rewrite <- Hb.
Qed.

Lemma steady_execute a b : act_type b = act_type a -> act_tid b = tid -> may_finish a ->
  moves I E (execute b) (progress_post I (handed a)).
Proof.
  intros Hb Ht Hm. eapply moves_execute; [exact F| | |intros _; by apply steady_create|done].
  - intros pt. by apply steady_wait_as.
  - rewrite Hb. intros Hf. apply (steady_finalize a I); [exact Hterm|by apply Hm].
Qed.

Lemma steady_pending q s : I s -> I (on_thread (thread_id (proc s)) (set_pending q) s).
Proof.
  intros Hs. destruct (in_turn_ids _ _ Hs) as [Ha Hi]. destruct Hs as (He & _ & Hr). split; [|split].
  - apply evolved_update; [done|]. intros t Ht. split; [done|]. split; [done|]. intros u Hu [H1 H2].
    split; [by rewrite Hi|exact H2].
  - exact Ha.
  - intros HR. destruct (Hr HR) as (t & Ht & Hst). simpl. rewrite lookupZ_update_at, Ht.
    case_decide; eexists; (split; [reflexivity|exact Hst]).
Qed.

(** A whole action, and an action resumed. *)
Lemma steady_action a y : act_tid a = tid -> may_finish a -> moves I E (action a y) (outcome_post I (handed a)).
Proof.
  intros Ht Hm. eapply moves_action; [exact F|apply steady_pending|apply steady_yield|].
  intros a' H1 H2 _. apply steady_execute; [done|congruence|done].
Qed.
Lemma steady_resume pt a : act_tid a = tid -> may_finish a -> (pt = PLock -> act_type a = ATOMIC_LOCK) ->
  moves I E (resume pt a) (outcome_post I (handed a)).
Proof.
  intros Ht Hm Hp. eapply moves_resume; [exact F|apply steady_pending| |].
  - intros a' H1 H2 _. apply steady_execute; [done|congruence|done].
  - intros -> m. eapply moves_lock_loop; [exact F| |by apply Hp].
    intros pt. by apply steady_wait_as.
Qed.
End Steady.

(** ** A thread that waits has its action pending *)
Section Pends.
Context `{Rand} (tid : Z) (a : ModelAction).
Definition pends (s : St) : Prop := exists t, lookupZ (threads (sched s)) tid = Some t /\ pending t = Some a.
Let E (e : stop) (s : St) : Prop := True.

Lemma pends_table f s :
  (forall t, lookupZ (threads (sched s)) tid = Some t ->
     exists t', lookupZ (threads (f (sched s))) tid = Some t' /\ pending t' = pending t) ->
  pends s -> pends (on_sched f s).
Proof. intros Hf (t & Ht & Hp). destruct (Hf t Ht) as (t' & Ht' & Hp'). exists t'. split; [exact Ht'|congruence]. Qed.

Lemma pends_update i f s : (forall t, pending (f t) = pending t) -> pends s -> pends (on_thread i f s).
Proof.
  intros Hf. apply pends_table. simpl. intros t Ht. rewrite lookupZ_update_at, Ht.
  case_decide; eexists; (split; [reflexivity|]); auto.
Qed.

Lemma pends_frame : frame pends E.
Proof.
  apply make_frame; try done.
  - intros i f s Hq. apply pends_update. intros t. apply Hq.
  - intros v s _. apply pends_table. intros t Ht. rewrite wake_all_lookup, Ht. eexists. split; [reflexivity|].
    by case_bool_decide.
  - intros i v s _. apply pends_table. intros t Ht. unfold wake_thread_waiting_on. case_match; [|by eexists].
    simpl. rewrite lookupZ_update_at, Ht. case_decide; eexists; by split.
Qed.
Let F := pends_frame.

Lemma pends_wait i : keeps pends E (thread_wait i).
Proof. apply (keeps_wait _ _ _ F (fun _ => True)); [done|by intros j ts s _; apply pends_update|done]. Qed.
Lemma pends_yield : keeps pends E yield.
Proof. by apply (keeps_yield _ _ _ F). Qed.
Lemma pends_finalize : keeps pends E Thread_finalize.
Proof. apply (keeps_thread_finalize _ _ _ F (fun _ => True)); [done|by intros j ts s _; apply pends_update|done]. Qed.
Lemma pends_create b : keeps pends E (exec_create b).
Proof.
  apply (keeps_create _ _ _ F); [|done]. intros f arg s. apply pends_table. simpl. intros t Ht. exists t.
  split; [by apply lookupZ_app_l|done].
Qed.
Lemma pends_execute b : moves pends E (execute b) (progress_post pends (fun _ => pends)).
Proof.
  eapply moves_execute; [exact F| | |intros _; apply pends_create|done].
  - intros pt _ s Hs. eapply wp_mono; [|by apply pends_wait]. by intros [[|] s'|e s'].
  - intros _ s Hs. eapply wp_mono; [|by apply pends_finalize]. by intros [[|] s'|e s'].
Qed.

(** What holds where an action waits. *)
Definition at_wait (r : result St outcome) : Prop :=
  match r with Val (Wait _) s => pends s | _ => True end.

Lemma after_execute_pends r s : progress_post pends (fun _ => pends) r s -> wp (after_execute r) at_wait s.
Proof.
  destruct r as [b|pt]; [|done]. intros _. simpl. eapply wp_mono; [|apply action_end_done].
  by intros [[v|pt] s'|e s'].
Qed.
Lemma action_exec_pends b s : pends s -> wp (action_exec b) at_wait s.
Proof.
  intros Hs. unfold action_exec. rewrite wp_bind.
  assert (keeps pends E (if is_read b || is_write b then ensureInitialValue b else ret tt)) as Hi
    by (case_if; [apply (keeps_initial _ _ _ F)|apply keeps_ret]).
  eapply wp_mono; [|by apply Hi]. intros [[] s1|e s1]; [|done]. intros Hs1. wp_step. unfold wp at 1; simpl. wp_step.
  eapply wp_mono; [|by apply pends_execute]. intros [r s2|e s2]; [|done]. apply after_execute_pends.
Qed.
Lemma resume_pends pt b s : (pt = PLock -> act_type b = ATOMIC_LOCK) -> pends s -> wp (resume pt b) at_wait s.
Proof.
  intros Hb Hs. destruct pt; simpl; [by apply action_exec_pends| | |done].
  - rewrite wp_bind. eapply wp_mono; [|by apply (keeps_get_mutex _ _ _ F)]. intros [m s1|e s1]; [|done]. intros Hs1.
    wp_step. eapply wp_mono; [|apply (moves_lock_loop _ _ _ F b (fun _ => pends)); [|by apply Hb|exact Hs1]].
    + intros [r s2|e s2]; [|done]. apply after_execute_pends.
    + intros pt _ s2 Hs2. eapply wp_mono; [|by apply pends_wait]. by intros [[|] s'|e s'].
  - eapply wp_mono; [|apply action_end_done]. by intros [[v|pt] s'|e s'].
Qed.
End Pends.

Lemma action_pends `{Rand} tid a y s : thread_id (proc s) = tid -> is_Some (lookupZ (threads (sched s)) tid) ->
  wp (action a y) (at_wait tid a) s.
Proof.
  intros Hi [t Ht]. unfold action, assert_active. wp_step. wp_step. unfold wp at 1; simpl.
  destruct (_ =? _); unfold wp at 1; simpl; [|done]. unfold self_pid, self_tid. wp_step. unfold wp at 1; simpl.
  wp_step. unfold wp at 1; simpl. destruct (is_crashed s _).
  { unfold process_crash, self_pid. wp_step. wp_step. unfold wp at 1; simpl. unfold wp; simpl. done. }
  wp_step. unfold wp at 1; simpl. wp_step. unfold wp at 1; simpl. unfold upd_thread. wp_step. unfold wp at 1; simpl.
  set (s1 := on_sched _ _). assert (pends tid a s1) as Hs1.
  { exists (set_pending (Some a) t). split; [|done]. simpl. by rewrite Hi, lookupZ_update_at, decide_True, Ht. }
  wp_step. eapply (wp_mono _ (fun r => match r with Val _ s' => pends tid a s' | Stop _ _ => True end)).
  - intros [[|] s2|e s2]; [done| |done]. intros Hs2. by apply action_exec_pends.
  - case_if; [|done]. by apply pends_yield.
Qed.

(** ** The shutdown of a process *)

(** While it goes through the threads: those in [D] have ended. *)
Definition closing_done (D : Z -> Prop) (p : Z) : change := fun j t t' =>
  closing p j t t' /\ (D j -> thr_pid t = p -> thread_is_completed t' = true).
#[export] Instance closing_done_turn tid D p : Turn tid p (closing_done D p).
Proof.
  constructor.
  - intros j t t' t'' [H1 H2] Ha. split; [by apply (turn_alike (tid := tid) (p := p) (C := closing p) j t t')|].
    destruct Ha as (_ & _ & -> & _). done.
  - by intros j t t' _ [? _].
Qed.

Section Closing.
Context (tid p : Z) (s0 : St).
Hypothesis Hid : process_id (proc s0) = p /\ thread_id (proc s0) = tid.
Hypothesis Hself : forall t, lookupZ (threads (sched s0)) tid = Some t -> thr_pid t = p.
Let I (D : Z -> Prop) := in_turn tid (closing_done D p) s0 False.
Let E := dies tid p s0.
Let F D : frame (I D) E := turn_frame tid p (closing_done D p) s0 False Hid Hself.

Lemma closing_step D i : moves (I D) E (shutdown_thread i) (fun _ => I (fun j => D j \/ j = i)).
Proof.
  unfold shutdown_thread. intros s Hs. rewrite wp_bind. unfold get_thread. wp_step. unfold wp at 1; simpl.
  destruct (lookupZ (threads (sched s)) i) as [t|] eqn:Ht; [|done]. unfold wp at 1; simpl. unfold self_pid. wp_step.
  unfold wp at 1; simpl. pose proof (proj1 Hs) as He. rewrite (proj1 (ev_process _ _ _ He)), (proj1 Hid).
  assert (forall s1, evolved (closing_done D p) s0 s1 -> active_thread (sched s1) = tid ->
    (forall t1, lookupZ (threads (sched s1)) i = Some t1 -> thr_pid t1 = p -> thread_is_completed t1 = true) -> I (fun j => D j \/ j = i) s1) as Hnext.
  { intros s1 [E1 E2 E3 E4 E5 E6 E7 E8] Ha1 Hc1. split; [|done]. constructor; try done. intros j u' Hu'.
    destruct (E5 j u' Hu') as (u & K1 & K2 & K3 & K4 & K5). exists u. do 4 (split; [done|]).
    intros [Hd|Hij] Hp; [by apply K5|]. subst j. apply (Hc1 u' Hu'). congruence. }
  destruct Hs as (_ & Ha & _). case_if; bools.
  2:{ unfold wp; simpl. apply Hnext; [done|done|]. intros t1 Ht1 Hp. rewrite Ht in Ht1. by injection Ht1 as <-. }
  rewrite wp_bind. eapply (wp_mono _ (fun r => match r with Val _ s1 => I (fun j => D j \/ j = i) s1 | Stop e s1 => E e s1 end)).
  { intros [[] s1|e s1]; [|done]. apply (keeps_empty _ _ _ (F _)). }
  destruct (thread_is_completed t) eqn:Ec; unfold wp; simpl; apply Hnext; try done.
  - intros t1 Ht1 _. rewrite Ht in Ht1. by injection Ht1 as <-.
  - apply evolved_update; [done|]. intros u Hu. rewrite Ht in Hu. injection Hu as <-. split; [done|]. split; [done|].
    intros v Hv [[V1 V2] V3]. split; [split; [|done]|done]. intros Hp.
    destruct (ev_threads _ _ _ He i t Ht) as (w & W1 & W2 & _).
    destruct Hv as [Hv|(Hv & Hvp & _)], W1 as [W1|(W1 & W1p & _)]; congruence.
  - intros t1. simpl. rewrite lookupZ_update_at, decide_True, Ht by done. by intros [= <-].
Qed.

Lemma closing_loop l : forall D, moves (I D) E (for_each l shutdown_thread) (fun _ => I (fun j => D j \/ j ∈ l)).
Proof.
  assert (forall D D' : Z -> Prop, (forall j, D j <-> D' j) -> forall s, I D s -> I D' s) as Hiff.
  { intros D D' HD s (He & Ha & Hr). split; [|done]. eapply evolved_mono; [|exact He].
    intros j t t' _ [K1 K2]. split; [done|]. by rewrite <- HD. }
  induction l as [|i l IH]; intros D; simpl.
  - intros s Hs. unfold wp; simpl. eapply Hiff; [|exact Hs]. intros j. set_solver.
  - eapply moves_bind; [apply closing_step|]. intros [] s Hs.
    eapply wp_mono; [|by apply IH]. intros [[] s'|e s']; [|done]. apply Hiff. intros j. set_solver.
Qed.

Lemma closing_shutdown s : s = s0 -> active_thread (sched s) = tid ->
  wp process_shutdown (fun r => match r with
    | Val _ s' => evolved (closed p) s0 s' /\ active_thread (sched s') = tid
    | Stop e s' => E e s'
    end) s.
Proof.
  intros -> Ha. unfold process_shutdown. wp_step. unfold wp at 1; simpl.
  eapply wp_mono; [|apply (closing_loop _ (fun j => ~ 0 <= j < lenZ (threads (sched s0))))].
  - intros [[] s'|e s']; [|done]. intros (He & Ha' & _). split; [|done]. eapply evolved_mono; [|exact He].
    intros j t t' Hj [[K1 K2] K3]. split; [done|]. intros Hp. apply K3; [|done].
    destruct (decide (0 <= j < lenZ (threads (sched s0)))); [right; apply elem_of_seqZ; lia|by left].
  - split; [|done]. apply evolved_refl. intros j t Hj%lookupZ_Some. split; [done|]. intros Hn. destruct Hn. exact Hj.
Qed.
End Closing.
