(* ===== verification/Program.v ===== *)
(** * Program: the code of a thread between its actions

    The functions that the program under test calls run on its thread and enter
    the model with [Model::action].  A [prog] is such code: it ends with a value,
    performs an action and goes on with the action's value, or does a
    computation on the shared objects in between.  [run] executes it for a
    thread that is alone; the machine resumes it where an action waits. *)
From S2P Require Import Prelude Choice Action ReadFrom CacheLine ThreadMemory State Scheduler ModelCore Executor Wf Frame.

Inductive prog (A : Type) : Type :=
| Ret (a : A)
| Act (a : ModelAction) (yield_flag : bool) (k : Z -> prog A)
| Do (X : Type) (m : M St X) (k : X -> prog A).
Arguments Ret {A} a.
Arguments Act {A} a yield_flag k.
Arguments Do {A X} m k.

Fixpoint pbind {A B} (p : prog A) (f : A -> prog B) : prog B :=
  match p with
  | Ret a => f a
  | Act a y k => Act a y (fun v => pbind (k v) f)
  | Do m k => Do m (fun x => pbind (k x) f)
  end.
Notation "'let*' x := p 'in' k" := (pbind p (fun x => k))
  (at level 10, x pattern, p at level 100, k at level 200) : cxl_scope.

Definition call (a : ModelAction) (yield_flag : bool) : prog Z := Act a yield_flag Ret.
Definition perform {A} (m : M St A) : prog A := Do m Ret.

(** [new ModelAction(type, loc, val, order, size, position)] by the running thread. *)
Definition new_action (t : action_type) (loc val : Z) (ord : memory_order) (sz : Z) (pos : string) : prog ModelAction :=
  let* tid := perform self_tid in Ret (ModelAction_new tid t loc val ord sz pos).
Definition issue (t : action_type) (loc val : Z) (ord : memory_order) (sz : Z) (pos : string) (y : bool) : prog Z :=
  let* a := new_action t loc val ord sz pos in call a y.

Section Run.
Context `{Rand}.

(** A thread that no other thread interrupts; waiting for one ends the run. *)
Fixpoint run {A} (p : prog A) : M St A :=
  match p with
  | Ret a => ret a
  | Act a y k =>
      let! o := action a y in
      match o with
      | Done v => run (k v)
      | Wait _ => halt (NoReturn "another thread runs")
      end
  | Do m k => let! x := m in run (k x)
  end.

Lemma wp_run_bind {A B} (p : prog A) (f : A -> prog B) Q : forall s,
  wp (run (pbind p f)) Q s <->
  wp (run p) (fun r => match r with Val a s' => wp (run (f a)) Q s' | Stop e s' => Q (Stop e s') end) s.
Proof.
  induction p as [a|a y k IH|X m k IH]; intros s; simpl; [done| |].
  - rewrite !wp_bind. split; apply wp_mono; intros [[v|p] s'|e s']; try done; apply IH.
  - rewrite !wp_bind. split; apply wp_mono; intros [x s'|e s']; try done; apply IH.
Qed.
End Run.

(** An action that was issued, whether it asked to yield, and its value. *)
Definition issue_event : Type := ModelAction * bool * Z.

Section Traced.
Context `{Rand}.
(** [run] with the actions that were issued. *)
Fixpoint traced {A} (p : prog A) : M St (A * list issue_event) :=
  match p with
  | Ret a => ret (a, [])
  | Act a y k =>
      let! o := action a y in
      match o with
      | Done v => let! (r, l) := traced (k v) in ret (r, (a, y, v) :: l)
      | Wait _ => halt (NoReturn "another thread runs")
      end
  | Do m k => let! x := m in traced (k x)
  end.

(** A postcondition for what is left when [l] has been issued. *)
Definition after_events {A} (l : list issue_event) (Q : result St (A * list issue_event) -> Prop) (r : result St (A * list issue_event)) : Prop :=
  match r with Val (a, l') s => Q (Val (a, l ++ l') s) | Stop e s => Q (Stop e s) end.

Lemma wp_traced_bind {A B} (p : prog A) (f : A -> prog B) : forall Q s,
  wp (traced p) (fun r => match r with
    | Val (a, l) s' => wp (traced (f a)) (after_events l Q) s'
    | Stop e s' => Q (Stop e s') end) s -> wp (traced (pbind p f)) Q s.
Proof.
  induction p as [a|a y k IH|X m k IH]; intros Q s; simpl.
  - intros HQ. eapply wp_mono; [|exact HQ]. by intros [[b l] s'|e s'].
  - rewrite !wp_bind. apply wp_mono. intros [[v|p] s'|e s']; [|done|done]. rewrite !wp_bind. intros HQ.
    enough (wp (traced (pbind (k v) f)) (after_events [(a, y, v)] Q) s') as Hk.
    { eapply wp_mono; [|exact Hk]. by intros [[b l] s''|e s'']. }
    apply IH. eapply wp_mono; [|exact HQ]. intros [[b l] s''|e s'']; [|done].
    intros Hb. eapply wp_mono; [|exact Hb]. by intros [[c l'] s3|e s3].
  - rewrite !wp_bind. apply wp_mono. intros [x s'|e s']; [|done]. apply IH.
Qed.
End Traced.

(** ** Properties that do not depend on the scheduler *)

(** A property of the model and of the number of processes, kept by crashes that
    are allowed, is kept by every action. *)
Section Coarse.
Context `{Rand} (I : St -> Prop).
Hypothesis I_mdl : forall f s, model_rel (mdl s) (f (mdl s)) -> I s -> I (on_mdl f s).
Hypothesis I_sched : forall f s, process_count (f (sched s)) = process_count (sched s) -> I s -> I (on_sched f s).
Hypothesis I_proc : forall f s, same_process (proc s) (f (proc s)) -> I s -> I (on_proc f s).
Hypothesis I_mutexes : forall f s, I s -> I (on_mutexes f s).
Hypothesis I_crash : forall c s, crash_allowed s = true -> (size c <= S (size (crashes (mdl s))))%nat ->
  I s -> I (on_mdl (with_crashes c) s).
Let E (e : stop) (s : St) : Prop := I s.

Lemma coarse_frame : frame I E.
Proof.
  apply make_frame; intros; try done.
  - by apply I_mdl.
  - by apply I_sched.
  - by apply I_sched.
  - apply I_sched; [|done]. unfold wake_thread_waiting_on. by case_match.
  - by apply I_mutexes.
  - by apply I_proc.
  - by apply I_crash.
  - apply I_sched; [|done]. apply process_crash_counts.
Qed.
Let F := coarse_frame.

Lemma coarse_active n s : I s -> I (on_sched (fun _ => with_active n (sched s)) s).
Proof. by apply I_sched. Qed.
Lemma coarse_state i ts s : True -> I s -> I (on_thread i (set_state ts) s).
Proof. intros _. by apply I_sched. Qed.

Lemma coarse_pending p s : I s -> I (on_thread (thread_id (proc s)) (set_pending p) s).
Proof. by apply I_sched. Qed.
Lemma coarse_execute a : (act_type a = PTHREAD_CREATE -> keeps I E (exec_create a)) ->
  moves I E (execute a) (progress_post I (fun _ => I)).
Proof.
  intros Hc. eapply moves_execute; [exact F| | |exact Hc|done].
  - intros p _. apply moves_keeps; [|by intros [|]].
    apply (keeps_wait _ _ _ F (fun _ => True)); [apply coarse_active|by apply coarse_state|done].
  - intros _. apply moves_keeps; [|by intros [v|p]].
    apply (keeps_thread_finalize _ _ _ F (fun _ => True)); [apply coarse_active|by apply coarse_state|done].
Qed.
Lemma coarse_action a y : (act_type a = PTHREAD_CREATE -> forall a', keeps I E (exec_create a')) -> preserves I (action a y).
Proof.
  intros Hc s Hs.
  eapply wp_mono; [|apply (moves_action _ I E F coarse_pending a y (fun _ => I)); [| |exact Hs]].
  - by intros [[v|p] s'|e s'].
  - apply (moves_switch _ _ (fun _ => I) PExec); [|done]. apply (keeps_yield _ _ _ F), coarse_active.
  - intros a' Ht _ _. apply coarse_execute. intros Hp. apply Hc. congruence.
Qed.
End Coarse.

(** Except for the creation of threads, actions do not write the memory that
    the program reads directly; and they leave the process its thread. *)
Lemma action_memory `{Rand} a y mem c tid : act_type a <> PTHREAD_CREATE ->
  preserves (fun s => memory s = mem /\ cxl_mapping (mdl s) = c /\ thread_id (proc s) = tid) (action a y).
Proof.
  intros Ha. apply coarse_action; try done.
  - intros f s (Hf & _) (? & <- & ?). done.
  - intros f s (_ & Hf & _) (? & ? & <-). done.
Qed.

(** ** An access gives its word an initial value *)

(** A step whose result does not matter. *)
Lemma wp_any {A B} (m : M St A) (f : A -> M St B) (Q : result St B -> Prop) s :
  (forall e s', Q (Stop e s')) -> (forall a s', wp (f a) Q s') -> wp (bind m f) Q s.
Proof.
  intros He Hf. rewrite wp_bind. eapply wp_mono; [|apply wp_true]. intros [a s'|e s'] _; [apply Hf|apply He].
Qed.
Ltac anything := apply wp_any; [done|intros ? ?].

Definition acted (a : ModelAction) (s : St) : Prop :=
  is_read a || is_write a = true -> based (obj_to_wr (mdl s)) (location a).
Definition acted_post {A} (a : ModelAction) (r : result St A) : Prop :=
  match r with Val _ s => acted a s | Stop _ _ => True end.

Lemma ensureInitialValue_based a s :
  wp (ensureInitialValue a) (fun r => match r with
    | Val _ s' => based (obj_to_wr (mdl s')) (location a)
    | Stop _ _ => False end) s.
Proof.
  unfold ensureInitialValue, get_storelist, set_storelist, self_tid. rewrite !alignAddress_idemp.
  wp_step. wp_step. unfold wp at 1; simpl.
  destruct (obj_to_wr (mdl s) !! alignAddress (location a)) as [[|w l]|] eqn:El.
  2: { unfold wp at 1; simpl. wp_step. unfold wp at 1; simpl. wp_step. unfold wp at 1; simpl. unfold wp; simpl. by exists (w :: l). }
  all: [> unfold wp at 1; simpl | wp_step; unfold wp at 1; simpl; unfold wp at 1; simpl ].
  all: wp_step; unfold wp at 1; simpl; wp_step; unfold wp at 1; simpl; unfold wp; simpl.
  all: eexists; split; [apply lookup_insert_eq|done].
Qed.

Section Acted.
Context `{Rand} (a : ModelAction).
Let I (s : St) : Prop := based (obj_to_wr (mdl s)) (location a).
Lemma based_mdl f s : model_rel (mdl s) (f (mdl s)) -> I s -> I (on_mdl f s).
Proof. intros (_ & _ & _ & Hw & _). apply Hw. Qed.

Lemma action_exec_acted s : wp (action_exec a) (acted_post a) s.
Proof.
  unfold action_exec, acted_post, acted. destruct (is_read a || is_write a).
  2:{ eapply wp_mono; [|apply wp_true]. by intros [o s'|e s']. }
  rewrite wp_bind. eapply wp_mono; [|apply ensureInitialValue_based]. intros [[] s1|e s1]; [|done]. intros H1.
  wp_step. unfold wp at 1; simpl. wp_step.
  assert (frame I (fun _ => I)) as F by (by apply coarse_frame; [apply based_mdl|..]).
  eapply wp_mono; [|apply (coarse_execute I based_mdl); try done].
  - intros [r s2|e s2]; [|done]. intros H2. eapply wp_mono; [|apply (moves_after_execute _ I (fun _ => I) F)].
    + intros [[v|p] s3|e s3]; [| |done]; intros H3 _; exact H3.
    + by apply coarse_pending.
    + exact H2.
  - intros _. by apply (keeps_create _ _ _ F).
Qed.
Lemma action_acted y s : wp (action a y) (fun r => match r with Val (Done _) s' => acted a s' | _ => True end) s.
Proof.
  unfold action. anything. anything. anything. case_if; [by anything|].
  anything. anything. anything. anything. case_if; [done|].
  eapply wp_mono; [|apply action_exec_acted]. by intros [[?|?] ?|? ?].
Qed.
End Acted.

(** ** Crashes are bounded *)

(** At most [MAX_CRASHES_PER_EXECUTION] processes have crashed, and one survives. *)
Definition survivors (s : St) : Prop :=
  crash_count s <= MAX_CRASHES_PER_EXECUTION /\ (crash_count s = 0 \/ crash_count s < process_count (sched s)).

Section Survivors.
Context `{Rand}.

Lemma survivors_mdl f s : model_rel (mdl s) (f (mdl s)) -> survivors s -> survivors (on_mdl f s).
Proof. intros (_ & _ & Hf & _) [H1 H2]. unfold survivors, crash_count. simpl. by rewrite Hf. Qed.
Lemma survivors_sched f s : process_count (f (sched s)) = process_count (sched s) -> survivors s -> survivors (on_sched f s).
Proof. intros Hf [H1 H2]. unfold survivors, crash_count. simpl. by rewrite Hf. Qed.
Lemma survivors_crash c s : crash_allowed s = true -> (size c <= S (size (crashes (mdl s))))%nat ->
  survivors s -> survivors (on_mdl (with_crashes c) s).
Proof.
  intros Hal Hc _. unfold crash_allowed in Hal. bools. unfold survivors, crash_count in *. simpl.
  unfold MAX_CRASHES_PER_EXECUTION in *. lia.
Qed.
Lemma survivors_frame : frame survivors (fun _ => survivors).
Proof. apply coarse_frame; try done; [apply survivors_mdl|apply survivors_sched|apply survivors_crash]. Qed.

Lemma survivors_create a : keeps survivors (fun _ => survivors) (exec_create a).
Proof. apply (keeps_create _ _ _ survivors_frame); [|done]. intros f arg s. by apply survivors_sched. Qed.

Lemma survivors_action a y : preserves survivors (action a y).
Proof.
  apply coarse_action; try done; [apply survivors_mdl|apply survivors_sched|apply survivors_crash|].
  intros _ a'. apply survivors_create.
Qed.
End Survivors.

(** C19: The crash budget: however the decisions fall, an action never lets more
    than [MAX_CRASHES_PER_EXECUTION] processes crash in an execution, and never
    crashes the last process. *)
Theorem crashes_bounded `{Rand} a y : preserves survivors (action a y).
Proof. apply survivors_action. Qed.

Lemma crashes_bounded_witness :
  preserves survivors (action (H := counter_rand) (ModelAction_new 0 NONATOMIC_LOAD 64 0 memory_order_relaxed 8 "demo") true).
Proof. exact (crashes_bounded (H := counter_rand) _ true). Defined.
