(* ===== verification/Api.v ===== *)
(** * Api: the entry points of the instrumented program

    [src/src/user/api.cc] (declared in [src/include/api.h]).  The functions of
    the four widths come from one macro each; here the width in bytes [sz] is an
    argument.  An access to memory that is not CXL memory is a plain access. *)
From S2P Require Import Prelude Choice Action ReadFrom CacheLine ThreadMemory State Scheduler ModelCore Executor Program.

(** A [uintN_t] of [sz] bytes. *)
Definition uN (sz v : Z) : Z := wrap (8 * sz) v.

(** Plain accesses. *)
Definition raw_load (loc sz : Z) : M St Z := gets (fun s => load_bytes (memory s) loc (Z.to_nat sz)).
Definition raw_store (loc sz val : Z) : M St unit :=
  modify (on_memory (fun m => store_bytes m loc (to_le (Z.to_nat sz) val))).
Definition is_cxl (loc : Z) : prog bool := perform (gets (fun s => mem_is_cxl s loc)).

(** [orders[7]]: the last element is zero, [memory_order_relaxed]. *)
Definition orders : list memory_order :=
  [memory_order_relaxed; memory_order_consume; memory_order_acquire;
   memory_order_release; memory_order_acq_rel; memory_order_seq_cst; memory_order_relaxed].
Definition order_at (atomic_index : Z) : prog memory_order :=
  perform (from_some (lookupZ orders atomic_index) (UB "orders[atomic_index]")).

Definition memory_order_volatile_load : memory_order := memory_order_acquire.
Definition memory_order_volatile_store : memory_order := memory_order_release.

Definition cxlmc_load (sz loc : Z) (position : string) : prog Z :=
  let* cxl := is_cxl loc in
  if cxl then
    let* v := issue NONATOMIC_LOAD loc VALUE_NONE memory_order_relaxed sz position false in Ret (uN sz v)
  else perform (raw_load loc sz).

Definition cxlmc_store (sz loc val : Z) (position : string) : prog unit :=
  let* cxl := is_cxl loc in
  let* _ := (if cxl then issue NONATOMIC_STORE loc (uN sz val) memory_order_relaxed sz position false else Ret 0) in
  perform (raw_store loc sz val).

Definition cxlmc_volatile_load (sz loc : Z) (position : string) : prog Z :=
  let* cxl := is_cxl loc in
  if cxl then
    let* v := issue ATOMIC_LOAD loc VALUE_NONE memory_order_volatile_load sz position false in Ret (uN sz v)
  else perform (raw_load loc sz).

Definition cxlmc_volatile_store (sz loc val : Z) (position : string) : prog unit :=
  let* cxl := is_cxl loc in
  let* _ := (if cxl then issue ATOMIC_STORE loc (uN sz val) memory_order_volatile_store sz position false else Ret 0) in
  perform (raw_store loc sz val).

Definition cxlmc_atomic_init (sz loc val : Z) (position : string) : prog unit :=
  let* cxl := is_cxl loc in
  let* _ := (if cxl then issue ATOMIC_INIT loc (uN sz val) memory_order_relaxed sz position true else Ret 0) in
  perform (raw_store loc sz val).

Definition cxlmc_atomic_load (sz loc atomic_index : Z) (position : string) : prog Z :=
  let* cxl := is_cxl loc in
  if cxl then
    let* ord := order_at atomic_index in
    let* v := issue ATOMIC_LOAD loc VALUE_NONE ord sz position true in Ret (uN sz v)
  else perform (raw_load loc sz).

Definition cxlmc_atomic_store (sz loc val atomic_index : Z) (position : string) : prog unit :=
  let* cxl := is_cxl loc in
  let* _ := (if cxl then
               let* ord := order_at atomic_index in issue ATOMIC_STORE loc (uN sz val) ord sz position true
             else Ret 0) in
  perform (raw_store loc sz val).

Definition model_rmw_read_action (addrs atomic_index : Z) (position : string) (size : Z) : prog Z :=
  let* ord := order_at atomic_index in issue ATOMIC_RMWR addrs 0 ord size position true.
Definition model_rmw_action (addrs val atomic_index : Z) (position : string) (size : Z) : prog Z :=
  let* ord := order_at atomic_index in issue ATOMIC_RMW addrs val ord size position true.
Definition model_rmw_cas_fail_action (addrs atomic_index : Z) (position : string) (size : Z) : prog Z :=
  let* ord := order_at atomic_index in issue ATOMIC_CAS_FAILED addrs 0 ord size position true.

(** [_ATOMIC_RMW_]: [op] is the assignment operator on [uintN_t]s. *)
Definition atomic_rmw (op : Z -> Z -> Z) (sz addr val atomic_index : Z) (position : string) : prog Z :=
  let* cxl := is_cxl addr in
  let* old := (if cxl then let* v := model_rmw_read_action addr atomic_index position sz in Ret (uN sz v)
               else perform (raw_load addr sz)) in
  let copy := uN sz (op old (uN sz val)) in
  let* _ := (if cxl then let* _ := model_rmw_action addr copy atomic_index position sz in Ret tt
             else perform (raw_store addr sz copy)) in
  Ret old.

Definition cxlmc_atomic_exchange := atomic_rmw (fun _ v => v).
Definition cxlmc_atomic_fetch_add := atomic_rmw Z.add.
Definition cxlmc_atomic_fetch_sub := atomic_rmw Z.sub.
Definition cxlmc_atomic_fetch_and := atomic_rmw Z.land.
Definition cxlmc_atomic_fetch_or := atomic_rmw Z.lor.
Definition cxlmc_atomic_fetch_xor := atomic_rmw Z.lxor.

(** [_ATOMIC_CMPSWP_] *)
Definition cxlmc_atomic_compare_exchange_v1 (sz addr expected desired atomic_index_succ atomic_index_fail : Z)
    (position : string) : prog Z :=
  let expected := uN sz expected in
  let desired := uN sz desired in
  let* cxl := is_cxl addr in
  let* old := (if cxl then let* v := model_rmw_read_action addr atomic_index_succ position sz in Ret (uN sz v)
               else perform (raw_load addr sz)) in
  if old =? expected then
    let* _ := (if cxl then model_rmw_action addr desired atomic_index_succ position sz else Ret 0) in
    let* _ := perform (raw_store addr sz desired) in
    Ret expected
  else
    let* _ := (if cxl then model_rmw_cas_fail_action addr atomic_index_fail position sz else Ret 0) in
    Ret old.

(** [expected] is the address of the expected value, in private memory. *)
Definition cxlmc_atomic_compare_exchange_v2 (sz addr expected desired atomic_index_succ atomic_index_fail : Z)
    (position : string) : prog bool :=
  let* exp := perform (raw_load expected sz) in
  let* r := cxlmc_atomic_compare_exchange_v1 sz addr exp desired atomic_index_succ atomic_index_fail position in
  let* exp := perform (raw_load expected sz) in
  if r =? exp then Ret true
  else let* _ := perform (raw_store expected sz r) in Ret false.

(** [new ModelAction(type, loc)] with the default arguments. *)
Definition issue_default (t : action_type) (loc val : Z) : prog Z :=
  issue t loc val memory_order_seq_cst 1 EmptyString true.

Definition cxlmc_sfence (loc : Z) : prog Z := issue_default CACHE_SFENCE loc 0.
Definition cxlmc_mfence (loc : Z) : prog Z := issue_default CACHE_MFENCE loc 0.
Definition cxlmc_clflush (loc : Z) : prog Z := issue_default CACHE_CLFLUSH loc 0.
Definition cxlmc_clflushopt (loc : Z) : prog Z := issue_default CACHE_CLFLUSHOPT loc 0.
Definition cxlmc_clwb (loc : Z) : prog Z := cxlmc_clflushopt loc.

Definition get_cxl_mapping (s : St) : Z := cxl_mapping (mdl s).
Definition get_process_count (s : St) : Z := process_count (sched s).
Definition api_get_process_id (s : St) : Z := process_id (proc s).
Definition get_live_process_count (s : St) : Z :=
  process_count (sched s) - get_crashed_process_count s - get_completed_process_count s.
Definition is_process_crashed (pid : Z) (s : St) : bool := is_crashed s pid.
Definition cxlmc_no_backtrack_begin : M St unit := modify (on_proc (with_backtrack false)).
Definition cxlmc_no_backtrack_end : M St unit := modify (on_proc (with_backtrack true)).
