(* ===== verification/Pthread.v ===== *)
(** * Pthread: the thread functions of the program under test

    [src/src/model/pthread.cc], [mutex.cc], [condition_variable.cc], [sleep.cc],
    [thread_start] of [threads.cc] and [mutex_lock_crashed] of
    [src/src/user/api.cc].  A [pthread_mutex_t *] or [pthread_cond_t *] in CXL
    memory names the same object in every process, one in private memory an
    object of its process. *)
From S2P Require Import Prelude Choice Action ReadFrom CacheLine ThreadMemory State Scheduler ModelCore Executor Program Api.

Definition make_ext_ptr (ptr : Z) (s : St) : Z * Z :=
  (ptr, if mem_is_cxl s ptr then -1 else process_id (proc s)).

(** ** [Mutex] and [ConditionVariable] *)
Definition Mutex_lock (m : Z) : prog bool := let* v := issue_default ATOMIC_LOCK m 0 in Ret (negb (v =? 0)).
Definition Mutex_try_lock (m : Z) : prog bool := let* v := issue_default ATOMIC_TRYLOCK m 0 in Ret (negb (v =? 0)).
Definition Mutex_unlock (m : Z) : prog Z := issue_default ATOMIC_UNLOCK m 0.
Definition notify_one (v : Z) : prog Z := issue_default ATOMIC_NOTIFY_ONE v 0.
Definition notify_all (v : Z) : prog Z := issue_default ATOMIC_NOTIFY_ALL v 0.
Definition cond_wait (v lock : Z) : prog bool :=
  let* _ := issue_default ATOMIC_WAIT v lock in Mutex_lock lock.

(** ** Threads *)

Definition thread_action (t : action_type) : prog Z :=
  let* tid := perform self_tid in call (ModelAction_thread tid t) true.

(** [params] is the address of the local [pthread_params]. *)
Definition pthread_create (params tid_ptr func arg : Z) : prog Z :=
  let* _ := perform (raw_store params 8 func) in
  let* _ := perform (raw_store (params + 8) 8 arg) in
  let* _ := issue_default PTHREAD_CREATE tid_ptr params in
  Ret 0.
(** The second component is what [*ret_val] receives. *)
Definition pthread_join (tid : Z) : prog (Z * Z) :=
  let* _ := perform (get_thread tid) in
  let* _ := issue_default PTHREAD_JOIN tid tid in
  let* t := perform (get_thread tid) in
  Ret (0, ret_val t).
Definition pthread_detach (t : Z) : prog Z := Ret 0.
Definition sched_yield : prog Z := let* _ := thread_action THREAD_YIELD in Ret 0.
Definition pthread_exit (value_ptr : Z) : prog Z :=
  let* _ := issue_default THREADONLY_FINISH value_ptr 0 in
  perform (halt (AssertFail "pthread_exit")).
Definition pthread_self : prog Z := perform self_tid.
Definition sleep (seconds : Z) : prog Z := let* _ := thread_action THREAD_YIELD in Ret 0.

(** [thread_start]: [body] is the function that the thread runs. *)
Definition thread_start (body : Z -> Z -> prog Z) : prog Z :=
  let* _ := thread_action THREAD_START in
  let* t := perform current_thread in
  let* r := body (fst (params t)) (snd (params t)) in
  let* _ := perform (let! tid := self_tid in upd_thread tid (set_ret_val r)) in
  thread_action THREAD_FINISH.

(** ** Mutexes *)

Definition new_mutex (type : Z) : M St Z :=
  let! s := get in
  modify (fun s => mkSt (sched s) (mdl s) (<[next_obj s := Mutex_new type]> (mutexes s)) (conds s)
                        (next_obj s + 1) (memory s) (proc s)) ;;;
  ret (next_obj s).
(** [emplace]: an entry that is there is kept. *)
Definition emplace_mutex (ep : Z * Z) (m : Z) : M St unit :=
  modify (on_mdl (fun md => match mutex_map md !! ep with
                            | Some _ => md
                            | None => with_mutex_map (<[ep := m]> (mutex_map md)) md
                            end)).
Definition find_mutex (ep : Z * Z) : M St (option Z) := gets (fun s => mutex_map (mdl s) !! ep).

(** [type]: the type of the attributes, [None] for no attributes. *)
Definition mutex_init (p_mutex : Z) (type : option Z) : M St Z :=
  let! s := get in
  let! m := new_mutex (default PTHREAD_MUTEX_DEFAULT type) in
  emplace_mutex (make_ext_ptr p_mutex s) m ;;;
  ret 0.
Definition pthread_mutex_init (p_mutex : Z) (type : option Z) : prog Z := perform (mutex_init p_mutex type).

(** The mutex of the address, created on first use. *)
Definition mutex_at (p_mutex : Z) : M St Z :=
  let! s := get in
  let ep := make_ext_ptr p_mutex s in
  let! m := find_mutex ep in
  match m with
  | Some m => ret m
  | None =>
      mutex_init p_mutex None ;;;
      let! m := find_mutex ep in from_some m (UB "mutex_map->at")
  end.

Definition pthread_mutex_lock (p_mutex : Z) : prog Z :=
  let* m := perform (mutex_at p_mutex) in
  if m =? 0 then Ret 1 else let* _ := Mutex_lock m in Ret 0.
Definition pthread_mutex_trylock (p_mutex : Z) : prog Z :=
  let* m := perform (mutex_at p_mutex) in
  let* b := Mutex_try_lock m in
  Ret (if b then 0 else EBUSY).
Definition pthread_mutex_unlock (p_mutex : Z) : prog Z :=
  let* m := perform (let! s := get in
                     let! m := find_mutex (make_ext_ptr p_mutex s) in
                     from_some m (UB "mutex_map->at")) in
  if m =? 0 then Ret 1 else let* _ := Mutex_unlock m in Ret 0.
Definition pthread_mutex_timedlock (p_mutex : Z) : prog Z := pthread_mutex_lock p_mutex.

(** The condition of the code is inverted: without an entry [iter->second] reads
    past the map's elements, with one the answer is [EINVAL]. *)
Definition pthread_mutex_destroy (p_mutex : Z) : prog Z :=
  perform (let! s := get in
           let! m := find_mutex (make_ext_ptr p_mutex s) in
           match m with
           | None => halt (UB "iter->second of mutex_map->end()")
           | Some _ => ret EINVAL
           end).

(** The mutex of a lock that tells whether its owner crashed. *)
Definition mutex_lock_crashed (p_mutex : Z) : prog Z :=
  let* m := perform (mutex_at p_mutex) in
  if m =? 0 then Ret 0 else let* b := Mutex_lock m in Ret (Z.b2z b + 1).

(** ** Condition variables *)

Definition new_cond : M St Z :=
  let! s := get in
  modify (fun s => mkSt (sched s) (mdl s) (mutexes s) ({[next_obj s]} ∪ conds s)
                        (next_obj s + 1) (memory s) (proc s)) ;;;
  ret (next_obj s).
Definition emplace_cond (ep : Z * Z) (v : Z) : M St unit :=
  modify (on_mdl (fun md => match cond_map md !! ep with
                            | Some _ => md
                            | None => with_cond_map (<[ep := v]> (cond_map md)) md
                            end)).
Definition find_cond (ep : Z * Z) : M St (option Z) := gets (fun s => cond_map (mdl s) !! ep).
Definition cond_init (p_cond : Z) : M St Z :=
  let! v := new_cond in
  let! s := get in
  emplace_cond (make_ext_ptr p_cond s) v ;;;
  ret 0.
Definition pthread_cond_init (p_cond : Z) : prog Z := perform (cond_init p_cond).
Definition cond_at (p_cond : Z) : M St Z :=
  let! s := get in
  let ep := make_ext_ptr p_cond s in
  let! v := find_cond ep in
  match v with
  | Some v => ret v
  | None =>
      cond_init p_cond ;;;
      let! v := find_cond ep in from_some v (UB "cond_map->at")
  end.

Definition pthread_cond_wait (p_cond p_mutex : Z) : prog Z :=
  let* m := perform (mutex_at p_mutex) in
  let* v := perform (cond_at p_cond) in
  let* _ := cond_wait v m in Ret 0.
Definition pthread_cond_timedwait (p_cond p_mutex : Z) : prog Z :=
  let* m := perform (mutex_at p_mutex) in
  let* v := perform (cond_at p_cond) in
  let* _ := issue_default ATOMIC_TIMEDWAIT v m in
  let* _ := Mutex_lock m in Ret 0.
Definition pthread_cond_signal (p_cond : Z) : prog Z :=
  let* v := perform (cond_at p_cond) in let* _ := notify_one v in Ret 0.
Definition pthread_cond_broadcast (p_cond : Z) : prog Z :=
  let* v := perform (cond_at p_cond) in let* _ := notify_all v in Ret 0.
(** Inverted like [pthread_mutex_destroy]. *)
Definition pthread_cond_destroy (p_cond : Z) : prog Z :=
  perform (let! s := get in
           let! v := find_cond (make_ext_ptr p_cond s) in
           match v with
           | None => halt (UB "iter->second of cond_map->end()")
           | Some _ => ret EINVAL
           end).
