(* ===== verification/Machine.v ===== *)
(** * Machine: the threads of all processes, one turn at a time

    [Scheduler::wait] lets exactly one thread of one process run: it goes on
    until it waits inside an action, ends, or its process exits, and then the
    thread that [active_thread] names runs, in its own process.  The state of
    the machine is the state of the shared objects as the running process sees
    it, the globals of every process and the point at which each thread waits.
    A [turn] is what the running thread may do: issue an action of the program,
    go on with the action that waited, run the program's own code, or end the
    process ([user_done] of [src/src/user/user.cc], then the exit handler
    [user_exit]).  The choice of the action, the program's own code and the
    decisions of the model are open: the machine covers every program that
    respects [allowed], from every image of memory. *)
From S2P Require Import Prelude Choice Action ReadFrom CacheLine ThreadMemory State Scheduler ModelCore Executor ReadSound Wf ModelSafe Safety Frame Evolve Program Api Pthread.

(** Where a thread is that does not run: inside an action, in the [yield] of
    [process_shutdown], or in a process that has exited. *)
Inductive activity := Waits (p : point) (a : ModelAction) | Shutdown | Gone.

Record Machine := mkMachine {
  shared : St;
  globals : gmap Z Process;
  waits : gmap Z activity
}.
Definition current (m : Machine) : Z := thread_id (proc (shared m)).

(** [Scheduler::wait]: the process of the active thread takes it up. *)
Definition dispatch (m : Machine) : Machine :=
  let s := shared m in
  let gs := <[process_id (proc s) := proc s]> (globals m) in
  match lookupZ (threads (sched s)) (active_thread (sched s)) with
  | Some t =>
      match gs !! thr_pid t with
      | Some g => mkMachine (on_proc (fun _ => with_thread_id (active_thread (sched s)) g) s) gs (waits m)
      | None => m
      end
  | None => m
  end.

Definition set_wait (tid : Z) (w : option activity) (ws : gmap Z activity) : gmap Z activity :=
  match w with Some x => <[tid := x]> ws | None => delete tid ws end.

(** What the program must respect: aligned accesses, existing mutexes, joins in
    its own process; a created thread's number goes to memory the checker
    knows; a main thread returns instead of ending itself. *)
Record allowed (s : St) (tid : Z) (a : ModelAction) : Prop := mkAllowed {
  al_tid : act_tid a = tid;
  al_type : act_type a <> ATOMIC_INIT /\ act_type a <> ATOMIC_TIMEDWAIT;
  al_access : is_read a || is_write a = true -> access_ok a;
  al_mutex : forall m, get_mutex a = inr m -> is_Some (mutexes s !! m);
  al_join : act_type a = PTHREAD_JOIN -> exists t u, lookupZ (threads (sched s)) tid = Some t /\
    lookupZ (threads (sched s)) (location a) = Some u /\ thr_pid u = thr_pid t;
  al_create : act_type a = PTHREAD_CREATE -> location a mod THREAD_ID_SIZE = 0 /\
    0 <= location a /\ location a + 8 < 2 ^ 64 /\ based (obj_to_wr (mdl s)) (location a);
  al_finish : act_type a = THREAD_FINISH \/ act_type a = THREADONLY_FINISH ->
    exists t, lookupZ (threads (sched s)) tid = Some t /\ is_main t = false
}.

(** The computations of the program's own code on the objects it shares with
    the checker: those that only read the state, and the operations of the
    instrumentation. *)
Inductive own_code (s : St) : forall X : Type, M St X -> Prop :=
| own_read X (c : M St X) x : c s = Leaf (Val x s) -> own_code s X c
| own_store loc sz val : own_code s unit (raw_store loc sz val)
| own_mutex_at p : own_code s Z (mutex_at p)
| own_mutex_init p type : own_code s Z (mutex_init p type)
| own_cond_at p : own_code s Z (cond_at p)
| own_cond_init p : own_code s Z (cond_init p)
| own_return r : own_code s unit (let! tid := self_tid in upd_thread tid (set_ret_val r))
| own_backtrack_begin : own_code s unit cxlmc_no_backtrack_begin
| own_backtrack_end : own_code s unit cxlmc_no_backtrack_end.
Arguments own_code s {X} c.

Section Turns.
Context `{Rand}.

Definition after_action (a : ModelAction) (o : outcome) : option activity :=
  match o with Done _ => None | Wait p => Some (Waits p a) end.
Definition issue_action (a : ModelAction) (y : bool) : M St (option activity) :=
  let! o := action a y in ret (after_action a o).
Definition resume_action (p : point) (a : ModelAction) : M St (option activity) :=
  let! o := resume p a in ret (after_action a o).
Definition run_own {X} (m : M St X) : M St (option activity) := let! _ := m in ret None.

(** [user_done] from the end of the [yield] in [process_shutdown] on, and the
    return from [main]. *)
Definition end_process : M St (option activity) :=
  process_shutdown ;;; complete_process ;;; halt (Exit EXIT_SUCCESS).
Definition user_done : M St (option activity) :=
  let! switched := yield in if switched then ret (Some Shutdown) else end_process.

(** What the running thread may do next. *)
Inductive turn (m : Machine) : M St (option activity) -> Prop :=
| turn_issue a y : waits m !! current m = None -> allowed (shared m) (current m) a -> turn m (issue_action a y)
| turn_resume p a : waits m !! current m = Some (Waits p a) -> turn m (resume_action p a)
| turn_own X (c : M St X) : waits m !! current m = None -> own_code (shared m) c -> turn m (run_own c)
| turn_return t : waits m !! current m = None ->
    lookupZ (threads (sched (shared m))) (current m) = Some t -> is_main t = true -> turn m user_done
| turn_shutdown : waits m !! current m = Some Shutdown -> turn m end_process.

(** One turn: the thread waits or goes on; or its process exits, and the exit
    handler hands over. *)
Inductive mstep (m : Machine) : Machine -> Prop :=
| step_turn c w s : turn m c -> Val w s ∈ leaves (c (shared m)) ->
    mstep m (dispatch (mkMachine s (globals m) (set_wait (current m) w (waits m))))
| step_exit c s s' : turn m c -> Stop (Exit EXIT_SUCCESS) s ∈ leaves (c (shared m)) ->
    Val true s' ∈ leaves (finalize s) ->
    mstep m (dispatch (mkMachine s' (globals m) (<[current m := Gone]> (waits m)))).

Definition RANDOM_SEED : Z := 42.
(** What the processes inherit when [main] forks them: the memory of the program
    and the address of the CXL mapping, which [main] sets. *)
Record Image := mkImage { img_memory : gmap Z Z; img_cxl : Z }.
Definition launch (im : Image) (s : St) : St :=
  on_memory (fun _ => img_memory im) (on_mdl (with_cxl_mapping (img_cxl im)) s).
(** The start of an execution: [user_init] of every process has run and process
    0 is active. *)
Definition machine_init (im : Image) (pc : Z) : Machine :=
  mkMachine (launch im (initial pc 0 RANDOM_SEED))
    (list_to_map ((fun p => (p, Process_init p (RANDOM_SEED + p))) <$> seqZ 0 pc)) ∅.

(** Reached in [n] turns. *)
Inductive reachable (pc : Z) : nat -> Machine -> Prop :=
| reach_init im : reachable pc 0 (machine_init im pc)
| reach_step n m m' : reachable pc n m -> mstep m m' -> reachable pc (S n) m'.
End Turns.

(** ** Frames and turns

    A property that depends on the scheduler and the running thread only, and
    that a frame keeps, is kept by the program's own code; and by the end of a
    process, where it may depend on the mutexes too. *)
Section FrameTurns.
Context `{Rand} (W : object -> Prop) (I : St -> Prop) (E : stop -> St -> Prop).
Hypothesis F : base_frame W I E.

Lemma frame_own s X (c : M St X) :
  (forall s s', sched s' = sched s -> thread_id (proc s') = thread_id (proc s) -> I s -> I s') -> own_code s c -> I s ->
  wp c (fun r => match r with Val _ s' => I s' | Stop e s' => E e s' end) s.
Proof.
  intros Hsame.
  assert (forall f, (forall s, sched (f s) = sched s /\ thread_id (proc (f s)) = thread_id (proc s)) -> keeps I E (modify f)) as frame_other.
  { intros f Hf. apply keeps_modify. intros s1. by apply Hsame; apply Hf. }
  assert (forall p type, keeps I E (mutex_init p type)) as Hmutex.
  { intros p type. unfold mutex_init, new_mutex, emplace_mutex. keeps_steps; by apply frame_other. }
  assert (forall p, keeps I E (cond_init p)) as Hcond.
  { intros p. unfold cond_init, new_cond, emplace_cond. keeps_steps; by apply frame_other. }
  destruct 1 as [X c x Hc|loc sz val|p|p type|p|p|r| |].
  - intros Hs. unfold wp. by rewrite Hc.
  - by apply Hsame.
  - revert s. change (keeps I E (mutex_at p)). unfold mutex_at, find_mutex. keeps_steps. by eapply keeps_some.
  - by apply Hmutex.
  - revert s. change (keeps I E (cond_at p)). unfold cond_at, find_cond. keeps_steps. by eapply keeps_some.
  - by apply Hcond.
  - revert s. change (keeps I E (let! tid := self_tid in upd_thread tid (set_ret_val r))).
    apply keeps_bind; [apply keeps_gets|]. intros i. eapply keeps_thread; [exact F|by intros ?].
  - by apply Hsame.
  - by apply Hsame.
Qed.

Hypothesis Hsame : forall s s', sched s' = sched s -> thread_id (proc s') = thread_id (proc s) -> mutexes s' = mutexes s -> I s -> I s'.
Hypothesis Hcompleted : forall i s, I s -> I (on_thread i (set_state THREAD_COMPLETED) s).
Hypothesis Hexit : forall s, I s -> E (Exit EXIT_SUCCESS) s.
Lemma frame_shutdown l : keeps I E (for_each l shutdown_thread).
Proof.
  induction l as [|i l IH]; simpl; [apply keeps_ret|]. apply keeps_bind; [|done]. unfold shutdown_thread, get_thread, self_pid.
  apply keeps_bind; [apply keeps_bind; [apply keeps_get|intros s; by eapply keeps_some]|]. intros t.
  apply keeps_bind; [apply keeps_gets|]. intros p. case_if; [|apply keeps_ret]. apply keeps_bind.
  - case_if; [apply keeps_ret|]. apply keeps_modify. intros s. apply Hcompleted.
  - intros _. eapply keeps_empty, F.
Qed.
Lemma frame_end : keeps I E end_process.
Proof.
  unfold end_process, process_shutdown, complete_process, self_pid.
  apply keeps_bind; [apply keeps_bind; [apply keeps_gets|intros n; apply frame_shutdown]|]. intros _.
  apply keeps_bind; [apply keeps_bind; [apply keeps_gets|intros p; apply keeps_modify; intros s; by apply Hsame]|].
  intros _. by apply keeps_halt.
Qed.
Lemma frame_done : keeps I E yield -> keeps I E user_done.
Proof. intros Hy. apply keeps_bind; [exact Hy|]. intros [|]; [apply keeps_ret|apply frame_end]. Qed.
End FrameTurns.

(** ** The invariant *)

(** The objects of the shared heap: numbers below [next_obj]; the map of the
    mutexes names existing ones. *)
Definition heap_ok (s : St) : Prop :=
  (forall m, is_Some (mutexes s !! m) -> m < next_obj s) /\
  (forall k m, mutex_map (mdl s) !! k = Some m -> is_Some (mutexes s !! m)).

(** A main thread outlives the other threads of its process. *)
Definition mains_ok (c : Scheduler) : Prop := forall i t, lookupZ (threads c) i = Some t ->
  exists u, lookupZ (threads c) (thr_pid t) = Some u /\ is_main u = true /\ thr_pid u = thr_pid t /\
    (thread_is_completed u = true -> thread_is_completed t = true).

Definition wait_ok (s : St) (i : Z) (t : Thread) (w : activity) : Prop :=
  match w with
  | Waits p a => thread_is_completed t = true \/ (resumable p a /\ allowed s i a /\ pending t = Some a)
  | Shutdown => True
  | Gone => thread_is_completed t = true
  end.

Section Invariant.
Context {PAST : Past} {OPS : PastOps}.

Record minv (B : Z) (m : Machine) : Prop := mkMinv {
  mi_wf : wf B (shared m);
  mi_active : is_active (shared m);
  mi_runs : active_runs (shared m);
  mi_terminating : terminating (sched (shared m)) = false;
  mi_globals : forall p, 0 <= p < process_count (sched (shared m)) ->
    exists g, globals m !! p = Some g /\ process_id g = p;
  mi_mains : mains_ok (sched (shared m));
  mi_heap : heap_ok (shared m);
  mi_waits : forall i w, waits m !! i = Some w ->
    exists t, lookupZ (threads (sched (shared m))) i = Some t /\ wait_ok (shared m) i t w
}.

(** The CXL memory stays where it is, and its mutexes keep their entries. *)
Definition same_keys (s s' : St) : Prop :=
  cxl_mapping (mdl s') = cxl_mapping (mdl s) /\
  forall k, is_Some (mutex_map (mdl s) !! k) -> is_Some (mutex_map (mdl s') !! k).

(** What a turn of [tid] leaves to the others. *)
Record passed (tid : Z) (s s' : St) : Prop := mkPassed {
  pa_count : process_count (sched s') = process_count (sched s);
  pa_terminating : terminating (sched s') = terminating (sched s);
  pa_threads : forall i t, lookupZ (threads (sched s)) i = Some t ->
    exists t', lookupZ (threads (sched s')) i = Some t' /\ thr_pid t' = thr_pid t /\ is_main t' = is_main t /\
      (thread_is_completed t = true -> thread_is_completed t' = true) /\
      (i <> tid -> thread_is_completed t' = true \/ untouched t t');
  pa_new : forall i t', lookupZ (threads (sched s')) i = Some t' -> lookupZ (threads (sched s)) i = None -> is_main t' = false;
  pa_mains : mains_ok (sched s');
  pa_heap : heap_ok s';
  pa_mutexes : forall m, is_Some (mutexes s !! m) -> is_Some (mutexes s' !! m);
  pa_grows : wr_grows (obj_to_wr (mdl s)) (obj_to_wr (mdl s'));
  pa_keys : same_keys s s'
}.

Lemma allowed_passed tid s s' i a : passed tid s s' -> allowed s i a -> allowed s' i a.
Proof.
  intros P [A1 A2 A3 A4 A5 A6 A7]. constructor; try done.
  - intros m Hm. by apply (pa_mutexes _ _ _ P), A4.
  - intros Hj. destruct (A5 Hj) as (t & u & Ht & Hu & Hp).
    destruct (pa_threads _ _ _ P i t Ht) as (t' & Ht' & Ht'p & _). destruct (pa_threads _ _ _ P _ u Hu) as (u' & Hu' & Hu'p & _).
    exists t', u'. split; [done|]. split; [done|]. congruence.
  - intros Hc. destruct (A6 Hc) as (K1 & K2 & K3 & K4). do 3 (split; [done|]). by apply (pa_grows _ _ _ P).
  - intros Hf. destruct (A7 Hf) as (t & Ht & Hm). destruct (pa_threads _ _ _ P i t Ht) as (t' & Ht' & _ & Hm' & _).
    exists t'. split; [done|congruence].
Qed.

Lemma wait_passed tid s s' i t w : passed tid s s' -> i <> tid -> lookupZ (threads (sched s)) i = Some t ->
  wait_ok s i t w -> exists t', lookupZ (threads (sched s')) i = Some t' /\ wait_ok s' i t' w.
Proof.
  intros P Hi Ht Hw. destruct (pa_threads _ _ _ P i t Ht) as (t' & Ht' & _ & _ & Hc & Hp). exists t'. split; [done|].
  destruct w as [p a| |]; simpl in *; [|done|by apply Hc].
  destruct Hw as [Hd|(W1 & W2 & W3)]; [left; by apply Hc|].
  destruct (Hp Hi) as [Hd|[Hpe _]]; [by left|right]. split; [done|]. split; [by eapply allowed_passed|congruence].
Qed.

Lemma wf_as_process M s g : wf M s ->
  (exists t, lookupZ (threads (sched s)) (thread_id g) = Some t /\ thr_pid t = process_id g) ->
  wf M (on_proc (fun _ => g) s).
Proof.
  intros Hs Hg. pose proof Hs as [H1 H2 H3 H4 H5 H6 _].
  constructor; try done. by apply (past_step M s); [..|apply same_pids].
Qed.

Lemma wait_as_process s f i t w : wait_ok s i t w -> wait_ok (on_proc f s) i t w.
Proof.
  destruct w as [p a| |]; simpl; [|done|done]. intros [Hd|(H1 & [] & H3)]; [by left|right].
  split; [done|]. by split; [constructor|].
Qed.

Lemma dispatch_shared s gs ws : exists f, shared (dispatch (mkMachine s gs ws)) = on_proc f s.
Proof.
  unfold dispatch; simpl.
  destruct (lookupZ _ _) as [t|]; [destruct (<[_:=_]> gs !! thr_pid t) as [g|]|]; simpl; [by eexists| |];
    exists (fun p => p); by destruct s.
Qed.

(** Handing over after a turn. *)
Lemma dispatch_inv B0 B m s w : minv B0 m -> passed (current m) (shared m) s -> wf B s -> active_runs s ->
  (forall x, w = Some x -> exists t, lookupZ (threads (sched s)) (current m) = Some t /\ wait_ok s (current m) t x) ->
  minv B (dispatch (mkMachine s (globals m) (set_wait (current m) w (waits m)))).
Proof.
  intros [I1 I2 I3 I4 I5 I6 I7 I8] P Hs (t & Ht & Hr) Hw. unfold dispatch; simpl. rewrite Ht.
  assert (forall p, 0 <= p < process_count (sched s) ->
    exists g, <[process_id (proc s) := proc s]> (globals m) !! p = Some g /\ process_id g = p) as Hg.
  { intros p Hp. destruct (decide (process_id (proc s) = p)) as [<-|Hne]; [exists (proc s); by rewrite lookup_insert_eq|].
    rewrite lookup_insert_ne by done. apply I5. by rewrite <- (pa_count _ _ _ P). }
  destruct (Hg (thr_pid t)) as (g & Hgg & Hgp); [by eapply (tw_pids _ (wf_threads _ _ Hs))|]. rewrite Hgg.
  constructor; simpl; try done.
  - apply wf_as_process; [done|]. exists t. by split.
  - by exists t.
  - by rewrite (pa_terminating _ _ _ P).
  - apply P.
  - apply P.
  - intros i x Hx. assert (exists u, lookupZ (threads (sched s)) i = Some u /\ wait_ok s i u x) as (u & Hu & Hwu).
    2:{ exists u. split; [exact Hu|]. by apply wait_as_process. }
    destruct (decide (i = current m)) as [->|Hi].
    + apply Hw. destruct w as [y|]; simpl in Hx; [|by rewrite lookup_delete_eq in Hx].
      rewrite lookup_insert_eq in Hx. done.
    + assert (waits m !! i = Some x) as Hx'.
      { destruct w; simpl in Hx; [by rewrite lookup_insert_ne in Hx|by rewrite lookup_delete_ne in Hx]. }
      destruct (I8 i x Hx') as (u & Hu & Hwu). by eapply wait_passed.
Qed.

(** ** What the turns pass on *)

(** The running thread, its process and its main thread. *)
Lemma minv_self B m : minv B m -> exists t,
  lookupZ (threads (sched (shared m))) (current m) = Some t /\ thr_pid t = process_id (proc (shared m)) /\
  thr_state t = THREAD_RUNNING /\ running (shared m) t.
Proof.
  intros [I1 I2 (t & Ht & Hr) _ _ _ _ _]. unfold is_active in I2. fold (current m) in I2. rewrite I2 in Ht.
  exists t. split; [done|]. destruct (wf_self _ _ I1) as (u & Hu & Hp). fold (current m) in Hu. rewrite Ht in Hu.
  injection Hu as <-. split; [done|]. split; [done|]. constructor; [exact I2|exact Ht|by rewrite Hr].
Qed.

Lemma passed_heap C s s' : evolved C s s' -> heap_ok s -> heap_ok s'.
Proof.
  intros E [H1 H2]. destruct (ev_heap _ _ _ E) as (E1 & E2 & _). split.
  - intros m Hm. rewrite E1. apply H1. by apply (ev_mutexes _ _ _ E).
  - intros k m. rewrite E2. intros Hk. apply (ev_mutexes _ _ _ E). by eapply H2.
Qed.

Lemma evolved_keys C s s' : evolved C s s' -> same_keys s s'.
Proof. intros E. destruct (ev_heap _ _ _ E) as (_ & E2 & E3). split; [done|]. by rewrite E2. Qed.

(** The main thread of a thread that a turn leaves. *)
Lemma evolved_main C s s' i t' : evolved C s s' -> mains_ok (sched s) ->
  (exists u, lookupZ (threads (sched s)) (process_id (proc s)) = Some u /\ is_main u = true /\ thr_pid u = process_id (proc s)) ->
  lookupZ (threads (sched s')) i = Some t' ->
  exists t u u', origin s i t /\ thr_pid t' = thr_pid t /\ C i t t' /\
    lookupZ (threads (sched s)) (thr_pid t) = Some u /\ is_main u = true /\ thr_pid u = thr_pid t /\
    (lookupZ (threads (sched s)) i = Some t -> thread_is_completed u = true -> thread_is_completed t = true) /\
    lookupZ (threads (sched s')) (thr_pid t') = Some u' /\ is_main u' = true /\ thr_pid u' = thr_pid t' /\ C (thr_pid t) u u'.
Proof.
  intros E Hm Hself Ht'. destruct (ev_threads _ _ _ E i t' Ht') as (t & Ho & H1 & H2 & H3).
  assert (exists u, lookupZ (threads (sched s)) (thr_pid t) = Some u /\ is_main u = true /\ thr_pid u = thr_pid t /\
    (lookupZ (threads (sched s)) i = Some t -> thread_is_completed u = true -> thread_is_completed t = true)) as (u & U1 & U2 & U3 & U4).
  { destruct Ho as [Ho|(Hn & Hp & _)].
    - destruct (Hm i t Ho) as (u & ? & ? & ? & ?). by exists u.
    - rewrite Hp. destruct Hself as (u & ? & ? & ?). exists u. do 3 (split; [done|]). by rewrite Hn. }
  destruct (ev_old _ _ _ _ _ E U1) as (u' & K1 & K2 & K3 & K4).
  exists t, u, u'. rewrite H1. do 8 (split; [done|]). split; [congruence|]. split; [congruence|done].
Qed.

Lemma evolved_new C s s' : evolved C s s' -> forall i t', lookupZ (threads (sched s')) i = Some t' ->
  lookupZ (threads (sched s)) i = None -> is_main t' = false.
Proof.
  intros E i t' Ht' Hn. destruct (ev_threads _ _ _ E i t' Ht') as (t & [Ho|(_ & _ & Hm)] & _ & H2 & _); [congruence|].
  by rewrite H2.
Qed.

Lemma self_main B m : minv B m -> exists u,
  lookupZ (threads (sched (shared m))) (process_id (proc (shared m))) = Some u /\ is_main u = true /\
  thr_pid u = process_id (proc (shared m)) /\ thread_is_completed u = false.
Proof.
  intros Hm. destruct (minv_self _ _ Hm) as (t & Ht & Hp & Hr & _).
  destruct (mi_mains _ _ Hm _ _ Ht) as (u & H1 & H2 & H3 & H4). rewrite Hp in *. exists u. do 3 (split; [done|]).
  destruct (thread_is_completed u); [|done]. rewrite (running_not_completed _ Hr) in H4. by specialize (H4 eq_refl).
Qed.

Lemma steady_passed B m s : minv B m -> evolved (steady (current m)) (shared m) s -> passed (current m) (shared m) s.
Proof.
  intros Hm E. pose proof E as [E1 E2 E3 E4 E5 E6 E7 E8]. destruct (self_main _ _ Hm) as (v & V1 & V2 & V3 & V4).
  constructor; [done|done| |by apply (evolved_new _ _ _ E)| |by eapply passed_heap, Hm|by intros x Hx; apply E6|done|by eapply evolved_keys].
  - intros i t Ht. destruct (ev_old _ _ _ _ _ E Ht) as (t' & K1 & K2 & K3 & K4 & K5). exists t'.
    do 3 (split; [done|]). split; [|intros Hi; right; by apply K4]. intros Hc. destruct K5 as [->|(_ & _ & ->)]; done.
  - intros i t' Ht'. destruct (evolved_main _ _ _ i t' E (mi_mains _ _ Hm) ltac:(by exists v) Ht')
      as (t & u & u' & Ho & H1 & H2 & U1 & U2 & U3 & U4 & K1 & K2 & K3 & [_ K4]).
    exists u'. do 3 (split; [done|]). intros Hc. destruct K4 as [K4|(_ & Hmain & _)]; [|congruence].
    rewrite Hc in K4. symmetry in K4. destruct Ho as [Ho|(Hn & Hp & _)].
    + specialize (U4 Ho K4). destruct H2 as [_ [->|(_ & _ & ->)]]; done.
    + rewrite Hp, V1 in U1. injection U1 as <-. congruence.
Qed.

Lemma closed_passed B m s : minv B m -> evolved (closed (process_id (proc (shared m)))) (shared m) s ->
  passed (current m) (shared m) s.
Proof.
  intros Hm E. pose proof E as [E1 E2 E3 E4 E5 E6 E7 E8]. destruct (self_main _ _ Hm) as (v & V1 & V2 & V3 & V4).
  set (p := process_id (proc (shared m))) in *.
  constructor; [done|done| |by apply (evolved_new _ _ _ E)| |by eapply passed_heap, Hm|by intros x Hx; apply E6|done|by eapply evolved_keys].
  - intros i t Ht. destruct (ev_old _ _ _ _ _ E Ht) as (t' & K1 & K2 & K3 & K4 & K5). exists t'.
    do 3 (split; [done|]). destruct (decide (thr_pid t = p)) as [Hp|Hp]; [by rewrite (K5 Hp); auto|].
    destruct (K4 Hp) as [Hu ->]. auto.
  - intros i t' Ht'. destruct (evolved_main _ _ _ i t' E (mi_mains _ _ Hm) ltac:(by exists v) Ht')
      as (t & u & u' & Ho & H1 & [H2 H3] & U1 & U2 & U3 & U4 & K1 & K2 & K3 & K4 & K5).
    exists u'. do 3 (split; [done|]). intros Hc. destruct (decide (thr_pid t = p)) as [Hp|Hp]; [by apply H3|].
    destruct (H2 Hp) as [_ ->]. rewrite U3 in K4. destruct (K4 Hp) as [_ K]. rewrite Hc in K.
    destruct Ho as [Ho|(_ & Hop & _)]; [by apply U4|done].
Qed.

(** ** The turns *)

(** How a turn of [tid] leaves the scheduler: the thread goes on, or the next one
    that can run is active. *)
Definition hands_over (tid : Z) (s : St) : Prop :=
  active_runs s /\ (active_thread (sched s) = tid \/
    scan_others tid is_running (threads (sched s)) = Some (active_thread (sched s))).

Section Safe.
Context `{Rand} (B : Z) (m : Machine).
Hypothesis Hm : minv B m.
Hypothesis HB : B < 2 ^ 32 - 2.
Let tid := current m.
Let p := process_id (proc (shared m)).

(** How a turn ends: the thread goes on or waits; or its process has ended and
    its exit handler still has to hand over; nothing else is a failure. *)
Definition turn_post (r : result St (option activity)) : Prop :=
  match r with
  | Val w s => passed tid (shared m) s /\ wf (B + 1) s /\ hands_over tid s /\
      (forall x, w = Some x -> exists t, lookupZ (threads (sched s)) tid = Some t /\ wait_ok s tid t x)
  | Stop e s => benign e /\ (e = Exit EXIT_SUCCESS ->
      wf (B + 1) s /\ evolved (closed p) (shared m) s /\ active_thread (sched s) = tid)
  end.

Lemma allowed_ok a : allowed (shared m) tid a -> action_ok (shared m) a.
Proof.
  intros [A1 A2 A3 A4 A5 A6 A7]. destruct (minv_self _ _ Hm) as (t & Ht & Hp & Hr & _). fold tid in Ht.
  constructor; try done.
  - intros Hj. destruct (A5 Hj) as (v & u & Hv & Hu & Hpu). rewrite Ht in Hv. injection Hv as <-. exists u.
    split; [done|congruence].
  - intros Hf. split; [apply Hm|]. destruct (A7 Hf) as (v & Hv & Hmain). rewrite Ht in Hv. injection Hv as <-.
    destruct (self_main _ _ Hm) as (u & U1 & U2 & U3 & U4). exists (process_id (proc (shared m))), u.
    split; [|done]. intros Heq. fold (current m) tid in Heq. rewrite <- Heq, U1 in Ht. injection Ht as <-. congruence.
Qed.

Lemma turn_ids : process_id (proc (shared m)) = p /\ thread_id (proc (shared m)) = tid.
Proof. done. Qed.
Lemma turn_self t : lookupZ (threads (sched (shared m))) tid = Some t -> thr_pid t = p.
Proof.
  intros Ht. destruct (minv_self _ _ Hm) as (u & Hu & Hp & _). fold tid in Hu. rewrite Ht in Hu. by injection Hu as <-.
Qed.
Lemma turn_start : in_turn tid (steady tid) (shared m) True (shared m).
Proof.
  destruct (minv_self _ _ Hm) as (t & Ht & _ & Hr & _). split; [|split].
  - apply evolved_refl. intros j u _. apply steady_refl.
  - apply Hm.
  - intros _. by exists t.
Qed.
Lemma turn_may_finish a : allowed (shared m) tid a -> may_finish tid (shared m) a.
Proof. intros [_ _ _ _ _ _ A7] Hf t Ht. destruct (A7 Hf) as (u & Hu & Hmain). rewrite Ht in Hu. by injection Hu as <-. Qed.

(** From what is known of the outcome of an action to the end of its turn. *)
Lemma outcome_turn a (c : M St outcome) : allowed (shared m) tid a ->
  wp c (safe (B0 := B + 1) (fun _ s => wf (B + 1) s)) (shared m) ->
  wp c (fun r => match r with
    | Val o s => outcome_post (in_turn tid (steady tid) (shared m) True) (handed tid (shared m) a) o s
    | Stop e s => dies tid p (shared m) e s end) (shared m) ->
  wp c (at_wait tid a) (shared m) ->
  wp (let! o := c in ret (after_action a o)) turn_post (shared m).
Proof.
  intros Ha Hsafe Hpost Hpend. rewrite wp_bind.
  eapply wp_mono; [|apply wp_and; [exact Hsafe|apply wp_and; [exact Hpost|exact Hpend]]].
  intros [[v|pt] s|e s] (H1 & H2 & H3); simpl in *.
  - destruct H2 as (E & Hact & Hr). unfold wp; simpl. split; [by eapply steady_passed|]. split; [done|].
    split; [|done]. destruct (Hr I) as (t & Ht & Hst). split; [exists t; by rewrite Hact|by left].
  - destruct H2 as (E & [Hr Hsc] & Hl & Hd). unfold wp; simpl. pose proof (steady_passed _ _ _ Hm E) as P.
    split; [done|]. split; [done|]. split; [split; [done|by right]|]. intros x [= <-]. destruct H3 as (t & Ht & Hp). exists t.
    split; [done|]. simpl. destruct pt; [right|right|right|left].
    1-3: split; [try done; by destruct Hl as [|[|]]|]; split; [by eapply allowed_passed|done].
    destruct (Hd eq_refl) as (u & Hu & Hc). rewrite Ht in Hu. by injection Hu as <-.
  - destruct H1 as [Hb Hw]. split; [done|]. intros He. split; [by apply Hw|]. by apply H2.
Qed.

Lemma issue_safe a y : allowed (shared m) tid a -> wp (issue_action a y) turn_post (shared m).
Proof.
  intros Ha. destruct (minv_self _ _ Hm) as (t & Ht & _ & _ & Hrun). apply outcome_turn; [done| | |].
  - eapply (action_wf (B0 := B + 1)); [apply Hm|exact HB|exact Hrun|by apply allowed_ok|done].
  - apply (steady_action tid p (shared m) turn_ids turn_self (mi_terminating _ _ Hm));
      [apply Ha|by apply turn_may_finish|exact turn_start].
  - apply action_pends; [done|by exists t].
Qed.

Lemma resume_turn pt a : waits m !! tid = Some (Waits pt a) -> wp (resume_action pt a) turn_post (shared m).
Proof.
  intros Hw. destruct (minv_self _ _ Hm) as (t & Ht & _ & Hst & Hrun).
  destruct (mi_waits _ _ Hm _ _ Hw) as (u & Hu & Hok). fold tid in Ht. rewrite Ht in Hu. injection Hu as <-.
  destruct Hok as [Hc|(Hr & Ha & Hp)]; [by rewrite (running_not_completed _ Hst) in Hc|].
  apply outcome_turn; [done| | |].
  - eapply (resume_wf (B0 := B + 1)); [|exact Hr|done].
    constructor; [apply Hm|exact HB|exact Hrun|by exists a|by apply allowed_ok].
  - apply (steady_resume tid p (shared m) turn_ids turn_self (mi_terminating _ _ Hm));
      [apply Ha|by apply turn_may_finish|by intros ->|exact turn_start].
  - apply resume_pends; [by intros ->|by exists t].
Qed.

(** The shutdown of the process, from a state of the turn. *)
Lemma end_process_safe : wp end_process turn_post (shared m).
Proof.
  unfold end_process. rewrite wp_bind.
  pose proof (closing_shutdown tid p (shared m) turn_ids turn_self (shared m) eq_refl (mi_active _ _ Hm)) as Hc.
  pose proof (process_shutdown_wf (B0 := B + 1) B (shared m) (mi_wf _ _ Hm) ltac:(lia) ltac:(unfold bound; lia)) as Hw.
  eapply wp_mono; [|apply wp_and; [exact Hw|exact Hc]].
  intros [[] s|e s] [H1 H2]; simpl in *.
  - destruct H2 as [E Ha]. unfold complete_process, self_pid. wp_step. wp_step. unfold wp at 1; simpl. unfold wp; simpl.
    unfold wp; simpl. split; [done|]. intros _. split; [|split; [destruct E; by constructor|exact Ha]].
    apply (wf_weaken B); [lia|]. pose proof H1 as [K1 [L1 L2 L3 L4 L5] K3 K4 K5 K6 _].
    constructor; try done. by apply (past_step B s); [..|apply same_pids].
  - destruct H1 as [Hb Hw']. split; [done|]. intros He. split; [by apply Hw'|]. by apply H2.
Qed.

Lemma user_done_safe t : lookupZ (threads (sched (shared m))) tid = Some t -> wp user_done turn_post (shared m).
Proof.
  intros Ht. unfold user_done. rewrite wp_bind.
  destruct (minv_self _ _ Hm) as (u & Hu & _ & Hst & Hrun). fold tid in Hu. rewrite Ht in Hu. injection Hu as <-.
  eapply (wp_mono _ (fun r => match r with
    | Val b s => if b : bool then exists n v, s = on_sched (with_active n) (shared m) /\ lookupZ (threads (sched (shared m))) n = Some v /\
        thr_state v = THREAD_RUNNING /\ scan_others tid is_running (threads (sched (shared m))) = Some n else s = shared m
    | Stop e s => e = Exit EXIT_FAILURE end)).
  - intros [[|] s|e s]; [| |by intros ->].
    + intros (n & v & -> & Hn & Hr & Hsc). unfold wp; simpl.
      assert (wf B (on_sched (with_active n) (shared m))) as Hw.
      { apply active_wf; [apply Hm|]. apply lookupZ_Some in Hn. exact Hn. }
      split; [|split; [apply (wf_weaken B); [lia|done]|split; [split; [by exists v|by right]|]]].
      * eapply steady_passed; [done|]. apply evolved_active, turn_start.
      * intros x [= <-]. exists t. by split.
    + intros ->. apply end_process_safe.
  - apply (yield_moves (fun b s => if b : bool then exists n v, s = on_sched (with_active n) (shared m) /\
      lookupZ (threads (sched (shared m))) n = Some v /\ thr_state v = THREAD_RUNNING /\
      scan_others tid is_running (threads (sched (shared m))) = Some n else s = shared m)); [apply Hm| | |done].
    + apply Hm.
    + intros n v Hsc Hn Hr. exists n, v. do 3 (split; [done|]). by rewrite (mi_active _ _ Hm) in Hsc.
Qed.

(** ** The program's own code *)

(** It changes the memory, the heap of mutexes and conditions, and flags. *)
Record own_step (s s' : St) : Prop := mkOwnStep {
  os_sched : sched s' = sched s;
  os_process : process_id (proc s') = process_id (proc s) /\ thread_id (proc s') = thread_id (proc s);
  os_model : obj_to_wr (mdl s') = obj_to_wr (mdl s);
  os_mutexes : mutexes s ⊆ mutexes s';
  os_heap : heap_ok s';
  os_keys : same_keys s s';
  os_wf : wf B s'
}.

Lemma own_step_post s w : own_step (shared m) s -> w = None -> turn_post (Val w s).
Proof.
  intros [O1 [O2 O2'] O3 O4 O5 O5' O6] ->. split; [|split; [apply (wf_weaken B); [lia|done]|split; [|done]]].
  - constructor; rewrite ?O1, ?O3; try done; [intros i t Ht; exists t; auto 10 using untouched_refl|by intros i t ->|apply Hm| |by intros x].
    intros x [mx Hx]. exists mx. by eapply lookup_weaken.
  - split; [unfold active_runs; rewrite O1; apply Hm|left; rewrite O1; apply Hm].
Qed.

Lemma new_mutex_step type k :
  let s := shared m in
  own_step s (on_mdl (fun md => match mutex_map md !! k with
                                | Some _ => md
                                | None => with_mutex_map (<[k := next_obj s]> (mutex_map md)) md
                                end)
    (mkSt (sched s) (mdl s) (<[next_obj s := Mutex_new type]> (mutexes s)) (conds s) (next_obj s + 1) (memory s) (proc s))).
Proof.
  cbn zeta. pose proof (mi_wf _ _ Hm) as Hs. destruct (mi_heap _ _ Hm) as [H1 H2]. set (s := shared m) in *.
  assert (mutexes s !! next_obj s = None) as Hn.
  { apply eq_None_not_Some. intros Hx%H1. lia. }
  assert (forall x, is_Some (mutexes s !! x) -> is_Some (<[next_obj s:=Mutex_new type]> (mutexes s) !! x)) as Hgrow.
  { intros x Hx. destruct (decide (next_obj s = x)) as [<-|]; [rewrite lookup_insert_eq; by eexists|by rewrite lookup_insert_ne]. }
  set (f := fun md => match mutex_map md !! k with Some _ => md | None => _ end).
  assert (f (mdl s) = mdl s \/ f (mdl s) = with_mutex_map (<[k := next_obj s]> (mutex_map (mdl s))) (mdl s)) as Hf
    by (unfold f; case_match; auto).
  constructor; try done; simpl.
  - by destruct Hf as [-> | ->].
  - by apply insert_subseteq.
  - split; simpl.
    + intros x [y Hx]. destruct (decide (next_obj s = x)) as [<-|]; [lia|]. rewrite lookup_insert_ne in Hx by done.
      assert (x < next_obj s) by (apply H1; by exists y). lia.
    + intros k' x Hx. destruct Hf as [Hf|Hf]; rewrite Hf in Hx; [by apply Hgrow, (H2 k')|]. simpl in Hx.
      destruct (decide (k = k')) as [<-|]; [|rewrite lookup_insert_ne in Hx by done; by apply Hgrow, (H2 k')].
      rewrite lookup_insert_eq in Hx. injection Hx as <-. rewrite lookup_insert_eq. by eexists.
  - destruct Hf as [Hf|Hf]; split; simpl; rewrite Hf; try done. simpl. intros k' Hk.
    destruct (decide (k = k')) as [<-|]; [rewrite lookup_insert_eq; by eexists|by rewrite lookup_insert_ne].
  - pose proof Hs as [W1 W2 W3 [W4 W4'] W5 W6 _]. constructor; try done; simpl.
    + destruct Hf as [-> | ->]; [done|]. destruct W2. by constructor.
    + by destruct Hf as [-> | ->].
    + constructor.
      * intros x mx o Hx Ho. destruct (decide (next_obj s = x)) as [<-|]; [rewrite lookup_insert_eq in Hx; by injection Hx as <-|].
        rewrite lookup_insert_ne in Hx by done. by eapply W4.
      * intros i t x Ht Hc Hx. destruct (W4' i t x Ht Hc Hx) as (mx & Hmx & Ho). exists mx. split; [|done].
        rewrite lookup_insert_ne; [done|]. intros <-. congruence.
    + unfold clock in *. simpl. by destruct Hf as [-> | ->].
    + by apply (past_step B s); [..|apply same_pids]; destruct Hf as [Hf|Hf]; simpl; rewrite ?Hf.
Qed.

Lemma mutex_init_step q type : wp (mutex_init q type) (fun r => match r with
  | Val _ s => own_step (shared m) s /\ is_Some (mutex_map (mdl s) !! make_ext_ptr q (shared m))
  | Stop _ _ => False end) (shared m).
Proof.
  unfold mutex_init, new_mutex, emplace_mutex, wp. simpl. split; [apply new_mutex_step|].
  destruct (mutex_map (mdl (shared m)) !! make_ext_ptr q (shared m)) eqn:Ek; simpl; [rewrite Ek; by eexists|].
  rewrite lookup_insert_eq. by eexists.
Qed.

Lemma refl_step : own_step (shared m) (shared m).
Proof. constructor; try done; apply Hm. Qed.

Lemma mutex_at_step q : wp (mutex_at q) (fun r => match r with Val _ s => own_step (shared m) s | Stop _ _ => False end) (shared m).
Proof.
  unfold mutex_at, find_mutex. wp_step. unfold wp at 1; simpl. wp_step. unfold wp at 1; simpl.
  destruct (mutex_map _ !! _) as [x|] eqn:Ex; [apply refl_step|]. wp_step.
  eapply wp_mono; [|apply mutex_init_step]. intros [v s|e s]; [|done]. intros [Hs [x Hx]].
  wp_step. unfold wp at 1; simpl. rewrite Hx. exact Hs.
Qed.

Lemma cond_init_step q : wp (cond_init q) (fun r => match r with
  | Val _ s => own_step (shared m) s /\ is_Some (cond_map (mdl s) !! make_ext_ptr q (shared m))
  | Stop _ _ => False end) (shared m).
Proof.
  unfold cond_init, new_cond, emplace_cond, wp. simpl.
  change (make_ext_ptr q (mkSt (sched (shared m)) (mdl (shared m)) (mutexes (shared m))
    ({[next_obj (shared m)]} ∪ conds (shared m)) (next_obj (shared m) + 1) (memory (shared m)) (proc (shared m))))
    with (make_ext_ptr q (shared m)).
  pose proof (mi_wf _ _ Hm) as Hs. destruct (mi_heap _ _ Hm) as [H1 H2]. set (s := shared m) in *.
  set (f := fun md => match cond_map md !! _ with Some _ => md | None => _ end).
  assert (f (mdl s) = mdl s \/ exists c, f (mdl s) = with_cond_map c (mdl s)) as Hf
    by (unfold f; case_match; eauto).
  split.
  - constructor; try done; simpl.
    + by destruct Hf as [->|[c ->]].
    + split; simpl; [intros x Hx%H1; lia|]. intros k x Hx. destruct Hf as [Hf|[c Hf]]; rewrite Hf in Hx; by eapply H2.
    + destruct Hf as [Hf|[c Hf]]; split; simpl; by rewrite Hf.
    + pose proof Hs as [W1 W2 W3 W4 W5 W6 _]. constructor; try done; simpl.
      * destruct Hf as [->|[c ->]]; [done|]. destruct W2. by constructor.
      * by destruct Hf as [->|[c ->]].
      * unfold clock in *. simpl. by destruct Hf as [->|[c ->]].
      * by apply (past_step B s); [..|apply same_pids]; destruct Hf as [Hf|[c Hf]]; simpl; rewrite ?Hf.
  - unfold f. destruct (cond_map (mdl s) !! make_ext_ptr q s) eqn:Ek; simpl; [rewrite Ek; by eexists|].
    rewrite lookup_insert_eq. by eexists.
Qed.

Lemma cond_at_step q : wp (cond_at q) (fun r => match r with Val _ s => own_step (shared m) s | Stop _ _ => False end) (shared m).
Proof.
  unfold cond_at, find_cond. wp_step. unfold wp at 1; simpl. wp_step. unfold wp at 1; simpl.
  destruct (cond_map _ !! _) as [x|] eqn:Ex; [apply refl_step|]. wp_step.
  eapply wp_mono; [|apply cond_init_step]. intros [v s|e s]; [|done]. intros [Hs [x Hx]].
  wp_step. unfold wp at 1; simpl. rewrite Hx. exact Hs.
Qed.

(** What it does: such a step, or it sets the result of its thread. *)
Lemma own_steps X (c : M St X) : own_code (shared m) c -> wp c (fun r => match r with
  | Val _ s => own_step (shared m) s \/ exists r, s = on_thread tid (set_ret_val r) (shared m)
  | Stop _ _ => False end) (shared m).
Proof.
  intros Hc.
  assert (forall Y (c : M St Y), wp c (fun r => match r with Val _ s => own_step (shared m) s | Stop _ _ => False end) (shared m) ->
    wp c (fun r => match r with Val _ s => own_step (shared m) s \/ exists r, s = on_thread tid (set_ret_val r) (shared m)
      | Stop _ _ => False end) (shared m)) as Hown.
  { intros Y d Hd. eapply wp_mono; [|exact Hd]. intros [v s|e s]; [|done]. by left. }
  pose proof (mi_wf _ _ Hm) as Hs. pose proof (mi_heap _ _ Hm) as Hh.
  destruct Hc as [X c x Hc| | | | | | | |].
  - apply Hown. unfold wp. rewrite Hc. apply refl_step.
  - apply Hown. unfold raw_store, wp. simpl. constructor; try done. pose proof Hs as [W1 W2 W3 W4 W5 W6 _].
    constructor; try done. by apply (past_step B (shared m)); [..|apply same_pids].
  - apply Hown. apply mutex_at_step.
  - apply Hown. eapply wp_mono; [|apply mutex_init_step]. intros [v s|e s]; tauto.
  - apply Hown. apply cond_at_step.
  - apply Hown. eapply wp_mono; [|apply cond_init_step]. intros [v s|e s]; tauto.
  - unfold self_tid, upd_thread, wp. simpl. right. by eexists.
  - apply Hown. unfold cxlmc_no_backtrack_begin, wp. simpl. constructor; try done. by apply on_proc_wf.
  - apply Hown. unfold cxlmc_no_backtrack_end, wp. simpl. constructor; try done. by apply on_proc_wf.
Qed.
Lemma own_safe X (c : M St X) : own_code (shared m) c -> wp (run_own c) turn_post (shared m).
Proof.
  intros Hc. unfold run_own. rewrite wp_bind. eapply wp_mono; [|by apply own_steps].
  intros [v s|e s]; [|done]. intros [Hs|[r ->]]; [by apply own_step_post|].
  pose proof (mi_wf _ _ Hm) as Hs. destruct (minv_self _ _ Hm) as (t & Ht & _ & Hst & _). fold tid in Ht.
  set (s := on_thread _ _ _).
  assert (in_turn tid (steady tid) (shared m) True s) as Hi.
  { apply (fr_thread _ _ _ (turn_frame tid p (steady tid) (shared m) True turn_ids turn_self)); [by intros ?|exact turn_start]. }
  destruct Hi as (E & Ha & Hr). split; [by eapply steady_passed|]. split; [|split; [|done]].
  - apply (wf_weaken B); [lia|]. apply (upd_mild_wf B (shared m) _ t); [exact Hs|exact Ht|]. unfold mild. simpl. auto.
  - destruct (Hr I) as (u & Hu & Hru). split; [exists u; by rewrite Ha|by left].
Qed.

Lemma turn_ends c : turn m c -> wp c turn_post (shared m).
Proof.
  destruct 1 as [a y Hw Ha|pt a Hw|X c Hw Hc|t Hw Ht Hmain|Hw].
  - by apply issue_safe.
  - by apply resume_turn.
  - by apply own_safe.
  - by eapply user_done_safe.
  - apply end_process_safe.
Qed.

(** The exit handler of a process that has ended. *)
Definition exit_post (s : St) (r : result St bool) : Prop :=
  match r with
  | Val b s' => passed tid (shared m) s' /\ wf (B + 1) s' /\
      (exists t, lookupZ (threads (sched s')) tid = Some t /\ thread_is_completed t = true) /\
      (if b : bool then hands_over tid s'
       else forall j t, lookupZ (threads (sched s')) j = Some t -> thread_is_completed t = true)
  | Stop e s' => e = Exit EXIT_FAILURE
  end.

Lemma exit_safe s : wf (B + 1) s -> evolved (closed p) (shared m) s -> active_thread (sched s) = tid ->
  wp finalize (exit_post s) s.
Proof.
  intros Hs E Ha. destruct (minv_self _ _ Hm) as (t0 & Ht0 & Hp0 & _). fold tid in Ht0.
  destruct (ev_old _ _ _ _ _ E Ht0) as (t & Ht & Hp & Hmn & _ & Hc). specialize (Hc Hp0).
  pose proof (ev_process _ _ _ E) as [Hi1 Hi2].
  assert (thread_id (proc s) = tid) as Hi by (by rewrite Hi2).
  apply (finalize_moves (fun b s' => exit_post s (Val b s')) s t); rewrite ?Hi; try done.
  - rewrite (ev_terminating _ _ _ E). apply Hm.
  - unfold ended. rewrite Hc. intros n u Hsc Hu Hr. split; [|split; [|split]].
    + eapply closed_passed; [done|]. by apply evolved_active.
    + apply active_wf; [done|]. apply lookupZ_Some in Hu. exact Hu.
    + by exists t.
    + split; [by exists u|by right].
  - unfold ended. rewrite Hc. intros Hall. split; [by eapply closed_passed|]. split; [done|]. split; [by exists t|].
    intros j u Hu. destruct (decide (j = tid)) as [->|Hj]; [|by eapply Hall].
    rewrite Ht in Hu. by injection Hu as <-.
Qed.
End Safe.

(** ** The invariant of the machine *)
Section Reach.
Context `{Rand}.

(** What a step of the machine does to the threads. *)
Lemma mstep_turn B m m' : minv B m -> B < 2 ^ 32 - 2 -> mstep m m' ->
  minv (B + 1) m' /\ passed (current m) (shared m) (shared m') /\ hands_over (current m) (shared m').
Proof.
  intros Hm HB Hs.
  assert (exists s w, m' = dispatch (mkMachine s (globals m) (set_wait (current m) w (waits m))) /\
    passed (current m) (shared m) s /\ wf (B + 1) s /\ hands_over (current m) s /\
    (forall x, w = Some x -> exists t, lookupZ (threads (sched s)) (current m) = Some t /\ wait_ok s (current m) t x))
    as (s & w & -> & P & Hw & Hh & Hx).
  { destruct Hs as [c w s Hc Hin|c s s' Hc Hin Hin'];
      pose proof (turn_ends B m Hm HB c Hc) as Ht; apply all_leaves_elem in Ht; rewrite Forall_forall in Ht.
    - exists s, w. split; [done|]. apply (Ht _ Hin).
    - destruct (Ht _ Hin) as [_ He]. destruct (He eq_refl) as (Hw & E & Ha).
      pose proof (exit_safe B m Hm s Hw E Ha) as Hf. apply all_leaves_elem in Hf. rewrite Forall_forall in Hf.
      destruct (Hf _ Hin') as (P & Hw' & (t & Ht' & Hct) & Hr). exists s', (Some Gone). do 4 (split; [done|]).
      intros x [= <-]. by exists t. }
  pose proof (dispatch_inv B (B + 1) m s w Hm P Hw (proj1 Hh) Hx) as Hi. split; [exact Hi|].
  destruct (dispatch_shared s (globals m) (set_wait (current m) w (waits m))) as [f ->].
  split; [|exact Hh]. destruct P. by constructor.
Qed.

Lemma launch_wf im pc : 0 < pc -> past (launch im (initial pc 0 RANDOM_SEED)) -> wf 0 (launch im (initial pc 0 RANDOM_SEED)).
Proof.
  intros Hpc Hpast. apply (wf_recall (P := no_past)); [|done].
  pose proof (wf_initial pc 0 RANDOM_SEED ltac:(lia)) as [W1 W2 W3 W4 W5 W6 _]. constructor; try done. by destruct W2.
Qed.
Lemma machine_init_inv im pc : 0 < pc -> past (launch im (initial pc 0 RANDOM_SEED)) -> minv 0 (machine_init im pc).
Proof.
  intros Hpc Hpast. constructor; simpl; try done.
  - by apply launch_wf.
  - exists (Thread_main 0). split; [by apply main_thread|done].
  - intros p Hp. exists (Process_init p (RANDOM_SEED + p)). split; [|done].
    apply elem_of_list_to_map_1; [|apply list_elem_of_fmap; exists p; split; [done|apply elem_of_seqZ; lia]].
    rewrite <- list_fmap_compose. change (NoDup (id <$> seqZ 0 pc)). rewrite list_fmap_id. apply NoDup_seqZ.
  - intros i t [Hi ->]%main_thread_inv. simpl. exists (Thread_main i). split; [by apply main_thread|done].
  - split; [intros x [y Hx]|intros k x Hx]; simpl in Hx; by rewrite lookup_empty in Hx.
Qed.

Lemma reachable_minv pc n m : 0 < pc -> (forall im, past (launch im (initial pc 0 RANDOM_SEED))) -> reachable pc n m -> Z.of_nat n < 2 ^ 32 - 2 -> minv (Z.of_nat n) m.
Proof.
  intros Hpc Hpast. induction 1 as [im|n m m' Hr IH Hs]; intros Hn; [by apply machine_init_inv|].
  rewrite Nat2Z.inj_succ, <- Z.add_1_r. eapply mstep_turn; [apply IH; lia|lia|done].
Qed.
End Reach.
End Invariant.

(** A turn in a reachable state. *)
Lemma turn_safe `{Rand} pc n m c : 0 < pc -> reachable pc n m -> Z.of_nat n < 2 ^ 32 - 2 -> turn m c ->
  wp c (fun r => match r with
    | Val _ _ => True
    | Stop e s => benign e /\ (e = Exit EXIT_SUCCESS ->
        wp finalize (fun r => match r with Val _ _ => True | Stop e _ => e = Exit EXIT_FAILURE end) s)
    end) (shared m).
Proof.
  intros Hpc Hr Hn Ht. pose proof (reachable_minv pc n m Hpc (fun _ => I) Hr Hn) as Hm.
  eapply wp_mono; [|by apply (turn_ends (Z.of_nat n) m Hm Hn)]. intros [w s|e s]; [done|]. intros [Hb He].
  split; [done|]. intros Hx. destruct (He Hx) as (Hw & E & Ha).
  eapply wp_mono; [|by apply (exit_safe (Z.of_nat n) m Hm)]. by intros [b s'|e' s'].
Qed.

(** ** Properties *)

(** C11: Every interleaving keeps the invariant: whatever [allowed] actions the
    threads of all processes issue (aligned accesses, existing mutexes,
    no timed wait or atomic initialisation, joins in their own process, a known word for
    the number of a new thread, no [pthread_exit] by a main thread), whatever the
    program's own code does in between, and whichever decisions the model takes,
    after [n] turns the shared objects are well formed, the active thread can run
    in its own process, every waiting thread has its action pending at a point
    where it can be resumed, and every main thread outlives the threads of its
    process. *)
Theorem reachable_invariant `{Rand} pc n m : 0 < pc -> reachable pc n m -> Z.of_nat n < 2 ^ 32 - 2 ->
  minv (Z.of_nat n) m.
Proof. intros Hpc. by apply reachable_minv. Qed.

Definition blank : Image := mkImage ∅ 0.
(** Turns that leave one possible state. *)
Definition demo_turn (m : Machine) (c : M St (option activity)) : option Machine :=
  match leaves (c (shared m)) with
  | [Val w s] => Some (dispatch (mkMachine s (globals m) (set_wait (current m) w (waits m))))
  | _ => None
  end.
Lemma demo_turn_leaf m c m' : demo_turn m c = Some m' -> exists w s,
  Val w s ∈ leaves (c (shared m)) /\ m' = dispatch (mkMachine s (globals m) (set_wait (current m) w (waits m))).
Proof.
  unfold demo_turn. destruct (leaves _) as [|[w s|e s] [|r l]]; try done. intros [= <-]. exists w, s. split; [left|done].
Qed.

Definition demo_act (tid : Z) (ty : action_type) (loc val : Z) : ModelAction :=
  ModelAction_new tid ty loc val memory_order_seq_cst 1 "demo".
Fixpoint demo_play (m : Machine) (cs : list (M St (option activity))) : option Machine :=
  match cs with [] => Some m | c :: cs => m ← demo_turn m c; demo_play m cs end.
(** After [i] of the turns [cs], from the start of two processes. *)
Definition played (cs : list (M St (option activity))) (i : nat) : Machine :=
  default (machine_init blank 2) (demo_play (machine_init blank 2) (take i cs)).
Lemma played_step cs i c : turn (H := counter_rand) (played cs i) c -> demo_turn (played cs i) c = Some (played cs (S i)) ->
  mstep (H := counter_rand) (played cs i) (played cs (S i)).
Proof. intros Hc (w & s & Hin & ->)%demo_turn_leaf. by eapply step_turn. Qed.
Lemma demo_mutex_allowed s tid ty : ty = ATOMIC_LOCK \/ ty = ATOMIC_TRYLOCK \/ ty = ATOMIC_UNLOCK \/ ty = THREAD_YIELD ->
  is_Some (mutexes s !! 1) -> allowed s tid (demo_act tid ty 1 0).
Proof.
  intros Hty Hm. constructor; try (by destruct_or! Hty; subst).
  - destruct_or! Hty; subst; by intros m [= <-].
  - destruct_or! Hty; subst; by intros [?|?].
Qed.
Lemma played_issue cs i tid ty y : waits (played cs i) !! current (played cs i) = None -> current (played cs i) = tid ->
  ty = ATOMIC_LOCK \/ ty = ATOMIC_TRYLOCK \/ ty = ATOMIC_UNLOCK \/ ty = THREAD_YIELD ->
  is_Some (mutexes (shared (played cs i)) !! 1) ->
  demo_turn (played cs i) (issue_action (H := counter_rand) (demo_act tid ty 1 0) y) = Some (played cs (S i)) ->
  mstep (H := counter_rand) (played cs i) (played cs (S i)).
Proof.
  intros Hw Hc Hty Hm Hd. eapply played_step; [|exact Hd]. apply turn_issue; [exact Hw|]. rewrite Hc. by apply demo_mutex_allowed.
Qed.

(** Process 0 locks the mutex 1 and yields; process 1 locks it and sleeps. *)
Definition demo_contend : list (M St (option activity)) := [
  run_own (mutex_init 64 None);
  issue_action (H := counter_rand) (demo_act 0 ATOMIC_LOCK 1 0) false;
  issue_action (H := counter_rand) (demo_act 0 THREAD_YIELD 1 0) true;
  issue_action (H := counter_rand) (demo_act 1 ATOMIC_LOCK 1 0) false].
Lemma demo_contend_reachable : reachable (H := counter_rand) 2 4 (played demo_contend 4).
Proof.
  eapply reach_step; [eapply reach_step; [eapply reach_step; [eapply reach_step; [apply (reach_init 2 blank)|]|]|]|].
  - apply (played_step demo_contend 0 (run_own (mutex_init 64 None))); [apply turn_own; [by vm_compute|apply (own_mutex_init _ 64 None)]|by vm_compute].
  - apply (played_issue demo_contend 1 0 ATOMIC_LOCK false); [by vm_compute|by vm_compute|auto|vm_compute; by eexists|by vm_compute].
  - apply (played_issue demo_contend 2 0 THREAD_YIELD true); [by vm_compute|by vm_compute|auto|vm_compute; by eexists|by vm_compute].
  - apply (played_issue demo_contend 3 1 ATOMIC_LOCK false); [by vm_compute|by vm_compute|auto|vm_compute; by eexists|by vm_compute].
Qed.
(** The sleeping thread has its action pending. *)
Lemma reachable_invariant_witness : minv 4 (played demo_contend 4) /\ current (played demo_contend 4) = 0 /\
  exists t, lookupZ (threads (sched (shared (played demo_contend 4)))) 1 = Some t /\ thr_state t = THREAD_BLOCKED /\
    pending t = Some (demo_act 1 ATOMIC_LOCK 1 0).
Proof.
  pose proof (reachable_invariant (H := counter_rand) 2 4 (played demo_contend 4) ltac:(lia) demo_contend_reachable ltac:(lia)) as Hm.
  split; [exact Hm|]. split; [reflexivity|].
  destruct (mi_waits _ _ Hm 1 (Waits PLock (demo_act 1 ATOMIC_LOCK 1 0))) as (t & Ht & Hok); [reflexivity|].
  exists t. split; [exact Ht|]. vm_compute in Ht. injection Ht as <-. split; reflexivity.
Defined.

(** C10: No interleaving fails: in every state that the machine reaches by turns
    whose actions are [allowed] (aligned accesses, existing mutexes, no timed wait
    or atomic initialisation, joins in the own process, a known word for the
    number of a new thread, no [pthread_exit] by a main thread), each further such
    turn of the running thread ends without a failed assertion, an invalid pointer
    or a loop that runs on; if its process ends, by a crash or by returning from
    [main], the exit handler hands over or reports a deadlock. *)
Theorem reachable_safe `{Rand} pc n m c : 0 < pc -> reachable pc n m -> Z.of_nat n < 2 ^ 32 - 2 -> turn m c ->
  wp c (fun r => match r with
    | Val _ _ => True
    | Stop e s => benign e /\ (e = Exit EXIT_SUCCESS ->
        wp finalize (fun r => match r with Val _ _ => True | Stop e _ => e = Exit EXIT_FAILURE end) s)
    end) (shared m).
Proof. intros Hpc Hr Hn. by apply (turn_safe pc n). Qed.

(** Process 0 yields at the start, and process 1 runs. *)
Definition demo_yield : ModelAction := ModelAction_thread 0 THREAD_YIELD.
Lemma demo_yield_allowed : allowed (shared (machine_init blank 2)) 0 demo_yield.
Proof. constructor; try done. by intros [?|?]. Qed.

(** After the turns of [demo_contend] process 0 is resumed in its yield. *)
Lemma reachable_safe_witness :
  wp (resume_action (H := counter_rand) PExec (demo_act 0 THREAD_YIELD 1 0)) (fun r => match r with
    | Val _ _ => True
    | Stop e s => benign e /\ (e = Exit EXIT_SUCCESS ->
        wp finalize (fun r => match r with Val _ _ => True | Stop e _ => e = Exit EXIT_FAILURE end) s)
    end) (shared (played demo_contend 4)).
Proof.
  apply (reachable_safe (H := counter_rand) 2 4); [lia|exact demo_contend_reachable|lia|].
  apply turn_resume. reflexivity.
Defined.

Example machine_switches : exists m, reachable (H := counter_rand) 2 1 m /\ current m = 1 /\
  waits m !! 0 = Some (Waits PExec demo_yield).
Proof.
  eexists. split; [|split].
  - eapply reach_step; [constructor|]. eapply (step_turn _ (issue_action (H := counter_rand) demo_yield true)).
    + apply turn_issue; [reflexivity|apply demo_yield_allowed].
    + vm_compute. left.
  - vm_compute. reflexivity.
  - vm_compute. reflexivity.
Qed.
