(* ===== verification/Waiting.v ===== *)
(** * Waiting: a thread that waits sleeps until it is woken

    A thread that waits for a mutex, a condition variable or the end of another
    thread has the state [THREAD_BLOCKED].  This file shows that it gets no turn
    and stays so through the turns of all other threads and processes, except
    that a turn carries out an action that wakes the waiters of its object
    ([woken_by]), that its own process ends, or that a process crashes while one
    of its threads owns the mutex. *)
From S2P Require Import Prelude Choice Action ReadFrom CacheLine ThreadMemory State Scheduler ModelCore Executor Wf ModelSafe Safety Frame Evolve Program Pthread Machine.

(** [t] waits for [v], or has ended. *)
Definition resting (v : object) (t : Thread) : Prop := waiting_on t = Some v \/ thread_is_completed t = true.
Definition rests (j : Z) (v : object) (s : St) : Prop :=
  exists t, lookupZ (threads (sched s)) j = Some t /\ resting v t.
(** [v] is a mutex that a thread of the running process owns. *)
Definition orphaned (v : object) (s : St) : Prop :=
  exists m i u, v = OMutex m /\ lookupZ (threads (sched s)) i = Some u /\ thr_pid u = process_id (proc s) /\
    m ∈ owned_mutexes u.

Lemma waiting_same t t' : pending t' = pending t -> thr_state t' = thr_state t -> waiting_on t' = waiting_on t.
Proof. unfold waiting_on. by intros -> ->. Qed.
Lemma resting_same v t t' : pending t' = pending t -> thr_state t' = thr_state t -> resting v t -> resting v t'.
Proof. unfold resting, thread_is_completed. intros Hp Hs. by rewrite (waiting_same t t' Hp Hs), Hs. Qed.
(** A thread at rest is not woken for another object. *)
Lemma resting_other v w t : resting v t -> waiting_on t = Some w -> w = v.
Proof.
  intros [Hv|Hc] Hw; [congruence|]. apply waiting_blocked in Hw. unfold thread_is_completed in Hc. by rewrite Hw in Hc.
Qed.

(** The crash of a process wakes only the threads that wait for its mutexes. *)
Lemma crash_threads_rest pid v ids j : forall c t, lookupZ (threads c) j = Some t -> resting v t ->
  (exists t', lookupZ (threads (foldl (crash_thread pid) c ids)) j = Some t' /\ resting v t') \/
  (exists m i u, v = OMutex m /\ lookupZ (threads (foldl (crash_thread pid) c ids)) i = Some u /\ thr_pid u = pid /\
    m ∈ owned_mutexes u).
Proof.
  induction ids as [|i ids IH]; intros c t Ht Hr; simpl; [left; by exists t|].
  destruct (lookupZ (threads c) i) as [u|] eqn:Hu.
  2:{ eapply IH; [|exact Hr]. unfold crash_thread. by rewrite Hu. }
  pose proof (crash_thread_exact pid c i u j t Hu Ht) as He.
  destruct ((thr_pid u =? pid) && negb (thread_is_completed u)) eqn:Eb; [|by eapply IH].
  case_decide as Hij; [by eapply IH; [exact He|right]|].
  destruct (waits_on_any t (elements (owned_mutexes u))) eqn:Ew; [|by eapply IH].
  right. apply existsb_exists in Ew as (m & Hm%list_elem_of_In%elem_of_elements & Hw%bool_decide_eq_true).
  apply (resting_other v) in Hw as <-; [|done]. bools.
  destruct (crash_threads_lookup pid (i :: ids) c i u Hu) as (u' & Hu' & Hs & _).
  exists m, i, u'. do 2 (split; [done|]). rewrite (same_thread_pid _ _ Hs). split; [done|]. by rewrite Hs.
Qed.

(** ** The other threads' turns *)
Section Asleep.
Context `{Rand} (tid j : Z) (v : object).
Hypothesis Hj : j <> tid.

Definition asleep (s : St) : Prop := thread_id (proc s) = tid /\ rests j v s.
Definition departs (e : stop) (s : St) : Prop := e = Exit EXIT_SUCCESS -> asleep s \/ orphaned v s.

Lemma asleep_table f s :
  (forall t, lookupZ (threads (sched s)) j = Some t -> resting v t ->
     exists t', lookupZ (threads (f (sched s))) j = Some t' /\ resting v t') ->
  asleep s -> asleep (on_sched f s).
Proof. intros Hf [Hi (t & Ht & Hr)]. split; [exact Hi|]. by apply (Hf t). Qed.
Lemma asleep_update i f s : (forall t, i = j -> resting v t -> resting v (f t)) -> asleep s -> asleep (on_thread i f s).
Proof.
  intros Hf. apply asleep_table. simpl. intros t Ht Hr. rewrite lookupZ_update_at, Ht.
  case_decide as Hij; eexists; (split; [reflexivity|]); auto.
Qed.

Lemma asleep_frame : frame_on (fun w => w <> v) asleep departs.
Proof.
  apply make_frame; try done.
  - by intros e s He _ ?.
  - intros i f s Hq. apply asleep_update. intros t _. by apply resting_same; apply Hq.
  - intros w s Hw. apply asleep_table. intros t Ht Hr. rewrite wake_all_lookup, Ht. eexists. split; [reflexivity|].
    case_bool_decide as Hb; [|done]. by destruct Hw, (resting_other v w t).
  - intros i w s Hw. apply asleep_table. intros t Ht Hr. unfold wake_thread_waiting_on.
    destruct (scan_others i _ _) as [k|] eqn:Es; [|by exists t]. simpl. rewrite lookupZ_update_at, Ht.
    case_decide as Hk; eexists; (split; [reflexivity|]); [|done]. subst k.
    apply scan_Some in Es as (x & u & _ & _ & Hu & Hwt & _). rewrite Ht in Hu. injection Hu as <-.
    apply bool_decide_eq_true in Hwt. by destruct Hw, (resting_other v w t).
  - intros f s (_ & Hf & _) [Hi Hs]. split; [|exact Hs]. simpl. congruence.
  - intros s [Hi (t & Ht & Hr)] _.
    destruct (crash_threads_rest (process_id (proc s)) v (seqZ 0 (lenZ (threads (sched s)))) j _ t Ht Hr)
      as [(t' & H1 & H2)|Ho]; [left|by right]. split; [exact Hi|by exists t'].
Qed.
Let F := asleep_frame.

Lemma asleep_active n s : asleep s -> asleep (on_sched (fun _ => with_active n (sched s)) s).
Proof. done. Qed.
Lemma asleep_state i ts s : i = tid -> asleep s -> asleep (on_thread i (set_state ts) s).
Proof. intros -> . by apply asleep_update. Qed.
Lemma asleep_yield : keeps asleep departs yield.
Proof. apply (keeps_yield _ _ _ F), asleep_active. Qed.
Lemma asleep_finalize : keeps asleep departs finalize.
Proof. apply (keeps_finalize _ _ _ F (fun i => i = tid)); [apply asleep_active|apply asleep_state|by intros s []]. Qed.
Lemma asleep_wait : keeps asleep departs (thread_wait tid).
Proof. by apply (keeps_wait _ _ _ F (fun i => i = tid)); [apply asleep_active|apply asleep_state|]. Qed.

Lemma asleep_execute a : act_tid a = tid -> woken_by a <> Some v ->
  moves asleep departs (execute a) (progress_post asleep (fun _ => asleep)).
Proof.
  intros Ht Hw. apply (moves_execute _ _ _ F).
  - intros p _. rewrite Ht. apply moves_keeps; [apply asleep_wait|by intros [|]].
  - intros _. apply moves_keeps; [|by intros [|]].
    apply (keeps_thread_finalize _ _ _ F (fun i => i = tid)); [apply asleep_active|apply asleep_state|by intros s []].
  - intros _. apply (keeps_create _ _ _ F); [|done]. intros f arg s. apply asleep_table. simpl. intros t Hl Hr. exists t.
    split; [by apply lookupZ_app_l|done].
  - intros w Hwb ->. done.
Qed.
Lemma asleep_pending p s : asleep s -> asleep (on_thread (thread_id (proc s)) (set_pending p) s).
Proof. intros Hs. apply asleep_update; [|exact Hs]. intros t Hi. destruct Hs. congruence. Qed.

(** A whole action of another thread. *)
Definition outcome_rests (r : result St outcome) : Prop :=
  match r with Val _ s => asleep s | Stop e s => departs e s end.
Lemma outcome_rests_weaken r :
  match r with Val o s => outcome_post asleep (fun _ => asleep) o s | Stop e s => departs e s end -> outcome_rests r.
Proof. by destruct r as [[w|p] s|e s]. Qed.
Lemma asleep_action a y s : act_tid a = tid -> woken_by a <> Some v -> asleep s -> wp (action a y) outcome_rests s.
Proof.
  intros Ht Hw Hs. eapply wp_mono; [apply outcome_rests_weaken|].
  apply (moves_action _ _ _ F asleep_pending); [|intros a' _ H2 H3|exact Hs].
  - apply (moves_switch _ _ (fun _ => asleep) PExec asleep_yield). done.
  - apply asleep_execute; congruence.
Qed.
Lemma asleep_resume p a s : act_tid a = tid -> woken_by a <> Some v -> (p = PLock -> act_type a = ATOMIC_LOCK) ->
  asleep s -> wp (resume p a) outcome_rests s.
Proof.
  intros Ht Hw Hp Hs. eapply wp_mono; [apply outcome_rests_weaken|].
  apply (moves_resume _ _ _ F asleep_pending); [intros a' _ H2 H3|intros -> m|exact Hs].
  - apply asleep_execute; congruence.
  - apply (moves_lock_loop _ _ _ F); [|by apply Hp]. intros q _. rewrite Ht. apply moves_keeps; [apply asleep_wait|by intros [|]].
Qed.

(** The end of another process, or of the thread's own. *)
Lemma asleep_same s s' : sched s' = sched s -> thread_id (proc s') = thread_id (proc s) -> asleep s -> asleep s'.
Proof. intros H1 H2 [Hi Hr]. split; [congruence|]. unfold rests in *. by rewrite H1. Qed.
Lemma asleep_completed i s : asleep s -> asleep (on_thread i (set_state THREAD_COMPLETED) s).
Proof. apply asleep_update. intros t _ _. by right. Qed.
Lemma asleep_departs s : asleep s -> departs (Exit EXIT_SUCCESS) s.
Proof. by left. Qed.
Lemma asleep_end : keeps asleep departs end_process.
Proof. exact (frame_end _ _ _ F (fun s s' H1 H2 _ => asleep_same s s' H1 H2) asleep_completed asleep_departs). Qed.
Lemma asleep_done : keeps asleep departs user_done.
Proof. exact (frame_done _ _ _ F (fun s s' H1 H2 _ => asleep_same s s' H1 H2) asleep_completed asleep_departs asleep_yield). Qed.
Lemma asleep_own s X (c : M St X) : own_code s c -> asleep s ->
  wp c (fun r => match r with Val _ s' => asleep s' | Stop e s' => departs e s' end) s.
Proof. apply (frame_own _ _ _ F s X c asleep_same). Qed.
End Asleep.

(** ** The machine *)
Section Sleep.
Context `{Rand} (j : Z) (v : object).

(** A turn with the action that it carries out. *)
Inductive carries_out (m : Machine) : option ModelAction -> M St (option activity) -> Prop :=
| carry_issue a y : waits m !! current m = None -> allowed (shared m) (current m) a ->
    carries_out m (Some a) (issue_action a y)
| carry_resume p a : waits m !! current m = Some (Waits p a) -> carries_out m (Some a) (resume_action p a)
| carry_own X (c : M St X) : waits m !! current m = None -> own_code (shared m) c -> carries_out m None (run_own c)
| carry_return t : waits m !! current m = None ->
    lookupZ (threads (sched (shared m))) (current m) = Some t -> is_main t = true -> carries_out m None user_done
| carry_shutdown : waits m !! current m = Some Shutdown -> carries_out m None end_process.

Lemma turn_carries m c : turn m c <-> exists o, carries_out m o c.
Proof.
  split; [intros [a y H1 H2|p a H1|X d H1 H2|t H1 H2 H3|H1]|intros [o [a y H1 H2|p a H1|X d H1 H2|t H1 H2 H3|H1]]];
    try (eexists; by econstructor); by econstructor.
Qed.

(** It does not wake the waiters of [v]. *)
Definition wakes_others (o : option ModelAction) : Prop := forall a, o = Some a -> woken_by a <> Some v.

(** [k] turns lead from [m] to [m'], and none of them wakes the waiters of [v]. *)
Inductive undisturbed : nat -> Machine -> Machine -> Prop :=
| still_here m : undisturbed 0 m m
| still_turn o c w s k m m' : carries_out m o c -> wakes_others o ->
    Val w s ∈ leaves (c (shared m)) ->
    undisturbed k (dispatch (mkMachine s (globals m) (set_wait (current m) w (waits m)))) m' ->
    undisturbed (S k) m m'
| still_exit o c s s' k m m' : carries_out m o c -> wakes_others o ->
    Stop (Exit EXIT_SUCCESS) s ∈ leaves (c (shared m)) -> ~ orphaned v s -> Val true s' ∈ leaves (finalize s) ->
    undisturbed k (dispatch (mkMachine s' (globals m) (<[current m := Gone]> (waits m)))) m' ->
    undisturbed (S k) m m'.

Section Inv.
Context {PAST : Past} {OPS : PastOps}.
Lemma rests_not_current B m : minv B m -> rests j v (shared m) -> j <> current m.
Proof.
  intros Hm (t & Ht & Hr) ->. destruct (minv_self B m Hm) as (u & Hu & _ & Hru & _). rewrite Ht in Hu. injection Hu as <-.
  destruct Hr as [Hw|Hc]; [apply waiting_blocked in Hw; congruence|]. by rewrite (running_not_completed _ Hru) in Hc.
Qed.

Lemma turn_rests B m o c : minv B m -> rests j v (shared m) -> carries_out m o c -> wakes_others o ->
  wp c (fun r => match r with
    | Val _ s => asleep (current m) j v s
    | Stop e s => departs (current m) j v e s
    end) (shared m).
Proof.
  intros Hm Hr Hc Hw. pose proof (rests_not_current B m Hm Hr) as Hj.
  assert (asleep (current m) j v (shared m)) as Hs by done.
  assert (forall (a : ModelAction) x, wp x (outcome_rests (current m) j v) (shared m) ->
    wp (let! y := x in ret (after_action a y)) (fun r => match r with
      | Val _ s => asleep (current m) j v s
      | Stop e s => departs (current m) j v e s end) (shared m)) as Ho.
  { intros a x Hx. rewrite wp_bind. eapply wp_mono; [|exact Hx]. by intros [y s|e s]. }
  destruct Hc as [a y Hwt Ha|p a Hwt|X c Hwt Hc|t Hwt Ht Hmain|Hwt].
  - apply Ho, asleep_action; [done|apply Ha|by apply Hw|done].
  - destruct (mi_waits _ _ Hm _ _ Hwt) as (t & Ht & Hok). destruct (minv_self B m Hm) as (u & Hu & _ & Hru & _).
    rewrite Ht in Hu. injection Hu as <-.
    destruct Hok as [Hc|(Hp & Ha & _)]; [by rewrite (running_not_completed _ Hru) in Hc|].
    apply Ho, asleep_resume; [done|apply Ha|by apply Hw|by intros ->|done].
  - unfold run_own. rewrite wp_bind. eapply wp_mono; [|by eapply asleep_own]. by intros [x s|e s].
  - by apply asleep_done.
  - by apply asleep_end.
Qed.

Lemma dispatch_rests s gs ws : rests j v s -> rests j v (shared (dispatch (mkMachine s gs ws))).
Proof. intros Hs. by destruct (dispatch_shared s gs ws) as [f ->]. Qed.

Lemma undisturbed_rests k m m' : undisturbed k m m' -> forall B, minv B m -> B + Z.of_nat k < 2 ^ 32 - 2 ->
  rests j v (shared m) -> rests j v (shared m') /\ j <> current m'.
Proof.
  induction 1 as [m|o c w s k m m' Hc Hw Hin _ IH|o c s s' k m m' Hc Hw Hin Ho Hin' _ IH]; intros B Hm HB Hr.
  { split; [done|]. by eapply rests_not_current. }
  all: pose proof (wp_leaf _ _ _ _ (turn_rests B m o c Hm Hr Hc Hw) Hin) as Hs; cbn beta iota in Hs.
  all: assert (turn m c) as Ht by (apply turn_carries; by exists o).
  - apply (IH (B + 1)); [|lia|by apply dispatch_rests, Hs].
    by apply (mstep_turn B m _ Hm ltac:(lia)), (step_turn _ c).
  - destruct (Hs eq_refl) as [Ha|]; [|done]. pose proof (rests_not_current B m Hm Hr) as Hj.
    pose proof (wp_leaf _ _ _ _ (asleep_finalize (current m) j v Hj s Ha) Hin') as Hf.
    apply (IH (B + 1)); [|lia|apply dispatch_rests, Hf].
    by apply (mstep_turn B m _ Hm ltac:(lia)), (step_exit _ c s s').
Qed.
End Inv.
End Sleep.

(** ** Properties *)

(** C14: No spurious wake-up: a thread that waits for an object gets no turn and goes on
    waiting, or its process ends, as long as no turn of another thread carries
    out an action that wakes the waiters of the object and no process exits while
    its threads own it.  This holds for every program, every order of the turns
    and every decision of the model. *)
Theorem sleeps_until_woken `{Rand} pc n m j t v k m' : 0 < pc -> reachable pc n m -> Z.of_nat (n + k) < 2 ^ 32 - 2 ->
  lookupZ (threads (sched (shared m))) j = Some t -> waiting_on t = Some v -> undisturbed v k m m' ->
  current m' <> j /\
  exists t', lookupZ (threads (sched (shared m'))) j = Some t' /\ (waiting_on t' = Some v \/ thread_is_completed t' = true).
Proof.
  intros Hpc Hreach Hn Ht Hw Hk. pose proof (reachable_minv (PAST := no_past) pc n m Hpc (fun _ => I) Hreach ltac:(lia)) as Hm.
  destruct (undisturbed_rests j v k m m' Hk _ Hm ltac:(lia)) as [Hr Hj]; [exists t; by split; [|left]|]. by split.
Qed.

(** Process 0 waits for the condition variable 2 with the mutex 1; then process 1
    yields. *)
Definition demo_script : list (M St (option activity)) := [
  run_own (mutex_init 64 None); run_own (cond_init 128);
  issue_action (H := counter_rand) (demo_act 0 ATOMIC_LOCK 1 0) false;
  issue_action (H := counter_rand) (demo_act 0 ATOMIC_WAIT 2 1) false].
Definition demo_yielding : M St (option activity) := issue_action (H := counter_rand) (demo_act 1 THREAD_YIELD 0 0) false.
Definition demo_at (i : nat) : Machine := played demo_script i.
Definition demo_later : Machine := default (machine_init blank 2) (demo_turn (demo_at 4) demo_yielding).

Lemma demo_next n i c : reachable (H := counter_rand) 2 n (demo_at i) -> turn (H := counter_rand) (demo_at i) c ->
  demo_turn (demo_at i) c = Some (demo_at (S i)) -> reachable (H := counter_rand) 2 (S n) (demo_at (S i)).
Proof. intros Hr Hc Hd. eapply reach_step; [exact Hr|]. by eapply played_step. Qed.
Lemma demo_act_allowed s tid ty loc val : ty = ATOMIC_LOCK \/ ty = ATOMIC_WAIT \/ ty = THREAD_YIELD ->
  is_Some (mutexes s !! 1) -> get_mutex (demo_act tid ty loc val) = inr 1 \/ ty = THREAD_YIELD -> allowed s tid (demo_act tid ty loc val).
Proof.
  intros Hty Hm H1. constructor; try (by destruct Hty as [->|[-> | ->]]).
  - intros m Hg. destruct H1 as [H1| ->]; [|done]. rewrite H1 in Hg. by injection Hg as <-.
  - destruct Hty as [->|[-> | ->]]; by intros [?|?].
Qed.
Lemma demo_reachable : reachable (H := counter_rand) 2 4 (demo_at 4).
Proof.
  assert (reachable (H := counter_rand) 2 0 (demo_at 0)) as H0 by apply reach_init.
  eapply demo_next in H0; [|apply turn_own; [|apply (own_mutex_init _ 64 None)]; by vm_compute|by vm_compute].
  eapply demo_next in H0; [|apply turn_own; [|apply (own_cond_init _ 128)]; by vm_compute|by vm_compute].
  eapply demo_next in H0; [|apply (turn_issue _ (demo_act 0 ATOMIC_LOCK 1 0) false); [by vm_compute|]|by vm_compute].
  - eapply demo_next in H0; [exact H0|apply (turn_issue _ (demo_act 0 ATOMIC_WAIT 2 1) false); [by vm_compute|]|by vm_compute].
    apply demo_act_allowed; [auto|vm_compute; by eexists|by left].
  - apply demo_act_allowed; [auto|vm_compute; by eexists|by left].
Qed.
Lemma demo_undisturbed : undisturbed (H := counter_rand) (OCond 2) 1 (demo_at 4) demo_later.
Proof.
  assert (demo_turn (demo_at 4) demo_yielding = Some demo_later) as (w & s & Hin & ->)%demo_turn_leaf by by vm_compute.
  eapply (still_turn _ (Some (demo_act 1 THREAD_YIELD 0 0))); [|by intros a [= <-]|exact Hin|constructor].
  apply carry_issue; [by vm_compute|]. apply demo_act_allowed; [auto|vm_compute; by eexists|by right].
Qed.
Lemma sleeps_until_woken_witness : exists t,
  lookupZ (threads (sched (shared demo_later))) 0 = Some t /\ waiting_on t = Some (OCond 2).
Proof.
  destruct (lookupZ (threads (sched (shared (demo_at 4)))) 0) as [t|] eqn:Ht; [|by vm_compute in Ht].
  destruct (sleeps_until_woken (H := counter_rand) 2 4 (demo_at 4) 0 t (OCond 2) 1 demo_later) as (_ & t' & Ht' & [Hw|Hc]).
  - lia.
  - exact demo_reachable.
  - lia.
  - exact Ht.
  - vm_compute in Ht. injection Ht as <-. reflexivity.
  - exact demo_undisturbed.
  - exists t'. by split.
  - exfalso. vm_compute in Ht'. injection Ht' as <-. vm_compute in Hc. discriminate.
Defined.
