(* ===== verification/Trace.v ===== *)
(** * Trace: the executions of the machine as histories

    A [run] of the machine is a sequence of turns with the values that loads of
    the program returned.  Every run is a [history]: the invariant of [Wf] carries
    the operations on the memory that led to the state, and a turn that returns
    the value of a load has just recorded that load.  So the theorem of [History]
    speaks of what a program under test observes. *)
From S2P Require Import Prelude Choice Action ReadFrom CacheLine ThreadMemory State Scheduler ModelCore Executor Atomic ReadSound Recovery Wf ModelSafe Buffers Safety Flush History Frame Evolve Program Api Pthread Machine.

(** ** The past of a state *)

Definition load_of (e : event) : option (ModelAction * Z) :=
  match ev_op e, ev_value e with OLoad r, Some v => Some (r, v) | _, _ => None end.
Definition loads_of (l : list event) : list (ModelAction * Z) := omap load_of l.

(** The state was reached from [s0] by a history in which the loads [obs] occur. *)
Definition reached (s0 : St) (obs : list (ModelAction * Z)) (s : St) : Prop :=
  exists l, history s0 l s /\ obs `sublist_of` loads_of l.
Definition trail (s0 : St) (obs : list (ModelAction * Z)) : Past.
Proof.
  refine {| past := reached s0 obs |}. intros s s' He (l & Hl & Ho). exists l. split; [by eapply hist_other|done].
Defined.

Lemma loads_app l k : loads_of (l ++ k) = loads_of l ++ loads_of k.
Proof. apply omap_app. Qed.

#[local] Instance trail_ops s0 obs : PastOps (PAST := trail s0 obs).
Proof.
  intros s op r s' Hop Hr He (l & Hl & Ho).
  set (e := mkEvent s op (match r with Val v _ => v | Stop _ _ => None end) s').
  exists (l ++ [e]). split.
  - apply (hist_op s0 l s op r e); [done|done|done|]. unfold event_of. by rewrite He.
  - rewrite loads_app. by apply sublist_inserts_r.
Qed.

(** A load is recorded with its value. *)
Lemma load_recorded s0 obs a s : reached s0 obs s -> op_ready s (OLoad a) ->
  wp (build_read_from a) (if_returns (fun v s' => reached s0 (obs ++ [(a, v)]) s')) s.
Proof.
  intros (l & Hl & Ho) Hop.
  assert (wp (run_op (OLoad a)) (fun r => forall e, event_of s (OLoad a) r = Some e -> history s0 (l ++ [e]) (ev_after e)) s) as Hwp.
  { apply all_leaves_elem, Forall_forall. intros r Hr e He. by eapply hist_op. }
  simpl in Hwp. rewrite wp_bind in Hwp. eapply wp_mono; [|exact Hwp]. intros [v s'|e s'] Hh; [|done]. unfold wp in Hh; simpl in *.
  eexists. split; [exact (Hh _ eq_refl)|]. rewrite loads_app. by apply sublist_app.
Qed.

(** ** The actions that load *)

Definition is_load (a : ModelAction) : bool :=
  match act_type a with ATOMIC_LOAD | NONATOMIC_LOAD | ATOMIC_RMWR => true | _ => false end.

Section Recorded.
Context `{Rand} (s0 : St) (obs : list (ModelAction * Z)) {B0 : Bound}.

(** The action returned a value that has been recorded. *)
Definition recorded (a : ModelAction) (r : result St outcome) : Prop :=
  match r with Val (Done v) s' => reached s0 (obs ++ [(a, v)]) s' | _ => True end.

Lemma exec_load_recorded M s a : wf (PAST := trail s0 obs) M s -> M < 2 ^ 32 - 1 -> op_ok s (OLoad a) ->
  wp (exec_load a) (fun r => match r with
    | Val p s' => exists v, p = Executed (set_value v a) /\ wf (PAST := trail s0 (obs ++ [(a, v)])) M s' /\ model_step s s'
    | Stop _ _ => True end) s.
Proof.
  intros Hs HM Hop. pose proof (wf_forget (P := trail s0 obs) M s Hs) as Hs0. pose proof Hop as (O1 & O2 & O3).
  unfold exec_load. wp_step. eapply wp_mono; [|apply wp_and;
    [apply (load_recorded s0 obs a s); [apply Hs|by apply (ready_wf (PAST := no_past) M)]|by apply (build_read_from_model M)]].
  intros [v s'|e s'] [Hr Hw]; [|done]. simpl in *. unfold wp; simpl. exists v. split; [done|]. split; [|apply Hw].
  apply (wf_recall (P := no_past)); [apply Hw|done].
Qed.

Lemma action_end_value a s : wp (action_end a) (if_returns (fun o _ => o = Done (value a))) s.
Proof. unfold action_end. repeat (apply if_returns_bind; intros ? ?). done. Qed.

Lemma action_end_recorded M s a v t : wf (PAST := trail s0 (obs ++ [(a, v)])) M s -> M < 2 ^ 32 -> M <= bound ->
  lookupZ (threads (sched s)) (thread_id (proc s)) = Some t -> wp (action_end (set_value v a)) (recorded a) s.
Proof.
  intros Hs HM HB Ht. eapply wp_mono; [|apply wp_and; [apply (action_end_value (set_value v a))|
    apply (action_end_wf (PAST := trail s0 (obs ++ [(a, v)])) M s (set_value v a) t); done]].
  intros [o s'|e s'] [Ho Hw]; [|done]. simpl in *. subst o. simpl. apply (wf_past _ _ Hw).
Qed.

(** A load that is carried out has been recorded when it returns. *)
Lemma action_exec_recorded M s t a : exec_ready (PAST := trail s0 obs) M s t a -> is_load a = true -> M + 1 <= bound ->
  wp (action_exec a) (recorded a) s.
Proof.
  intros Hr Hl HB. pose proof (er_clock (PAST := trail s0 obs) _ _ _ _ Hr) as HM. unfold action_exec. wp_step.
  assert (is_read a = true) as Hread by (unfold is_load, is_read in *; by destruct (act_type a)).
  eapply wp_mono; [|apply (ensure_ready (PAST := trail s0 obs) M s t a Hr)]. intros [[] s1|e s1]; [|done]. intros [Hr1 Hb].
  rewrite bool_decide_false by (intros E; unfold is_load in Hl; by rewrite E in Hl).
  pose proof (er_wf (PAST := trail s0 obs) _ _ _ _ Hr1) as Hs1. pose proof (er_ok (PAST := trail s0 obs) _ _ _ _ Hr1) as Hok.
  assert (forall s2, wf (PAST := trail s0 obs) M s2 -> mem_step s1 s2 ->
    wp (let! r := exec_load a in after_execute r) (recorded a) s2) as Hgo.
  { intros s2 Hs2 St. wp_step. pose proof (ru_thread _ _ (er_running (PAST := trail s0 obs) _ _ _ _ Hr1)) as Ht1.
    eapply wp_mono; [|apply (exec_load_recorded M s2 a Hs2 ltac:(lia))].
    - intros [p s3|e s3]; [|done]. intros (v & -> & Hs3 & St3). simpl.
      destruct (mem_step_thread _ _ _ _ St Ht1) as (t2 & Ht2 & _).
      apply (action_end_recorded M s3 a v t2); [done|lia|lia|]. rewrite (ms_sched _ _ St3), (ms_proc _ _ St3), (me_proc _ _ St). exact Ht2.
    - split; [apply Hok; by rewrite Hread|]. split.
      + rewrite (mem_step_count _ _ St), (ao_tid _ _ Hok). by apply lookupZ_Some in Ht1.
      + apply (me_grows _ _ St), Hb. by rewrite Hread. }
  wp_step. unfold wp at 1; simpl. unfold execute. unfold is_load in Hl. destruct (act_type a) eqn:Et; try done.
  - by apply Hgo.
  - by apply Hgo.
  - rewrite !wp_bind. eapply wp_mono; [|apply (empty_buffers_wf (PAST := trail s0 obs) (act_tid a) M); [|lia|lia]].
    + intros [[] s2|e s2]; [|done]. intros ([Hs2 _] & St & _). simpl.
      specialize (Hgo s2 Hs2 St). by rewrite wp_bind in Hgo.
    + split; [exact Hs1|]. rewrite (ao_tid _ _ Hok). pose proof (ru_thread _ _ (er_running (PAST := trail s0 obs) _ _ _ _ Hr1)) as Ht1.
      by apply lookupZ_Some in Ht1.
Qed.

Lemma action_recorded M s t a y : wf (PAST := trail s0 obs) M s -> M < 2 ^ 32 - 2 -> running s t -> action_ok s a ->
  is_load a = true -> M + 1 <= bound -> wp (action a y) (recorded a) s.
Proof.
  intros Hs HM Hr Hok Hl HB. apply (action_enters (PAST := trail s0 obs) M s t a y); try done; [lia|].
  intros s1 t1 Hx. by apply (action_exec_recorded M s1 t1).
Qed.
End Recorded.

(** ** Runs *)

Section Runs.
Context `{Rand}.

(** The running thread goes on with the value [v] of its load [a]; a load waits
    at most before it is carried out. *)
Inductive loads_value (m : Machine) (a : ModelAction) (v : Z) : Machine -> Prop :=
| load_issued y s : waits m !! current m = None -> allowed (shared m) (current m) a -> is_load a = true ->
    Val (Done v) s ∈ leaves (action a y (shared m)) ->
    loads_value m a v (dispatch (mkMachine s (globals m) (set_wait (current m) None (waits m))))
| load_resumed s : waits m !! current m = Some (Waits PExec a) -> is_load a = true ->
    Val (Done v) s ∈ leaves (resume PExec a (shared m)) ->
    loads_value m a v (dispatch (mkMachine s (globals m) (set_wait (current m) None (waits m)))).

(** Turns with the loads that the program has made, in order. *)
Inductive run (im : Image) (pc : Z) : nat -> list (ModelAction * Z) -> Machine -> Prop :=
| run_init : run im pc 0 [] (machine_init im pc)
| run_turn n obs m m' : run im pc n obs m -> mstep m m' -> run im pc (S n) obs m'
| run_load n obs m a v m' : run im pc n obs m -> loads_value m a v m' -> run im pc (S n) (obs ++ [(a, v)]) m'.

Lemma leaf_map {S A B} (c : Choice.M S A) (f : A -> B) a s s' :
  Val a s' ∈ leaves (c s) -> Val (f a) s' ∈ leaves ((let! x := c in ret (f x)) s).
Proof.
  intros Hin. apply elem_leaves_bind. exists (Val a s'). split; [done|]. by apply list_elem_of_singleton.
Qed.

(** The turn of a load is one of the machine's. *)
Lemma loads_value_mstep m a v m' : loads_value m a v m' -> mstep m m'.
Proof.
  destruct 1 as [y s Hw Ha Hl Hin|s Hw Hl Hin];
    (eapply step_turn; [|exact (leaf_map _ (after_action a) _ _ _ Hin)]).
  - by apply (turn_issue m a y).
  - by apply (turn_resume m PExec a).
Qed.

Lemma run_reachable im pc n obs m : run im pc n obs m -> reachable pc n m.
Proof.
  induction 1 as [|n obs m m' Hr IH Hs|n obs m a v m' Hr IH Hl]; [constructor|by eapply reach_step|].
  eapply reach_step; [exact IH|by eapply loads_value_mstep].
Qed.

(** After a load its value has been recorded. *)
Lemma loads_value_recorded s0 obs B m a v m' : minv (PAST := trail s0 obs) B m -> B < 2 ^ 32 - 2 ->
  loads_value m a v m' -> reached s0 (obs ++ [(a, v)]) (shared m').
Proof.
  intros Hm HB Hl. assert (exists s, reached s0 (obs ++ [(a, v)]) s /\
    m' = dispatch (mkMachine s (globals m) (set_wait (current m) None (waits m)))) as (s & Hs & ->).
  { assert (exists B0 : Bound, bound = B + 1) as [B0 HB0] by (by exists (B + 1)).
    assert (forall (c : M St outcome) s, wp c (recorded s0 obs a) (shared m) -> Val (Done v) s ∈ leaves (c (shared m)) ->
      reached s0 (obs ++ [(a, v)]) s) as Hrec.
    { intros c s Hwp Hin. unfold wp in Hwp. apply all_leaves_elem in Hwp. rewrite Forall_forall in Hwp. exact (Hwp _ Hin). }
    destruct (minv_self (PAST := trail s0 obs) _ _ Hm) as (t & Ht & _ & Hst & Hrun).
    pose proof (mi_wf (PAST := trail s0 obs) _ _ Hm) as Hs.
    destruct Hl as [y s Hw Ha Hload Hin|s Hw Hload Hin]; exists s; (split; [|done]); eapply Hrec; try exact Hin.
    - apply (action_recorded s0 obs B (shared m) t); [done|done|done| |done|lia].
      by apply (allowed_ok (PAST := trail s0 obs) B m Hm).
    - destruct (mi_waits (PAST := trail s0 obs) _ _ Hm _ _ Hw) as (u & Hu & Hok). rewrite Ht in Hu. injection Hu as <-.
      destruct Hok as [Hc|(_ & Ha & Hp)]; [by rewrite (running_not_completed _ Hst) in Hc|].
      apply (action_exec_recorded s0 obs B (shared m) t); [|done|lia].
      constructor; [done|done|done|by exists a|]. by apply (allowed_ok (PAST := trail s0 obs) B m Hm). }
  destruct (dispatch_shared s (globals m) (set_wait (current m) None (waits m))) as [f ->].
  apply (past_elsewhere (Past := trail s0 (obs ++ [(a, v)])) s); [|done]. apply elsewhere_mdl; [done..|by apply same_pids].
Qed.

(** The invariant of a run with its loads recorded. *)
Lemma run_minv im pc n obs m : 0 < pc -> run im pc n obs m -> Z.of_nat n < 2 ^ 32 - 2 ->
  minv (PAST := trail (launch im (initial pc 0 RANDOM_SEED)) obs) (Z.of_nat n) m.
Proof.
  intros Hpc. induction 1 as [|n obs m m' Hr IH Hs|n obs m a v m' Hr IH Hl]; intros Hn.
  - apply (machine_init_inv (PAST := trail _ [])); [done|]. exists []. split; [constructor|done].
  - rewrite Nat2Z.inj_succ, <- Z.add_1_r.
    by destruct (mstep_turn (PAST := trail (launch im (initial pc 0 RANDOM_SEED)) obs) (Z.of_nat n) m m' (IH ltac:(lia)) ltac:(lia) Hs).
  - rewrite Nat2Z.inj_succ, <- Z.add_1_r. specialize (IH ltac:(lia)).
    destruct (mstep_turn (PAST := trail (launch im (initial pc 0 RANDOM_SEED)) obs) (Z.of_nat n) m m' IH ltac:(lia) (loads_value_mstep _ _ _ _ Hl)) as [[I1 I2 I3 I4 I5 I6 I7 I8] _].
    constructor; [|done..]. apply (wf_recall (P := trail (launch im (initial pc 0 RANDOM_SEED)) obs)); [done|].
    by apply (loads_value_recorded (launch im (initial pc 0 RANDOM_SEED)) obs (Z.of_nat n) m); [|lia|].
Qed.
End Runs.

(** ** Properties *)

Lemma windows_ok_launch im pc : windows_ok (launch im (initial pc 0 RANDOM_SEED)).
Proof.
  intros ca. split; [|split; [|by vm_compute; lia]].
  - intros p. unfold win. simpl. rewrite init_window. simpl. lia.
  - intros p _. unfold win. simpl. by rewrite init_window.
Qed.

(** The history of a run with its loads. *)
Definition explains (s0 : St) (obs : list (ModelAction * Z)) (s : St) (l : list event) : Prop :=
  history s0 l s /\ obs `sublist_of` loads_of l /\
  (Forall clean l -> (exists O, possible s O) /\ forall O, possible s O -> Forall (explained O s) l).
Lemma run_history `{Rand} im pc n obs m : 0 < pc -> run im pc n obs m -> Z.of_nat n < 2 ^ 32 - 2 ->
  exists l, explains (launch im (initial pc 0 RANDOM_SEED)) obs (shared m) l.
Proof.
  intros Hpc Hr Hn. pose proof (run_minv im pc n obs m Hpc Hr Hn) as Hm.
  destruct (wf_past _ _ (mi_wf (PAST := trail (launch im (initial pc 0 RANDOM_SEED)) obs) _ _ Hm)) as (l & Hl & Ho).
  exists l. split; [done|]. split; [done|]. intros Hc.
  destruct (history_explained _ _ _ (windows_ok_launch im pc) Hl Hc) as [H1 H2].
  split; [done|]. intros O HO. by apply H2.
Qed.

(** C2: What a program observes is one memory: for every run of the machine, of any
    programs and decisions, there is a history of the operations on the memory
    that leads to its state and in which the loads of the program occur with the
    values that they returned.  If the flushes of the history find no store of
    their line lost, one choice of persistence times explains all these values:
    there is one, and under each one that the windows allow every load returned
    what memory and the buffer of its thread held, also under the crashes that
    came later when the process of the load survives. *)
Theorem run_explained `{Rand} im pc n obs m : 0 < pc -> run im pc n obs m -> Z.of_nat n < 2 ^ 32 - 2 ->
  exists l, explains (launch im (initial pc 0 RANDOM_SEED)) obs (shared m) l.
Proof. apply run_history. Qed.

(** Process 0 stores 7 and 9 and hands over; process 1 loads the word, which
    crashes process 0 and loses 9, and loads it again. *)
#[local] Existing Instance counter_rand.
Definition goes_on (c : M St outcome) (k : nat) (a : ModelAction) (m : Machine) : option (outcome * Machine) :=
  match leaves (c (shared m)) !! k with
  | Some (Val o s) => Some (o, dispatch (mkMachine s (globals m) (set_wait (current m) (after_action a o) (waits m))))
  | _ => None
  end.
Definition demo_act (tid : Z) (t : action_type) (v : Z) : ModelAction :=
  ModelAction_new tid t 64 v memory_order_seq_cst 8 "demo".
Definition demo_turn (k : nat) (a : ModelAction) (y : bool) (m : Machine) : Machine :=
  match goes_on (action a y) k a m with Some (_, m') => m' | None => m end.
Definition demo_m1 := demo_turn 0 (demo_act 0 ATOMIC_STORE 7) false (machine_init blank 2).
Definition demo_m2 := demo_turn 0 (demo_act 0 ATOMIC_STORE 9) false demo_m1.
Definition demo_m3 := demo_turn 0 demo_yield true demo_m2.
Definition demo_m4 := demo_turn 0 (demo_act 1 ATOMIC_LOAD 0) false demo_m3.
Definition demo_m5 := demo_turn 0 (demo_act 1 ATOMIC_LOAD 0) false demo_m4.


Lemma goes_on_leaf c k a m o m' : goes_on c k a m = Some (o, m') -> exists s, Val o s ∈ leaves (c (shared m)) /\
  m' = dispatch (mkMachine s (globals m) (set_wait (current m) (after_action a o) (waits m))).
Proof.
  unfold goes_on. destruct (leaves (c (shared m)) !! k) as [[o' s|]|] eqn:E; [|done|done]. intros [= -> <-].
  exists s. split; [by eapply list_elem_of_lookup_2|done].
Qed.
Lemma demo_mstep k a y m o m' : goes_on (action a y) k a m = Some (o, m') -> waits m !! current m = None ->
  allowed (shared m) (current m) a -> mstep m m'.
Proof.
  intros (s & Hin & ->)%goes_on_leaf Hw Ha. eapply step_turn; [by apply (turn_issue m a y)|].
  by apply (leaf_map _ (after_action a)).
Qed.
Lemma demo_turn_loads k a y m v m' : goes_on (action a y) k a m = Some (Done v, m') -> waits m !! current m = None ->
  allowed (shared m) (current m) a -> is_load a = true -> loads_value m a v m'.
Proof. intros (s & Hin & ->)%goes_on_leaf Hw Ha Hl. by eapply load_issued. Qed.

Lemma demo_allowed s tid t v : t = ATOMIC_STORE \/ t = ATOMIC_LOAD -> allowed s tid (demo_act tid t v).
Proof.
  intros Ht. constructor; [done|by destruct Ht as [->| ->]| | | | |].
  - intros _. split; [split; [by right; right; right|done]|simpl; lia].
  - intros x. unfold get_mutex. by destruct Ht as [->| ->].
  - intros Hj. by destruct Ht as [->| ->].
  - intros Hj. by destruct Ht as [->| ->].
  - intros [Hj|Hj]; by destruct Ht as [->| ->].
Qed.
Lemma demo_run : run blank 2 5 [(demo_act 1 ATOMIC_LOAD 0, 7); (demo_act 1 ATOMIC_LOAD 0, 7)] demo_m5.
Proof.
  apply (run_load blank 2 4 [(demo_act 1 ATOMIC_LOAD 0, 7)] demo_m4); [apply (run_load blank 2 3 [] demo_m3); [eapply run_turn; [eapply run_turn; [eapply run_turn|]|]|]|].
  - apply run_init.
  - apply (demo_mstep 0 (demo_act 0 ATOMIC_STORE 7) false _ (Done 7)); [by vm_compute|by vm_compute|by apply demo_allowed; left].
  - apply (demo_mstep 0 (demo_act 0 ATOMIC_STORE 9) false demo_m1 (Done 9)); [by vm_compute|by vm_compute|].
    replace (current demo_m1) with 0 by by vm_compute. by apply demo_allowed; left.
  - apply (demo_mstep 0 demo_yield true demo_m2 (Wait PExec)); [by vm_compute|by vm_compute|].
    replace (current demo_m2) with 0 by by vm_compute. constructor; try done. by intros [?|?].
  - apply (demo_turn_loads 0 _ false); [by vm_compute|by vm_compute| |done].
    replace (current demo_m3) with 1 by by vm_compute. by apply demo_allowed; right.
  - apply (demo_turn_loads 0 _ false); [by vm_compute|by vm_compute| |done].
    replace (current demo_m4) with 1 by by vm_compute. by apply demo_allowed; right.
Qed.

Lemma run_explained_witness : exists l, explains (launch blank (initial 2 0 RANDOM_SEED))
  [(demo_act 1 ATOMIC_LOAD 0, 7); (demo_act 1 ATOMIC_LOAD 0, 7)] (shared demo_m5) l.
Proof. apply (run_explained blank 2 5); [lia|exact demo_run|lia]. Defined.
