(* ===== verification/Questions.v ===== *)
(** * Questions: what the code asks the decision stack

    Every [decision_point] of the checker offers two choices, so the decisions
    of an execution form a binary tree ([yes_no] for a computation), whatever
    the state.  The indices of the stack then suffice as long as there are
    fewer than 2^31 executions. *)
From S2P Require Import Prelude Choice NodeStack Action ReadFrom CacheLine ThreadMemory State Scheduler ModelCore Executor Program Api Pthread.

Fixpoint binary {A} (t : tree A) : Prop :=
  match t with
  | Leaf _ => True
  | Choose n k => n = 2 /\ forall c, 0 <= c < 2 -> binary (k c)
  end.
Definition yes_no {S A} (m : M S A) : Prop := forall s, binary (m s).

Lemma binary_tbind {A B} (t : tree A) (f : A -> tree B) :
  binary t -> all_leaves (fun a => binary (f a)) t -> binary (tbind t f).
Proof.
  induction t as [a|n k IH]; simpl; [done|]. intros [-> Hk] Hf. split; [done|]. intros c Hc.
  by apply IH; [apply Hk|apply Hf].
Qed.

(** A binary tree has fewer questions on a path than leaves. *)
Lemma binary_nonempty {A} (t : tree A) : binary t -> 1 <= lenZ (leaves t).
Proof.
  induction t as [a|n k IH]; [done|]. intros [-> Hk]. specialize (IH 0 (Hk 0 ltac:(lia))).
  cbn [leaves]. change (seqZ 0 2) with [0; 1]. cbn [fmap list_fmap concat]. rewrite lenZ_app.
  pose proof (lenZ_nonneg (leaves (k 1) ++ [])). lia.
Qed.
Lemma binary_tree_ok {A} (t : tree A) : forall d, binary t -> d + lenZ (leaves t) <= 2 ^ 31 -> tree_ok d t.
Proof.
  induction t as [a|n k IH]; intros d; [done|]. intros [-> Hk]. cbn [leaves]. change (seqZ 0 2) with [0; 1].
  cbn [fmap list_fmap concat]. rewrite app_nil_r, lenZ_app. intros Hd.
  pose proof (binary_nonempty _ (Hk 0 ltac:(lia))) as H0. pose proof (binary_nonempty _ (Hk 1 ltac:(lia))) as H1.
  split; [lia|]. split; [lia|]. intros c Hc.
  apply IH; [by apply Hk|]. assert (c = 0 \/ c = 1) as [-> | ->] by lia; lia.
Qed.

(** ** The computations *)

Section Basic.
Context {S : Type}.
Lemma yes_no_bind {A B} (m : M S A) (f : A -> M S B) : yes_no m -> (forall a, yes_no (f a)) -> yes_no (bind m f).
Proof.
  intros Hm Hf s. apply binary_tbind; [apply Hm|]. eapply all_leaves_mono; [|apply all_leaves_true].
  intros [a s'|e s'] _; [apply Hf|done].
Qed.
Lemma yes_no_ret {A} (a : A) : yes_no (ret (S := S) a).
Proof. done. Qed.
Lemma yes_no_get : yes_no (get (S := S)).
Proof. done. Qed.
Lemma yes_no_gets {A} (g : S -> A) : yes_no (gets g).
Proof. done. Qed.
Lemma yes_no_modify (g : S -> S) : yes_no (modify g).
Proof. done. Qed.
Lemma yes_no_halt {A} e : yes_no (halt (S := S) (A := A) e).
Proof. done. Qed.
Lemma yes_no_lift {A} (m : err A) : yes_no (lift (S := S) m).
Proof. by destruct m. Qed.
Lemma yes_no_assert b msg : yes_no (massert (S := S) b msg).
Proof. by destruct b. Qed.
Lemma yes_no_some {A} (o : option A) e : yes_no (from_some (S := S) o e).
Proof. by destruct o. Qed.
Lemma yes_no_choose : yes_no (choose (S := S) 2).
Proof. done. Qed.
End Basic.

Create HintDb yes_no discriminated.
#[export] Hint Resolve yes_no_ret yes_no_get yes_no_gets yes_no_modify yes_no_halt yes_no_lift yes_no_assert
  yes_no_some yes_no_choose : yes_no.
(** Split a computation into its steps and close them with the [yes_no] hints. *)
Ltac yes_no :=
  repeat first
    [ progress intros
    | solve [eauto with yes_no]
    | match goal with |- yes_no (if ?b then _ else _) => destruct b end
    | match goal with |- yes_no (match ?o with _ => _ end) => destruct o end
    | apply yes_no_bind ].

Lemma yes_no_each {S A} (l : list A) (f : A -> M S unit) : (forall x, yes_no (f x)) -> yes_no (for_each l f).
Proof. intros Hf. induction l as [|x l IH]; simpl; yes_no. Qed.
Lemma yes_no_times {S} n (m : M S unit) : yes_no m -> yes_no (times n m).
Proof. intros Hm. induction n as [|n IH]; simpl; yes_no. Qed.
#[export] Hint Resolve yes_no_each yes_no_times : yes_no.

(** *** Memory *)
Lemma yes_no_get_thread i : yes_no (get_thread i).
Proof. unfold get_thread. yes_no. Qed.
Lemma yes_no_upd_thread i f : yes_no (upd_thread i f).
Proof. unfold upd_thread. yes_no. Qed.
Lemma yes_no_mutex_obj i : yes_no (get_mutex_obj i).
Proof. unfold get_mutex_obj. yes_no. Qed.
Lemma yes_no_upd_mutex i f : yes_no (upd_mutex i f).
Proof. unfold upd_mutex. yes_no. Qed.
Lemma yes_no_self_pid : yes_no self_pid.
Proof. unfold self_pid. yes_no. Qed.
Lemma yes_no_self_tid : yes_no self_tid.
Proof. unfold self_tid. yes_no. Qed.
#[export] Hint Resolve yes_no_get_thread yes_no_upd_thread yes_no_mutex_obj yes_no_upd_mutex yes_no_self_pid yes_no_self_tid : yes_no.
Lemma yes_no_pid a : yes_no (get_process_id a).
Proof. unfold get_process_id. yes_no. Qed.
Lemma yes_no_storelist a : yes_no (get_storelist a).
Proof. unfold get_storelist. yes_no. Qed.
Lemma yes_no_set_storelist a l : yes_no (set_storelist a l).
Proof. unfold set_storelist. yes_no. Qed.
Lemma yes_no_next_seq : yes_no get_next_sequence_num.
Proof. unfold get_next_sequence_num. yes_no. Qed.
Lemma yes_no_cacheline p a : yes_no (cacheline p a).
Proof. unfold cacheline. yes_no. Qed.
Lemma yes_no_assign p a w : yes_no (assign_cacheline p a w).
Proof. unfold assign_cacheline. yes_no. Qed.
Lemma yes_no_emplace p : yes_no (emplace_crash p).
Proof. unfold emplace_crash. yes_no. Qed.
Lemma yes_no_process_crash : yes_no process_crash.
Proof. unfold process_crash. yes_no. Qed.
Lemma yes_no_ask : yes_no ask_crash.
Proof. unfold ask_crash, decision_point_m. yes_no. Qed.
#[export] Hint Resolve yes_no_pid yes_no_storelist yes_no_set_storelist yes_no_next_seq yes_no_cacheline yes_no_assign
  yes_no_emplace yes_no_process_crash yes_no_ask : yes_no.
Lemma yes_no_should_crash : yes_no should_crash.
Proof. unfold should_crash. yes_no. Qed.
#[export] Hint Resolve yes_no_should_crash : yes_no.
Lemma yes_no_insert_crash p : yes_no (insert_crash p).
Proof. unfold insert_crash. yes_no. Qed.
#[export] Hint Resolve yes_no_insert_crash : yes_no.
Lemma yes_no_initial a : yes_no (ensureInitialValue a).
Proof. unfold ensureInitialValue. yes_no. Qed.
Lemma yes_no_evict_store a : yes_no (Model_evict_store a).
Proof. unfold Model_evict_store. yes_no. Qed.
Lemma yes_no_windows l a n : forall m, yes_no (flush_windows l a n m).
Proof. induction l as [|i l IH]; simpl; yes_no. Qed.
Lemma yes_no_crash_writer l m : yes_no (crash_writer l m).
Proof. induction l as [|w l IH]; simpl; yes_no. Qed.
#[export] Hint Resolve yes_no_initial yes_no_evict_store yes_no_windows yes_no_crash_writer : yes_no.
Lemma yes_no_evict_clflush a : yes_no (Model_evict_clflush a).
Proof. unfold Model_evict_clflush. yes_no. Qed.
#[export] Hint Resolve yes_no_evict_clflush : yes_no.
Lemma yes_no_running r w ca rp wp0 rf n : yes_no (running_store r w ca rp wp0 rf n).
Proof. unfold running_store. yes_no. Qed.
Lemma yes_no_crashed r w l ca wp0 rf n : yes_no (crashed_store r w l ca wp0 rf n).
Proof. unfold crashed_store, decision_point_m. yes_no. Qed.
#[export] Hint Resolve yes_no_running yes_no_crashed : yes_no.
Lemma yes_no_read_step r w l ca rp rf n : yes_no (read_step r w l ca rp rf n).
Proof. unfold read_step. yes_no. Qed.
#[export] Hint Resolve yes_no_read_step : yes_no.
Lemma yes_no_read_loop l r ca rp : forall rf n, yes_no (read_loop l r ca rp rf n).
Proof. induction l as [|w l IH]; simpl; yes_no. Qed.
#[export] Hint Resolve yes_no_read_loop : yes_no.
Lemma yes_no_build r : yes_no (build_read_from r).
Proof. unfold build_read_from. yes_no. Qed.
#[export] Hint Resolve yes_no_build : yes_no.

(** *** Buffers *)
Lemma yes_no_upd_tm i f : yes_no (upd_tm (H := thread_evictor i) f).
Proof. unfold upd_tm. yes_no. Qed.
#[export] Hint Resolve yes_no_upd_tm : yes_no.
Lemma yes_no_buffer i a : yes_no (buffer_store i a).
Proof. unfold buffer_store, add_to_store_buffer. yes_no. Qed.
Lemma yes_no_flush_loop i n : yes_no (empty_flush_loop (H := thread_evictor i) n).
Proof. induction n as [|n IH]; simpl; yes_no. Qed.
#[export] Hint Resolve yes_no_buffer yes_no_flush_loop : yes_no.
Lemma yes_no_flush_buffer i : yes_no (empty_flush_buffer (H := thread_evictor i)).
Proof. unfold empty_flush_buffer. yes_no. Qed.
#[export] Hint Resolve yes_no_flush_buffer : yes_no.
Lemma yes_no_pop i : yes_no (pop_from_store_buffer (H := thread_evictor i)).
Proof. unfold pop_from_store_buffer. simpl. yes_no. Qed.
Lemma yes_no_pop_thread i : yes_no (pop_thread i).
Proof. apply yes_no_pop. Qed.
#[export] Hint Resolve yes_no_pop yes_no_pop_thread : yes_no.
Lemma yes_no_store_loop i n : yes_no (empty_store_loop (H := thread_evictor i) n).
Proof. induction n as [|n IH]; simpl; yes_no. Qed.
#[export] Hint Resolve yes_no_store_loop : yes_no.
Lemma yes_no_empty i : yes_no (empty_buffers i).
Proof. unfold empty_buffers, empty_store_buffer. yes_no. Qed.
#[export] Hint Resolve yes_no_empty : yes_no.

(** *** The scheduler and the actions *)
Lemma yes_no_sched_err {A} (f : Scheduler -> err (A * Scheduler)) : yes_no (on_sched_err f).
Proof. unfold on_sched_err. yes_no. Qed.
#[export] Hint Resolve yes_no_sched_err : yes_no.
Lemma yes_no_assert_active : yes_no assert_active.
Proof. unfold assert_active. yes_no. Qed.
#[export] Hint Resolve yes_no_assert_active : yes_no.
Lemma yes_no_yield : yes_no yield.
Proof. unfold yield. yes_no. Qed.
Lemma yes_no_last_yield : yes_no last_yield.
Proof. unfold last_yield. yes_no. Qed.
#[export] Hint Resolve yes_no_yield yes_no_last_yield : yes_no.
Lemma yes_no_finalize : yes_no finalize.
Proof. unfold finalize. yes_no. Qed.
Lemma yes_no_wait i : yes_no (thread_wait i).
Proof. unfold thread_wait. yes_no. Qed.
#[export] Hint Resolve yes_no_finalize yes_no_wait : yes_no.
Lemma yes_no_set_owner m o : yes_no (Mutex_set_owner m o).
Proof. unfold Mutex_set_owner, mutex_disown, mutex_own. yes_no. Qed.
#[export] Hint Resolve yes_no_set_owner : yes_no.
Lemma yes_no_lock_loop a m : yes_no (lock_loop a m).
Proof. unfold lock_loop. yes_no. Qed.
#[export] Hint Resolve yes_no_lock_loop : yes_no.
Lemma yes_no_execute a : yes_no (execute a).
Proof.
  unfold execute, exec_create, exec_join, exec_trylock, exec_lock, exec_unlock, exec_store, exec_load, Thread_finalize,
    wake_waiters, wake_one, set_errno. destruct (act_type a); yes_no.
Qed.
#[export] Hint Resolve yes_no_execute : yes_no.

Section Random.
Context `{Rand}.
Lemma yes_no_rand : yes_no rand.
Proof. unfold rand. yes_no. Qed.
Lemma yes_no_find n tc : forall i, yes_no (find_live n i tc).
Proof. induction n as [|n IH]; simpl; yes_no. Qed.
Local Hint Resolve yes_no_rand yes_no_find : yes_no.
Lemma yes_no_process_store_buffer : yes_no process_store_buffer.
Proof. unfold process_store_buffer. yes_no; apply yes_no_times; yes_no. Qed.
Local Hint Resolve yes_no_process_store_buffer : yes_no.
Lemma yes_no_after r : yes_no (after_execute r).
Proof. unfold after_execute, action_end. yes_no. Qed.
Local Hint Resolve yes_no_after : yes_no.
Lemma yes_no_action_exec a : yes_no (action_exec a).
Proof. unfold action_exec. yes_no. Qed.
Local Hint Resolve yes_no_action_exec : yes_no.
(** Actions, and their continuation after a wait. *)
Lemma yes_no_action a y : yes_no (action a y).
Proof. unfold action. yes_no. Qed.
Lemma yes_no_resume p a : yes_no (resume p a).
Proof. destruct p; simpl; unfold action_end; yes_no. Qed.
Lemma yes_no_shutdown : yes_no process_shutdown.
Proof. unfold process_shutdown, shutdown_thread. yes_no; apply yes_no_each; yes_no. Qed.
End Random.
#[export] Hint Resolve yes_no_action yes_no_resume yes_no_shutdown : yes_no.
