(* ===== verification/Tested.v ===== *)
(** * Tested: whole executions of a program under test

    The code of the program is a [prog] for each thread: the [main] of a process
    or [thread_start] of the function given to [pthread_create].  The running
    thread goes on with its code for one turn of [Machine]; [execution] is the
    tree of all ways in which an execution can go on, with the questions of the
    checker as its nodes.  The file shows that its leaves are the complete runs
    of the machine in which the threads run that code, and that no execution of
    a program that respects the checker's interface fails otherwise than by a
    deadlock. *)
From S2P Require Import Prelude Choice NodeStack Action ReadFrom CacheLine ThreadMemory State Scheduler ModelCore Executor ReadSound Recovery Wf ModelSafe Safety Flush History Frame Evolve Program Api Pthread Machine Trace Questions.

Record Tested := mkTested {
  user_main : Z -> prog Z;             (* of the process with this number *)
  thread_code : Z -> Z -> prog Z       (* of the function and its argument *)
}.

(** Where an execution is: the code that each thread still has to run, the loads
    that have returned to the program, and the machine. *)
Record Position := mkPos {
  codes : gmap Z (prog Z);
  observed : list (ModelAction * Z);
  machine : Machine
}.

(** What a turn of the running thread gives back: where it waits, its remaining
    code, and the load that returned. *)
Definition answer : Type := option activity * prog Z * list (ModelAction * Z).

Definition continue (code : prog Z) (v : Z) : prog Z :=
  match code with Act _ _ k => k v | _ => code end.
Definition reply (executes : bool) (a : ModelAction) (code : prog Z) (o : outcome) : answer :=
  match o with
  | Done v => (None, continue code v, if executes && is_load a then [(a, v)] else [])
  | Wait p => (Some (Waits p a), code, [])
  end.
Definition is_exec (p : point) : bool := match p with PExec => true | _ => false end.

Inductive verdict :=
| Ended (obs : list (ModelAction * Z)) (s : St)   (* the last process is done *)
| Failed (e : stop) (s : St)
| Cut (x : Position).                             (* more turns than the bound *)

Section Tested.
Context `{Rand} (P : Tested).

(** The code of the running thread; a thread that has not run yet starts. *)
Definition code_of (x : Position) : prog Z :=
  let tid := current (machine x) in
  match codes x !! tid with
  | Some code => code
  | None =>
      match lookupZ (threads (sched (shared (machine x)))) tid with
      | Some t => if is_main t then user_main P (thr_pid t) else thread_start (thread_code P)
      | None => Ret 0
      end
  end.

Definition turn_of (x : Position) : M St answer :=
  let code := code_of x in
  match waits (machine x) !! current (machine x) with
  | Some (Waits p a) => let! o := resume p a in ret (reply (is_exec p) a code o)
  | Some Shutdown => let! w := end_process in ret (w, code, [])
  | Some Gone => halt (UB "thread of a process that has exited")
  | None =>
      match code with
      | Ret _ => let! w := user_done in ret (w, code, [])
      | Act a y _ => let! o := action a y in ret (reply true a code o)
      | Do m k => let! v := m in ret (None, k v, [])
      end
  end.

Definition advance (x : Position) (r : answer) (s : St) : Position :=
  let m := machine x in
  let '(w, code, obs) := r in
  mkPos (<[current m := code]> (codes x)) (observed x ++ obs)
        (dispatch (mkMachine s (globals m) (set_wait (current m) w (waits m)))).
(** The exit handler has handed over. *)
Definition exited (x : Position) (s : St) : Position :=
  let m := machine x in
  mkPos (codes x) (observed x) (dispatch (mkMachine s (globals m) (<[current m := Gone]> (waits m)))).

(** At most [fuel] turns. *)
Fixpoint execution (fuel : nat) (x : Position) : tree verdict :=
  match fuel with
  | O => Leaf (Cut x)
  | S fuel =>
      tbind (turn_of x (shared (machine x))) (fun r =>
        match r with
        | Val a s => execution fuel (advance x a s)
        | Stop (Exit c) s =>
            if c =? EXIT_SUCCESS then
              tbind (finalize s) (fun r =>
                match r with
                | Val true s => execution fuel (exited x s)
                | Val false s => Leaf (Ended (observed x) s)
                | Stop e s => Leaf (Failed e s)
                end)
            else Leaf (Failed (Exit c) s)
        | Stop e s => Leaf (Failed e s)
        end)
  end.

(** *** The same as a step relation *)
Definition start (m : Machine) : Position := mkPos ∅ [] m.

Inductive reaches (x0 : Position) : nat -> Position -> Prop :=
| reaches_start : reaches x0 0 x0
| reaches_turn n x a s : reaches x0 n x -> Val a s ∈ leaves (turn_of x (shared (machine x))) ->
    reaches x0 (S n) (advance x a s)
| reaches_exit n x s s' : reaches x0 n x -> Stop (Exit EXIT_SUCCESS) s ∈ leaves (turn_of x (shared (machine x))) ->
    Val true s' ∈ leaves (finalize s) -> reaches x0 (S n) (exited x s').
(** The last process ends in the next turn. *)
Definition ends_in (x : Position) (obs : list (ModelAction * Z)) (s' : St) : Prop :=
  obs = observed x /\ exists s, Stop (Exit EXIT_SUCCESS) s ∈ leaves (turn_of x (shared (machine x))) /\
    Val false s' ∈ leaves (finalize s).

(** What the program must respect, in its first [fuel] turns. *)
Definition respects (fuel : nat) (x0 : Position) : Prop := forall n x, (n < fuel)%nat -> reaches x0 n x ->
  waits (machine x) !! current (machine x) = None ->
  match code_of x with
  | Ret _ => True
  | Act a _ _ => allowed (shared (machine x)) (current (machine x)) a
  | Do m _ => own_code (shared (machine x)) m
  end.
End Tested.

(** ** A thread function does not return *)

Definition is_finish (a : ModelAction) : bool :=
  match act_type a with THREAD_FINISH | THREADONLY_FINISH => true | _ => false end.
(** Where the code of a thread ends there is a [THREAD_FINISH]. *)
Fixpoint finishes (c : prog Z) : Prop :=
  match c with
  | Ret _ => False
  | Act a _ k => is_finish a = true \/ forall v, finishes (k v)
  | Do m k => forall x, finishes (k x)
  end.
Lemma finishes_bind {A} (c : prog A) (f : A -> prog Z) : (forall v, finishes (f v)) -> finishes (pbind c f).
Proof. intros Hf. induction c as [a|a y k IH|X m k IH]; simpl; auto. Qed.
Lemma finishes_start body : finishes (thread_start body).
Proof.
  unfold thread_start. do 4 (apply finishes_bind; intros ?). simpl. intros tid. by left.
Qed.

Section Finish.
Context `{Rand}.
(** An action that has not returned. *)
Definition not_done (r : result St outcome) : Prop :=
  match r with Val (Done _) _ => False | Val (Wait p) _ => p = PExec \/ p = PDead | Stop _ _ => True end.
Lemma finish_execute a s : is_finish a = true ->
  wp (execute a) (fun r => match r with Val p _ => p = Blocked PDead | Stop _ _ => True end) s.
Proof.
  unfold is_finish, execute. destruct (act_type a); try done; intros _; unfold Thread_finalize; repeat anything; by case_if.
Qed.
Lemma finish_exec a s : is_finish a = true -> wp (action_exec a) not_done s.
Proof.
  intros Ha. unfold action_exec. anything. anything.
  assert (bool_decide (act_type a = CACHE_CLFLUSHOPT) = false) as ->.
  { apply bool_decide_eq_false. unfold is_finish in Ha. by destruct (act_type a). }
  cbv zeta. rewrite wp_bind. eapply wp_mono; [|by apply finish_execute]. intros [p s1|e s1]; [|done]. intros ->. by right.
Qed.
Lemma finish_action a y s : is_finish a = true -> wp (action a y) not_done s.
Proof.
  intros Ha. unfold action. anything. anything. anything. case_if; [by anything|].
  anything. anything. anything. anything. case_if; [by left|by apply finish_exec].
Qed.
Lemma finish_resume p a s : is_finish a = true -> p = PExec \/ p = PDead -> wp (resume p a) not_done s.
Proof. intros Ha [-> | ->]; [by apply finish_exec|done]. Qed.
End Finish.

(** ** Positions are runs of the machine *)

Lemma dispatch_waits m : waits (dispatch m) = waits m.
Proof. unfold dispatch. destruct (lookupZ _ _) as [t|]; [|done]. by destruct (_ !! thr_pid t). Qed.

Lemma leaf_val {S A B} (m : M S A) (f : A -> B) b s s' :
  Val b s' ∈ leaves ((let! x := m in ret (f x)) s) -> exists a, Val a s' ∈ leaves (m s) /\ b = f a.
Proof.
  intros ([a s1|e s1] & Hin & Hr)%elem_leaves_bind; [|done]. apply list_elem_of_singleton in Hr. injection Hr as -> ->.
  by exists a.
Qed.
Lemma leaf_stop {S A B} (m : M S A) (f : A -> B) e s s' :
  Stop e s' ∈ leaves ((let! x := m in ret (f x)) s) <-> Stop e s' ∈ leaves (m s).
Proof.
  split; [|intros Hin; apply elem_leaves_bind; by exists (Stop e s')].
  intros ([a s1|e1 s1] & Hin & Hr)%elem_leaves_bind; [by apply list_elem_of_singleton in Hr|by injection Hr as -> ->].
Qed.

(** The end of a process waits for no action. *)
Lemma end_process_leaf `{Rand} s w s' : Val w s' ∈ leaves (end_process s) -> False.
Proof.
  intros Hin. apply (wp_leaf end_process (fun r => match r with Val _ _ => False | _ => True end)) in Hin; [done|].
  unfold end_process. by do 2 anything.
Qed.
Lemma user_done_leaf `{Rand} s p a s' : Val (Some (Waits p a)) s' ∈ leaves (user_done s) -> False.
Proof.
  intros Hin. apply (wp_leaf user_done (fun r => match r with Val w _ => w = Some Shutdown | _ => True end)) in Hin; [done|].
  unfold user_done. anything. case_if; [done|]. unfold end_process. by do 2 anything.
Qed.

Section Positions.
Context `{Rand} (P : Tested) (im : Image) (pc : Z).
Hypothesis Hpc : 0 < pc.

Record pos_ok (n : nat) (x : Position) : Prop := mkPosOk {
  po_run : run im pc n (observed x) (machine x);
  po_count : process_count (sched (shared (machine x))) = pc;
  po_mains : forall i, 0 <= i < pc -> exists t, lookupZ (threads (sched (shared (machine x)))) i = Some t /\ thr_pid t = i;
  po_threads : forall i t, lookupZ (threads (sched (shared (machine x)))) i = Some t -> is_main t = (i <? pc);
  po_waits : forall i p a, waits (machine x) !! i = Some (Waits p a) ->
    exists y k, codes x !! i = Some (Act a y k) /\ (is_finish a = true -> p = PExec \/ p = PDead);
  po_codes : forall i c, codes x !! i = Some c -> pc <= i -> finishes c
}.

Lemma start_ok : pos_ok 0 (start (machine_init im pc)).
Proof.
  constructor; simpl; [constructor|done| | | |].
  - intros i Hi. exists (Thread_main i). split; [by apply main_thread|done].
  - intros i t [Hi ->]%main_thread_inv. simpl. symmetry. apply Z.ltb_lt. lia.
  - intros i p a. by rewrite lookup_empty.
  - intros i c. by rewrite lookup_empty.
Qed.

Section Position.
Context (n : nat) (x : Position).
Hypothesis Hn : Z.of_nat n < 2 ^ 32 - 2.
Hypothesis Hx : pos_ok n x.
Let m := machine x.
Let tid := current m.

Lemma pos_minv : minv (PAST := no_past) (Z.of_nat n) m.
Proof. eapply reachable_minv; [exact Hpc|done|by eapply run_reachable, Hx|exact Hn]. Qed.

Lemma current_thread_of : exists t, lookupZ (threads (sched (shared m))) tid = Some t /\ is_main t = (tid <? pc).
Proof.
  destruct (minv_self _ _ pos_minv) as (t & Ht & _). exists t. split; [done|]. by eapply po_threads.
Qed.

Lemma code_finishes : pc <= tid -> finishes (code_of P x).
Proof.
  intros Hi. unfold code_of. fold m tid. destruct (codes x !! tid) as [c|] eqn:Ec; [by eapply po_codes|].
  destruct current_thread_of as (t & -> & ->). rewrite (proj2 (Z.ltb_ge _ _)) by lia. apply finishes_start.
Qed.

(** The threads after a turn. *)
Lemma mstep_threads m' : mstep m m' -> let l := threads (sched (shared m')) in
  process_count (sched (shared m')) = pc /\ (forall i, 0 <= i < pc -> exists t, lookupZ l i = Some t /\ thr_pid t = i) /\
  forall i t, lookupZ l i = Some t -> is_main t = (i <? pc).
Proof.
  cbn zeta. intros Hs. destruct (mstep_turn _ _ _ pos_minv Hn Hs) as (_ & T & _).
  split; [rewrite (pa_count _ _ _ T); apply Hx|]. split.
  - intros i Hi. destruct (po_mains _ _ Hx i Hi) as (t & Ht & Hp). destruct (pa_threads _ _ _ T i t Ht) as (u & Hu & Hpu & _).
    exists u. split; [done|congruence].
  - intros i t' Ht'. destruct (lookupZ (threads (sched (shared m))) i) as [t|] eqn:Et.
    + destruct (pa_threads _ _ _ T i t Et) as (u & Hu & _ & Hm & _). rewrite Ht' in Hu. injection Hu as <-.
      rewrite Hm. by eapply po_threads.
    + rewrite (pa_new _ _ _ T i t' Ht' Et). symmetry. apply Z.ltb_ge. destruct (Z_le_gt_dec pc i) as [|Hi]; [lia|].
      apply lookupZ_Some in Ht'. destruct (po_mains _ _ Hx i ltac:(lia)) as (u & Hu & _). fold m in Hu. congruence.
Qed.

(** A turn of the thread, or the end of its process, that the machine can take. *)
Lemma advance_ok w code obs s : let m' := machine (advance x (w, code, obs) s) in
  mstep m m' -> run im pc (S n) (observed x ++ obs) m' -> (pc <= tid -> finishes code) ->
  (forall p a, w = Some (Waits p a) -> exists y k, code = Act a y k /\ (is_finish a = true -> p = PExec \/ p = PDead)) ->
  pos_ok (S n) (advance x (w, code, obs) s).
Proof.
  cbn zeta. intros Hs Hr Hf Hw. destruct (mstep_threads _ Hs) as (H1 & H2 & H3).
  constructor; [exact Hr|exact H1|exact H2|exact H3| |]; simpl.
  - intros i p a. rewrite dispatch_waits. simpl. intros Hi. destruct (decide (tid = i)) as [<-|Hne].
    + rewrite lookup_insert_eq. destruct w as [w|]; simpl in Hi; [|by rewrite lookup_delete_eq in Hi].
      rewrite lookup_insert_eq in Hi. injection Hi as ->. destruct (Hw p a eq_refl) as (y & k & -> & Hp). by exists y, k.
    + rewrite lookup_insert_ne by done. eapply po_waits; [exact Hx|].
      destruct w; simpl in Hi; [by rewrite lookup_insert_ne in Hi|by rewrite lookup_delete_ne in Hi].
  - intros i c Hi Hpi. destruct (decide (tid = i)) as [<-|Hne].
    + rewrite lookup_insert_eq in Hi. injection Hi as <-. by apply Hf.
    + rewrite lookup_insert_ne in Hi by done. by eapply po_codes.
Qed.
Lemma exited_ok s : mstep m (machine (exited x s)) -> pos_ok (S n) (exited x s).
Proof.
  intros Hs. destruct (mstep_threads _ Hs) as (H1 & H2 & H3).
  constructor; [eapply run_turn; [apply Hx|exact Hs]|exact H1|exact H2|exact H3| |apply Hx]; simpl.
  intros i p a. rewrite dispatch_waits. simpl. intros Hi. destruct (decide (tid = i)) as [<-|Hne].
  - by rewrite lookup_insert_eq in Hi.
  - rewrite lookup_insert_ne in Hi by done. by eapply po_waits.
Qed.

(** An action that is issued or goes on. *)
Lemma reply_ok (c : M St outcome) executes a y k o s : code_of P x = Act a y k ->
  turn m (let! o := c in ret (after_action a o)) -> Val o s ∈ leaves (c (shared m)) ->
  (executes = true -> is_load a = true -> forall v, o = Done v ->
    loads_value m a v (dispatch (mkMachine s (globals m) (set_wait tid None (waits m))))) ->
  (is_finish a = true -> not_done (Val o s)) ->
  pos_ok (S n) (advance x (reply executes a (code_of P x) o) s).
Proof.
  intros Hc Ht Hin Hl Hf. pose proof (step_turn m _ _ _ Ht (leaf_map c (after_action a) o _ _ Hin)) as Hs.
  fold tid in Hs. destruct o as [v|p]; cbn [reply]; simpl in Hs, Hl, Hf.
  - apply advance_ok; simpl; fold m tid; [exact Hs| | |done].
    + destruct (executes && is_load a) eqn:E; [bools; eapply run_load; [apply Hx|by apply Hl]|].
      rewrite app_nil_r. eapply run_turn; [apply Hx|exact Hs].
    + intros Hi. pose proof (code_finishes Hi) as Hfin. rewrite Hc in *. simpl in *. destruct Hfin as [Hfin|Hfin]; [by destruct (Hf Hfin)|apply Hfin].
  - apply advance_ok; simpl; fold m tid; [exact Hs| | |].
    + rewrite app_nil_r. eapply run_turn; [apply Hx|exact Hs].
    + apply code_finishes.
    + intros p' a' [= -> ->]. exists y, k. split; [done|]. exact Hf.
Qed.

Hypothesis Hcode : waits m !! tid = None ->
  match code_of P x with
  | Ret _ => True
  | Act a _ _ => allowed (shared m) tid a
  | Do c _ => own_code (shared m) c
  end.

Lemma main_returns v : waits m !! tid = None -> code_of P x = Ret v -> turn m user_done.
Proof.
  intros Hw Hc. destruct current_thread_of as (t & Ht & Hm). apply (turn_return m t); [done|done|].
  destruct (Z_le_gt_dec pc tid) as [Hi|Hi]; [apply code_finishes in Hi; by rewrite Hc in Hi|].
  rewrite Hm. apply Z.ltb_lt. lia.
Qed.

Lemma turn_ok a s : Val a s ∈ leaves (turn_of P x (shared m)) -> pos_ok (S n) (advance x a s).
Proof.
  unfold turn_of. fold m tid. destruct (waits m !! tid) as [[p b| |]|] eqn:Ew.
  - intros (o & Hin & ->)%leaf_val. destruct (po_waits _ _ Hx _ _ _ Ew) as (y & k & Hk & Hp).
    apply (reply_ok (resume p b) _ b y k); [unfold code_of; fold m tid; by rewrite Hk|by apply turn_resume|done| |].
    + intros He Hl v ->. apply load_resumed; [by destruct p|done|]. by destruct p.
    + intros Hf. apply (wp_leaf (resume p b) not_done) in Hin; [exact Hin|apply finish_resume; auto].
  - intros (w & Hin & ->)%leaf_val. pose proof (step_turn m _ _ _ (turn_shutdown m Ew) Hin) as Hs.
    apply advance_ok; simpl; fold m tid; [exact Hs|rewrite app_nil_r; eapply run_turn; [apply Hx|exact Hs]|apply code_finishes|].
    intros p a ->. by eapply end_process_leaf in Hin.
  - intros Hin. by apply list_elem_of_singleton in Hin.
  - destruct (code_of P x) as [v|b y k|X c k] eqn:Ec.
    + intros (w & Hin & ->)%leaf_val. pose proof (step_turn m _ _ _ (main_returns v Ew Ec) Hin) as Hs.
      apply advance_ok; simpl; fold m tid; [exact Hs|rewrite app_nil_r; eapply run_turn; [apply Hx|exact Hs]| |].
      * intros Hi. pose proof (code_finishes Hi) as Hf. by rewrite Ec in Hf.
      * intros p a ->. by eapply user_done_leaf in Hin.
    + intros (o & Hin & ->)%leaf_val. rewrite <- Ec.
      apply (reply_ok (action b y) _ b y k); [done|by apply turn_issue, Hcode|done| |].
      * intros _ Hl v ->. by eapply load_issued; [|apply Hcode| |].
      * intros Hf. apply (wp_leaf (action b y) not_done) in Hin; [exact Hin|by apply finish_action].
    + intros (v & Hin & ->)%leaf_val.
      assert (mstep m (dispatch (mkMachine s (globals m) (set_wait tid None (waits m))))) as Hs.
      { eapply step_turn; [by apply (turn_own m X c), Hcode|]. by apply (leaf_map c (fun _ => None) v). }
      apply advance_ok; simpl; fold m tid; [exact Hs|rewrite app_nil_r; eapply run_turn; [apply Hx|exact Hs]| |done].
      intros Hi. pose proof (code_finishes Hi) as Hf. rewrite Ec in Hf. apply Hf.
Qed.

(** The turn of the machine behind it. *)
Lemma turn_leaf w code obs s : Val (w, code, obs) s ∈ leaves (turn_of P x (shared m)) ->
  exists c, turn m c /\ Val w s ∈ leaves (c (shared m)).
Proof.
  assert (forall executes a c (d : M St outcome) o, turn m (let! o := d in ret (after_action a o)) -> Val o s ∈ leaves (d (shared m)) ->
    (w, code, obs) = reply executes a c o -> exists c, turn m c /\ Val w s ∈ leaves (c (shared m))) as Hreply.
  { intros executes a c d o Ht Hin He. exists (let! o := d in ret (after_action a o)). split; [done|].
    replace w with (after_action a o) by (destruct o; by injection He). by apply leaf_map. }
  unfold turn_of. fold m tid. destruct (waits m !! tid) as [[p b| |]|] eqn:Ew.
  - intros (o & Hin & He)%leaf_val. eapply (Hreply _ b _ (resume p b)); [by apply turn_resume|exact Hin|exact He].
  - intros (w' & Hin & [= -> _ _])%leaf_val. exists end_process. split; [by apply turn_shutdown|done].
  - intros Hin. by apply list_elem_of_singleton in Hin.
  - destruct (code_of P x) as [v|b y k|X c k] eqn:Ec.
    + intros (w' & Hin & [= -> _ _])%leaf_val. exists user_done. split; [by eapply main_returns|done].
    + intros (o & Hin & He)%leaf_val. eapply (Hreply _ b _ (action b y)); [by apply turn_issue, Hcode|exact Hin|exact He].
    + intros (v & Hin & [= -> _ _])%leaf_val. exists (run_own c). split; [by apply turn_own, Hcode|].
      by apply (leaf_map c (fun _ => None) v).
Qed.

Lemma turn_stops e s : Stop e s ∈ leaves (turn_of P x (shared m)) -> exists c, turn m c /\ Stop e s ∈ leaves (c (shared m)).
Proof.
  unfold turn_of. fold m tid. destruct (waits m !! tid) as [[p b| |]|] eqn:Ew.
  - intros Hin%leaf_stop. exists (resume_action p b). split; [by apply turn_resume|by apply leaf_stop].
  - intros Hin%leaf_stop. exists end_process. split; [by apply turn_shutdown|done].
  - destruct (mi_waits _ _ pos_minv _ _ Ew) as (t & Ht & Hd). destruct (minv_self _ _ pos_minv) as (u & Hu & _ & Hr & _).
    fold tid in Hu. rewrite Ht in Hu. injection Hu as <-. simpl in Hd. by rewrite (running_not_completed _ Hr) in Hd.
  - destruct (code_of P x) as [v|b y k|X c k] eqn:Ec; intros Hin%leaf_stop.
    + exists user_done. split; [by eapply main_returns|done].
    + exists (issue_action b y). split; [by apply turn_issue, Hcode|by apply leaf_stop].
    + exists (run_own c). split; [by apply turn_own, Hcode|by apply leaf_stop].
Qed.
End Position.
End Positions.

(** ** The leaves of an execution *)

Section Leaves.
Context `{Rand} (P : Tested).

Definition fails_in (x : Position) (e : stop) (s : St) : Prop :=
  let t := turn_of P x (shared (machine x)) in
  (Stop e s ∈ leaves t /\ e <> Exit EXIT_SUCCESS) \/
  exists s1, Stop (Exit EXIT_SUCCESS) s1 ∈ leaves t /\ Stop e s ∈ leaves (finalize s1).

(** One more turn. *)
Lemma execution_turn fuel x v : v ∈ leaves (execution P (S fuel) x) <->
  (exists a s, Val a s ∈ leaves (turn_of P x (shared (machine x))) /\ v ∈ leaves (execution P fuel (advance x a s))) \/
  (exists s s', Stop (Exit EXIT_SUCCESS) s ∈ leaves (turn_of P x (shared (machine x))) /\
     Val true s' ∈ leaves (finalize s) /\ v ∈ leaves (execution P fuel (exited x s'))) \/
  (exists obs s, v = Ended obs s /\ ends_in P x obs s) \/ (exists e s, v = Failed e s /\ fails_in x e s).
Proof.
  cbn [execution]. rewrite elem_leaves_tbind. unfold ends_in, fails_in. cbn zeta. split.
  - intros ([a s|e s] & Hin & Hv); [left; by exists a, s|right].
    destruct (decide (e = Exit EXIT_SUCCESS)) as [->|Hne].
    + apply elem_leaves_tbind in Hv. destruct Hv as ([[|] s'|e s'] & Hf & Hv); [left; by exists s, s'|right..];
        apply list_elem_of_singleton in Hv; subst v; [left|right].
      * exists (observed x), s'. split; [done|]. split; [done|]. by exists s.
      * exists e, s'. split; [done|]. right. by exists s.
    + assert (v = Failed e s) as ->.
      { destruct e as [|c| | |]; try (by apply list_elem_of_singleton in Hv).
        destruct (c =? EXIT_SUCCESS) eqn:Ec; [bools; by subst c|by apply list_elem_of_singleton in Hv]. }
      right. right. exists e, s. split; [done|]. by left.
  - intros [(a & s & Hin & Hv)|[(s & s' & Hin & Hf & Hv)|[(obs & s & -> & -> & s1 & Hin & Hf)|(e & s & -> & [[Hin Hne]|(s1 & Hin & Hf)])]]].
    + by exists (Val a s).
    + exists (Stop (Exit EXIT_SUCCESS) s). split; [done|]. apply elem_leaves_tbind. by exists (Val true s').
    + exists (Stop (Exit EXIT_SUCCESS) s1). split; [done|]. apply elem_leaves_tbind. exists (Val false s). split; [done|].
      by apply list_elem_of_singleton.
    + exists (Stop e s). split; [done|]. destruct e as [|c| | |]; try by apply list_elem_of_singleton.
      destruct (c =? EXIT_SUCCESS) eqn:Ec; [bools; by subst c|by apply list_elem_of_singleton].
    + exists (Stop (Exit EXIT_SUCCESS) s1). split; [done|]. apply elem_leaves_tbind. exists (Stop e s). split; [done|].
      by apply list_elem_of_singleton.
Qed.

Lemma reached_leaf x0 n x : reaches P x0 n x -> forall fuel v, v ∈ leaves (execution P fuel x) -> v ∈ leaves (execution P (n + fuel) x0).
Proof.
  induction 1 as [|n x a s Hr IH Hin|n x s s' Hr IH Hin Hf]; intros fuel v Hv; [done| |];
    rewrite Nat.add_succ_comm; apply IH; apply execution_turn.
  - left. by exists a, s.
  - right. left. by exists s, s'.
Qed.

Lemma leaf_reached x0 fuel : forall n x v, reaches P x0 n x -> v ∈ leaves (execution P fuel x) ->
  match v with
  | Ended obs s => exists k y, (n <= k < n + fuel)%nat /\ reaches P x0 k y /\ ends_in P y obs s
  | Failed e s => exists k y, (n <= k < n + fuel)%nat /\ reaches P x0 k y /\ fails_in y e s
  | Cut y => reaches P x0 (n + fuel) y
  end.
Proof.
  induction fuel as [|fuel IH]; intros n x v Hr Hv.
  { apply list_elem_of_singleton in Hv. subst v. by rewrite Nat.add_0_r. }
  assert (forall y, reaches P x0 (S n) y -> v ∈ leaves (execution P fuel y) -> match v with
    | Ended obs s => exists k z, (n <= k < n + S fuel)%nat /\ reaches P x0 k z /\ ends_in P z obs s
    | Failed e s => exists k z, (n <= k < n + S fuel)%nat /\ reaches P x0 k z /\ fails_in z e s
    | Cut z => reaches P x0 (n + S fuel) z end) as Hnext.
  { intros y Hy Hvy. specialize (IH (S n) y v Hy Hvy). rewrite <- Nat.add_succ_comm.
    destruct v as [obs s|e s|z]; [| |done]; destruct IH as (k & z & Hk & Hz); exists k, z; (split; [lia|done]). }
  apply execution_turn in Hv.
  destruct Hv as [(a & s & Hin & Hv)|[(s & s' & Hin & Hf & Hv)|[(obs & s & -> & He)|(e & s & -> & He)]]].
  - by apply (Hnext (advance x a s)); [eapply reaches_turn|].
  - by apply (Hnext (exited x s')); [eapply reaches_exit|].
  - exists n, x. split; [lia|done].
  - exists n, x. split; [lia|done].
Qed.

(** *** The questions of an execution *)
Lemma own_binary s X (c : M St X) : own_code s c -> binary (c s).
Proof.
  destruct 1 as [X c x Hc| | | | | | | |]; [by rewrite Hc|..];
    unfold mutex_at, cond_at, mutex_init, cond_init, new_mutex, new_cond, find_mutex, find_cond, emplace_mutex, emplace_cond,
      raw_store, cxlmc_no_backtrack_begin, cxlmc_no_backtrack_end; match goal with |- binary (?m s) => revert s; change (yes_no m); yes_no end.
Qed.

Lemma binary_bind {A B} (m : M St A) (f : A -> M St B) s : binary (m s) -> (forall a, yes_no (f a)) -> binary (bind m f s).
Proof.
  intros Hm Hf. apply binary_tbind; [done|]. eapply all_leaves_mono; [|apply all_leaves_true].
  intros [a s'|e s'] _; [apply Hf|done].
Qed.

Lemma binary_turn fuel x : respects P (S fuel) x -> binary (turn_of P x (shared (machine x))).
Proof.
  intros Hx. specialize (Hx 0%nat x ltac:(lia) (reaches_start _ _)). unfold turn_of.
  assert (yes_no end_process) as He by (unfold end_process, complete_process; yes_no).
  assert (yes_no user_done) as Hu by (unfold user_done; yes_no).
  destruct (waits (machine x) !! current (machine x)) as [[p a| |]|]; [|apply binary_bind; [apply He|done]|done|].
  - apply binary_bind; [apply yes_no_resume|done].
  - specialize (Hx eq_refl). destruct (code_of P x) as [v|a y k|X c k]; (apply binary_bind; [|done]).
    + apply Hu.
    + apply yes_no_action.
    + by apply own_binary.
Qed.

Lemma reaches_later x0 n x k y : reaches P x0 n x -> reaches P x k y -> reaches P x0 (n + k) y.
Proof.
  intros Hx. induction 1 as [|k y a s Hy IH Hin|k y s s' Hy IH Hin Hf]; [by rewrite Nat.add_0_r|..]; rewrite Nat.add_succ_r.
  - by eapply reaches_turn.
  - by eapply reaches_exit.
Qed.
Lemma respects_next fuel x y : respects P (S fuel) x -> reaches P x 1 y -> respects P fuel y.
Proof. intros Hr Hy k z Hk Hz. apply (Hr (S k)); [lia|]. by apply (reaches_later x 1 y). Qed.

Lemma binary_execution fuel : forall x, respects P fuel x -> binary (execution P fuel x).
Proof.
  induction fuel as [|fuel IH]; intros x Hx; [done|]. cbn [execution]. apply binary_tbind; [by eapply binary_turn|].
  apply all_leaves_elem, Forall_forall. intros [a s|e s] Hin.
  { apply IH. eapply respects_next; [exact Hx|]. eapply reaches_turn; [apply reaches_start|exact Hin]. }
  destruct e as [|c| | |]; try done. destruct (c =? EXIT_SUCCESS) eqn:Ec; [|done]. bools. subst c.
  apply binary_tbind; [apply yes_no_finalize|]. apply all_leaves_elem, Forall_forall. intros [[|] s'|e s'] Hf; [|done|done].
  apply IH. eapply respects_next; [exact Hx|]. eapply reaches_exit; [apply reaches_start|exact Hin|exact Hf].
Qed.
End Leaves.

(** ** Reachable positions *)

Lemma reaches_ok `{Rand} P im pc fuel n x : 0 < pc -> respects P fuel (start (machine_init im pc)) ->
  reaches P (start (machine_init im pc)) n x -> (n <= fuel)%nat -> Z.of_nat n < 2 ^ 32 - 2 -> pos_ok im pc n x.
Proof.
  intros Hpc Hresp. induction 1 as [|n x a s Hr IH Hin|n x s s' Hr IH Hin Hf]; intros Hle Hn; [by apply start_ok|..];
    specialize (IH ltac:(lia) ltac:(lia)); specialize (Hresp n x ltac:(lia) Hr).
  - apply (turn_ok P im pc Hpc n x ltac:(lia) IH Hresp). exact Hin.
  - destruct (turn_stops P im pc Hpc n x ltac:(lia) IH Hresp _ _ Hin) as (c & Hc & Hs).
    apply (exited_ok im pc Hpc n x ltac:(lia) IH). by eapply step_exit.
Qed.

(** A failure at a position: a deadlock, or a mutex that its owner locks again. *)
Definition stopped (e : stop) : Prop := e = Abort \/ exists c, e = Exit c /\ c <> EXIT_SUCCESS.

Lemma position_fails `{Rand} P im pc fuel n x e s : 0 < pc -> respects P fuel (start (machine_init im pc)) ->
  reaches P (start (machine_init im pc)) n x -> (n < fuel)%nat -> Z.of_nat n < 2 ^ 32 - 2 -> fails_in P x e s -> stopped e.
Proof.
  intros Hpc Hresp Hr Hlt Hn Hf. pose proof (reaches_ok P im pc fuel n x Hpc Hresp Hr ltac:(lia) Hn) as Hx.
  pose proof (run_reachable _ _ _ _ _ (po_run _ _ _ _ Hx)) as Hreach.
  assert (forall e s, Stop e s ∈ leaves (turn_of P x (shared (machine x))) -> benign e /\ (e = Exit EXIT_SUCCESS ->
    wp finalize (fun r => match r with Val _ _ => True | Stop e _ => e = Exit EXIT_FAILURE end) s)) as Hsafe.
  { intros e' s' Hin. destruct (turn_stops P im pc Hpc n x Hn Hx (Hresp n x Hlt Hr) _ _ Hin) as (c & Hc & Hs).
    exact (wp_leaf c _ _ _ (turn_safe pc n (machine x) c Hpc Hreach Hn Hc) Hs). }
  destruct Hf as [[Hin Hne]|(s1 & Hin & Hf)].
  - destruct (Hsafe _ _ Hin) as [Hb _]. destruct e; try done; [right; eexists; split; [done|congruence]|by left].
  - destruct (Hsafe _ _ Hin) as [_ Hb]. pose proof (wp_leaf _ _ _ _ (Hb eq_refl) Hf) as He. simpl in He. subst e. right. by exists EXIT_FAILURE.
Qed.
