(* ===== verification/Respect.v ===== *)
(** * Respect: programs that use the interface as it is meant

    [respects] is about the positions that an execution reaches.  Here it follows
    from the code alone, by a program logic for the code under test: from a state
    [s], [behaves c Q s] says that every action that [c] issues is allowed and
    everything that it does in between is own code, whatever the other threads do
    meanwhile, and that [Q] holds where it ends.  What a thread knows about the
    shared objects ([known_mutex], an initialized word) is stable under [later].
    Code is [polite] when it needs no knowledge: the functions of [Api] on aligned
    memory, [sched_yield], the operations of [Pthread] that create their object on
    first use, and [thread_start] around polite code. *)
From S2P Require Import Prelude Choice NodeStack Action ReadFrom CacheLine ThreadMemory State Scheduler ModelCore Executor ReadSound Wf ModelSafe Safety Frame Evolve Program Api Pthread Machine Trace Questions Tested.

(** ** What stays when other threads run *)
Record later (s s' : St) : Prop := mkLater {
  lt_heap : heap_ok s';
  lt_mutexes : forall m, is_Some (mutexes s !! m) -> is_Some (mutexes s' !! m);
  lt_keys : same_keys s s';
  lt_threads : forall i t, lookupZ (threads (sched s)) i = Some t ->
    exists t', lookupZ (threads (sched s')) i = Some t' /\ thr_pid t' = thr_pid t /\ is_main t' = is_main t;
  lt_grows : wr_grows (obj_to_wr (mdl s)) (obj_to_wr (mdl s'))
}.

Lemma later_refl s : heap_ok s -> later s s.
Proof. intros Hs. constructor; try done; [intros i t; by exists t|apply wr_grows_refl]. Qed.
Lemma later_trans s1 s2 s3 : later s1 s2 -> later s2 s3 -> later s1 s3.
Proof.
  intros [A1 A2 [A3 A3'] A4 A5] [B1 B2 [B3 B3'] B4 B5]. constructor; [done|auto|split; [congruence|auto]| |].
  - intros i t Ht. destruct (A4 i t Ht) as (u & Hu & H1 & H2). destruct (B4 i u Hu) as (v & Hv & H3 & H4).
    exists v. split; [done|]. split; congruence.
  - intros a Ha. by apply B5, A5.
Qed.
Lemma passed_later tid s s' : passed tid s s' -> later s s'.
Proof.
  intros P. constructor; try apply P. intros i t Ht. destruct (pa_threads _ _ _ P i t Ht) as (t' & H1 & H2 & H3 & _). by exists t'.
Qed.
Lemma later_proc s s' f : later s (on_proc f s') <-> later s s'.
Proof. split; intros []; by constructor. Qed.
#[export] Hint Resolve later_trans : later.

Section Behaves.
Context (cxl pc tid pid : Z).

(** The thread [tid] of the process [pid] runs; the first [pc] threads are the
    main threads, and the CXL memory is mapped at [cxl]. *)
Record here (s : St) : Prop := mkHere {
  hr_thread : thread_id (proc s) = tid;
  hr_process : process_id (proc s) = pid;
  hr_self : exists t, lookupZ (threads (sched s)) tid = Some t /\ thr_pid t = pid /\ is_main t = (tid <? pc);
  hr_mapping : cxl_mapping (mdl s) = cxl;
  hr_heap : heap_ok s
}.

Fixpoint behaves {A} (c : prog A) (Q : A -> St -> Prop) (s0 : St) : Prop :=
  match c with
  | Ret v => Q v s0
  | Act a _ k => forall s, later s0 s -> here s -> allowed s tid a /\
      (is_finish a = false -> forall v s', later s s' -> acted a s' -> behaves (k v) Q s')
  | Do m k => forall s, later s0 s -> here s -> own_code s m /\
      forall v s', Val v s' ∈ leaves (m s) -> later s s' -> behaves (k v) Q s'
  end.
(** Code that behaves from every state, and leaves everything to what follows. *)
Definition polite {A} (c : prog A) : Prop := forall Q s, heap_ok s -> (forall v s', later s s' -> Q v s') -> behaves c Q s.

Lemma behaves_bind {A B} (c : prog A) (f : A -> prog B) Q : forall s,
  behaves c (fun v => behaves (f v) Q) s -> behaves (pbind c f) Q s.
Proof.
  induction c as [a|a y k IH|X m k IH]; simpl; intros s0 Hc; [done| |]; intros s L Hs; destruct (Hc s L Hs) as [H1 H2];
    (split; [done|]); intros; apply IH; auto.
Qed.
Lemma behaves_mono {A} (c : prog A) (Q R : A -> St -> Prop) : (forall v s, Q v s -> R v s) -> forall s, behaves c Q s -> behaves c R s.
Proof.
  intros HQ. induction c as [a|a y k IH|X m k IH]; simpl; intros s0 Hc; [auto| |]; intros s L Hs; destruct (Hc s L Hs) as [H1 H2];
    (split; [done|]); auto.
Qed.
(** Knowledge lasts. *)
Lemma behaves_later {A} (c : prog A) (Q : A -> St -> Prop) s s' : (forall v s1 s2, Q v s1 -> later s1 s2 -> Q v s2) ->
  later s s' -> behaves c Q s -> behaves c Q s'.
Proof.
  intros HQ L. destruct c as [a|a y k|X m k]; simpl; intros Hc; [by eapply HQ|..]; intros s1 L1; apply Hc; by eapply later_trans.
Qed.
Lemma behaves_polite {A B} (c : prog A) (f : A -> prog B) Q s : heap_ok s -> polite c ->
  (forall v s', later s s' -> behaves (f v) Q s') -> behaves (pbind c f) Q s.
Proof. intros Hs Hc Hf. apply behaves_bind. by apply Hc. Qed.

Lemma polite_bind {A B} (c : prog A) (f : A -> prog B) : polite c -> (forall v, polite (f v)) -> polite (pbind c f).
Proof.
  intros Hc Hf Q s Hs HQ. apply behaves_polite; [done|done|]. intros v s' L. apply Hf; [apply L|].
  intros w s'' L'. apply HQ. by eapply later_trans.
Qed.
Lemma polite_if {A} (b : bool) (c d : prog A) : polite c -> polite d -> polite (if b then c else d).
Proof. by destruct b. Qed.
Lemma polite_ret {A} (a : A) : polite (Ret a).
Proof. intros Q s Hs HQ. by apply HQ, later_refl. Qed.
Lemma polite_act {A} a y (k : Z -> prog A) : (forall s, here s -> allowed s tid a) ->
  (is_finish a = false -> forall v, polite (k v)) -> polite (Act a y k).
Proof.
  intros Ha Hk Q s0 _ HQ s L Hs. split; [by apply Ha|]. intros Hf v s' L' _. apply (Hk Hf); [apply L'|].
  intros w s'' L''. apply HQ. eauto with later.
Qed.
Lemma polite_do {A X} (m : M St X) (k : X -> prog A) : (forall s, here s -> own_code s m) -> (forall v, polite (k v)) -> polite (Do m k).
Proof.
  intros Hm Hk Q s0 _ HQ s L Hs. split; [by apply Hm|]. intros v s' _ L'. apply Hk; [apply L'|].
  intros w s'' L''. apply HQ. eauto with later.
Qed.
Lemma polite_perform {A} (m : M St A) : (forall s, here s -> own_code s m) -> polite (perform m).
Proof. intros Hm. apply polite_do; [done|]. intros v. apply polite_ret. Qed.
Lemma polite_read {A} (m : M St A) (f : St -> A) : (forall s, here s -> m s = Leaf (Val (f s) s)) -> polite (perform m).
Proof. intros Hm. apply polite_perform. intros s Hs. apply (own_read s A m (f s)). by apply Hm. Qed.
(** Actions that need nothing from the state. *)
Definition plain (t : action_type) : bool :=
  match t with
  | THREAD_START | THREAD_YIELD | NONATOMIC_STORE | NONATOMIC_LOAD | ATOMIC_STORE | ATOMIC_LOAD | ATOMIC_RMWR
  | ATOMIC_CAS_FAILED | ATOMIC_RMW | ATOMIC_NOTIFY_ONE | ATOMIC_NOTIFY_ALL
  | CACHE_MFENCE | CACHE_SFENCE | CACHE_CLFLUSH | CACHE_CLFLUSHOPT => true
  | _ => false
  end.
Lemma plain_allowed s a : act_tid a = tid -> plain (act_type a) = true -> (is_read a || is_write a = true -> access_ok a) ->
  allowed s tid a.
Proof.
  intros Ht Hp Ha. constructor; [done| |done| | | |]; unfold plain, get_mutex in *; destruct (act_type a); try done;
    by intros [?|?].
Qed.

Definition access (loc sz : Z) : Prop :=
  (sz = 1 \/ sz = 2 \/ sz = 4 \/ sz = 8) /\ loc mod sz = 0 /\ 0 <= loc /\ loc + 8 < 2 ^ 64.

(** Code whose next step depends on the address of the CXL memory. *)
Lemma polite_mapping {A} (f : Z -> prog A) : polite (f cxl) -> polite (pbind (perform (gets get_cxl_mapping)) f).
Proof.
  intros Hf Q s Hs HQ s1 L1 H1. split; [by apply (own_read s1 Z _ (get_cxl_mapping s1))|].
  intros v s2 Hv L2. apply list_elem_of_singleton in Hv. injection Hv as -> ->. unfold get_cxl_mapping. rewrite (hr_mapping _ H1).
  apply Hf; [apply L2|]. intros w s3 L3. apply HQ. eauto with later.
Qed.
(** Code whose next step depends on the running thread's number. *)
Lemma behaves_self {A} (f : Z -> prog A) Q s : (forall s', later s s' -> behaves (f tid) Q s') ->
  behaves (pbind (perform self_tid) f) Q s.
Proof.
  intros Hf s1 L1 Hs. split; [by apply (own_read s1 Z self_tid (thread_id (proc s1)))|].
  intros v s' Hv L'. apply list_elem_of_singleton in Hv. injection Hv as -> _. rewrite (hr_thread _ Hs). apply Hf. eauto with later.
Qed.
Lemma polite_self {A} (f : Z -> prog A) : polite (f tid) -> polite (pbind (perform self_tid) f).
Proof. intros Hf Q s Hs HQ. apply behaves_self. intros s' L. apply Hf; [apply L|]. eauto with later. Qed.
Lemma polite_issue t loc val ord sz pos y : plain t = true ->
  (access loc sz \/ bool_decide (t ∈ [THREAD_YIELD; ATOMIC_CAS_FAILED; ATOMIC_NOTIFY_ONE; ATOMIC_NOTIFY_ALL; CACHE_MFENCE;
    CACHE_SFENCE; CACHE_CLFLUSH; CACHE_CLFLUSHOPT]) = true) ->
  polite (issue t loc val ord sz pos y).
Proof.
  intros Hp Ha. unfold issue, new_action. apply polite_self, polite_act; [|intros _ v; apply polite_ret]. intros s _. apply plain_allowed; [done|done|].
  unfold is_read, is_write; simpl. intros Hrw. destruct Ha as [(H1 & H2 & H3 & H4)|Ht].
  - by split; [split|split].
  - by destruct t.
Qed.

(** *** The entry points *)
Lemma polite_cxl loc : polite (is_cxl loc).
Proof. by apply (polite_read _ (fun s => mem_is_cxl s loc)). Qed.
Lemma polite_raw_load loc sz : polite (perform (raw_load loc sz)).
Proof. by apply (polite_read _ (fun s => load_bytes (memory s) loc (Z.to_nat sz))). Qed.
Lemma polite_raw_store loc sz v : polite (perform (raw_store loc sz v)).
Proof. apply polite_perform. intros s _. apply own_store. Qed.
Lemma polite_order i : 0 <= i < 7 -> polite (order_at i).
Proof.
  intros Hi. destruct (lookupZ_is_Some orders i) as [o Ho]; [exact Hi|].
  apply (polite_read _ (fun _ => o)). intros s _. by rewrite Ho.
Qed.
End Behaves.

Create HintDb polite discriminated.
#[export] Hint Resolve polite_ret polite_cxl polite_raw_load polite_raw_store polite_order : polite.
#[export] Hint Extern 2 (polite _ _ _ _ (issue _ _ _ _ _ _ _)) => apply polite_issue; [done|by auto] : polite.
Ltac polite :=
  repeat first [ match goal with |- forall _, _ => intro end | solve [auto with polite] | apply polite_bind | apply polite_if | case_if ].

Section Entries.
Context (cxl pc tid pid : Z) (sz loc : Z) (Ha : access loc sz).
Notation polite := (polite cxl pc tid pid).

Lemma polite_load pos : polite (cxlmc_load sz loc pos).
Proof. unfold cxlmc_load. polite. Qed.
Lemma polite_store v pos : polite (cxlmc_store sz loc v pos).
Proof. unfold cxlmc_store. polite. Qed.
Lemma polite_volatile_load pos : polite (cxlmc_volatile_load sz loc pos).
Proof. unfold cxlmc_volatile_load. polite. Qed.
Lemma polite_volatile_store v pos : polite (cxlmc_volatile_store sz loc v pos).
Proof. unfold cxlmc_volatile_store. polite. Qed.
Lemma polite_atomic_load i pos : 0 <= i < 7 -> polite (cxlmc_atomic_load sz loc i pos).
Proof. intros Hi. unfold cxlmc_atomic_load. polite. Qed.
Lemma polite_atomic_store v i pos : 0 <= i < 7 -> polite (cxlmc_atomic_store sz loc v i pos).
Proof. intros Hi. unfold cxlmc_atomic_store. polite. Qed.
Lemma polite_rmw op v i pos : 0 <= i < 7 -> polite (atomic_rmw op sz loc v i pos).
Proof. intros Hi. unfold atomic_rmw, model_rmw_read_action, model_rmw_action. polite. Qed.
Lemma polite_cas e d i j pos : 0 <= i < 7 -> 0 <= j < 7 -> polite (cxlmc_atomic_compare_exchange_v1 sz loc e d i j pos).
Proof.
  intros Hi Hj. unfold cxlmc_atomic_compare_exchange_v1, model_rmw_read_action, model_rmw_action, model_rmw_cas_fail_action. polite.
Qed.
End Entries.

Section Fences.
Context (cxl pc tid pid : Z) (loc : Z).
Notation polite := (polite cxl pc tid pid).
Lemma polite_sfence : polite (cxlmc_sfence loc).
Proof. unfold cxlmc_sfence, issue_default. polite. Qed.
Lemma polite_mfence : polite (cxlmc_mfence loc).
Proof. unfold cxlmc_mfence, issue_default. polite. Qed.
Lemma polite_clflush : polite (cxlmc_clflush loc).
Proof. unfold cxlmc_clflush, issue_default. polite. Qed.
Lemma polite_clflushopt : polite (cxlmc_clflushopt loc).
Proof. unfold cxlmc_clflushopt, issue_default. polite. Qed.
(** [ModelAction_thread] *)
Lemma polite_thread_action t : (is_read (ModelAction_thread tid t) || is_write (ModelAction_thread tid t)) = false ->
  plain t = true \/ (t = THREAD_FINISH /\ pc <= tid) -> polite (thread_action t).
Proof.
  intros Hrw Ht. unfold thread_action. apply polite_self, polite_act; [|intros _ v; apply polite_ret].
  intros s Hs. destruct Ht as [Ht|[-> Hi]]; [apply plain_allowed; [done|done|by rewrite Hrw]|].
  destruct (hr_self _ _ _ _ _ Hs) as (t & Ht & _ & Hm). constructor; try done. intros _. exists t. split; [done|].
  rewrite Hm. apply Z.ltb_ge. lia.
Qed.
Lemma polite_yield : polite sched_yield.
Proof.
  unfold sched_yield. apply polite_bind; [|intros _; apply polite_ret]. apply polite_thread_action; [done|by left].
Qed.
Lemma polite_sleep n : polite (sleep n).
Proof. unfold sleep. apply polite_bind; [|intros _; apply polite_ret]. apply polite_thread_action; [done|by left]. Qed.
(** A thread that is not a main thread starts, runs its function and finishes. *)
Lemma polite_thread_start body : pc <= tid -> (forall f a, polite (body f a)) -> polite (thread_start body).
Proof.
  intros Hi Hb. unfold thread_start. apply polite_bind; [apply polite_thread_action; [done|by left]|]. intros _.
  apply polite_bind; [apply (polite_read _ _ _ _ _ (fun s => default (Thread_main 0) (lookupZ (threads (sched s)) tid)))|].
  { intros s Hs. destruct (hr_self _ _ _ _ _ Hs) as (t & Ht & _).
    unfold current_thread, self_tid, get_thread, bind, gets, get. simpl. by rewrite (hr_thread _ _ _ _ _ Hs), Ht. }
  intros t. apply polite_bind; [apply Hb|]. intros r. apply polite_bind; [apply polite_perform; intros s _; apply own_return|].
  intros _. apply polite_thread_action; [done|by right].
Qed.
End Fences.
#[export] Hint Resolve polite_load polite_store polite_volatile_load polite_volatile_store polite_atomic_load
  polite_atomic_store polite_rmw polite_cas polite_sfence polite_mfence polite_clflush polite_clflushopt polite_yield
  polite_thread_start : polite.

(** ** Polite programs respect the interface *)

Record polite_program (cxl pc : Z) (P : Tested) : Prop := mkPolite {
  pp_main : forall p, 0 <= p < pc -> polite cxl pc p p (user_main P p);
  pp_thread : forall tid pid f a, pc <= tid -> polite cxl pc tid pid (thread_code P f a)
}.

Section Program.
Context `{Rand} (P : Tested) (im : Image) (pc : Z).
Hypothesis Hpc : 0 < pc.
Hypothesis HP : polite_program (img_cxl im) pc P.

Notation goes_on i t c s := (behaves (A := Z) (img_cxl im) pc i (thr_pid t) c (fun _ _ => True) s).
Record codes_behave (x : Position) : Prop := mkCodesBehave {
  cb_mapping : cxl_mapping (mdl (shared (machine x))) = img_cxl im;
  cb_codes : forall i c, codes x !! i = Some c ->
    exists t, lookupZ (threads (sched (shared (machine x)))) i = Some t /\ goes_on i t c (shared (machine x))
}.

(** What the thread does next once its action has returned. *)
Lemma continue_behaves i pid (c : prog Z) v s s' a y k : c = Act a y k -> behaves (img_cxl im) pc i pid c (fun _ _ => True) s -> here (img_cxl im) pc i pid s ->
  later s s' -> is_finish a = false -> acted a s' -> behaves (img_cxl im) pc i pid (continue c v) (fun _ _ => True) s'.
Proof. intros -> Hc Hs L Hf Ha. simpl in *. destruct (Hc s (later_refl s (hr_heap _ _ _ _ _ Hs)) Hs) as [_ Hk]. by apply Hk. Qed.

Section Position.
Context (n : nat) (x : Position).
Hypothesis Hn : Z.of_nat n < 2 ^ 32 - 2.
Hypothesis Hx : pos_ok im pc n x.
Hypothesis Hc : codes_behave x.
Let m := machine x.
Let tid := current m.
Let Hm : minv (PAST := no_past) (Z.of_nat n) m := pos_minv im pc Hpc n x Hn Hx.

Lemma running_here : exists t, lookupZ (threads (sched (shared m))) tid = Some t /\ here (img_cxl im) pc tid (thr_pid t) (shared m).
Proof.
  destruct (minv_self _ _ Hm) as (t & Ht & Hp & _). exists t. split; [done|].
  constructor; [done|by rewrite Hp| |apply Hc|apply Hm]. exists t. split; [done|]. split; [done|]. by eapply po_threads.
Qed.

Lemma code_behaves t : lookupZ (threads (sched (shared m))) tid = Some t -> here (img_cxl im) pc tid (thr_pid t) (shared m) ->
  goes_on tid t (code_of P x) (shared m).
Proof.
  intros Ht Hs. assert (forall c, polite (img_cxl im) pc tid (thr_pid t) c -> goes_on tid t c (shared m)) as Hpol by (intros c Hp; apply Hp; [apply Hs|done]).
  unfold code_of. fold m tid. destruct (codes x !! tid) as [c|] eqn:Ec.
  - destruct (cb_codes _ Hc _ _ Ec) as (u & Hu & Hb). fold m in Hu, Hb. rewrite Ht in Hu. by injection Hu as <-.
  - destruct (hr_self _ _ _ _ _ Hs) as (u & Hu & _ & Hmn). rewrite Ht in Hu. injection Hu as <-. rewrite Ht, Hmn.
    destruct (Z.ltb_spec tid pc) as [Hi|Hi]; apply Hpol.
    + apply lookupZ_Some in Ht as Hb. destruct (po_mains _ _ _ _ Hx tid ltac:(lia)) as (u & Hu & Hp).
      fold m in Hu. rewrite Ht in Hu. injection Hu as <-. rewrite Hp. apply HP. lia.
    + apply polite_thread_start; [done|]. intros f a. by apply HP.
Qed.

Lemma code_respects : waits m !! tid = None ->
  match code_of P x with
  | Ret _ => True
  | Act a _ _ => allowed (shared m) tid a
  | Do c _ => own_code (shared m) c
  end.
Proof.
  intros _. destruct running_here as (t & Ht & Hs). pose proof (code_behaves t Ht Hs) as Hp.
  pose proof (later_refl _ (hr_heap _ _ _ _ _ Hs)) as L. destruct (code_of P x) as [v|a y k|X c k]; [done|by apply Hp|by apply Hp].
Qed.

(** An action that returns is no end of the thread, and has accessed its word. *)
Lemma resumed_done p a y k s v : waits m !! tid = Some (Waits p a) -> codes x !! tid = Some (Act a y k) ->
  Val (Done v) s ∈ leaves (resume p a (shared m)) -> is_finish a = false /\ acted a s.
Proof.
  intros Hw Hk Hin. destruct (po_waits _ _ _ _ Hx _ _ _ Hw) as (y' & k' & _ & Hp). split.
  { destruct (is_finish a) eqn:Ef; [|done]. apply (wp_leaf _ not_done) in Hin; [done|apply finish_resume; auto]. }
  destruct (mi_waits _ _ Hm _ _ Hw) as (t & Ht & Hok). destruct (minv_self _ _ Hm) as (u & Hu & _ & Hr & _).
  fold tid in Hu. rewrite Ht in Hu. injection Hu as <-.
  destruct Hok as [Hd|(Hres & _)]; [by rewrite (running_not_completed _ Hr) in Hd|].
  destruct p; simpl in Hres; [|intros Hrw|intros Hrw|done].
  - by apply (wp_leaf _ (acted_post a)) in Hin; [|apply action_exec_acted].
  - unfold is_read, is_write in Hrw. by rewrite Hres in Hrw.
  - unfold may_wait in Hres. unfold is_read, is_write in Hrw. by destruct (act_type a).
Qed.
Lemma issued_done a y s v : Val (Done v) s ∈ leaves (action a y (shared m)) -> is_finish a = false /\ acted a s.
Proof.
  intros Hin. split.
  - destruct (is_finish a) eqn:Ef; [|done]. by apply (wp_leaf _ not_done) in Hin; [|apply finish_action].
  - by apply (wp_leaf _ (fun r => match r with Val (Done _) s' => acted a s' | _ => True end)) in Hin; [|apply action_acted].
Qed.

(** The code that a turn leaves to the thread. *)
Lemma answer_behaves t w code obs s : lookupZ (threads (sched (shared m))) tid = Some t -> here (img_cxl im) pc tid (thr_pid t) (shared m) ->
  later (shared m) s -> Val (w, code, obs) s ∈ leaves (turn_of P x (shared m)) -> goes_on tid t code s.
Proof.
  intros Ht Hs L. unfold turn_of. fold m tid. pose proof (code_behaves t Ht Hs) as Hp.
  assert (goes_on tid t (code_of P x) s) as Hsame by (by eapply behaves_later).
  destruct (waits m !! tid) as [[p b| |]|] eqn:Ew.
  - intros (o & Hin & He)%leaf_val. destruct (po_waits _ _ _ _ Hx _ _ _ Ew) as (y & k & Hk & _).
    destruct o as [v|q]; injection He as _ -> _; [|done]. destruct (resumed_done p b y k s v Ew Hk Hin).
    eapply (continue_behaves _ _ _ v (shared m) s b y k); try done. unfold code_of. fold m tid. by rewrite Hk.
  - intros (v & _ & He)%leaf_val. by injection He as _ -> _.
  - intros Hin. by apply list_elem_of_singleton in Hin.
  - destruct (code_of P x) as [v|b y k|X c k] eqn:Ec.
    + intros (w' & _ & He)%leaf_val. by injection He as _ -> _.
    + intros (o & Hin & He)%leaf_val. destruct o as [v|q]; injection He as _ -> _; [|done].
      destruct (issued_done b y s v Hin). by apply (continue_behaves tid (thr_pid t) (Act b y k) v (shared m) s b y k).
    + intros (v & Hin & He)%leaf_val. injection He as _ -> _. simpl in Hp.
      by apply (Hp (shared m) (later_refl _ (hr_heap _ _ _ _ _ Hs)) Hs).
Qed.

(** After the turn, the other threads still know what they knew. *)
Lemma mapping_later s ws gs f : shared (dispatch (mkMachine s gs ws)) = on_proc f s -> later (shared m) s ->
  cxl_mapping (mdl (shared (dispatch (mkMachine s gs ws)))) = img_cxl im.
Proof. intros -> L. rewrite <- (cb_mapping _ Hc). apply (lt_keys _ _ L). Qed.
Lemma codes_later s ws gs f : shared (dispatch (mkMachine s gs ws)) = on_proc f s -> later (shared m) s ->
  forall i c, codes x !! i = Some c -> exists t, lookupZ (threads (sched (shared (dispatch (mkMachine s gs ws))))) i = Some t /\
    goes_on i t c (shared (dispatch (mkMachine s gs ws))).
Proof.
  intros -> L i c Hi. destruct (cb_codes _ Hc i c Hi) as (t & Ht & Hb). destruct (lt_threads _ _ L i t Ht) as (t' & Ht' & Hp & _).
  exists t'. split; [done|]. rewrite Hp. eapply behaves_later; [done| |exact Hb]. by apply later_proc.
Qed.

Lemma advance_behaves a s : Val a s ∈ leaves (turn_of P x (shared m)) -> codes_behave (advance x a s).
Proof.
  destruct a as [[w code] obs]. intros Hin. destruct running_here as (t & Ht & Hs).
  destruct (turn_leaf P im pc Hpc n x Hn Hx code_respects w code obs s Hin) as (d & Hd & Hw).
  pose proof (wp_leaf _ _ _ _ (turn_ends _ m Hm Hn d Hd) Hw) as (Hpass & _). apply passed_later in Hpass as L.
  pose proof (answer_behaves t w code obs s Ht Hs L Hin) as Hcode.
  destruct (dispatch_shared s (globals m) (set_wait tid w (waits m))) as [f Hf].
  constructor; [by apply (mapping_later s _ _ f)|]. intros i c. simpl. fold m tid. destruct (decide (tid = i)) as [<-|Hne].
  - rewrite lookup_insert_eq. intros [= <-]. destruct (lt_threads _ _ L tid t Ht) as (t' & Ht' & Hp & _).
    exists t'. rewrite Hf, Hp. split; [done|]. eapply behaves_later; [done| |exact Hcode]. apply later_proc, later_refl, L.
  - rewrite lookup_insert_ne by done. by apply (codes_later s _ _ f).
Qed.
Lemma exited_behaves s s' : Stop (Exit EXIT_SUCCESS) s ∈ leaves (turn_of P x (shared m)) -> Val true s' ∈ leaves (finalize s) ->
  codes_behave (exited x s').
Proof.
  intros Hin Hf. destruct (turn_stops P im pc Hpc n x Hn Hx code_respects _ _ Hin) as (d & Hd & Hst).
  pose proof (wp_leaf _ _ _ _ (turn_ends _ m Hm Hn d Hd) Hst) as (_ & He). destruct (He eq_refl) as (Hw & E & Ha).
  pose proof (wp_leaf _ _ _ _ (exit_safe _ m Hm s Hw E Ha) Hf) as (Hpass & _).
  destruct (dispatch_shared s' (globals m) (<[tid := Gone]> (waits m))) as [f Hfs].
  apply passed_later in Hpass as L. constructor; [by apply (mapping_later s' _ _ f)|].
  intros i c Hi. exact (codes_later s' _ _ f Hfs L i c Hi).
Qed.
End Position.

Lemma polite_positions n x : reaches P (start (machine_init im pc)) n x -> Z.of_nat n < 2 ^ 32 - 2 ->
  pos_ok im pc n x /\ codes_behave x.
Proof.
  induction 1 as [|n x a s Hr IH Hin|n x s s' Hr IH Hin Hf]; intros Hn.
  - split; [by apply start_ok|]. constructor; [done|]. intros i c. simpl. by rewrite lookup_empty.
  - destruct (IH ltac:(lia)) as [Hx Hc]. split; [|by apply (advance_behaves n x ltac:(lia) Hx Hc)].
    apply (turn_ok P im pc Hpc n x ltac:(lia) Hx); [by apply (code_respects n x ltac:(lia))|exact Hin].
  - destruct (IH ltac:(lia)) as [Hx Hc]. split; [|by apply (exited_behaves n x ltac:(lia) Hx Hc s)].
    destruct (turn_stops P im pc Hpc n x ltac:(lia) Hx (code_respects n x ltac:(lia) Hx Hc) _ _ Hin) as (c & Ht & Hs).
    apply (exited_ok im pc Hpc n x ltac:(lia) Hx). by eapply step_exit.
Qed.

Lemma polite_respects fuel : Z.of_nat fuel < 2 ^ 32 - 2 -> respects P fuel (start (machine_init im pc)).
Proof.
  intros Hf n x Hn Hr. destruct (polite_positions n x Hr ltac:(lia)) as [Hx Hc]. by apply (code_respects n x ltac:(lia)).
Qed.
End Program.
