(* ===== verification/Clients.v ===== *)
(** * Clients: the rules of the thread functions

    The functions of [Pthread] in the program logic of [Respect].  Locking,
    waiting and initializing create their object on first use and ask nothing of
    the program; the mutex is known afterwards ([known_mutex]), and only a known
    mutex may be unlocked.  [pthread_create] needs a word that has its initial
    value for the number of the new thread, [pthread_join] a thread of the same
    process, [pthread_exit] a thread that is not a main thread.  The end of the
    file is a program with a critical section in each process. *)
From S2P Require Import Prelude Choice NodeStack Action ReadFrom CacheLine ThreadMemory State Scheduler ModelCore Executor ReadSound Wf ModelSafe Safety Frame Evolve Program Api Pthread Machine Trace Questions Tested Respect.

Section Rules.
Context (cxl pc tid pid : Z).
Notation here := (here cxl pc tid pid).
Notation behaves := (behaves cxl pc tid pid).
Notation polite := (polite cxl pc tid pid).

(** [make_ext_ptr] in the process [pid]. *)
Definition ext_ptr (p : Z) (s : St) : Z * Z := (p, if mem_is_cxl s p then -1 else pid).
Definition known_mutex (p : Z) (s : St) : Prop := is_Some (mutex_map (mdl s) !! ext_ptr p s).

Lemma cxl_later s s' p : later s s' -> mem_is_cxl s' p = mem_is_cxl s p.
Proof. intros L. unfold mem_is_cxl. by rewrite (proj1 (lt_keys _ _ L)). Qed.
Lemma known_later p s s' : known_mutex p s -> later s s' -> known_mutex p s'.
Proof. unfold known_mutex, ext_ptr. intros Hk L. rewrite (cxl_later s s' p L). by apply (lt_keys _ _ L). Qed.
Lemma here_ext_ptr p s : here s -> make_ext_ptr p s = ext_ptr p s.
Proof. intros Hs. unfold make_ext_ptr. by rewrite (hr_process _ _ _ _ _ Hs). Qed.

(** *** The objects behind the addresses *)
Lemma mutex_init_leaf p type s v s' : Val v s' ∈ leaves (mutex_init p type s) ->
  is_Some (mutex_map (mdl s') !! make_ext_ptr p s) /\ cxl_mapping (mdl s') = cxl_mapping (mdl s).
Proof.
  unfold mutex_init, new_mutex, emplace_mutex. simpl. intros Hv%list_elem_of_singleton. injection Hv as _ ->. simpl.
  destruct (mutex_map (mdl s) !! make_ext_ptr p s) eqn:Ek; simpl; [by rewrite Ek|]. by rewrite lookup_insert_eq.
Qed.
Lemma mutex_at_leaf p s v s' : Val v s' ∈ leaves (mutex_at p s) -> mutex_map (mdl s') !! make_ext_ptr p s = Some v.
Proof.
  intros Hv. apply (wp_leaf (mutex_at p) (fun r => match r with
    | Val v s' => mutex_map (mdl s') !! make_ext_ptr p s = Some v | _ => True end)) in Hv; [done|]. clear v s' Hv.
  unfold mutex_at, find_mutex. wp_step. unfold wp at 1; simpl. wp_step. unfold wp at 1; simpl.
  destruct (mutex_map (mdl s) !! make_ext_ptr p s) as [m|] eqn:Ek; [exact Ek|]. wp_step.
  eapply (wp_mono _ (fun _ => True)); [|apply wp_true]. intros [u s1|e s1] _; [|done]. wp_step. unfold wp at 1; simpl.
  destruct (mutex_map (mdl s1) !! make_ext_ptr p s) as [m|] eqn:Em; [exact Em|done].
Qed.
Lemma behaves_mutex_at {A} p (k : Z -> prog A) Q s :
  (forall m s', later s s' -> known_mutex p s' -> is_Some (mutexes s' !! m) -> behaves (k m) Q s') ->
  behaves (let* m := perform (mutex_at p) in k m) Q s.
Proof.
  intros Hk s1 L1 Hs. split; [apply own_mutex_at|]. intros m s2 Hm%mutex_at_leaf L2. rewrite (here_ext_ptr p s1 Hs) in Hm.
  assert (ext_ptr p s2 = ext_ptr p s1) as Hp by (unfold ext_ptr; by rewrite (cxl_later s1 s2 p L2)).
  apply Hk; [by eapply later_trans|unfold known_mutex; by rewrite Hp, Hm|]. by eapply (lt_heap _ _ L2).
Qed.

(** *** The actions *)
Definition default_action (t : action_type) (loc val : Z) : ModelAction :=
  ModelAction_new tid t loc val memory_order_seq_cst 1 EmptyString.
Lemma behaves_issue t loc val Q s :
  (forall s', later s s' -> here s' -> allowed s' tid (default_action t loc val)) ->
  (is_finish (default_action t loc val) = false -> forall v s', later s s' -> Q v s') ->
  behaves (issue_default t loc val) Q s.
Proof.
  intros Ha HQ. unfold issue_default, issue, new_action. apply behaves_self. intros s1 L1 s2 L2 Hs.
  split; [apply Ha; [by eapply later_trans|done]|]. intros Hf v s3 L3 _. apply HQ; [done|]. eauto with later.
Qed.

(** The actions on a mutex. *)
Lemma mutex_allowed s a : act_tid a = tid -> act_type a ∈ [ATOMIC_LOCK; ATOMIC_TRYLOCK; ATOMIC_UNLOCK; ATOMIC_WAIT] ->
  (forall m, get_mutex a = inr m -> is_Some (mutexes s !! m)) -> allowed s tid a.
Proof.
  intros Ht Hty Hm. constructor; try done; set_unfold; destruct Hty as [E|[E|[E|[E|[]]]]]; rewrite ?E; try done;
    unfold is_read, is_write; rewrite ?E; try done; by intros [?|?].
Qed.
Lemma behaves_mutex_action t loc val Q s m : t ∈ [ATOMIC_LOCK; ATOMIC_TRYLOCK; ATOMIC_UNLOCK; ATOMIC_WAIT] ->
  get_mutex (default_action t loc val) = inr m -> is_Some (mutexes s !! m) -> (forall v s', later s s' -> Q v s') ->
  behaves (issue_default t loc val) Q s.
Proof.
  intros Ht Hm Hs HQ. apply behaves_issue; [|by intros _].
  intros s' L _. apply mutex_allowed; [done|done|]. intros m'. rewrite Hm. intros [= <-]. by apply (lt_mutexes _ _ L).
Qed.
Lemma behaves_lock m Q s : is_Some (mutexes s !! m) -> (forall b s', later s s' -> Q b s') -> behaves (Mutex_lock m) Q s.
Proof.
  intros Hm HQ. unfold Mutex_lock. apply behaves_bind. apply (behaves_mutex_action _ _ _ _ _ m); [set_solver|done|done|].
  intros v s' L. by apply HQ.
Qed.

(** *** Mutexes *)
Lemma behaves_mutex_init p type Q s : (forall v s', later s s' -> known_mutex p s' -> Q v s') ->
  behaves (pthread_mutex_init p type) Q s.
Proof.
  intros HQ s1 L1 Hs. split; [apply own_mutex_init|]. intros v s2 [Hk _]%mutex_init_leaf L2. rewrite (here_ext_ptr p s1 Hs) in Hk.
  apply HQ; [by eapply later_trans|]. unfold known_mutex. replace (ext_ptr p s2) with (ext_ptr p s1); [done|].
  unfold ext_ptr. by rewrite (cxl_later s1 s2 p L2).
Qed.
Lemma behaves_mutex_lock p Q s : (forall v s', later s s' -> known_mutex p s' -> Q v s') -> behaves (pthread_mutex_lock p) Q s.
Proof.
  intros HQ. unfold pthread_mutex_lock. apply behaves_mutex_at. intros m s1 L1 Hk Hm. case_if; [by apply HQ|].
  apply behaves_bind, behaves_lock; [done|]. intros b s2 L2. apply HQ; [by eapply later_trans|by eapply known_later].
Qed.
Lemma behaves_mutex_trylock p Q s : (forall v s', later s s' -> known_mutex p s' -> Q v s') ->
  behaves (pthread_mutex_trylock p) Q s.
Proof.
  intros HQ. unfold pthread_mutex_trylock, Mutex_try_lock. apply behaves_mutex_at. intros m s1 L1 Hk Hm.
  do 2 apply behaves_bind. apply (behaves_mutex_action _ _ _ _ _ m); [set_solver|done|done|].
  intros b s2 L2. apply HQ; [by eapply later_trans|by eapply known_later].
Qed.
Lemma behaves_mutex_lock_crashed p Q s : (forall v s', later s s' -> known_mutex p s' -> Q v s') ->
  behaves (mutex_lock_crashed p) Q s.
Proof.
  intros HQ. unfold mutex_lock_crashed. apply behaves_mutex_at. intros m s1 L1 Hk Hm. case_if; [by apply HQ|].
  apply behaves_bind, behaves_lock; [done|]. intros b s2 L2. apply HQ; [by eapply later_trans|by eapply known_later].
Qed.
(** What reads the entry of a known mutex. *)
Lemma behaves_find {A} p e (f : Z -> A) Q s : known_mutex p s ->
  (forall m s', later s s' -> is_Some (mutexes s' !! m) -> Q (f m) s') ->
  behaves (perform (let! s := get in let! m := find_mutex (make_ext_ptr p s) in
    match m with Some m => ret (f m) | None => halt e end)) Q s.
Proof.
  intros Hk HQ s1 L1 Hs. pose proof (known_later p s s1 Hk L1) as [m Hm]. rewrite <- (here_ext_ptr p s1 Hs) in Hm.
  match goal with |- own_code _ ?c /\ _ => assert (c s1 = Leaf (Val (f m) s1)) as Hrun end.
  { unfold find_mutex, bind, get, gets. simpl. by rewrite Hm. }
  split; [by apply (own_read s1 A _ (f m))|]. intros v s2 Hv L2. rewrite Hrun in Hv. apply list_elem_of_singleton in Hv.
  injection Hv as -> ->. apply HQ; [done|]. by eapply (lt_heap _ _ L2).
Qed.
Lemma behaves_mutex_unlock p Q s : known_mutex p s -> (forall v s', later s s' -> Q v s') -> behaves (pthread_mutex_unlock p) Q s.
Proof.
  intros Hk HQ. unfold pthread_mutex_unlock. apply behaves_bind.
  apply (behaves_find p (UB "mutex_map->at") (fun m => m)); [done|]. intros m s1 L1 Hm.
  case_if; [by apply HQ|]. apply behaves_bind. apply (behaves_mutex_action _ _ _ _ _ m); [set_solver|done|done|].
  intros v s2 L2. apply HQ. by eapply later_trans.
Qed.
Lemma behaves_mutex_destroy p Q s : known_mutex p s -> (forall v s', later s s' -> Q v s') -> behaves (pthread_mutex_destroy p) Q s.
Proof.
  intros Hk HQ. apply (behaves_find p (UB "iter->second of mutex_map->end()") (fun _ => EINVAL)); [done|].
  intros m s1 L1 _. by apply HQ.
Qed.

(** *** Condition variables *)
Lemma behaves_cond_at {A} p (k : Z -> prog A) Q s : (forall v s', later s s' -> behaves (k v) Q s') ->
  behaves (let* v := perform (cond_at p) in k v) Q s.
Proof. intros Hk s1 L1 Hs. split; [apply own_cond_at|]. intros v s2 _ L2. apply Hk. by eapply later_trans. Qed.
Lemma polite_cond_init p : polite (pthread_cond_init p).
Proof. apply polite_perform. intros s _. apply own_cond_init. Qed.
Lemma behaves_cond_wait p q Q s : (forall v s', later s s' -> known_mutex q s' -> Q v s') -> behaves (pthread_cond_wait p q) Q s.
Proof.
  intros HQ. unfold pthread_cond_wait, cond_wait. apply behaves_mutex_at. intros m s1 L1 Hk Hm. apply behaves_cond_at. intros v s2 L2.
  do 2 apply behaves_bind. pose proof (lt_mutexes _ _ L2 m Hm) as Hm2.
  apply (behaves_mutex_action _ _ _ _ _ m); [set_solver|done|done|]. intros w s3 L3.
  apply behaves_lock; [by apply (lt_mutexes _ _ L3)|]. intros b s4 L4.
  apply HQ; [eauto 6 with later|]. eapply known_later; [exact Hk|]. eauto with later.
Qed.
Lemma behaves_notify t v Q s : t = ATOMIC_NOTIFY_ONE \/ t = ATOMIC_NOTIFY_ALL -> (forall w s', later s s' -> Q w s') ->
  behaves (issue_default t v 0) Q s.
Proof.
  intros Ht HQ. apply behaves_issue; [|by intros _]. intros s' _ _.
  apply plain_allowed; [done|by destruct Ht as [-> | ->]|by destruct Ht as [-> | ->]].
Qed.
Lemma polite_cond_signal p : polite (pthread_cond_signal p).
Proof.
  intros Q s Hs HQ. unfold pthread_cond_signal. apply behaves_cond_at. intros v s1 L1. apply behaves_bind, behaves_notify; [by left|].
  intros w s2 L2. apply HQ. eauto with later.
Qed.
Lemma polite_cond_broadcast p : polite (pthread_cond_broadcast p).
Proof.
  intros Q s Hs HQ. unfold pthread_cond_broadcast. apply behaves_cond_at. intros v s1 L1. apply behaves_bind, behaves_notify; [by right|].
  intros w s2 L2. apply HQ. eauto with later.
Qed.

(** *** Threads *)
Lemma polite_self_id : polite pthread_self.
Proof. intros Q s Hs HQ. apply (behaves_self _ _ _ _ Ret). intros s1 L1. by apply HQ. Qed.
Lemma polite_exit v : pc <= tid -> polite (pthread_exit v).
Proof.
  intros Hi Q s Hs HQ. unfold pthread_exit. apply behaves_bind, behaves_issue; [|by intros ?].
  intros s' _ Hh. destruct (hr_self _ _ _ _ _ Hh) as (t & Ht & _ & Hm). constructor; try done. intros _. exists t.
  split; [done|]. rewrite Hm. apply Z.ltb_ge. lia.
Qed.

(** A word that the checker knows, and a thread of the process. *)
Definition known_word (loc : Z) (s : St) : Prop := based (obj_to_wr (mdl s)) loc.
Definition known_thread (i : Z) (s : St) : Prop :=
  exists t, lookupZ (threads (sched s)) i = Some t /\ thr_pid t = pid.
Lemma word_later loc s s' : known_word loc s -> later s s' -> known_word loc s'.
Proof. intros Hk L. by apply (lt_grows _ _ L). Qed.
Lemma thread_later i s s' : known_thread i s -> later s s' -> known_thread i s'.
Proof. intros (t & Ht & Hp) L. destruct (lt_threads _ _ L i t Ht) as (u & Hu & Hpu & _). exists u. split; [done|congruence]. Qed.

(** A store to CXL memory makes its word known. *)
Definition in_cxl (loc : Z) : Prop := cxl <> 0 /\ cxl <= loc < u64 (cxl + CXL_MEM_SIZE).
Lemma here_cxl s loc : here s -> in_cxl loc -> mem_is_cxl s loc = true.
Proof.
  intros Hs (H0 & H1 & H2). unfold mem_is_cxl. rewrite (hr_mapping _ _ _ _ _ Hs).
  by rewrite (proj2 (Z.eqb_neq _ _) H0), (proj2 (Z.leb_le _ _) H1), (proj2 (Z.ltb_lt _ _) H2).
Qed.
Lemma behaves_store sz loc v pos Q s : access loc sz -> in_cxl loc ->
  (forall s', later s s' -> known_word loc s' -> Q tt s') -> behaves (cxlmc_store sz loc v pos) Q s.
Proof.
  intros Ha Hx HQ. unfold cxlmc_store. apply behaves_bind. intros s1 L1 Hs1.
  split; [by apply (own_read s1 bool _ (mem_is_cxl s1 loc))|]. intros b s2 Hb L2. apply list_elem_of_singleton in Hb.
  injection Hb as -> ->. rewrite (here_cxl s1 loc Hs1 Hx). apply behaves_bind. unfold issue, new_action.
  apply behaves_self. intros s3 L3 s4 L4 Hs4. split.
  { apply plain_allowed; [done|done|]. intros _. destruct Ha as (H1 & H2 & H3 & H4). by split; [split|]. }
  intros _ w s5 L5 Hw s6 L6 Hs6. split; [apply own_store|]. intros [] s7 _ L7.
  apply HQ; [eauto 10 with later|]. eapply word_later; [by apply Hw|]. eauto with later.
Qed.
Lemma behaves_create params tp func arg Q s : tp mod THREAD_ID_SIZE = 0 /\ 0 <= tp /\ tp + 8 < 2 ^ 64 -> known_word tp s ->
  (forall v s', later s s' -> Q v s') -> heap_ok s -> behaves (pthread_create params tp func arg) Q s.
Proof.
  intros (H1 & H2 & H3) Hk HQ Hs. unfold pthread_create.
  apply behaves_polite; [done|apply polite_raw_store|]. intros _ s1 L1.
  apply behaves_polite; [apply L1|apply polite_raw_store|]. intros _ s2 L2.
  apply behaves_bind, behaves_issue.
  - intros s' L _. constructor; try done; [|by intros [?|?]]. intros _. do 3 (split; [done|]).
    eapply word_later; [exact Hk|]. eauto with later.
  - intros _ v s3 L3. apply HQ. eauto with later.
Qed.
Lemma behaves_join i Q s : known_thread i s -> (forall v s', later s s' -> Q v s') -> behaves (pthread_join i) Q s.
Proof.
  intros Hk HQ. unfold pthread_join.
  assert (forall s0 (R : Thread -> St -> Prop), known_thread i s0 -> (forall t s', later s0 s' -> R t s') ->
    behaves (perform (get_thread i)) R s0) as Hget.
  { intros s0 R Hk0 HR s1 L1 _. destruct (thread_later i s0 s1 Hk0 L1) as (t & Ht & _).
    split; [by apply (own_read s1 Thread _ t), get_thread_run|]. intros u s2 _ L2. apply HR. eauto with later. }
  apply behaves_bind, Hget; [done|]. intros _ s1 L1. apply behaves_bind, behaves_issue.
  - intros s2 L2 Hs2. constructor; try done; [|by intros [?|?]]. intros _. destruct (hr_self _ _ _ _ _ Hs2) as (t & Ht & Hp & _).
    destruct (thread_later i s s2 Hk) as (u & Hu & Hpu); [by eapply later_trans|]. exists t, u.
    split; [done|]. split; [exact Hu|congruence].
  - intros _ v s2 L2. apply behaves_bind, Hget; [eapply thread_later; [exact Hk|eauto with later]|].
    intros t s3 L3. apply HQ. eauto with later.
Qed.
End Rules.

(** ** Code that is made of the functions of the interface *)

(** The calls that need no knowledge. *)
Inductive entry (pc tid : Z) : forall A : Type, prog A -> Prop :=
| en_load sz loc pos : access loc sz -> entry pc tid Z (cxlmc_load sz loc pos)
| en_store sz loc v pos : access loc sz -> entry pc tid unit (cxlmc_store sz loc v pos)
| en_volatile_load sz loc pos : access loc sz -> entry pc tid Z (cxlmc_volatile_load sz loc pos)
| en_volatile_store sz loc v pos : access loc sz -> entry pc tid unit (cxlmc_volatile_store sz loc v pos)
| en_atomic_load sz loc i pos : access loc sz -> 0 <= i < 7 -> entry pc tid Z (cxlmc_atomic_load sz loc i pos)
| en_atomic_store sz loc v i pos : access loc sz -> 0 <= i < 7 -> entry pc tid unit (cxlmc_atomic_store sz loc v i pos)
| en_rmw op sz loc v i pos : access loc sz -> 0 <= i < 7 -> entry pc tid Z (atomic_rmw op sz loc v i pos)
| en_cas sz loc e d i j pos : access loc sz -> 0 <= i < 7 -> 0 <= j < 7 ->
    entry pc tid Z (cxlmc_atomic_compare_exchange_v1 sz loc e d i j pos)
| en_sfence loc : entry pc tid Z (cxlmc_sfence loc)
| en_mfence loc : entry pc tid Z (cxlmc_mfence loc)
| en_clflush loc : entry pc tid Z (cxlmc_clflush loc)
| en_clflushopt loc : entry pc tid Z (cxlmc_clflushopt loc)
| en_backtrack_begin : entry pc tid unit (perform cxlmc_no_backtrack_begin)
| en_backtrack_end : entry pc tid unit (perform cxlmc_no_backtrack_end)
| en_yield : entry pc tid Z sched_yield
| en_sleep n : entry pc tid Z (sleep n)
| en_self : entry pc tid Z pthread_self
| en_exit v : pc <= tid -> entry pc tid Z (pthread_exit v)
| en_cond_init p : entry pc tid Z (pthread_cond_init p)
| en_cond_signal p : entry pc tid Z (pthread_cond_signal p)
| en_cond_broadcast p : entry pc tid Z (pthread_cond_broadcast p).
Arguments entry pc tid {A} c.

(** Code of the thread [tid] that has called a mutex function for the mutexes [K]
    and stored to the words [W] before.  An unlock or destroy needs a mutex of
    [K], the number of a new thread goes to a word of [W]; a main thread does not
    call [pthread_exit].  A timed wait, [cxlmc_atomic_init] and [pthread_join],
    whose argument no rule can know, are not here. *)
Inductive client (cxl pc tid : Z) : forall A : Type, gset Z -> gset Z -> prog A -> Prop :=
| cl_ret A K W (a : A) : client cxl pc tid A K W (Ret a)
| cl_entry A K W c : entry pc tid c -> client cxl pc tid A K W c
| cl_bind A B K W (c : prog B) (f : B -> prog A) : client cxl pc tid B K W c -> (forall v, client cxl pc tid A K W (f v)) ->
    client cxl pc tid A K W (let* v := c in f v)
| cl_mapping A K W (f : Z -> prog A) : client cxl pc tid A K W (f cxl) ->
    client cxl pc tid A K W (let* v := perform (gets get_cxl_mapping) in f v)
| cl_init A K W p type (f : Z -> prog A) : (forall v, client cxl pc tid A ({[p]} ∪ K) W (f v)) ->
    client cxl pc tid A K W (let* v := pthread_mutex_init p type in f v)
| cl_lock A K W p (f : Z -> prog A) : (forall v, client cxl pc tid A ({[p]} ∪ K) W (f v)) ->
    client cxl pc tid A K W (let* v := pthread_mutex_lock p in f v)
| cl_trylock A K W p (f : Z -> prog A) : (forall v, client cxl pc tid A ({[p]} ∪ K) W (f v)) ->
    client cxl pc tid A K W (let* v := pthread_mutex_trylock p in f v)
| cl_lock_crashed A K W p (f : Z -> prog A) : (forall v, client cxl pc tid A ({[p]} ∪ K) W (f v)) ->
    client cxl pc tid A K W (let* v := mutex_lock_crashed p in f v)
| cl_cond_wait A K W q p (f : Z -> prog A) : (forall v, client cxl pc tid A ({[p]} ∪ K) W (f v)) ->
    client cxl pc tid A K W (let* v := pthread_cond_wait q p in f v)
| cl_unlock A K W p (f : Z -> prog A) : p ∈ K -> (forall v, client cxl pc tid A K W (f v)) ->
    client cxl pc tid A K W (let* v := pthread_mutex_unlock p in f v)
| cl_destroy A K W p (f : Z -> prog A) : p ∈ K -> (forall v, client cxl pc tid A K W (f v)) ->
    client cxl pc tid A K W (let* v := pthread_mutex_destroy p in f v)
| cl_word A K W sz loc v pos (f : unit -> prog A) : access loc sz -> in_cxl cxl loc ->
    client cxl pc tid A K ({[loc]} ∪ W) (f tt) -> client cxl pc tid A K W (let* v := cxlmc_store sz loc v pos in f v)
| cl_create A K W params tp func arg (f : Z -> prog A) : tp mod THREAD_ID_SIZE = 0 /\ 0 <= tp /\ tp + 8 < 2 ^ 64 -> tp ∈ W ->
    (forall v, client cxl pc tid A K W (f v)) -> client cxl pc tid A K W (let* v := pthread_create params tp func arg in f v).
Arguments client cxl pc tid {A} K W c.

Section Client.
Context (cxl pc tid pid : Z).

Lemma entry_polite A (c : prog A) : entry pc tid c -> polite cxl pc tid pid c.
Proof.
  destruct 1; try (by eauto with polite).
  - apply polite_perform. intros s _. apply own_backtrack_begin.
  - apply polite_perform. intros s _. apply own_backtrack_end.
  - apply polite_self_id.
  - by apply polite_exit.
  - apply polite_cond_init.
  - apply polite_cond_signal.
  - apply polite_cond_broadcast.
Qed.

(** What such code knows. *)
Definition knows (K W : gset Z) (s : St) : Prop :=
  (forall p, p ∈ K -> known_mutex pid p s) /\ forall loc, loc ∈ W -> known_word loc s.
Lemma knows_later K W s s' : knows K W s -> later s s' -> knows K W s'.
Proof. intros [H1 H2] L. split; intros x Hx; [by eapply known_later; [apply H1|]|by eapply word_later; [apply H2|]]. Qed.
Lemma knows_mutex K W s s' p : knows K W s -> later s s' -> known_mutex pid p s' -> knows ({[p]} ∪ K) W s'.
Proof.
  intros Hk L Hp. destruct (knows_later _ _ _ _ Hk L) as [H1 H2]. split; [|done].
  intros x [->%elem_of_singleton|Hx]%elem_of_union; auto.
Qed.

(** The rules are sound. *)
Lemma client_behaves A K W (c : prog A) : client cxl pc tid K W c -> forall Q s, heap_ok s -> knows K W s ->
  (forall v s', later s s' -> Q v s') -> behaves cxl pc tid pid c Q s.
Proof.
  induction 1; intros Q s Hs Hk HQ.
  - by apply HQ, later_refl.
  - by apply entry_polite.
  - apply behaves_bind, IHclient; [done|done|]. intros v s1 L1. apply H1; [apply L1|by eapply knows_later|]. eauto with later.
  - intros s1 L1 Hs1. split; [by apply (own_read s1 Z _ (get_cxl_mapping s1))|].
    intros v s2 Hv L2. apply list_elem_of_singleton in Hv. injection Hv as -> ->. unfold get_cxl_mapping.
    rewrite (hr_mapping _ _ _ _ _ Hs1). apply IHclient; [apply L2|eapply knows_later; [exact Hk|eauto with later]|]. eauto with later.
  - apply behaves_bind, behaves_mutex_init. intros v s1 L1 Hp. apply H0; [apply L1|by eapply knows_mutex|]. eauto with later.
  - apply behaves_bind, behaves_mutex_lock. intros v s1 L1 Hp. apply H0; [apply L1|by eapply knows_mutex|]. eauto with later.
  - apply behaves_bind, behaves_mutex_trylock. intros v s1 L1 Hp. apply H0; [apply L1|by eapply knows_mutex|]. eauto with later.
  - apply behaves_bind, behaves_mutex_lock_crashed. intros v s1 L1 Hp. apply H0; [apply L1|by eapply knows_mutex|]. eauto with later.
  - apply behaves_bind, behaves_cond_wait. intros v s1 L1 Hp. apply H0; [apply L1|by eapply knows_mutex|]. eauto with later.
  - apply behaves_bind, behaves_mutex_unlock; [by apply Hk|]. intros v s1 L1. apply H1; [apply L1|by eapply knows_later|]. eauto with later.
  - apply behaves_bind, behaves_mutex_destroy; [by apply Hk|]. intros v s1 L1. apply H1; [apply L1|by eapply knows_later|]. eauto with later.
  - apply behaves_bind, behaves_store; [done|done|]. intros s1 L1 Hw. apply IHclient; [apply L1| |eauto with later].
    destruct (knows_later _ _ _ _ Hk L1) as [K1 K2]. split; [done|]. intros x [->%elem_of_singleton|Hx]%elem_of_union; auto.
  - apply behaves_bind, behaves_create; [done|by apply Hk| |done]. intros v s1 L1.
    apply H2; [apply L1|by eapply knows_later|]. eauto with later.
Qed.
Lemma client_polite A (c : prog A) : client cxl pc tid ∅ ∅ c -> polite cxl pc tid pid c.
Proof. intros Hc Q s Hs HQ. by eapply client_behaves; [exact Hc|done|split; set_solver|]. Qed.
End Client.

(** The code of all threads is made of the functions of the interface. *)
Record client_program (cxl pc : Z) (P : Tested) : Prop := mkClientProgram {
  cp_main : forall p, 0 <= p < pc -> client cxl pc p ∅ ∅ (user_main P p);
  cp_thread : forall tid f a, pc <= tid -> client cxl pc tid ∅ ∅ (thread_code P f a)
}.
Lemma client_program_polite cxl pc P : client_program cxl pc P -> polite_program cxl pc P.
Proof. intros [H1 H2]. constructor; intros; apply client_polite; auto. Qed.

(** C12: Code that is made of the functions of the interface makes a program that the
    checker can check: when the code of every thread is put together with [let*]
    from loads, stores, atomics, flushes and fences on aligned addresses, mutex
    and condition functions, yields and [pthread_create], such that a mutex is
    unlocked or destroyed only after a call that made it known, the number of a
    new thread goes to a word of CXL memory stored to before, and no main thread
    calls [pthread_exit] ([client]; no timed waits, [cxlmc_atomic_init] or joins),
    then every action that any execution issues is allowed and everything that
    the threads do in between is own code, for every order of the turns, all
    decisions and all answers; and an execution of at most 2^32 - 3 turns fails
    only by a deadlock or a mutex locked twice by its owner, never in the
    checker. *)
Theorem clients_respect `{Rand} P im pc fuel : let x0 := start (machine_init im pc) in
  0 < pc -> Z.of_nat fuel < 2 ^ 32 - 2 -> client_program (img_cxl im) pc P ->
  respects P fuel x0 /\ forall e s, Failed e s ∈ leaves (execution P fuel x0) -> stopped e.
Proof.
  cbn zeta. intros Hpc Hf HP%client_program_polite. pose proof (polite_respects P im pc Hpc HP fuel Hf) as Hr. split; [done|].
  intros e s Hin. destruct (leaf_reached P _ fuel 0 _ _ (reaches_start _ _) Hin) as (k & y & Hk & Hy & Hfail).
  eapply position_fails; [exact Hpc|exact Hr|exact Hy|lia|lia|exact Hfail].
Qed.

(** ** Programs *)

(** Code between locking and unlocking a mutex. *)
Definition critical_section {A} (p_mutex : Z) (body : prog A) : prog A :=
  let* _ := pthread_mutex_lock p_mutex in
  let* v := body in
  let* _ := pthread_mutex_unlock p_mutex in Ret v.

(** Waiting for a condition under the mutex, at most [n] times. *)
Fixpoint wait_until (p_cond p_mutex : Z) (test : prog bool) (n : nat) : prog bool :=
  match n with
  | O => Ret false
  | S n =>
      let* b := test in
      if b then Ret true else let* _ := pthread_cond_wait p_cond p_mutex in wait_until p_cond p_mutex test n
  end.

(** Process 0 sets a flag under the mutex at 72 and signals the condition variable
    at 80; process 1 waits until the flag is set. *)
Definition demo_flag : prog bool := let* v := cxlmc_load 8 64 "flag" in Ret (v =? 1).
Definition demo_waiting (p : Z) : prog Z :=
  if p =? 0 then
    let* _ := critical_section 72 (cxlmc_store 8 64 1 "flag = 1") in
    let* _ := cxlmc_mfence 0 in
    pthread_cond_signal 80
  else let* b := critical_section 72 (wait_until 80 72 demo_flag 2) in Ret (Z.b2z b).
Definition demo_clients : Tested := mkTested demo_waiting (fun _ _ => Ret 0).

Section Sections.
Context (cxl pc tid : Z).
Notation client := (client cxl pc tid).

Lemma client_critical_section {A} K W p (body : prog A) : client ({[p]} ∪ K) W body -> client K W (critical_section p body).
Proof. intros Hb. apply cl_lock. intros _. apply cl_bind; [done|]. intros v. apply cl_unlock; [set_solver|]. intros _. apply cl_ret. Qed.
Lemma client_wait_until K W q p test n : (forall K, client K W test) -> client K W (wait_until q p test n).
Proof.
  intros Ht. revert K. induction n as [|n IH]; intros K; cbn [wait_until]; [apply cl_ret|]. apply cl_bind; [apply Ht|].
  intros [|]; [apply cl_ret|]. apply cl_cond_wait. intros _. apply IH.
Qed.
End Sections.

Lemma demo_clients_client : client_program 64 2 demo_clients.
Proof.
  assert (access 64 8) as Ha by (split; [auto|done]). constructor; [|intros; apply cl_ret].
  intros p _. simpl. unfold demo_waiting. case_if.
  - apply cl_bind; [by apply client_critical_section, cl_entry, en_store|]. intros _.
    apply cl_bind; [apply cl_entry, en_mfence|]. intros _. apply cl_entry, en_cond_signal.
  - apply cl_bind; [|intros b; apply cl_ret]. apply client_critical_section, client_wait_until. intros K.
    apply cl_bind; [by apply cl_entry, en_load|]. intros v. apply cl_ret.
Qed.
Lemma demo_clients_polite : polite_program 64 2 demo_clients.
Proof. apply client_program_polite, demo_clients_client. Qed.
Lemma clients_respect_witness : let x0 := start (machine_init (mkImage ∅ 64) 2) in
  respects (H := counter_rand) demo_clients 60 x0 /\
  forall e s, Failed e s ∈ leaves (execution (H := counter_rand) demo_clients 60 x0) -> stopped e.
Proof. exact (clients_respect (H := counter_rand) demo_clients (mkImage ∅ 64) 2 60 eq_refl eq_refl demo_clients_client). Defined.

(** The waiter finds the flag clear, waits, is woken, and finds it set. *)
Definition loads_of (v : verdict) : option (list Z) := match v with Ended obs _ => Some obs.*2 | _ => None end.
Example demo_clients_run : loads_of <$> leaves (execution (H := counter_rand) demo_clients 60 (start (machine_init (mkImage ∅ 64) 2))) =
  [Some [0; 1]].
Proof. by vm_compute. Qed.
