(* ===== verification/Explore.v ===== *)
(** * Explore: the exploration of a program under test

    [main] of [src/src/init.cc] makes the shared objects and runs the loop
    [take_snapshot] ([Execution]); its child forks the processes, which run one
    execution ([Tested]) whose decisions the stack takes.  Every execution
    starts from the same state, so the stack drives one tree, and the loop visits
    each leaf of it once. *)
From S2P Require Import Prelude Choice NodeStack NodeFile Action ReadFrom CacheLine ThreadMemory State Scheduler ModelCore Executor ReadSound Recovery Wf ModelSafe Safety Flush History Frame Execution Evolve Program Api Pthread Machine Trace Questions Tested Respect Clients.

Section Child.
Context `{Rand} (P : Tested) (im : Image) (fuel : nat).

(** The child of [take_snapshot] sets the CXL mapping and forks the processes;
    [user_init] of each has run and process 0 is active. *)
Definition spawn (r : Run) : Machine :=
  let s := launch im (as_process 0 RANDOM_SEED (run_st r)) in
  mkMachine s (list_to_map ((fun p => (p, Process_init p (RANDOM_SEED + p))) <$> seqZ 0 (process_count (sched s)))) ∅.
Definition executions (r : Run) : tree verdict := execution P fuel (start (spawn r)).

(** How the child ends when an execution fails.  After a signal [main] kills the
    programs and exits with a failure.  In a deadlock one process exits, with a
    code that [main] ignores: if its exit handler finds all other threads done,
    the execution counts as any other; else the blocked processes and [main] wait
    for ever, as they do when an execution runs on: there is no status. *)
Definition after_failure (e : stop) (s : St) (r : Run) : option status * Run :=
  match e with
  | Exit _ =>
      match finalize s with
      | Leaf (Val false s') => (Some (Exited EXIT_SUCCESS), finish_last (on_st (fun _ => s') r))
      | _ => (None, on_st (fun _ => s) r)
      end
  | NoReturn _ => (None, on_st (fun _ => s) r)
  | _ => (Some (Exited EXIT_FAILURE), on_st (fun _ => s) r)
  end.
(** The last process ends the execution in its exit handler ([finish_execution]). *)
Definition child (r : Run) : option status * Run :=
  match drive (executions r) (nodestack r) with
  | inr (Ended _ s, ns) => (Some (Exited EXIT_SUCCESS), finish_last (with_nodestack ns (on_st (fun _ => s) r)))
  | inr (Failed e s, ns) => after_failure e s (with_nodestack ns r)
  | inr (Cut x, ns) => (None, with_nodestack ns (on_st (fun _ => shared (machine x)) r))
  | inl e => after_failure e (run_st r) r
  end.

(** What the child that starts in [r] does. *)
Definition visited (r : Run) : option verdict :=
  match drive (executions r) (nodestack r) with inr (v, _) => Some v | inl _ => None end.
End Child.

(** [main], from the options on: the scheduler, the model, [save_execution] with
    the number and whether the path opens, [load_nodestack]. *)
Definition first_run (processes : Z) (p : Process) (save : option (Z * bool)) (load : option (option (list Z)))
    (file : option (list Z)) : Run :=
  let r := Run_new processes p file in
  let r := match save with Some (num, opens) => save_execution num opens r | None => r end in
  match load with Some f => load_nodestack f r | None => r end.
Definition explore `{Rand} (P : Tested) (im : Image) (fuel : nat) (r : Run) : ending * list Run :=
  take_snapshot (child P im fuel) (Z.to_nat MAX_EXECUTION) (execution_num r) r.

(** ** Every execution starts from the same state *)

(** The end of an execution leaves the scheduler, the tables of windows and the
    number of processes as they were made. *)
Record restartable (pc : Z) (s : St) : Prop := mkRestartable {
  re_count : process_count (sched s) = pc;
  re_terminating : terminating (sched s) = false;
  re_tables : CacheLineStore_clear (obj_to_cl (mdl s)) = CacheLineStore_init pc
}.

Lemma clear_init pc : CacheLineStore_clear (CacheLineStore_init pc) = CacheLineStore_init pc.
Proof. unfold CacheLineStore_clear, CacheLineStore_init. by rewrite fmap_app, !fmap_replicate. Qed.

Lemma spawn_new im pc p file : spawn im (Run_new pc p file) = machine_init im pc.
Proof. done. Qed.
Lemma spawn_st im r r' : run_st r = run_st r' -> spawn im r = spawn im r'.
Proof. unfold spawn. by intros ->. Qed.

Lemma finish_last_st r : run_st (finish_last r) =
  on_mdl (with_crash_points 0) (on_sched reset_sched (reset_execution_data (run_st r))).
Proof.
  unfold finish_last. destruct (rollback_again _ && _ && _); [|done]. by destruct (_ =? _).
Qed.
Lemma restart_st im pc s : restartable pc s ->
  launch im (as_process 0 RANDOM_SEED (on_mdl (with_crash_points 0) (on_sched reset_sched (reset_execution_data s)))) =
  launch im (initial pc 0 RANDOM_SEED).
Proof.
  intros [R1 R2 R3]. destruct s as [c m mx cs next mem pr]. unfold launch, on_memory. cbn [sched mdl mutexes conds next_obj proc].
  f_equal; cbn [on_mdl on_sched as_process on_proc reset_execution_data sched mdl initial] in *.
  - destruct c as [n active l term]. unfold reset_sched, Scheduler_new, with_active, with_threads. simpl in *. by subst.
  - unfold reset_model, Model_new, with_crash_points, with_cxl_mapping. simpl. by rewrite R3.
Qed.
Lemma spawn_again im pc r : restartable pc (run_st r) -> spawn im (finish_last r) = machine_init im pc.
Proof.
  intros Hr. unfold spawn. rewrite finish_last_st, (restart_st im pc) by done. reflexivity.
Qed.

(** The tables of windows stay, through every operation on the memory. *)
Definition tables (pc : Z) : Past.
Proof.
  refine {| past := fun s => CacheLineStore_clear (obj_to_cl (mdl s)) = CacheLineStore_init pc |}.
  intros s s' He. by rewrite (el_tables _ _ He).
Defined.
Lemma tables_frame `{Rand} pc : let I := fun s => CacheLineStore_clear (obj_to_cl (mdl s)) = CacheLineStore_init pc in
  frame I (fun _ => I).
Proof. apply coarse_frame; try done. intros f s (_ & _ & _ & _ & Hc). simpl. by rewrite Hc. Qed.
#[local] Instance tables_ops pc : PastOps (PAST := tables pc).
Proof.
  intros s op r s' _ Hr He Hs. pose proof (tables_frame (H := counter_rand) pc) as F. cbv zeta in F.
  set (I := fun s => CacheLineStore_clear (obj_to_cl (mdl s)) = CacheLineStore_init pc) in *.
  assert (keeps I (fun _ => I) (run_op op)) as Hk.
  { destruct op; (apply keeps_bind; [|intros ?; apply keeps_ret]).
    - apply (keeps_build _ _ _ F).
    - apply (keeps_evict_store _ _ _ F).
    - apply (keeps_evict_clflush _ _ _ F).
    - apply (keeps_initial _ _ _ F). }
  pose proof (wp_leaf _ _ _ _ (Hk s Hs) Hr) as Hi. simpl in He. destruct r as [v s1|e s1]; simpl in *; [by injection He as <-|].
  destruct e as [|c| | |]; try done. destruct (c =? EXIT_SUCCESS); [by injection He as <-|done].
Qed.

Lemma ended_position `{Rand} P im pc fuel obs s : 0 < pc -> Z.of_nat fuel < 2 ^ 32 - 2 ->
  respects P fuel (start (machine_init im pc)) -> Ended obs s ∈ leaves (execution P fuel (start (machine_init im pc))) ->
  exists n x, (n < fuel)%nat /\ run im pc n obs (machine x) /\ restartable pc s.
Proof.
  intros Hpc Hf Hr Hin. destruct (leaf_reached P _ fuel 0 _ _ (reaches_start _ _) Hin) as (n & x & Hn & Hx & -> & s1 & Hs1 & Hs).
  assert (Z.of_nat n < 2 ^ 32 - 2) as Hn' by lia.
  pose proof (reaches_ok P im pc fuel n x Hpc Hr Hx ltac:(lia) Hn') as Hok. exists n, x. split; [lia|]. split; [apply Hok|].
  destruct (turn_stops P im pc Hpc n x Hn' Hok (Hr n x ltac:(lia) Hx) _ _ Hs1) as (c & Hc & Hst).
  assert (minv (PAST := tables pc) (Z.of_nat n) (machine x)) as Hm.
  { eapply (reachable_minv (PAST := tables pc)); [exact Hpc| |by eapply run_reachable, Hok|exact Hn'].
    intros im'. simpl. apply clear_init. }
  pose proof (wp_leaf _ _ _ _ (turn_ends (PAST := tables pc) (Z.of_nat n) (machine x) Hm Hn' c Hc) Hst) as [_ He].
  destruct (He eq_refl) as (Hw & E & Ha).
  destruct (wp_leaf _ _ _ _ (exit_safe (PAST := tables pc) (Z.of_nat n) (machine x) Hm s1 Hw E Ha) Hs) as (T & Hw' & _).
  constructor; [rewrite (pa_count _ _ _ T); apply Hok| |exact (wf_past (PAST := tables pc) _ _ Hw')].
  rewrite (pa_terminating _ _ _ T). by eapply (mi_terminating (PAST := tables pc)).
Qed.

(** ** The loop visits the leaves *)

(** The stack before an execution, and the leaves that are left. *)
Definition poised {A} (t : tree A) (ns : NodeStack) (l : list A) : Prop :=
  (ns = NodeStack_new /\ l = leaves t) \/ (ready t ns /\ l = rest t (node_list ns).*2).

Lemma poised_drive {A} (t : tree A) ns l : tree_ok 0 t -> poised t ns l ->
  exists v k ns', drive t ns = inr (v, ns') /\ l = v :: k /\
    if has_another_execution ns' then poised t (reset_execution ns') k else k = [].
Proof.
  intros Hok Hp. assert (exists v ns', drive t ns = inr (v, ns') /\ ran t ns' /\ l = v :: rest t (node_list ns').*2) as (v & ns' & Hd & Hr & ->).
  { destruct Hp as [[-> ->]|[Hrd ->]]; [by apply drive_first|by apply drive_next]. }
  exists v, (rest t (node_list ns').*2), ns'. split; [done|]. split; [done|].
  destruct (has_another_execution ns') eqn:Ea; [|by apply ran_last]. right. split; [by apply ran_ready|done].
Qed.

Lemma finish_last_run r : let again := rollback_again r && (execution_num r + 1 <=? MAX_EXECUTION) && has_another_execution (nodestack r) in
  execution_num (finish_last r) = execution_num r + 1 /\ rollback_again (finish_last r) = again /\
  (again = true -> nodestack (finish_last r) = reset_execution (nodestack r)).
Proof.
  cbn zeta. unfold finish_last. cbn [rollback_again on_st nodestack execution_num].
  destruct (rollback_again r && (execution_num r + 1 <=? MAX_EXECUTION) && has_another_execution (nodestack r)); [|done].
  by destruct (execution_num_save _ =? _).
Qed.

Section Exploration.
Context `{Rand} (P : Tested) (im : Image) (pc : Z) (fuel : nat).
Let t := execution P fuel (start (machine_init im pc)).
Hypothesis Hpc : 0 < pc.
Hypothesis Hfuel : Z.of_nat fuel < 2 ^ 32 - 2.
Hypothesis Hresp : respects P fuel (start (machine_init im pc)).

(** Where [take_snapshot] is when it starts an execution. *)
Record at_start (r : Run) (l : list verdict) : Prop := mkAtStart {
  as_spawn : spawn im r = machine_init im pc;
  as_stack : poised t (nodestack r) l;
  as_again : rollback_again r = true;
  as_num : execution_num r + lenZ l - 1 <= MAX_EXECUTION;
  as_ended : Forall (fun v => exists obs s, v = Ended obs s) l;
  as_leaves : Forall (fun v => v ∈ leaves t) l
}.

Lemma child_ends r v k : tree_ok 0 t -> at_start r (v :: k) ->
  exists r', child P im fuel r = (Some (Exited EXIT_SUCCESS), r') /\ visited P im fuel r = Some v /\
    execution_num r' = execution_num r + 1 /\ (if rollback_again r' then at_start r' k else k = []).
Proof.
  intros Hok [A1 A2 A3 A4 A5 A6]. inversion A5 as [|? ? (obs & s & ->) A5']; subst. inversion A6 as [|? ? Hin A6']; subst.
  destruct (poised_drive t _ _ Hok A2) as (v & l & ns' & Hd & [= <- <-] & Hnext).
  unfold child, visited, executions. rewrite A1. fold t. rewrite Hd.
  set (r1 := with_nodestack ns' (on_st (fun _ => s) r)). destruct (finish_last_run r1) as (F1 & F2 & F3).
  pose proof (spawn_again im pc r1) as Hsp. generalize dependent (finish_last r1). intros r2 F1 F2 F3 Hsp.
  exists r2. split; [done|]. split; [done|]. split; [exact F1|]. rewrite F2.
  change (rollback_again r1) with (rollback_again r) in *. change (execution_num r1) with (execution_num r) in *.
  change (nodestack r1) with ns' in *. rewrite A3 in *. destruct (has_another_execution ns') eqn:Ea.
  - assert (lenZ (Ended obs s :: k) = 1 + lenZ k) as Hlen by (unfold lenZ; simpl; lia).
    assert (1 <= lenZ k) as Hk.
    { destruct (poised_drive t _ _ Hok Hnext) as (v & l & _ & _ & -> & _). unfold lenZ; simpl; lia. }
    rewrite (proj2 (Z.leb_le _ _)) in * by lia. simpl in *. constructor; [|by rewrite F3|exact F2|lia|done|done].
    apply Hsp. by destruct (ended_position P im pc fuel obs s Hpc Hfuel Hresp Hin) as (_ & _ & _ & _ & Hre).
  - by rewrite andb_false_r.
Qed.

Lemma loop_visits fuel' : forall r l, tree_ok 0 t -> at_start r l -> (length l <= fuel')%nat ->
  exists r' rs, take_snapshot (child P im fuel) fuel' (execution_num r) r = (Finished r', rs) /\
    visited P im fuel <$> rs = Some <$> l.
Proof.
  induction fuel' as [|fuel' IH]; intros r l Hok Hr Hl; destruct (poised_drive t _ _ Hok (as_stack _ _ Hr)) as (v & k & _ & _ & -> & _);
    simpl in Hl; [lia|]. destruct (child_ends r v k Hok Hr) as (r' & Hc & Hv & Hn & Hnext).
  cbn [take_snapshot]. rewrite Hc. cbn [failed]. change (negb (EXIT_SUCCESS =? 0)) with false. cbn iota.
  unfold wait_for_next_execution. rewrite Hn. destruct (rollback_again r') eqn:Eb.
  - pose proof (as_num _ _ Hnext) as Hm. destruct (poised_drive t _ _ Hok (as_stack _ _ Hnext)) as (v' & k' & _ & _ & Hk & _).
    assert (execution_num r + 1 <= MAX_EXECUTION) as Hmax by (rewrite Hn, Hk in Hm; unfold lenZ in Hm; simpl in Hm; lia).
    rewrite (proj2 (Z.ltb_ge _ _)) by lia. rewrite (proj2 (Z.ltb_ge _ _)) by lia. cbn [negb orb].
    destruct (IH r' k Hok Hnext ltac:(lia)) as (r2 & rs & Ht & Hvs). rewrite Hn in Ht. rewrite Ht.
    exists r2, (r :: rs). split; [done|]. rewrite !fmap_cons. by rewrite Hv, Hvs.
  - rewrite orb_true_r, Hnext. exists r', [r]. split; [done|]. rewrite !fmap_cons. by rewrite Hv.
Qed.
End Exploration.

Lemma run_starts `{Rand} P im pc fuel r l : let t := execution P fuel (start (machine_init im pc)) in
  0 < pc -> Z.of_nat fuel < 2 ^ 32 - 2 -> respects P fuel (start (machine_init im pc)) ->
  tree_ok 0 t -> at_start P im pc fuel r l -> 1 <= execution_num r ->
  exists r' rs, explore P im fuel r = (Finished r', rs) /\ visited P im fuel <$> rs = Some <$> l.
Proof.
  cbn zeta. intros Hpc Hf Hresp Hok Hr Hn. unfold explore. eapply (loop_visits P im pc fuel Hpc Hf Hresp); [exact Hok|exact Hr|].
  pose proof (as_num _ _ _ _ _ _ Hr) as Hm. unfold lenZ, MAX_EXECUTION in *. lia.
Qed.

Lemma few_leaves {A} (t : tree A) : binary t -> lenZ (leaves t) <= MAX_EXECUTION -> tree_ok 0 t.
Proof. intros Hb Hl. apply binary_tree_ok; [done|]. unfold MAX_EXECUTION in Hl. lia. Qed.

(** [main]'s loop visits every leaf, from a fresh start. *)
Lemma explores_leaves `{Rand} P im pc fuel p save file : let t := execution P fuel (start (machine_init im pc)) in
  0 < pc -> Z.of_nat fuel < 2 ^ 32 - 2 -> respects P fuel (start (machine_init im pc)) ->
  Forall (fun v => exists obs s, v = Ended obs s) (leaves t) -> lenZ (leaves t) <= MAX_EXECUTION ->
  exists r' rs, explore P im fuel (first_run pc p save None file) = (Finished r', rs) /\
    visited P im fuel <$> rs = Some <$> leaves t.
Proof.
  cbn zeta. intros Hpc Hf Hresp He Hl. pose proof (few_leaves _ (binary_execution P fuel _ Hresp) Hl) as Hok.
  apply (run_starts P im pc); try done.
  - constructor; destruct save as [[num opens]|]; try done; try (by left); simpl; try lia; by apply Forall_forall.
  - by destruct save as [[num opens]|].
Qed.

(** ** Properties *)

(** C1: The checker explores a program completely, and what it reports is sound.
    For a program of any number of processes that respects the interface and
    whose executions end (within the bound on turns, without a deadlock, at
    most [MAX_EXECUTION] of them), [main]'s loop ends, and its executions are the
    leaves of the tree of decisions, each visited once and in order.  Each of
    them is a run of the machine whose loads one history of the memory explains,
    under every choice of persistence times that the windows leave open if the
    flushes of the history find no store of their line lost. *)
Theorem exploration_complete `{Rand} P im pc fuel p save file :
  let x0 := start (machine_init im pc) in let t := execution P fuel x0 in
  0 < pc -> Z.of_nat fuel < 2 ^ 32 - 2 -> respects P fuel x0 ->
  Forall (fun v => exists obs s, v = Ended obs s) (leaves t) -> lenZ (leaves t) <= MAX_EXECUTION ->
  (exists r' rs, explore P im fuel (first_run pc p save None file) = (Finished r', rs) /\
     visited P im fuel <$> rs = Some <$> leaves t) /\
  forall obs s, Ended obs s ∈ leaves t ->
    exists n x l, reaches P x0 n x /\ ends_in P x obs s /\
      explains (launch im (initial pc 0 RANDOM_SEED)) obs (shared (machine x)) l.
Proof.
  cbn zeta. intros Hpc Hf Hresp He Hl. split.
  - by apply explores_leaves.
  - intros obs s Hin. destruct (leaf_reached P _ fuel 0 _ _ (reaches_start _ _) Hin) as (n & x & Hn & Hx & Hend).
    pose proof (reaches_ok P im pc fuel n x Hpc Hresp Hx ltac:(lia) ltac:(lia)) as Hok'.
    destruct (run_history im pc n _ _ Hpc (po_run _ _ _ _ Hok') ltac:(lia)) as [l Hl'].
    exists n, x, l. split; [done|]. split; [done|]. by rewrite (proj1 Hend).
Qed.

(** C3: The tree of an execution is what the machine does: for a program that
    respects the interface, the executions that end within the bound are exactly
    the runs of the machine, of fewer turns, in which every thread runs its code
    and after which the last process ends; they are runs with the loads that the
    program has seen, so that [run_explained] speaks of them.  An execution that
    fails has met a deadlock or a mutex locked twice by its owner; it never fails
    in the checker. *)
Theorem execution_leaves `{Rand} P im pc fuel : let x0 := start (machine_init im pc) in
  0 < pc -> respects P fuel x0 -> Z.of_nat fuel < 2 ^ 32 - 2 ->
  (forall obs s, Ended obs s ∈ leaves (execution P fuel x0) <->
     exists n x, (n < fuel)%nat /\ reaches P x0 n x /\ ends_in P x obs s) /\
  (forall n x, (n <= fuel)%nat -> reaches P x0 n x -> run im pc n (observed x) (machine x)) /\
  (forall e s, Failed e s ∈ leaves (execution P fuel x0) -> stopped e).
Proof.
  cbn zeta. intros Hpc Hresp Hfuel. split; [|split].
  - intros obs s. split.
    + intros Hin. destruct (leaf_reached P _ fuel 0 _ _ (reaches_start _ _) Hin) as (k & y & Hk & Hy). exists k, y. by split; [lia|].
    + intros (n & x & Hn & Hr & He). replace fuel with (n + S (fuel - S n))%nat by lia. eapply reached_leaf; [exact Hr|].
      apply execution_turn. right. right. left. by exists obs, s.
  - intros n x Hn Hr. eapply po_run. apply (reaches_ok P im pc fuel n x Hpc Hresp Hr); lia.
  - intros e s Hin. destruct (leaf_reached P _ fuel 0 _ _ (reaches_start _ _) Hin) as (k & y & Hk & Hy & Hf).
    eapply position_fails; [exact Hpc|exact Hresp|exact Hy|lia|lia|exact Hf].
Qed.

(** C4: An exploration that was saved goes on where it was: for a program that
    respects the interface and whose executions end, started with the fresh file
    that [save_state] wrote (its numbers fit the 8 and 16 bits of the format, and
    the count of executions stays at most [MAX_EXECUTION]), [main] executes
    exactly the leaves that the saved stack had left, and ends. *)
Theorem exploration_resumes `{Rand} P im pc fuel p save file num ns :
  let x0 := start (machine_init im pc) in let t := execution P fuel x0 in
  0 < pc -> Z.of_nat fuel < 2 ^ 32 - 2 -> respects P fuel x0 ->
  Forall (fun v => exists obs s, v = Ended obs s) (leaves t) ->
  ready t ns -> fits ns -> 1 <= num -> num + lenZ (rest t (node_list ns).*2) - 1 <= MAX_EXECUTION ->
  lenZ (leaves t) <= 2 ^ 31 ->
  exists r' rs, explore P im fuel (first_run pc p save (Some (save_state num true ns None)) file) = (Finished r', rs) /\
    visited P im fuel <$> rs = Some <$> rest t (node_list ns).*2.
Proof.
  intros x0 t Hpc Hf Hresp He Hrd Hfit Hn Hmax Hl.
  assert (tree_ok 0 t) as Hok by (apply binary_tree_ok; [by apply binary_execution|lia]).
  set (left := rest t (node_list ns).*2) in *.
  destruct (poised_drive t ns left Hok) as (b & k & _ & _ & Hb & _); [by right|].
  assert (num < 2 ^ 31 - 1) as Hnum by (rewrite Hb in Hmax; unfold lenZ, MAX_EXECUTION in Hmax; simpl in Hmax; lia).
  assert (Forall (fun v => v ∈ leaves t) left) as Hin.
  { apply Forall_forall. intros v Hv. destruct Hrd as [[y Hy] _]. by eapply rest_leaves. }
  set (r := match save with Some (n, opens) => save_execution n opens (Run_new pc p file) | None => Run_new pc p file end).
  destruct (loaded_ready t num ns (nodestack r) Hrd Hfit) as (ns1 & Hs & Hrd1 & Hn1);
    [lia|by destruct save as [[? ?]|]|].
  assert (first_run pc p save (Some (save_state num true ns None)) file = with_nodestack ns1 (with_execution_num num r)) as ->.
  { unfold first_run. fold r. unfold load_nodestack. rewrite Hs. unfold swrap. rewrite Z.mod_small by lia. do 2 f_equal. lia. }
  apply (run_starts P im pc); try done. constructor; simpl; try done.
  - by destruct save as [[? ?]|].
  - right. by rewrite Hn1.
  - by destruct save as [[? ?]|].
  - rewrite Forall_forall in *. intros v Hv. by apply He, Hin.
Qed.

(** Process 0 stores 7 and then 9 and fences; process 1 lets it and loads the word
    twice.  Process 0 may crash at the load, and then 9 may be lost. *)
Definition demo_main (p : Z) : prog Z :=
  if p =? 0 then
    let* _ := cxlmc_store 8 64 7 "x = 7" in
    let* _ := cxlmc_store 8 64 9 "x = 9" in
    cxlmc_mfence 0
  else
    let* _ := sched_yield in
    let* v := cxlmc_load 8 64 "x" in
    let* w := cxlmc_load 8 64 "x" in Ret (v + w).
Definition demo_program : Tested := mkTested demo_main (fun _ _ => Ret 0).
Definition demo_image : Image := mkImage ∅ 64.
#[local] Existing Instance counter_rand.
#[local] Notation demo_execution := (execution demo_program 40 (start (machine_init demo_image 2))).

Lemma demo_polite : polite_program 64 2 demo_program.
Proof.
  assert (access 64 8) as Ha by (split; [auto|done]). constructor; [|intros; apply polite_ret].
  intros p _. simpl. unfold demo_main. polite.
Qed.
Lemma demo_respects : respects demo_program 40 (start (machine_init demo_image 2)).
Proof. apply polite_respects; [lia|apply demo_polite|lia]. Qed.
Lemma demo_seen : loads_of <$> leaves demo_execution = [Some [7; 7]; Some [9; 9]; Some [9; 9]].
Proof. by vm_compute. Qed.
Lemma demo_ended : Forall (fun v => exists obs s, v = Ended obs s) (leaves demo_execution).
Proof.
  assert (Forall (fun o => is_Some o) (loads_of <$> leaves demo_execution)) as Hs by (rewrite demo_seen; repeat (constructor; [by eexists|]); constructor).
  rewrite Forall_fmap in Hs. eapply Forall_impl; [exact Hs|]. intros [obs s|e s|x] [l Hl]; [by exists obs, s|done|done].
Qed.
Lemma demo_count : lenZ (leaves demo_execution) = 3.
Proof. unfold lenZ. rewrite <- (length_fmap loads_of), demo_seen. done. Qed.

Lemma exploration_complete_witness :
  exists r' rs, explore demo_program demo_image 40 (first_run 2 (Process_init 0 0) None None None) = (Finished r', rs) /\
    visited demo_program demo_image 40 <$> rs = Some <$> leaves demo_execution.
Proof.
  refine (proj1 (exploration_complete demo_program demo_image 2 40 (Process_init 0 0) None None
    eq_refl eq_refl demo_respects demo_ended _)).
  rewrite demo_count. done.
Defined.

Lemma execution_leaves_witness : exists obs s n x, obs.*2 = [7; 7] /\ (n < 40)%nat /\
  reaches demo_program (start (machine_init demo_image 2)) n x /\ ends_in demo_program x obs s.
Proof.
  assert (exists v, Some [7; 7] = loads_of v /\ v ∈ leaves demo_execution) as (v & Hv & Hin).
  { apply list_elem_of_fmap. rewrite demo_seen. left. }
  destruct v as [obs s|e s|x]; [|discriminate Hv|discriminate Hv].
  destruct (proj1 (proj1 (execution_leaves demo_program demo_image 2 40 eq_refl demo_respects eq_refl) obs s) Hin)
    as (n & x & Hn & Hx & He).
  exists obs, s, n, x. split; [by injection Hv|]. split; [exact Hn|]. split; [exact Hx|exact He].
Defined.

(** The stack after the first execution, saved. *)
Definition demo_saved : NodeStack := mkNS [(0%nat, mkNode 0 2); (1%nat, mkNode 0 2)] None (Some 1%nat) (-1) 2%nat.
Lemma demo_saved_eq : match drive demo_execution NodeStack_new with inr (_, ns) => reset_execution ns = demo_saved | inl _ => False end.
Proof. by vm_compute. Qed.
Lemma demo_saved_ready : ready demo_execution demo_saved /\ 1 + lenZ (rest demo_execution (node_list demo_saved).*2) = 3.
Proof.
  pose proof demo_saved_eq as Hs. pose proof demo_count as Hc.
  destruct (drive_first demo_execution) as (a & ns & Hd & Hr & Hl).
  { apply few_leaves; [apply binary_execution, demo_respects|]. by rewrite Hc. }
  rewrite Hd in Hs. rewrite Hl in Hc. rewrite <- Hs. split.
  - apply ran_ready; [exact Hr|]. destruct (has_another_execution ns) eqn:Ea; [done|].
    rewrite (ran_last _ _ Hr Ea) in Hc. discriminate Hc.
  - change (node_list (reset_execution ns)) with (node_list ns). unfold lenZ in *. cbn [length] in Hc. lia.
Qed.
Lemma demo_saved_fits : fits demo_saved.
Proof. split; [repeat constructor; simpl; lia|]. split; [done|]. simpl. set_solver. Qed.

Lemma exploration_resumes_witness : exists r' rs,
  explore demo_program demo_image 40 (first_run 2 (Process_init 0 0) None (Some (save_state 2 true demo_saved None)) None) = (Finished r', rs) /\
    visited demo_program demo_image 40 <$> rs = Some <$> rest demo_execution (node_list demo_saved).*2.
Proof.
  pose proof demo_saved_ready as [Hr Hl].
  refine (exploration_resumes demo_program demo_image 2 40 (Process_init 0 0) None None 2 demo_saved
    eq_refl eq_refl demo_respects demo_ended Hr demo_saved_fits _ _ _); [lia|unfold MAX_EXECUTION; lia|].
  rewrite demo_count. lia.
Defined.
