(* ===== verification/Bounded.v ===== *)
(** * Bounded: code that ends makes executions that end

    The exploration runs every execution to its end.  Here it is shown that there
    is one: when the code of every thread takes a bounded number of steps on
    every path ([bounded]), no execution takes more than an explicit number of
    turns, for every order of the turns, all decisions and all answers, also
    where threads wait for each other.  Every turn spends some of the [budget] of
    its thread, except that a thread whose mutex is taken again goes back to
    sleep: then fewer threads can run.  Together with [position_fails] every
    execution ends with the last process, or in a deadlock. *)
From S2P Require Import Prelude Choice NodeStack Action ReadFrom CacheLine ThreadMemory State Scheduler ModelCore Executor ReadSound Wf ModelSafe Safety Frame Evolve Program Api Pthread Machine Trace Questions Tested Respect Clients.

#[export] Instance point_eq_dec : EqDecision point.
Proof. solve_decision. Defined.

(** ** What an action leaves of the thread table *)

(** Threads that do not wait still do not wait. *)
Definition tame (l l' : list Thread) : Prop := lenZ l' = lenZ l /\
  forall i t t', lookupZ l i = Some t -> lookupZ l' i = Some t' -> thr_state t <> THREAD_BLOCKED -> thr_state t' <> THREAD_BLOCKED.

Lemma tame_update i f l : (forall t, thr_state t <> THREAD_BLOCKED -> thr_state (f t) <> THREAD_BLOCKED) -> tame l (update_at i f l).
Proof.
  intros Hf. split; [unfold lenZ; by rewrite length_update_at|]. intros j t t' Ht. rewrite lookupZ_update_at, Ht.
  case_decide; intros [= <-]; auto.
Qed.
Lemma tame_wake v c : tame (threads c) (threads (wake_all_threads_waiting_on v c)).
Proof.
  split; [apply wake_all_length|]. intros i t t' Ht. rewrite wake_all_lookup, Ht. intros [= <-]. by case_bool_decide.
Qed.
Lemma tame_wake_one i v c : tame (threads c) (threads (wake_thread_waiting_on i v c)).
Proof.
  unfold wake_thread_waiting_on. destruct (scan_others _ _ _); [by apply tame_update|].
  split; [done|]. intros j t t' Ht Ht'. rewrite Ht in Ht'. by injection Ht' as <-.
Qed.
Lemma tame_crash pid c : tame (threads c) (threads (process_crash_sched pid c)).
Proof.
  unfold process_crash_sched. generalize (seqZ 0 (lenZ (threads c))) as ids. intros ids. split.
  - revert c. induction ids as [|i ids IH]; intros c; simpl; [done|]. by rewrite IH, crash_thread_length.
  - intros i t t' Ht Ht' Hb. destruct (crash_threads_unblocked pid ids c i t Ht Hb) as (u & Hu & Hs). congruence.
Qed.

Section Table.
Context `{Rand} (P D : list Thread -> Prop).
Hypothesis HP : forall l l', tame l l' -> P l -> P l'.
Hypothesis HD : forall l, P l -> D l.

Definition holds (s : St) : Prop := P (threads (sched s)).
Definition departs (e : stop) (s : St) : Prop := e = Exit EXIT_SUCCESS -> D (threads (sched s)).

Lemma holds_update i f s : (forall t, thr_state t <> THREAD_BLOCKED -> thr_state (f t) <> THREAD_BLOCKED) ->
  holds s -> holds (on_thread i f s).
Proof. intros Hf. apply HP. by apply tame_update. Qed.
Lemma table_base (E : stop -> St -> Prop) : (forall e s, mishap e -> E e s) -> (forall s, holds s -> E (Exit EXIT_SUCCESS) s) ->
  base_frame (fun _ => True) holds E.
Proof.
  intros He Hx. constructor; try done.
  - intros e s Hm _. by apply He.
  - intros i f s Hf. apply holds_update. intros t. by rewrite (proj1 (proj2 (Hf t))).
  - intros v s _. apply HP, tame_wake.
  - intros i v s _. apply HP, tame_wake_one.
  - intros s Hs. apply Hx. eapply HP, Hs. apply tame_crash.
Qed.
Lemma table_frame : frame holds departs.
Proof.
  constructor; [|by intros e s He _ ?]. apply table_base; [by intros e s Hm ->|]. intros s Hs _. by apply HD.
Qed.
Let F := table_frame.
Lemma holds_pending p s : holds s -> holds (on_thread (thread_id (proc s)) (set_pending p) s).
Proof. by apply holds_update. Qed.
Lemma holds_active n s : holds s -> holds (on_sched (fun _ => with_active n (sched s)) s).
Proof. done. Qed.
Lemma table_yield : keeps holds departs yield.
Proof. apply (keeps_yield _ _ _ F), holds_active. Qed.

(** The program's own code, and the end of its process. *)
Lemma holds_same s s' : sched s' = sched s -> thread_id (proc s') = thread_id (proc s) -> holds s -> holds s'.
Proof. unfold holds. by intros ->. Qed.
Lemma holds_completed i s : holds s -> holds (on_thread i (set_state THREAD_COMPLETED) s).
Proof. by apply holds_update. Qed.
Lemma table_own s X (c : M St X) : own_code s c -> holds s ->
  wp c (fun r => match r with Val _ s' => holds s' | Stop e s' => departs e s' end) s.
Proof. apply (frame_own _ _ _ F s X c holds_same). Qed.
Lemma table_end : keeps holds departs end_process.
Proof. exact (frame_end _ _ _ F (fun s s' H1 H2 _ => holds_same s s' H1 H2) holds_completed (fun s Hs _ => HD _ Hs)). Qed.
Lemma table_done : keeps holds departs user_done.
Proof. exact (frame_done _ _ _ F (fun s s' H1 H2 _ => holds_same s s' H1 H2) holds_completed (fun s Hs _ => HD _ Hs) table_yield). Qed.
End Table.

(** The table keeps its length, but for a thread that [PTHREAD_CREATE] adds. *)
Definition is_create (a : ModelAction) : Z := Z.b2z (bool_decide (act_type a = PTHREAD_CREATE)).

Section Length.
Context `{Rand} (n k : Z) (Hk : 0 <= k).
Definition sized (m : Z) (l : list Thread) : Prop := lenZ l = m.
Definition sized_upto (l : list Thread) : Prop := n <= lenZ l <= n + k.
Notation size_is m := (holds (sized m)).
Notation E := (departs sized_upto).

Lemma sized_tame m l l' : tame l l' -> sized m l -> sized m l'.
Proof. intros [Hl _] <-. exact Hl. Qed.
Lemma sized_frame m : n <= m <= n + k -> frame (size_is m) E.
Proof. intros Hm. apply table_frame; [apply sized_tame|]. unfold sized, sized_upto. lia. Qed.
Lemma sized_state m i ts s : size_is m s -> size_is m (on_thread i (set_state ts) s).
Proof. unfold holds, sized, lenZ. simpl. by rewrite length_update_at. Qed.

Let F := sized_frame n ltac:(lia).
Lemma sized_wait i : keeps (size_is n) E (thread_wait i).
Proof. by apply (keeps_wait _ _ _ F (fun _ => True)); [apply holds_active|intros j ts s _; apply sized_state|]. Qed.
Lemma sized_finalize : keeps (size_is n) E finalize.
Proof. by apply (keeps_finalize _ _ _ F (fun _ => True)); [apply holds_active|intros j ts s _; apply sized_state|]. Qed.
(** [execute] without a new thread, and the actions that go on with it. *)
Lemma sized_execute a : act_type a <> PTHREAD_CREATE ->
  moves (size_is n) E (execute a) (progress_post (size_is n) (fun p s => p <> PExec /\ size_is n s)).
Proof.
  intros Ha. apply (moves_execute _ _ _ F); try done.
  - intros p Hp. apply moves_keeps; [apply sized_wait|]. intros [|] s Hs; [|exact Hs]. split; [|exact Hs]. by intros ->.
  - intros _. apply moves_after; [apply sized_finalize|]. intros [|]; [by apply moves_ret|]. intros s Hs. by apply (fr_stop _ _ _ F).
Qed.
Lemma sized_lock_loop a m : keeps (size_is n) E (lock_loop a m).
Proof.
  unfold lock_loop, get_mutex_obj, get_thread. apply keeps_bind; [apply keeps_bind; [apply keeps_get|]; intros s; by apply (keeps_some _ _ _ F)|].
  intros mx. apply keeps_bind.
  - destruct (owner mx) as [o|]; [|apply keeps_ret]. apply keeps_bind; [|intros t; apply keeps_ret].
    apply keeps_bind; [apply keeps_get|]. intros s. by apply (keeps_some _ _ _ F).
  - intros [c|]; (apply keeps_bind; [|]).
    + intros s Hs. by apply (set_owner_keeps _ _ _ F); [left|].
    + intros _. apply keeps_ret.
    + apply sized_wait.
    + intros [|]; [apply keeps_ret|by apply (keeps_stop _ _ _ F)].
Qed.
Lemma sized_end a : keeps (size_is n) E (action_end a).
Proof. apply (keeps_action_end _ _ _ F), holds_pending, sized_tame. Qed.
Lemma sized_resume p a : p <> PExec -> keeps (size_is n) E (resume p a).
Proof.
  intros Hp. destruct p; simpl; [done| |apply sized_end|by apply (keeps_stop _ _ _ F)].
  apply keeps_bind; [apply (keeps_get_mutex _ _ _ F)|]. intros m. apply keeps_bind; [apply sized_lock_loop|].
  intros [c|q]; [apply sized_end|apply keeps_ret].
Qed.
End Length.

Section Growth.
Context `{Rand} (n : Z) (a : ModelAction).
Let k := is_create a.
Notation size_is m := (holds (sized m)).
Notation E := (departs (sized_upto n k)).
Definition grown (o : outcome) (s : St) : Prop :=
  match o with Done _ => size_is (n + k) s | Wait p => p <> PExec /\ size_is n s end.

Lemma is_create_bounds : 0 <= k.
Proof. unfold k, is_create. by case_bool_decide. Qed.
Let F := sized_frame n k n ltac:(pose proof is_create_bounds; lia).
Let F' := sized_frame n k (n + k) ltac:(pose proof is_create_bounds; lia).

Lemma sized_create : act_type a = PTHREAD_CREATE -> moves (size_is n) E (action_exec a) grown.
Proof.
  intros Ha. unfold action_exec. apply moves_after; [case_if; [apply (keeps_initial _ _ _ F)|apply keeps_ret]|]. intros _.
  apply moves_after; [apply keeps_gets|]. intros m. rewrite bool_decide_eq_false_2 by congruence. cbv zeta.
  unfold execute. rewrite Ha. intros s Hs. unfold exec_create. rewrite wp_bind. wp_step. unfold wp at 1; simpl.
  wp_step. unfold wp at 1; simpl. unfold self_tid. wp_step. unfold wp at 1; simpl. rewrite wp_bind.
  match goal with |- wp (buffer_store ?i ?b) _ ?s => assert (size_is (n + k) s) as Hs1 end.
  { unfold holds, sized, lenZ in *. simpl. rewrite length_app. simpl. unfold k, is_create. rewrite bool_decide_eq_true_2 by done. simpl. lia. }
  eapply wp_mono; [|by apply (keeps_buffer _ _ _ F')]. intros [[] s1|e s1]; [|done]. intros H1.
  wp_step. unfold wp at 1; simpl. unfold wp at 1; simpl.
  eapply wp_mono; [|apply wp_and; [apply (keeps_action_end _ _ _ F'); [apply holds_pending, sized_tame|exact H1]|apply action_end_done]].
  intros [[v|p] s2|e s2]; simpl; tauto.
Qed.
Lemma sized_exec : moves (size_is n) E (action_exec a) grown.
Proof.
  destruct (decide (act_type a = PTHREAD_CREATE)) as [Ha|Ha]; [by apply sized_create|].
  intros s Hs. eapply wp_mono; [|apply (moves_action_exec _ _ _ F (holds_pending _ (sized_tame n)) a (fun p s => p <> PExec /\ size_is n s))].
  - intros [[v|p] s'|e s']; simpl; [|done|done]. unfold k, is_create. by rewrite bool_decide_eq_false_2, Z.add_0_r.
  - intros a' Ha' _ _. apply sized_execute; [apply is_create_bounds|congruence].
  - exact Hs.
Qed.
Lemma sized_issue y : moves (size_is n) E (action a y)
  (fun o s => match o with Done _ => size_is (n + k) s | Wait _ => size_is n s end).
Proof.
  apply (moves_issue _ _ _ F (holds_pending _ (sized_tame n))).
  - apply moves_keeps; [|by intros [|]]. apply (table_yield _ _ (sized_tame n)). unfold sized, sized_upto. pose proof is_create_bounds. lia.
  - intros s Hs. eapply wp_mono; [|by apply sized_exec]. intros [[v|p] s'|e s']; simpl; tauto.
Qed.
End Growth.

(** ** The threads that can run *)

Definition running_threads (l : list Thread) : Z := lenZ (filter (fun t => thr_state t = THREAD_RUNNING) l).
Lemma running_bounds l : 0 <= running_threads l <= lenZ l.
Proof. unfold running_threads, lenZ. split; [lia|]. apply inj_le, length_filter. Qed.

Lemma filter_stops l i t f : l !! i = Some t -> thr_state t = THREAD_RUNNING -> thr_state (f t) <> THREAD_RUNNING ->
  running_threads (alter f i l) = running_threads l - 1.
Proof.
  intros Ht Hr Hf. unfold running_threads, lenZ. revert i Ht. induction l as [|u l IH]; intros i; [done|].
  destruct i as [|i]; cbn [lookup list_lookup].
  - intros [= ->]. change (alter f 0%nat (t :: l)) with (f t :: l). rewrite (filter_cons_False _ (f t)), (filter_cons_True _ t) by done.
    cbn [length]. lia.
  - intros Ht. specialize (IH i Ht). change (alter f (S i) (u :: l)) with (u :: alter f i l). rewrite !filter_cons.
    revert IH. generalize (alter f i l). intros k IH. case_decide; cbn [length]; lia.
Qed.
Lemma running_stops l i t f : lookupZ l i = Some t -> thr_state t = THREAD_RUNNING -> thr_state (f t) <> THREAD_RUNNING ->
  running_threads (update_at i f l) = running_threads l - 1.
Proof. unfold lookupZ, update_at. case_if; [done|]. apply filter_stops. Qed.

Lemma yield_table s : wp yield (fun r => match r with Val _ s' => threads (sched s') = threads (sched s) | Stop _ _ => True end) s.
Proof.
  unfold yield, assert_active. wp_step. wp_step. unfold wp at 1; simpl. destruct (_ =? _); [|done]. unfold wp at 1; simpl.
  unfold on_sched_err. wp_step. unfold wp at 1; simpl. wp_step. unfold yield_sched.
  destruct (scan_others _ _ _) as [i|]; simpl; [done|]. destruct (lookupZ _ _) as [t|]; simpl; [|done]. by destruct (is_running t).
Qed.

(** A thread that finds its mutex taken goes to sleep, and wakes nobody. *)
Definition dozed (s : St) (p : point) (s' : St) : Prop := p = PLock /\
  lenZ (threads (sched s')) = lenZ (threads (sched s)) /\ running_threads (threads (sched s')) < running_threads (threads (sched s)).

Lemma lock_dozes a m s t : lookupZ (threads (sched s)) (act_tid a) = Some t -> thr_state t = THREAD_RUNNING ->
  wp (lock_loop a m) (fun r => match r with Val (Blocked p) s' => dozed s p s' | _ => True end) s.
Proof.
  intros Ht Hr. unfold lock_loop, get_mutex_obj. wp_step. wp_step. unfold wp at 1; simpl.
  destruct (mutexes s !! m) as [mx|]; [|done]. unfold wp at 1; simpl. wp_step.
  assert (wp (thread_wait (act_tid a)) (fun r => match r with Val b s' => dozed s PLock s' | _ => True end) s) as Hw.
  { unfold thread_wait, wp. erewrite bind_val by (by apply get_thread_run). cbn beta.
    destruct (match pending t with Some a => may_wait a | None => false end); [|done]. do 2 run_step.
    eapply (wp_mono yield); [|apply yield_table]. intros [b s1|e s1]; [|done]. simpl. intros E. unfold dozed. rewrite E.
    split; [done|]. split; [unfold lenZ; by rewrite length_update_at|]. rewrite (running_stops _ _ t) by done. lia. }
  assert (wp (let! switched := thread_wait (act_tid a) in if switched then ret (Blocked PLock) else halt (NoReturn "ATOMIC_LOCK"))
    (fun r => match r with Val (Blocked p) s' => dozed s p s' | _ => True end) s) as Hsleep.
  { rewrite wp_bind. eapply wp_mono; [|exact Hw]. intros [[|] s1|e s1]; done. }
  assert (forall b, wp (Mutex_set_owner m (Some (act_tid a)) ;;; ret (Executed (set_value (Z.b2z b) a)))
    (fun r => match r with Val (Blocked p) s' => dozed s p s' | _ => True end) s) as Hown.
  { intros b. rewrite wp_bind. eapply wp_mono; [|apply wp_true]. by intros [u s1|e s1]. }
  destruct (owner mx) as [o|]; [|exact (Hown false)].
  unfold get_thread. wp_step. wp_step. unfold wp at 1; simpl. destruct (lookupZ _ o) as [u|]; [|done].
  unfold wp at 1; simpl. unfold wp at 1; simpl. case_bool_decide; [exact (Hown true)|exact Hsleep].
Qed.
Lemma resumed_lock `{Rand} a s t : lookupZ (threads (sched s)) (act_tid a) = Some t -> thr_state t = THREAD_RUNNING ->
  wp (resume PLock a) (fun r => match r with Val (Wait p) s' => dozed s p s' | _ => True end) s.
Proof.
  intros Ht Hr. simpl. wp_step. destruct (get_mutex a) as [e|m]; [done|]. unfold wp at 1; simpl. wp_step.
  eapply wp_mono; [|by apply (lock_dozes a m s t)]. intros [[b|p] s1|e s1]; [|done|done]. intros _.
  eapply wp_mono; [|apply (action_end_done b)]. by intros [[v|p] s2|e s2].
Qed.

(** ** Bounded code *)

(** What an action costs: a turn to issue it, one before and one after [execute];
    a new thread costs [w] more. *)
Definition cost (w : Z) (a : ModelAction) : Z := 3 + w * is_create a.
(** Every path through the code costs at most [n]. *)
Fixpoint bounded (w : Z) {A} (c : prog A) (n : Z) : Prop :=
  match c with
  | Ret _ => 0 <= n
  | Act a _ k => exists m, 0 <= m /\ cost w a + m <= n /\ forall v, bounded w (k v) m
  | Do m k => exists m, 0 <= m /\ 1 + m <= n /\ forall x, bounded w (k x) m
  end.

Lemma bounded_mono w {A} (c : prog A) n m : n <= m -> bounded w c n -> bounded w c m.
Proof.
  intros Hn. destruct c as [v|a y k|X x k]; simpl; [lia|..]; intros (d & H0 & Hd & Hk); exists d; (split; [done|split; [lia|done]]).
Qed.
Lemma bounded_bind w {A B} (c : prog A) (f : A -> prog B) m : forall n, bounded w c n -> (forall v, bounded w (f v) m) ->
  0 <= m -> bounded w (pbind c f) (n + m).
Proof.
  induction c as [v|a y k IH|X x k IH]; simpl; intros n Hc Hf Hm.
  - eapply bounded_mono; [|apply Hf]. lia.
  - destruct Hc as (d & H0 & Hd & Hk). exists (d + m). split; [lia|]. split; [lia|]. intros v. by apply IH.
  - destruct Hc as (d & H0 & Hd & Hk). exists (d + m). split; [lia|]. split; [lia|]. intros v. by apply IH.
Qed.
Lemma bounded_ret w {A} (a : A) : bounded w (Ret a) 0.
Proof. done. Qed.
Lemma bounded_perform w {A} (m : M St A) : bounded w (perform m) 1.
Proof. by exists 0. Qed.
Lemma bounded_call w a y : act_type a <> PTHREAD_CREATE -> bounded w (call a y) 3.
Proof.
  intros Ha. exists 0. split; [done|]. split; [|done]. unfold cost, is_create. rewrite bool_decide_eq_false_2 by done. simpl. lia.
Qed.
Lemma bounded_issue w t loc val ord sz pos y : t <> PTHREAD_CREATE -> bounded w (issue t loc val ord sz pos y) 4.
Proof. intros Ht. exists 3. do 2 (split; [done|]). intros tid. by apply bounded_call. Qed.
Lemma bounded_thread_action w t : t <> PTHREAD_CREATE -> bounded w (thread_action t) 4.
Proof. intros Ht. exists 3. do 2 (split; [done|]). intros tid. by apply bounded_call. Qed.
Lemma bounded_nonneg w {A} (c : prog A) n : 0 <= w -> bounded w c n -> 0 <= n.
Proof.
  intros Hw. destruct c as [v|a y k|X m k]; simpl; [done|intros (d & H0 & Hd & _)..]; [|lia].
  unfold cost, is_create in Hd. case_bool_decide; simpl in Hd; lia.
Qed.
Lemma bounded_if w {A} (t : bool) (c d : prog A) n m : bounded w c n -> bounded w d m -> bounded w (if t then c else d) (Z.max n m).
Proof. intros Hc Hd. destruct t; (eapply bounded_mono; [|eassumption]); lia. Qed.

(** The cost of code that is put together with [pbind] and [if]. *)
Create HintDb spend.
#[export] Hint Resolve bounded_ret bounded_perform : spend.
#[export] Hint Extern 2 (bounded _ (issue _ _ _ _ _ _ _) _) => (apply bounded_issue; done) : spend.
#[export] Hint Extern 2 (bounded _ (issue_default _ _ _) _) => (apply bounded_issue; done) : spend.
#[export] Hint Extern 2 (bounded _ (thread_action _) _) => (apply bounded_thread_action; done) : spend.
Ltac spend_step := first [by eauto 1 with spend|eapply bounded_bind; [spend_step|intros ?; spend_step|lia]|apply bounded_if; spend_step].
Ltac spend := eapply bounded_mono; cycle 1; [spend_step|try lia].

(** What a thread does around its function. *)
Lemma bounded_start w body n : 0 <= n -> (forall f a, bounded w (body f a) n) -> bounded w (thread_start body) (4 + (1 + (n + (1 + 4)))).
Proof.
  intros Hn Hb. unfold thread_start.
  apply bounded_bind; [by apply bounded_thread_action| |lia]. intros _. apply bounded_bind; [apply bounded_perform| |lia]. intros t.
  apply bounded_bind; [apply Hb| |lia]. intros r. apply bounded_bind; [apply bounded_perform| |lia]. intros _. by apply bounded_thread_action.
Qed.

(** The [main]s cost at most [b] each, a thread with its function [w]; hence the
    functions of threads create no threads. *)
Record bounded_program (pc b w : Z) (P : Tested) : Prop := mkBounded {
  bp_main : forall p, 0 <= p < pc -> bounded w (user_main P p) b;
  bp_thread : forall f a, bounded w (thread_code P f a) (w - 12);
  bp_weight : 12 <= w /\ 0 <= b
}.

(** What a thread still has to spend: on the action where it waits, on its code,
    and on the end of its process. *)
Definition due (p : point) (w : Z) (a : ModelAction) : Z :=
  match p with PExec => 2 + w * is_create a | PLock | PAfter => 1 | PDead => 0 end.
Definition owes (w : Z) (x : option activity) (c : prog Z) (b : Z) : Prop :=
  match x with
  | None => exists m, m + 2 <= b /\ bounded w c m
  | Some (Waits PDead _) => 0 <= b
  | Some (Waits p a) => exists m, due p w a + m + 2 <= b /\ forall v, bounded w (continue c v) m
  | Some Shutdown => 1 <= b
  | Some Gone => 0 <= b
  end.
Lemma owes_nonneg w x c b : 0 <= w -> owes w x c b -> 0 <= b.
Proof.
  intros Hw. destruct x as [[p a| |]|]; simpl; [destruct p|lia|lia|]; try lia; intros (m & Hm & Hb).
  all: [> specialize (Hb 0); apply bounded_nonneg in Hb; [|done]..|apply bounded_nonneg in Hb; [lia|done]].
  all: unfold due, is_create in Hm; try case_bool_decide; simpl in Hm; lia.
Qed.

(** ** Budgets *)

Definition total (l : list Z) : Z := foldr Z.add 0 l.
Lemma total_snoc l n : total (l ++ [n]) = total l + n.
Proof. induction l as [|m l IH]; simpl; [lia|]. change (foldr Z.add 0 (l ++ [n])) with (total (l ++ [n])). rewrite IH. unfold total. lia. Qed.
Lemma total_alter l i n m : l !! i = Some n -> total (alter (fun _ => m) i l) = total l - n + m.
Proof.
  revert i. induction l as [|k l IH]; intros i; [done|]. destruct i as [|i]; cbn [lookup list_lookup].
  - intros [= ->]. change (alter (fun _ => m) 0%nat (n :: l)) with (m :: l). simpl. lia.
  - intros Hn. specialize (IH i Hn). change (alter (fun _ => m) (S i) (k :: l)) with (k :: alter (fun _ => m) i l).
    unfold total in *. simpl. lia.
Qed.
Lemma total_update l i n m : lookupZ l i = Some n -> total (update_at i (fun _ => m) l) = total l - n + m.
Proof. unfold lookupZ, update_at. case_if; [done|]. apply total_alter. Qed.
Lemma total_replicate n k : total (replicate k n) = Z.of_nat k * n.
Proof. induction k as [|k IH]; [done|]. change (total (replicate (S k) n)) with (n + total (replicate k n)). rewrite IH. lia. Qed.
Lemma total_nonneg l : Forall (fun n => 0 <= n) l -> 0 <= total l.
Proof. induction 1; simpl; [done|]. unfold total in *. lia. Qed.

(** ** One turn spends *)

Section Spend.
Context `{Rand} (P : Tested) (im : Image) (pc b w : Z).
Hypothesis Hpc : 0 < pc.
Hypothesis HP : bounded_program pc b w P.

(** The code of the thread [i]. *)
Definition code_at (x : Position) (i : Z) : prog Z :=
  match codes x !! i with
  | Some c => c
  | None =>
      match lookupZ (threads (sched (shared (machine x)))) i with
      | Some t => if is_main t then user_main P (thr_pid t) else thread_start (thread_code P)
      | None => Ret 0
      end
  end.
Definition size_of (x : Position) : Z := lenZ (threads (sched (shared (machine x)))).

(** [l] holds what every thread owes; a thread that is not there yet has no code. *)
Record charged (x : Position) (l : list Z) : Prop := mkCharged {
  ch_size : lenZ l = size_of x;
  ch_owes : forall i n, lookupZ l i = Some n -> owes w (waits (machine x) !! i) (code_at x i) n;
  ch_codes : forall i c, codes x !! i = Some c -> is_Some (lookupZ l i)
}.

(** What the turn leaves of the thread's budget [n]: less, also counting the new
    threads, or as much, and fewer threads can run. *)
Definition spends (x : Position) (n : Z) (s : St) (m : Z) : Prop :=
  let new := lenZ (threads (sched s)) - size_of x in
  0 <= new <= 1 /\
  (m + new * (w + 1) + 1 <= n \/
   (m = n /\ new = 0 /\ running_threads (threads (sched s)) < running_threads (threads (sched (shared (machine x)))))).

Lemma weight_pos : 0 <= w.
Proof. destruct (bp_weight _ _ _ _ HP). lia. Qed.
Lemma create_cases a : is_create a = 0 \/ is_create a = 1.
Proof. unfold is_create. case_bool_decide; auto. Qed.

Section Turn.
Context (k : nat) (x : Position) (n : Z).
Hypothesis Hk : Z.of_nat k < 2 ^ 32 - 2.
Hypothesis Hx : pos_ok im pc k x.
Let m := machine x.
Let tid := current m.
Hypothesis Hn : owes w (waits m !! tid) (code_of P x) n.


(** The thread that runs. *)
Lemma runs_now : exists t, lookupZ (threads (sched (shared m))) tid = Some t /\ thr_state t = THREAD_RUNNING.
Proof.
  destruct (minv_self _ _ (pos_minv im pc Hpc k x Hk Hx)) as (t & Ht & _ & Hr & _). by exists t.
Qed.

Notation leaf c s := (s ∈ leaves (c (shared m))).
Let here_sized : holds (sized (size_of x)) (shared m) := eq_refl.

(** An action that is carried out at [PExec]. *)
Lemma exec_spends a o s c d : leaf (action_exec a) (Val o s) -> 0 <= d -> (forall v, bounded w (continue c v) d) ->
  due PExec w a + d + 2 <= n ->
  exists n', owes w (after_action a o) (match o with Done v => continue c v | Wait _ => c end) n' /\ spends x n s n'.
Proof.
  intros Hin Hd Hc Hb. pose proof (wp_leaf _ _ _ _ (sized_exec (size_of x) a (shared m) here_sized) Hin) as Hs.
  pose proof weight_pos. unfold due in Hb. destruct o as [v|q]; simpl in Hs; unfold holds, sized in Hs.
  - exists (d + 2). split; [by exists d|]. unfold spends. rewrite Hs. destruct (create_cases a) as [E|E]; rewrite E in *; lia.
  - destruct Hs as [Hq Hs]. unfold spends. rewrite Hs. destruct q; [done|exists (1 + d + 2)..|exists 0];
      (split; [simpl; try (by exists d); lia|]); destruct (create_cases a) as [E|E]; rewrite E in *; lia.
Qed.
(** A thread that the scheduler selects where it waits. *)
Lemma resume_spends p a o s y f : waits m !! tid = Some (Waits p a) -> codes x !! tid = Some (Act a y f) ->
  leaf (resume p a) (Val o s) ->
  exists n', owes w (after_action a o) (match o with Done v => f v | Wait _ => Act a y f end) n' /\ spends x n s n'.
Proof.
  intros Hw Hc Hin. revert Hn. unfold code_of. fold m tid. rewrite Hw, Hc. destruct (decide (p = PExec)) as [->|Hp].
  { intros (d & Hd & Hb). apply (exec_spends a o s (Act a y f) d Hin); [|done|exact Hd].
    by eapply bounded_nonneg; [apply weight_pos|apply (Hb 0)]. }
  pose proof (wp_leaf _ _ _ _ (sized_resume (size_of x) 0 ltac:(lia) p a Hp (shared m) here_sized) Hin) as Hs.
  simpl in Hs. unfold holds, sized in Hs.
  assert (act_tid a = tid) as Ha.
  { destruct (mi_waits _ _ (pos_minv im pc Hpc k x Hk Hx) _ _ Hw) as (t & Ht & Hok). destruct runs_now as (u & Hu & Hr).
    fold m tid in Ht. rewrite Hu in Ht. injection Ht as <-.
    destruct Hok as [Hd|(_ & Ha & _)]; [by rewrite (running_not_completed _ Hr) in Hd|apply Ha]. }
  intros Howes. assert (exists d, 0 <= d /\ d + 3 <= n /\ forall v, bounded w (f v) d) as (d & H0 & Hd & Hb) by
    (destruct p; [done| | |by apply list_elem_of_singleton in Hin]; destruct Howes as (d & Hd & Hb); exists d;
     (split; [by eapply bounded_nonneg; [apply weight_pos|apply (Hb 0)]|]); (split; [simpl in Hd; lia|exact Hb])).
  destruct o as [v|q].
  { exists (d + 2). split; [by exists d|]. unfold spends. rewrite Hs. lia. }
  destruct p; [done| | |by apply list_elem_of_singleton in Hin].
  - destruct runs_now as (t & Ht & Hr).
    pose proof (wp_leaf _ _ _ _ (resumed_lock a (shared m) t ltac:(by rewrite Ha) Hr) Hin) as (-> & _ & Hrun).
    exists n. split; [exists d; split; [simpl; lia|exact Hb]|]. unfold spends. rewrite Hs. split; [lia|]. right. split; [done|]. split; [lia|exact Hrun].
  - by pose proof (wp_leaf _ _ _ _ (action_end_done a (shared m)) Hin).
Qed.

Hypothesis Hcode : waits m !! tid = None ->
  match code_of P x with
  | Ret _ => True
  | Act a _ _ => allowed (shared m) tid a
  | Do c _ => own_code (shared m) c
  end.
Lemma sized_refl l : sized (size_of x) l -> sized (size_of x) l.
Proof. done. Qed.
Lemma done_shuts s0 : wp user_done (fun r => match r with Val v _ => v = Some Shutdown | Stop _ _ => True end) s0.
Proof.
  unfold user_done. rewrite wp_bind. eapply wp_mono; [|apply wp_true]. intros [[|] s1|e s1] _; [done| |done].
  unfold end_process. rewrite wp_bind. eapply wp_mono; [|apply wp_true]. intros [u s2|e s2] _; [|done].
  rewrite wp_bind. eapply wp_mono; [|apply wp_true]. by intros [u' s3|e s3] _.
Qed.

Lemma turn_spends v code obs s : leaf (turn_of P x) (Val (v, code, obs) s) ->
  exists n', owes w v code n' /\ spends x n s n'.
Proof.
  pose proof weight_pos as Hw0. unfold turn_of. fold m tid.
  destruct (waits m !! tid) as [[p a| |]|] eqn:Ew in |- *.
  - intros (o & Hin & He)%leaf_val. destruct (po_waits _ _ _ _ Hx _ _ _ Ew) as (y & f & Hf & _).
    destruct (resume_spends p a o s y f Ew Hf Hin) as (n' & H1 & H2). exists n'. split; [|exact H2].
    unfold code_of in He. fold m tid in He. rewrite Hf in He. destruct o; by injection He as -> -> _.
  - intros (u & Hin & _)%leaf_val. by apply end_process_leaf in Hin.
  - intros Hin. by apply list_elem_of_singleton in Hin.
  - pose proof (Hcode Ew) as Hown. revert Hn. fold m tid. rewrite Ew. intros (d & Hd & Hb). revert Hown Hb.
    destruct (code_of P x) as [u|a y f|X c f]; intros Hown Hb; simpl in Hb.
    + intros (q & Hin & [= -> -> _])%leaf_val.
      pose proof (wp_leaf _ _ _ _ (done_shuts (shared m)) Hin) as Hq. simpl in Hq. subst q.
      pose proof (wp_leaf _ _ _ _ (table_done _ _ (sized_tame _) sized_refl (shared m) here_sized) Hin) as Hs. simpl in Hs.
      exists 1. split; [done|]. unfold spends. unfold holds, sized in Hs. rewrite Hs. lia.
    + destruct Hb as (c & H0 & Hc & Hk'). intros (o & Hin & He)%leaf_val.
      pose proof (wp_leaf _ _ _ _ (sized_issue (size_of x) a y (shared m) here_sized) Hin) as Hs. unfold cost in Hc.
      assert (exists n', owes w (after_action a o) (match o with Done v => f v | Wait _ => Act a y f end) n' /\ spends x n s n')
        as (n' & H1 & H2).
      { unfold spends. destruct o as [u|q]; simpl in Hs; unfold holds, sized in Hs; rewrite Hs.
        - exists (c + 2). split; [by exists c|]. destruct (create_cases a) as [E|E]; rewrite E in *; lia.
        - exists (2 + w * is_create a + c + 2). destruct (create_cases a) as [E|E]; rewrite E in *; (split; [|lia]);
            destruct q; simpl; try (exists c; rewrite ?E; split; [lia|exact Hk']); lia. }
      exists n'. split; [|exact H2]. destruct o; by injection He as -> -> _.
    + destruct Hb as (c' & H0 & Hc & Hk'). intros (u & Hin & [= -> -> _])%leaf_val.
      pose proof (wp_leaf _ _ _ _ (table_own _ _ (sized_tame _) sized_refl _ _ _ Hown here_sized) Hin) as Hs. simpl in Hs.
      exists (c' + 2). split; [by exists c'|]. unfold spends. unfold holds, sized in Hs. rewrite Hs. lia.
Qed.

(** The last turn of a process. *)
Lemma exit_spends s : leaf (turn_of P x) (Stop (Exit EXIT_SUCCESS) s) ->
  let new := lenZ (threads (sched s)) - size_of x in 0 <= new <= 1 /\ new * (w + 1) + 1 <= n.
Proof.
  pose proof weight_pos as Hw0. cbn zeta. unfold turn_of. fold m tid.
  assert (forall s', departs (sized (size_of x)) (Exit EXIT_SUCCESS) s' -> lenZ (threads (sched s')) = size_of x) as Hsame.
  { intros s' Hs. by apply Hs. }
  destruct (waits m !! tid) as [[p a| |]|] eqn:Ew in |- *.
  - intros Hin%leaf_stop. destruct (po_waits _ _ _ _ Hx _ _ _ Ew) as (y & f & Hf & _).
    revert Hn. fold m tid. rewrite Ew. destruct (decide (p = PExec)) as [->|Hp].
    + intros (d & Hd & Hb). specialize (Hb 0). apply bounded_nonneg in Hb; [|done].
      pose proof (wp_leaf _ _ _ _ (sized_exec (size_of x) a (shared m) here_sized) Hin eq_refl) as Hs.
      unfold sized_upto in Hs. unfold due in Hd. destruct (create_cases a) as [E|E]; rewrite E in *; nia.
    + pose proof (wp_leaf _ _ _ _ (sized_resume (size_of x) 0 ltac:(lia) p a Hp (shared m) here_sized) Hin eq_refl) as Hs.
      unfold sized_upto in Hs. destruct p; [done| | |by apply list_elem_of_singleton in Hin];
        intros (d & Hd & Hb); specialize (Hb 0); apply bounded_nonneg in Hb; [|done| |done]; simpl in Hd; nia.
  - intros Hin%leaf_stop. revert Hn. fold m tid. rewrite Ew. simpl. intros H1.
    pose proof (Hsame _ (wp_leaf _ _ _ _ (table_end _ _ (sized_tame _) sized_refl (shared m) here_sized) Hin)). lia.
  - intros Hin. by apply list_elem_of_singleton in Hin.
  - pose proof (Hcode Ew) as Hown. revert Hn. fold m tid. rewrite Ew. intros (d & Hd & Hb). revert Hown Hb.
    destruct (code_of P x) as [u|a y f|X c f]; intros Hown Hb; apply bounded_nonneg in Hb as Hd0; [|done| |done| |done];
      simpl in Hb; intros Hin%leaf_stop.
    + pose proof (Hsame _ (wp_leaf _ _ _ _ (table_done _ _ (sized_tame _) sized_refl (shared m) here_sized) Hin)). lia.
    + destruct Hb as (c & H0 & Hc & _). unfold cost in Hc.
      pose proof (wp_leaf _ _ _ _ (sized_issue (size_of x) a y (shared m) here_sized) Hin eq_refl) as Hs.
      unfold sized_upto in Hs. destruct (create_cases a) as [E|E]; rewrite E in *; nia.
    + pose proof (Hsame _ (wp_leaf _ _ _ _ (table_own _ _ (sized_tame _) sized_refl _ _ _ Hown here_sized) Hin)). lia.
Qed.

(** What the turn leaves to the others, and to a new thread. *)
Lemma charged_next y l n' : charged x l -> lookupZ l tid = Some n -> mstep m (machine y) ->
  0 <= size_of y - size_of x <= 1 -> owes w (waits (machine y) !! tid) (code_at y tid) n' ->
  (forall i, i <> tid -> waits (machine y) !! i = waits m !! i /\ codes y !! i = codes x !! i) ->
  exists l', charged y l' /\ total l' = total l - n + n' + (size_of y - size_of x) * w.
Proof.
  intros [C1 C2 C3] Hl Hs Hnew Hown Hsame.
  destruct (mstep_turn _ _ _ (pos_minv im pc Hpc k x Hk Hx) Hk Hs) as (_ & T & _).
  set (l1 := update_at tid (fun _ => n') l).
  assert (lenZ l1 = size_of x) as Hlen by (unfold l1, lenZ; by rewrite length_update_at).
  assert (forall i j, lookupZ l1 i = Some j -> owes w (waits (machine y) !! i) (code_at y i) j) as Hold.
  { intros i j. unfold l1. rewrite lookupZ_update_at. case_decide as Hi.
    - subst i. rewrite Hl. by intros [= <-].
    - intros Hj. destruct (Hsame i ltac:(done)) as [Hw Hc]. rewrite Hw. specialize (C2 i j Hj). fold m in C2.
      assert (code_at y i = code_at x i) as ->; [|exact C2]. unfold code_at. rewrite Hc.
      destruct (codes x !! i); [done|]. apply lookupZ_Some in Hj. fold (lenZ l) in Hj. rewrite C1 in Hj.
      destruct (lookupZ_is_Some (threads (sched (shared m))) i) as [t Ht]; [exact Hj|].
      destruct (pa_threads _ _ _ T i t Ht) as (t' & -> & Hp & Hmn & _). fold m. by rewrite Ht, Hp, Hmn. }
  assert (forall i c, codes y !! i = Some c -> is_Some (lookupZ l1 i)) as Hcodes.
  { intros i c Hc. unfold l1. rewrite lookupZ_update_at. case_decide as Hi; [subst i; rewrite Hl; by eexists|].
    destruct (Hsame i ltac:(done)) as [_ Hc']. eapply C3. rewrite <- Hc'. exact Hc. }
  pose proof (total_update l tid n n' Hl) as Htot. fold l1 in Htot.
  assert (size_of y = size_of x \/ size_of y = size_of x + 1) as [Hsz|Hsz] by lia.
  - exists l1. split; [constructor; [by rewrite Hsz|exact Hold|exact Hcodes]|]. rewrite Htot, Hsz. lia.
  - exists (l1 ++ [w]). split; [|rewrite total_snoc, Htot, Hsz; lia]. constructor.
    + unfold lenZ in *. rewrite length_app. simpl. lia.
    + intros i j [Hj|[-> ->]]%lookupZ_snoc; [by apply Hold|]. rewrite Hlen.
      assert (size_of x <> tid) as Hne.
      { intros E. apply lookupZ_Some in Hl. fold (lenZ l) in Hl. lia. }
      destruct (Hsame _ Hne) as [-> Hc].
      destruct (lookupZ (threads (sched (shared m))) (size_of x)) as [u|] eqn:Hu.
      { apply lookupZ_Some in Hu. unfold size_of, lenZ in Hu. fold m in Hu. lia. }
      destruct (waits m !! size_of x) as [v|] eqn:Ev.
      { destruct (mi_waits _ _ (pos_minv im pc Hpc k x Hk Hx) _ _ Ev) as (t & Ht & _). fold m in Ht. congruence. }
      unfold code_at. rewrite Hc. destruct (codes x !! size_of x) as [c|] eqn:Ec.
      { destruct (C3 _ _ Ec) as [j Hj]. apply lookupZ_Some in Hj. fold (lenZ l) in Hj. lia. }
      destruct (lookupZ_is_Some (threads (sched (shared (machine y)))) (size_of x)) as [t Ht].
      { fold (lenZ (threads (sched (shared (machine y))))). fold (size_of y). rewrite Hsz. unfold size_of, lenZ. lia. }
      rewrite Ht, (pa_new _ _ _ T _ t Ht Hu). exists (w - 2). split; [lia|]. destruct (bp_weight _ _ _ _ HP).
      eapply bounded_mono; [|apply (bounded_start w _ (w - 12)); [lia|apply HP]]. lia.
    + intros i c Hc. destruct (Hcodes i c Hc) as [j Hj]. exists j. by apply lookupZ_app_l.
Qed.
End Turn.

(** *** The potential *)
Definition table_limit : Z := pc + pc * (b + 2).
Definition potential (x : Position) (l : list Z) : Z :=
  total l * (table_limit + 1) + running_threads (threads (sched (shared (machine x)))).
Record within (k : Z) (x : Position) (l : list Z) : Prop := mkWithin {
  wi_charged : charged x l;
  wi_table : size_of x + total l <= table_limit;
  wi_turns : k + potential x l <= pc * (b + 2) * (table_limit + 1) + pc
}.

Lemma charged_nonneg x l : charged x l -> 0 <= total l.
Proof.
  intros [_ C2 _]. apply total_nonneg, Forall_lookup. intros i n Hn. eapply owes_nonneg; [exact weight_pos|].
  apply (C2 (Z.of_nat i) n). unfold lookupZ. by rewrite (proj2 (Z.ltb_ge _ 0)), Nat2Z.id by lia.
Qed.

Lemma start_within : exists l, within 0 (start (machine_init im pc)) l.
Proof.
  destruct (bp_weight _ _ _ _ HP) as [_ Hb]. exists (replicate (Z.to_nat pc) (b + 2)).
  assert (total (replicate (Z.to_nat pc) (b + 2)) = pc * (b + 2)) as Htot.
  { rewrite total_replicate. lia. }
  assert (size_of (start (machine_init im pc)) = pc) as Hsz by (unfold size_of, lenZ; simpl; rewrite length_fmap, length_seqZ; lia).
  constructor; [constructor| |].
  - rewrite Hsz. unfold lenZ. rewrite length_replicate. lia.
  - intros i n Hi. apply lookupZ_Some in Hi as Hr. rewrite length_replicate in Hr. simpl. rewrite lookup_empty.
    assert (n = b + 2) as ->.
    { unfold lookupZ in Hi. rewrite (proj2 (Z.ltb_ge _ 0)) in Hi by lia. by apply lookup_replicate in Hi as [-> _]. }
    exists b. split; [lia|]. unfold code_at. simpl. rewrite lookup_empty, main_thread by lia. simpl. apply HP. lia.
  - intros i c. simpl. by rewrite lookup_empty.
  - rewrite Hsz, Htot. unfold table_limit. lia.
  - unfold potential. rewrite Htot. pose proof (running_bounds (threads (sched (shared (machine (start (machine_init im pc))))))) as Hr.
    fold (size_of (start (machine_init im pc))) in Hr. rewrite Hsz in Hr. lia.
Qed.

(** A turn that spends comes closer to the limit. *)
Lemma spends_within k x y l l' n n' s : within k x l -> charged y l' -> threads (sched (shared (machine y))) = threads (sched s) ->
  total l' = total l - n + n' + (size_of y - size_of x) * w -> spends x n s n' -> within (k + 1) y l'.
Proof.
  intros [W1 W2 W3] Hc Ht Htot Hsp. unfold spends in Hsp. rewrite <- Ht in Hsp. fold (size_of y) in Hsp.
  pose proof (charged_nonneg _ _ Hc) as H0. pose proof weight_pos as Hw.
  pose proof (running_bounds (threads (sched (shared (machine y))))) as Hr. fold (size_of y) in Hr.
  pose proof (running_bounds (threads (sched (shared (machine x))))) as Hrx.
  assert (size_of y + total l' <= table_limit) as Htab by nia.
  constructor; [done|exact Htab|]. unfold potential in *. destruct Hsp as [Hnew [Hless|(-> & Hz & Hrun)]].
  - assert (total l' + 1 <= total l) as Hl by nia. assert (0 <= table_limit) by lia. nia.
  - rewrite Hz in Htot. assert (total l' = total l) as -> by lia. lia.
Qed.

Lemma next_within k x y : Z.of_nat k < 2 ^ 32 - 2 -> pos_ok im pc k x -> (exists l, within (Z.of_nat k) x l) ->
  mstep (machine x) (machine y) ->
  (forall n, owes w (waits (machine x) !! current (machine x)) (code_of P x) n -> exists n' s,
     threads (sched (shared (machine y))) = threads (sched s) /\ spends x n s n' /\
     owes w (waits (machine y) !! current (machine x)) (code_at y (current (machine x))) n') ->
  (forall i, i <> current (machine x) -> waits (machine y) !! i = waits (machine x) !! i /\ codes y !! i = codes x !! i) ->
  exists l, within (Z.of_nat (S k)) y l.
Proof.
  intros Hk Hx [l Hl] Hs Hsp Hsame. pose proof (wi_charged _ _ _ Hl) as Hc.
  destruct (runs_now k x Hk Hx) as (t & Ht & _). apply lookupZ_Some in Ht.
  destruct (lookupZ_is_Some l (current (machine x))) as [n Hn].
  { fold (lenZ l). rewrite (ch_size _ _ Hc). exact Ht. }
  destruct (Hsp n) as (n' & s & Hts & Hspend & Hown); [exact (ch_owes _ _ Hc _ _ Hn)|].
  destruct (charged_next k x n Hk Hx y l n' Hc Hn Hs) as (l' & Hc' & Htot); [|done|exact Hsame|].
  { destruct Hspend as [Hnew _]. rewrite <- Hts in Hnew. exact Hnew. }
  exists l'. replace (Z.of_nat (S k)) with (Z.of_nat k + 1) by lia. by eapply spends_within.
Qed.

Lemma reaches_within fuel k x : respects P fuel (start (machine_init im pc)) -> reaches P (start (machine_init im pc)) k x ->
  (k <= fuel)%nat -> Z.of_nat k < 2 ^ 32 - 2 -> exists l, within (Z.of_nat k) x l.
Proof.
  intros Hresp. induction 1 as [|k x a s Hr IH Hin|k x s s' Hr IH Hin Hf]; intros Hle Hk; [exact start_within|..];
    specialize (IH ltac:(lia) ltac:(lia)); pose proof (reaches_ok P im pc fuel k x Hpc Hresp Hr ltac:(lia) ltac:(lia)) as Hx;
    pose proof (Hresp k x ltac:(lia) Hr) as Hcode.
  - destruct a as [[v code] obs]. destruct (turn_leaf P im pc Hpc k x ltac:(lia) Hx Hcode _ _ _ _ Hin) as (c & Hc & Hw).
    destruct (dispatch_shared s (globals (machine x)) (set_wait (current (machine x)) v (waits (machine x)))) as [f Hf].
    apply (next_within k x); [lia|done|done| | |].
    + by eapply step_turn.
    + intros n Hn. destruct (turn_spends k x n ltac:(lia) Hx Hn Hcode _ _ _ _ Hin) as (n' & Hown & Hsp).
      exists n', s. split; [simpl; by rewrite Hf|]. split; [done|]. simpl. rewrite dispatch_waits. simpl.
      unfold code_at. simpl. rewrite lookup_insert_eq. destruct v; simpl; [by rewrite lookup_insert_eq|by rewrite lookup_delete_eq].
    + intros i Hi. simpl. rewrite dispatch_waits. simpl. rewrite lookup_insert_ne by done. split; [|done].
      destruct v; simpl; [by rewrite lookup_insert_ne|by rewrite lookup_delete_ne].
  - destruct (turn_stops P im pc Hpc k x ltac:(lia) Hx Hcode _ _ Hin) as (c & Hc & Hs).
    destruct (dispatch_shared s' (globals (machine x)) (<[current (machine x) := Gone]> (waits (machine x)))) as [f Hfs].
    pose proof (wp_leaf _ _ _ _ (sized_finalize (lenZ (threads (sched s))) 0 ltac:(lia) s eq_refl) Hf) as Hsz.
    apply (next_within k x); [lia|done|done| | |].
    + by eapply step_exit.
    + intros n Hn. pose proof (exit_spends k x n Hx Hn Hcode s Hin) as [Hnew Hsp].
      exists 0, s'. split; [simpl; by rewrite Hfs|]. split.
      * unfold spends. change (lenZ (threads (sched s')) = lenZ (threads (sched s))) in Hsz. rewrite Hsz. split; [done|]. left. lia.
      * simpl. rewrite dispatch_waits. simpl. by rewrite lookup_insert_eq.
    + intros i Hi. simpl. rewrite dispatch_waits. simpl. by rewrite lookup_insert_ne.
Qed.
End Spend.

(** The turns of an execution whose [pc] processes run [main]s of cost [b]. *)
Definition turn_limit (pc b : Z) : Z := pc * (b + 2) * (pc + pc * (b + 2) + 1) + pc.

Section Ends.
Context `{Rand} (P : Tested) (im : Image) (pc b w : Z) (fuel : nat).
Let x0 := start (machine_init im pc).
Hypothesis Hpc : 0 < pc.
Hypothesis HP : bounded_program pc b w P.
Hypothesis Hresp : respects P fuel x0.
Hypothesis Hf : turn_limit pc b < Z.of_nat fuel < 2 ^ 32 - 2.

Lemma turns_limited n x : (n <= fuel)%nat -> reaches P x0 n x -> Z.of_nat n <= turn_limit pc b.
Proof.
  intros Hn Hx. destruct (reaches_within P im pc b w Hpc HP fuel n x Hresp Hx Hn ltac:(lia)) as [l Hl].
  pose proof (wi_turns _ _ _ _ _ _ _ Hl) as Ht. pose proof (charged_nonneg _ _ _ _ HP _ _ (wi_charged _ _ _ _ _ _ _ Hl)) as H0.
  pose proof (running_bounds (threads (sched (shared (machine x))))). destruct (bp_weight _ _ _ _ HP) as [_ Hb].
  unfold potential, table_limit, turn_limit in *. nia.
Qed.
Lemma execution_ends v : v ∈ leaves (execution P fuel x0) ->
  (exists obs s, v = Ended obs s) \/ (exists e s, v = Failed e s /\ stopped e).
Proof.
  intros Hv. pose proof (leaf_reached P _ fuel 0 _ v (reaches_start _ _) Hv) as Hr.
  destruct v as [obs s|e s|x]; [left; by exists obs, s|right; exists e, s; split; [done|]|].
  - destruct Hr as (k & y & Hk & Hy & Hfail). eapply position_fails; [exact Hpc|exact Hresp|exact Hy|lia|lia|exact Hfail].
  - apply turns_limited in Hr; lia.
Qed.
End Ends.

(** C5: Executions end: when the code of every thread takes a bounded number of
    steps on every path and respects the interface, no execution takes more than
    [turn_limit] turns, for every order of the turns, all decisions and answers,
    and with threads that wait for mutexes, condition variables and each other
    or are created meanwhile: it ends with the last process, or in a deadlock or
    at a mutex that its owner locks again. *)
Theorem bounded_executions_end `{Rand} P im pc b w fuel : let x0 := start (machine_init im pc) in
  0 < pc -> bounded_program pc b w P -> respects P fuel x0 -> turn_limit pc b < Z.of_nat fuel < 2 ^ 32 - 2 ->
  (forall n x, (n <= fuel)%nat -> reaches P x0 n x -> Z.of_nat n <= turn_limit pc b) /\
  forall v, v ∈ leaves (execution P fuel x0) ->
    (exists obs s, v = Ended obs s) \/ (exists e s, v = Failed e s /\ stopped e).
Proof.
  cbn zeta. intros Hpc HP Hresp Hf. split; [by apply (turns_limited P im pc b w fuel Hpc HP Hresp Hf)|].
  by apply (execution_ends P im pc b w fuel Hpc HP Hresp Hf).
Qed.

(** The two processes of [demo_clients], which wait for a mutex and a condition
    variable, have executions of at most 26732 turns. *)
Lemma demo_clients_bounded : bounded_program 2 79 12 demo_clients.
Proof.
  constructor; [|done|done]. intros p _. simpl. unfold demo_waiting. case_if.
  - unfold critical_section, pthread_mutex_lock, pthread_mutex_unlock, pthread_cond_signal, notify_one, Mutex_lock, Mutex_unlock, cxlmc_store, cxlmc_mfence.
    spend.
  - unfold critical_section, pthread_mutex_lock, pthread_mutex_unlock, Mutex_lock, Mutex_unlock. cbn [wait_until].
    unfold demo_flag, pthread_cond_wait, cond_wait, Mutex_lock, cxlmc_load. spend.
Qed.
Lemma bounded_executions_end_witness : let x0 := start (machine_init (mkImage ∅ 64) 2) in
  (forall n x, (n <= Z.to_nat 100000)%nat -> reaches (H := counter_rand) demo_clients x0 n x -> Z.of_nat n <= turn_limit 2 79) /\
  forall v, v ∈ leaves (execution (H := counter_rand) demo_clients (Z.to_nat 100000) x0) ->
    (exists obs s, v = Ended obs s) \/ (exists e s, v = Failed e s /\ stopped e).
Proof.
  apply (bounded_executions_end (H := counter_rand) demo_clients (mkImage ∅ 64) 2 79 12 (Z.to_nat 100000)); [done|exact demo_clients_bounded|..].
  - apply (polite_respects (H := counter_rand)); [done|exact demo_clients_polite|]. rewrite Z2Nat.id by done. done.
  - rewrite Z2Nat.id by done. done.
Defined.
