(* ===== verification/Unblocked.v ===== *)
(** * Unblocked: code that never waits for another thread

    Code that only loads, stores, flushes, fences, yields and releases mutexes
    never blocks its thread, so no execution of it meets a deadlock or a mutex
    locked twice: every one ends with the last process.  A program of such
    code, bounded and polite, is explored completely with nothing to ask of its
    executions but their number. *)
From S2P Require Import Prelude Choice NodeStack Action ReadFrom CacheLine ThreadMemory State Scheduler ModelCore Executor ReadSound Wf ModelSafe Safety Frame Evolve Execution Program Api Pthread Machine Trace Questions Tested Respect Clients Explore Bounded.

(** The actions that neither wait for another thread, nor end or make one. *)
Definition never_waits (t : action_type) : bool :=
  match t with
  | THREAD_FINISH | THREADONLY_FINISH | PTHREAD_CREATE | PTHREAD_JOIN | ATOMIC_LOCK | ATOMIC_WAIT | ATOMIC_TIMEDWAIT => false
  | _ => true
  end.
Fixpoint unblocking {A} (c : prog A) : Prop :=
  match c with
  | Ret _ => True
  | Act a _ k => never_waits (act_type a) = true /\ forall v, unblocking (k v)
  | Do m k => forall x, unblocking (k x)
  end.
Lemma unblocking_bind {A B} (c : prog A) (f : A -> prog B) : unblocking c -> (forall v, unblocking (f v)) -> unblocking (pbind c f).
Proof. intros Hc Hf. induction c as [a|a y k IH|X m k IH]; simpl in *; [done|..]; naive_solver. Qed.

(** Neither a deadlock nor a relock. *)
Definition calm (e : stop) : Prop := match e with Exit c => c = EXIT_SUCCESS | Abort => False | _ => True end.
Lemma mishap_calm e : mishap e -> calm e.
Proof. by destruct e. Qed.

Section Unblocked.
Context `{Rand} (pc : Z).

(** Only the main threads are there, and none is blocked. *)
Definition table_free (l : list Thread) : Prop :=
  lenZ l = pc /\ forall i t, lookupZ l i = Some t -> thr_state t <> THREAD_BLOCKED.
Notation free := (holds table_free).
Definition ends_free (e : stop) (s : St) : Prop := calm e /\ (e = Exit EXIT_SUCCESS -> free s).

Lemma free_tame l l' : tame l l' -> table_free l -> table_free l'.
Proof.
  intros [Hl Hs] [H1 H2]. split; [congruence|]. intros i t' Ht'. pose proof Ht' as Hi. apply lookupZ_Some in Hi. fold (lenZ l') in Hi.
  rewrite Hl in Hi. destruct (lookupZ_is_Some l i Hi) as [t Ht]. eapply Hs; [exact Ht|exact Ht'|by eapply H2].
Qed.
Lemma mishap_free e s : mishap e -> ends_free e s.
Proof. intros He. split; [by apply mishap_calm|]. by intros ->. Qed.
Lemma free_frame : base_frame (fun _ => True) free ends_free.
Proof. apply table_base; [apply free_tame|by apply mishap_free|by intros s Hs]. Qed.

(** The active thread can run. *)
Definition awake (s : St) : Prop :=
  exists t, lookupZ (threads (sched s)) (active_thread (sched s)) = Some t /\ thr_state t = THREAD_RUNNING.
Definition steps_free (s : St) : Prop := free s /\ awake s.

Lemma awake_update i f s : (forall t, thr_state t = THREAD_RUNNING -> thr_state (f t) = THREAD_RUNNING) -> awake s -> awake (on_thread i f s).
Proof.
  intros Hf (t & Ht & Hr). unfold awake, on_thread. simpl. rewrite lookupZ_update_at, Ht.
  case_decide; eexists; (split; [reflexivity|]); auto.
Qed.
Lemma awake_frame : base_frame (fun _ => True) steps_free ends_free.
Proof.
  pose proof free_frame as F. constructor.
  - intros e s He _. by apply mishap_free.
  - intros f s _ Hs. exact Hs.
  - intros i f s Hf [H1 H2]. split; [by apply (fr_thread _ _ _ F)|]. apply awake_update; [|exact H2].
    intros t. by rewrite (proj1 (proj2 (Hf t))).
  - intros v s Hv [H1 (t & Ht & Hr)]. split; [by apply (fr_wake _ _ _ F)|]. unfold awake. cbn [sched on_sched].
    rewrite wake_all_lookup. cbn [active_thread wake_all_threads_waiting_on with_threads]. rewrite Ht.
    eexists. split; [reflexivity|]. by case_bool_decide.
  - intros i v s Hv [H1 (t & Ht & Hr)]. split; [by apply (fr_wake_one _ _ _ F)|]. unfold awake. cbn [sched on_sched].
    unfold wake_thread_waiting_on. destruct (scan_others _ _ _) as [j|]; [|by exists t]. cbn [active_thread with_threads threads].
    rewrite lookupZ_update_at, Ht. case_decide; eexists; (split; [reflexivity|]); done.
  - intros m f s _ Hs. exact Hs.
  - intros f s _ Hs. exact Hs.
  - intros c s _ _ Hs. exact Hs.
  - intros s [H1 _]. by apply (fr_crash _ _ _ F).
Qed.

(** *** Turns *)
Notation E := ends_free.
Let F := awake_frame.
Let F0 := free_frame.

Lemma awake_pending p s : steps_free s -> steps_free (on_thread (thread_id (proc s)) (set_pending p) s).
Proof. intros [H1 H2]. split; [by apply holds_update; [apply free_tame|done|]|by apply awake_update]. Qed.
Lemma awake_yield : moves steps_free E yield (fun b s => free s /\ (b = false -> steps_free s)).
Proof.
  unfold yield. eapply moves_bind; [apply (keeps_assert_active _ _ _ F)|]. intros _ s [H1 (t & Ht & Hr)].
  unfold on_sched_err. wp_step. unfold wp at 1; simpl. unfold yield_sched.
  destruct (scan_others _ _ _) as [j|]; simpl; [wp_step; unfold wp at 1; simpl; wp_step; unfold wp at 1; simpl; by split|].
  rewrite Ht. rewrite (proj2 (is_running_spec t)) by done. simpl. wp_step. unfold wp at 1; simpl. wp_step. unfold wp at 1; simpl.
  split; [exact H1|]. intros _. split; [exact H1|by exists t].
Qed.
Lemma free_execute a : never_waits (act_type a) = true ->
  moves steps_free E (execute a) (progress_post steps_free (fun _ _ => False)).
Proof.
  intros Ha. apply (moves_execute_base _ _ _ F); try done.
  - intros p Hp. exfalso. unfold wait_point, may_wait in Hp. destruct p; try done; destruct (act_type a); done.
  - intros [Hf|Hf]; by rewrite Hf in Ha.
  - intros Hf; by rewrite Hf in Ha.
  - intros Hf; by rewrite Hf in Ha.
Qed.
Lemma free_exec a : never_waits (act_type a) = true ->
  moves steps_free E (action_exec a) (fun o s => free s /\ exists v, o = Done v).
Proof.
  intros Ha s Hs. eapply wp_mono; [|apply (moves_action_exec _ _ _ F awake_pending a (fun _ _ => False)); [|exact Hs]].
  - intros [[v|p] s'|e s']; [intros [Hf _]; split; [exact Hf|by exists v]|done|done].
  - intros a' Ht _ _. apply free_execute. by rewrite Ht.
Qed.
Lemma free_issue a y : never_waits (act_type a) = true -> moves steps_free E (action a y) (fun _ s => free s).
Proof.
  intros Ha. apply (moves_issue _ _ _ F awake_pending).
  - intros s Hs. eapply wp_mono; [|by apply awake_yield]. intros [[|] s'|e s']; [by intros [Hf _]|intros [_ Hf]; by apply Hf|done].
  - intros s Hs. eapply wp_mono; [|by apply free_exec]. intros [o s'|e s']; [by intros [Hf _]|done].
Qed.
Lemma free_same s s' : sched s' = sched s -> thread_id (proc s') = thread_id (proc s) -> free s -> free s'.
Proof. unfold holds. by intros ->. Qed.
Lemma free_completed i s : free s -> free (on_thread i (set_state THREAD_COMPLETED) s).
Proof. apply holds_update; [apply free_tame|done]. Qed.
Lemma free_own s X (c : M St X) : own_code s c -> free s ->
  wp c (fun r => match r with Val _ s' => free s' | Stop e s' => E e s' end) s.
Proof. apply (frame_own _ _ _ F0 s X c free_same). Qed.
Lemma free_end : keeps free E end_process.
Proof. apply (frame_end _ _ _ F0 (fun s s' H1 H2 _ => free_same s s' H1 H2) free_completed). intros s Hs. by split. Qed.
Lemma free_done : moves steps_free E user_done (fun _ s => free s).
Proof.
  unfold user_done. eapply moves_bind; [apply awake_yield|]. intros [|] s [Hf Hs]; [exact Hf|]. by apply free_end.
Qed.
(** The exit handler finds no deadlock. *)
Lemma free_finalize s : free s -> wp finalize (fun r => match r with Val _ s' => free s' | Stop e _ => calm e end) s.
Proof.
  intros Hs. unfold finalize, self_tid. wp_step. unfold wp at 1; simpl. unfold get_thread. wp_step. wp_step. unfold wp at 1; simpl.
  destruct (lookupZ _ _) as [t|]; [|done]. unfold wp at 1; simpl.
  assert (forall s1, free s1 -> wp (let! s := get in if terminating (sched s) then ret false else last_yield)
    (fun r => match r with Val _ s' => free s' | Stop e _ => calm e end) s1) as Hlast.
  { intros s1 H1. wp_step. unfold wp at 1; simpl. case_if; [exact H1|]. unfold last_yield, assert_active. wp_step. wp_step.
    unfold wp at 1; simpl. destruct (_ =? _); [|done]. unfold wp at 1; simpl. unfold on_sched_err. wp_step. unfold wp at 1; simpl.
    unfold last_yield_sched. destruct (scan_others _ is_running _) as [j|]; simpl; [wp_step; unfold wp at 1; simpl; wp_step; exact H1|].
    destruct (scan_others _ is_blocked _) as [j|] eqn:Ej; simpl; [|wp_step; unfold wp at 1; simpl; wp_step; exact H1].
    apply scan_Some in Ej as (i & u & _ & _ & Hu & Hb & _). destruct H1 as [_ H1]. apply is_blocked_spec in Hb.
    by destruct (H1 _ _ Hu). }
  wp_step. case_if; [by apply Hlast|]. unfold wp at 1; simpl. by apply Hlast, free_completed.
Qed.
End Unblocked.

(** ** Executions *)

Section Positions.
Context `{Rand} (P : Tested) (im : Image) (pc : Z).
Hypothesis Hpc : 0 < pc.
Hypothesis HP : forall p, 0 <= p < pc -> unblocking (user_main P p).

Record pos_free (x : Position) : Prop := mkPosFree {
  pf_shared : holds (table_free pc) (shared (machine x));
  pf_codes : forall i c, codes x !! i = Some c -> unblocking c
}.
Lemma start_free : pos_free (start (machine_init im pc)).
Proof.
  constructor; simpl; [|intros i c; by rewrite lookup_empty]. split.
  - unfold lenZ. simpl. rewrite length_fmap, length_seqZ. lia.
  - intros i t [_ ->]%main_thread_inv. done.
Qed.

Section Position.
Context (k : nat) (x : Position).
Hypothesis Hk : Z.of_nat k < 2 ^ 32 - 2.
Hypothesis Hx : pos_ok im pc k x.
Hypothesis Hfree : pos_free x.
Let m := machine x.
Let tid := current m.

Lemma code_unblocking : unblocking (code_of P x).
Proof.
  unfold code_of. fold m tid. destruct (codes x !! tid) as [c|] eqn:Ec; [by eapply pf_codes|].
  destruct (lookupZ (threads (sched (shared m))) tid) as [t|] eqn:Et; [|done].
  rewrite (po_threads _ _ _ _ Hx tid t Et). apply lookupZ_Some in Et as Hi.
  pose proof (proj1 (pf_shared _ Hfree)) as Hl. fold m in Hl. unfold lenZ in Hl. rewrite Hl in Hi. rewrite (proj2 (Z.ltb_lt _ _)) by lia. apply HP.
  destruct (po_mains _ _ _ _ Hx tid Hi) as (u & Hu & Hp). fold m in Hu. rewrite Et in Hu. injection Hu as <-. by rewrite Hp.
Qed.
Lemma steps_now : steps_free pc (shared m).
Proof.
  split; [apply Hfree|]. pose proof (pos_minv im pc Hpc k x Hk Hx) as Hm. destruct (minv_self _ _ Hm) as (t & Ht & _ & Hr & _).
  exists t. split; [|done]. pose proof (mi_active _ _ Hm) as Ha. unfold is_active in Ha. fold m in Ha. rewrite Ha. exact Ht.
Qed.

Definition turn_free (r : result St answer) : Prop :=
  match r with Val (_, code, _) s => holds (table_free pc) s /\ unblocking code | Stop e s => ends_free pc e s end.
Lemma reply_free executes a y f (c : M St outcome) : unblocking (Act a y f) ->
  wp c (fun r => match r with Val _ s => holds (table_free pc) s | Stop e s => ends_free pc e s end) (shared m) ->
  wp (let! o := c in ret (reply executes a (Act a y f) o)) turn_free (shared m).
Proof.
  intros [Ha Hf] Hc. rewrite wp_bind. eapply wp_mono; [|exact Hc]. intros [[v|p] s|e s] Hs; [|by split|exact Hs].
  split; [exact Hs|apply Hf].
Qed.
(** A thread that waits has yielded before its action. *)
Lemma waits_before p a : waits m !! tid = Some (Waits p a) -> never_waits (act_type a) = true -> p = PExec.
Proof.
  intros Hw Ha. pose proof (pos_minv im pc Hpc k x Hk Hx) as Hm. destruct (mi_waits _ _ Hm _ _ Hw) as (t & Ht & Hok).
  destruct (minv_self _ _ Hm) as (u & Hu & _ & Hr & _). fold m tid in Ht, Hu. rewrite Ht in Hu. injection Hu as <-.
  destruct Hok as [Hd|(Hp & _)]; [by rewrite (running_not_completed _ Hr) in Hd|].
  destruct p; simpl in Hp; unfold may_wait in *; [done|by rewrite Hp in Ha|by destruct (act_type a)|done].
Qed.

Hypothesis Hcode : waits m !! tid = None ->
  match code_of P x with
  | Ret _ => True
  | Act a _ _ => allowed (shared m) tid a
  | Do c _ => own_code (shared m) c
  end.
Lemma turn_stays_free : wp (turn_of P x) turn_free (shared m).
Proof.
  pose proof code_unblocking as Hc. pose proof steps_now as Hs. unfold turn_of. fold m tid.
  destruct (waits m !! tid) as [[p a| |]|] eqn:Ew in |- *.
  - destruct (po_waits _ _ _ _ Hx _ _ _ Ew) as (y & f & Hf & _). unfold code_of in *. fold m tid in Hf, Hc |- *. rewrite Hf in *.
    pose proof (waits_before p a Ew (proj1 Hc)) as ->. eapply reply_free; [exact Hc|]. simpl.
    eapply wp_mono; [|by apply (free_exec pc a (proj1 Hc))]. intros [o s|e s]; [by intros [? _]|done].
  - rewrite wp_bind. eapply wp_mono; [|apply (free_end pc), Hfree]. intros [v s|e s]; [|done]. by split.
  - by apply mishap_free.
  - specialize (Hcode Ew). revert Hcode Hc. destruct (code_of P x) as [v|a y f|X c f]; intros Hown Hc.
    + rewrite wp_bind. eapply wp_mono; [|by apply (free_done pc)]. intros [u s|e s]; [|done]. by split.
    + eapply reply_free; [exact Hc|]. by apply (free_issue pc a y (proj1 Hc)).
    + rewrite wp_bind. eapply wp_mono; [|apply (free_own pc (shared m) X c Hown), Hfree].
      intros [v s|e s]; [|done]. intros Hv. split; [exact Hv|apply Hc].
Qed.
End Position.

Lemma reaches_free fuel k x : respects P fuel (start (machine_init im pc)) -> reaches P (start (machine_init im pc)) k x ->
  (k <= fuel)%nat -> Z.of_nat k < 2 ^ 32 - 2 -> pos_free x.
Proof.
  intros Hresp. induction 1 as [|k x a s Hr IH Hin|k x s s' Hr IH Hin Hf]; intros Hle Hk; [exact start_free|..];
    specialize (IH ltac:(lia) ltac:(lia)); pose proof (reaches_ok P im pc fuel k x Hpc Hresp Hr ltac:(lia) ltac:(lia)) as Hx;
    pose proof (wp_leaf _ _ _ _ (turn_stays_free k x ltac:(lia) Hx IH (Hresp k x ltac:(lia) Hr)) Hin) as Hs.
  - destruct a as [[v code] obs]. destruct Hs as [Hs Hc].
    destruct (dispatch_shared s (globals (machine x)) (set_wait (current (machine x)) v (waits (machine x)))) as [f Hd].
    constructor; simpl; [by rewrite Hd|]. intros i c. destruct (decide (current (machine x) = i)) as [<-|Hi].
    + rewrite lookup_insert_eq. by intros [= <-].
    + rewrite lookup_insert_ne by done. apply IH.
  - destruct Hs as [_ Hs]. pose proof (wp_leaf _ _ _ _ (free_finalize pc s (Hs eq_refl)) Hf) as Hs'. simpl in Hs'.
    destruct (dispatch_shared s' (globals (machine x)) (<[current (machine x) := Gone]> (waits (machine x)))) as [f Hd].
    constructor; simpl; [by rewrite Hd|]. apply IH.
Qed.

(** No execution fails. *)
Lemma unblocking_never_fails fuel e s : respects P fuel (start (machine_init im pc)) -> Z.of_nat fuel < 2 ^ 32 - 2 ->
  Failed e s ∈ leaves (execution P fuel (start (machine_init im pc))) -> False.
Proof.
  intros Hresp Hfuel Hin. destruct (leaf_reached P _ fuel 0 _ _ (reaches_start _ _) Hin) as (k & x & Hk & Hx & Hf).
  pose proof (position_fails P im pc fuel k x e s Hpc Hresp Hx ltac:(lia) ltac:(lia) Hf) as Hst.
  pose proof (reaches_free fuel k x Hresp Hx ltac:(lia) ltac:(lia)) as Hfree.
  pose proof (reaches_ok P im pc fuel k x Hpc Hresp Hx ltac:(lia) ltac:(lia)) as Hok.
  pose proof (turn_stays_free k x ltac:(lia) Hok Hfree (Hresp k x ltac:(lia) Hx)) as Ht.
  assert (calm e) as Hc.
  { destruct Hf as [[Hleaf Hne]|(s1 & Hleaf & Hf)]; pose proof (wp_leaf _ _ _ _ Ht Hleaf) as [Hc Hs]; [done|].
    exact (wp_leaf _ _ _ _ (free_finalize pc s1 (Hs eq_refl)) Hf). }
  destruct Hst as [->|(c & -> & Hcn)]; [done|]. simpl in Hc. congruence.
Qed.
End Positions.

(** Straight code is explored completely: when the [main]s of a program use
    the interface as it is meant, take a bounded number of steps and never wait
    for another thread, every execution ends with the last process, within
    [turn_limit] turns, whatever the order of the turns, the decisions and the
    answers; and [main]'s loop ends after the executions that the decisions make,
    each of them run once, if they are at most [MAX_EXECUTION]. *)
Lemma straight_explored `{Rand} P im pc b w fuel p save file : let t := execution P fuel (start (machine_init im pc)) in
  0 < pc -> polite_program (img_cxl im) pc P -> bounded_program pc b w P -> (forall p, 0 <= p < pc -> unblocking (user_main P p)) ->
  turn_limit pc b < Z.of_nat fuel < 2 ^ 32 - 2 ->
  (forall v, v ∈ leaves t -> exists obs s, v = Ended obs s) /\
  (lenZ (leaves t) <= MAX_EXECUTION -> exists r' rs, explore P im fuel (first_run pc p save None file) = (Finished r', rs) /\
    visited P im fuel <$> rs = Some <$> leaves t).
Proof.
  cbn zeta. intros Hpc Hpol Hb Hu Hf. pose proof (polite_respects P im pc Hpc Hpol fuel ltac:(lia)) as Hresp.
  assert (forall v, v ∈ leaves (execution P fuel (start (machine_init im pc))) -> exists obs s, v = Ended obs s) as He.
  { intros v Hv. destruct (execution_ends P im pc b w fuel Hpc Hb Hresp Hf v Hv) as [|(e & s & -> & _)]; [done|].
    destruct (unblocking_never_fails P im pc Hpc Hu fuel e s Hresp ltac:(lia) Hv). }
  split; [exact He|]. intros Hl. apply explores_leaves; [done|lia|done| |done]. by apply Forall_forall.
Qed.
