(* ===== verification/Tests.v ===== *)
(** * Tests: the test programs of the repository

    The programs of [src/src/test] that work on CXL memory with the functions of
    [api.cc], as code of the model ([printf] is left out), and the targets of
    [src/CMakeLists.txt] that run them.  They use the interface as it is meant,
    take a bounded number of steps and never wait for another thread, so the
    checker explores them completely, wherever the CXL memory is mapped and
    whatever the random numbers are.  The end of the file runs two of the
    targets. *)
From S2P Require Import Prelude Choice NodeStack Action ReadFrom CacheLine ThreadMemory State Scheduler ModelCore Executor ReadSound Execution Program Api Pthread Machine Tested Bounded Respect Clients Explore Unblocked.

(** ** The programs *)

(** [for (int i = 0; read != stop && i < n; i++) read = load(cxl)] *)
Fixpoint poll (sz cxl stop : Z) (n : nat) (read : Z) : prog Z :=
  match n with
  | O => Ret read
  | S n =>
      if read =? stop then Ret read
      else let* read := cxlmc_load sz cxl EmptyString in poll sz cxl stop n read
  end.

Definition user_crashA : prog Z :=
  let* cxl := perform (gets get_cxl_mapping) in
  let* _ := cxlmc_store 1 cxl 1 EmptyString in
  let* _ := cxlmc_store 1 cxl 2 EmptyString in
  let* _ := cxlmc_clflush cxl in
  let* _ := cxlmc_store 1 cxl 3 EmptyString in
  Ret 0.
Definition user_crashB : prog Z :=
  let* cxl := perform (gets get_cxl_mapping) in
  let* _ := poll 1 cxl 3 3 0 in
  let* _ := cxlmc_store 1 cxl 4 EmptyString in
  let* _ := cxlmc_load 1 cxl EmptyString in
  Ret 0.

Definition user_mixedsizeA : prog Z :=
  let* cxl := perform (gets get_cxl_mapping) in
  let* _ := cxlmc_store 1 cxl 2 EmptyString in
  let* _ := cxlmc_store 1 (cxl + 1) 2 EmptyString in
  let* _ := cxlmc_clflush cxl in
  let* _ := cxlmc_store 1 cxl 3 EmptyString in
  Ret 0.
Definition user_mixedsizeB : prog Z :=
  let* cxl := perform (gets get_cxl_mapping) in
  let* _ := poll 2 cxl 0x0203 3 0 in
  let* _ := cxlmc_store 1 cxl 4 EmptyString in
  let* _ := cxlmc_load 2 cxl EmptyString in
  Ret 0.

(** The loop of [user_store], from iteration [i] on. *)
Fixpoint store_lines (cxl : Z) (n : nat) (i : Z) : prog unit :=
  match n with
  | O => Ret tt
  | S n =>
      let addr := cxl + i * CACHELINE_SIZE in
      let* _ := cxlmc_store 1 addr i EmptyString in
      let* _ := (if i mod 2 =? 0 then cxlmc_clflush addr else Ret 0) in
      let* _ := cxlmc_load 1 addr EmptyString in
      store_lines cxl n (i + 1)
  end.
Definition user_store : prog Z :=
  let* cxl := perform (gets get_cxl_mapping) in
  let* _ := store_lines cxl 4 0 in
  let* _ := cxlmc_mfence cxl in
  Ret 0.

(** [init n mains]: process [id] runs the program [id % progc]. *)
Definition target (mains : list (prog Z)) : Tested :=
  mkTested (fun id => default (Ret 0) (lookupZ mains (id mod lenZ mains))) (fun _ _ => Ret 0).
Definition run_store : Tested := target [user_store].
Definition run_crash : Tested := target [user_crashA; user_crashB].
Definition run_mixedsize : Tested := target [user_mixedsizeA; user_mixedsizeB].

(** ** They use the interface as it is meant *)

(** Where [mmap] puts the CXL memory. *)
Definition mapped (cxl : Z) : Prop := cxl mod 4096 = 0 /\ 0 <= cxl /\ cxl + CXL_MEM_SIZE < 2 ^ 64.

Lemma mapped_access cxl off sz : mapped cxl -> sz = 1 \/ sz = 2 \/ sz = 4 \/ sz = 8 -> off mod sz = 0 -> 0 <= off < 4096 ->
  access (cxl + off) sz.
Proof.
  intros (Hm & H0 & Hb) Hsz Hoff Hr. unfold CXL_MEM_SIZE in Hb. split; [done|].
  assert (cxl = 4096 * (cxl / 4096)) as Hd by (pose proof (Z.div_mod cxl 4096 ltac:(done)); lia).
  split; [|lia]. destruct Hsz as [->|[->|[-> | ->]]]; Z.div_mod_to_equations; lia.
Qed.
Lemma mapped_base cxl sz : mapped cxl -> sz = 1 \/ sz = 2 \/ sz = 4 \/ sz = 8 -> access cxl sz.
Proof.
  intros Hm Hsz. replace cxl with (cxl + 0) by lia. apply mapped_access; [done|done| |lia]. by destruct Hsz as [->|[->|[-> | ->]]].
Qed.

Section Polite.
Context (cxl pc tid pid : Z) (Hm : mapped cxl).
Notation polite := (polite cxl pc tid pid).

Lemma polite_poll sz stop n : sz = 1 \/ sz = 2 \/ sz = 4 \/ sz = 8 -> forall read, polite (poll sz cxl stop n read).
Proof.
  intros Hsz. pose proof (mapped_base cxl sz Hm Hsz). induction n as [|n IH]; intros read; cbn [poll]; [apply polite_ret|].
  case_if; [apply polite_ret|]. apply polite_bind; [by apply polite_load|intros v; apply IH].
Qed.
Lemma polite_lines n : forall i, 0 <= i -> i + Z.of_nat n <= 64 -> polite (store_lines cxl n i).
Proof.
  induction n as [|n IH]; intros i Hi Hn; cbn [store_lines]; [apply polite_ret|].
  assert (access (cxl + i * CACHELINE_SIZE) 1) as Ha.
  { unfold CACHELINE_SIZE. apply mapped_access; [done|auto|apply Z.mod_1_r|lia]. }
  repeat (apply polite_bind; [polite|intros ?]). apply IH; lia.
Qed.
Lemma polite_tests main : main ∈ [user_store; user_crashA; user_crashB; user_mixedsizeA; user_mixedsizeB] -> polite main.
Proof.
  pose proof (mapped_base cxl 1 Hm ltac:(auto)). pose proof (mapped_base cxl 2 Hm ltac:(auto)).
  pose proof (mapped_access cxl 1 1 Hm ltac:(auto) eq_refl ltac:(lia)).
  intros Hin. set_unfold in Hin. destruct Hin as [->|[->|[->|[->|[->|[]]]]]]; apply polite_mapping;
    repeat (apply polite_bind; [first [apply polite_poll; auto|apply polite_lines; lia|polite]|intros ?]); polite.
Qed.
End Polite.

(** ** They take few steps and never wait *)
Section Cost.
Context (w : Z).

Lemma bounded_store sz loc v pos : bounded w (cxlmc_store sz loc v pos) 6.
Proof. unfold cxlmc_store. spend. Qed.
Lemma bounded_load sz loc pos : bounded w (cxlmc_load sz loc pos) 5.
Proof. unfold cxlmc_load. spend. Qed.
Hint Resolve bounded_store bounded_load : spend.
Hint Extern 2 (bounded _ (cxlmc_clflush _) _) => (apply bounded_issue; done) : spend.
Hint Extern 2 (bounded _ (cxlmc_mfence _) _) => (apply bounded_issue; done) : spend.

Lemma bounded_poll sz cxl stop n : forall read, bounded w (poll sz cxl stop n read) (5 * Z.of_nat n).
Proof.
  induction n as [|n IH]; intros read; cbn [poll]; [done|]. spend.
Qed.
Lemma bounded_lines cxl n : forall i, bounded w (store_lines cxl n i) (15 * Z.of_nat n).
Proof. induction n as [|n IH]; intros i; [done|]. cbn [store_lines]. spend. Qed.
Hint Resolve bounded_poll bounded_lines : spend.

Lemma bounded_tests main : main ∈ [user_store; user_crashA; user_crashB; user_mixedsizeA; user_mixedsizeB] -> bounded w main 65.
Proof.
  intros Hin. set_unfold in Hin. destruct Hin as [->|[->|[->|[->|[->|[]]]]]];
    unfold user_store, user_crashA, user_crashB, user_mixedsizeA, user_mixedsizeB; spend.
Qed.
End Cost.

Lemma unblocking_issue t loc val ord sz pos y : never_waits t = true -> unblocking (issue t loc val ord sz pos y).
Proof. by split. Qed.
Lemma unblocking_store sz loc v pos : unblocking (cxlmc_store sz loc v pos).
Proof. intros [|]; by simpl. Qed.
Lemma unblocking_load sz loc pos : unblocking (cxlmc_load sz loc pos).
Proof. intros [|]; by simpl. Qed.
Lemma unblocking_poll sz cxl stop n : forall read, unblocking (poll sz cxl stop n read).
Proof.
  induction n as [|n IH]; intros read; cbn [poll]; [done|]. case_if; [done|].
  apply unblocking_bind; [apply unblocking_load|exact IH].
Qed.
Lemma unblocking_lines cxl n : forall i, unblocking (store_lines cxl n i).
Proof.
  induction n as [|n IH]; intros i; cbn [store_lines]; [done|]. apply unblocking_bind; [apply unblocking_store|]. intros _.
  apply unblocking_bind; [case_if; [by apply unblocking_issue|done]|]. intros _.
  apply unblocking_bind; [apply unblocking_load|]. intros _. apply IH.
Qed.
Lemma unblocking_tests main : main ∈ [user_store; user_crashA; user_crashB; user_mixedsizeA; user_mixedsizeB] -> unblocking main.
Proof.
  intros Hin. set_unfold in Hin. destruct Hin as [->|[->|[->|[->|[->|[]]]]]]; (apply unblocking_bind; [done|intros cxl]);
    repeat (apply unblocking_bind; [first [apply unblocking_store|apply unblocking_load|apply unblocking_poll
      |apply unblocking_lines|by apply unblocking_issue]|intros ?]); done.
Qed.

(** ** The targets *)
Definition test_mains : list (prog Z) := [user_store; user_crashA; user_crashB; user_mixedsizeA; user_mixedsizeB].
Lemma target_main mains id : mains <> [] -> (forall main, main ∈ mains -> main ∈ test_mains) ->
  user_main (target mains) id ∈ test_mains.
Proof.
  intros Hne Hin. simpl. assert (0 < lenZ mains) as Hl by (destruct mains; [done|unfold lenZ; simpl; lia]).
  destruct (lookupZ_is_Some mains (id mod lenZ mains)) as [main Hm].
  { fold (lenZ mains). by apply Z.mod_pos_bound. }
  rewrite Hm. apply Hin. unfold lookupZ in Hm. destruct (_ <? 0); [done|]. by eapply list_elem_of_lookup_2.
Qed.
Lemma target_polite cxl pc mains : mapped cxl -> mains <> [] -> (forall main, main ∈ mains -> main ∈ test_mains) ->
  polite_program cxl pc (target mains).
Proof.
  intros Hm Hne Hin. constructor; [|intros; apply polite_ret]. intros id _. by apply polite_tests, target_main.
Qed.
Lemma target_bounded pc mains : mains <> [] -> (forall main, main ∈ mains -> main ∈ test_mains) ->
  bounded_program pc 65 12 (target mains).
Proof. intros Hne Hin. constructor; [|done|done]. intros id _. by apply bounded_tests, target_main. Qed.

(** C6: Five tests of the repository are explored completely: a target that runs
    the test programs [user_store], [user_crashA], [user_crashB],
    [user_mixedsizeA] and [user_mixedsizeB], in any choice, on at most 8
    processes, respects the checker's interface, and each of its executions ends
    with the last process within [turn_limit] turns, wherever the CXL memory is
    mapped and whatever the random numbers are, if [turn_limit] is below
    2^32 - 2; if the executions are at most [MAX_EXECUTION], [main]'s loop ends
    and has run each execution that the decisions make once.  For more than 8
    processes, such as the 16 of [run_store], the source copies tables that were
    never constructed ([Vector.store_init_9]). *)
Theorem tests_explored `{Rand} mains im pc fuel p save file : let P := target mains in
  let t := execution P fuel (start (machine_init im pc)) in
  mains <> [] -> (forall main, main ∈ mains -> main ∈ test_mains) -> 0 < pc <= 8 -> mapped (img_cxl im) ->
  turn_limit pc 65 < Z.of_nat fuel < 2 ^ 32 - 2 ->
  respects P fuel (start (machine_init im pc)) /\
  (forall v, v ∈ leaves t -> exists obs s, v = Ended obs s) /\
  (lenZ (leaves t) <= MAX_EXECUTION -> exists r' rs, explore P im fuel (first_run pc p save None file) = (Finished r', rs) /\
    visited P im fuel <$> rs = Some <$> leaves t).
Proof.
  cbn zeta. intros Hne Hin Hpc Hm Hf. pose proof (target_polite (img_cxl im) pc mains Hm Hne Hin) as Hp.
  split; [apply polite_respects; [lia|exact Hp|lia]|].
  apply (straight_explored _ im pc 65 12); [lia|exact Hp|by apply target_bounded| |done].
  intros id _. by apply unblocking_tests, target_main.
Qed.

(** [run_crash] and [run_mixedsize] with two processes. *)
Lemma page_mapped : mapped 4096.
Proof. done. Qed.
#[local] Notation run := (fun P fuel => execution (H := counter_rand) P (Z.to_nat fuel) (start (machine_init (mkImage ∅ 4096) 2))).
Lemma run_crash_leaves : lenZ (leaves (run run_crash 20000)) <= MAX_EXECUTION.
Proof. by vm_compute. Qed.
Lemma tests_explored_witness : exists r' rs,
  explore (H := counter_rand) run_crash (mkImage ∅ 4096) (Z.to_nat 20000) (first_run 2 (Process_init 0 0) None None None) = (Finished r', rs) /\
  visited (H := counter_rand) run_crash (mkImage ∅ 4096) (Z.to_nat 20000) <$> rs = Some <$> leaves (run run_crash 20000).
Proof.
  refine (proj2 (proj2 (tests_explored (H := counter_rand) [user_crashA; user_crashB] (mkImage ∅ 4096) 2 (Z.to_nat 20000)
    (Process_init 0 0) None None _ _ _ _ _)) run_crash_leaves);
    [done|intros main Hin; unfold test_mains; set_solver|done|exact page_mapped|].
  rewrite Z2Nat.id by done. done.
Defined.
Example run_crash_reads : loads_of <$> leaves (run run_crash 200) =
  [Some [1; 1; 1; 4]; Some [1; 1; 1; 4]].
Proof. by vm_compute. Qed.
Example run_mixedsize_reads : loads_of <$> leaves (run run_mixedsize 200) =
  [Some [2; 2; 2; 4]; Some [2; 2; 2; 4]].
Proof. by vm_compute. Qed.
