(* ===== verification/Fairness.v ===== *)
(** * Fairness: a thread that can run is not passed over for long

    [Scheduler::yield], [last_yield] and [finalize] scan the thread table from
    the thread that gives the processor away.  A thread that can run stays so
    while others take their turns, unless its process ends, and each hand-over
    brings the active thread closer to it in the cyclic order of the table, also
    when threads are created in between.  The bound counts hand-overs: a thread
    that never waits keeps the processor. *)
From S2P Require Import Prelude Choice Action ReadFrom CacheLine ThreadMemory State Scheduler ModelCore Executor Wf ModelSafe Safety Frame Evolve Machine.

Section Fair.
Context `{Rand}.

(** [k] turns lead from [m] to [m'], [h] of them hand over to another thread, and
    the thread [j] is never active. *)
Inductive passes_over (j : Z) : nat -> nat -> Machine -> Machine -> Prop :=
| pass_nil m : current m <> j -> passes_over j 0 0 m m
| pass_step h h' k m m1 m2 : current m <> j -> mstep m m1 -> passes_over j h k m1 m2 ->
    h' = ((if decide (current m1 = current m) then 0 else 1) + h)%nat -> passes_over j h' (S k) m m2.
End Fair.

(** How far [j] is behind the active thread [a] when the table never exceeds [N]. *)
Definition ahead (j N a : Z) : Z := if a <? j then j - a else N - a + j.

Lemma ahead_bounds j N a : 0 <= a < N -> 0 <= j < N -> a <> j -> 1 <= ahead j N a <= N - 1.
Proof. unfold ahead. intros. case_if; bools; lia. Qed.

Lemma mod_once x n : 0 <= x < 2 * n -> x mod n = if x <? n then x else x - n.
Proof.
  intros Hx. case_if; bools; [apply Z.mod_small; lia|].
  symmetry. apply Z.mod_unique with (q := 1); lia.
Qed.

(** A hand-over that does not reach [j] comes closer to it. *)
Lemma scan_ahead p l a b j t N : 0 <= a < lenZ l -> lenZ l <= N -> lookupZ l j = Some t -> p t = true -> j <> a ->
  scan_others a p l = Some b -> b <> j -> ahead j N b < ahead j N a.
Proof.
  intros Ha HN Hj Hp Hne (i & u & Hi & -> & Hu & Hpu & Hno)%scan_Some Hb.
  apply lookupZ_Some in Hj as Hjl. fold (lenZ l) in Hjl.
  assert (1 <= i < lenZ l) as Hil by (unfold lenZ in *; lia). clear Hi.
  assert (~ (if a <? j then j - a else lenZ l - a + j) < i) as Hd.
  { intros Hlt. eapply (eq_true_false_abs _ Hp), (Hno (if a <? j then j - a else lenZ l - a + j)).
    - case_if; bools; lia.
    - rewrite <- Hj. f_equal. rewrite mod_once by (case_if; bools; lia). repeat case_if; bools; lia. }
  rewrite mod_once in * by lia. unfold ahead. repeat case_if; bools; lia.
Qed.

Lemma lenZ_mono {A} (l l' : list A) :
  (forall i x, lookupZ l i = Some x -> exists y, lookupZ l' i = Some y) -> lenZ l <= lenZ l'.
Proof.
  intros Hl. destruct (decide (lenZ l = 0)) as [->|Hn]; [unfold lenZ; lia|].
  destruct (lookupZ_is_Some l (lenZ l - 1)) as [x Hx]; [unfold lenZ in *; lia|].
  destruct (Hl _ _ Hx) as [y Hy%lookupZ_Some]. unfold lenZ in *. lia.
Qed.

Section Passed.
Context `{Rand} (j : Z).

Definition thread_of (m : Machine) : option Thread := lookupZ (threads (sched (shared m))) j.
Definition table_size (m : Machine) : Z := lenZ (threads (sched (shared m))).

Lemma current_bounds B m : minv B m -> 0 <= current m < table_size m.
Proof. intros Hm. destruct (minv_self _ _ Hm) as (u & Hu & _). by apply lookupZ_Some in Hu. Qed.

Lemma passes_over_minv h k m m' : passes_over j h k m m' -> forall B, minv B m -> B + Z.of_nat k < 2 ^ 32 - 2 ->
  minv (B + Z.of_nat k) m'.
Proof.
  induction 1 as [m Hc|h h' k m m1 m2 Hc Hs Hp IH Hh']; intros B Hm HB; [by rewrite Z.add_0_r|].
  replace (B + Z.of_nat (S k)) with (B + 1 + Z.of_nat k) by lia.
  apply IH; [|lia]. by destruct (mstep_turn B m m1 Hm ltac:(lia) Hs).
Qed.

Lemma passed_size tid m m' : passed tid (shared m) (shared m') -> table_size m <= table_size m'.
Proof. intros P. apply lenZ_mono. intros i t Ht. destruct (pa_threads _ _ _ P i t Ht) as (t' & Ht' & _). by exists t'. Qed.

(** The table only grows, and a thread that has ended stays so. *)
Lemma passes_over_grows h k m m' : passes_over j h k m m' -> forall B, minv B m -> B + Z.of_nat k < 2 ^ 32 - 2 ->
  table_size m <= table_size m' /\
  forall t, thread_of m = Some t -> thread_is_completed t = true ->
    exists t', thread_of m' = Some t' /\ thread_is_completed t' = true.
Proof.
  induction 1 as [m Hc|h h' k m m1 m2 Hc Hs Hp IH Hh']; intros B Hm HB; [split; [done|]; intros t; by exists t|].
  destruct (mstep_turn B m m1 Hm ltac:(lia) Hs) as (Hm1 & P & _).
  destruct (IH (B + 1) Hm1 ltac:(lia)) as [Hl Hd]. split; [etrans; [by eapply passed_size|done]|].
  intros t Ht Hcm. destruct (pa_threads _ _ _ P j t Ht) as (t1 & Ht1 & _ & _ & Hc1 & _). eauto.
Qed.

Lemma passes_over_closer h k m m' : passes_over j h k m m' -> forall B t, minv B m -> B + Z.of_nat k < 2 ^ 32 - 2 ->
  thread_of m = Some t -> thr_state t = THREAD_RUNNING ->
  (forall t', thread_of m' = Some t' -> thread_is_completed t' = false) ->
  Z.of_nat h + ahead j (table_size m') (current m') <= ahead j (table_size m') (current m) /\
  (exists t', thread_of m' = Some t' /\ thr_state t' = THREAD_RUNNING) /\
  0 <= current m < table_size m /\ current m' <> j.
Proof.
  induction 1 as [m Hc|h h' k m m1 m2 Hc Hs Hp IH Hh']; intros B t Hm HB Ht Hr Hend.
  { split; [lia|]. split; [by exists t|]. split; [by eapply current_bounds|done]. }
  destruct (mstep_turn B m m1 Hm ltac:(lia) Hs) as (Hm1 & P & _ & Hh).
  destruct (pa_threads _ _ _ P j t Ht) as (t1 & Ht1 & _ & _ & _ & Hrun).
  destruct (passes_over_grows _ _ _ _ Hp _ Hm1 ltac:(lia)) as [Hl Hd].
  assert (thr_state t1 = THREAD_RUNNING) as Hr1.
  { destruct (Hrun ltac:(done)) as [Hcm|[_ Hx]]; [|by apply Hx].
    destruct (Hd t1 Ht1 Hcm) as (t2 & Ht2 & Hc2). by rewrite (Hend t2 Ht2) in Hc2. }
  destruct (IH (B + 1) t1 Hm1 ltac:(lia) Ht1 Hr1 Hend) as (H1 & H2 & H3 & H4).
  split; [|split; [done|split; [by eapply current_bounds|done]]].
  assert (current m1 <> j) as Hc1 by (by destruct Hp).
  subst h'. case_decide as Hsame; [rewrite <- Hsame; lia|].
  assert (ahead j (table_size m2) (current m1) < ahead j (table_size m2) (current m)) as Hlt; [|lia].
  pose proof (mi_active _ _ Hm1) as Ha1. unfold is_active in Ha1. fold (current m1) in Ha1. rewrite Ha1 in Hh.
  destruct Hh as [Hh|Hh]; [done|].
  eapply (scan_ahead is_running _ (current m) (current m1) j t1); [|done|exact Ht1|by apply is_running_spec|done|exact Hh|done].
  pose proof (current_bounds _ _ Hm). apply passed_size in P. unfold table_size in *. lia.
Qed.
End Passed.

(** C13: No starvation: a thread that can run becomes active, or its process ends,
    before the other threads hand the processor over as often as there are
    threads less one; until then it can run.  The count holds for every program,
    every decision, and with threads that are created meanwhile. *)
Theorem no_starvation `{Rand} pc n m j t h k m' t' : 0 < pc -> reachable pc n m -> Z.of_nat (n + k) < 2 ^ 32 - 2 ->
  thread_of j m = Some t -> thr_state t = THREAD_RUNNING ->
  passes_over j h k m m' -> thread_of j m' = Some t' -> thread_is_completed t' = false ->
  Z.of_nat h <= table_size m' - 2 /\ thr_state t' = THREAD_RUNNING.
Proof.
  intros Hpc Hreach Hn Ht Hr Hp Ht' Hc'.
  pose proof (reachable_minv pc n m Hpc (fun _ => I) Hreach ltac:(lia)) as Hm.
  destruct (passes_over_closer j h k m m' Hp _ t Hm ltac:(lia) Ht Hr) as (H1 & (t2 & Ht2 & Hr2) & H3 & H4).
  { intros u Hu. rewrite Ht' in Hu. by injection Hu as <-. }
  rewrite Ht' in Ht2. injection Ht2 as <-. split; [|done].
  destruct (passes_over_grows j h k m m' Hp _ Hm ltac:(lia)) as [Hl _].
  pose proof (current_bounds _ _ (passes_over_minv j h k m m' Hp _ Hm ltac:(lia))) as Hcm.
  apply lookupZ_Some in Ht as Hj. apply lookupZ_Some in Ht' as Hj'.
  assert (current m <> j) as Hne by (by destruct Hp).
  pose proof (ahead_bounds j (table_size m') (current m) ltac:(lia) ltac:(done) Hne).
  pose proof (ahead_bounds j (table_size m') (current m') ltac:(lia) ltac:(done) H4). lia.
Qed.

(** Thread 2 of three waits while the first process yields to the second. *)
Definition demo_yielded : St :=
  match leaves (issue_action (H := counter_rand) demo_yield true (shared (machine_init blank 3))) with
  | [Val _ s] => s
  | _ => shared (machine_init blank 3)
  end.
Definition demo_passed : Machine :=
  dispatch (mkMachine demo_yielded (globals (machine_init blank 3)) (set_wait 0 (Some (Waits PExec demo_yield)) ∅)).
Lemma demo_passes : passes_over (H := counter_rand) 2 1 1 (machine_init blank 3) demo_passed.
Proof.
  eapply (pass_step 2 0 1 0 _ demo_passed); [done| |by constructor|reflexivity].
  apply (step_turn (machine_init blank 3) (issue_action (H := counter_rand) demo_yield true)).
  - apply turn_issue; [reflexivity|]. constructor; try done. by intros [?|?].
  - vm_compute. left.
Qed.
Lemma no_starvation_witness : Z.of_nat 1 <= table_size demo_passed - 2 /\ thr_state (Thread_main 2) = THREAD_RUNNING.
Proof.
  apply (no_starvation (H := counter_rand) 3 0 (machine_init blank 3) 2 (Thread_main 2) 1 1 demo_passed (Thread_main 2));
    [lia|constructor|lia|reflexivity|reflexivity|exact demo_passes|reflexivity|reflexivity].
Defined.
