(* ===== verification/Exclusion.v ===== *)
(** * Exclusion: a mutex has one holder, who keeps it

    A thread that holds a mutex keeps it through the turns of all other threads
    and processes, whatever they do: they may lock, try and unlock the mutex, wait
    with it, crash or end.  Only the thread itself gives it up, or its own end.
    So no two threads are between locking and unlocking at the same time.  A mutex
    whose owner has crashed can be taken over ([Locks]). *)
From S2P Require Import Prelude Choice Action ReadFrom CacheLine ThreadMemory State Scheduler ModelCore Executor Wf ModelSafe Safety Frame Evolve Program Pthread Machine Waiting Fairness.

(** ** A turn of another thread *)
Section Owned.
Context `{Rand} (tid i k : Z).
Hypothesis Hi : tid <> i.

Definition owned (s : St) : Prop := exists mx, mutexes s !! k = Some mx /\ owner mx = Some i.
Definition sound (s : St) : Prop := exists t, lookupZ (threads (sched s)) i = Some t /\ thr_state t <> THREAD_CRASHED.
(** [tid] runs while [i], which has not crashed, owns the mutex. *)
Definition kept (s : St) : Prop := thread_id (proc s) = tid /\ owned s /\ sound s.
(** Where the process of [tid] ends, [i] may have crashed with it. *)
Definition left_to (e : stop) (s : St) : Prop := e = Exit EXIT_SUCCESS -> thread_id (proc s) = tid /\ owned s.

Lemma sound_table f s : (forall t, lookupZ (threads (sched s)) i = Some t -> thr_state t <> THREAD_CRASHED ->
    exists t', lookupZ (threads (f (sched s))) i = Some t' /\ thr_state t' <> THREAD_CRASHED) ->
  kept s -> kept (on_sched f s).
Proof. intros Hf (H1 & H2 & t & Ht & Hc). do 2 (split; [done|]). by apply (Hf t). Qed.
Lemma kept_update j f s : (forall t, j = i -> thr_state t <> THREAD_CRASHED -> thr_state (f t) <> THREAD_CRASHED) ->
  kept s -> kept (on_thread j f s).
Proof.
  intros Hf. apply sound_table. simpl. intros t Ht Hc. rewrite lookupZ_update_at, Ht.
  case_decide; eexists; (split; [reflexivity|]); auto.
Qed.

(** The others may do everything but release the mutex. *)
Lemma kept_frame : frame_on (fun w => w <> OMutex k) kept left_to.
Proof.
  constructor; [|by intros e s He _ ?]. constructor; try done.
  - intros e s He _ ->. done.
  - intros j f s Hf. apply kept_update. intros t _. by rewrite (proj1 (proj2 (Hf t))).
  - intros v s _. apply sound_table. intros t Ht Hc. rewrite wake_all_lookup, Ht. eexists. split; [reflexivity|].
    by case_bool_decide.
  - intros j v s _. apply sound_table. intros t Ht Hc. unfold wake_thread_waiting_on.
    destruct (scan_others j _ _); [|by exists t]. simpl. rewrite lookupZ_update_at, Ht.
    case_decide; eexists; (split; [reflexivity|]); done.
  - intros m f s Hm (H1 & (mx & Hmx & Ho) & t & Ht & Hc). split; [done|]. split; [|by exists t]. unfold owned. simpl.
    destruct (decide (m = k)) as [->|Hne]; [|exists mx; by rewrite lookup_alter_ne].
    rewrite lookup_alter_eq, Hmx. eexists. split; [reflexivity|]. destruct Hm as [Hm|[Hm|Hm]]; [done| |by rewrite Hm].
    destruct (Hm mx i Hmx Ho) as (u & Hu & Hcu). congruence.
  - intros f s (_ & Hf & _) (H1 & H2 & H3). split; [|done]. simpl. congruence.
  - intros s (H1 & H2 & _) _. by split.
Qed.
Let F := kept_frame.

Lemma kept_active n s : kept s -> kept (on_sched (fun _ => with_active n (sched s)) s).
Proof. done. Qed.
Lemma kept_state j ts s : j <> i -> kept s -> kept (on_thread j (set_state ts) s).
Proof. intros Hj. by apply kept_update. Qed.
Lemma kept_pending p s : kept s -> kept (on_thread (thread_id (proc s)) (set_pending p) s).
Proof. by apply kept_update. Qed.
Lemma kept_self s : kept s -> thread_id (proc s) <> i.
Proof. intros [-> _]. exact Hi. Qed.
Lemma kept_yield : keeps kept left_to yield.
Proof. apply (keeps_yield _ _ _ F), kept_active. Qed.
Lemma kept_wait (b : bool) : moves kept left_to (thread_wait tid) (fun (b : bool) s => if b then kept s else kept s).
Proof.
  apply moves_keeps; [|by intros [|]]. by apply (keeps_wait _ _ _ F (fun j => j <> i)); [apply kept_active|apply kept_state|].
Qed.

(** An unlock by a thread that is not the owner changes nothing but [errno]. *)
Lemma kept_unlock a : act_tid a = tid -> get_mutex a = inr k ->
  moves kept left_to (exec_unlock a) (progress_post kept (fun _ => kept)).
Proof.
  intros Ha Hm s Hs. unfold exec_unlock, get_mutex_obj. rewrite Hm. wp_step. unfold wp at 1; simpl. wp_step. wp_step.
  unfold wp at 1; simpl. pose proof Hs as (_ & (mx & Hmx & Ho) & _). rewrite Hmx. unfold wp at 1; simpl.
  rewrite bool_decide_eq_false_2 by (rewrite Ho; congruence). simpl. unfold set_errno. wp_step. unfold wp; simpl.
  by apply (fr_proc _ _ _ F).
Qed.
Lemma unlock_type a : woken_by a = Some (OMutex k) -> get_mutex a = inr k /\ execute a = exec_unlock a.
Proof.
  unfold woken_by, execute. destruct (act_type a); try done.
  all: try (destruct (get_mutex a) as [e|m]; [done|]; by intros [= ->]).
  all: by destruct (get_cond a).
Qed.
Lemma kept_execute a : act_tid a = tid -> moves kept left_to (execute a) (progress_post kept (fun _ => kept)).
Proof.
  intros Ha. destruct (decide (woken_by a = Some (OMutex k))) as [Hw|Hw].
  { destruct (unlock_type a Hw) as [Hm ->]. by apply kept_unlock. }
  apply (moves_execute _ _ _ F).
  - intros p _. rewrite Ha. exact (kept_wait true).
  - intros _. apply moves_keeps; [|by intros [|]].
    apply (keeps_thread_finalize _ _ _ F (fun j => j <> i)); [apply kept_active|apply kept_state|apply kept_self].
  - intros _. apply (keeps_create _ _ _ F); [|done]. intros f arg s. apply sound_table. simpl. intros t Hl Hc. exists t.
    split; [by apply lookupZ_app_l|done].
  - intros v Hv ->. done.
Qed.

(** Whole actions. *)
Definition outcome_kept (r : result St outcome) : Prop :=
  match r with Val _ s => kept s | Stop e s => left_to e s end.
Lemma outcome_kept_weaken r :
  match r with Val o s => outcome_post kept (fun _ => kept) o s | Stop e s => left_to e s end -> outcome_kept r.
Proof. by destruct r as [[w|p] s|e s]. Qed.
Lemma kept_action a y s : act_tid a = tid -> kept s -> wp (action a y) outcome_kept s.
Proof.
  intros Ha Hs. eapply wp_mono; [apply outcome_kept_weaken|].
  apply (moves_action _ _ _ F kept_pending); [|intros a' _ H2 _|exact Hs].
  - apply (moves_switch _ _ (fun _ => kept) PExec kept_yield). done.
  - apply kept_execute. congruence.
Qed.
Lemma kept_resume p a s : act_tid a = tid -> (p = PLock -> act_type a = ATOMIC_LOCK) -> kept s -> wp (resume p a) outcome_kept s.
Proof.
  intros Ha Hp Hs. eapply wp_mono; [apply outcome_kept_weaken|].
  apply (moves_resume _ _ _ F kept_pending); [intros a' _ H2 _|intros -> m|exact Hs].
  - apply kept_execute. congruence.
  - apply (moves_lock_loop _ _ _ F); [|by apply Hp]. intros q _. rewrite Ha. exact (kept_wait true).
Qed.

(** The end of a process. *)
Lemma hold_same s s' : sched s' = sched s -> thread_id (proc s') = thread_id (proc s) -> mutexes s' = mutexes s -> kept s -> kept s'.
Proof. unfold kept, owned, sound. by intros -> -> ->. Qed.
Lemma kept_completed j s : kept s -> kept (on_thread j (set_state THREAD_COMPLETED) s).
Proof. by apply kept_update. Qed.
Lemma kept_exit s : kept s -> left_to (Exit EXIT_SUCCESS) s.
Proof. intros (H1 & H2 & _) _. by split. Qed.
Lemma kept_end : keeps kept left_to end_process.
Proof. exact (frame_end _ _ _ F hold_same kept_completed kept_exit). Qed.
Lemma kept_done : keeps kept left_to user_done.
Proof. exact (frame_done _ _ _ F hold_same kept_completed kept_exit kept_yield). Qed.
End Owned.

(** The exit handler does not look at the mutexes. *)
Lemma finalize_mutexes s : wp finalize (fun r => match r with Val _ s' => mutexes s' = mutexes s | Stop _ _ => True end) s.
Proof.
  unfold finalize, self_tid, get_thread, last_yield, assert_active, on_sched_err. wp_step. unfold wp at 1; simpl. wp_step. wp_step.
  unfold wp at 1; simpl. destruct (lookupZ _ _) as [t|]; [|done]. unfold wp at 1; simpl. wp_step.
  assert (forall s1, mutexes s1 = mutexes s -> wp (let! s := get in
    if terminating (sched s) then ret false else
      assert_active ;;; let! s0 := get in let! (b, c) := lift (last_yield_sched (sched s0)) in
      modify (on_sched (fun _ => c)) ;;; ret b)
    (fun r => match r with Val _ s' => mutexes s' = mutexes s | Stop _ _ => True end) s1) as Hk.
  { intros s1 H1. unfold assert_active. wp_step. unfold wp at 1; simpl. case_if; [done|]. wp_step. wp_step. unfold wp at 1; simpl.
    destruct (_ =? _); [|done]. unfold wp at 1; simpl. wp_step. unfold wp at 1; simpl. wp_step.
    destruct (last_yield_sched _) as [e|[b c]]; [done|]. by unfold wp; simpl. }
  case_if; [by apply Hk|]. unfold wp at 1; simpl. by apply Hk.
Qed.

(** ** The turns of the machine *)
Section Turns.
Context `{Rand} (i k : Z).

Definition owns (m : Machine) : Prop := owned i k (shared m).
Definition alive (m : Machine) : Prop :=
  exists t, lookupZ (threads (sched (shared m))) i = Some t /\ thread_is_completed t = false.
Lemma alive_sound m : alive m -> sound i (shared m).
Proof. intros (t & Ht & Hc). exists t. split; [done|]. intros E. unfold thread_is_completed in Hc. by rewrite E in Hc. Qed.

Lemma turn_kept B m c : minv B m -> current m <> i -> kept (current m) i k (shared m) -> turn m c ->
  wp c (fun r => match r with
    | Val _ s => kept (current m) i k s
    | Stop e s => left_to (current m) i k e s
    end) (shared m).
Proof.
  intros Hm Hi Hs Hc.
  assert (forall (a : ModelAction) x, wp x (outcome_kept (current m) i k) (shared m) ->
    wp (let! y := x in ret (after_action a y)) (fun r => match r with
      | Val _ s => kept (current m) i k s
      | Stop e s => left_to (current m) i k e s end) (shared m)) as Ho.
  { intros a x Hx. rewrite wp_bind. eapply wp_mono; [|exact Hx]. by intros [y s|e s]. }
  destruct Hc as [a y Hwt Ha|p a Hwt|X c Hwt Hc|t Hwt Ht Hmain|Hwt].
  - apply Ho, kept_action; [done|apply Ha|done].
  - destruct (mi_waits _ _ Hm _ _ Hwt) as (t & Ht & Hok). destruct (minv_self B m Hm) as (u & Hu & _ & Hru & _).
    rewrite Ht in Hu. injection Hu as <-.
    destruct Hok as [Hc|(Hp & Ha & _)]; [by rewrite (running_not_completed _ Hru) in Hc|].
    apply Ho, kept_resume; [done|apply Ha|by intros ->|done].
  - unfold run_own. rewrite wp_bind. eapply wp_mono; [|by apply (own_steps B m Hm X c Hc)].
    intros [x s|e s]; [|done]. intros [Hx|[r ->]].
    + destruct Hs as (H1 & (mx & Hmx & Hox) & t & Ht & Hct). unfold wp; simpl. split; [by destruct (os_process _ _ _ Hx) as [_ ->]|].
      split; [exists mx; split; [|done]; eapply lookup_weaken; [exact Hmx|apply Hx]|]. exists t. by rewrite (os_sched _ _ _ Hx).
    + unfold wp; simpl. apply kept_update; [by intros u|done].
  - by apply kept_done.
  - by apply kept_end.
Qed.

Lemma mstep_owns B m m' : minv B m -> current m <> i -> owns m -> alive m -> mstep m m' -> owns m'.
Proof.
  intros Hm Hi Ho Ha Hs. assert (kept (current m) i k (shared m)) as Hk by (split; [done|split; [done|by apply alive_sound]]).
  assert (forall s gs ws, owned i k s -> owns (dispatch (mkMachine s gs ws))) as Hd.
  { intros s gs ws Hx. unfold owns. by destruct (dispatch_shared s gs ws) as [f ->]. }
  destruct Hs as [c w s Hc Hin|c s s' Hc Hin Hin']; apply Hd;
    pose proof (wp_leaf _ _ _ _ (turn_kept B m c Hm Hi Hk Hc) Hin) as Hx; simpl in Hx; [by apply Hx|].
  destruct (Hx eq_refl) as [_ Hox]. pose proof (wp_leaf _ _ _ _ (finalize_mutexes s) Hin') as Hf. simpl in Hf.
  unfold owned. by rewrite Hf.
Qed.

(** Over any number of turns of the others, to the end of which [i] lives. *)
Lemma passes_over_owns h l m m' : passes_over i h l m m' -> forall B, minv B m -> B + Z.of_nat l < 2 ^ 32 - 2 ->
  owns m -> (exists t, lookupZ (threads (sched (shared m))) i = Some t) -> alive m' -> owns m'.
Proof.
  induction 1 as [m Hc|h h' l m m1 m2 Hc Hs Hp IH Hh']; intros B Hm HB Ho (t & Ht) Ha; [done|].
  destruct (mstep_turn B m m1 Hm ltac:(lia) Hs) as (Hm1 & P & _).
  assert (alive m) as Hal.
  { exists t. split; [done|]. apply not_true_is_false. intros Hct. destruct Ha as (t2 & Ht2 & Hc2).
    destruct (passes_over_grows i h' (S l) m m2 ltac:(by eapply pass_step) B Hm ltac:(lia)) as [_ Hd].
    destruct (Hd t Ht Hct) as (t3 & Ht3 & Hc3). unfold thread_of in Ht3. congruence. }
  destruct (pa_threads _ _ _ P i t Ht) as (t1 & Ht1 & _).
  apply (IH (B + 1)); [done|lia|exact (mstep_owns B m m1 Hm Hc Ho Hal Hs)|by exists t1|done].
Qed.
End Turns.

(** ** Mutual exclusion *)

(** C27: Mutual exclusion: a thread that holds a mutex holds it after any number of
    turns of other threads and processes, whatever allowed actions they carry
    out (also on this mutex), whatever they do in between and whichever
    decisions are taken, as long as it has not ended or crashed; and no other
    living thread holds the mutex then.  So a thread between its lock and its
    unlock excludes all others. *)
Theorem mutual_exclusion `{Rand} pc n m i k h l m' : 0 < pc -> reachable pc n m -> Z.of_nat (n + l) < 2 ^ 32 - 2 ->
  holds_mutex (shared m) i k -> passes_over i h l m m' ->
  (exists t, lookupZ (threads (sched (shared m'))) i = Some t /\ thread_is_completed t = false) ->
  holds_mutex (shared m') i k /\ forall j, holds_mutex (shared m') j k -> j = i.
Proof.
  intros Hpc Hr Hn Hh Hp Ha. pose proof (reachable_minv (PAST := no_past) pc n m Hpc (fun _ => I) Hr ltac:(lia)) as Hm.
  pose proof (passes_over_minv i h l m m' Hp _ Hm ltac:(lia)) as Hm'. pose proof (mi_wf _ _ Hm') as Hw'.
  assert (owns i k m') as (mx & Hmx & Ho).
  { eapply passes_over_owns; [exact Hp|exact Hm|lia|exact (holder_owns _ _ _ _ (mi_wf _ _ Hm) Hh)| |exact Ha].
    destruct Hh as (t & Ht & _). by exists t. }
  destruct (alive_sound i m' Ha) as (t & Ht & Hc). split; [by eapply owner_holds|].
  intros j Hj. destruct (holder_owns _ _ _ _ Hw' Hj) as (my & Hmy & Hoj). congruence.
Qed.

(** Process 0 locks the mutex 1 and yields; process 1 tries to lock it and unlocks it. *)
Definition demo_try : M St (option activity) := issue_action (H := counter_rand) (demo_act 1 ATOMIC_TRYLOCK 1 0) false.
Definition demo_unlock : M St (option activity) := issue_action (H := counter_rand) (demo_act 1 ATOMIC_UNLOCK 1 0) false.
Definition demo_held : list (M St (option activity)) := take 3 demo_contend ++ [demo_try; demo_unlock].
Definition demo_held_at (i : nat) : Machine := played demo_held i.

Lemma demo_held_reachable : reachable (H := counter_rand) 2 3 (demo_held_at 3).
Proof.
  eapply reach_step; [eapply reach_step; [eapply reach_step; [apply (reach_init 2 blank)|]|]|].
  - apply (played_step demo_held 0 (run_own (mutex_init 64 None))); [apply turn_own; [by vm_compute|apply (own_mutex_init _ 64 None)]|by vm_compute].
  - apply (played_issue demo_held 1 0 ATOMIC_LOCK false); [by vm_compute|by vm_compute|auto|vm_compute; by eexists|by vm_compute].
  - apply (played_issue demo_held 2 0 THREAD_YIELD true); [by vm_compute|by vm_compute|auto|vm_compute; by eexists|by vm_compute].
Qed.
Lemma demo_held_passes : passes_over (H := counter_rand) 0 0 2 (demo_held_at 3) (demo_held_at 5).
Proof.
  eapply (pass_step 0 0 0 1 _ (demo_held_at 4)); [by vm_compute| | |by vm_compute].
  - apply (played_issue demo_held 3 1 ATOMIC_TRYLOCK false); [by vm_compute|by vm_compute|auto|vm_compute; by eexists|by vm_compute].
  - eapply (pass_step 0 0 0 0 _ (demo_held_at 5)); [by vm_compute| |by constructor; vm_compute|by vm_compute].
    apply (played_issue demo_held 4 1 ATOMIC_UNLOCK false); [by vm_compute|by vm_compute|auto|vm_compute; by eexists|by vm_compute].
Qed.
Lemma mutual_exclusion_witness : holds_mutex (shared (demo_held_at 5)) 0 1 /\ ~ holds_mutex (shared (demo_held_at 5)) 1 1.
Proof.
  destruct (mutual_exclusion (H := counter_rand) 2 3 (demo_held_at 3) 0 1 0 2 (demo_held_at 5)) as [H1 H2].
  - lia.
  - exact demo_held_reachable.
  - lia.
  - destruct (lookupZ (threads (sched (shared (demo_held_at 3)))) 0) as [t|] eqn:Ht; [|by vm_compute in Ht].
    exists t. vm_compute in Ht. injection Ht as <-. split; [done|]. split; [done|]. apply (bool_decide_unpack _). by vm_compute.
  - exact demo_held_passes.
  - destruct (lookupZ (threads (sched (shared (demo_held_at 5)))) 0) as [t|] eqn:Ht; [|by vm_compute in Ht].
    exists t. vm_compute in Ht. injection Ht as <-. by split.
  - split; [exact H1|]. intros Hj. by specialize (H2 1 Hj).
Defined.
