(* ===== verification/MemApi.v ===== *)
(** * MemApi: copying and filling memory through the model

    [src/src/user/memapi.cc].  [memcpy], [memmove], [memset], [bzero] and
    [strcpy] on CXL memory go through the model in aligned pieces of 8, 4, 2 or
    1 bytes; other memory goes to the C library.  The loop counter is an
    [unsigned]. *)
From S2P Require Import Prelude Choice Action ReadFrom CacheLine ThreadMemory State Scheduler ModelCore Executor Program Api.

(** ** The loops *)

(** [(x + i) & 7] and the like for the addresses [xs]; then the bound. *)
Definition all_aligned (w : Z) (xs : list Z) (i : Z) : bool :=
  forallb (fun x => Z.land (u64 (x + i)) (w - 1) =? 0) xs.
Definition piece (xs : list Z) (n i : Z) : Z :=
  if all_aligned 8 xs i && (u32 (i + 8) <=? n) then 8
  else if all_aligned 4 xs i && (u32 (i + 4) <=? n) then 4
  else if all_aligned 2 xs i && (u32 (i + 2) <=? n) then 2
  else 1.

(** [for (unsigned i = 0; i < n;)]: [body i w] handles [w] bytes. *)
Fixpoint mem_loop (fuel : nat) (xs : list Z) (n i : Z) (body : Z -> Z -> prog unit) : prog unit :=
  if i <? n then
    match fuel with
    | O => perform (halt (NoReturn "memory loop"))
    | S fuel =>
        let w := piece xs n i in
        let* _ := body i w in mem_loop fuel xs n (u32 (i + w)) body
    end
  else Ret tt.

Definition copy_body (dst src : Z) (position : string) (i w : Z) : prog unit :=
  let* v := cxlmc_load w (u64 (src + i)) position in cxlmc_store w (u64 (dst + i)) v position.

Definition cxlmc_memmove (dst src n : Z) : prog Z :=
  let* _ := mem_loop (Z.to_nat n) [src; dst] n 0 (copy_body dst src "memmove") in Ret dst.
Definition cxlmc_memcpy (dst src n : Z) : prog Z :=
  let* _ := mem_loop (Z.to_nat n) [src; dst] n 0 (copy_body dst src "memcpy") in Ret dst.

(** The fill value of a piece; [cs2 << 16 | cs2] has type [int]. *)
Definition fill_value (c w : Z) : Z :=
  let cs := Z.land c 255 in
  let cs2 := u16 (Z.lor (Z.shiftl cs 8) cs) in
  let cs3 := swrap 32 (Z.lor (Z.shiftl cs2 16) cs2) in
  if w =? 8 then let cs3 := u64 cs3 in u64 (Z.lor (Z.shiftl cs3 32) cs3)
  else if w =? 4 then u32 cs3
  else if w =? 2 then cs2
  else cs.

Definition cxlmc_memset (dst c n : Z) : prog Z :=
  let* _ := mem_loop (Z.to_nat n) [dst] n 0
              (fun i w => cxlmc_store w (u64 (dst + i)) (fill_value c w) "memset") in
  Ret dst.

Definition cxlmc_bzero (dst n : Z) : prog unit :=
  mem_loop (Z.to_nat n) [dst] n 0 (fun i w => cxlmc_store w (u64 (dst + i)) 0 "bzero").

(** [while (src[n] != 0) n++]: the memory ends somewhere, so a zero is found
    after at most as many bytes as it has. *)
Fixpoint strlen_loop (fuel : nat) (m : gmap Z Z) (src n : Z) : option Z :=
  if load_byte m (src + n) =? 0 then Some n
  else match fuel with O => None | S fuel => strlen_loop fuel m src (n + 1) end.
Definition strlen (m : gmap Z Z) (src : Z) : option Z := strlen_loop (size m) m src 0.

Definition cxlmc_strcpy (dst src : Z) : prog Z :=
  let* m := perform (gets memory) in
  let* n := perform (from_some (strlen m src) (NoReturn "strlen")) in
  let* _ := mem_loop (Z.to_nat n) [src; dst] n 0 (copy_body dst src "strcpy") in Ret dst.

(** ** The functions that replace those of the C library *)

(** Byte loops for the time before the library functions are known. *)
Definition move_byte (dst src i : Z) : M St unit :=
  let! v := raw_load (u64 (src + i)) 1 in raw_store (u64 (dst + i)) 1 v.
Definition copy_up (dst src n : Z) : M St unit := for_each (seqZ 0 n) (move_byte dst src).
Definition copy_down (dst src n : Z) : M St unit := for_each (rev (seqZ 0 n)) (move_byte dst src).
Definition set_bytes (dst c n : Z) : M St unit := for_each (seqZ 0 n) (fun i => raw_store (u64 (dst + i)) 1 (u8 c)).

Section Interposed.
(** The functions that [dlsym] finds, [None] before [init_memory_ops]. *)
Variables memcpy_real memmove_real : option (Z -> Z -> Z -> prog Z).
Variable memset_real : option (Z -> Z -> Z -> prog Z).
Variable bzero_real : option (Z -> Z -> prog unit).
Variable strcpy_real : option (Z -> Z -> prog Z).

Definition outside_model : prog bool := perform (gets (fun s => negb (inside_model (proc s)))).

Definition memcpy (dst src n : Z) : prog Z :=
  let* out := outside_model in
  let* d := is_cxl dst in
  let* r := is_cxl src in
  if out && (d || r) then cxlmc_memcpy dst src n
  else match memcpy_real with
       | None => let* _ := perform (copy_up dst src n) in Ret dst
       | Some f => f dst src n
       end.

Definition memmove (dst src n : Z) : prog Z :=
  let* out := outside_model in
  let* d := is_cxl dst in
  let* r := is_cxl src in
  if out && (d || r) then cxlmc_memmove dst src n
  else match memmove_real with
       | None => let* _ := perform (if dst <? src then copy_up dst src n else copy_down dst src n) in Ret dst
       | Some f => f dst src n
       end.

Definition realmemset (dst c n : Z) : prog Z :=
  match memset_real with
  | None => let* _ := perform (set_bytes dst c n) in Ret dst
  | Some f => f dst c n
  end.
Definition memset (dst c n : Z) : prog Z :=
  let* out := outside_model in
  let* d := is_cxl dst in
  if out && d then cxlmc_memset dst c n else realmemset dst c n.

Definition bzero (dst n : Z) : prog unit :=
  let* out := outside_model in
  let* d := is_cxl dst in
  if out && d then cxlmc_bzero dst n
  else match bzero_real with
       | None => perform (set_bytes dst 0 n)
       | Some f => f dst n
       end.

Definition strcpy (dst src : Z) : prog Z :=
  let* d := is_cxl dst in
  if d then cxlmc_strcpy dst src
  else match strcpy_real with
       | None =>
           let* m := perform (gets memory) in
           let* n := perform (from_some (strlen m src) (NoReturn "strlen")) in
           let* _ := perform (copy_up dst src n) in Ret dst
       | Some f => f dst src
       end.
End Interposed.

(** ** The memory after a loop *)

Lemma load_store_bytes m a l b :
  load_byte (store_bytes m a l) b =
    if (a <=? b) && (b <? a + lenZ l) then default 0 (l !! Z.to_nat (b - a)) else load_byte m b.
Proof.
  revert m a. induction l as [|x l IH]; intros m a; simpl.
  { rewrite (proj2 (andb_false_iff _ _)); [done|]. change (lenZ (@nil Z)) with 0.
    destruct (Z.leb_spec a b); [right; apply Z.ltb_ge; lia|by left]. }
  rewrite IH. unfold lenZ. simpl. destruct (decide (b = a)) as [->|Hne].
  - rewrite (proj2 (Z.leb_gt (a + 1) a)) by lia. simpl. unfold load_byte. rewrite lookup_insert_eq. simpl.
    rewrite (proj2 (Z.leb_le a a)), (proj2 (Z.ltb_lt a _)) by lia. by rewrite Z.sub_diag.
  - destruct (Z.leb_spec a b), (Z.leb_spec (a + 1) b); try lia; simpl.
    + destruct (Z.ltb_spec b (a + 1 + Z.of_nat (length l))), (Z.ltb_spec b (a + Z.of_nat (S (length l)))); try lia.
      * replace (Z.to_nat (b - a)) with (S (Z.to_nat (b - (a + 1)))) by lia. done.
      * unfold load_byte. by rewrite lookup_insert_ne by done.
    + unfold load_byte. by rewrite lookup_insert_ne by done.
Qed.

(** A memory of bytes. *)
Definition bytes_ok (m : gmap Z Z) : Prop := forall a, 0 <= load_byte m a < 256.

Lemma load_bytes_list m a n : bytes_ok m ->
  to_le n (load_bytes m a n) = map (fun i => load_byte m (a + Z.of_nat i)) (seq 0 n).
Proof.
  intros Hm. unfold load_bytes.
  assert (forall l, Forall (fun b => 0 <= b < 256) l -> to_le (length l) (from_le l) = l) as Hle.
  { induction l as [|b l IH]; intros Hl; simpl; [done|]. inversion Hl as [|? ? Hb Hl']; subst.
    f_equal.
    - unfold wrap. change (2 ^ 8) with 256. rewrite Z.mul_comm, Z.mod_add by lia. by apply Z.mod_small.
    - rewrite Z.shiftr_div_pow2 by lia. change (2 ^ 8) with 256. rewrite Z.mul_comm, Z.div_add by lia.
      rewrite Z.div_small by done. by apply IH. }
  assert (Forall (fun b => 0 <= b < 256) (map (fun i => load_byte m (a + Z.of_nat i)) (seq 0 n))) as HF.
  { apply List.Forall_forall. intros b (i & <- & _)%in_map_iff. apply Hm. }
  specialize (Hle _ HF). by rewrite length_map, length_seq in Hle.
Qed.

(** Aligned pieces advance without passing the end. *)
Definition width (w : Z) : Prop := w = 1 \/ w = 2 \/ w = 4 \/ w = 8.
Lemma piece_bounds xs n i : 0 <= i < n -> n <= 2 ^ 32 - 8 -> width (piece xs n i) /\ i + piece xs n i <= n.
Proof.
  intros Hi Hn. unfold piece. rewrite !wrap_small by lia.
  unfold width. repeat case_if; bools; lia.
Qed.

Section Loop.
Context `{Rand} (E : stop -> Prop).
Definition ends_in {A} (Q : A -> St -> Prop) (r : result St A) : Prop :=
  match r with Val a s => Q a s | Stop e _ => E e end.

Lemma mem_loop_wp xs n body (P : Z -> St -> Prop) : n <= 2 ^ 32 - 8 ->
  (forall i w s, 0 <= i -> width w -> i + w <= n -> P i s -> wp (run (body i w)) (ends_in (fun _ => P (i + w))) s) ->
  forall fuel i s, 0 <= i <= n -> n - i <= Z.of_nat fuel -> P i s ->
  wp (run (mem_loop fuel xs n i body)) (ends_in (fun _ => P n)) s.
Proof.
  intros Hn Hbody. induction fuel as [|fuel IH]; intros i s Hi Hf HP; simpl;
    (destruct (Z.ltb_spec i n) as [Hlt|Hge]; [|by replace i with n in * by lia]); [lia|].
  rewrite wp_run_bind. destruct (piece_bounds xs n i) as [Hw1 Hw2]; [lia|done|].
  eapply wp_mono; [|apply (Hbody i (piece xs n i)); [lia|done|done|done]].
  intros [[] s'|e s']; simpl; [|done]. intros HP'. unfold width in Hw1. rewrite wrap_small by lia. apply IH; [lia|lia|done].
Qed.

(** ** One piece *)

(** An action leaves the raw memory alone. *)
Lemma issue_wp t loc val ord sz pos y s : t <> PTHREAD_CREATE -> (forall e, E e) ->
  wp (run (issue t loc val ord sz pos y))
     (ends_in (fun _ s' => memory s' = memory s /\ cxl_mapping (mdl s') = cxl_mapping (mdl s))) s.
Proof.
  intros Ht HE. unfold issue, new_action, perform, call. simpl. unfold self_tid. wp_step. unfold wp at 1; simpl.
  wp_step. eapply wp_mono; [|apply (action_memory _ _ (memory s) (cxl_mapping (mdl s)) (thread_id (proc s))); done].
  intros [[v|p] s'|e s']; simpl; [by intros (? & ? & _)| |]; intros; apply HE.
Qed.

Lemma raw_store_wp loc w v s (Q : unit -> St -> Prop) :
  Q tt (on_memory (fun m => store_bytes m loc (to_le (Z.to_nat w) v)) s) ->
  wp (run (perform (raw_store loc w v))) (ends_in Q) s.
Proof. intros HQ. unfold perform. simpl. wp_step. done. Qed.

Lemma cxlmc_store_wp w loc v pos s : (mem_is_cxl s loc = true -> forall e, E e) ->
  wp (run (cxlmc_store w loc v pos))
     (ends_in (fun _ s' => memory s' = store_bytes (memory s) loc (to_le (Z.to_nat w) v) /\
        cxl_mapping (mdl s') = cxl_mapping (mdl s))) s.
Proof.
  intros HE. unfold cxlmc_store. rewrite wp_run_bind. unfold is_cxl, perform. simpl. wp_step. unfold wp at 1; simpl.
  unfold wp at 1; simpl. rewrite wp_run_bind. destruct (mem_is_cxl s loc) eqn:Hc.
  - eapply wp_mono; [|apply issue_wp; [done|by apply HE]].
    intros [x s'|e s']; simpl; [|done]. intros [Hm Hx]. apply raw_store_wp. simpl. by rewrite Hm.
  - unfold wp at 1; simpl. by apply raw_store_wp.
Qed.

Lemma cxlmc_load_wp w loc pos s : mem_is_cxl s loc = false ->
  wp (run (cxlmc_load w loc pos)) (ends_in (fun v s' => v = load_bytes (memory s) loc (Z.to_nat w) /\ s' = s)) s.
Proof.
  intros Hc. unfold cxlmc_load. rewrite wp_run_bind. unfold is_cxl, perform. simpl. wp_step. unfold wp at 1; simpl.
  rewrite Hc. unfold wp at 1; simpl. wp_step. unfold wp; simpl. done.
Qed.
End Loop.

(** ** [memcpy] *)

(** The memory where [n] bytes of [m0] from [src] have been copied to [dst]. *)
Definition copied (m0 m : gmap Z Z) (dst src n : Z) : Prop := forall a,
  load_byte m a = if (dst <=? a) && (a <? dst + n) then load_byte m0 (src + (a - dst)) else load_byte m0 a.

(** The memory where [n] bytes from [dst] have been set to [b]. *)
Definition filled (m0 m : gmap Z Z) (dst b n : Z) : Prop := forall a,
  load_byte m a = if (dst <=? a) && (a <? dst + n) then b else load_byte m0 a.

Lemma copied_step m0 m m' dst src i w : 0 <= i -> 0 <= w -> bytes_ok m0 ->
  dst <= src \/ src + i + w <= dst ->
  copied m0 m dst src i -> m' = store_bytes m (dst + i) (to_le (Z.to_nat w) (load_bytes m (src + i) (Z.to_nat w))) ->
  copied m0 m' dst src (i + w).
Proof.
  intros Hi Hw Hb Hdis Hc -> a. rewrite load_store_bytes. unfold lenZ. rewrite length_to_le, Z2Nat.id by lia.
  assert (bytes_ok m) as Hbm. { intros x. rewrite Hc. case_if; apply Hb. }
  rewrite load_bytes_list by done.
  destruct (Z.leb_spec (dst + i) a), (Z.ltb_spec a (dst + i + w)); simpl.
  2,3,4: rewrite Hc; destruct (Z.leb_spec dst a), (Z.ltb_spec a (dst + i)), (Z.ltb_spec a (dst + (i + w))); simpl; (done || lia).
  rewrite (proj2 (Z.leb_le dst a)), (proj2 (Z.ltb_lt a (dst + (i + w)))) by lia. simpl.
  rewrite list_lookup_fmap, lookup_seq_lt by lia. simpl.
  rewrite Hc. replace (src + i + Z.of_nat (Z.to_nat (a - (dst + i)))) with (src + (a - dst)) by lia.
  destruct (Z.leb_spec dst (src + (a - dst))), (Z.ltb_spec (src + (a - dst)) (dst + i)); simpl; (done || lia).
Qed.

Section Copy.
Context `{Rand} (E : stop -> Prop).

Lemma mem_is_cxl_mapping s s' a : cxl_mapping (mdl s') = cxl_mapping (mdl s) -> mem_is_cxl s' a = mem_is_cxl s a.
Proof. unfold mem_is_cxl. by intros ->. Qed.

Lemma copy_loop_wp s dst src n pos :
  bytes_ok (memory s) -> 0 <= n <= 2 ^ 32 - 8 ->
  0 <= dst -> dst + n <= 2 ^ 64 -> 0 <= src -> src + n <= 2 ^ 64 ->
  dst <= src \/ src + n <= dst ->
  (forall i, 0 <= i < n -> mem_is_cxl s (src + i) = false) ->
  (forall i, 0 <= i < n -> mem_is_cxl s (dst + i) = true -> forall e, E e) ->
  wp (run (mem_loop (Z.to_nat n) [src; dst] n 0 (copy_body dst src pos)))
     (ends_in E (fun _ s' => copied (memory s) (memory s') dst src n)) s.
Proof.
  intros Hb Hn Hd0 Hd Hs0 Hs Hdis Hsrc Hdst.
  set (P := fun i s' => copied (memory s) (memory s') dst src i /\ cxl_mapping (mdl s') = cxl_mapping (mdl s)).
  eapply wp_mono; [|apply (mem_loop_wp E [src; dst] n _ P)]; [|lia| |lia|lia|].
  - intros [x s'|e s']; simpl; [|done]. by intros [? _].
  - intros i w s1 Hi Hw Hiw [Hc Hm]. unfold copy_body, width in *. rewrite wp_run_bind.
    rewrite !wrap_small by lia.
    eapply wp_mono; [|apply (cxlmc_load_wp E); rewrite (mem_is_cxl_mapping s) by done; apply Hsrc; lia].
    intros [v s2|e s2]; simpl; [|done]. intros [-> ->].
    eapply wp_mono; [|apply (cxlmc_store_wp E); rewrite (mem_is_cxl_mapping s) by done; apply Hdst; lia].
    intros [x s3|e s3]; simpl; [|done]. intros [Hm3 Hx3]. split; [|congruence].
    eapply copied_step; [lia|lia|done| |exact Hc|exact Hm3]. lia.
  - split; [|done]. intros a. destruct (Z.leb_spec dst a), (Z.ltb_spec a (dst + 0)); simpl; (done || lia).
Qed.

(** Filling by pieces whose bytes are all [b]. *)
Lemma fill_loop_wp s dst n b (val : Z -> Z) pos :
  0 <= n <= 2 ^ 32 - 8 -> 0 <= dst -> dst + n <= 2 ^ 64 ->
  (forall w, width w -> Forall (fun x => x = b) (to_le (Z.to_nat w) (val w))) ->
  (forall i, 0 <= i < n -> mem_is_cxl s (dst + i) = true -> forall e, E e) ->
  wp (run (mem_loop (Z.to_nat n) [dst] n 0 (fun i w => cxlmc_store w (u64 (dst + i)) (val w) pos)))
     (ends_in E (fun _ s' => filled (memory s) (memory s') dst b n)) s.
Proof.
  intros Hn Hd0 Hd Hval Hdst.
  set (P := fun i s' => filled (memory s) (memory s') dst b i /\ cxl_mapping (mdl s') = cxl_mapping (mdl s)).
  eapply wp_mono; [|apply (mem_loop_wp E [dst] n _ P)]; [|lia| |lia|lia|].
  - intros [x s'|e s']; simpl; [|done]. by intros [? _].
  - intros i w s1 Hi Hw Hiw [Hc Hm]. pose proof Hw as Hw'. unfold width in Hw'. rewrite wrap_small by lia.
    eapply wp_mono; [|apply (cxlmc_store_wp E); rewrite (mem_is_cxl_mapping s) by done; apply Hdst; lia].
    intros [x s3|e s3]; simpl; [|done]. intros [Hm3 Hx3]. split; [|congruence].
    intros a. rewrite Hm3, load_store_bytes. unfold lenZ. rewrite length_to_le, Z2Nat.id by lia.
    destruct (Z.leb_spec (dst + i) a), (Z.ltb_spec a (dst + i + w)); simpl.
    2,3,4: rewrite Hc; destruct (Z.leb_spec dst a), (Z.ltb_spec a (dst + i)), (Z.ltb_spec a (dst + (i + w))); simpl; (done || lia).
    rewrite (proj2 (Z.leb_le dst a)), (proj2 (Z.ltb_lt a (dst + (i + w)))) by lia. simpl.
    specialize (Hval w Hw). rewrite Forall_lookup in Hval.
    destruct (to_le (Z.to_nat w) (val w) !! Z.to_nat (a - (dst + i))) as [y|] eqn:Ey; simpl; [by eapply Hval|].
    apply lookup_ge_None in Ey. rewrite length_to_le in Ey. lia.
  - split; [|done]. intros a. destruct (Z.leb_spec dst a), (Z.ltb_spec a (dst + 0)); simpl; (done || lia).
Qed.
End Copy.

(** ** [strlen] *)

Lemma strlen_loop_spec fuel m src n r : strlen_loop fuel m src n = Some r ->
  n <= r <= n + Z.of_nat fuel /\ load_byte m (src + r) = 0 /\ forall i, n <= i < r -> load_byte m (src + i) <> 0.
Proof.
  revert n. induction fuel as [|fuel IH]; intros n; simpl; (destruct (Z.eqb_spec (load_byte m (src + n)) 0) as [Hz|Hz];
    [intros [= <-]; split; [lia|]; split; [done|lia]|]); [done|].
  intros (H1 & H2 & H3)%IH. split; [lia|]. split; [done|]. intros i Hi.
  destruct (decide (i = n)) as [->|]; [done|]. apply H3. lia.
Qed.

Lemma strlen_loop_None fuel m src n : strlen_loop fuel m src n = None ->
  forall i, n <= i <= n + Z.of_nat fuel -> is_Some (m !! (src + i)).
Proof.
  revert n. induction fuel as [|fuel IH]; intros n; simpl; destruct (Z.eqb_spec (load_byte m (src + n)) 0) as [|Hz]; try done.
  - intros _ i Hi. replace i with n by lia. unfold load_byte in Hz. destruct (m !! (src + n)); [by eexists|done].
  - intros Hl i Hi. destruct (decide (i = n)) as [->|]; [|apply (IH _ Hl); lia].
    unfold load_byte in Hz. destruct (m !! (src + n)); [by eexists|done].
Qed.

(** The string ends: a memory of [size m] bytes cannot fill [size m + 1] addresses. *)
Lemma strlen_total m src : exists n, strlen m src = Some n /\ 0 <= n <= Z.of_nat (size m) /\
  load_byte m (src + n) = 0 /\ forall i, 0 <= i < n -> load_byte m (src + i) <> 0.
Proof.
  destruct (strlen m src) as [n|] eqn:E.
  { exists n. split; [done|]. by apply strlen_loop_spec in E. }
  exfalso. pose proof (strlen_loop_None _ _ _ _ E) as Hall.
  set (l := (fun i => src + i) <$> seqZ 0 (Z.of_nat (size m) + 1)).
  assert (list_to_set l ⊆ dom m) as Hsub.
  { intros a Ha. apply elem_of_list_to_set, list_elem_of_fmap in Ha as (i & -> & Hi%elem_of_seqZ).
    apply elem_of_dom, Hall. lia. }
  apply subseteq_size in Hsub. rewrite size_dom, size_list_to_set in Hsub.
  - unfold l in Hsub. rewrite length_fmap, length_seqZ in Hsub. lia.
  - apply NoDup_fmap_2; [intros x y ?; lia|apply NoDup_seqZ].
Qed.

(** ** Fill values *)

Definition fill_ok (c : Z) : bool :=
  forallb (fun w => forallb (fun x => x =? c) (to_le (Z.to_nat w) (fill_value c w))) [1; 2; 4; 8].

Lemma fill_value_byte c w : fill_value (Z.land c 255) w = fill_value c w.
Proof. unfold fill_value. by rewrite <- Z.land_assoc. Qed.

Lemma fill_value_ok c w : 0 <= Z.land c 255 < 128 \/ Z.land c 255 = 255 -> width w ->
  Forall (fun x => x = Z.land c 255) (to_le (Z.to_nat w) (fill_value c w)).
Proof.
  intros Hc Hw. rewrite <- fill_value_byte. generalize dependent (Z.land c 255). clear c. intros c Hc.
  assert (Forall (fun c => fill_ok c = true) (seqZ 0 128 ++ [255])) as Hall.
  { apply List.Forall_forall. apply List.forallb_forall. vm_compute. reflexivity. }
  rewrite Forall_forall in Hall. assert (fill_ok c = true) as Hok.
  { apply Hall. apply elem_of_app. destruct Hc as [Hc|Hc]; [left; apply elem_of_seqZ; lia|right; set_solver]. }
  unfold fill_ok in Hok. rewrite forallb_forall in Hok. assert (In w [1; 2; 4; 8]) as Hin by (unfold width in Hw; simpl; lia).
  specialize (Hok w Hin). rewrite forallb_forall in Hok. apply List.Forall_forall. intros x Hx. by apply Z.eqb_eq, Hok.
Qed.

(** ** Properties *)

(** The places that a copy or a fill may touch. *)
Definition spans (dst n : Z) : Prop := 0 <= n <= 2 ^ 32 - 8 /\ 0 <= dst /\ dst + n <= 2 ^ 64.
Definition private (s : St) (a n : Z) : Prop := forall i, 0 <= i < n -> mem_is_cxl s (a + i) = false.
(** Reasons to stop: none on private memory, any reason of an action otherwise. *)
Definition may_stop (s : St) (dst n : Z) (e : stop) : Prop := ~ private s dst n.

Lemma may_stop_cxl s dst n i : 0 <= i < n -> mem_is_cxl s (dst + i) = true -> forall e, may_stop s dst n e.
Proof. intros Hi Hc e Hp. rewrite Hp in Hc; [done|lia]. Qed.

(** [cxlmc_memset] and [cxlmc_bzero] fill: every byte of the destination
    holds the fill byte and no other byte changes, for fill bytes below 0x80 or
    equal to 0xff. *)
Theorem memset_fills `{Rand} s dst c n :
  spans dst n -> 0 <= Z.land c 255 < 128 \/ Z.land c 255 = 255 ->
  wp (run (cxlmc_memset dst c n))
     (ends_in (may_stop s dst n) (fun v s' => v = dst /\ filled (memory s) (memory s') dst (Z.land c 255) n)) s /\
  wp (run (cxlmc_bzero dst n))
     (ends_in (may_stop s dst n) (fun _ s' => filled (memory s) (memory s') dst 0 n)) s.
Proof.
  intros (Hn & Hd0 & Hd) Hc. split.
  - unfold cxlmc_memset. rewrite wp_run_bind.
    eapply wp_mono; [|apply (fill_loop_wp (may_stop s dst n) s dst n (Z.land c 255) (fill_value c)); try done].
    + intros [x s'|e s']; simpl; done.
    + intros w Hw. by apply fill_value_ok.
    + apply may_stop_cxl.
  - apply (fill_loop_wp (may_stop s dst n) s dst n 0 (fun _ => 0)); try done; [|apply may_stop_cxl].
    intros w _. apply Forall_forall. intros x Hx. apply list_elem_of_lookup in Hx as [i Hx].
    apply lookup_lt_Some in Hx as Hi. rewrite length_to_le in Hi. rewrite lookup_to_le in Hx by done.
    injection Hx as <-. by rewrite Z.shiftr_0_l.
Qed.

(** [memset] through the model is wrong for fill bytes from 0x80 to 0xfe:
    the 8-byte pieces have 0xff in their upper half. *)
Theorem memset_sign_extends c : 128 <= Z.land c 255 < 255 ->
  drop 4 (to_le 8 (fill_value c 8)) = [255; 255; 255; 255].
Proof.
  rewrite <- fill_value_byte. generalize (Z.land c 255). intros k Hk.
  assert (Forall (fun k => drop 4 (to_le 8 (fill_value k 8)) = [255; 255; 255; 255]) (seqZ 128 127)) as Hall.
  { apply List.Forall_forall. intros x Hx. revert x Hx. apply List.Forall_forall.
    apply (bool_decide_unpack _). vm_compute. exact I. }
  rewrite Forall_forall in Hall. apply Hall, elem_of_seqZ. lia.
Qed.

(** [strcpy] into CXL memory copies the characters of the string and not its
    terminating zero: the byte after them keeps its value. *)
Theorem strcpy_drops_nul `{Rand} s dst src :
  bytes_ok (memory s) ->
  exists n, 0 <= n /\ load_byte (memory s) (src + n) = 0 /\ (forall i, 0 <= i < n -> load_byte (memory s) (src + i) <> 0) /\
    (spans dst n -> spans src n -> dst <= src \/ src + n <= dst -> private s src n ->
     wp (run (cxlmc_strcpy dst src))
        (ends_in (may_stop s dst n) (fun v s' => v = dst /\ copied (memory s) (memory s') dst src n /\
           load_byte (memory s') (dst + n) = load_byte (memory s) (dst + n))) s).
Proof.
  intros Hb. destruct (strlen_total (memory s) src) as (n & Hn & Hb1 & Hz & Hnz). exists n.
  do 3 (split; [done || lia|]). intros (Hn' & Hd0 & Hd) (_ & Hs0 & Hs) Hdis Hsrc.
  unfold cxlmc_strcpy. rewrite wp_run_bind. unfold perform. simpl. wp_step. unfold wp at 1; simpl.
  unfold wp at 1; simpl. wp_step. rewrite Hn. unfold wp at 1; simpl.
  rewrite wp_run_bind. eapply wp_mono; [|apply (copy_loop_wp (may_stop s dst n)); try done; apply may_stop_cxl].
  intros [x s'|e s']; simpl; [|done]. intros Hc. unfold wp; simpl. split; [done|]. split; [done|].
  rewrite Hc. rewrite (proj2 (Z.ltb_ge (dst + n) (dst + n))) by lia. by rewrite andb_false_r.
Qed.

(** ** On a concrete memory *)

Definition demo_memory : gmap Z Z := store_bytes ∅ 9 [1; 2; 3].
Definition demo_private : St := on_memory (fun _ => demo_memory)
  (mkSt (Scheduler_new 1) (Model_new 1) ∅ ∅ 1 ∅ (Process_init 0 0)).

Lemma demo_bytes : bytes_ok demo_memory.
Proof.
  intros a. unfold demo_memory. rewrite load_store_bytes. case_if; [|by unfold load_byte; rewrite lookup_empty].
  bools. unfold lenZ in *. simpl in *. assert (a = 9 \/ a = 10 \/ a = 11) as [->|[->| ->]] by lia; vm_compute; split; congruence.
Qed.

Lemma demo_is_private a n : private demo_private a n.
Proof. intros i _. done. Qed.

Lemma demo_spans dst n : 0 <= n <= 100 -> 0 <= dst <= 100 -> spans dst n.
Proof. unfold spans. lia. Qed.

Lemma memset_fills_witness :
  wp (run (H := counter_rand) (cxlmc_memset 20 7 13))
     (ends_in (may_stop demo_private 20 13)
        (fun v s' => v = 20 /\ filled (memory demo_private) (memory s') 20 (Z.land 7 255) 13)) demo_private.
Proof.
  refine (proj1 (memset_fills (H := counter_rand) demo_private 20 7 13 _ _)).
  - apply demo_spans; lia.
  - left. vm_compute. split; [discriminate|reflexivity].
Defined.

Lemma memset_sign_extends_witness : drop 4 (to_le 8 (fill_value 128 8)) = [255; 255; 255; 255].
Proof. apply (memset_sign_extends 128). vm_compute. split; [discriminate|reflexivity]. Defined.

Lemma strcpy_drops_nul_witness : exists n, 0 <= n /\ load_byte demo_memory (9 + n) = 0.
Proof.
  destruct (strcpy_drops_nul (H := counter_rand) demo_private 20 9 demo_bytes) as (n & H0 & Hz & _).
  exists n. split; [exact H0|exact Hz].
Defined.

(** [cxlmc_memmove] copies upwards: moved one byte up, [1; 2; 3] becomes [1; 1; 1; 1]. *)
Example memmove_overlap :
  match run (H := counter_rand) (cxlmc_memmove 10 9 3) demo_private with
  | Leaf (Val v s') => (v, map (load_byte (memory s')) [9; 10; 11; 12])
  | _ => (0, [])
  end = (10, [1; 1; 1; 1]).
Proof. vm_compute. reflexivity. Qed.
