(* ===== verification/Resolve.v ===== *)
(** * Resolve: finding the functions that the checker replaces

    The checker defines [pthread_mutex_lock], [memcpy] and the like itself and
    looks the ones of the C library up with [dlsym(RTLD_NEXT, ...)]:
    [src/src/model/real_pthread.cc] for the threads and [init_memory_ops] of
    [src/src/user/memapi.cc].  [dlsym] is a parameter: the address of a symbol, or
    [None] when [dlerror] then reports an error.  A function pointer is an address,
    0 where it is null. *)
From S2P Require Import Prelude Choice Action ReadFrom CacheLine ThreadMemory State Scheduler ModelCore Executor Program Api MemApi.

(** ** The thread functions *)
Inductive real_fn :=
| pthread_mutex_init_p | pthread_mutex_lock_p | pthread_mutex_unlock_p | pthread_cond_init_p | pthread_cond_wait_p
| pthread_cond_signal_p | pthread_create_p | pthread_join_p | pthread_exit_p | sched_yield_p.
#[export] Instance real_fn_eq_dec : EqDecision real_fn.
Proof. solve_decision. Defined.

Definition symbol (f : real_fn) : string :=
  match f with
  | pthread_mutex_init_p => "pthread_mutex_init" | pthread_mutex_lock_p => "pthread_mutex_lock"
  | pthread_mutex_unlock_p => "pthread_mutex_unlock" | pthread_cond_init_p => "pthread_cond_init"
  | pthread_cond_wait_p => "pthread_cond_wait" | pthread_cond_signal_p => "pthread_cond_signal"
  | pthread_create_p => "pthread_create" | pthread_join_p => "pthread_join" | pthread_exit_p => "pthread_exit"
  | sched_yield_p => "sched_yield"
  end.

(** The static pointers of the file. *)
Definition RealTable := real_fn -> Z.
Definition real_null : RealTable := fun _ => 0.
Definition set_real (f : real_fn) (a : Z) (t : RealTable) : RealTable :=
  fun g => if decide (g = f) then a else t g.

(** The wrappers call through their pointer: the function called and its
    arguments, or a jump to address 0. *)
Definition call_real (f : real_fn) (args : list Z) (t : RealTable) : err (Z * list Z) :=
  if t f =? 0 then inl (UB "call of a null pointer") else inr (t f, args).
Definition real_pthread_mutex_init (mutex attr : Z) := call_real pthread_mutex_init_p [mutex; attr].
Definition real_pthread_mutex_lock (mutex : Z) := call_real pthread_mutex_lock_p [mutex].
Definition real_pthread_mutex_unlock (mutex : Z) := call_real pthread_mutex_unlock_p [mutex].
Definition real_pthread_cond_init (cond attr : Z) := call_real pthread_cond_init_p [cond; attr].
Definition real_pthread_cond_wait (cond mutex : Z) := call_real pthread_cond_wait_p [cond; mutex].
Definition real_pthread_cond_signal (cond : Z) := call_real pthread_cond_signal_p [cond].
Definition real_pthread_create (newthread attr start arg : Z) := call_real pthread_create_p [newthread; attr; start; arg].
Definition real_pthread_join (th ret : Z) := call_real pthread_join_p [th; ret].
Definition real_pthread_exit (value_ptr : Z) := call_real pthread_exit_p [value_ptr].
Definition real_sched_yield := call_real sched_yield_p [].

(** ** The memory functions *)
Record MemOps := mkMemOps {
  memcpy_real : Z;
  memmove_real : Z;
  memset_real : Z;
  strcpy_real : Z;
  bzero_real : Z
}.
Definition mem_null : MemOps := mkMemOps 0 0 0 0 0.
Definition set_memcpy a (t : MemOps) := mkMemOps a (memmove_real t) (memset_real t) (strcpy_real t) (bzero_real t).
Definition set_memmove a (t : MemOps) := mkMemOps (memcpy_real t) a (memset_real t) (strcpy_real t) (bzero_real t).
Definition set_memset a (t : MemOps) := mkMemOps (memcpy_real t) (memmove_real t) a (strcpy_real t) (bzero_real t).
Definition set_strcpy a (t : MemOps) := mkMemOps (memcpy_real t) (memmove_real t) (memset_real t) a (bzero_real t).
Definition set_bzero a (t : MemOps) := mkMemOps (memcpy_real t) (memmove_real t) (memset_real t) (strcpy_real t) a.

Section Lookup.
Variable dlsym : string -> option Z.

(** One block of [real_init_all]: look the function up unless it is known. *)
Definition load_symbol (f : real_fn) (t : RealTable) : err RealTable :=
  if t f =? 0 then
    match dlsym (symbol f) with
    | Some a => inr (set_real f a t)
    | None => inl (Exit EXIT_FAILURE)
    end
  else inr t.
Fixpoint load_symbols (fs : list real_fn) (t : RealTable) : err RealTable :=
  match fs with
  | [] => inr t
  | f :: fs => let? t := load_symbol f t in load_symbols fs t
  end.
Definition real_fns : list real_fn :=
  [pthread_mutex_init_p; pthread_mutex_lock_p; pthread_mutex_unlock_p; pthread_cond_init_p; pthread_cond_wait_p;
   pthread_cond_signal_p; pthread_create_p; pthread_join_p; pthread_exit_p; sched_yield_p].
Definition real_init_all (t : RealTable) : err RealTable := load_symbols real_fns t.

(** One block of [init_memory_ops]: the pointer is 1 while [dlsym] runs, and is
    not tested afterwards.  The list has each lookup with the pointers that the
    memory functions see while it runs. *)
Definition init_op (get : MemOps -> Z) (put : Z -> MemOps -> MemOps) (name : string)
    (r : MemOps * list (string * MemOps)) : MemOps * list (string * MemOps) :=
  let (t, l) := r in
  if get t =? 0 then
    let t := put 1 t in
    (put (default 0 (dlsym name)) t, l ++ [(name, t)])
  else (t, l).
Definition init_memory_ops (t : MemOps) : MemOps * list (string * MemOps) :=
  init_op bzero_real set_bzero "bzero" (init_op strcpy_real set_strcpy "strcpy"
    (init_op memset_real set_memset "memset" (init_op memmove_real set_memmove "memmove"
      (init_op memcpy_real set_memcpy "memcpy" (t, []))))).
End Lookup.

(** [((uintptr_t)memcpy_real) < 2]: the functions of [MemApi] use their own loops;
    [lib] is the function at an address. *)
Definition known {F} (lib : Z -> F) (p : Z) : option F := if p <? 2 then None else Some (lib p).

(** ** Looking the thread functions up *)

Lemma set_real_same f a t : set_real f a t f = a.
Proof. unfold set_real. by rewrite decide_True. Qed.
Lemma set_real_other f g a t : g <> f -> set_real f a t g = t g.
Proof. intros Hn. unfold set_real. by rewrite decide_False. Qed.

(** What a pointer is after the lookup, [None] where the symbol is missing. *)
Definition resolved (dlsym : string -> option Z) (t : RealTable) (f : real_fn) : option Z :=
  if t f =? 0 then dlsym (symbol f) else Some (t f).

Lemma load_symbols_spec dlsym fs t : NoDup fs ->
  match load_symbols dlsym fs t with
  | inr t' => (forall f, f ∈ fs -> resolved dlsym t f = Some (t' f)) /\ (forall f, f ∉ fs -> t' f = t f)
  | inl e => e = Exit EXIT_FAILURE /\ exists f, f ∈ fs /\ resolved dlsym t f = None
  end.
Proof.
  revert t. induction fs as [|f fs IH]; intros t Hnd; simpl; [split; [|done]; by intros f ?%elem_of_nil|].
  apply NoDup_cons in Hnd as [Hf Hnd].
  destruct (load_symbol dlsym f t) as [e|t1] eqn:E; unfold load_symbol in E; simpl.
  - case_match eqn:Ez; [|done]. destruct (dlsym (symbol f)) eqn:Ed; [done|]. injection E as <-. split; [done|].
    exists f. split; [left|]. unfold resolved. by rewrite Ez.
  - assert (resolved dlsym t f = Some (t1 f) /\ forall g, g <> f -> t1 g = t g) as [H1 H2].
    { unfold resolved. case_match eqn:Ez; [|by injection E as <-].
      destruct (dlsym (symbol f)) as [a|] eqn:Ed; [|done]. injection E as <-.
      split; [by rewrite set_real_same|]. intros g Hg. by apply set_real_other. }
    assert (forall g, g ∈ fs -> resolved dlsym t1 g = resolved dlsym t g) as H3.
    { intros g Hg. unfold resolved. rewrite H2; [done|]. by intros ->. }
    specialize (IH t1 Hnd). destruct (load_symbols dlsym fs t1) as [e|t'].
    + destruct IH as [-> (g & Hg & Hr)]. split; [done|]. exists g. split; [by right|]. by rewrite <- H3.
    + destruct IH as [K1 K2]. split.
      * intros g Hg. apply elem_of_cons in Hg as [->|Hg]; [rewrite K2; done|]. rewrite <- H3 by done. by apply K1.
      * intros g Hg. apply not_elem_of_cons in Hg as [Hgf Hg]. rewrite K2 by done. by apply H2.
Qed.

Lemma real_fns_all f : f ∈ real_fns.
Proof. destruct f; unfold real_fns; set_solver. Qed.
Lemma real_fns_nodup : NoDup real_fns.
Proof. unfold real_fns. apply NoDup_ListNoDup. repeat constructor; simpl; intuition discriminate. Qed.

(** The pointers and the symbols, as the C library has them. *)
Definition library_names : list (real_fn * string) :=
  [(pthread_mutex_init_p, "pthread_mutex_init"); (pthread_mutex_lock_p, "pthread_mutex_lock");
   (pthread_mutex_unlock_p, "pthread_mutex_unlock"); (pthread_cond_init_p, "pthread_cond_init");
   (pthread_cond_wait_p, "pthread_cond_wait"); (pthread_cond_signal_p, "pthread_cond_signal");
   (pthread_create_p, "pthread_create"); (pthread_join_p, "pthread_join"); (pthread_exit_p, "pthread_exit");
   (sched_yield_p, "sched_yield")].

(** A call through a pointer, after the lookup. *)
Lemma call_resolved dlsym t t' f args : (forall s, dlsym s <> Some 0) -> resolved dlsym t f = Some (t' f) ->
  call_real f args t' = inr (if t f =? 0 then default 0 (dlsym (symbol f)) else t f, args).
Proof.
  intros Hd Hr. unfold resolved in Hr. unfold call_real. destruct (t f =? 0) eqn:Et.
  - rewrite Hr. simpl. case_match eqn:Ez; [|done]. apply Z.eqb_eq in Ez. rewrite Ez in Hr. by destruct (Hd _ Hr).
  - injection Hr as <-. by rewrite Et.
Qed.

(** C38: [real_init_all] ends the process exactly when a function whose pointer is
    null has no symbol in the library; otherwise each of the ten wrappers calls
    the function of the C library of its own name, at the address that the
    pointer had or that [dlsym] gives for that name, with its arguments in their
    order.  [dlsym] gives no null address without an error. *)
Theorem real_init_all_resolves dlsym t : (forall s, dlsym s <> Some 0) ->
  let library p name := if t p =? 0 then default 0 (dlsym name) else t p in
  let missing := exists p name, (p, name) ∈ library_names /\ t p = 0 /\ dlsym name = None in
  match real_init_all dlsym t with
  | inl e => e = Exit EXIT_FAILURE /\ missing
  | inr t' => ~ missing /\
      (forall mutex attr, real_pthread_mutex_init mutex attr t' = inr (library pthread_mutex_init_p "pthread_mutex_init", [mutex; attr])) /\
      (forall mutex, real_pthread_mutex_lock mutex t' = inr (library pthread_mutex_lock_p "pthread_mutex_lock", [mutex])) /\
      (forall mutex, real_pthread_mutex_unlock mutex t' = inr (library pthread_mutex_unlock_p "pthread_mutex_unlock", [mutex])) /\
      (forall cond attr, real_pthread_cond_init cond attr t' = inr (library pthread_cond_init_p "pthread_cond_init", [cond; attr])) /\
      (forall cond mutex, real_pthread_cond_wait cond mutex t' = inr (library pthread_cond_wait_p "pthread_cond_wait", [cond; mutex])) /\
      (forall cond, real_pthread_cond_signal cond t' = inr (library pthread_cond_signal_p "pthread_cond_signal", [cond])) /\
      (forall thr attr start arg, real_pthread_create thr attr start arg t' =
         inr (library pthread_create_p "pthread_create", [thr; attr; start; arg])) /\
      (forall th ret, real_pthread_join th ret t' = inr (library pthread_join_p "pthread_join", [th; ret])) /\
      (forall value, real_pthread_exit value t' = inr (library pthread_exit_p "pthread_exit", [value])) /\
      real_sched_yield t' = inr (library sched_yield_p "sched_yield", [])
  end.
Proof.
  intros Hd. cbn zeta. pose proof (load_symbols_spec dlsym real_fns t real_fns_nodup) as Hs. unfold real_init_all.
  assert (forall p name, (p, name) ∈ library_names <-> name = symbol p) as Hn.
  { intros p name. unfold library_names. split; [intros Hin; set_unfold; destruct_or! Hin; by injection Hin as -> ->|].
    intros ->. destruct p; set_solver. }
  destruct (load_symbols dlsym real_fns t) as [e|t'].
  - destruct Hs as [-> (f & _ & Hf)]. split; [done|]. exists f, (symbol f). split; [by apply Hn|]. unfold resolved in Hf.
    case_match eqn:Ez; [|done]. split; [by apply Z.eqb_eq|done].
  - destruct Hs as [Hs _]. split.
    + intros (p & name & ->%Hn & Hz & Hnone). specialize (Hs p (real_fns_all p)). unfold resolved in Hs.
      rewrite Hz in Hs. simpl in Hs. congruence.
    + pose proof (fun f args => call_resolved dlsym t t' f args Hd (Hs f (real_fns_all f))) as Hc.
      split_and!; intros; [exact (Hc pthread_mutex_init_p _)|exact (Hc pthread_mutex_lock_p _)|exact (Hc pthread_mutex_unlock_p _)
        |exact (Hc pthread_cond_init_p _)|exact (Hc pthread_cond_wait_p _)|exact (Hc pthread_cond_signal_p _)
        |exact (Hc pthread_create_p _)|exact (Hc pthread_join_p _)|exact (Hc pthread_exit_p _)|exact (Hc sched_yield_p _)].
Qed.

(** A library that has every symbol, at the address of its length. *)
Definition demo_dlsym (s : string) : option Z := Some (1 + Z.of_nat (String.length s)).
Lemma real_init_all_resolves_witness : exists t, real_init_all demo_dlsym real_null = inr t /\
  real_pthread_join 7 0 t = inr (13, [7; 0]).
Proof.
  pose proof (real_init_all_resolves demo_dlsym real_null ltac:(intros s [= Hs]; lia)) as Hr. cbn zeta in Hr.
  destruct (real_init_all demo_dlsym real_null) as [e|t] eqn:Et; [by vm_compute in Et|]. exists t. split; [done|].
  destruct Hr as (_ & _ & _ & _ & _ & _ & _ & _ & Hj & _). exact (Hj 7 0).
Defined.

(** ** Looking the memory functions up *)

Definition pointer_of (name : string) (t : MemOps) : Z :=
  if decide (name = "memcpy") then memcpy_real t
  else if decide (name = "memmove") then memmove_real t
  else if decide (name = "memset") then memset_real t
  else if decide (name = "strcpy") then strcpy_real t
  else bzero_real t.
Arguments pointer_of : simpl never.
Definition mem_names : list string := ["memcpy"; "memmove"; "memset"; "strcpy"; "bzero"].

(** What one block changes. *)
Record op_ok (get : MemOps -> Z) (put : Z -> MemOps -> MemOps) (name : string) : Prop := mkOpOk {
  op_get : forall t, pointer_of name t = get t;
  op_put : forall a t n, n ∈ mem_names -> pointer_of n (put a t) = if decide (n = name) then a else pointer_of n t
}.
Lemma ops_ok : op_ok memcpy_real set_memcpy "memcpy" /\ op_ok memmove_real set_memmove "memmove" /\
  op_ok memset_real set_memset "memset" /\ op_ok strcpy_real set_strcpy "strcpy" /\ op_ok bzero_real set_bzero "bzero".
Proof.
  do 4 (split; [constructor; [done|]; intros a t n Hn; by set_unfold; destruct_or! Hn; subst|]).
  constructor; [done|]. intros a t n Hn. by set_unfold; destruct_or! Hn; subst.
Qed.

Section MemLookup.
Context (dlsym : string -> option Z) (t0 : MemOps).
Definition found (n : string) : Z := if pointer_of n t0 =? 0 then default 0 (dlsym n) else pointer_of n t0.

(** After the blocks of [done_], from the pointers [t0]. *)
Definition looked_up (done_ : list string) (r : MemOps * list (string * MemOps)) : Prop :=
  (forall n, n ∈ mem_names -> pointer_of n r.1 = if decide (n ∈ done_) then found n else pointer_of n t0) /\
  (forall n t, (n, t) ∈ r.2 -> n ∈ done_ /\ pointer_of n t0 = 0 /\ pointer_of n t = 1).

Lemma init_op_looked_up get put name done_ r : op_ok get put name -> name ∈ mem_names -> name ∉ done_ ->
  looked_up done_ r -> looked_up (name :: done_) (init_op dlsym get put name r).
Proof.
  intros [Hget Hput] Hn Hnd [H1 H2]. destruct r as [t l]; simpl in *. unfold init_op. rewrite <- Hget.
  assert (pointer_of name t = pointer_of name t0) as Hp by (rewrite H1 by done; by rewrite decide_False).
  split.
  - intros n Hnn. assert (n <> name -> pointer_of n t = if decide (n ∈ name :: done_) then found n else pointer_of n t0) as Ho.
    { intros Hne. rewrite H1 by done. apply decide_ext. set_solver. }
    destruct (pointer_of name t =? 0) eqn:Ez; simpl.
    + rewrite !Hput by done. destruct (decide (n = name)) as [->|Hne]; [|by apply Ho]. rewrite decide_True by set_solver.
      unfold found. by rewrite <- Hp, Ez.
    + destruct (decide (n = name)) as [->|Hne]; [|by apply Ho]. rewrite decide_True by set_solver.
      unfold found. by rewrite <- Hp, Ez.
  - intros n t' Hin. destruct (pointer_of name t =? 0) eqn:Ez; simpl in Hin; [|destruct (H2 _ _ Hin); set_solver].
    apply elem_of_app in Hin as [Hin|Hin]; [destruct (H2 _ _ Hin); set_solver|].
    apply list_elem_of_singleton in Hin. injection Hin as -> ->. split; [set_solver|]. apply Z.eqb_eq in Ez.
    split; [congruence|]. rewrite Hput by done. by rewrite decide_True.
Qed.

Lemma init_memory_ops_looked_up : looked_up ["bzero"; "strcpy"; "memset"; "memmove"; "memcpy"] (init_memory_ops dlsym t0).
Proof.
  destruct ops_ok as (O1 & O2 & O3 & O4 & O5). unfold init_memory_ops.
  repeat (apply init_op_looked_up; [done|unfold mem_names; set_solver|set_solver|]).
  split; [done|]. intros n t Hin. by apply elem_of_nil in Hin.
Qed.
End MemLookup.

(** [init_memory_ops] leaves each memory function at the address it had or the
    one that [dlsym] gives, 0 if there is none; and while [dlsym] looks one up, which
    happens only for those not yet known, a call of that function goes through its
    own byte loop: the lookup never calls itself or a null pointer. *)
Theorem init_memory_ops_guarded dlsym t0 n : n ∈ mem_names ->
  pointer_of n (init_memory_ops dlsym t0).1 = found dlsym t0 n /\
  forall t, (n, t) ∈ (init_memory_ops dlsym t0).2 ->
    pointer_of n t0 = 0 /\
    (n = "memcpy" -> forall lib dst src len, memcpy (known lib (memcpy_real t)) dst src len = memcpy None dst src len) /\
    (n = "memmove" -> forall lib dst src len, memmove (known lib (memmove_real t)) dst src len = memmove None dst src len) /\
    (n = "memset" -> forall lib dst c len, memset (known lib (memset_real t)) dst c len = memset None dst c len) /\
    (n = "strcpy" -> forall lib dst src, strcpy (known lib (strcpy_real t)) dst src = strcpy None dst src) /\
    (n = "bzero" -> forall lib dst len, bzero (known lib (bzero_real t)) dst len = bzero None dst len).
Proof.
  intros Hn. destruct (init_memory_ops_looked_up dlsym t0) as [H1 H2]. split.
  - rewrite H1 by done. rewrite decide_True; [done|]. unfold mem_names in Hn. set_solver.
  - intros t Hin. destruct (H2 _ _ Hin) as (_ & Hz & Hp). split; [done|].
    repeat split; intros ->; intros; unfold pointer_of in Hp; simpl in Hp; by rewrite Hp.
Qed.

Lemma init_memory_ops_guarded_witness : memcpy_real (init_memory_ops demo_dlsym mem_null).1 = 7.
Proof. apply (init_memory_ops_guarded demo_dlsym mem_null "memcpy"). unfold mem_names. left. Defined.
