(* ===== verification/ApiSpec.v ===== *)
(** * ApiSpec: what the atomic entry points do

    The read-modify-writes and the compare-exchanges of [src/src/user/api.cc]:
    on private memory they are ordinary updates; on CXL memory they issue two
    actions, the second of which depends on the value of the first. *)
From S2P Require Import Prelude Choice Action ReadFrom CacheLine ThreadMemory State Scheduler ModelCore Executor Program Api MemApi.

(** ** Traces of a program *)

(** What may happen while an action runs: anything that leaves the thread, its
    process and the mapping of the CXL memory. *)
Definition interferes (s s' : St) : Prop :=
  thread_id (proc s') = thread_id (proc s) /\ process_id (proc s') = process_id (proc s) /\
  cxl_mapping (mdl s') = cxl_mapping (mdl s).

Fixpoint traces {A} (p : prog A) (s : St) (l : list issue_event) (r : A) : Prop :=
  match p with
  | Ret a => l = [] /\ a = r
  | Act a y k => exists v s' l', l = (a, y, v) :: l' /\ interferes s s' /\ traces (k v) s' l' r
  | Do m k => some_leaf (fun x => match x with Val x s' => traces (k x) s' l r | Stop _ _ => False end) (m s)
  end.

Lemma traces_bind {A B} (p : prog A) (f : A -> prog B) s l r :
  traces (pbind p f) s l r ->
  match p with
  | Ret a => traces (f a) s l r
  | Act a y k => exists v s' l', l = (a, y, v) :: l' /\ interferes s s' /\ traces (pbind (k v) f) s' l' r
  | Do m k => some_leaf (fun x => match x with Val x s' => traces (pbind (k x) f) s' l r | Stop _ _ => False end) (m s)
  end.
Proof. by destruct p. Qed.

(** ** Private memory *)

Lemma run_pbind `{Rand} {A B} (p : prog A) (f : A -> prog B) s a s' :
  run p s = Leaf (Val a s') -> run (pbind p f) s = run (f a) s'.
Proof.
  revert s. induction p as [x|x y k IH|X m k IH]; intros s; simpl.
  - intros [= -> ->]. done.
  - unfold bind. destruct (action x y s) as [[[v|q] s1|e s1]|]; simpl; [apply IH|done..].
  - unfold bind. destruct (m s) as [[v s1|e s1]|]; simpl; [apply IH|done..].
Qed.

Lemma run_is_cxl `{Rand} s a : run (is_cxl a) s = Leaf (Val (mem_is_cxl s a) s).
Proof. done. Qed.
Lemma run_raw_load `{Rand} s a sz : run (perform (raw_load a sz)) s = Leaf (Val (load_bytes (memory s) a (Z.to_nat sz)) s).
Proof. done. Qed.
Lemma run_raw_store `{Rand} s a sz v :
  run (perform (raw_store a sz v)) s = Leaf (Val tt (on_memory (fun m => store_bytes m a (to_le (Z.to_nat sz) v)) s)).
Proof. done. Qed.

(** The memory after storing [v] in the [sz] bytes from [a]. *)
Record stored (m m' : gmap Z Z) (a sz v : Z) : Prop := mkStoredAt {
  sd_value : load_bytes m' a (Z.to_nat sz) = v;
  sd_others : forall b, ~ (a <= b < a + sz) -> load_byte m' b = load_byte m b
}.

Lemma load_bytes_store m a n v : load_bytes (store_bytes m a (to_le n v)) a n = v mod 256 ^ Z.of_nat n.
Proof.
  rewrite <- from_to_le. unfold load_bytes. f_equal. apply list_eq. intros i.
  rewrite list_lookup_fmap. destruct (decide (i < n)%nat).
  - rewrite lookup_seq_lt by done. simpl. rewrite load_store_bytes.
    unfold lenZ. rewrite length_to_le, (proj2 (Z.leb_le _ _)), (proj2 (Z.ltb_lt _ _)) by lia. simpl.
    replace (Z.to_nat (a + Z.of_nat i - a)) with i by lia. by rewrite lookup_to_le.
  - rewrite !lookup_ge_None_2 by (rewrite ?length_seq, ?length_to_le; lia). done.
Qed.

Lemma stored_raw m a sz v : 0 <= sz -> stored m (store_bytes m a (to_le (Z.to_nat sz) v)) a sz (uN sz v).
Proof.
  intros Hsz. constructor.
  - rewrite load_bytes_store, Z2Nat.id by done. unfold uN, wrap. rewrite Z.pow_mul_r by lia. done.
  - intros b Hb. rewrite load_store_bytes. unfold lenZ. rewrite length_to_le, Z2Nat.id by done.
    destruct (Z.leb_spec a b), (Z.ltb_spec b (a + sz)); simpl; (done || lia).
Qed.

Lemma uN_idemp sz v : 0 <= sz -> uN sz (uN sz v) = uN sz v.
Proof. intros Hsz. apply wrap_wrap. lia. Qed.

(** ** Properties *)

(** On private memory a read-modify-write is one: it returns the old value,
    leaves the result of the operation, truncated to the width, and changes no
    other byte and nothing of the model. *)
Theorem private_rmw `{Rand} op sz addr val index pos s :
  mem_is_cxl s addr = false -> 0 <= sz ->
  let old := load_bytes (memory s) addr (Z.to_nat sz) in
  exists m', run (atomic_rmw op sz addr val index pos) s = Leaf (Val old (on_memory (fun _ => m') s)) /\
    stored (memory s) m' addr sz (uN sz (op old (uN sz val))).
Proof.
  intros Hc Hsz. cbn zeta. set (old := load_bytes (memory s) addr (Z.to_nat sz)).
  exists (store_bytes (memory s) addr (to_le (Z.to_nat sz) (uN sz (op old (uN sz val))))). split.
  - unfold atomic_rmw. rewrite (run_pbind _ _ s _ _ (run_is_cxl s addr)), Hc.
    rewrite (run_pbind _ _ s _ _ (run_raw_load s addr sz)).
    rewrite (run_pbind _ _ s _ _ (run_raw_store s addr sz _)). done.
  - pose proof (stored_raw (memory s) addr sz (uN sz (op old (uN sz val))) Hsz) as Hst. by rewrite uN_idemp in Hst.
Qed.

Lemma private_rmw_witness : exists m',
  run (H := counter_rand) (cxlmc_atomic_fetch_add 1 9 255 0 "demo") demo_private = Leaf (Val 1 (on_memory (fun _ => m') demo_private)) /\
  stored demo_memory m' 9 1 0.
Proof.
  destruct (private_rmw (H := counter_rand) Z.add 1 9 255 0 "demo" demo_private eq_refl ltac:(lia)) as (m' & H1 & H2).
  exists m'. split; [exact H1|exact H2].
Defined.

(** On private memory a compare-exchange returns the old value, and stores the
    desired value exactly when the old one is the expected one. *)
Theorem private_cas `{Rand} sz addr expected desired succ fail pos s :
  mem_is_cxl s addr = false -> 0 <= sz ->
  let old := load_bytes (memory s) addr (Z.to_nat sz) in
  exists m', run (cxlmc_atomic_compare_exchange_v1 sz addr expected desired succ fail pos) s =
      Leaf (Val old (on_memory (fun _ => m') s)) /\
    if old =? uN sz expected then stored (memory s) m' addr sz (uN sz desired) else m' = memory s.
Proof.
  intros Hc Hsz. cbn zeta. set (old := load_bytes (memory s) addr (Z.to_nat sz)).
  unfold cxlmc_atomic_compare_exchange_v1. rewrite (run_pbind _ _ s _ _ (run_is_cxl s addr)), Hc.
  rewrite (run_pbind _ _ s _ _ (run_raw_load s addr sz)). fold old.
  destruct (Z.eqb_spec old (uN sz expected)) as [E|E].
  - exists (store_bytes (memory s) addr (to_le (Z.to_nat sz) (uN sz desired))). split.
    + cbn [pbind]. rewrite (run_pbind _ _ s _ _ (run_raw_store s addr sz _)), E. done.
    + pose proof (stored_raw (memory s) addr sz (uN sz desired) Hsz) as Hst. by rewrite uN_idemp in Hst.
  - exists (memory s). split; [|done]. by destruct s.
Qed.

Lemma private_cas_witness : exists m',
  run (H := counter_rand) (cxlmc_atomic_compare_exchange_v1 2 9 513 7 0 0 "demo") demo_private =
    Leaf (Val 513 (on_memory (fun _ => m') demo_private)) /\ stored demo_memory m' 9 2 7.
Proof.
  destruct (private_cas (H := counter_rand) 2 9 513 7 0 0 "demo" demo_private eq_refl ltac:(lia)) as (m' & H1 & H2).
  exists m'. split; [exact H1|exact H2].
Defined.

(** One [issue]: an action of the running thread. *)
Lemma traces_issue {B} t loc val ord sz pos y (f : Z -> prog B) s l r :
  traces (let* v := issue t loc val ord sz pos y in f v) s l r <->
  exists v s' l', l = (ModelAction_new (thread_id (proc s)) t loc val ord sz pos, y, v) :: l' /\
    interferes s s' /\ traces (f v) s' l' r.
Proof. done. Qed.

Lemma traces_order {B} index (f : memory_order -> prog B) s l r :
  traces (let* ord := order_at index in f ord) s l r <->
  exists ord, lookupZ orders index = Some ord /\ traces (f ord) s l r.
Proof.
  unfold order_at, perform. simpl. destruct (lookupZ orders index) as [ord|]; simpl.
  - split; [eauto|]. by intros (o & [= ->] & ?).
  - split; [done|]. by intros (o & ? & ?).
Qed.

Lemma pbind_assoc_traces {A B C} (p : prog A) (f : A -> prog B) (g : B -> prog C) s l r :
  traces (let* b := (let* a := p in f a) in g b) s l r <-> traces (let* a := p in let* b := f a in g b) s l r.
Proof.
  revert s l. induction p as [a|a y k IH|X m k IH]; intros s l; simpl; [done| |].
  - by setoid_rewrite IH.
  - split; apply some_leaf_mono; intros [x s'|e s']; try done; apply IH.
Qed.

Lemma interferes_tid s s' : interferes s s' -> thread_id (proc s') = thread_id (proc s).
Proof. by intros [? _]. Qed.
Lemma interferes_refl s : interferes s s.
Proof. done. Qed.

(** C32: On CXL memory a read-modify-write is two actions of the thread: the read
    half, and then a write of the result of the operation on the value that the
    read returned; the caller gets that value, truncated to the width. *)
Theorem rmw_trace op sz addr val index pos s l r :
  mem_is_cxl s addr = true ->
  traces (atomic_rmw op sz addr val index pos) s l r <->
  exists ord v w, lookupZ orders index = Some ord /\ r = uN sz v /\
    l = [(ModelAction_new (thread_id (proc s)) ATOMIC_RMWR addr 0 ord sz pos, true, v);
         (ModelAction_new (thread_id (proc s)) ATOMIC_RMW addr (uN sz (op (uN sz v) (uN sz val))) ord sz pos, true, w)].
Proof.
  intros Hc. unfold atomic_rmw, is_cxl, perform. cbn [pbind traces some_leaf gets]. rewrite Hc.
  unfold model_rmw_read_action, model_rmw_action. rewrite !pbind_assoc_traces, traces_order. split.
  - intros (ord & Ho & (v & s1 & l1 & -> & Hi1 & H1)%traces_issue).
    cbn [pbind] in H1. apply pbind_assoc_traces, pbind_assoc_traces, traces_order in H1 as (ord' & Ho' & H1).
    apply traces_issue in H1 as (w & s2 & l2 & -> & Hi2 & [-> <-]).
    rewrite (interferes_tid _ _ Hi1). exists ord, v, w. split; [done|]. split; [done|].
    rewrite Ho in Ho'. injection Ho' as <-. done.
  - intros (ord & v & w & Ho & -> & ->). exists ord. split; [done|]. apply traces_issue.
    do 3 eexists. split; [reflexivity|]. split; [apply interferes_refl|]. cbn [pbind].
    apply pbind_assoc_traces, pbind_assoc_traces, traces_order. exists ord. split; [done|].
    apply traces_issue. do 3 eexists. split; [reflexivity|]. split; [apply interferes_refl|]. done.
Qed.

Definition demo_mapped : St := on_mdl (with_cxl_mapping 4096) demo_private.

Lemma rmw_trace_witness :
  traces (cxlmc_atomic_fetch_add 4 4096 5 5 "demo") demo_mapped
    [(ModelAction_new 0 ATOMIC_RMWR 4096 0 memory_order_seq_cst 4 "demo", true, 7);
     (ModelAction_new 0 ATOMIC_RMW 4096 12 memory_order_seq_cst 4 "demo", true, 12)] 7.
Proof.
  apply (rmw_trace Z.add 4 4096 5 5 "demo" demo_mapped _ 7 eq_refl).
  exists memory_order_seq_cst, 7, 12. split; [reflexivity|]. split; reflexivity.
Defined.

(** C39: On CXL memory a compare-exchange is two actions of the thread: the read
    half, and then a write of the desired value if the value read is the
    expected one, or a failed compare-exchange that writes nothing; the caller
    gets the value read. *)
Theorem cas_trace sz addr expected desired succ fail pos s l r :
  mem_is_cxl s addr = true ->
  traces (cxlmc_atomic_compare_exchange_v1 sz addr expected desired succ fail pos) s l r <->
  exists ord v w, lookupZ orders succ = Some ord /\ r = uN sz v /\
    let read := (ModelAction_new (thread_id (proc s)) ATOMIC_RMWR addr 0 ord sz pos, true, v) in
    if uN sz v =? uN sz expected then
      l = [read; (ModelAction_new (thread_id (proc s)) ATOMIC_RMW addr (uN sz desired) ord sz pos, true, w)]
    else exists ord', lookupZ orders fail = Some ord' /\
      l = [read; (ModelAction_new (thread_id (proc s)) ATOMIC_CAS_FAILED addr 0 ord' sz pos, true, w)].
Proof.
  intros Hc. unfold cxlmc_atomic_compare_exchange_v1, is_cxl, perform. cbn [pbind traces some_leaf gets]. rewrite Hc.
  unfold model_rmw_read_action, model_rmw_action, model_rmw_cas_fail_action.
  rewrite !pbind_assoc_traces, traces_order. split.
  - intros (ord & Ho & (v & s1 & l1 & -> & Hi1 & H1)%traces_issue). cbn [pbind] in H1.
    exists ord, v. destruct (Z.eqb_spec (uN sz v) (uN sz expected)) as [E|E].
    + apply pbind_assoc_traces, traces_order in H1 as (ord' & Ho' & H1). rewrite Ho in Ho'. injection Ho' as <-.
      apply traces_issue in H1 as (w & s2 & l2 & -> & Hi2 & H2). cbn [pbind traces some_leaf raw_store modify] in H2.
      destruct H2 as [-> <-]. exists w. split; [done|]. split; [done|]. by rewrite (interferes_tid _ _ Hi1).
    + apply pbind_assoc_traces, traces_order in H1 as (ord' & Ho' & H1).
      apply traces_issue in H1 as (w & s2 & l2 & -> & Hi2 & [-> <-]). exists w. split; [done|]. split; [done|].
      exists ord'. by rewrite (interferes_tid _ _ Hi1).
  - intros (ord & v & w & Ho & -> & Hl). exists ord. split; [done|]. apply traces_issue. cbn zeta in Hl.
    destruct (Z.eqb_spec (uN sz v) (uN sz expected)) as [E|E].
    + rewrite Hl. do 3 eexists. split; [reflexivity|]. split; [apply interferes_refl|]. cbn [pbind].
      rewrite (proj2 (Z.eqb_eq _ _) E). apply pbind_assoc_traces, traces_order. exists ord. split; [done|].
      apply traces_issue. do 3 eexists. split; [reflexivity|]. split; [apply interferes_refl|]. by cbn.
    + destruct Hl as (ord' & Ho' & ->). do 3 eexists. split; [reflexivity|]. split; [apply interferes_refl|].
      cbn [pbind]. rewrite (proj2 (Z.eqb_neq _ _) E). apply pbind_assoc_traces, traces_order.
      exists ord'. split; [done|]. apply traces_issue. do 3 eexists. split; [reflexivity|].
      split; [apply interferes_refl|]. done.
Qed.

Lemma cas_trace_witness :
  traces (cxlmc_atomic_compare_exchange_v1 4 4096 7 9 5 0 "demo") demo_mapped
    [(ModelAction_new 0 ATOMIC_RMWR 4096 0 memory_order_seq_cst 4 "demo", true, 8);
     (ModelAction_new 0 ATOMIC_CAS_FAILED 4096 0 memory_order_relaxed 4 "demo", true, 0)] 8.
Proof.
  apply (cas_trace 4 4096 7 9 5 0 "demo" demo_mapped _ 8 eq_refl).
  exists memory_order_seq_cst, 8, 0. split; [reflexivity|]. split; [reflexivity|].
  exists memory_order_relaxed. split; reflexivity.
Defined.
