(* ===== verification/CopySpec.v ===== *)
(** * CopySpec: what [memcpy] does

    The interposed [memcpy] of [src/src/user/memapi.cc] on CXL memory: the
    actions that it issues, the bytes it leaves, and that it comes to its end. *)
From S2P Require Import Prelude Choice Action ReadFrom CacheLine ThreadMemory State Scheduler ModelCore Executor Program Api Atomic MemApi ApiSpec.

(** ** The log of a copy *)

(** The actions of [cxlmc_load] and of [cxlmc_store]. *)
Definition load_of (tid loc w : Z) (pos : string) : ModelAction :=
  ModelAction_new tid NONATOMIC_LOAD loc VALUE_NONE memory_order_relaxed w pos.
Definition store_of (tid loc w val : Z) (pos : string) : ModelAction :=
  ModelAction_new tid NONATOMIC_STORE loc val memory_order_relaxed w pos.

(** What a load of [w] bytes with result [x] issues, on CXL memory or not; then a store. *)
Definition load_log (cxl : bool) (tid loc w : Z) (pos : string) (x : Z) (l : list issue_event) : Prop :=
  if cxl then exists v, l = [(load_of tid loc w pos, false, v)] /\ x = uN w v else l = [].
Definition store_log (cxl : bool) (tid loc w : Z) (pos : string) (x : Z) (l : list issue_event) : Prop :=
  l = if cxl then [(store_of tid loc w (uN w x) pos, false, uN w x)] else [].

Section Log.
Variables (tid : Z) (sc dc : bool) (src dst : Z) (pos : string).
(** The copy of the bytes [data] from offset [i] on: one piece after the other,
    each of a width to which both of its addresses are aligned, loaded and then
    stored. *)
Inductive copy_log : Z -> list Z -> list issue_event -> Prop :=
| copy_log_nil i : copy_log i [] []
| copy_log_piece i w x data ll ls l :
    width w -> (w | src + i) -> (w | dst + i) ->
    load_log sc tid (src + i) w pos x ll -> store_log dc tid (dst + i) w pos x ls ->
    copy_log (i + w) data l ->
    copy_log i (to_le (Z.to_nat w) x ++ data) (ll ++ ls ++ l).
End Log.

(** The bytes [data] at [a], the other bytes as in [m]. *)
Definition written (m m' : gmap Z Z) (a : Z) (data : list Z) : Prop := forall b,
  load_byte m' b = if (a <=? b) && (b <? a + lenZ data) then default 0 (data !! Z.to_nat (b - a)) else load_byte m b.

(** The bytes of [m] from [a] on. *)
Definition bytes_at (m : gmap Z Z) (a n : Z) : list Z := map (fun i => load_byte m (a + i)) (seqZ 0 n).

(** ** Memory *)

Lemma written_nil m a : written m m a [].
Proof. intros b. change (lenZ (@nil Z)) with 0. destruct (Z.leb_spec a b), (Z.ltb_spec b (a + 0)); simpl; (done || lia). Qed.

Lemma written_app m m' a l data : written (store_bytes m a l) m' (a + lenZ l) data -> written m m' a (l ++ data).
Proof.
  intros Hw b. rewrite Hw, load_store_bytes. unfold lenZ in *. rewrite length_app, Nat2Z.inj_add.
  destruct (Z.leb_spec a b), (Z.ltb_spec b (a + Z.of_nat (length l))),
    (Z.leb_spec (a + Z.of_nat (length l)) b), (Z.ltb_spec b (a + (Z.of_nat (length l) + Z.of_nat (length data)))),
    (Z.ltb_spec b (a + Z.of_nat (length l) + Z.of_nat (length data))); simpl; try lia; try done.
  - by rewrite lookup_app_l by lia.
  - rewrite lookup_app_r by lia. repeat f_equal. lia.
Qed.

Lemma bytes_at_app m a k n : 0 <= k <= n -> bytes_at m a n = bytes_at m a k ++ bytes_at m (a + k) (n - k).
Proof.
  intros Hk. unfold bytes_at. replace n with (k + (n - k)) at 1 by lia.
  rewrite seqZ_app, map_app by lia. f_equal.
  apply list_eq. intros i. rewrite !list_lookup_fmap.
  destruct (decide (Z.of_nat i < n - k)); [|by rewrite !lookup_seqZ_ge by lia].
  rewrite !lookup_seqZ_lt by lia. simpl. do 2 f_equal. lia.
Qed.

Lemma bytes_at_le m a n : bytes_ok m -> to_le n (load_bytes m a n) = bytes_at m a (Z.of_nat n).
Proof.
  intros Hm. rewrite load_bytes_list by done. unfold bytes_at, seqZ. rewrite map_map, Nat2Z.id.
  apply map_ext. intros i. f_equal. lia.
Qed.

Lemma bytes_at_others m a l c n : c + n <= a \/ a + lenZ l <= c -> bytes_at (store_bytes m a l) c n = bytes_at m c n.
Proof.
  intros Hd. unfold bytes_at. apply map_ext_in. intros i Hi%list_elem_of_In%elem_of_seqZ. rewrite load_store_bytes.
  destruct (Z.leb_spec a (c + i)), (Z.ltb_spec (c + i) (a + lenZ l)); simpl; (done || lia).
Qed.

Lemma bytes_ok_store m a n x : bytes_ok m -> bytes_ok (store_bytes m a (to_le n x)).
Proof.
  intros Hm b. rewrite load_store_bytes. case_if; [|apply Hm].
  destruct (to_le n x !! Z.to_nat (b - a)) as [y|] eqn:E; simpl; [|lia].
  pose proof (to_le_bytes n x) as HF. rewrite Forall_lookup in HF. by eapply HF.
Qed.

(** ** The pieces are aligned *)

Lemma aligned_divides k x : 0 < k -> 0 <= x < 2 ^ 64 -> Z.land (u64 x) (2 ^ k - 1) = 0 -> (2 ^ k | x).
Proof.
  intros Hk Hx. rewrite wrap_small by done. replace (2 ^ k - 1) with (Z.ones k) by (rewrite Z.ones_equiv; lia).
  rewrite Z.land_ones by lia. apply Z.mod_divide. lia.
Qed.

Lemma piece_aligned src dst n i : 0 <= src -> 0 <= dst -> src + n <= 2 ^ 64 -> dst + n <= 2 ^ 64 -> 0 <= i < n ->
  (piece [src; dst] n i | src + i) /\ (piece [src; dst] n i | dst + i).
Proof.
  intros Hs Hd Hsn Hdn Hi. unfold piece, all_aligned. simpl.
  repeat case_if; bools; [split; apply (aligned_divides 3)|split; apply (aligned_divides 2)|split; apply (aligned_divides 1)|];
    (done || lia || (split; apply Z.divide_1_l)).
Qed.

(** ** The calls *)

Section Copy.
Context `{Rand}.

(** What an access through the model leaves: the memory, its mapping and the thread. *)
Definition quiet (s s' : St) : Prop :=
  memory s' = memory s /\ cxl_mapping (mdl s') = cxl_mapping (mdl s) /\ thread_id (proc s') = thread_id (proc s).
(** [e] is a reason to stop of the action [a]. *)
Definition stop_of (a : ModelAction) (e : stop) : Prop := exists s s', Stop e s' ∈ leaves (action a false s).

Lemma traced_issue t loc val ord sz pos s : memory_type t = true -> 
  wp (traced (issue t loc val ord sz pos false)) (fun r => match r with
    | Val (v, l) s' => quiet s s' /\ (keeps_value t = true -> v = val) /\
        l = [(ModelAction_new (thread_id (proc s)) t loc val ord sz pos, false, v)]
    | Stop e _ => stop_of (ModelAction_new (thread_id (proc s)) t loc val ord sz pos) e end) s.
Proof.
  intros Ht. unfold issue, new_action, perform, call. simpl. unfold self_tid. wp_step. unfold wp at 1; simpl.
  set (a := ModelAction_new _ _ _ _ _ _ _). assert (t <> PTHREAD_CREATE) as Hc by (by intros ->).
  pose proof (action_memory a false (memory s) (cxl_mapping (mdl s)) (thread_id (proc s)) Hc s) as Hq.
  pose proof (memory_action_done a false s Ht eq_refl) as Hd.
  assert (wp (action a false) (fun r => match r with Stop e _ => stop_of a e | _ => True end) s) as Hs.
  { apply all_leaves_elem, Forall_forall. intros [v s'|e s'] Hl; [done|]. by exists s, s'. }
  rewrite wp_bind. eapply wp_mono; [|exact (wp_and _ _ _ _ Hs (wp_and _ _ _ _ Hd (Hq ltac:(done))))].
  intros [[v|p] s'|e s']; simpl; [|tauto|tauto]. intros (_ & Hv & Hq'). unfold wp; simpl. done.
Qed.

(** The state that the copy starts with: its thread and its mapping stay. *)
Variable s0 : St.
Let tid := thread_id (proc s0).
Definition mapped (s : St) : Prop := cxl_mapping (mdl s) = cxl_mapping (mdl s0) /\ thread_id (proc s) = tid.
Lemma mapped_cxl s a : mapped s -> mem_is_cxl s a = mem_is_cxl s0 a.
Proof. intros [Hc _]. by apply mem_is_cxl_mapping. Qed.
Lemma mapped_quiet s s' : mapped s -> quiet s s' -> mapped s'.
Proof. intros [H1 H2] (_ & H3 & H4). split; congruence. Qed.

Lemma traced_is_cxl a s (Q : result St (bool * list issue_event) -> Prop) :
  Q (Val (mem_is_cxl s a, []) s) -> wp (traced (is_cxl a)) Q s.
Proof. done. Qed.

Lemma traced_outside s (Q : result St (bool * list issue_event) -> Prop) :
  Q (Val (negb (inside_model (proc s)), []) s) -> wp (traced outside_model) Q s.
Proof. done. Qed.

Lemma traced_load w loc pos s : mapped s ->
  wp (traced (cxlmc_load w loc pos)) (fun r => match r with
    | Val (x, l) s' => quiet s s' /\ load_log (mem_is_cxl s0 loc) tid loc w pos x l /\
        (mem_is_cxl s0 loc = false -> x = load_bytes (memory s) loc (Z.to_nat w))
    | Stop e _ => mem_is_cxl s0 loc = true /\ stop_of (load_of tid loc w pos) e end) s.
Proof.
  intros Hs. unfold cxlmc_load. apply wp_traced_bind, traced_is_cxl. rewrite (mapped_cxl s) by done. destruct Hs as [_ Htid]. destruct (mem_is_cxl s0 loc).
  - apply wp_traced_bind. eapply wp_mono; [|apply traced_issue; done].
    intros [[v l] s'|e s']; simpl; rewrite Htid; [|by split]. intros (Hq & _ & ->). unfold wp; simpl.
    split; [done|]. split; [by exists v|done].
  - simpl. wp_step. unfold wp; simpl. done.
Qed.

Lemma traced_store w loc x pos s : mapped s -> 0 <= w ->
  wp (traced (cxlmc_store w loc x pos)) (fun r => match r with
    | Val (_, l) s' => mapped s' /\ memory s' = store_bytes (memory s) loc (to_le (Z.to_nat w) x) /\
        store_log (mem_is_cxl s0 loc) tid loc w pos x l
    | Stop e _ => mem_is_cxl s0 loc = true /\ stop_of (store_of tid loc w (uN w x) pos) e end) s.
Proof.
  intros Hs Hw. unfold cxlmc_store. apply wp_traced_bind, traced_is_cxl. rewrite (mapped_cxl s) by done. unfold store_log. apply wp_traced_bind. destruct (mem_is_cxl s0 loc).
  - eapply wp_mono; [|apply traced_issue; done].
    intros [[v l] s'|e s']; simpl; rewrite (proj2 Hs); [|by split]. intros (Hq & Hv & ->). rewrite Hv by done.
    simpl. wp_step. unfold wp; simpl. destruct (mapped_quiet _ _ Hs Hq) as [? ?]. split; [done|].
    split; [by rewrite (proj1 Hq)|done].
  - unfold wp at 1; simpl. wp_step. unfold wp; simpl. done.
Qed.

(** ** The loop *)

Variables (src dst n : Z) (sc dc : bool) (pos : string).
Hypothesis Hn : 0 <= n <= 2 ^ 32 - 8.
Hypothesis Hsrc : 0 <= src /\ src + n <= 2 ^ 64.
Hypothesis Hdst : 0 <= dst /\ dst + n <= 2 ^ 64.
Hypothesis Hsc : forall i, 0 <= i < n -> mem_is_cxl s0 (src + i) = sc.
Hypothesis Hdc : forall i, 0 <= i < n -> mem_is_cxl s0 (dst + i) = dc.
Hypothesis Hdis : sc = false -> dst <= src \/ src + n <= dst.

(** A reason to stop of one of the accesses of the copy that go through the model. *)
Definition copy_stop (e : stop) : Prop := exists i w, 0 <= i < n /\ width w /\
  (sc = true /\ stop_of (load_of tid (src + i) w pos) e \/
   dc = true /\ exists x, stop_of (store_of tid (dst + i) w x pos) e).

Lemma copy_piece i w s : mapped s -> 0 <= i -> width w -> i + w <= n ->
  wp (traced (copy_body dst src pos i w)) (fun r => match r with
    | Val (_, l) s' => exists x ll ls, l = ll ++ ls /\ mapped s' /\
        memory s' = store_bytes (memory s) (dst + i) (to_le (Z.to_nat w) x) /\
        load_log sc tid (src + i) w pos x ll /\ store_log dc tid (dst + i) w pos x ls /\
        (sc = false -> x = load_bytes (memory s) (src + i) (Z.to_nat w))
    | Stop e _ => copy_stop e end) s.
Proof.
  intros Hs Hi Hw Hiw. pose proof Hw as Hw'. unfold width in Hw'. unfold copy_body. rewrite !wrap_small by lia.
  apply wp_traced_bind. eapply wp_mono; [|by apply traced_load]. rewrite Hsc by lia.
  intros [[x ll] s1|e s1]; [|intros [? ?]; exists i, w; split; [lia|]; auto]. intros (Hq & Hll & Hx).
  eapply wp_mono; [|apply traced_store; [by eapply mapped_quiet|lia]]. rewrite Hdc by lia.
  intros [[[] ls] s2|e s2]; simpl; [|intros [? ?]; exists i, w; split; [lia|]; eauto 6]. intros (Hs2 & Hm & Hls).
  exists x, ll, ls. rewrite Hm, (proj1 Hq). done.
Qed.

Lemma copy_loop fuel : forall i s, 0 <= i <= n -> n - i <= Z.of_nat fuel -> mapped s -> (sc = false -> bytes_ok (memory s)) ->
  wp (traced (mem_loop fuel [src; dst] n i (copy_body dst src pos))) (fun r => match r with
    | Val (_, l) s' => exists data, lenZ data = n - i /\ written (memory s) (memory s') (dst + i) data /\
        copy_log tid sc dc src dst pos i data l /\ (sc = false -> data = bytes_at (memory s) (src + i) (n - i))
    | Stop e _ => copy_stop e end) s.
Proof.
  assert (forall i s, i = n -> wp (traced (Ret tt)) (fun r => match r with
    | Val (_, l) s' => exists data, lenZ data = n - i /\ written (memory s) (memory s') (dst + i) data /\
        copy_log tid sc dc src dst pos i data l /\ (sc = false -> data = bytes_at (memory s) (src + i) (n - i))
    | Stop e _ => copy_stop e end) s) as Hend.
  { intros i s ->. unfold wp; simpl. exists []. rewrite Z.sub_diag. split; [done|]. split; [apply written_nil|].
    split; [constructor|done]. }
  induction fuel as [|fuel IH]; intros i s Hi Hf Hs Hb; simpl; destruct (Z.ltb_spec i n) as [Hlt|Hge];
    try (apply Hend; lia); [lia|].
  destruct (piece_bounds [src; dst] n i) as [Hw Hwn]; [lia|lia|].
  destruct (piece_aligned src dst n i) as [Has Had]; [lia..|]. revert Hw Hwn Has Had.
  generalize (piece [src; dst] n i) as w. intros w Hw Hwn Has Had. pose proof Hw as Hw'. unfold width in Hw'.
  apply wp_traced_bind. eapply wp_mono; [|apply (copy_piece i w s); (done || lia)].
  intros [[[] l1] s1|e s1]; [|done]. intros (x & ll & ls & -> & Hs1 & Hm & Hll & Hls & Hx). rewrite wrap_small by lia.
  eapply wp_mono; [|apply IH; [lia|lia|done|]].
  - intros [[[] l] s2|e s2]; simpl; [|done]. intros (data & Hlen & Hwr & Hlog & Hdata).
    exists (to_le (Z.to_nat w) x ++ data). rewrite <- app_assoc.
    assert (lenZ (to_le (Z.to_nat w) x) = w) as Hl by (unfold lenZ; rewrite length_to_le; lia).
    split; [|split; [|split]].
    + unfold lenZ in *. rewrite length_app. lia.
    + apply written_app. rewrite Hl, <- Hm. by replace (dst + i + w) with (dst + (i + w)) by lia.
    + by constructor.
    + intros Hf'. rewrite (bytes_at_app _ _ w) by lia. f_equal.
      * rewrite Hx, bytes_at_le by auto. f_equal. lia.
      * rewrite Hdata, Hm by done. rewrite bytes_at_others by (rewrite Hl; specialize (Hdis Hf'); lia). f_equal; lia.
  - intros Hf'. rewrite Hm. apply bytes_ok_store. auto.
Qed.
End Copy.

(** ** Properties *)

Definition same_kind (s : St) (a n : Z) : Prop := forall i, 0 <= i < n -> mem_is_cxl s (a + i) = mem_is_cxl s a.

(** C33: [memcpy] on CXL memory copies.  Let the program call it (outside the
    model) for [n <= 2^32 - 8] bytes, such that the source or the destination is
    CXL memory, each of the two entirely or not at all, and, when the source is
    private, the destination does not start inside it.  When it returns, it
    returns [dst]; it has issued, in order and for pieces of 1, 2, 4 or 8 bytes
    that cover the range once and are aligned at both ends, a load of each piece
    if the source is CXL memory and then a store of the loaded value if the
    destination is; the memory that the program reads directly holds these bytes
    at the destination, the bytes of the source when the source is private, and
    is unchanged elsewhere.  It stops only where one of these accesses stops:
    the loop comes to its end. *)
Theorem memcpy_copies `{Rand} real s dst src n :
  let sc := mem_is_cxl s src in
  let dc := mem_is_cxl s dst in
  let tid := thread_id (proc s) in
  inside_model (proc s) = false -> dc || sc = true ->
  spans dst n -> spans src n -> same_kind s dst n -> same_kind s src n ->
  (sc = false -> bytes_ok (memory s) /\ (dst <= src \/ src + n <= dst)) ->
  wp (traced (memcpy real dst src n)) (fun r => match r with
    | Val (v, l) s' => v = dst /\ exists data, lenZ data = n /\ written (memory s) (memory s') dst data /\
        copy_log tid sc dc src dst "memcpy" 0 data l /\ (sc = false -> data = bytes_at (memory s) src n)
    | Stop e _ => copy_stop s src dst n sc dc "memcpy" e end) s.
Proof.
  cbn zeta. intros Hin Hcxl (Hn & Hd) (_ & Hs) Hkd Hks Hpriv. unfold memcpy.
  apply wp_traced_bind, traced_outside, wp_traced_bind, traced_is_cxl, wp_traced_bind, traced_is_cxl. rewrite Hin, Hcxl.
  unfold cxlmc_memcpy. apply wp_traced_bind.
  eapply wp_mono; [|apply (copy_loop s src dst n (mem_is_cxl s src) (mem_is_cxl s dst)); try done].
  - intros [[[] l] s'|e s']; [|done]. rewrite !Z.add_0_r, Z.sub_0_r. intros (data & ? & ? & ? & ?).
    unfold wp; simpl. rewrite app_nil_r. eauto 6.
  - intros Hf. by apply Hpriv.
  - lia.
  - lia.
  - intros Hf. by apply Hpriv.
Qed.

Lemma memcpy_copies_witness :
  wp (traced (H := counter_rand) (memcpy None 4104 8 6)) (fun r => match r with
    | Val (v, l) s' => v = 4104 /\ exists data, lenZ data = 6 /\ written (memory demo_mapped) (memory s') 4104 data /\
        copy_log 0 false true 8 4104 "memcpy" 0 data l /\ (false = false -> data = bytes_at (memory demo_mapped) 8 6)
    | Stop e _ => copy_stop (H := counter_rand) demo_mapped 8 4104 6 false true "memcpy" e end) demo_mapped.
Proof.
  refine (memcpy_copies (H := counter_rand) None demo_mapped 4104 8 6 eq_refl eq_refl _ _ _ _ _).
  - unfold spans. lia.
  - unfold spans. lia.
  - intros i Hi. assert (i = 0 \/ i = 1 \/ i = 2 \/ i = 3 \/ i = 4 \/ i = 5) as [->|[->|[->|[->|[->| ->]]]]] by lia; reflexivity.
  - intros i Hi. assert (i = 0 \/ i = 1 \/ i = 2 \/ i = 3 \/ i = 4 \/ i = 5) as [->|[->|[->|[->|[->| ->]]]]] by lia; reflexivity.
  - intros _. split; [exact demo_bytes|right; lia].
Defined.

(** The copy of the witness returns: a load of the source is plain, the two
    stores go through the model. *)
Example memcpy_runs :
  match traced (H := counter_rand) (memcpy None 4104 8 6) demo_mapped with
  | Leaf (Val (v, l) s') => (v, map (fun e => match e with (a, y, v) => (location a, act_size a, v) end) l, bytes_at (memory s') 4104 6)
  | _ => (0, [], [])
  end = (4104, [(4104, 4, 50462976); (4108, 2, 0)], [0; 1; 2; 3; 0; 0]).
Proof. vm_compute. reflexivity. Qed.
