(* ===== verification/Init.v ===== *)
(** * Init: starting the processes under test

    [main] and [user_prog] of [src/src/init.cc] and [user_init] of
    [src/src/user/user.cc]: reading the options, splitting the command line of a
    program under test, the layout of the shared mapping, which process runs which
    program, and what the parent does with the children it waits for.  [dlopen]
    and [dlsym] are parameters; [getopt] gives the list of options with their
    arguments.  A C string is the list of its characters without the final zero. *)
From Stdlib Require Import Ascii.
From S2P Require Import Prelude Choice Action ReadFrom CacheLine ThreadMemory State Scheduler ModelCore Executor Execution Machine Program Api MemApi Resolve.

Abbreviation cstring := (list ascii).
Definition lit (s : string) : cstring := String.list_ascii_of_string s.
Definition blank : ascii := " "%char.
#[export] Instance cstring_eq_dec : EqDecision cstring := list_eq_dec.

(** ** [strtok_r(save_ptr, " ", &save_ptr)] *)
Fixpoint skip_blanks (s : cstring) : cstring :=
  match s with
  | [] => []
  | c :: s' => if bool_decide (c = blank) then skip_blanks s' else s
  end.
(** The characters up to the next blank, and what follows that blank. *)
Fixpoint word (s : cstring) : cstring * cstring :=
  match s with
  | [] => ([], [])
  | c :: s => if bool_decide (c = blank) then ([], s) else let (w, r) := word s in (c :: w, r)
  end.
Definition strtok_r (s : cstring) : option (cstring * cstring) :=
  match skip_blanks s with [] => None | s => Some (word s) end.

(** ** [user_prog] *)
Record user_prog := mkProg {
  argc : Z;
  argv : list (option cstring);      (* the block of [argv_capacity] pointers *)
  argv_capacity : Z;
  user_init_ptr : Z;
  user_main_ptr : Z;
  user_done_ptr : Z
}.

(** The loop over the tokens: [argv] doubles when it is full. *)
Fixpoint token_loop (fuel : nat) (save_ptr : cstring) (argc argv_capacity : Z) (argv : list (option cstring))
    : err (Z * Z * list (option cstring)) :=
  match strtok_r save_ptr with
  | None => inr (argc, argv_capacity, argv)
  | Some (token, save_ptr) =>
      match fuel with
      | O => inl (NoReturn "strtok_r")
      | S fuel =>
          let '(argv_capacity, argv) :=
            if argc =? argv_capacity then (argv_capacity * 2, argv ++ replicate (Z.to_nat argv_capacity) None)
            else (argv_capacity, argv) in
          if (0 <=? argc) && (argc <? lenZ argv)
          then token_loop fuel save_ptr (argc + 1) argv_capacity (<[Z.to_nat argc := Some token]> argv)
          else inl (UB "argv[argc++]")
      end
  end.

Section Programs.
Context (dlopen : cstring -> option Z) (dlsym : Z -> cstring -> option Z).

(** [if (!p) { cerr << dlerror(); exit(EXIT_FAILURE); }] *)
Definition or_exit {A} (p : option A) : err A := match p with Some x => inr x | None => inl (Exit EXIT_FAILURE) end.

Definition user_prog_new (file_str : cstring) : err user_prog :=
  let? (argc, cap, argv) := token_loop (length file_str) file_str 0 5 (replicate 5 None) in
  if argc =? 0 then inl (Exit EXIT_FAILURE)
  else
    let? path := match lookupZ argv 0 with Some (Some t) => inr t | _ => inl (UB "argv[0]") end in
    let? handle := or_exit (dlopen path) in
    let? user_init := or_exit (dlsym handle (lit "user_init")) in
    let? user_main := or_exit (dlsym handle (lit "main")) in
    let? user_done := or_exit (dlsym handle (lit "user_done")) in
    inr (mkProg argc argv cap user_init user_main user_done).

(** ** The options *)

(** [atoi]: blanks, a sign, decimal digits. *)
Definition digit (c : ascii) : option Z :=
  let n := Z.of_nat (nat_of_ascii c) in if (48 <=? n) && (n <=? 57) then Some (n - 48) else None.
Fixpoint digits (acc : Z) (s : cstring) : Z :=
  match s with
  | [] => acc
  | c :: s => match digit c with Some d => digits (10 * acc + d) s | None => acc end
  end.
Definition is_space (c : ascii) : bool :=
  let n := Z.of_nat (nat_of_ascii c) in (n =? 32) || ((9 <=? n) && (n <=? 13)).
Fixpoint skip_space (s : cstring) : cstring :=
  match s with c :: s' => if is_space c then skip_space s' else s | [] => [] end.
Definition atoi (s : cstring) : Z :=
  match skip_space s with
  | c :: s' => if bool_decide (c = "-"%char) then - digits 0 s'
               else if bool_decide (c = "+"%char) then digits 0 s' else digits 0 (c :: s')
  | [] => 0
  end.

Record options := mkOptions {
  ns_save : option cstring;
  ns_load : option cstring;
  processes : Z;
  progv : list user_prog;            (* the first [progc] elements *)
  progv_cap : Z;
  execution_num_save : Z
}.
Definition progc (o : options) : Z := lenZ (progv o).
Definition options_init : options := mkOptions None None 0 [] 2 0.

(** One [case] of the [switch]. *)
Definition read_option (o : options) (opt : ascii) (optarg : cstring) : err options :=
  if bool_decide (opt = "e"%char) then
    inr (mkOptions (ns_save o) (ns_load o) (processes o) (progv o) (progv_cap o) (atoi optarg))
  else if bool_decide (opt = "f"%char) then
    let cap := if progc o =? progv_cap o then progv_cap o * 2 else progv_cap o in
    let? p := user_prog_new optarg in
    if progc o <? cap
    then inr (mkOptions (ns_save o) (ns_load o) (processes o) (progv o ++ [p]) cap (execution_num_save o))
    else inl (UB "progv[progc++]")
  else if bool_decide (opt = "l"%char) then
    inr (mkOptions (ns_save o) (Some optarg) (processes o) (progv o) (progv_cap o) (execution_num_save o))
  else if bool_decide (opt = "n"%char) then
    inr (mkOptions (ns_save o) (ns_load o) (atoi optarg) (progv o) (progv_cap o) (execution_num_save o))
  else if bool_decide (opt = "s"%char) then
    inr (mkOptions (Some optarg) (ns_load o) (processes o) (progv o) (progv_cap o) (execution_num_save o))
  else inr o.
Fixpoint read_options (l : list (ascii * cstring)) (o : options) : err options :=
  match l with
  | [] => inr o
  | (opt, optarg) :: l => let? o := read_option o opt optarg in read_options l o
  end.

Definition check_options (o : options) : err unit :=
  if processes o <? 1 then inl (Exit EXIT_FAILURE)
  else if progc o =? 0 then inl (Exit EXIT_FAILURE)
  else if processes o <? progc o then inl (Exit EXIT_FAILURE)
  else inr tt.
End Programs.

(** ** The shared mapping and the processes *)
Definition SHARED_MAP_SIZE : Z := Z.shiftl 1 30.

(** The space of the containers, the scheduler and the model, in this order. *)
Record layout := mkLayout { map_size : Z; scheduler_at : Z; model_at : Z }.
Definition shared_layout (mapping sizeof_Scheduler sizeof_Model : Z) : layout :=
  let reserved := sizeof_Scheduler + sizeof_Model in
  mkLayout (SHARED_MAP_SIZE + reserved) (mapping + SHARED_MAP_SIZE) (mapping + SHARED_MAP_SIZE + sizeof_Scheduler).

(** The forks of the children [0 .. processes - 1]; [fork] gives their pids. *)
Definition fork_children (fork : Z -> Z) (o : options) : list Z := fork <$> seqZ 0 (processes o).
(** [&progv[id % progc]] *)
Definition program_of (o : options) (id : Z) : option user_prog := lookupZ (progv o) (id mod progc o).

(** ** [user_init]: a child prepares itself *)
Definition SNAPSHOT_PAGES : Z := 20000.
Definition CXLMC_PAGE_SIZE : Z := 4096.
Inductive exit_handler := user_exit.

(** The globals of the library in the child. *)
Record UserState := mkUser {
  u_model : Z;
  u_shared_space : Z;
  u_process : option Process;          (* [process_id], [thread_id], the generator *)
  u_real : RealTable;
  u_mem : MemOps;
  u_snapshot_space : Z;
  u_exit_handlers : list exit_handler
}.
Definition user_fresh : UserState := mkUser 0 0 None real_null mem_null 0 [].

Section UserInit.
Variable dlsym_next : string -> option Z.                       (* dlsym(RTLD_NEXT, name) *)
Variable mmap : Z -> option Z.                                  (* anonymous private pages, None: MAP_FAILED *)
Variable create_mspace_with_base : Z -> Z -> Z -> Z.

(** The state in which the process ends or begins to [wait]; the handlers that
    [exit] runs are those registered so far. *)
Definition user_init (pid m ms : Z) (u : UserState) : UserState * err unit :=
  let proc := Process_init pid (RANDOM_SEED + pid) in
  match real_init_all dlsym_next (u_real u) with
  | inl e => (mkUser m ms (Some proc) (u_real u) (u_mem u) (u_snapshot_space u) (u_exit_handlers u), inl e)
  | inr real =>
      let u := mkUser m ms (Some proc) real (init_memory_ops dlsym_next (u_mem u)).1 (u_snapshot_space u) (u_exit_handlers u) in
      match mmap (SNAPSHOT_PAGES * CXLMC_PAGE_SIZE) with
      | None => (u, inl (Exit 1))
      | Some mapping =>
          let space := create_mspace_with_base mapping (SNAPSHOT_PAGES * CXLMC_PAGE_SIZE) 1 in
          let u := mkUser m ms (u_process u) (u_real u) (u_mem u) space (u_exit_handlers u) in
          if space =? 0 then (u, inl (Exit 1))
          else (mkUser m ms (u_process u) (u_real u) (u_mem u) space (user_exit :: u_exit_handlers u), inr tt)
      end
  end.
End UserInit.


(** The parent's loop over what [waitpid] reports: the children it kills and the
    value it exits with, [None] when all children have ended. *)
Inductive wait_status := WExited (code : Z) | WSignaled (sig : Z) | WStopped (sig : Z).
Fixpoint wait_children (l : list (Z * wait_status)) (pids : list Z) (progc : Z) : list Z * option Z :=
  match l with
  | [] => ([], None)
  | (_, WExited _) :: l => wait_children l pids progc
  | (_, _) :: _ => (take (Z.to_nat progc) pids, Some EXIT_FAILURE)
  end.

(** ** The words of a command line *)

Fixpoint unwords (ws : list cstring) : cstring :=
  match ws with [] => [] | [w] => w | w :: ws => w ++ blank :: unwords ws end.
Definition is_word (w : cstring) : Prop := w <> [] /\ blank ∉ w.

Lemma word_end w : blank ∉ w -> word w = (w, []).
Proof.
  induction w as [|c w IH]; [done|]. rewrite not_elem_of_cons. intros [Hc Hw]. simpl.
  by rewrite bool_decide_false, IH by done.
Qed.
Lemma word_blank w r : blank ∉ w -> word (w ++ blank :: r) = (w, r).
Proof.
  induction w as [|c w IH]; [done|].
  rewrite not_elem_of_cons. intros [Hc Hw]. simpl. by rewrite bool_decide_false, IH by done.
Qed.
Lemma skip_word w r : is_word w -> skip_blanks (w ++ r) = w ++ r.
Proof. intros [Hne Hw]. destruct w as [|c w]; [done|]. apply not_elem_of_cons in Hw as [Hc _]. simpl. by rewrite bool_decide_false. Qed.

Lemma strtok_unwords w ws : is_word w -> Forall is_word ws -> strtok_r (unwords (w :: ws)) = Some (w, unwords ws).
Proof.
  intros Hw Hws. unfold strtok_r. destruct ws as [|w' ws].
  - change (unwords [w]) with w. rewrite <- (app_nil_r w) at 1. rewrite skip_word, app_nil_r by done.
    destruct Hw as [Hne Hb]. destruct w as [|c w]; [done|]. by rewrite word_end.
  - change (unwords (w :: w' :: ws)) with (w ++ blank :: unwords (w' :: ws)). rewrite skip_word by done.
    destruct Hw as [Hne Hb]. rewrite <- (word_blank w (unwords (w' :: ws)) Hb). by destruct w as [|c w].
Qed.

Lemma length_unwords ws : Forall is_word ws -> (length ws <= length (unwords ws))%nat.
Proof.
  induction 1 as [|w ws Hw Hws IH]; [done|]. destruct Hw as [Hne _]. destruct w as [|c w]; [done|].
  destruct ws as [|w' ws]; [simpl; lia|]. change (unwords ((c :: w) :: w' :: ws)) with ((c :: w) ++ blank :: unwords (w' :: ws)).
  rewrite length_app. cbn [length] in *. lia.
Qed.

Lemma strtok_end : strtok_r (unwords []) = None.
Proof. done. Qed.

(** The block holds the words read so far, then unused pointers. *)
Lemma token_loop_words ws : forall fuel old r cap, Forall is_word ws -> (length ws <= fuel)%nat ->
  cap = lenZ old + Z.of_nat r -> 1 <= cap -> exists r',
  token_loop fuel (unwords ws) (lenZ old) cap ((Some <$> old) ++ replicate r None)
    = inr (lenZ (old ++ ws), lenZ (old ++ ws) + Z.of_nat r', (Some <$> old ++ ws) ++ replicate r' None).
Proof.
  induction ws as [|w ws IH]; intros fuel old r cap Hws Hf Hcap Hpos.
  { exists r. rewrite app_nil_r. subst cap. destruct fuel; cbn [token_loop]; by rewrite strtok_end. }
  apply Forall_cons in Hws as [Hw Hws]. destruct fuel as [|fuel]; simpl in Hf; [lia|]. cbn [token_loop].
  rewrite strtok_unwords by done.
  assert (exists r1 cap1, (if lenZ old =? cap then (cap * 2, ((Some <$> old) ++ replicate r None) ++ replicate (Z.to_nat cap) None)
    else (cap, (Some <$> old) ++ replicate r None)) = (cap1, (Some <$> old) ++ None :: replicate r1 None) /\
    cap1 = lenZ old + 1 + Z.of_nat r1) as (r1 & cap1 & -> & Hcap1).
  { unfold lenZ in *. case_if.
    - assert (r = O) as -> by lia. exists (Z.to_nat cap - 1)%nat, (cap * 2). split; [|lia]. simpl. rewrite app_nil_r.
      do 3 f_equal. replace (Z.to_nat cap) with (S (Z.to_nat cap - 1)) at 1 by lia. done.
    - destruct r as [|r]; [lia|]. exists r, cap. split; [done|lia]. }
  assert (lenZ old < lenZ ((Some <$> old) ++ None :: replicate r1 None)) as Hlt.
  { unfold lenZ. rewrite length_app, length_fmap. simpl. lia. }
  rewrite (proj2 (Z.leb_le _ _)), (proj2 (Z.ltb_lt _ _)) by (done || apply lenZ_nonneg). cbn [andb].
  assert (<[Z.to_nat (lenZ old):=Some w]> ((Some <$> old) ++ None :: replicate r1 None) = (Some <$> old ++ [w]) ++ replicate r1 None) as ->.
  { rewrite insert_app_r_alt by (rewrite length_fmap; unfold lenZ; lia). rewrite length_fmap.
    replace (Z.to_nat (lenZ old) - length old)%nat with O by (unfold lenZ; lia). simpl. by rewrite fmap_app, <- app_assoc. }
  replace (lenZ old + 1) with (lenZ (old ++ [w])) by (rewrite lenZ_app; done).
  destruct (IH fuel (old ++ [w]) r1 cap1 Hws ltac:(lia)) as (r' & Hr'); [rewrite lenZ_app; unfold lenZ in *; simpl; lia|pose proof (lenZ_nonneg old); lia|].
  exists r'. rewrite Hr'. by rewrite <- !app_assoc.
Qed.

(** ** Properties *)

(** What [user_prog] does with the words of its argument. *)
Definition load_program (dlopen : cstring -> option Z) (dlsym : Z -> cstring -> option Z) (path : cstring)
    (n cap : Z) (argv : list (option cstring)) : err user_prog :=
  let? handle := or_exit (dlopen path) in
  let? i := or_exit (dlsym handle (lit "user_init")) in
  let? m := or_exit (dlsym handle (lit "main")) in
  let? d := or_exit (dlsym handle (lit "user_done")) in
  inr (mkProg n argv cap i m d).

(** The command line of a program under test is split into its words: for words
    without blanks, joined by blanks, [user_prog] loads the first word and hands
    all of them over in [argv], in order, inside a block that is large enough. *)
Theorem program_words dlopen dlsym w ws : Forall is_word (w :: ws) -> exists cap argv,
  user_prog_new dlopen dlsym (unwords (w :: ws)) = load_program dlopen dlsym w (lenZ (w :: ws)) cap argv /\
  lenZ argv = cap /\ lenZ (w :: ws) <= cap /\ take (length (w :: ws)) argv = Some <$> w :: ws.
Proof.
  intros Hws. destruct (token_loop_words (w :: ws) (length (unwords (w :: ws))) [] 5 5 Hws) as (r & Hr); [by apply length_unwords|done|lia|].
  assert (token_loop (length (unwords (w :: ws))) (unwords (w :: ws)) 0 5 (replicate 5 None) =
    inr (lenZ (w :: ws), lenZ (w :: ws) + Z.of_nat r, (Some <$> w :: ws) ++ replicate r None)) as Hr' by exact Hr.
  eexists _, _. split; [|split; [|split]].
  - unfold user_prog_new. rewrite Hr'. cbn [ebind]. rewrite (proj2 (Z.eqb_neq _ _)) by (unfold lenZ; simpl; lia). reflexivity.
  - rewrite lenZ_app. unfold lenZ. rewrite length_fmap, length_replicate. done.
  - lia.
  - rewrite take_app_length'; [done|]. by rewrite length_fmap.
Qed.

Definition demo_dlopen (s : cstring) : option Z := if bool_decide (s = lit "./a.so") then Some 1 else None.
Definition demo_dlsym (h : Z) (s : cstring) : option Z := Some (Z.of_nat (length s)).
Lemma program_words_witness : exists cap argv,
  user_prog_new demo_dlopen demo_dlsym (lit "./a.so -n 3") = inr (mkProg 3 argv cap 9 4 9) /\
  lenZ argv = cap /\ 3 <= cap /\ take 3 argv = Some <$> [lit "./a.so"; lit "-n"; lit "3"].
Proof.
  refine (program_words demo_dlopen demo_dlsym (lit "./a.so") [lit "-n"; lit "3"] _).
  repeat constructor; (discriminate || (vm_compute; set_solver)).
Defined.

(** Every process has a program, and every program a process: the checks of [main]
    let no program go unused. *)
Lemma check_options_ok o : check_options o = inr tt -> 0 < progc o <= processes o.
Proof. unfold check_options. repeat case_if; try done. intros _. pose proof (lenZ_nonneg (progv o)). unfold progc in *. lia. Qed.

Theorem every_program_runs o : check_options o = inr tt ->
  (forall id, 0 <= id < processes o -> exists p, program_of o id = Some p /\ p ∈ progv o) /\
  (forall p, p ∈ progv o -> exists id, 0 <= id < processes o /\ program_of o id = Some p).
Proof.
  intros Hc%check_options_ok. unfold program_of, progc in *. split.
  - intros id Hid. destruct (lookupZ_is_Some (progv o) (id mod lenZ (progv o))) as [p Hp]; [unfold lenZ in *; apply Z.mod_pos_bound; lia|].
    exists p. split; [done|]. unfold lookupZ in Hp. case_match; [done|]. by eapply list_elem_of_lookup_2.
  - intros p (i & Hi)%list_elem_of_lookup. apply lookup_lt_Some in Hi as Hlt. exists (Z.of_nat i). unfold lenZ in *. split; [lia|].
    rewrite Z.mod_small by lia. unfold lookupZ. rewrite (proj2 (Z.ltb_ge _ _)) by lia. by rewrite Nat2Z.id.
Qed.

(** The scheduler and the model lie in the mapping, after the space and apart. *)
Lemma layout_apart mapping s m : 0 <= s -> 0 <= m -> let l := shared_layout mapping s m in
  mapping + SHARED_MAP_SIZE <= scheduler_at l /\ scheduler_at l + s <= model_at l /\ model_at l + m = mapping + map_size l.
Proof. simpl. lia. Qed.

(** What a child of [user_init] starts with, and how it fails. *)
Lemma user_init_cases dl mm cm pid m ms : (forall s, dl s <> Some 0) ->
  match user_init dl mm cm pid m ms user_fresh with
  | (u, inr _) =>
      u_process u = Some (Process_init pid (RANDOM_SEED + pid)) /\ u_exit_handlers u = [user_exit] /\ u_snapshot_space u <> 0 /\
      (forall f args, exists a, dl (symbol f) = Some a /\ call_real f args (u_real u) = inr (a, args)) /\
      (forall n, n ∈ mem_names -> pointer_of n (u_mem u) = default 0 (dl n))
  | (u, inl e) => e = Exit EXIT_FAILURE /\ u_exit_handlers u = []
  end.
Proof.
  intros Hd. unfold user_init. simpl.
  pose proof (load_symbols_spec dl real_fns real_null real_fns_nodup) as Hr. unfold real_init_all.
  destruct (load_symbols dl real_fns real_null) as [e|t']; [by destruct Hr as [-> _]|].
  destruct (mm _) as [p|]; [|done]. destruct (cm p _ _ =? 0) eqn:Ez; simpl; [done|]. bools. split; [done|]. split; [done|]. split; [lia|].
  destruct Hr as [Hr _]. split.
  - intros f args. exists (t' f). specialize (Hr f (real_fns_all f)). split; [exact Hr|]. unfold call_real.
    destruct (t' f =? 0) eqn:Ef; [|done]. apply Z.eqb_eq in Ef. rewrite Ef in Hr. by destruct (Hd (symbol f)).
  - intros n Hn. destruct (init_memory_ops_looked_up dl mem_null) as [H1 _]. rewrite H1 by done.
    rewrite decide_True by (unfold mem_names in Hn; set_solver). unfold found, pointer_of. by repeat case_decide.
Qed.

(** A child that cannot start exits without its exit handler: nothing hands the
    processor over, and the parent takes no notice of a child that exits. *)
Theorem failed_child_is_ignored dl mm cm pid m ms u c l pids progc : (forall s, dl s <> Some 0) ->
  user_init dl mm cm pid m ms user_fresh = (u, inl (Exit EXIT_FAILURE)) ->
  u_exit_handlers u = [] /\ wait_children ((c, WExited EXIT_FAILURE) :: l) pids progc = wait_children l pids progc.
Proof.
  intros Hd Hu. pose proof (user_init_cases dl mm cm pid m ms Hd) as Hc. rewrite Hu in Hc. by destruct Hc.
Qed.

(** When a child dies, the parent kills the first [progc] children only, though it
    has forked [processes] of them. *)
Theorem wait_kills_programs_only l pids progc c sig : progc <= lenZ pids -> 0 <= progc ->
  wait_children ((c, WSignaled sig) :: l) pids progc = (take (Z.to_nat progc) pids, Some EXIT_FAILURE) /\
  lenZ (take (Z.to_nat progc) pids) = progc.
Proof. intros H1 H2. split; [done|]. unfold lenZ in *. rewrite length_take. lia. Qed.
