(* ===== verification/Findings.v ===== *)
(** * Findings: behaviours that the model shows on concrete states

    Each example runs the definitions of the development on a small state and
    shows a behaviour that the code does not mean to have, or that a comment of
    the code describes differently. *)
From S2P Require Import Prelude Choice Action ReadFrom CacheLine ThreadMemory State Scheduler ModelCore Executor ReadSound Wf ModelSafe Buffers Safety Flush Execution Program Api Pthread.

#[local] Existing Instance counter_rand.

(** Why the leaves of a computation stop, [None] for a leaf that returns. *)
Definition stops {S A} (t : tree (result S A)) : list (option stop) :=
  (fun r => match r with Val _ _ => None | Stop e _ => Some e end) <$> leaves t.

(** A store of 11 to address 64 by thread [tid]. *)
Definition store_11 (tid : Z) : ModelAction := ModelAction_new tid NONATOMIC_STORE 64 11 memory_order_relaxed 8 "demo".

(** Process 1 of the demonstration state, declared crashed by another process
    while its thread waits in [yield]. *)
Definition as_crashed : St :=
  on_sched (with_active 1) (on_proc (fun _ => Process_init 1 0) demo_crashed).

(** A new action of the process ends it at once, but the action that waited in
    [yield] is still carried out: [Model::action] asks for the crash before the
    yield only. *)
Example crashed_process_stops : stops (action (store_11 1) true as_crashed) = [Some (Exit EXIT_SUCCESS)].
Proof. vm_compute. reflexivity. Qed.
Definition buffer_after (o : outcome) (tid : Z) : M St (outcome * list Z) :=
  let! t := get_thread tid in ret (o, Action.value <$> storeBuffer (thread_memory t)).
Example crashed_process_acts :
  values ((let! o := resume PExec (store_11 1) in buffer_after o 1) as_crashed) = [Some (Done 11, [11])].
Proof. vm_compute. reflexivity. Qed.

(** [pthread_create] buffers a store of the thread's number without giving its
    word an initial value: once the store has left the buffer, a load of the
    whole word finds no store for the upper bytes. *)
Definition create : ModelAction := ModelAction_new 0 PTHREAD_CREATE 64 4096 memory_order_seq_cst 1 "demo".
Definition load_64 : ModelAction := ModelAction_new 0 NONATOMIC_LOAD 64 0 memory_order_relaxed 8 "demo".
Example create_without_initial_value :
  stops ((action create false ;;; empty_buffers 0 ;;; action load_64 false) (initial 1 0 0)) =
    [Some (AssertFail "build_read_from: a byte has no store")].
Proof. vm_compute. reflexivity. Qed.
(** With an access to the word before, the load returns. *)
Example create_after_access :
  stops ((action load_64 false ;;; action create false ;;; empty_buffers 0 ;;; action load_64 false) (initial 1 0 0)) = [None].
Proof. vm_compute. reflexivity. Qed.

(** [pthread_exit] by the last thread of the program ends in [assert(0)]. *)
Example last_thread_exit : stops (run (pthread_exit 0) (initial 1 0 0)) = [Some (AssertFail "Thread::finalize")].
Proof. vm_compute. reflexivity. Qed.

(** [pthread_cond_timedwait] always fails: [get_mutex] does not know the type. *)
Example timedwait_fails : stops (run (pthread_cond_timedwait 100 200) (initial 1 0 0)) = [Some (AssertFail "get_mutex")].
Proof. vm_compute. reflexivity. Qed.

(** [pthread_mutex_destroy] answers [EINVAL] for a mutex that exists and reads
    past the map for one that does not. *)
Example destroy_known : values (run (let* _ := pthread_mutex_init 100 None in pthread_mutex_destroy 100) (initial 1 0 0)) =
  [Some EINVAL].
Proof. vm_compute. reflexivity. Qed.
Example destroy_unknown : stops (run (pthread_mutex_destroy 100) (initial 1 0 0)) =
  [Some (UB "iter->second of mutex_map->end()")].
Proof. vm_compute. reflexivity. Qed.

(** Locking an error-checking mutex twice returns 0, with [EDEADLK] in [errno]
    only; unlocking a mutex of another thread returns 0 too. *)
Example errorcheck_returns_zero :
  values (run (let* _ := pthread_mutex_init 100 (Some PTHREAD_MUTEX_ERRORCHECK) in
               let* _ := pthread_mutex_lock 100 in
               let* r := pthread_mutex_lock 100 in
               let* e := perform (gets (fun s => errno (proc s))) in Ret (r, e)) (initial 1 0 0)) = [Some (0, EDEADLK)].
Proof. vm_compute. reflexivity. Qed.

(** The first store of an execution has the sequence number 0 and is never lost:
    process 1 stored 7 first and crashed, and the load of process 0 returns 7 in
    every execution. *)
Definition first_store : St :=
  on_mdl (fun m => with_crashes {[1 := 1]} (with_wr {[64 := [ModelAction_new 0 ATOMIC_INIT 64 5 memory_order_relaxed 8 "demo";
    demo_store 7 0]]} (with_next_seq 1 m))) (initial 2 0 0).
Example first_store_never_lost : values (build_read_from demo_read first_store) = [Some 7].
Proof. vm_compute. reflexivity. Qed.

(** Threads that join themselves, for ever.  When all other threads are done the
    exit handler of the deadlocked process takes it for the last one and ends
    the execution like a successful one: [main] ignores the exit code.  When
    another process is blocked too, the exit handler meets the deadlock again
    and exits before it counts the execution, and [take_snapshot] waits for
    ever. *)
Definition join_self (tid : Z) : ModelAction := ModelAction_new tid PTHREAD_JOIN tid tid memory_order_seq_cst 1 EmptyString.
Definition exit_handler {A} (r : result St A) : option (list (stop + bool)) :=
  match r with
  | Stop (Exit c) s =>
      if c =? EXIT_FAILURE then Some ((fun r => match r with Val b _ => inr b | Stop e _ => inl e end) <$> leaves (finalize s)) else None
  | _ => None
  end.
Example lone_deadlock_counts :
  exit_handler <$> leaves (action (join_self 0) false (initial 1 0 0)) = [Some [inr false]].
Proof. vm_compute. reflexivity. Qed.
Example deadlock_exits_twice :
  exit_handler <$> leaves ((action (join_self 0) false ;;; modify (on_proc (fun _ => Process_init 1 0)) ;;;
    action (join_self 1) false) (initial 2 0 0)) = [Some [inl (Exit EXIT_FAILURE)]].
Proof. vm_compute. reflexivity. Qed.
Lemma deadlock_stalls child fuel r r' : child r = (Some (Exited EXIT_SUCCESS), r') -> execution_num r' = execution_num r ->
  rollback_again r' = true -> execution_num r < MAX_EXECUTION ->
  take_snapshot child (S fuel) (execution_num r) r = (Stuck r', [r]).
Proof.
  intros Hc Hn Hr Hm. cbn [take_snapshot]. rewrite Hc. change (failed (Exited EXIT_SUCCESS)) with false. cbn iota.
  unfold wait_for_next_execution. rewrite Hr, Hn. rewrite (proj2 (Z.ltb_ge _ _)) by lia. cbn [negb orb].
  by rewrite (proj2 (Z.ltb_lt _ _)) by lia.
Qed.
